(* ===== verification/_CoqProject ===== *)
-Q . S2P
Prelude.v
JsMap.v
JsString.v
JsValue.v
Wire.v
WireGuards.v
WireFrames.v
WireSpec.v
Retention.v
NumberText.v
RetentionSpec.v
TranscriptWindow.v
ProjectionSanitize.v
Preview.v
ProjectionOptions.v
ResourceRetention.v
ResourceRetentionSpec.v
ClientProjection.v
ClientInvariant.v
ClientStream.v
SnapshotLimits.v
SnapshotSpec.v
HostProjection.v
JsObject.v
HostInvariant.v
Sync.v
Mirror.v
PromptLifecycle.v
PromptLifecycleSpec.v
PromptHost.v
Idempotency.v
IdempotencySpec.v
CursorJournal.v
CursorJournalSpec.v
ClientRequests.v
ClientRequestsSpec.v
ReconnectHealthSpec.v
InboundQueue.v
ClientLifecycle.v
ClientLifecycleSpec.v
ClientLifecycleRuns.v
ClientCursors.v
ClientCursorsSpec.v
WriterLease.v
WriterLeaseSpec.v
LedgerState.v
LedgerTickets.v
LedgerAdmission.v
LedgerResources.v
LedgerCalls.v
LedgerStore.v
LedgerStoreSpec.v
LedgerHistory.v
KubernetesLedger.v
LedgerTicketSpec.v
LedgerAdmissionSpec.v
LedgerIdempotencySpec.v
LedgerIngressSpec.v
LedgerEventSpec.v
ScopeAdmission.v
ScopeAdmissionSpec.v
RpcChildRegistry.v
RpcChildRegistrySpec.v
ImageUpload.v
ImageUploadSpec.v
Commands.v
DeviceRegistry.v
RemoteLeases.v
RemotePolicy.v
RemotePolicySpec.v
RemoteLeaseSpec.v
RemoteOutbound.v
