(* ===== verification/Prelude.v ===== *)
(** * Verification of the T4 host, client and control plane

    ** The program

    A host service runs coding-agent sessions and projects each of them as a stream of frames
    (durable entries, events, gaps, snapshots, workspace states).  Clients decode the frames and
    reduce them to a bounded projection that the user interface shows; after a lost connection a
    client resumes from the cursor it remembered.  Commands travel the other way and must run at
    most once.  In a cluster, a session pod writes only while it holds a Kubernetes Lease, and
    the replicas of the control plane share one ledger of tickets, idempotency keys, admission
    reservations, ingress leases and events that each of them updates by compare-and-swap.

    The data flow the theorems follow: [host-service/projection.ts] appends to a session and
    emits frames; [host-wire] decodes them; [client/projection-reducer.ts] reduces them with the
    budgets of [client/transcript-retention.ts] and [client/projection-retention.ts];
    [client/omp-client-cursor.ts] saves the cursor from which [projection.ts] later replays.

    ** The files (sources under [src/packages])

    Foundation: [Prelude] (this file: notation, tactics, lists, saturating sums, attempts that
    may throw), [JsMap] (insertion-ordered maps), [JsString] (UTF-16 and UTF-8), [JsValue] (JSON
    values, their text and its size), [NumberText] (decimal text of integers), [JsObject]
    (property updates).

    Wire format, [host-wire/src]: [Wire] ([limits.ts], [errors.ts], records of the wire),
    [WireGuards] ([guards.ts], [ids.ts], [cursor.ts]), [WireFrames] ([entry.ts],
    [files-review.ts], [snapshot.ts], [event.ts], [gap.ts], [heartbeat.ts], [cluster.ts],
    [envelope.ts]), [WireSpec] (their theorems); [Commands] ([capabilities.ts],
    [command-descriptors/]).

    Client, [client/src]: [Retention], [RetentionSpec] and [TranscriptWindow]
    ([transcript-retention.ts]); [ProjectionSanitize], [Preview], [ProjectionOptions]
    ([projection-sanitize.ts], [projection-preview.ts], [projection-options.ts]);
    [ResourceRetention], [ResourceRetentionSpec] ([projection-retention.ts]); [ClientProjection]
    ([projection-reducer.ts], [projection-resource-reducers.ts], [projection-contract.ts]);
    [ClientInvariant], [ClientStream] (theorems of the reducer); [CursorJournal],
    [CursorJournalSpec] ([omp-client-cursor.ts]); [ClientRequests], [ClientRequestsSpec],
    [ReconnectHealthSpec] ([omp-client-pending.ts], [omp-client-response.ts],
    [omp-client-timers.ts], [omp-client-reconnect-health.ts] and the sending of requests in
    [omp-client-runtime.ts]); [InboundQueue] ([omp-client-inbound.ts]); [ClientLifecycle],
    [ClientLifecycleSpec], [ClientLifecycleRuns] ([omp-client-connection.ts],
    [omp-client-state.ts], and of [omp-client-runtime.ts] connecting, handshake, loss, failure
    and closing); [ClientCursors], [ClientCursorsSpec] (of [omp-client-runtime.ts] the acceptance
    of session frames by their cursors).

    Host, [host-service/src]: [SnapshotLimits], [SnapshotSpec] ([snapshot-limits.ts]);
    [HostProjection], [HostInvariant] ([projection.ts], [attach-output.ts]); [Idempotency],
    [IdempotencySpec] ([idempotency.ts]); [PromptLifecycle], [PromptLifecycleSpec], [PromptHost]
    ([prompt-lifecycle-controller.ts], against the interface of a projection, and the instance
    that [HostProjection] is); [RpcChildRegistry], [RpcChildRegistrySpec]
    ([rpc-child-registry.ts]); [ImageUpload], [ImageUploadSpec] ([image-upload-store.ts]);
    [DeviceRegistry], [RemoteLeases] ([security/index.ts]: paired devices, tickets for pairing,
    leases), [RemotePolicy], [RemoteOutbound] ([remote/policy.ts]), [RemotePolicySpec],
    [RemoteLeaseSpec] (their theorems).

    Host and client together: [Sync] (what a replay does to a client) and [Mirror] (the
    simulation between host and client).

    Cluster: [WriterLease], [WriterLeaseSpec] ([cluster-server/src/session-writer-lease.ts]);
    [LedgerState], [LedgerTickets], [LedgerAdmission], [LedgerResources], [LedgerCalls]
    ([portable-control-store/src/shared-control-store.ts]: the state with its validation and one
    definition per method); [LedgerStore] (the loop [#mutate] and the SQLite storage of
    [sqlite-shared-ledger-storage.ts]); [LedgerStoreSpec] (concurrent runs are sequential
    histories), [LedgerHistory] (reasoning about such histories), [LedgerTicketSpec],
    [LedgerAdmissionSpec], [LedgerIdempotencySpec], [LedgerIngressSpec], [LedgerEventSpec] (what
    the histories of each kind of request promise); [KubernetesLedger]
    ([cluster-server/src/kubernetes-control-store.ts]: the ledger in a ConfigMap);
    [ScopeAdmission], [ScopeAdmissionSpec] ([cluster-server/src/scope-admission.ts]).

    ** What the theorems show

    - Host and client stay in step ([Mirror], [Sync]): a client that receives every frame shows
      the retained window of the host's transcript; a replay after any missed operations, or an
      attach completed after further ones, brings it back.  They rest on the invariants of each
      side ([HostInvariant], [ClientInvariant]) and on [ClientStream]: frames one by one give
      what one snapshot gives, a discontinuity halts a session until a newer snapshot, cursors
      never rewind.
    - Nothing outgrows its budget: snapshots ([SnapshotSpec]), transcripts, events and texts
      ([RetentionSpec]), terminals and files ([ResourceRetentionSpec]), the whole client
      projection ([ClientInvariant]); the byte counts the code keeps are the sizes of the JSON
      texts, and every search loop ends.
    - Decoding is sound ([WireSpec]): the iterative JSON validator accepts exactly the trees
      within its limits, accepted paths stay inside their directory, decoded values are stable
      under re-encoding.
    - The client always moves on: with listeners and transports that call back into it at every
      point, it keeps at most one transport open and in every state something is under way that
      takes it to the next ([ClientLifecycleRuns]); every request is settled exactly once,
      by its response, a timeout, an abort or the end of the connection, which tells it that its
      outcome is unknown ([ClientRequestsSpec]); the reconnect budget is restored exactly when
      the heartbeat and all sessions recovered ([ReconnectHealthSpec]); inbound frames are
      handled in order and none is lost while the connection stays ([InboundQueue]); the frames
      of a session are passed on without gaps, or the session waits for a snapshot
      ([ClientCursorsSpec]).
    - A host kills only orphans: process groups that a host which no longer runs registered, on
      a machine that reuses pids ([RpcChildRegistrySpec]).  Its uploads stay within their quotas
      and a prompt gets only images that are what was declared, each once, which stay until the
      prompt released them ([ImageUploadSpec]).
    - Remote connections do what they were allowed: an allowed frame goes back to a sign-in with
      the token of a device that was never revoked and to the ticket the device was paired with,
      whose capabilities it stays within ([RemotePolicySpec]); changes of a session need its one
      lease, and codes cannot be guessed quickly ([RemoteLeaseSpec]); what is sent carries no
      tokens, paths or secrets ([RemoteOutbound]).
    - Work is done once: command ids ([IdempotencySpec]), prompts and their transient entries
      ([PromptLifecycleSpec]), saved cursors ([CursorJournalSpec]).
    - One writer, one history: two pods never both hold the Lease ([WriterLeaseSpec]); calls on
      the shared ledger are atomic over any storage that honours versions ([LedgerStoreSpec]), so
      a ticket is consumed at most once, no scope is admitted past its limits, an idempotency
      key is new to one caller only, a fence around runtime ingress holds, and readers of events
      miss none as long as the replicas' clocks agree ([LedgerTicketSpec],
      [LedgerAdmissionSpec], [LedgerIdempotencySpec], [LedgerIngressSpec], [LedgerEventSpec]).
      The storages in SQLite and in a ConfigMap honour versions ([LedgerStoreSpec],
      [KubernetesLedger]).  The reservations of a change are settled by what came of it, on every
      path of failure, a resource counts once, and a finished deletion leaves nothing reserved
      ([ScopeAdmissionSpec]).

    ** How code became definitions

    Classes are records of their fields and methods return the next record; shared mutable
    objects compared by identity live in a heap ([PromptLifecycle]).  Asynchronous methods are
    state machines suspended at each awaited request ([CursorJournal], [WriterLease],
    [LedgerStore]); their runs are step relations in which requests are delayed, lost or served
    after they were abandoned.  Listeners and transports are foreign code: where the source
    calls them the model runs an arbitrary list of calls back into the client, whose own calls
    to foreign code nest to an arbitrary depth ([ClientLifecycleRuns]).  Code that only makes
    calls one after the other is a tree of its calls, run against every answer
    ([ScopeAdmission]).  Numbers are exact integers where the code checks
    [Number.isSafeInteger], saturating where it saturates, and decimals where JSON allows them.
    Thrown errors are values; where several errors end alike, their messages are not kept.
    Recursion that the source bounds by a depth counter uses that counter as fuel; loops without
    one take fuel that a theorem shows to be enough, and running out of it is a visible [None].

    Parameters, because their code is outside the repository: SHA-256 and HMAC, the engine's
    collation [localeCompare] and Unicode normalisation, [isIP] of Node, the URL parser, [Date.parse], and the text sanitiser [projectMessageText] of
    [discovery.ts].  Interfaces with laws and instances: [PromptProjection] (instance: the host
    projection), [LeaseServer] (the Kubernetes API; instance: a server of one Lease),
    [LedgerStorage] (instances: SQLite, and a ConfigMap on any [ConfigMapServer]) and
    [ConfigMapServer] (the Kubernetes API; instance: a server of one object).

    ** Simplifications to know

    Values are trees: caches keyed by object identity are memos of the functions they cache, and
    cycle checks have no counterpart.  Assigning a property named [__proto__] is modelled where
    it is observable (the sanitiser) and excluded elsewhere.  JSON text is not parsed: decoding
    starts from values.  Printed entries have their properties in canonical order.  Frames pass
    from host to client directly, without the properties a newer host may add; the envelope
    property [v] is not counted in event sizes.  Omitted-entry counts are assumed to be safe
    integers.  Clocks read whole milliseconds.  A cursor store whose [save] throws synchronously,
    and the prompt controller's [clear] within a run, are not modelled.  In runs of the writer
    lease a pod does not acquire again after it started to release, and nobody else writes the
    holder.  Two ledger states are equal when their canonical JSON texts are; states written by
    older versions of the ledger are not modelled, nor is the [subscribe] generator.  The
    client's connection and its requests are two models over separate timers, although the
    source keeps their timers in one registry; closing a transport does not call back, a pong
    counts when it answers the last ping, and the random number of the backoff is a fraction.
    A ConfigMap holds the text of a ledger, which is not parsed.  The acceptance of session
    frames is a third view of the client's runtime, without its connection; scope admission
    takes the snapshot of the principal as an argument.  Nothing happens between the inspection
    of a process and its kill, and writing the registry of child processes does not fail.

    ** Not modelled

    Sockets, child processes and command routing ([host-service/src/server.ts] and its
    neighbours), the command builders, previews and session attachment of
    [client/src/omp-client-runtime.ts], discovery of session files and full-text search, the HTTP
    and Kubernetes front end of the cluster server except the writer lease, the ledger's storage
    and scope admission, the SQLite control store of [portable-control-store/src/index.ts], the remaining frame
    kinds of [host-wire], the user interfaces, command line tools and scripts: I/O for the most
    part, or decoders like those modelled.  The operator and the iOS application are written in
    other languages. *)
From stdpp Require Import base tactics option list numbers strings sets.
From Stdlib Require Import Ascii.

Declare Scope omp_scope.
Delimit Scope omp_scope with omp.
Open Scope Z_scope.

(** JavaScript strings are sequences of UTF-16 code units. *)
Abbreviation jstr := (list N).

(** ASCII literals: [js "abc"] is the JavaScript string literal. *)
Fixpoint js (s : string) : jstr :=
  match s with
  | EmptyString => []
  | String.String c rest => N_of_ascii c :: js rest
  end.
Arguments js _%_string_scope.

(** [Array.prototype.length] and [String.prototype.length] as integers. *)
Definition len {A} (l : list A) : Z := Z.of_nat (length l).

(** [l.slice(-n)] for a non-negative [n] (with [n = 0] meaning [slice(-0)], the whole list). *)
Definition slice_last {A} (n : Z) (l : list A) : list A :=
  if Z.eqb n 0 then l else drop (length l - Z.to_nat n) l.

(** [l.slice(0, n)] for a non-negative [n]. *)
Definition slice_first {A} (n : Z) (l : list A) : list A := take (Z.to_nat n) l.

(** [l.at(-1)] *)
Fixpoint last_of {A} (l : list A) : option A :=
  match l with
  | [] => None
  | [x] => Some x
  | _ :: rest => last_of rest
  end.

(** [String.prototype.startsWith] on code units. *)
Fixpoint starts_with (p s : jstr) : bool :=
  match p, s with
  | [], _ => true
  | a :: p', b :: s' => N.eqb a b && starts_with p' s'
  | _ :: _, [] => false
  end.

(** Relational [<] on strings: lexicographic on code units. *)
Fixpoint jstr_lt (a b : jstr) : bool :=
  match a, b with
  | [], [] => false
  | [], _ :: _ => true
  | _ :: _, [] => false
  | x :: a', y :: b' => N.ltb x y || (N.eqb x y && jstr_lt a' b')
  end.

Definition jstr_eqb (a b : jstr) : bool := bool_decide (a = b).

(** A call that returns or throws an [Error] with a message. *)
Inductive attempt (A : Type) := Done (a : A) | Threw (message : jstr).
Arguments Done {A} a.
Arguments Threw {A} message.

(** [Number.MAX_SAFE_INTEGER] *)
Definition MAX_SAFE_INTEGER : Z := 9007199254740991.

(** ** Tactics of the development *)

(** Split every conjunction, boolean conjunction and existential in the context. *)
Ltac bool_hyps :=
  repeat match goal with
  | H : _ && _ = true |- _ => apply andb_true_iff in H; destruct H
  | H : _ || _ = false |- _ => apply orb_false_iff in H; destruct H
  | H : negb _ = true |- _ => apply negb_true_iff in H
  | H : negb _ = false |- _ => apply negb_false_iff in H
  | H : (_ =? _)%N = true |- _ => apply N.eqb_eq in H
  | H : (_ =? _)%N = false |- _ => apply N.eqb_neq in H
  | H : (_ <? _)%N = true |- _ => apply N.ltb_lt in H
  | H : (_ <? _)%N = false |- _ => apply N.ltb_ge in H
  | H : (_ <=? _)%N = true |- _ => apply N.leb_le in H
  | H : (_ <=? _)%N = false |- _ => apply N.leb_gt in H
  | H : (_ =? _)%Z = true |- _ => apply Z.eqb_eq in H
  | H : (_ =? _)%Z = false |- _ => apply Z.eqb_neq in H
  | H : (_ <? _)%Z = true |- _ => apply Z.ltb_lt in H
  | H : (_ <? _)%Z = false |- _ => apply Z.ltb_ge in H
  | H : (_ <=? _)%Z = true |- _ => apply Z.leb_le in H
  | H : (_ <=? _)%Z = false |- _ => apply Z.leb_gt in H
  | H : (_ >? _)%Z = true |- _ => apply Z.gtb_lt in H
  | H : (_ >=? _)%Z = true |- _ => apply Z.geb_le in H
  | H : (_ >? _)%Z = false |- _ => rewrite Z.gtb_ltb in H; apply Z.ltb_ge in H
  | H : (_ >=? _)%Z = false |- _ => rewrite Z.geb_leb in H; apply Z.leb_gt in H
  | H : bool_decide _ = true |- _ => apply bool_decide_eq_true in H
  | H : bool_decide _ = false |- _ => apply bool_decide_eq_false in H
  end.

(** Case on the scrutinee of the first [if]/[match] of the goal, keeping the equation. *)
Ltac case_goal :=
  match goal with
  | |- context [if ?b then _ else _] => destruct b eqn:?
  | |- context [match ?x with _ => _ end] => destruct x eqn:?
  end.

(** Prove a closed decidable proposition by evaluating its decision procedure. *)
Ltac by_compute := apply (bool_decide_unpack _); vm_compute; exact I.

(** ** Hint databases *)
Create HintDb omp.
Create Rewrite HintDb omp_len.

(** [Array.prototype.sort] with a consistent comparator is the stable sort: insertion keeps the
    order of entries the comparator calls equal. *)
Section Sort.
Context {A : Type} (compare : A -> A -> comparison).

Fixpoint insert_sorted (x : A) (l : list A) : list A :=
  match l with
  | [] => [x]
  | y :: rest => match compare x y with Gt => y :: insert_sorted x rest | _ => x :: l end
  end.

Definition sort (l : list A) : list A := fold_right insert_sorted [] l.
End Sort.

(** ** Generic lemmas *)

Section ListLemmas.
Context {A : Type}.
Implicit Types l : list A.

Lemma len_nonneg l : 0 <= len l.
Proof. unfold len. lia. Qed.

Lemma len_nil : len (@nil A) = 0.
Proof. reflexivity. Qed.

Lemma len_cons x l : len (x :: l) = 1 + len l.
Proof. unfold len. simpl. lia. Qed.

Lemma len_app l l' : len (l ++ l') = len l + len l'.
Proof. unfold len. rewrite length_app. lia. Qed.

Lemma len_map {B} (f : A -> B) l : len (map f l) = len l.
Proof. unfold len. by rewrite length_map. Qed.

Lemma len_zero_nil l : len l = 0 -> l = [].
Proof. destruct l; [done|rewrite len_cons; pose proof (len_nonneg l); lia]. Qed.

Lemma last_of_app l x : last_of (l ++ [x]) = Some x.
Proof.
  induction l as [|y l IH]; [done|]. simpl.
  destruct (l ++ [x]) eqn:E; [by destruct l|done].
Qed.

Lemma last_of_in l x : last_of l = Some x -> x ∈ l.
Proof.
  induction l as [|y l IH]; [done|]. simpl. destruct l.
  - intros [= ->]. set_solver.
  - intros H. apply elem_of_cons. right. by apply IH.
Qed.

Lemma slice_last_suffix n l : slice_last n l `suffix_of` l.
Proof.
  unfold slice_last. destruct (n =? 0); [done|].
  exists (take (length l - Z.to_nat n) l). by rewrite take_drop.
Qed.

Lemma slice_last_len n l : 0 < n -> len (slice_last n l) <= n.
Proof.
  intros Hn. unfold slice_last, len. destruct (Z.eqb_spec n 0); [lia|].
  rewrite length_drop. lia.
Qed.

Lemma slice_last_all n l : 0 < n -> len l <= n -> slice_last n l = l.
Proof.
  unfold len, slice_last. intros ? ?. destruct (Z.eqb_spec n 0); [done|].
  replace (length l - Z.to_nat n)%nat with 0%nat by lia. done.
Qed.

Lemma NoDup_filter_list (P : A -> bool) l :
  NoDup l -> NoDup (List.filter P l).
Proof.
  rewrite !NoDup_ListNoDup. apply List.NoDup_filter.
Qed.

Lemma elem_of_filter_list (P : A -> bool) l x :
  x ∈ List.filter P l <-> x ∈ l /\ P x = true.
Proof. rewrite !list_elem_of_In. apply filter_In. Qed.

Lemma len_filter_le (P : A -> bool) l : len (List.filter P l) <= len l.
Proof. unfold len. pose proof (List.filter_length_le P l). lia. Qed.

Lemma filter_all_true (P : A -> bool) l :
  (forall x, x ∈ l -> P x = true) -> List.filter P l = l.
Proof.
  induction l as [|x l IH]; intros H; [done|]. simpl.
  rewrite H by set_solver. f_equal. apply IH. set_solver.
Qed.
End ListLemmas.

#[export] Hint Resolve len_nonneg : omp.
#[export] Hint Rewrite @len_nil @len_cons @len_app @len_map : omp_len.

(** Normalise [len] and close the linear arithmetic goal. *)
Ltac len_lia := autorewrite with omp_len in *; lia.

Lemma starts_with_app p s : starts_with p (p ++ s) = true.
Proof. induction p as [|a p IH]; simpl; [done|]. by rewrite N.eqb_refl. Qed.

Lemma starts_with_iff p s : starts_with p s = true <-> exists t, s = p ++ t.
Proof.
  split; [|intros [t ->]; apply starts_with_app].
  revert s. induction p as [|a p IH]; intros s H; [by exists s|].
  destruct s as [|b s]; [done|]. simpl in H. bool_hyps. subst.
  destruct (IH _ H0) as [t ->]. by exists t.
Qed.

Lemma jstr_eqb_eq a b : jstr_eqb a b = true <-> a = b.
Proof. unfold jstr_eqb. apply bool_decide_eq_true. Qed.

Lemma jstr_eqb_refl a : jstr_eqb a a = true.
Proof. by apply jstr_eqb_eq. Qed.

Lemma jstr_eqb_neq a b : jstr_eqb a b = false <-> a ≠ b.
Proof. unfold jstr_eqb. apply bool_decide_eq_false. Qed.

Lemma jstr_lt_irrefl a : jstr_lt a a = false.
Proof. induction a as [|x a IH]; simpl; [done|]. by rewrite N.ltb_irrefl, N.eqb_refl. Qed.

Lemma jstr_lt_trans a b c : jstr_lt a b = true -> jstr_lt b c = true -> jstr_lt a c = true.
Proof.
  revert b c. induction a as [|x a IH]; intros [|y b] [|z c]; simpl; try done.
  intros H1 H2. apply orb_true_iff in H1, H2. apply orb_true_iff.
  destruct H1 as [H1|H1], H2 as [H2|H2]; bool_hyps; subst.
  - left. apply N.ltb_lt. lia.
  - left. by apply N.ltb_lt.
  - left. by apply N.ltb_lt.
  - right. rewrite N.eqb_refl. simpl. eauto.
Qed.

Lemma jstr_lt_total a b : jstr_lt a b = false -> jstr_lt b a = false -> a = b.
Proof.
  revert b. induction a as [|x a IH]; intros [|y b]; simpl; try done.
  intros H1 H2. bool_hyps.
  assert (x = y) as -> by lia.
  rewrite N.eqb_refl in *. simpl in *. f_equal. auto.
Qed.

(** Sums of integers. *)
Definition sumZ (l : list Z) : Z := fold_right Z.add 0 l.

Lemma sumZ_app l l' : sumZ (l ++ l') = sumZ l + sumZ l'.
Proof. induction l as [|x l IH]; simpl; lia. Qed.

Lemma sumZ_nonneg l : Forall (fun z => 0 <= z) l -> 0 <= sumZ l.
Proof. induction 1; simpl; lia. Qed.

Lemma sumZ_cons x l : sumZ (x :: l) = x + sumZ l.
Proof. done. Qed.

(** Separators between [n] items. *)
Definition seps (n : Z) : Z := Z.max 0 (n - 1).

(** ** Sublists *)

Lemma sublist_elem {A} (l l' : list A) x : l' `sublist_of` l -> x ∈ l' -> x ∈ l.
Proof. induction 1; rewrite ?elem_of_cons; tauto. Qed.

Lemma filter_sublist {A} (P : A -> bool) l : List.filter P l `sublist_of` l.
Proof. induction l as [|x l IH]; [done|]. simpl. destruct (P x); by constructor. Qed.

Lemma sublist_map {A B} (f : A -> B) l l' : l' `sublist_of` l -> map f l' `sublist_of` map f l.
Proof. induction 1; simpl; by constructor. Qed.
