(* ===== verification/JsMap.v ===== *)
(** * JsMap: the insertion-ordered [Map] of JavaScript

    [Map] (and the client's [ImmutableMap], a frozen view of one) iterates its entries in the
    order in which the keys were first inserted; [set] on an existing key keeps its position and
    [delete] followed by [set] moves the key to the end.  The code relies on that order for its
    LRU policies, so a map is modelled as an association list without duplicate keys, kept in
    iteration order. *)
From stdpp Require Import base tactics option list numbers sets.
From S2P Require Import Prelude.

Abbreviation jsmap K V := (list (K * V)).

Section JsMapDef.
Context {K V : Type} `{EqDecision K}.

Fixpoint map_get (k : K) (m : jsmap K V) : option V :=
  match m with
  | [] => None
  | (k', v) :: rest => if decide (k = k') then Some v else map_get k rest
  end.

Definition map_has (k : K) (m : jsmap K V) : bool :=
  match map_get k m with Some _ => true | None => false end.

Fixpoint map_set (k : K) (v : V) (m : jsmap K V) : jsmap K V :=
  match m with
  | [] => [(k, v)]
  | (k', v') :: rest => if decide (k = k') then (k', v) :: rest else (k', v') :: map_set k v rest
  end.

Definition map_delete (k : K) (m : jsmap K V) : jsmap K V :=
  List.filter (fun kv => negb (bool_decide (k = fst kv))) m.

Definition map_keys (m : jsmap K V) : list K := map fst m.
Definition map_values (m : jsmap K V) : list V := map snd m.
Definition map_size (m : jsmap K V) : Z := len m.

(** [new Map(entries)] *)
Definition map_of_entries (l : list (K * V)) : jsmap K V :=
  fold_left (fun m kv => map_set (fst kv) (snd kv) m) l [].

Definition map_wf (m : jsmap K V) : Prop := NoDup (map_keys m).
End JsMapDef.

#[export] Instance map_wf_dec {K V} `{EqDecision K} (m : jsmap K V) : Decision (map_wf m).
Proof. unfold map_wf. apply _. Defined.

Section JsMapTheory.
Context {K V : Type} `{EqDecision K}.
Implicit Types (m : jsmap K V) (k : K) (v : V).

Lemma map_get_set k k' v m :
  map_get k (map_set k' v m) = if decide (k = k') then Some v else map_get k m.
Proof.
  induction m as [|[a b] m IH]; simpl.
  - by destruct (decide (k = k')).
  - destruct (decide (k' = a)) as [->|Hne]; simpl.
    + by destruct (decide (k = a)).
    + rewrite IH. destruct (decide (k = a)) as [->|]; [|done].
      by destruct (decide (a = k')) as [->|].
Qed.

Lemma map_get_set_eq k v m : map_get k (map_set k v m) = Some v.
Proof. rewrite map_get_set. by rewrite decide_True. Qed.

Lemma map_get_set_ne k k' v m : k ≠ k' -> map_get k (map_set k' v m) = map_get k m.
Proof. intros ?. rewrite map_get_set. by rewrite decide_False. Qed.

Lemma map_get_delete k k' m :
  map_get k (map_delete k' m) = if decide (k = k') then None else map_get k m.
Proof.
  induction m as [|[a b] m IH]; simpl.
  - by destruct (decide (k = k')).
  - destruct (bool_decide_reflect (k' = a)) as [->|Hne]; simpl.
    + rewrite IH. by destruct (decide (k = a)).
    + rewrite IH. destruct (decide (k = a)) as [->|]; [|done].
      by destruct (decide (a = k')) as [->|].
Qed.

Lemma map_get_delete_eq k m : map_get k (map_delete k m) = None.
Proof. rewrite map_get_delete. by rewrite decide_True. Qed.

Lemma map_get_delete_ne k k' m : k ≠ k' -> map_get k (map_delete k' m) = map_get k m.
Proof. intros ?. rewrite map_get_delete. by rewrite decide_False. Qed.

Lemma map_get_some_in k v m : map_get k m = Some v -> (k, v) ∈ m.
Proof.
  induction m as [|[a b] m IH]; simpl; [done|].
  destruct (decide (k = a)) as [->|]; [intros [= ->]|intros]; set_solver.
Qed.

Lemma map_get_none_keys k m : map_get k m = None <-> k ∉ map_keys m.
Proof.
  induction m as [|[a b] m IH]; simpl; [set_solver|].
  destruct (decide (k = a)) as [->|]; [set_solver|].
  rewrite IH. unfold map_keys. set_solver.
Qed.

Lemma map_get_keys k m : is_Some (map_get k m) <-> k ∈ map_keys m.
Proof.
  destruct (map_get k m) as [v|] eqn:E.
  - split; [|eauto]. intros _. apply map_get_some_in in E.
    unfold map_keys. apply list_elem_of_fmap. by exists (k, v).
  - apply map_get_none_keys in E. split; [intros [? ?]; done|done].
Qed.

Lemma map_has_keys k m : map_has k m = true <-> k ∈ map_keys m.
Proof.
  rewrite <- map_get_keys. unfold map_has.
  destruct (map_get k m); split; intros H; eauto; [done|by destruct H].
Qed.

Lemma map_has_false k m : map_has k m = false <-> k ∉ map_keys m.
Proof. rewrite <- map_has_keys. destruct (map_has k m); split; congruence. Qed.

Lemma map_in_get k v m : map_wf m -> (k, v) ∈ m -> map_get k m = Some v.
Proof.
  unfold map_wf. induction m as [|[a b] m IH]; simpl; [set_solver|].
  intros [Hn Hnd]%NoDup_cons [[= -> ->]|Hin]%elem_of_cons; [by rewrite decide_True|].
  rewrite decide_False; [auto|].
  intros ->. apply Hn. apply list_elem_of_fmap. by exists (a, v).
Qed.

Lemma map_keys_set k v m :
  map_keys (map_set k v m) = if map_has k m then map_keys m else map_keys m ++ [k].
Proof.
  unfold map_has. induction m as [|[a b] m IH]; simpl; [done|].
  destruct (decide (k = a)) as [->|]; simpl; [done|].
  unfold map_keys in *. rewrite IH. by destruct (map_get k m).
Qed.

Lemma map_keys_delete k m :
  map_keys (map_delete k m) = List.filter (fun a => negb (bool_decide (k = a))) (map_keys m).
Proof.
  induction m as [|[a b] m IH]; simpl; [done|].
  destruct (negb _); simpl; by rewrite ?IH.
Qed.

Lemma elem_of_keys_set k k' v m : k ∈ map_keys (map_set k' v m) <-> k = k' \/ k ∈ map_keys m.
Proof.
  rewrite map_keys_set. destruct (map_has k' m) eqn:E; [|set_solver].
  apply map_has_keys in E. set_solver.
Qed.

Lemma elem_of_keys_delete k k' m : k ∈ map_keys (map_delete k' m) <-> k ≠ k' /\ k ∈ map_keys m.
Proof.
  rewrite map_keys_delete, elem_of_filter_list.
  destruct (bool_decide_reflect (k' = k)); simpl; naive_solver.
Qed.

Lemma map_wf_nil : map_wf (@nil (K * V)).
Proof. apply NoDup_nil_2. Qed.

Lemma map_wf_set k v m : map_wf m -> map_wf (map_set k v m).
Proof.
  unfold map_wf. rewrite map_keys_set. destruct (map_has k m) eqn:E; [done|].
  intros. apply NoDup_app. split_and!; [done| |apply NoDup_singleton].
  apply map_has_false in E. set_solver.
Qed.

Lemma map_wf_delete k m : map_wf m -> map_wf (map_delete k m).
Proof. unfold map_wf. rewrite map_keys_delete. apply NoDup_filter_list. Qed.

Lemma map_wf_cons_inv k v m : map_wf ((k, v) :: m) -> k ∉ map_keys m /\ map_wf m.
Proof. unfold map_wf. simpl. by rewrite NoDup_cons. Qed.

Lemma map_delete_notin k m : k ∉ map_keys m -> map_delete k m = m.
Proof.
  intros Hn. apply filter_all_true. intros [a b] Hin. simpl.
  apply negb_true_iff, bool_decide_eq_false. intros ->.
  apply Hn, list_elem_of_fmap. by exists (a, b).
Qed.

Lemma map_delete_head k v m : map_wf ((k, v) :: m) -> map_delete k ((k, v) :: m) = m.
Proof.
  intros [Hn _]%map_wf_cons_inv. unfold map_delete. simpl.
  rewrite bool_decide_true by done. simpl. by apply map_delete_notin.
Qed.

Lemma map_set_notin k v m : k ∉ map_keys m -> map_set k v m = m ++ [(k, v)].
Proof.
  induction m as [|[a b] m IH]; simpl; [done|].
  intros Hn. rewrite decide_False by set_solver. rewrite IH; [done|set_solver].
Qed.

Lemma map_size_set k v m :
  map_size (map_set k v m) = if map_has k m then map_size m else map_size m + 1.
Proof.
  unfold map_size. rewrite <- !(len_map fst). fold (map_keys (map_set k v m)).
  rewrite map_keys_set. destruct (map_has k m); [done|]. rewrite len_app. done.
Qed.

Lemma map_size_delete_le k m : map_size (map_delete k m) <= map_size m.
Proof. apply len_filter_le. Qed.

Lemma map_size_delete k m :
  map_wf m -> map_size (map_delete k m) = if map_has k m then map_size m - 1 else map_size m.
Proof.
  unfold map_size. induction m as [|[a b] m IH]; intros Hwf.
  - done.
  - apply map_wf_cons_inv in Hwf as [Hn Hwf]. specialize (IH Hwf).
    unfold map_delete, map_has in *. simpl.
    destruct (decide (k = a)) as [->|Hne].
    + rewrite bool_decide_true by done. simpl.
      fold (map_delete a m). rewrite map_delete_notin by done. len_lia.
    + rewrite bool_decide_false by done. simpl. rewrite !len_cons.
      destruct (map_get k m); lia.
Qed.

Lemma map_wf_of_entries (l : list (K * V)) : map_wf (map_of_entries l).
Proof.
  unfold map_of_entries.
  cut (forall m, map_wf m -> map_wf (fold_left (fun m kv => map_set (fst kv) (snd kv) m) l m));
    [intros H; apply H, map_wf_nil|].
  induction l as [|[a b] l IH]; intros m Hm; simpl; [done|]. by apply IH, map_wf_set.
Qed.

Lemma map_of_entries_nodup (l : list (K * V)) : map_wf l -> map_of_entries l = l.
Proof.
  intros Hwf. unfold map_of_entries.
  cut (forall p, map_wf (p ++ l) ->
    fold_left (fun m kv => map_set (fst kv) (snd kv) m) l p = p ++ l); [intros H; by apply (H [])|].
  clear Hwf. induction l as [|[a b] l IH]; intros p Hp; simpl; [by rewrite app_nil_r|].
  rewrite map_set_notin.
  - rewrite IH; [by rewrite <- app_assoc|]. by rewrite <- app_assoc.
  - unfold map_wf, map_keys in Hp. rewrite map_app in Hp.
    apply NoDup_app in Hp as (_ & Hd & _). intros Hin. apply (Hd a Hin). set_solver.
Qed.

Lemma map_filter_wf (P : K * V -> bool) m : map_wf m -> map_wf (List.filter P m).
Proof.
  unfold map_wf. induction m as [|[a b] m IH]; simpl; [done|].
  intros [Hn Hnd]%NoDup_cons. destruct (P (a, b)); simpl; [|auto].
  apply NoDup_cons. split; [|auto].
  intros Hin. apply Hn. unfold map_keys in *.
  apply list_elem_of_fmap in Hin as ([x y] & -> & Hin).
  apply elem_of_filter_list in Hin as [Hin _]. apply list_elem_of_fmap. by exists (x, y).
Qed.

Lemma map_get_filter (P : K * V -> bool) m k v :
  map_wf m -> map_get k (List.filter P m) = Some v <-> map_get k m = Some v /\ P (k, v) = true.
Proof.
  intros Hwf. split.
  - intros H%map_get_some_in. apply elem_of_filter_list in H as [Hin HP].
    split; [by apply map_in_get|done].
  - intros [H%map_get_some_in HP]. apply map_in_get; [by apply map_filter_wf|].
    by apply elem_of_filter_list.
Qed.
End JsMapTheory.

#[export] Hint Resolve map_wf_nil map_wf_set map_wf_delete map_filter_wf map_wf_of_entries : omp.

(** ** Weighted maps: the running totals the retention code keeps *)
Section MapSum.
Context {K V : Type} `{EqDecision K} (w : V -> Z).
Implicit Types (m : jsmap K V).

Definition map_sum m : Z := sumZ (map (fun kv => w (snd kv)) m).

Lemma map_sum_app m m' : map_sum (m ++ m') = map_sum m + map_sum m'.
Proof. unfold map_sum. by rewrite map_app, sumZ_app. Qed.

Lemma map_sum_delete k v m :
  map_wf m -> map_get k m = Some v -> map_sum (map_delete k m) = map_sum m - w v.
Proof.
  induction m as [|[a b] m IH]; intros Hwf Hg; simpl in Hg; [done|].
  destruct (decide (k = a)) as [->|Hne].
  - injection Hg as ->. rewrite map_delete_head by done.
    unfold map_sum. simpl. lia.
  - apply map_wf_cons_inv in Hwf as [Hn Hwf]. specialize (IH Hwf Hg).
    unfold map_delete in *. simpl. rewrite bool_decide_false by done. simpl.
    unfold map_sum in *. simpl. lia.
Qed.

Lemma map_sum_set_eq k v v' m :
  map_get k m = Some v -> map_sum (map_set k v' m) = map_sum m - w v + w v'.
Proof.
  induction m as [|[a b] m IH]; simpl; [done|].
  destruct (decide (k = a)) as [->|Hne].
  - intros [= ->]. unfold map_sum. simpl. lia.
  - intros Hg. specialize (IH Hg). unfold map_sum in *. simpl. lia.
Qed.

Lemma map_sum_set_fresh k v m : k ∉ map_keys m -> map_sum (map_set k v m) = map_sum m + w v.
Proof. intros. rewrite map_set_notin by done. rewrite map_sum_app. unfold map_sum. simpl. lia. Qed.

Lemma map_sum_nonneg m : (forall v, 0 <= w v) -> 0 <= map_sum m.
Proof. intros Hw. apply sumZ_nonneg. apply Forall_map, Forall_true. auto. Qed.

End MapSum.

Section MapFind.
Context {K V : Type}.
Implicit Types (m : jsmap K V).

(** [iterator.find] on the entries of a map. *)
Fixpoint map_find (P : K -> V -> bool) m : option (K * V) :=
  match m with
  | [] => None
  | (k, v) :: rest => if P k v then Some (k, v) else map_find P rest
  end.

Lemma map_find_some P m k v : map_find P m = Some (k, v) -> (k, v) ∈ m /\ P k v = true.
Proof.
  induction m as [|[a b] m IH]; simpl; [done|]. destruct (P a b) eqn:E.
  - intros [= -> ->]. set_solver.
  - intros H. destruct (IH H). set_solver.
Qed.

Lemma map_find_none P m : map_find P m = None -> forall k v, (k, v) ∈ m -> P k v = false.
Proof.
  induction m as [|[a b] m IH]; simpl; [set_solver|]. destruct (P a b) eqn:E; [done|].
  intros H k v [[= -> ->]|Hin]%elem_of_cons; [done|by apply IH].
Qed.
End MapFind.
