(* ===== verification/JsString.v ===== *)
(** * JsString: UTF-16 strings and the UTF-8 coders of the platform

    [TextEncoder] and [TextDecoder] (the WHATWG UTF-8 encoder and decoder) as executable
    functions on code units and bytes, with the round trip that the retention code relies on.
    Bytes and code units are [N]. *)
From stdpp Require Import base tactics option list numbers.
From S2P Require Import Prelude.

Definition is_lead (u : N) : bool := (0xD800 <=? u)%N && (u <=? 0xDBFF)%N.
Definition is_trail (u : N) : bool := (0xDC00 <=? u)%N && (u <=? 0xDFFF)%N.

(** Code points of a string with every unpaired surrogate replaced by U+FFFD
    (conversion to a USVString, which [TextEncoder.encode] applies).  A list element of 2^16 or
    more is no code unit; it is read as U+FFFD too, so that every list denotes a text. *)
Fixpoint code_points (s : jstr) : list N :=
  match s with
  | [] => []
  | u :: rest =>
      if is_lead u then
        match rest with
        | t :: rest' =>
            if is_trail t
            then (0x10000 + (u - 0xD800) * 0x400 + (t - 0xDC00))%N :: code_points rest'
            else 0xFFFD%N :: code_points rest
        | [] => [0xFFFD%N]
        end
      else if is_trail u || (0x10000 <=? u)%N then 0xFFFD%N :: code_points rest
      else u :: code_points rest
  end.

(** UTF-8 bytes of one scalar value. *)
Definition utf8_cp (c : N) : list N :=
  (if c <? 0x80 then [c]
   else if c <? 0x800 then [0xC0 + c / 0x40; 0x80 + c mod 0x40]
   else if c <? 0x10000 then [0xE0 + c / 0x1000; 0x80 + c / 0x40 mod 0x40; 0x80 + c mod 0x40]
   else [0xF0 + c / 0x40000; 0x80 + c / 0x1000 mod 0x40; 0x80 + c / 0x40 mod 0x40;
         0x80 + c mod 0x40])%N.

(** [new TextEncoder().encode(s)] *)
Definition utf8_encode (s : jstr) : list N := flat_map utf8_cp (code_points s).

Definition utf8Bytes (s : jstr) : Z := len (utf8_encode s).

(** UTF-16 code units of one scalar value. *)
Definition utf16_cp (c : N) : jstr :=
  (if c <? 0x10000 then [c]
   else [0xD800 + (c - 0x10000) / 0x400; 0xDC00 + (c - 0x10000) mod 0x400])%N.

(** The WHATWG UTF-8 decoder: the state is [None] at a boundary, or the code point built so
    far, the number of continuation bytes still needed and the accepted range of the next. *)
Definition dec_state : Type := option (N * nat * N * N).

Definition dec_start (b : N) : list N * dec_state :=
  (if b <=? 0x7F then ([b], None)
   else if (0xC2 <=? b) && (b <=? 0xDF) then ([], Some (b - 0xC0, 1%nat, 0x80, 0xBF))
   else if (0xE0 <=? b) && (b <=? 0xEF)
     then ([], Some (b - 0xE0, 2%nat, if b =? 0xE0 then 0xA0 else 0x80,
                     if b =? 0xED then 0x9F else 0xBF))
   else if (0xF0 <=? b) && (b <=? 0xF4)
     then ([], Some (b - 0xF0, 3%nat, if b =? 0xF0 then 0x90 else 0x80,
                     if b =? 0xF4 then 0x8F else 0xBF))
   else ([0xFFFD], None))%N.

Definition dec_step (st : dec_state) (b : N) : list N * dec_state :=
  match st with
  | None => dec_start b
  | Some (cp, needed, lower, upper) =>
      if (lower <=? b)%N && (b <=? upper)%N then
        let cp' := (cp * 0x40 + (b - 0x80))%N in
        match needed with
        | S (S n) => ([], Some (cp', S n, 0x80%N, 0xBF%N))
        | _ => ([cp'], None)
        end
      else
        let (out, st') := dec_start b in (0xFFFD%N :: out, st')
  end.

Fixpoint dec_run (st : dec_state) (bs : list N) : list N :=
  match bs with
  | [] => match st with None => [] | Some _ => [0xFFFD%N] end
  | b :: rest => let (out, st') := dec_step st b in out ++ dec_run st' rest
  end.

Definition strip_bom (cps : list N) : list N :=
  match cps with
  | c :: rest => if N.eqb c 0xFEFF then rest else cps
  | [] => []
  end.

(** [new TextDecoder().decode(bytes)] *)
Definition utf8_decode (bs : list N) : jstr := flat_map utf16_cp (strip_bom (dec_run None bs)).

(** ** Round trip *)

Definition scalar (c : N) : Prop := (c < 0xD800)%N \/ (0xE000 <= c < 0x110000)%N.

Definition is_cont (b : N) : bool := N.eqb (N.land b 0xC0) 0x80.

(** Induction on a string two code units at a time, as the coders consume it. *)
Lemma jstr_ind2 (P : jstr -> Prop) :
  P [] -> (forall u, P [u]) -> (forall u t s, P (t :: s) -> P s -> P (u :: t :: s)) -> forall s, P s.
Proof.
  intros H0 H1 H2 s. cut (P s /\ forall u, P (u :: s)); [tauto|].
  induction s as [|t s [IH1 IH2]]; [split; auto|]. split; [apply IH2|].
  intros u. apply H2; auto.
Qed.

Lemma unit_scalar u :
  is_lead u = false -> is_trail u || (0x10000 <=? u)%N = false -> scalar u.
Proof.
  unfold is_lead, is_trail, scalar. intros H1 H2. bool_hyps.
  apply andb_false_iff in H1 as [?|?], H as [?|?]; bool_hyps; lia.
Qed.

Lemma pair_scalar u t : is_lead u = true -> is_trail t = true ->
  scalar (0x10000 + (u - 0xD800) * 0x400 + (t - 0xDC00))%N.
Proof. unfold is_lead, is_trail, scalar. intros. bool_hyps. lia. Qed.

Lemma replacement_scalar : scalar 0xFFFD.
Proof. unfold scalar. lia. Qed.

Lemma code_points_scalar s : Forall scalar (code_points s).
Proof.
  induction s as [|u|u t s IH1 IH2] using jstr_ind2; [constructor| |].
  - simpl. destruct (is_lead u) eqn:?; [|destruct (_ || _) eqn:?];
      (constructor; [auto using unit_scalar, replacement_scalar|constructor]).
  - change (code_points (u :: t :: s)) with
      (if is_lead u then if is_trail t
         then (0x10000 + (u - 0xD800) * 0x400 + (t - 0xDC00))%N :: code_points s
         else 0xFFFD%N :: code_points (t :: s)
       else if is_trail u || (0x10000 <=? u)%N then 0xFFFD%N :: code_points (t :: s)
       else u :: code_points (t :: s)).
    destruct (is_lead u) eqn:?; [destruct (is_trail t) eqn:?|destruct (_ || _) eqn:?];
      (constructor; [auto using pair_scalar, unit_scalar, replacement_scalar|assumption]).
Qed.

Ltac dec_simp :=
  repeat (unfold dec_step, dec_start; simpl;
    repeat match goal with
    | |- context [(?a <=? ?b)%N] =>
        first [ rewrite (proj2 (N.leb_le a b)) by lia | rewrite (proj2 (N.leb_gt a b)) by lia ]
    | |- context [(?a =? ?b)%N] =>
        first [ rewrite (proj2 (N.eqb_eq a b)) by lia | rewrite (proj2 (N.eqb_neq a b)) by lia ]
    end; simpl).

Lemma dec_two a d rest :
  (2 <= a < 0x20 -> d < 0x40 ->
   dec_run None ([0xC0 + a; 0x80 + d] ++ rest) = a * 0x40 + d :: dec_run None rest)%N.
Proof. intros. dec_simp. f_equal. lia. Qed.

Lemma dec_three a b d rest :
  (a < 0x10 -> b < 0x40 -> d < 0x40 -> 0x20 <= a * 0x40 + b -> ~ (0x360 <= a * 0x40 + b < 0x380) ->
   dec_run None ([0xE0 + a; 0x80 + b; 0x80 + d] ++ rest)
   = a * 0x1000 + b * 0x40 + d :: dec_run None rest)%N.
Proof.
  intros. simpl. unfold dec_start. dec_simp.
  destruct (N.eqb_spec (0xE0 + a) 0xE0), (N.eqb_spec (0xE0 + a) 0xED);
    dec_simp; try (f_equal; lia); lia.
Qed.

Lemma dec_four a b c d rest :
  (a < 5 -> b < 0x40 -> c < 0x40 -> d < 0x40 -> 0x10 <= a * 0x40 + b < 0x110 ->
   dec_run None ([0xF0 + a; 0x80 + b; 0x80 + c; 0x80 + d] ++ rest)
   = a * 0x40000 + b * 0x1000 + c * 0x40 + d :: dec_run None rest)%N.
Proof.
  intros. simpl. unfold dec_start. dec_simp.
  destruct (N.eqb_spec (0xF0 + a) 0xF0), (N.eqb_spec (0xF0 + a) 0xF4);
    dec_simp; try (f_equal; lia); lia.
Qed.

#[local] Ltac Zify.zify_post_hook ::= Z.to_euclidean_division_equations.

Lemma split64 c : (c = c / 0x40 * 0x40 + c mod 0x40)%N /\ (0 <= c mod 0x40 < 0x40)%N.
Proof. lia. Qed.

#[local] Ltac Zify.zify_post_hook ::= idtac.

Lemma dec_cp c rest : scalar c -> dec_run None (utf8_cp c ++ rest) = c :: dec_run None rest.
Proof.
  unfold scalar, utf8_cp. intros Hc.
  destruct (split64 c) as [E0 B0], (split64 (c / 0x40)) as [E1 B1],
    (split64 (c / 0x40 / 0x40)) as [E2 B2].
  replace (c / 0x1000)%N with (c / 0x40 / 0x40)%N by (rewrite N.Div0.div_div; done).
  replace (c / 0x40000)%N with (c / 0x40 / 0x40 / 0x40)%N by (rewrite !N.Div0.div_div; done).
  destruct (N.ltb_spec c 0x80); [dec_simp; done|].
  destruct (N.ltb_spec c 0x800); [rewrite dec_two by lia; f_equal; lia|].
  destruct (N.ltb_spec c 0x10000); [rewrite dec_three by lia; f_equal; lia|].
  rewrite dec_four by lia. f_equal. lia.
Qed.

Lemma dec_cps cps : Forall scalar cps -> dec_run None (flat_map utf8_cp cps) = cps.
Proof.
  induction 1 as [|c cps Hc _ IH]; [done|]. simpl. rewrite dec_cp by done. by rewrite IH.
Qed.

Lemma code_points_utf16_cp c rest :
  scalar c -> code_points (utf16_cp c ++ rest) = c :: code_points rest.
Proof.
  unfold scalar, utf16_cp. intros Hc.
  destruct (N.ltb_spec c 0x10000).
  - simpl. unfold is_lead, is_trail. rewrite (proj2 (N.leb_gt 0x10000 c)) by lia.
    destruct (N.leb_spec 0xD800 c), (N.leb_spec c 0xDBFF), (N.leb_spec 0xDC00 c), (N.leb_spec c 0xDFFF);
      simpl; try done; lia.
  - set (d := (c - 0x10000)%N). assert (d < 0x100000)%N by lia.
    assert (d = d / 0x400 * 0x400 + d mod 0x400)%N as E.
    { rewrite N.mul_comm. apply N.div_mod'. }
    assert (d mod 0x400 < 0x400)%N by (apply N.mod_lt; done).
    generalize dependent (d / 0x400)%N. generalize dependent (d mod 0x400)%N. intros r Hr q E.
    simpl. unfold is_lead, is_trail.
    repeat match goal with
    | |- context [(?a <=? ?b)%N] => rewrite (proj2 (N.leb_le a b)) by lia
    end. simpl. f_equal. lia.
Qed.

Lemma code_points_of cps : Forall scalar cps -> code_points (flat_map utf16_cp cps) = cps.
Proof.
  induction 1 as [|c cps Hc _ IH]; [done|].
  simpl. rewrite code_points_utf16_cp by done. by rewrite IH.
Qed.

Lemma strip_bom_suffix cps : strip_bom cps `suffix_of` cps.
Proof.
  destruct cps as [|c cps]; [by exists []|]. unfold strip_bom.
  destruct (N.eqb c 0xFEFF); [by exists [c]|by exists []].
Qed.

Lemma Forall_suffix {A} (P : A -> Prop) (l l' : list A) : l `suffix_of` l' -> Forall P l' -> Forall P l.
Proof. intros [k ->] H. by apply Forall_app in H as [_ ?]. Qed.

Lemma utf8_encode_decode cps :
  Forall scalar cps -> utf8_encode (utf8_decode (flat_map utf8_cp cps)) = flat_map utf8_cp (strip_bom cps).
Proof.
  intros H. unfold utf8_encode, utf8_decode. rewrite dec_cps by done.
  rewrite code_points_of; [done|]. eapply Forall_suffix; [apply strip_bom_suffix|done].
Qed.

(** ** Character boundaries in encoded text *)

(** [while (offset < length && (encoded[offset] & 0xc0) === 0x80) offset += 1], as the bytes
    from [offset] on. *)
Fixpoint skip_cont (bs : list N) : list N :=
  match bs with
  | b :: rest => if is_cont b then skip_cont rest else bs
  | [] => []
  end.

(** [while (end > 0 && end < length && (encoded[end] & 0xc0) === 0x80) end -= 1] *)
Fixpoint back_off (bs : list N) (e : nat) : nat :=
  match e with
  | O => O
  | S e' =>
      match bs !! e with
      | Some b => if is_cont b then back_off bs e' else e
      | None => e
      end
  end.

Definition boundary (bs : list N) (k : nat) : Prop :=
  (k = length bs)%nat \/ exists b, bs !! k = Some b /\ is_cont b = false.

Lemma is_cont_spec b : (b < 0x100)%N -> is_cont b = (0x80 <=? b)%N && (b <? 0xC0)%N.
Proof.
  intros Hb.
  assert (forallb (fun n => eqb (is_cont (N.of_nat n))
            ((0x80 <=? N.of_nat n)%N && (N.of_nat n <? 0xC0)%N)) (seq 0 256) = true) as H
    by (vm_compute; reflexivity).
  rewrite forallb_forall in H. specialize (H (N.to_nat b)).
  rewrite N2Nat.id in H. apply eqb_prop. apply H. apply in_seq. lia.
Qed.

Lemma utf8_cp_shape c : scalar c -> exists b bs,
  utf8_cp c = b :: bs /\ is_cont b = false /\ Forall (fun x => is_cont x = true) bs.
Proof.
  unfold scalar, utf8_cp. intros Hc.
  destruct (split64 c) as [E0 B0], (split64 (c / 0x40)) as [E1 B1],
    (split64 (c / 0x40 / 0x40)) as [E2 B2].
  replace (c / 0x1000)%N with (c / 0x40 / 0x40)%N by (rewrite N.Div0.div_div; done).
  replace (c / 0x40000)%N with (c / 0x40 / 0x40 / 0x40)%N by (rewrite !N.Div0.div_div; done).
  assert (0 <= c / 0x40)%N by lia. assert (0 <= c / 0x40 / 0x40)%N by lia.
  assert (0 <= c / 0x40 / 0x40 / 0x40)%N by lia.
  assert (forall d, (d < 0x40)%N -> is_cont (0x80 + d) = true) as Hcont.
  { intros d Hd. rewrite is_cont_spec by lia. apply andb_true_iff. split; [apply N.leb_le|apply N.ltb_lt]; lia. }
  assert (forall b, (0xC0 <= b < 0x100)%N -> is_cont b = false) as Hlead.
  { intros b Hb. rewrite is_cont_spec by lia. apply andb_false_iff. right. apply N.ltb_ge. lia. }
  repeat case_goal; bool_hyps; eexists _, _; (split; [reflexivity|]);
    (split; [|repeat (constructor; [apply Hcont; lia|]); constructor]).
  - rewrite is_cont_spec by lia. apply andb_false_iff. left. apply N.leb_gt. lia.
  - apply Hlead. lia.
  - apply Hlead. lia.
  - apply Hlead. lia.
Qed.

Lemma utf8_cp_nonempty c : (0 < length (utf8_cp c))%nat.
Proof. unfold utf8_cp. repeat case_goal; simpl; lia. Qed.

(** Every character boundary of encoded text splits the code points. *)
Lemma boundary_split cps k :
  Forall scalar cps -> (k <= length (flat_map utf8_cp cps))%nat ->
  boundary (flat_map utf8_cp cps) k ->
  exists p q, cps = p ++ q /\ k = length (flat_map utf8_cp p).
Proof.
  intros Hs. revert k. induction Hs as [|c cps Hc Hcps IH]; intros k Hk Hb.
  { exists [], []. simpl in *. split; [done|lia]. }
  destruct (decide (k = 0%nat)) as [->|Hk0]; [by exists [], (c :: cps)|].
  simpl in Hk, Hb. rewrite length_app in Hk.
  destruct (decide (k < length (utf8_cp c))%nat) as [Hlt|Hge].
  - exfalso. destruct Hb as [Hb|(b & Hl & Hc')]; [rewrite length_app in Hb; lia|].
    rewrite lookup_app_l in Hl by done.
    destruct (utf8_cp_shape c Hc) as (b0 & bs & E & _ & Hcont). rewrite E in Hl.
    destruct k as [|k]; [done|]. simpl in Hl.
    rewrite Forall_lookup in Hcont. rewrite (Hcont _ _ Hl) in Hc'. done.
  - destruct (IH (k - length (utf8_cp c))%nat) as (p & q & -> & Hp).
    + lia.
    + destruct Hb as [Hb|(b & Hl & Hc')].
      * left. rewrite length_app in Hb. lia.
      * right. exists b. split; [|done]. by rewrite lookup_app_r in Hl by lia.
    + exists (c :: p), q. split; [done|]. simpl. rewrite length_app. lia.
Qed.

Lemma skip_cont_boundary bs k : exists k',
  (k <= k')%nat /\ skip_cont (drop k bs) = drop k' bs /\
  (boundary bs k' \/ (length bs < k')%nat).
Proof.
  remember (drop k bs) as d eqn:Hd. revert k Hd.
  induction d as [|b d IH]; intros k Hd.
  - exists k. split; [lia|]. split; [simpl; done|].
    assert (length bs <= k)%nat as Hl.
    { pose proof (length_drop bs k) as HL. rewrite <- Hd in HL. simpl in HL. lia. }
    unfold boundary. lia.
  - assert (bs !! k = Some b) as Hb.
    { rewrite <- (Nat.add_0_r k). rewrite <- lookup_drop, <- Hd. done. }
    assert (d = drop (S k) bs) as Hd'.
    { rewrite <- Nat.add_1_r, <- drop_drop, <- Hd. done. }
    simpl. destruct (is_cont b) eqn:Ec.
    + destruct (IH (S k) Hd') as (k' & ? & ? & ?). exists k'. split; [lia|done].
    + exists k. split; [lia|]. split; [done|]. left. right. by exists b.
Qed.

Lemma back_off_spec bs e :
  (e <= length bs)%nat ->
  (back_off bs e <= e)%nat /\ (back_off bs e = 0%nat \/ boundary bs (back_off bs e)).
Proof.
  induction e as [|e IH]; intros He; simpl; [lia|].
  destruct (bs !! S e) as [b|] eqn:E.
  - destruct (is_cont b) eqn:Ec.
    + destruct IH as [? ?]; [lia|]. split; [lia|done].
    + split; [lia|]. right. right. by exists b.
  - apply lookup_ge_None in E. split; [lia|]. right. left. lia.
Qed.

(** Dropping to a boundary and decoding keeps a suffix of the code points (less a leading
    byte-order mark, which the decoder strips). *)
Lemma encode_suffix cps k :
  Forall scalar cps -> boundary (flat_map utf8_cp cps) k -> (k <= length (flat_map utf8_cp cps))%nat ->
  exists q, q `suffix_of` cps /\ drop k (flat_map utf8_cp cps) = flat_map utf8_cp q.
Proof.
  intros Hs Hb Hk. destruct (boundary_split _ _ Hs Hk Hb) as (p & q & -> & ->).
  exists q. split; [by exists p|]. rewrite flat_map_app. by rewrite drop_app_length.
Qed.

Lemma encode_prefix cps k :
  Forall scalar cps -> boundary (flat_map utf8_cp cps) k -> (k <= length (flat_map utf8_cp cps))%nat ->
  exists p, p `prefix_of` cps /\ take k (flat_map utf8_cp cps) = flat_map utf8_cp p.
Proof.
  intros Hs Hb Hk. destruct (boundary_split _ _ Hs Hk Hb) as (p & q & -> & ->).
  exists p. split; [by exists q|]. rewrite flat_map_app. by rewrite take_app_length.
Qed.

(** ** Length of encoded text *)

(** No unpaired surrogate. *)
Fixpoint wf16 (s : jstr) : bool :=
  match s with
  | [] => true
  | u :: rest =>
      if is_lead u then
        match rest with
        | t :: rest' => is_trail t && wf16 rest'
        | [] => false
        end
      else negb (is_trail u) && wf16 rest
  end.

Lemma code_points_app a b : wf16 a = true -> code_points (a ++ b) = code_points a ++ code_points b.
Proof.
  revert b. induction a as [|u|u t a IH1 IH2] using jstr_ind2; intros b; [done| |].
  - simpl. destruct (is_lead u); [done|]. by destruct (_ || _).
  - change ((u :: t :: a) ++ b) with (u :: t :: (a ++ b)). simpl.
    destruct (is_lead u) eqn:El.
    + intros H. bool_hyps. rewrite H. simpl. f_equal. by apply IH2.
    + intros H. bool_hyps. rewrite H. simpl.
      destruct (0x10000 <=? u)%N; simpl; f_equal; apply (IH1 b); exact H0.
Qed.

Lemma wf16_app a b : wf16 a = true -> wf16 b = true -> wf16 (a ++ b) = true.
Proof.
  revert b. induction a as [|u|u t a IH1 IH2] using jstr_ind2; intros b; [done| |].
  - simpl. destruct (is_lead u); [done|]. intros; bool_hyps. by rewrite H, H0.
  - change ((u :: t :: a) ++ b) with (u :: t :: (a ++ b)). simpl.
    destruct (is_lead u).
    + intros ? ?; bool_hyps. rewrite H. simpl. by apply IH2.
    + intros ? ?; bool_hyps. rewrite H. simpl. by apply (IH1 b).
Qed.

Lemma utf8Bytes_app a b : wf16 a = true -> utf8Bytes (a ++ b) = utf8Bytes a + utf8Bytes b.
Proof.
  intros H. unfold utf8Bytes, utf8_encode. rewrite code_points_app by done.
  by rewrite flat_map_app, len_app.
Qed.

Lemma utf8Bytes_nonneg s : 0 <= utf8Bytes s.
Proof. apply len_nonneg. Qed.

Lemma utf8Bytes_nil : utf8Bytes [] = 0.
Proof. done. Qed.

Definition ascii_only (s : jstr) : Prop := Forall (fun u => (u < 0x80)%N) s.

Lemma ascii_wf16 s : ascii_only s -> wf16 s = true.
Proof.
  unfold ascii_only. induction 1 as [|u s Hu _ IH]; [done|]. simpl.
  unfold is_lead, is_trail.
  rewrite (proj2 (N.leb_gt 0xD800 u)), (proj2 (N.leb_gt 0xDC00 u)) by lia. done.
Qed.

Lemma ascii_code_points s : ascii_only s -> code_points s = s.
Proof.
  unfold ascii_only. induction 1 as [|u s Hu _ IH]; [done|]. simpl.
  unfold is_lead, is_trail.
  rewrite (proj2 (N.leb_gt 0xD800 u)), (proj2 (N.leb_gt 0xDC00 u)),
    (proj2 (N.leb_gt 0x10000 u)) by lia. simpl. by rewrite IH.
Qed.

Lemma ascii_utf8Bytes s : ascii_only s -> utf8Bytes s = len s.
Proof.
  intros H. unfold utf8Bytes, utf8_encode. rewrite ascii_code_points by done.
  induction H as [|u s Hu _ IH]; [done|]. simpl.
  rewrite len_app, len_cons, IH. unfold utf8_cp.
  rewrite (proj2 (N.ltb_lt u 0x80)) by done. done.
Qed.

#[export] Hint Resolve utf8Bytes_nonneg ascii_wf16 wf16_app : omp.
