(* ===== verification/JsValue.v ===== *)
(** * JsValue: JSON values, their serialisation and its size

    [JSON.stringify] of ECMAScript on the values the program keeps, with numbers in the
    shortest-decimal form that [Number::toString] prints, and objects as property lists in
    enumeration order. *)
From stdpp Require Import base tactics option list numbers strings sets.
From Stdlib Require Import Decimal DecimalN.
From S2P Require Import Prelude JsMap JsString.

(** A number: NaN, an infinity, or the sign, digits and decimal exponent of its shortest
    decimal representation ([digits] has no trailing zero unless the value is zero). *)
Inductive jnum :=
| NaN
| Infinity (negative : bool)
| Finite (negative : bool) (digits : N) (exponent : Z).

Inductive jv :=
| JUndef
| JNull
| JBool (b : bool)
| JNum (n : jnum)
| JStr (s : jstr)
| JArr (items : list jv)
| JObj (props : list (jstr * jv)).

Definition num_finite (n : jnum) : bool := match n with Finite _ _ _ => true | _ => false end.

(** The integer a finite number denotes, when it denotes one. *)
Definition num_to_Z (n : jnum) : option Z :=
  match n with
  | Finite neg d e =>
      if 0 <=? e then
        let v := Z.of_N d * 10 ^ e in Some (if neg then - v else v)
      else if Z.of_N d mod 10 ^ (- e) =? 0 then
        let v := Z.of_N d / 10 ^ (- e) in Some (if neg then - v else v)
      else None
  | _ => None
  end.

(** [Number.isSafeInteger] together with the integer. *)
Definition num_safe_integer (n : jnum) : option Z :=
  match num_to_Z n with
  | Some z => if Z.abs z <=? MAX_SAFE_INTEGER then Some z else None
  | None => None
  end.

(** Decimal digits without trailing zeros: [strip10 fuel d e] divides out powers of ten. *)
Fixpoint strip10 (fuel : nat) (d : N) (e : Z) : N * Z :=
  match fuel with
  | O => (d, e)
  | S f => if (negb (d =? 0) && (d mod 10 =? 0))%N then strip10 f (d / 10)%N (e + 1) else (d, e)
  end.

(** The number denoting an integer. *)
Definition num_of_Z (z : Z) : jnum :=
  let (d, e) := strip10 400 (Z.abs_N z) 0 in Finite (z <? 0) d e.

Definition digit (n : N) : N := (0x30 + n)%N.

Fixpoint uint_digits (u : Decimal.uint) : jstr :=
  match u with
  | Nil => []
  | D0 r => digit 0 :: uint_digits r | D1 r => digit 1 :: uint_digits r
  | D2 r => digit 2 :: uint_digits r | D3 r => digit 3 :: uint_digits r
  | D4 r => digit 4 :: uint_digits r | D5 r => digit 5 :: uint_digits r
  | D6 r => digit 6 :: uint_digits r | D7 r => digit 7 :: uint_digits r
  | D8 r => digit 8 :: uint_digits r | D9 r => digit 9 :: uint_digits r
  end.

Definition N_digits (n : N) : jstr := uint_digits (N.to_uint n).

Definition zeros (n : Z) : jstr := repeat (digit 0) (Z.to_nat n).

(** [Number::toString(x)] in base ten. *)
Definition num_string (n : jnum) : jstr :=
  match n with
  | NaN => js "NaN"
  | Infinity false => js "Infinity"
  | Infinity true => js "-Infinity"
  | Finite neg d e =>
      if (d =? 0)%N then js "0" else
      let ds := N_digits d in
      let k := len ds in
      let n := k + e in
      (if neg then js "-" else []) ++
      (if (k <=? n) && (n <=? 21) then ds ++ zeros (n - k)
       else if (0 <? n) && (n <=? 21) then take (Z.to_nat n) ds ++ js "." ++ drop (Z.to_nat n) ds
       else if (-6 <? n) && (n <=? 0) then js "0." ++ zeros (- n) ++ ds
       else
         let ex := n - 1 in
         let exs := (if ex <? 0 then js "-" else js "+") ++ N_digits (Z.abs_N ex) in
         match ds with
         | [c] => c :: js "e" ++ exs
         | c :: rest => c :: js "." ++ rest ++ js "e" ++ exs
         | [] => []
         end)
  end.

Definition hex_digit (n : N) : N := if (n <? 10)%N then (0x30 + n)%N else (0x57 + n)%N.

(** [\uXXXX] *)
Definition unicode_escape (u : N) : jstr :=
  [0x5C; 0x75; hex_digit (u / 0x1000 mod 0x10); hex_digit (u / 0x100 mod 0x10);
   hex_digit (u / 0x10 mod 0x10); hex_digit (u mod 0x10)]%N.

(** One code unit inside a JSON string literal. *)
Definition quote_unit (u : N) : jstr :=
  (if u =? 0x22 then [0x5C; 0x22]
   else if u =? 0x5C then [0x5C; 0x5C]
   else if u =? 0x08 then [0x5C; 0x62]
   else if u =? 0x09 then [0x5C; 0x74]
   else if u =? 0x0A then [0x5C; 0x6E]
   else if u =? 0x0C then [0x5C; 0x66]
   else if u =? 0x0D then [0x5C; 0x72]
   else if u <? 0x20 then unicode_escape u
   else [u])%N.

Fixpoint quote_body (s : jstr) : jstr :=
  match s with
  | [] => []
  | u :: rest =>
      if is_lead u then
        match rest with
        | t :: rest' =>
            if is_trail t then u :: t :: quote_body rest' else unicode_escape u ++ quote_body rest
        | [] => unicode_escape u
        end
      else if is_trail u then unicode_escape u ++ quote_body rest
      else quote_unit u ++ quote_body rest
  end.

(** [QuoteJSONString] *)
Definition quote (s : jstr) : jstr := 0x22%N :: quote_body s ++ [0x22%N].

Fixpoint join (sep : jstr) (l : list jstr) : jstr :=
  match l with
  | [] => []
  | [x] => x
  | x :: rest => x ++ sep ++ join sep rest
  end.

(** [JSON.stringify] of a value in an array position: [undefined] prints as [null]. *)
Fixpoint serialize (v : jv) : jstr :=
  match v with
  | JUndef | JNull => js "null"
  | JBool true => js "true"
  | JBool false => js "false"
  | JNum n => if num_finite n then num_string n else js "null"
  | JStr s => quote s
  | JArr items => js "[" ++ join (js ",") (map serialize items) ++ js "]"
  | JObj props =>
      js "{" ++ join (js ",") (flat_map (fun kv =>
        match kv with
        | (_, JUndef) => []
        | (k, x) => [quote k ++ js ":" ++ serialize x]
        end) props) ++ js "}"
  end.

(** [JSON.stringify(v)]; [None] is [undefined]. *)
Definition stringify (v : jv) : option jstr :=
  match v with JUndef => None | _ => Some (serialize v) end.

(** UTF-8 size of [JSON.stringify(v)]. *)
Definition json_bytes (v : jv) : Z := utf8Bytes (serialize v).

(** Object property access [o.k]; absent properties read as [undefined]. *)
Definition prop (k : jstr) (o : list (jstr * jv)) : jv :=
  match map_get k o with Some v => v | None => JUndef end.

(** A key that enumerates as an array index: canonical decimal below 2^32 - 1. *)
Definition is_digit (u : N) : bool := (0x30 <=? u)%N && (u <=? 0x39)%N.

Definition array_index (k : jstr) : option N :=
  match k with
  | [] => None
  | [c] => if is_digit c then Some (c - 0x30)%N else None
  | c :: rest =>
      if is_digit c && negb (c =? 0x30)%N && forallb is_digit rest then
        let n := fold_left (fun acc d => (acc * 10 + (d - 0x30))%N) k 0%N in
        if (n <? 4294967295)%N then Some n else None
      else None
  end.

(** Insertion of a fresh integer key: after the smaller integer keys, before everything else. *)
Fixpoint insert_index (i : N) (k : jstr) (v : jv) (o : list (jstr * jv)) : list (jstr * jv) :=
  match o with
  | [] => [(k, v)]
  | (k', v') :: rest =>
      match array_index k' with
      | Some j => if (j <? i)%N then (k', v') :: insert_index i k v rest else (k, v) :: o
      | None => (k, v) :: o
      end
  end.

(** Definition of an own property ([{...o, k: v}], [Object.defineProperty]). *)
Definition obj_define (k : jstr) (v : jv) (o : list (jstr * jv)) : list (jstr * jv) :=
  if map_has k o then map_set k v o
  else match array_index k with
       | Some i => insert_index i k v o
       | None => o ++ [(k, v)]
       end.

(** Assignment [o[k] = v] on an ordinary object: assigning [__proto__] reaches the accessor of
    [Object.prototype] and creates no own property. *)
Definition obj_assign (k : jstr) (v : jv) (o : list (jstr * jv)) : list (jstr * jv) :=
  if jstr_eqb k (js "__proto__") && negb (map_has k o) then o else obj_define k v o.


(** ** Induction on values *)
Section JvInd.
Context (P : jv -> Prop).
Context (Hundef : P JUndef) (Hnull : P JNull) (Hbool : forall b, P (JBool b))
  (Hnum : forall n, P (JNum n)) (Hstr : forall s, P (JStr s))
  (Harr : forall l, Forall P l -> P (JArr l))
  (Hobj : forall o, Forall (fun kv => P (snd kv)) o -> P (JObj o)).

Fixpoint jv_ind' (v : jv) : P v :=
  match v with
  | JUndef => Hundef
  | JNull => Hnull
  | JBool b => Hbool b
  | JNum n => Hnum n
  | JStr s => Hstr s
  | JArr l => Harr l ((fix go l : Forall P l := match l with
      | [] => Forall_nil_2 P
      | x :: r => Forall_cons_2 P x r (jv_ind' x) (go r) end) l)
  | JObj o => Hobj o ((fix go o : Forall (fun kv => P (snd kv)) o := match o with
      | [] => Forall_nil_2 _
      | kv :: r => Forall_cons_2 (fun kv => P (snd kv)) kv r (jv_ind' (snd kv)) (go r) end) o)
  end.
End JvInd.

(** ** Sizes of serialised values *)

Lemma hex_digit_ascii n : (n < 16)%N -> (hex_digit n < 0x80)%N.
Proof. unfold hex_digit. intros. destruct (N.ltb_spec n 10); lia. Qed.

Lemma unicode_escape_ascii u : ascii_only (unicode_escape u).
Proof.
  unfold ascii_only, unicode_escape.
  repeat (constructor; [try lia; apply hex_digit_ascii, N.mod_lt; done|]). constructor.
Qed.

Lemma quote_unit_cases u :
  is_lead u = false -> is_trail u = false ->
  wf16 (quote_unit u) = true.
Proof.
  intros Hl Ht. unfold quote_unit.
  repeat case_goal; try reflexivity; [apply ascii_wf16, unicode_escape_ascii|].
  simpl. by rewrite Hl, Ht.
Qed.

Lemma quote_body_wf16 s : wf16 (quote_body s) = true.
Proof.
  induction s as [|u|u t s IH1 IH2] using jstr_ind2; [done| |].
  - change (quote_body [u]) with
      (if is_lead u then unicode_escape u
       else if is_trail u then unicode_escape u ++ [] else quote_unit u ++ []).
    destruct (is_lead u) eqn:El; [apply ascii_wf16, unicode_escape_ascii|].
    destruct (is_trail u) eqn:Et; rewrite app_nil_r.
    + apply ascii_wf16, unicode_escape_ascii.
    + by apply quote_unit_cases.
  - change (quote_body (u :: t :: s)) with
      (if is_lead u then if is_trail t then u :: t :: quote_body s
                         else unicode_escape u ++ quote_body (t :: s)
       else if is_trail u then unicode_escape u ++ quote_body (t :: s)
       else quote_unit u ++ quote_body (t :: s)).
    destruct (is_lead u) eqn:El; [destruct (is_trail t) eqn:Et|destruct (is_trail u) eqn:Et].
    + simpl. by rewrite El, Et.
    + apply wf16_app; [apply ascii_wf16, unicode_escape_ascii|done].
    + apply wf16_app; [apply ascii_wf16, unicode_escape_ascii|done].
    + apply wf16_app; [by apply quote_unit_cases|done].
Qed.

Lemma quote_wf16 s : wf16 (quote s) = true.
Proof.
  unfold quote. change (0x22%N :: quote_body s ++ [0x22%N]) with ([0x22%N] ++ quote_body s ++ [0x22%N]).
  auto using wf16_app, quote_body_wf16.
Qed.

Lemma uint_digits_ascii u : ascii_only (uint_digits u).
Proof. unfold ascii_only. induction u; simpl; constructor; unfold digit; try lia; done. Qed.

Lemma N_digits_ascii n : ascii_only (N_digits n).
Proof. apply uint_digits_ascii. Qed.

Lemma zeros_ascii n : ascii_only (zeros n).
Proof. unfold ascii_only, zeros. induction (Z.to_nat n); simpl; constructor; [unfold digit; lia|done]. Qed.

Lemma ascii_app a b : ascii_only a -> ascii_only b -> ascii_only (a ++ b).
Proof. intros. by apply Forall_app. Qed.

Lemma ascii_take n a : ascii_only a -> ascii_only (take n a).
Proof. apply Forall_take. Qed.

Lemma ascii_drop n a : ascii_only a -> ascii_only (drop n a).
Proof. apply Forall_drop. Qed.

Ltac solve_ascii :=
  repeat first
    [ assumption
    | apply ascii_app | apply ascii_take | apply ascii_drop | apply N_digits_ascii
    | apply zeros_ascii
    | solve [repeat (apply Forall_cons_2; [vm_compute; reflexivity|]); apply Forall_nil_2] ].

Lemma exponent_ascii ds exs :
  ascii_only ds -> ascii_only exs ->
  ascii_only (match ds with
              | [c] => c :: js "e" ++ exs
              | c :: rest => c :: js "." ++ rest ++ js "e" ++ exs
              | [] => []
              end).
Proof.
  intros Hd He. destruct Hd as [|c [|c' rest] Hc Hr]; [constructor| |].
  - apply Forall_cons_2; [done|]. solve_ascii.
  - apply Forall_cons_2; [done|]. solve_ascii.
Qed.

Lemma num_string_ascii n : ascii_only (num_string n).
Proof.
  destruct n as [|[]|neg d e]; [solve_ascii..|]. unfold num_string.
  destruct (d =? 0)%N; [solve_ascii|].
  apply ascii_app; [destruct neg; solve_ascii|].
  destruct (_ && _); [solve_ascii|]. destruct (_ && _); [solve_ascii|].
  destruct (_ && _); [solve_ascii|].
  apply exponent_ascii; [solve_ascii|]. destruct (_ <? _); solve_ascii.
Qed.

Lemma join_wf16 l : Forall (fun s => wf16 s = true) l -> wf16 (join (js ",") l) = true.
Proof.
  induction 1 as [|x l Hx Hl IH]; [done|]. simpl. destruct l; [done|].
  repeat apply wf16_app; done.
Qed.

Lemma serialize_wf16 v : wf16 (serialize v) = true.
Proof.
  induction v as [| |b|n|s|l IH|o IH] using jv_ind'; try done.
  - by destruct b.
  - cbn [serialize]. destruct (num_finite n); [|done]. apply ascii_wf16, num_string_ascii.
  - apply quote_wf16.
  - cbn [serialize]. apply wf16_app; [done|]. apply wf16_app; [|done].
    apply join_wf16. by apply Forall_map.
  - cbn [serialize]. apply wf16_app; [done|]. apply wf16_app; [|done].
    apply join_wf16. induction IH as [|[k x] o Hx _ IHo]; [constructor|]. simpl.
    apply Forall_app. split; [|exact IHo]. cbn [snd] in Hx.
    destruct x; [constructor|..]; apply Forall_singleton;
      (apply wf16_app; [apply quote_wf16|]; apply (wf16_app (js ":")); [done|exact Hx]).
Qed.

Lemma join_bytes l :
  Forall (fun s => wf16 s = true) l ->
  utf8Bytes (join (js ",") l) = sumZ (map utf8Bytes l) + seps (len l).
Proof.
  induction 1 as [|x l Hx Hl IH]; [done|].
  destruct l as [|y l].
  - simpl. unfold seps, len. simpl. lia.
  - change (join (js ",") (x :: y :: l)) with (x ++ js "," ++ join (js ",") (y :: l)).
    rewrite map_cons, sumZ_cons.
    rewrite utf8Bytes_app by done.
    rewrite (utf8Bytes_app (js ",")) by done. rewrite IH.
    assert (utf8Bytes (js ",") = 1) as -> by done.
    unfold seps. rewrite !len_cons. pose proof (len_nonneg l). lia.
Qed.

Lemma json_bytes_array l :
  json_bytes (JArr l) = 2 + sumZ (map json_bytes l) + seps (len l).
Proof.
  unfold json_bytes at 1. cbn [serialize].
  rewrite (utf8Bytes_app (js "[")) by done.
  assert (Forall (fun s => wf16 s = true) (map serialize l)) as Hwf.
  { apply Forall_map, Forall_true. apply serialize_wf16. }
  rewrite utf8Bytes_app by by apply join_wf16.
  rewrite join_bytes by done. rewrite map_map, len_map.
  assert (utf8Bytes (js "[") = 1) as -> by done. assert (utf8Bytes (js "]") = 1) as -> by done.
  fold json_bytes. unfold json_bytes. lia.
Qed.

(** The properties [JSON.stringify] prints. *)
Definition printed (o : list (jstr * jv)) : list (jstr * jv) :=
  List.filter (fun kv => match snd kv with JUndef => false | _ => true end) o.

Definition prop_bytes (kv : jstr * jv) : Z := utf8Bytes (quote (fst kv)) + 1 + json_bytes (snd kv).

Lemma json_bytes_object o :
  json_bytes (JObj o) = 2 + sumZ (map prop_bytes (printed o)) + seps (len (printed o)).
Proof.
  unfold json_bytes at 1. cbn [serialize].
  rewrite (utf8Bytes_app (js "{")) by done.
  set (f := fun kv : jstr * jv => _).
  assert (flat_map f o = map (fun kv => quote (fst kv) ++ js ":" ++ serialize (snd kv)) (printed o)) as ->.
  { induction o as [|[k x] o IH]; [done|]. simpl. rewrite IH. by destruct x. }
  assert (Forall (fun s => wf16 s = true)
    (map (fun kv => quote (fst kv) ++ js ":" ++ serialize (snd kv)) (printed o))) as Hwf.
  { apply Forall_map, Forall_true. intros [k x]. simpl.
    apply wf16_app; [apply quote_wf16|]. apply (wf16_app (js ":")); [done|apply serialize_wf16]. }
  rewrite utf8Bytes_app by by apply join_wf16.
  rewrite join_bytes by done. rewrite map_map, len_map.
  assert (utf8Bytes (js "{") = 1) as -> by done. assert (utf8Bytes (js "}") = 1) as -> by done.
  rewrite (map_ext _ prop_bytes); [lia|].
  intros [k x]. unfold prop_bytes. cbn [fst snd]. rewrite utf8Bytes_app by apply quote_wf16.
  rewrite (utf8Bytes_app (js ":")) by done. assert (utf8Bytes (js ":") = 1) as -> by done.
  unfold json_bytes. lia.
Qed.

Lemma json_bytes_nonneg v : 0 <= json_bytes v.
Proof. apply utf8Bytes_nonneg. Qed.

#[export] Hint Resolve json_bytes_nonneg : omp.
