(* ===== verification/Wire.v ===== *)
(** * Wire: cursors, durable entries and the frames of a session stream

    The data that the host service emits and the client reducer consumes
    ([packages/host-wire/src]).  Identifiers are strings; branded string types of the source
    are plain strings at run time. *)
From stdpp Require Import base tactics option list numbers strings sets.
From S2P Require Import Prelude JsMap JsString JsValue.

(** [cursor.ts] *)
Record Cursor := mkCursor { epoch : jstr; seq : Z }.

#[export] Instance Cursor_eq_dec : EqDecision Cursor.
Proof. solve_decision. Defined.

(** [entry.ts] *)
Record DurableEntry := mkEntry {
  entry_id : jstr;
  parentId : option jstr;
  entry_hostId : jstr;
  entry_sessionId : jstr;
  turnId : option jstr;
  kind : jstr;
  timestamp : jstr;
  data : list (jstr * jv);
}.

Definition jopt (o : option jstr) : jv := match o with Some s => JStr s | None => JNull end.

(** The object [JSON.stringify] sees for a durable entry. *)
Definition entry_json (e : DurableEntry) : jv :=
  JObj ([(js "id", JStr (entry_id e)); (js "parentId", jopt (parentId e));
         (js "hostId", JStr (entry_hostId e)); (js "sessionId", JStr (entry_sessionId e))] ++
        match turnId e with Some t => [(js "turnId", JStr t)] | None => [] end ++
        [(js "kind", JStr (kind e)); (js "timestamp", JStr (timestamp e)); (js "data", JObj (data e))]).

Definition cursor_json (c : Cursor) : jv :=
  JObj [(js "epoch", JStr (epoch c)); (js "seq", JNum (num_of_Z (seq c)))].

(** [event.ts]: a live event is a JSON object with a [type] property. *)
Record LiveEventFrame := mkEvent {
  ev_cursor : Cursor;
  ev_hostId : jstr;
  ev_sessionId : jstr;
  event : list (jstr * jv);
}.

(** [snapshot.ts] *)
Record SessionSnapshotFrame := mkSnapshot {
  sn_cursor : Cursor;
  sn_revision : jstr;
  sn_hostId : jstr;
  sn_sessionId : jstr;
  sn_entries : list DurableEntry;
}.

(** [DurableEntryFrame] of [envelope.ts] *)
Record DurableEntryFrame := mkEntryFrame {
  ef_cursor : Cursor;
  ef_revision : jstr;
  ef_hostId : jstr;
  ef_sessionId : jstr;
  ef_entry : DurableEntry;
}.

(** [gap.ts] *)
Record GapFrame := mkGap {
  gap_hostId : jstr;
  gap_sessionId : jstr;
  gap_from : Cursor;
  gap_to : Cursor;
  gap_reason : jstr;
}.

(** The two kinds of frames that carry a session cursor. *)
Inductive stream_frame := EntryFrame (f : DurableEntryFrame) | EventFrame (f : LiveEventFrame).

Definition stream_host (f : stream_frame) : jstr := match f with EntryFrame f => ef_hostId f | EventFrame f => ev_hostId f end.
Definition stream_session (f : stream_frame) : jstr :=
  match f with EntryFrame f => ef_sessionId f | EventFrame f => ev_sessionId f end.
Definition stream_cursor (f : stream_frame) : Cursor :=
  match f with EntryFrame f => ef_cursor f | EventFrame f => ev_cursor f end.
Definition stream_entries (f : stream_frame) : list DurableEntry :=
  match f with EntryFrame f => [ef_entry f] | EventFrame _ => [] end.

Definition obj_string (o : list (jstr * jv)) (k : jstr) : option jstr :=
  match prop k o with JStr s => Some s | _ => None end.

(** [event.type] of a decoded event. *)
Definition event_type (o : list (jstr * jv)) : option jstr := obj_string o (js "type").
