(* ===== verification/WireGuards.v ===== *)
(** * WireGuards: the validating primitives of the app wire protocol
    ([packages/host-wire/src/guards.ts], [errors.ts], [limits.ts], [ids.ts], [cursor.ts])

    A decoder returns [Ok] with the decoded value or [Fail] with the code of the
    [AppWireError] it throws; the error's message and path are diagnostics and are left out.
    JSON values are finite trees, so the [seen] set of [validateJson], which rejects an object met
    twice, has no counterpart.  JSON text (the string or bytes form of [inputObject]) is not
    modelled: the decoders are given parsed values. *)
From stdpp Require Import base tactics option list numbers strings sets.
From S2P Require Import Prelude JsMap JsString JsValue Wire.

Inductive AppWireErrorCode :=
| INVALID_JSON | INVALID_FRAME | OVERSIZED_INPUT | UNSAFE_SEQUENCE | MISSING_VERSION
| UNKNOWN_FRAME | BOUNDS | UNSAFE_PATH | UNSUPPORTED_PROTOCOL | IDEMPOTENCY_CONFLICT
| STALE_REVISION | OUTCOME_UNKNOWN | CONFIRMATION_INVALID | PAIRING_INVALID.

#[export] Instance AppWireErrorCode_eq_dec : EqDecision AppWireErrorCode.
Proof. solve_decision. Defined.

Inductive wire (A : Type) := Ok (a : A) | Fail (code : AppWireErrorCode).
Arguments Ok {A} a.
Arguments Fail {A} code.

Definition wbind {A B} (e : wire A) (k : A -> wire B) : wire B :=
  match e with Ok a => k a | Fail c => Fail c end.

Notation "x <-- e ;; k" := (wbind e (fun x => k))
  (at level 100, e at next level, right associativity) : omp_scope.
Notation "e ;;; k" := (wbind e (fun _ => k))
  (at level 100, right associativity) : omp_scope.
Open Scope omp_scope.

(** [if (cond) fail(code)] *)
Definition fail_if (cond : bool) (code : AppWireErrorCode) : wire unit :=
  if cond then Fail code else Ok tt.

Lemma wbind_ok {A B} (e : wire A) (k : A -> wire B) b :
  wbind e k = Ok b <-> exists a, e = Ok a /\ k a = Ok b.
Proof. destruct e; simpl; naive_solver. Qed.

Lemma fail_if_ok cond code u : fail_if cond code = Ok u <-> cond = false.
Proof. destruct cond; simpl; destruct u; naive_solver. Qed.

Lemma check_ok {B} cond code (k : wire B) b : wbind (fail_if cond code) (fun _ => k) = Ok b <-> cond = false /\ k = Ok b.
Proof. destruct cond; simpl; naive_solver. Qed.

(** Split the success of a chain of checks into the success of each. *)
Ltac wire_hyps :=
  repeat match goal with
  | H : wbind _ _ = Ok _ |- _ => apply wbind_ok in H; destruct H as (? & ? & H)
  | H : fail_if _ _ = Ok _ |- _ => apply fail_if_ok in H
  | H : Ok _ = Ok _ |- _ => injection H as H
  | H : Fail _ = Ok _ |- _ => discriminate H
  end.

Definition PROTOCOL_VERSION : jstr := js "omp-app/1".
Definition MAX_INPUT_BYTES : Z := 1048576.
Definition MAX_STRING_BYTES : Z := 65536.
Definition MAX_ID_BYTES : Z := 256.
Definition MAX_ARRAY_ITEMS : Z := 1000.
Definition MAX_MAP_KEYS : Z := 512.
Definition MAX_JSON_DEPTH : Z := 32.
Definition MAX_JSON_NODES : nat := 20000.
Definition MAX_CAPABILITIES : Z := 128.
Definition MAX_FILE_BYTES : Z := 768 * 1024.
Definition ARTIFACT_MAX_BYTES : Z := 20 * 1024 * 1024.
Definition TRANSCRIPT_IMAGE_MAX_COUNT : Z := 64.
Definition MAX_ARTIFACTS_PER_ENTRY : Z := 64.
Definition MAX_TURN_FILE_CHANGES : Z := 4096.
Definition MAX_EPOCH_BYTES : Z := 128.

(** The loop of [utf8ByteLength] from one index on.  [charCodeAt] past the end is [NaN], which
    both range comparisons answer with [false]. *)
Fixpoint utf8ByteLength (value : jstr) : wire Z :=
  match value with
  | [] => Ok 0
  | c :: rest =>
      if (c <=? 0x7F)%N then n <-- utf8ByteLength rest ;; Ok (1 + n)
      else if (c <=? 0x7FF)%N then n <-- utf8ByteLength rest ;; Ok (2 + n)
      else if ((0xD800 <=? c) && (c <=? 0xDBFF))%N then
        match rest with
        | next :: rest' =>
            if ((next <? 0xDC00) || (0xDFFF <? next))%N then Fail INVALID_JSON
            else n <-- utf8ByteLength rest' ;; Ok (4 + n)
        | [] => Ok 4
        end
      else if ((0xDC00 <=? c) && (c <=? 0xDFFF))%N then Fail INVALID_JSON
      else n <-- utf8ByteLength rest ;; Ok (3 + n)
  end.

Definition object (value : jv) : wire (list (jstr * jv)) :=
  match value with JObj o => Ok o | _ => Fail INVALID_FRAME end.

(** [string(value, path, max)] *)
Definition wire_string (value : jv) (max : Z) : wire jstr :=
  match value with
  | JStr s =>
      if len s =? 0 then Fail BOUNDS
      else n <-- utf8ByteLength s ;; if n >? max then Fail BOUNDS else Ok s
  | _ => Fail BOUNDS
  end.

Definition boundedText (value : jv) (max : Z) : wire jstr :=
  match value with
  | JStr s => n <-- utf8ByteLength s ;; if n >? max then Fail BOUNDS else Ok s
  | _ => Fail BOUNDS
  end.

(** A control character is a code unit of its own, so testing units tests characters. *)
Definition is_control (u : N) : bool := ((u <=? 0x1F) || (u =? 0x7F))%N.

Definition controlFree (value : jv) (max : Z) : wire jstr :=
  result <-- wire_string value max ;;
  fail_if (existsb is_control result) BOUNDS ;;;
  Ok result.

Definition wire_bool (value : jv) : wire bool :=
  match value with JBool b => Ok b | _ => Fail INVALID_FRAME end.

Definition safeSeq (value : jv) : wire Z :=
  match value with
  | JNum n =>
      match num_safe_integer n with
      | Some z => if z <? 0 then Fail UNSAFE_SEQUENCE else Ok z
      | None => Fail UNSAFE_SEQUENCE
      end
  | _ => Fail UNSAFE_SEQUENCE
  end.

Definition boundedArray (value : jv) (max : Z) : wire (list jv) :=
  match value with
  | JArr items => if len items >? max then Fail BOUNDS else Ok items
  | _ => Fail BOUNDS
  end.

Definition boundedMap (value : jv) (max : Z) : wire (list (jstr * jv)) :=
  out <-- object value ;;
  if len out >? max then Fail BOUNDS else Ok out.

(** [items.map(decode)] where [decode] may throw. *)
Fixpoint wire_map {A B} (f : A -> wire B) (l : list A) : wire (list B) :=
  match l with
  | [] => Ok []
  | x :: rest => y <-- f x ;; ys <-- wire_map f rest ;; Ok (y :: ys)
  end.

Definition capabilitiesArray (value : jv) : wire (list jstr) :=
  items <-- boundedArray value MAX_CAPABILITIES ;;
  wire_map (fun item => controlFree item 128) items.

Definition addApprox (bytes amount maxBytes : Z) : wire Z :=
  let next := bytes + amount in
  if next >? maxBytes then Fail OVERSIZED_INPUT else Ok next.

(** The key loop of [validateJson]: account for each key and push its value. *)
Fixpoint push_props (props : list (jstr * jv)) (depth : Z) (approx maxBytes : Z)
    (stack : list (jv * Z)) : wire (Z * list (jv * Z)) :=
  match props with
  | [] => Ok (approx, stack)
  | (key, child) :: rest =>
      n <-- utf8ByteLength key ;;
      approx <-- addApprox approx n maxBytes ;;
      push_props rest depth approx maxBytes ((child, depth) :: stack)
  end.

(** The stack loop of [validateJson] with [budget] nodes still allowed; the head of the list is
    the top of the stack.  Every iteration spends a node, so [budget] bounds the loop. *)
Fixpoint validate_stack (budget : nat) (maxBytes approx : Z) (stack : list (jv * Z)) : wire unit :=
  match stack with
  | [] => Ok tt
  | (value, depth) :: stack =>
      match budget with
      | O => Fail BOUNDS
      | S budget =>
          match value with
          | JStr s =>
              n <-- utf8ByteLength s ;;
              approx <-- addApprox approx n maxBytes ;;
              validate_stack budget maxBytes approx stack
          | JNum n =>
              fail_if (negb (num_finite n)) INVALID_JSON ;;;
              approx <-- addApprox approx 8 maxBytes ;;
              validate_stack budget maxBytes approx stack
          | JNull | JBool _ =>
              approx <-- addApprox approx 8 maxBytes ;;
              validate_stack budget maxBytes approx stack
          | JUndef => Fail INVALID_JSON
          | JArr items =>
              fail_if (MAX_JSON_DEPTH <=? depth) BOUNDS ;;;
              fail_if (len items >? MAX_ARRAY_ITEMS) BOUNDS ;;;
              validate_stack budget maxBytes approx (map (fun item => (item, depth + 1)) items ++ stack)
          | JObj props =>
              fail_if (MAX_JSON_DEPTH <=? depth) BOUNDS ;;;
              fail_if (len props >? MAX_MAP_KEYS) BOUNDS ;;;
              pushed <-- push_props props (depth + 1) approx maxBytes stack ;;
              validate_stack budget maxBytes (fst pushed) (snd pushed)
          end
      end
  end.

Definition validateJson (root : jv) (maxBytes : Z) : wire unit :=
  validate_stack MAX_JSON_NODES maxBytes 0 [(root, 0)].

(** [inputObject] of a value that is not JSON text. *)
Definition inputObject (value : jv) : wire (list (jstr * jv)) :=
  validateJson value MAX_INPUT_BYTES ;;; object value.

Fixpoint split_on (sep : N) (s : jstr) : list jstr :=
  match s with
  | [] => [[]]
  | c :: rest =>
      match split_on sep rest with
      | part :: parts => if (c =? sep)%N then [] :: part :: parts else (c :: part) :: parts
      | [] => []
      end
  end.

Definition is_letter (u : N) : bool := ((0x41 <=? u) && (u <=? 0x5A) || (0x61 <=? u) && (u <=? 0x7A))%N.

Definition unsafe_segment (part : jstr) : bool :=
  (len part =? 0) || jstr_eqb part (js ".") || jstr_eqb part (js "..").

Definition safeRelativePath (value : jv) (max : Z) : wire jstr :=
  result <-- controlFree value max ;;
  fail_if (existsb (N.eqb 0x5C) result || starts_with (js "/") result || starts_with (js "//") result
           || match result with c :: colon :: _ => is_letter c && (colon =? 0x3A)%N | _ => false end
           || starts_with (js "~") result) UNSAFE_PATH ;;;
  fail_if (existsb unsafe_segment (split_on 0x2F result)) UNSAFE_PATH ;;;
  Ok result.

(** [ids.ts]: every identifier constructor is [id]; the brands are types only. *)
Definition wire_id (value : jv) : wire jstr := controlFree value MAX_ID_BYTES.

(** [cursor.ts] *)
Definition decodeCursor (value : jv) : wire Cursor :=
  cursor <-- inputObject value ;;
  e <-- controlFree (prop (js "epoch") cursor) MAX_EPOCH_BYTES ;;
  s <-- safeSeq (prop (js "seq") cursor) ;;
  Ok (mkCursor e s).

Definition isCursor (value : jv) : bool :=
  match decodeCursor value with Ok _ => true | Fail _ => false end.

(** The version and type checks every frame decoder starts with. *)
Definition is_string (value : jv) (s : jstr) : bool :=
  match value with JStr t => jstr_eqb t s | _ => false end.

Definition frame_base (input : jv) (type : jstr) : wire (list (jstr * jv)) :=
  frame <-- inputObject input ;;
  fail_if (negb (is_string (prop (js "v") frame) PROTOCOL_VERSION)) MISSING_VERSION ;;;
  fail_if (negb (is_string (prop (js "type") frame) type)) INVALID_FRAME ;;;
  Ok frame.

(** [x !== undefined] *)
Definition defined (value : jv) : bool := match value with JUndef => false | _ => true end.

(** [if (x !== undefined) decode(x)] *)
Definition when_defined {A} (value : jv) (f : jv -> wire A) : wire (option A) :=
  match value with JUndef => Ok None | _ => x <-- f value ;; Ok (Some x) end.
