(* ===== verification/WireFrames.v ===== *)
(** * WireFrames: decoders of the session frames
    ([packages/host-wire/src/entry.ts], [files-review.ts], [snapshot.ts], [event.ts], [gap.ts],
    [heartbeat.ts], [cluster.ts])

    A decoder keeps the properties it does not know; the records here hold the declared ones. *)
From stdpp Require Import base tactics option list numbers strings sets.
From S2P Require Import Prelude JsMap JsString JsValue Wire WireGuards.

(** [allowed[key] !== true] for some key *)
Definition has_unknown_key (o : list (jstr * jv)) (allowed : list jstr) : bool :=
  existsb (fun kv => negb (existsb (jstr_eqb (fst kv)) allowed)) o.

Definition one_of (values : list jstr) (s : jstr) : bool := existsb (jstr_eqb s) values.

Definition is_hex_lower (u : N) : bool := (is_digit u || (0x61 <=? u) && (u <=? 0x66))%N.

(** [/^[a-f0-9]{64}$/u] *)
Definition is_sha256 (s : jstr) : bool := (len s =? 64) && forallb is_hex_lower s.

Record TranscriptImageMetadata := mkImage { image_sha256 : jstr; image_mimeType : jstr }.

Definition TRANSCRIPT_IMAGE_MIME_TYPES : list jstr :=
  [js "image/png"; js "image/jpeg"; js "image/gif"; js "image/webp"].

Definition decodeTranscriptImageMetadata (input : jv) : wire TranscriptImageMetadata :=
  value <-- boundedMap input MAX_MAP_KEYS ;;
  fail_if (negb (len value =? 2) || negb (map_has (js "sha256") value) || negb (map_has (js "mimeType") value))
    INVALID_FRAME ;;;
  sha256 <-- controlFree (prop (js "sha256") value) 64 ;;
  fail_if (negb (is_sha256 sha256)) INVALID_FRAME ;;;
  mimeType <-- controlFree (prop (js "mimeType") value) 32 ;;
  fail_if (negb (one_of TRANSCRIPT_IMAGE_MIME_TYPES mimeType)) INVALID_FRAME ;;;
  Ok (mkImage sha256 mimeType).

Definition decodeTranscriptImageMetadataList (input : jv) : wire (list TranscriptImageMetadata) :=
  items <-- boundedArray input TRANSCRIPT_IMAGE_MAX_COUNT ;;
  wire_map decodeTranscriptImageMetadata items.

(** [artifactId] of [ids.ts] *)
Definition wire_artifactId (value : jv) : wire jstr :=
  result <-- controlFree value 64 ;;
  fail_if (negb (forallb is_digit result && negb (len result =? 0))) INVALID_FRAME ;;;
  Ok result.

(** The token characters of a MIME type. *)
Definition is_mime_char (u : N) : bool :=
  is_letter u || is_digit u || existsb (N.eqb u) (js "!#$&^_.+*-").

(** [/^[...]+\/[...]+$/u]: the character class has no slash, so there is exactly one. *)
Definition is_mime_type (s : jstr) : bool :=
  match split_on 0x2F s with
  | [a; b] => negb (len a =? 0) && negb (len b =? 0) && forallb is_mime_char a && forallb is_mime_char b
  | _ => false
  end.

(** A number that is a safe integer between zero and [max] (or unbounded). *)
Definition bounded_size (value : jv) (max : option Z) : bool :=
  match value with
  | JNum n =>
      match num_safe_integer n with
      | Some z => (0 <=? z) && match max with Some m => z <=? m | None => true end
      | None => false
      end
  | _ => false
  end.

(** The identifying part of an [ArtifactDescriptor]; the decoder returns the validated object. *)
Record ArtifactDescriptor := mkArtifact { artifactId : jstr; artifact_kind : jstr; artifact_json : list (jstr * jv) }.

Definition decodeArtifactDescriptor (input : jv) : wire ArtifactDescriptor :=
  value <-- boundedMap input MAX_MAP_KEYS ;;
  fail_if (has_unknown_key value
    [js "artifactId"; js "kind"; js "mediaType"; js "size"; js "sha256"; js "name"; js "disposition"; js "retention"])
    INVALID_FRAME ;;;
  id <-- wire_artifactId (prop (js "artifactId") value) ;;
  kind <-- controlFree (prop (js "kind") value) 16 ;;
  fail_if (negb (one_of [js "image"; js "text"; js "patch"; js "binary"] kind)) INVALID_FRAME ;;;
  mediaType <-- controlFree (prop (js "mediaType") value) 128 ;;
  fail_if (negb (is_mime_type mediaType)) INVALID_FRAME ;;;
  fail_if (defined (prop (js "size") value) && negb (bounded_size (prop (js "size") value) (Some ARTIFACT_MAX_BYTES)))
    INVALID_FRAME ;;;
  sha256 <-- when_defined (prop (js "sha256") value) (fun v => controlFree v 64) ;;
  fail_if (match sha256 with Some s => negb (is_sha256 s) | None => false end) INVALID_FRAME ;;;
  when_defined (prop (js "name") value) (fun v => controlFree v 512) ;;;
  disposition <-- controlFree (prop (js "disposition") value) 16 ;;
  fail_if (negb (one_of [js "inline"; js "attachment"] disposition)) INVALID_FRAME ;;;
  fail_if (negb (is_string (prop (js "retention") value) (js "session"))) INVALID_FRAME ;;;
  Ok (mkArtifact id kind value).

Definition decodeArtifactDescriptorList (input : jv) : wire (list ArtifactDescriptor) :=
  items <-- boundedArray input MAX_ARTIFACTS_PER_ENTRY ;;
  wire_map decodeArtifactDescriptor items.

(** [TurnFileChange]: the path and the status, kind and state it was checked for. *)
Record TurnFileChange := mkChange {
  change_path : jstr;
  change_status : jstr;
  change_kind : jstr;
  change_state : jstr;
  additions : jv;
  deletions : jv;
  change_size : option jv;
  previousPath : option jstr;
}.

Definition decodeTurnFileChange (change : jv) : wire TurnFileChange :=
  item <-- boundedMap change MAX_MAP_KEYS ;;
  fail_if (has_unknown_key item
    [js "path"; js "status"; js "kind"; js "state"; js "additions"; js "deletions"; js "size"; js "previousPath"])
    INVALID_FRAME ;;;
  status <-- controlFree (prop (js "status") item) 16 ;;
  fail_if (negb (one_of [js "added"; js "modified"; js "deleted"; js "renamed"; js "copied"; js "untracked"] status))
    INVALID_FRAME ;;;
  kind <-- controlFree (prop (js "kind") item) 16 ;;
  fail_if (negb (one_of [js "text"; js "binary"; js "huge"; js "missing"] kind)) INVALID_FRAME ;;;
  state <-- controlFree (prop (js "state") item) 16 ;;
  fail_if (negb (one_of [js "pending"; js "applied"; js "discarded"] state)) INVALID_FRAME ;;;
  fail_if (negb (bounded_size (prop (js "additions") item) None)) INVALID_FRAME ;;;
  fail_if (negb (bounded_size (prop (js "deletions") item) None)) INVALID_FRAME ;;;
  fail_if (defined (prop (js "size") item) && negb (bounded_size (prop (js "size") item) None)) INVALID_FRAME ;;;
  previous <-- when_defined (prop (js "previousPath") item) (fun v => safeRelativePath v 4096) ;;
  path <-- safeRelativePath (prop (js "path") item) 4096 ;;
  Ok (mkChange path status kind state (prop (js "additions") item) (prop (js "deletions") item)
        (if defined (prop (js "size") item) then Some (prop (js "size") item) else None) previous).

Record TurnReviewSnapshot := mkReview {
  review_turnId : jstr;
  baseTree : jstr;
  headTree : jstr;
  changes : list TurnFileChange;
  patch : option ArtifactDescriptor;
}.

Definition decodeTurnReviewSnapshot (input : jv) : wire TurnReviewSnapshot :=
  value <-- boundedMap input MAX_MAP_KEYS ;;
  fail_if (has_unknown_key value [js "turnId"; js "baseTree"; js "headTree"; js "changes"; js "patch"]) INVALID_FRAME ;;;
  turn <-- wire_id (prop (js "turnId") value) ;;
  base <-- controlFree (prop (js "baseTree") value) 128 ;;
  head <-- controlFree (prop (js "headTree") value) 128 ;;
  items <-- boundedArray (prop (js "changes") value) MAX_TURN_FILE_CHANGES ;;
  changes <-- wire_map decodeTurnFileChange items ;;
  patch <-- when_defined (prop (js "patch") value) decodeArtifactDescriptor ;;
  fail_if (match patch with Some p => negb (jstr_eqb (artifact_kind p) (js "patch")) | None => false end) INVALID_FRAME ;;;
  Ok (mkReview turn base head changes patch).

(** The turn-review branch of [decodeEntry]. *)
Definition check_turn_review (turn : jv) (data : list (jstr * jv)) : wire unit :=
  fail_if (negb (defined turn)) INVALID_FRAME ;;;
  fail_if (has_unknown_key data [js "baseTree"; js "headTree"; js "changes"; js "patch"; js "artifacts"]) INVALID_FRAME ;;;
  fail_if (negb (defined (prop (js "artifacts") data))) INVALID_FRAME ;;;
  artifacts <-- decodeArtifactDescriptorList (prop (js "artifacts") data) ;;
  review <-- decodeTurnReviewSnapshot
    (JObj [(js "turnId", turn); (js "baseTree", prop (js "baseTree") data); (js "headTree", prop (js "headTree") data);
           (js "changes", prop (js "changes") data); (js "patch", prop (js "patch") data)]) ;;
  fail_if (match patch review with
           | None => negb (len artifacts =? 0)
           | Some p =>
               negb (len artifacts =? 1) ||
               match artifacts with a :: _ => negb (jstr_eqb (artifactId a) (artifactId p)) | [] => true end
           end) INVALID_FRAME.

(** [decodeEntry] after [inputObject]. *)
Definition decode_entry_object (value : list (jstr * jv)) : wire DurableEntry :=
  id <-- wire_id (prop (js "id") value) ;;
  fail_if (negb (defined (prop (js "parentId") value))) INVALID_FRAME ;;;
  parent <-- match prop (js "parentId") value with
             | JNull => Ok None
             | v => p <-- wire_id v ;; Ok (Some p)
             end ;;
  host <-- wire_id (prop (js "hostId") value) ;;
  session <-- wire_id (prop (js "sessionId") value) ;;
  kind <-- controlFree (prop (js "kind") value) 128 ;;
  timestamp <-- controlFree (prop (js "timestamp") value) 128 ;;
  data <-- boundedMap (prop (js "data") value) MAX_MAP_KEYS ;;
  when_defined (prop (js "images") data) decodeTranscriptImageMetadataList ;;;
  turn <-- when_defined (prop (js "turnId") value) wire_id ;;
  (if jstr_eqb kind (js "turn-review") then check_turn_review (prop (js "turnId") value) data
   else when_defined (prop (js "artifacts") data) decodeArtifactDescriptorList ;;; Ok tt) ;;;
  Ok (mkEntry id parent host session turn kind timestamp data).

Definition decodeEntry (input : jv) : wire DurableEntry :=
  value <-- inputObject input ;; decode_entry_object value.

Definition decodeSnapshot (input : jv) : wire SessionSnapshotFrame :=
  frame <-- frame_base input (js "snapshot") ;;
  cursor <-- decodeCursor (prop (js "cursor") frame) ;;
  currentRevision <-- wire_id (prop (js "revision") frame) ;;
  host <-- wire_id (prop (js "hostId") frame) ;;
  session <-- wire_id (prop (js "sessionId") frame) ;;
  items <-- boundedArray (prop (js "entries") frame) MAX_ARRAY_ITEMS ;;
  entries <-- wire_map (fun value =>
    entry <-- decodeEntry value ;;
    fail_if (negb (jstr_eqb (entry_hostId entry) host) || negb (jstr_eqb (entry_sessionId entry) session)) INVALID_FRAME ;;;
    Ok entry) items ;;
  Ok (mkSnapshot cursor currentRevision host session entries).

Definition decodeEvent (input : jv) : wire LiveEventFrame :=
  frame <-- frame_base input (js "event") ;;
  cursor <-- decodeCursor (prop (js "cursor") frame) ;;
  host <-- wire_id (prop (js "hostId") frame) ;;
  session <-- wire_id (prop (js "sessionId") frame) ;;
  event <-- boundedMap (prop (js "event") frame) MAX_MAP_KEYS ;;
  controlFree (prop (js "type") event) 128 ;;;
  Ok (mkEvent cursor host session event).

Definition decodeGap (input : jv) : wire GapFrame :=
  frame <-- frame_base input (js "gap") ;;
  host <-- wire_id (prop (js "hostId") frame) ;;
  session <-- wire_id (prop (js "sessionId") frame) ;;
  from <-- decodeCursor (prop (js "from") frame) ;;
  to <-- decodeCursor (prop (js "to") frame) ;;
  fail_if (negb (jstr_eqb (epoch from) (epoch to)) || (seq to <? seq from)) INVALID_FRAME ;;;
  reason <-- controlFree (prop (js "reason") frame) 256 ;;
  Ok (mkGap host session from to reason).

Record PingFrame := mkPing { nonce : jstr; ping_timestamp : jstr }.
Record ByeFrame := mkBye { bye_code : jstr; bye_reason : jstr; retryable : bool }.

Definition decodePing (input : jv) : wire PingFrame :=
  frame <-- frame_base input (js "ping") ;;
  nonce <-- controlFree (prop (js "nonce") frame) 128 ;;
  timestamp <-- controlFree (prop (js "timestamp") frame) 128 ;;
  Ok (mkPing nonce timestamp).

Definition decodePong (input : jv) : wire PingFrame :=
  frame <-- frame_base input (js "pong") ;;
  nonce <-- controlFree (prop (js "nonce") frame) 128 ;;
  timestamp <-- controlFree (prop (js "timestamp") frame) 128 ;;
  Ok (mkPing nonce timestamp).

Definition decodeBye (input : jv) : wire ByeFrame :=
  frame <-- frame_base input (js "bye") ;;
  code <-- controlFree (prop (js "code") frame) 128 ;;
  reason <-- controlFree (prop (js "reason") frame) 1024 ;;
  retryable <-- wire_bool (prop (js "retryable") frame) ;;
  Ok (mkBye code reason retryable).

(** [decodeDurableEntryFrame] of [envelope.ts] *)
Definition decodeDurableEntryFrame (input : jv) : wire DurableEntryFrame :=
  frame <-- frame_base input (js "entry") ;;
  cursor <-- decodeCursor (prop (js "cursor") frame) ;;
  currentRevision <-- wire_id (prop (js "revision") frame) ;;
  host <-- wire_id (prop (js "hostId") frame) ;;
  session <-- wire_id (prop (js "sessionId") frame) ;;
  entry <-- decodeEntry (prop (js "entry") frame) ;;
  fail_if (negb (jstr_eqb (entry_hostId entry) host) || negb (jstr_eqb (entry_sessionId entry) session)) INVALID_FRAME ;;;
  Ok (mkEntryFrame cursor currentRevision host session entry).

(** ** Cluster workspaces ([cluster.ts]) *)

Definition exact (value : jv) (keys : list jstr) : wire (list (jstr * jv)) :=
  result <-- boundedMap value MAX_MAP_KEYS ;;
  fail_if (has_unknown_key result keys) INVALID_FRAME ;;;
  Ok result.

Definition oneOf (value : jv) (values : list jstr) : wire jstr :=
  match value with
  | JStr s => if one_of values s then Ok s else Fail INVALID_FRAME
  | _ => Fail INVALID_FRAME
  end.

Definition is_alnum (u : N) : bool := is_letter u || is_digit u.
Definition is_lower_alnum (u : N) : bool := ((0x61 <=? u) && (u <=? 0x7A))%N || is_digit u.

(** [/^[A-Za-z0-9][A-Za-z0-9._:-]{0,255}$/u] *)
Definition is_identifier (s : jstr) : bool :=
  match s with
  | c :: rest => is_alnum c && forallb (fun u => is_alnum u || existsb (N.eqb u) (js "._:-")) rest && (len rest <=? 255)
  | [] => false
  end.

(** [/^[a-z0-9](?:[-a-z0-9.]*[a-z0-9])?$/u] *)
Definition is_kubernetes_name (s : jstr) : bool :=
  match s with
  | c :: rest =>
      is_lower_alnum c && forallb (fun u => is_lower_alnum u || (u =? 0x2D)%N || (u =? 0x2E)%N) rest &&
      match last_of s with Some e => is_lower_alnum e | None => false end
  | [] => false
  end.

Definition is_quantity (s : jstr) : bool :=
  let suffixes := [[]; js "Ei"; js "Pi"; js "Ti"; js "Gi"; js "Mi"; js "Ki"; js "E"; js "P"; js "T"; js "G"; js "M"; js "K"] in
  match s with
  | c :: rest =>
      is_digit c && negb (c =? 0x30)%N &&
      existsb (fun suffix =>
        let n := (length rest - length suffix)%nat in
        (length suffix <=? length rest)%nat && forallb is_digit (take n rest) && jstr_eqb (drop n rest) suffix) suffixes
  | [] => false
  end.

Definition identifier (value : jv) (max : Z) : wire jstr :=
  result <-- controlFree value max ;;
  fail_if (negb (is_identifier result)) INVALID_FRAME ;;; Ok result.

Definition kubernetesName (value : jv) (max : Z) : wire jstr :=
  result <-- controlFree value max ;;
  fail_if (negb (is_kubernetes_name result)) INVALID_FRAME ;;; Ok result.

Definition nonEmptyText (value : jv) (max : Z) : wire jstr :=
  result <-- controlFree value max ;;
  fail_if (len result =? 0) INVALID_FRAME ;;; Ok result.

Definition quantity (value : jv) : wire jstr :=
  result <-- nonEmptyText value 32 ;;
  fail_if (negb (is_quantity result)) INVALID_FRAME ;;; Ok result.

Record ClusterCondition := mkCondition {
  cond_type : jstr;
  cond_status : jstr;
  cond_reason : jstr;
  cond_message : jstr;
  observedGeneration : Z;
}.

Record WorkspaceInfrastructureProjection := mkWorkspace {
  ws_id : jstr;
  displayName : jstr;
  phase : jstr;
  retentionPolicy : jstr;
  storageClass : option jstr;
  capacity : option jstr;
  ws_revision : jstr;
  condition : option ClusterCondition;
}.

Definition decodeClusterCondition (value : jv) : wire ClusterCondition :=
  input <-- exact value [js "type"; js "status"; js "reason"; js "message"; js "observedGeneration"] ;;
  type <-- identifier (prop (js "type") input) 128 ;;
  status <-- oneOf (prop (js "status") input) [js "True"; js "False"; js "Unknown"] ;;
  reason <-- identifier (prop (js "reason") input) 128 ;;
  message <-- controlFree (prop (js "message") input) 2048 ;;
  generation <-- safeSeq (prop (js "observedGeneration") input) ;;
  Ok (mkCondition type status reason message generation).

Definition decodeWorkspaceInfrastructureProjection (value : jv) : wire WorkspaceInfrastructureProjection :=
  input <-- exact value [js "id"; js "displayName"; js "phase"; js "retentionPolicy"; js "storageClass";
                         js "capacity"; js "accessMode"; js "revision"; js "condition"] ;;
  currentRevision <-- wire_id (prop (js "revision") input) ;;
  fail_if (negb (is_string (prop (js "accessMode") input) (js "ReadWriteMany"))) INVALID_FRAME ;;;
  id <-- kubernetesName (prop (js "id") input) 253 ;;
  display <-- nonEmptyText (prop (js "displayName") input) 128 ;;
  phase <-- oneOf (prop (js "phase") input) [js "Pending"; js "Ready"; js "Failed"; js "Terminating"; js "Unknown"] ;;
  policy <-- oneOf (prop (js "retentionPolicy") input) [js "Retain"; js "Delete"] ;;
  storage <-- when_defined (prop (js "storageClass") input) (fun v => kubernetesName v 63) ;;
  capacity <-- when_defined (prop (js "capacity") input) quantity ;;
  condition <-- when_defined (prop (js "condition") input) decodeClusterCondition ;;
  Ok (mkWorkspace id display phase policy storage capacity currentRevision condition).

(** [WorkspaceStateFrame]: an upsert or a removal. *)
Record WorkspaceStateFrame := mkWorkspaceState {
  wsf_hostId : jstr;
  wsf_workspaceId : jstr;
  wsf_cursor : Cursor;
  wsf_revision : jstr;
  wsf_change : WorkspaceInfrastructureProjection + jstr;
}.

Definition decodeWorkspaceState (value : jv) : wire WorkspaceStateFrame :=
  input <-- frame_base value (js "workspace.state") ;;
  fail_if (has_unknown_key input [js "v"; js "type"; js "hostId"; js "workspaceId"; js "cursor"; js "revision"; js "upsert"; js "remove"])
    INVALID_FRAME ;;;
  host <-- wire_id (prop (js "hostId") input) ;;
  workspace <-- identifier (prop (js "workspaceId") input) 256 ;;
  cursor <-- decodeCursor (prop (js "cursor") input) ;;
  currentRevision <-- wire_id (prop (js "revision") input) ;;
  fail_if (Bool.eqb (defined (prop (js "upsert") input)) (defined (prop (js "remove") input))) INVALID_FRAME ;;;
  if defined (prop (js "upsert") input) then
    upsert <-- decodeWorkspaceInfrastructureProjection (prop (js "upsert") input) ;;
    fail_if (negb (jstr_eqb (ws_id upsert) workspace) || negb (jstr_eqb (ws_revision upsert) currentRevision)) INVALID_FRAME ;;;
    Ok (mkWorkspaceState host workspace cursor currentRevision (inl upsert))
  else
    fail_if (negb (is_string (prop (js "remove") input) workspace)) INVALID_FRAME ;;;
    Ok (mkWorkspaceState host workspace cursor currentRevision (inr workspace)).

(** The object a decoded workspace is, as [JSON.stringify] sees it. *)
Definition condition_json (c : ClusterCondition) : jv :=
  JObj [(js "type", JStr (cond_type c)); (js "status", JStr (cond_status c)); (js "reason", JStr (cond_reason c));
        (js "message", JStr (cond_message c)); (js "observedGeneration", JNum (num_of_Z (observedGeneration c)))].

Definition workspace_json (w : WorkspaceInfrastructureProjection) : jv :=
  JObj ([(js "id", JStr (ws_id w)); (js "displayName", JStr (displayName w)); (js "phase", JStr (phase w));
         (js "retentionPolicy", JStr (retentionPolicy w))] ++
        match storageClass w with Some s => [(js "storageClass", JStr s)] | None => [] end ++
        match capacity w with Some s => [(js "capacity", JStr s)] | None => [] end ++
        [(js "accessMode", JStr (js "ReadWriteMany")); (js "revision", JStr (ws_revision w))] ++
        match condition w with Some c => [(js "condition", condition_json c)] | None => [] end).
