(* ===== verification/WireSpec.v ===== *)
(** * WireSpec: what the wire guards and decoders accept *)
From stdpp Require Import base tactics option list numbers strings sets.
From S2P Require Import Prelude JsMap JsString JsValue Wire WireGuards WireFrames.

(** ** UTF-8 lengths *)

Lemma utf8Bytes_cons_unit u s : is_lead u = false ->
  utf8Bytes (u :: s) = (if is_trail u then 3 else if (u <=? 0x7F)%N then 1 else if (u <=? 0x7FF)%N then 2 else 3) + utf8Bytes s.
Proof.
  intros Hl. unfold utf8Bytes, utf8_encode.
  assert (code_points (u :: s) = (if is_trail u || (0x10000 <=? u)%N then 0xFFFD else u)%N :: code_points s) as ->.
  { cbn [code_points]. rewrite Hl. by destruct (_ || _). }
  cbn [flat_map]. rewrite len_app. f_equal.
  destruct (is_trail u) eqn:Ht; [done|]. cbn [orb].
  destruct (N.leb_spec 0x10000 u).
  - destruct (N.leb_spec u 0x7F), (N.leb_spec u 0x7FF); try lia. done.
  - unfold utf8_cp.
    destruct (N.leb_spec u 0x7F), (N.leb_spec u 0x7FF), (N.ltb_spec u 0x80), (N.ltb_spec u 0x800), (N.ltb_spec u 0x10000); try lia; done.
Qed.

Lemma utf8Bytes_cons_pair u t s : is_lead u = true -> is_trail t = true ->
  utf8Bytes (u :: t :: s) = 4 + utf8Bytes s.
Proof.
  intros Hl Ht. unfold utf8Bytes, utf8_encode. cbn [code_points]. rewrite Hl, Ht. cbn [flat_map].
  rewrite len_app. f_equal. set (c := (0x10000 + _ + _)%N).
  assert (0x10000 <= c)%N by (subst c; lia). clearbody c. unfold utf8_cp.
  destruct (N.ltb_spec c 0x80), (N.ltb_spec c 0x800), (N.ltb_spec c 0x10000); try lia. done.
Qed.

Lemma utf8ByteLength_not_lead u s : is_lead u = false ->
  utf8ByteLength (u :: s) =
  if is_trail u then Fail INVALID_JSON
  else wbind (utf8ByteLength s) (fun n => Ok ((if (u <=? 0x7F)%N then 1 else if (u <=? 0x7FF)%N then 2 else 3) + n)).
Proof.
  intros Hl. cbn [utf8ByteLength]. unfold is_lead in Hl. rewrite Hl. fold (is_trail u).
  destruct (is_trail u) eqn:Ht.
  - unfold is_trail in Ht. bool_hyps.
    by rewrite (proj2 (N.leb_gt u 0x7F)), (proj2 (N.leb_gt u 0x7FF)) by lia.
  - destruct (u <=? 0x7F)%N; [done|]. by destruct (u <=? 0x7FF)%N.
Qed.

Lemma utf8ByteLength_lead u s : is_lead u = true ->
  utf8ByteLength (u :: s) =
  match s with
  | [] => Ok 4
  | t :: s' => if is_trail t then wbind (utf8ByteLength s') (fun n => Ok (4 + n)) else Fail INVALID_JSON
  end.
Proof.
  intros Hl. cbn [utf8ByteLength]. pose proof Hl as Hl'. unfold is_lead in Hl. rewrite Hl. bool_hyps.
  rewrite (proj2 (N.leb_gt u 0x7F)), (proj2 (N.leb_gt u 0x7FF)) by lia.
  destruct s as [|t s]; [done|]. unfold is_trail.
  destruct (N.ltb_spec t 0xDC00), (N.leb_spec 0xDC00 t), (N.ltb_spec 0xDFFF t), (N.leb_spec t 0xDFFF); try lia; done.
Qed.

(** The strings [utf8ByteLength] accepts, with their lengths. *)
Definition measured (s : jstr) (n : Z) : Prop :=
  (wf16 s = true /\ n = utf8Bytes s) \/
  (exists p u, s = p ++ [u] /\ wf16 p = true /\ is_lead u = true /\ n = utf8Bytes p + 4).

Lemma measured_unit u s n : is_lead u = false ->
  measured (u :: s) n <-> is_trail u = false /\ exists m, measured s m /\
    n = (if (u <=? 0x7F)%N then 1 else if (u <=? 0x7FF)%N then 2 else 3) + m.
Proof.
  intros Hl. unfold measured. split.
  - intros [[Hw ->]|([|v p] & x & E & Hw & Hx & ->)].
    + cbn [wf16] in Hw. rewrite Hl in Hw. bool_hyps. rewrite utf8Bytes_cons_unit, H by done. eauto 6.
    + injection E as -> ->. congruence.
    + injection E as <- ->. cbn [wf16] in Hw. rewrite Hl in Hw. bool_hyps. split; [done|].
      eexists. split; [right; eauto 6|]. rewrite utf8Bytes_cons_unit, H by done. lia.
  - intros (Ht & m & [[Hw ->]|(p & x & -> & Hw & Hx & ->)] & ->).
    + left. cbn [wf16]. by rewrite Hl, Ht, Hw, utf8Bytes_cons_unit, Ht by done.
    + right. exists (u :: p), x. cbn [wf16]. rewrite Hl, Ht, Hw, utf8Bytes_cons_unit, Ht by done.
      split_and!; try done. lia.
Qed.

Lemma measured_pair u t s n : is_lead u = true ->
  measured (u :: t :: s) n <-> is_trail t = true /\ exists m, measured s m /\ n = 4 + m.
Proof.
  intros Hl. unfold measured. split.
  - intros [[Hw ->]|([|v [|w p]] & x & E & Hw & Hx & ->)]; try done.
    + cbn [wf16] in Hw. rewrite Hl in Hw. bool_hyps. rewrite utf8Bytes_cons_pair by done. eauto 6.
    + injection E as <- -> ->. cbn [wf16] in Hw. by rewrite Hl in Hw.
    + injection E as <- <- ->. cbn [wf16] in Hw. rewrite Hl in Hw. bool_hyps. split; [done|].
      eexists. split; [right; eauto 6|]. rewrite utf8Bytes_cons_pair by done. lia.
  - intros (Ht & m & [[Hw ->]|(p & x & -> & Hw & Hx & ->)] & ->).
    + left. cbn [wf16]. by rewrite Hl, Ht, Hw, utf8Bytes_cons_pair by done.
    + right. exists (u :: t :: p), x. cbn [wf16]. rewrite Hl, Ht, Hw, utf8Bytes_cons_pair by done.
      split_and!; try done. lia.
Qed.

Lemma measured_lead u n : is_lead u = true -> measured [u] n <-> n = 4.
Proof.
  intros Hl. unfold measured. split.
  - intros [[Hw ->]|([|v p] & x & E & Hw & Hx & ->)]; [|done|by destruct p].
    cbn [wf16] in Hw. by rewrite Hl in Hw.
  - intros ->. right. by exists [], u.
Qed.

Lemma utf8ByteLength_measured s n : utf8ByteLength s = Ok n <-> measured s n.
Proof.
  revert n. induction s as [|u|u t s IH1 IH2] using jstr_ind2; intros n.
  - unfold measured. simpl. split; [intros [= <-]; by left|].
    intros [[_ ->]|([|v p] & x & E & _)]; done.
  - destruct (is_lead u) eqn:El; [rewrite utf8ByteLength_lead, measured_lead by done; naive_solver|].
    rewrite utf8ByteLength_not_lead, measured_unit by done. destruct (is_trail u); [naive_solver|].
    simpl. unfold measured. split.
    + intros [= <-]. split; [done|]. exists 0. split; [by left|done].
    + intros (_ & m & [[_ ->]|([|v p] & x & E & _)] & ->); done.
  - destruct (is_lead u) eqn:El.
    + rewrite utf8ByteLength_lead, measured_pair by done. destruct (is_trail t); [|naive_solver].
      rewrite wbind_ok. setoid_rewrite IH2. naive_solver.
    + rewrite utf8ByteLength_not_lead, measured_unit by done. destruct (is_trail u); [naive_solver|].
      rewrite wbind_ok. setoid_rewrite IH1. naive_solver.
Qed.

(** [utf8ByteLength] measures exactly the strings without unpaired surrogates, with one
    exception.  It returns [n] if and only if the string is well-formed UTF-16 and [n] is the
    length of its UTF-8 encoding, or the string ends in an unpaired high surrogate after a
    well-formed prefix, in which case the dangling surrogate is counted as four bytes instead
    of being rejected like every other unpaired surrogate. *)
Theorem utf8ByteLength_exact s n :
  utf8ByteLength s = Ok n <->
  (wf16 s = true /\ n = utf8Bytes s) \/
  (exists p u, s = p ++ [u] /\ wf16 p = true /\ is_lead u = true /\ n = utf8Bytes p + 4).
Proof. apply utf8ByteLength_measured. Qed.

(** ** Bounded JSON trees *)

Definition ok_bytes (s : jstr) : Z := match utf8ByteLength s with Ok n => n | Fail _ => 0 end.
Definition text_ok (s : jstr) : bool := match utf8ByteLength s with Ok _ => true | Fail _ => false end.

(** Nodes of a value, the bytes [validateJson] charges for it, and the conditions on its shape. *)
Fixpoint json_nodes (v : jv) : Z :=
  match v with
  | JArr items => 1 + sumZ (map json_nodes items)
  | JObj props => 1 + sumZ (map (fun kv => json_nodes (snd kv)) props)
  | _ => 1
  end.

Fixpoint json_charge (v : jv) : Z :=
  match v with
  | JStr s => ok_bytes s
  | JArr items => sumZ (map json_charge items)
  | JObj props => sumZ (map (fun kv => ok_bytes (fst kv) + json_charge (snd kv)) props)
  | JUndef => 0
  | _ => 8
  end.

Fixpoint json_shape (depth : Z) (v : jv) : bool :=
  match v with
  | JUndef => false
  | JNull | JBool _ => true
  | JNum n => num_finite n
  | JStr s => text_ok s
  | JArr items =>
      (depth <? MAX_JSON_DEPTH) && (len items <=? MAX_ARRAY_ITEMS) && forallb (json_shape (depth + 1)) items
  | JObj props =>
      (depth <? MAX_JSON_DEPTH) && (len props <=? MAX_MAP_KEYS) &&
      forallb (fun kv => text_ok (fst kv) && json_shape (depth + 1) (snd kv)) props
  end.

Lemma ok_bytes_nonneg s : 0 <= ok_bytes s.
Proof.
  unfold ok_bytes. destruct (utf8ByteLength s) as [n|] eqn:E; [|done].
  apply utf8ByteLength_measured in E as [[_ ->]|(p & u & _ & _ & _ & ->)];
    [apply utf8Bytes_nonneg|pose proof (utf8Bytes_nonneg p); lia].
Qed.

Lemma sumZ_map_nonneg {A} (f : A -> Z) l : Forall (fun x => 0 <= f x) l -> 0 <= sumZ (map f l).
Proof. intros H. apply sumZ_nonneg. by apply Forall_map. Qed.

Lemma json_charge_nonneg v : 0 <= json_charge v.
Proof.
  induction v as [| |b|n|s|l IH|o IH] using jv_ind'; cbn [json_charge]; try lia.
  - apply ok_bytes_nonneg.
  - by apply sumZ_map_nonneg.
  - apply sumZ_map_nonneg. eapply Forall_impl; [exact IH|].
    intros [k x] Hx. simpl in *. pose proof (ok_bytes_nonneg k). lia.
Qed.

Lemma json_nodes_pos v : 1 <= json_nodes v.
Proof.
  induction v as [| |b|n|s|l IH|o IH] using jv_ind'; cbn [json_nodes]; try lia.
  - assert (0 <= sumZ (map json_nodes l)); [|lia]. apply sumZ_map_nonneg. eapply Forall_impl; [exact IH|]. simpl. lia.
  - assert (0 <= sumZ (map (fun kv => json_nodes (snd kv)) o)); [|lia].
    apply sumZ_map_nonneg. eapply Forall_impl; [exact IH|]. simpl. lia.
Qed.

(** Totals over the work list of [validate_stack]. *)
Definition stack_nodes (stack : list (jv * Z)) : Z := sumZ (map (fun vd => json_nodes (fst vd)) stack).
Definition stack_charge (stack : list (jv * Z)) : Z := sumZ (map (fun vd => json_charge (fst vd)) stack).
Definition stack_shape (stack : list (jv * Z)) : bool := forallb (fun vd => json_shape (snd vd) (fst vd)) stack.

Lemma stack_charge_nonneg stack : 0 <= stack_charge stack.
Proof. apply sumZ_map_nonneg, Forall_true. intros. apply json_charge_nonneg. Qed.

Lemma stack_nodes_nonneg stack : 0 <= stack_nodes stack.
Proof. apply sumZ_map_nonneg, Forall_true. intros [v d]. simpl. pose proof (json_nodes_pos v). lia. Qed.

Lemma addApprox_ok bytes amount max r : addApprox bytes amount max = Ok r <-> r = bytes + amount /\ r <= max.
Proof.
  unfold addApprox. destruct (bytes + amount >? max) eqn:E; bool_hyps.
  - split; [done|]. intros [-> ?]. lia.
  - split; [intros [= <-]; split; [done|lia]|]. by intros [-> _].
Qed.

Lemma push_props_ok props depth approx max stack a s :
  approx <= max ->
  push_props props depth approx max stack = Ok (a, s) <->
  forallb (fun kv => text_ok (fst kv)) props = true /\
  a = approx + sumZ (map (fun kv => ok_bytes (fst kv)) props) /\ a <= max /\
  s = rev (map (fun kv => (snd kv, depth)) props) ++ stack.
Proof.
  revert approx stack. induction props as [|[k v] props IH]; intros approx stack Ha; simpl.
  { split; [intros [= <- <-]; split_and!; try done; lia|]. intros (_ & -> & _ & ->). by rewrite Z.add_0_r. }
  assert (0 <= sumZ (map (fun kv : jstr * jv => ok_bytes (fst kv)) props)) as Hs.
  { apply sumZ_map_nonneg, Forall_true. intros. apply ok_bytes_nonneg. }
  unfold text_ok at 1, ok_bytes at 1. destruct (utf8ByteLength k) as [n|]; simpl; [|naive_solver].
  rewrite wbind_ok. setoid_rewrite addApprox_ok. split.
  - intros (r & [-> Hr] & H). apply IH in H as (-> & -> & ? & ->); [|done].
    rewrite <- app_assoc. split_and!; try done; lia.
  - intros (Hall & -> & Hle & ->). exists (approx + n). split; [split; [done|lia]|].
    apply IH; [lia|]. rewrite <- app_assoc. split_and!; try done; lia.
Qed.

Lemma stack_app s s' :
  stack_nodes (s ++ s') = stack_nodes s + stack_nodes s' /\
  stack_charge (s ++ s') = stack_charge s + stack_charge s' /\
  stack_shape (s ++ s') = stack_shape s && stack_shape s'.
Proof. unfold stack_nodes, stack_charge, stack_shape. by rewrite !map_app, !sumZ_app, forallb_app. Qed.

Lemma stack_cons_shape v d s : stack_shape ((v, d) :: s) = json_shape d v && stack_shape s.
Proof. done. Qed.

Lemma stack_cons_nodes v d s : stack_nodes ((v, d) :: s) = json_nodes v + stack_nodes s.
Proof. done. Qed.

Lemma stack_cons_charge v d s : stack_charge ((v, d) :: s) = json_charge v + stack_charge s.
Proof. done. Qed.

Lemma sumZ_rev l : sumZ (rev l) = sumZ l.
Proof. induction l as [|x l IH]; simpl; [done|]. rewrite sumZ_app, IH. simpl. lia. Qed.

Lemma forallb_rev {A} (f : A -> bool) l : forallb f (rev l) = forallb f l.
Proof. induction l as [|x l IH]; simpl; [done|]. rewrite forallb_app, IH. simpl. rewrite andb_true_r. apply andb_comm. Qed.

Lemma forallb_map {A B} (g : A -> B) (f : B -> bool) l : forallb f (map g l) = forallb (fun x => f (g x)) l.
Proof. induction l as [|x l IH]; simpl; [done|]. by rewrite IH. Qed.

Lemma forallb_and {A} (f g : A -> bool) l : forallb (fun x => f x && g x) l = forallb f l && forallb g l.
Proof.
  induction l as [|x l IH]; simpl; [done|]. rewrite IH.
  by destruct (f x), (g x), (forallb f l), (forallb g l).
Qed.

Lemma stack_items items depth :
  stack_nodes (map (fun item => (item, depth)) items) = sumZ (map json_nodes items) /\
  stack_charge (map (fun item => (item, depth)) items) = sumZ (map json_charge items) /\
  stack_shape (map (fun item => (item, depth)) items) = forallb (json_shape depth) items.
Proof. unfold stack_nodes, stack_charge, stack_shape. by rewrite !map_map, forallb_map. Qed.

Lemma stack_props props depth :
  let stack := rev (map (fun kv : jstr * jv => (snd kv, depth)) props) in
  stack_nodes stack = sumZ (map (fun kv => json_nodes (snd kv)) props) /\
  stack_charge stack = sumZ (map (fun kv => json_charge (snd kv)) props) /\
  stack_shape stack = forallb (fun kv => json_shape depth (snd kv)) props.
Proof.
  unfold stack_nodes, stack_charge, stack_shape. simpl.
  by rewrite !map_rev, !sumZ_rev, forallb_rev, !map_map, forallb_map.
Qed.

Lemma sumZ_map_add {A} (f g : A -> Z) l : sumZ (map (fun x => f x + g x) l) = sumZ (map f l) + sumZ (map g l).
Proof. induction l as [|x l IH]; simpl; [done|]. rewrite IH. lia. Qed.

(** One leaf of the work list. *)
Lemma validate_leaf budget max approx amount (ok : bool) v d stack :
  0 <= amount -> json_nodes v = 1 -> (ok = true -> json_charge v = amount) -> json_shape d v = ok ->
  (forall a, a <= max -> validate_stack budget max a stack = Ok tt <->
     stack_shape stack = true /\ stack_nodes stack <= Z.of_nat budget /\ a + stack_charge stack <= max) ->
  (ok = true /\ wbind (addApprox approx amount max) (fun a => validate_stack budget max a stack) = Ok tt) <->
  stack_shape ((v, d) :: stack) = true /\ stack_nodes ((v, d) :: stack) <= Z.of_nat (S budget) /\
  approx + stack_charge ((v, d) :: stack) <= max.
Proof.
  intros Hpos Hn Hc Hs IH. pose proof (stack_charge_nonneg stack).
  unfold stack_shape, stack_nodes, stack_charge in *. simpl. rewrite Hs, Hn.
  rewrite wbind_ok. setoid_rewrite addApprox_ok. split.
  - intros [-> (a & [-> Ha] & H')]. rewrite Hc by done. apply IH in H' as (-> & ? & ?); [|done].
    split_and!; [done|lia|lia].
  - intros (Hsh & ? & ?). apply andb_true_iff in Hsh as [-> Hsh]. rewrite Hc in * by done. split; [done|].
    exists (approx + amount). split; [split; [done|lia]|]. apply IH; [lia|]. split_and!; [done|lia|lia].
Qed.

Lemma validate_stack_ok budget max approx stack :
  approx <= max ->
  validate_stack budget max approx stack = Ok tt <->
  stack_shape stack = true /\ stack_nodes stack <= Z.of_nat budget /\ approx + stack_charge stack <= max.
Proof.
  revert approx stack. induction budget as [|budget IH]; intros approx [|[v d] stack] Ha.
  - simpl. split; [|done]. intros _. unfold stack_nodes, stack_charge. simpl. split_and!; [done|lia|lia].
  - cbn [validate_stack]. split; [done|]. intros (_ & Hn & _). unfold stack_nodes in Hn. simpl in Hn.
    pose proof (json_nodes_pos v). pose proof (stack_nodes_nonneg stack). unfold stack_nodes in *. lia.
  - simpl. split; [|done]. intros _. unfold stack_nodes, stack_charge. simpl. split_and!; [done|lia|lia].
  - cbn [validate_stack].
    pose proof (fun a Ha => IH a stack Ha) as IHs.
    pose proof (stack_charge_nonneg stack) as Hcn.
    destruct v as [| |b|n|s|items|props].
    + split; [done|]. unfold stack_shape. simpl. naive_solver.
    + rewrite <- (validate_leaf budget max approx 8 true JNull d stack) by done. naive_solver.
    + rewrite <- (validate_leaf budget max approx 8 true (JBool b) d stack) by done. naive_solver.
    + rewrite <- (validate_leaf budget max approx 8 (num_finite n) (JNum n) d stack) by done.
      rewrite wbind_ok. setoid_rewrite fail_if_ok. destruct (num_finite n); simpl; naive_solver.
    + rewrite <- (validate_leaf budget max approx (ok_bytes s) (text_ok s) (JStr s) d stack);
        [|apply ok_bytes_nonneg|done|done|done|done].
      unfold text_ok, ok_bytes. destruct (utf8ByteLength s); simpl; naive_solver.
    + destruct (stack_items items (d + 1)) as (E1 & E2 & E3).
      destruct (stack_app (map (fun item => (item, d + 1)) items) stack) as (F1 & F2 & F3).
      rewrite !check_ok, IH, F1, F2, F3, E1, E2, E3 by done.
      rewrite stack_cons_shape, stack_cons_nodes, stack_cons_charge. cbn [json_shape json_nodes json_charge].
      rewrite <- !andb_assoc, !andb_true_iff, Z.ltb_lt, Z.leb_le, Z.leb_gt, Z.gtb_ltb, Z.ltb_ge.
      rewrite <- !Z.add_assoc. intuition lia.
    + destruct (stack_props props (d + 1)) as (E1 & E2 & E3).
      destruct (stack_app (rev (map (fun kv : jstr * jv => (snd kv, d + 1)) props)) stack) as (F1 & F2 & F3).
      rewrite !check_ok, wbind_ok.
      rewrite stack_cons_shape, stack_cons_nodes, stack_cons_charge. cbn [json_shape json_nodes json_charge].
      rewrite forallb_and, sumZ_map_add, <- !andb_assoc, !andb_true_iff, Z.ltb_lt, Z.leb_le, Z.leb_gt, Z.gtb_ltb, Z.ltb_ge.
      assert (0 <= sumZ (map (fun kv : jstr * jv => json_charge (snd kv)) props)) as Hpos.
      { apply sumZ_map_nonneg, Forall_true. intros. apply json_charge_nonneg. }
      split.
      * intros (Hd & Hl & [a s] & Hp & H). apply push_props_ok in Hp as (Hk & -> & Hle & ->); [|done].
        simpl in H. apply IH in H as (H1 & H2 & H3); [|done].
        rewrite F1, F2, F3, E1, E2, E3 in *. apply andb_true_iff in H1. split_and!; try tauto; lia.
      * intros ((Hd & Hl & Hk & Hs & Hst) & Hn & Hc). split; [done|]. split; [done|].
        exists (approx + sumZ (map (fun kv : jstr * jv => ok_bytes (fst kv)) props),
                rev (map (fun kv : jstr * jv => (snd kv, d + 1)) props) ++ stack).
        split; [apply push_props_ok; [done|]; split_and!; [done|done|lia|done]|].
        simpl. apply IH; [lia|]. rewrite F1, F2, F3, E1, E2, E3, andb_true_iff. split_and!; [done|done|lia|lia].
Qed.

Lemma validateJson_ok v max : 0 <= max ->
  validateJson v max = Ok tt <->
  json_shape 0 v = true /\ json_nodes v <= Z.of_nat MAX_JSON_NODES /\ json_charge v <= max.
Proof.
  intros. unfold validateJson. rewrite validate_stack_ok by done.
  rewrite stack_cons_shape, stack_cons_nodes, stack_cons_charge, andb_true_iff.
  unfold stack_shape, stack_nodes, stack_charge. simpl. rewrite !Z.add_0_r. tauto.
Qed.

(** C37: The explicit-stack traversal of [validateJson] accepts exactly the JSON trees within the
    protocol limits: every value is JSON (no [undefined], no non-finite number, no unpaired
    surrogate that [utf8ByteLength] rejects), containers nest less than [MAX_JSON_DEPTH] deep,
    arrays and objects are bounded, at most [MAX_JSON_NODES] nodes, and the bytes charged for
    keys, strings (their UTF-8 length) and scalars (eight each) are at most [max].  The node
    budget that drives the loop is therefore never exhausted by an acceptable value. *)
Theorem validateJson_exact v max :
  0 <= max ->
  validateJson v max = Ok tt <->
  json_shape 0 v = true /\ json_nodes v <= 20000 /\ json_charge v <= max.
Proof. apply validateJson_ok. Qed.

Lemma validateJson_exact_witness :
  0 <= 40 /\ validateJson (JObj [(js "a", JArr [JNull; JStr (js "xyz")]); (js "b", JNum (num_of_Z 7))]) 40 = Ok tt.
Proof. split; [by_compute|]. apply (validateJson_exact _ 40); [by_compute|]. split_and!; [reflexivity|by_compute|by_compute]. Defined.

(** ** Safe relative paths *)

(** POSIX resolution of path segments below a directory. *)
Fixpoint resolve_path (dir segments : list jstr) : list jstr :=
  match segments with
  | [] => dir
  | s :: rest =>
      if (len s =? 0) || jstr_eqb s (js ".") then resolve_path dir rest
      else if jstr_eqb s (js "..") then resolve_path (removelast dir) rest
      else resolve_path (dir ++ [s]) rest
  end.

Lemma resolve_safe dir segments :
  existsb unsafe_segment segments = false -> resolve_path dir segments = dir ++ segments.
Proof.
  revert dir. induction segments as [|s rest IH]; intros dir H; cbn [resolve_path existsb] in *; [by rewrite app_nil_r|].
  bool_hyps. unfold unsafe_segment in H. bool_hyps.
  rewrite (proj2 (Z.eqb_neq _ _) H), H2, H1. cbn [orb]. rewrite IH by done. by rewrite <- app_assoc.
Qed.

Lemma split_on_join sep s : join [sep] (split_on sep s) = s /\ split_on sep s ≠ [].
Proof.
  induction s as [|c s [IH Hne]]; [done|]. simpl.
  destruct (split_on sep s) as [|part parts]; [done|].
  destruct (N.eqb_spec c sep) as [->|Hc]; (split; [|done]).
  - change (join [sep] ([] :: part :: parts)) with ([] ++ [sep] ++ join [sep] (part :: parts)). by rewrite IH.
  - destruct parts; simpl in *; by rewrite IH.
Qed.



(** ** Round trips *)

Lemma controlFree_str value max s : controlFree value max = Ok s ->
  value = JStr s /\ text_ok s = true /\ ok_bytes s <= max.
Proof.
  unfold controlFree, wire_string. intros H. destruct value as [| | | |t| |]; wire_hyps; try done.
  destruct (len t =? 0); [done|]. wire_hyps. subst.
  match goal with Hc : (if _ >? _ then _ else _) = Ok _ |- _ => destruct (_ >? _) eqn:Eg; [done|]; injection Hc as -> end.
  bool_hyps. unfold text_ok, ok_bytes. match goal with Hu : utf8ByteLength _ = Ok _ |- _ => by rewrite Hu end.
Qed.

Lemma wire_id_str value s : wire_id value = Ok s -> value = JStr s /\ text_ok s = true /\ ok_bytes s <= MAX_ID_BYTES.
Proof. apply controlFree_str. Qed.

Lemma strip10_value fuel d e : 0 <= e ->
  let (d', e') := strip10 fuel d e in Z.of_N d' * 10 ^ e' = Z.of_N d * 10 ^ e /\ 0 <= e'.
Proof.
  revert d e. induction fuel as [|f IH]; intros d e He; simpl; [lia|].
  destruct (negb (d =? 0)%N && (d mod 10 =? 0)%N) eqn:E; [|lia]. bool_hyps.
  specialize (IH (d / 10)%N (e + 1) ltac:(lia)). destruct (strip10 f (d / 10)%N (e + 1)) as [d' e'].
  destruct IH as [-> ?]. split; [|done]. rewrite N2Z.inj_div, Z.pow_add_r by lia.
  pose proof (N.div_mod d 10 ltac:(done)) as Hd. rewrite H0 in Hd. rewrite Hd at 2.
  rewrite N.add_0_r, N2Z.inj_mul, N2Z.inj_div. simpl (Z.of_N 10). lia.
Qed.

Lemma num_to_Z_of_Z z : num_to_Z (num_of_Z z) = Some z.
Proof.
  unfold num_of_Z. pose proof (strip10_value 400 (Z.abs_N z) 0 ltac:(lia)) as H.
  destruct (strip10 400 (Z.abs_N z) 0) as [d e]. destruct H as [Hv He]. unfold num_to_Z.
  rewrite (proj2 (Z.leb_le _ _) He), Hv, Z.mul_1_r, N2Z.inj_abs_N.
  f_equal. destruct (Z.ltb_spec z 0); lia.
Qed.

Lemma safeSeq_range value z : safeSeq value = Ok z -> 0 <= z <= MAX_SAFE_INTEGER.
Proof.
  unfold safeSeq, num_safe_integer. destruct value as [| | |n| | |]; try done.
  destruct (num_to_Z n) as [z'|]; [|done]. destruct (Z.abs z' <=? MAX_SAFE_INTEGER) eqn:E; [|done].
  destruct (z' <? 0) eqn:E'; [done|]. intros [= ->]. bool_hyps. lia.
Qed.

Lemma safeSeq_of_Z z : 0 <= z <= MAX_SAFE_INTEGER -> safeSeq (JNum (num_of_Z z)) = Ok z.
Proof.
  intros H. unfold safeSeq, num_safe_integer. rewrite num_to_Z_of_Z.
  rewrite (proj2 (Z.leb_le _ _)) by lia. by rewrite (proj2 (Z.ltb_ge _ _)) by lia.
Qed.

Lemma num_finite_of_Z z : num_finite (num_of_Z z) = true.
Proof. unfold num_of_Z. by destruct (strip10 _ _ _). Qed.

Lemma decodeCursor_fields value c : decodeCursor value = Ok c ->
  controlFree (JStr (epoch c)) MAX_EPOCH_BYTES = Ok (epoch c) /\ 0 <= seq c <= MAX_SAFE_INTEGER.
Proof.
  unfold decodeCursor. intros H. wire_hyps. subst c. simpl. split; [|by eapply safeSeq_range].
  match goal with Hc : controlFree ?v _ = Ok _ |- _ => pose proof Hc as Hs; apply controlFree_str in Hs as [<- _]; done end.
Qed.

Lemma decodeCursor_encode c :
  controlFree (JStr (epoch c)) MAX_EPOCH_BYTES = Ok (epoch c) -> 0 <= seq c <= MAX_SAFE_INTEGER ->
  decodeCursor (cursor_json c) = Ok c.
Proof.
  intros He Hs. pose proof (controlFree_str _ _ _ He) as (_ & Ht & Hb).
  assert (validateJson (cursor_json c) MAX_INPUT_BYTES = Ok tt) as Hv.
  { apply validateJson_ok; [done|]. unfold cursor_json. cbn [json_shape json_nodes json_charge map forallb fst snd].
    rewrite Ht, num_finite_of_Z. split; [done|]. split; [by_compute|].
    change (ok_bytes (js "epoch")) with 5. change (ok_bytes (js "seq")) with 3.
    unfold sumZ. cbn [fold_right]. unfold MAX_INPUT_BYTES, MAX_EPOCH_BYTES in *. lia. }
  unfold decodeCursor, inputObject. rewrite Hv. unfold cursor_json. cbn [wbind object].
  change (prop (js "epoch") _) with (JStr (epoch c)). change (prop (js "seq") _) with (JNum (num_of_Z (seq c))).
  rewrite He. cbn [wbind]. rewrite safeSeq_of_Z by done. cbn [wbind]. by destruct c.
Qed.

(** Re-encoding selected properties of an object costs no more than the object. *)
Lemma select_props_le (f : jstr * jv -> Z) sel o :
  (forall kv, 0 <= f kv) -> NoDup (map fst sel) ->
  Forall (fun kv => map_get (fst kv) o = Some (snd kv)) sel -> sumZ (map f sel) <= sumZ (map f o).
Proof.
  intros Hf. revert o. induction sel as [|[k x] sel IH]; intros o Hnd Hsel; simpl.
  { apply sumZ_map_nonneg, Forall_true. auto. }
  apply NoDup_cons in Hnd as [Hn Hnd]. apply Forall_cons in Hsel as [Hk Hsel]. simpl in Hk.
  assert (sumZ (map f (map_delete k o)) + f (k, x) <= sumZ (map f o)) as Hdel.
  { clear -Hk Hf. induction o as [|[a b] o IH]; [done|]. simpl in Hk. unfold map_delete in *. simpl.
    assert (sumZ (map f (List.filter (fun kv : jstr * jv => negb (bool_decide (k = fst kv))) o)) <= sumZ (map f o)) as Hle.
    { clear -Hf. induction o as [|y o IH]; simpl; [lia|]. pose proof (Hf y). destruct (negb _); simpl; lia. }
    destruct (decide (k = a)) as [->|Hne].
    - injection Hk as ->. rewrite bool_decide_true by done. simpl. lia.
    - rewrite bool_decide_false by done. simpl. specialize (IH Hk). lia. }
  assert (sumZ (map f sel) <= sumZ (map f (map_delete k o))); [|lia].
  apply IH; [done|]. rewrite Forall_forall in Hsel |- *. intros [a b] Hin. simpl.
  rewrite map_get_delete_ne; [by apply (Hsel (a, b))|]. intros ->. apply Hn.
  apply list_elem_of_fmap. by exists (k, b).
Qed.

Lemma validate_select sel o max :
  0 <= max -> NoDup (map fst sel) -> Forall (fun kv => map_get (fst kv) o = Some (snd kv)) sel ->
  len sel <= MAX_MAP_KEYS -> validateJson (JObj o) max = Ok tt -> validateJson (JObj sel) max = Ok tt.
Proof.
  intros Hm Hnd Hsel Hlen Hv. apply validateJson_ok in Hv as (Hsh & Hno & Hch); [|done].
  apply validateJson_ok; [done|]. cbn [json_shape json_nodes json_charge] in *. bool_hyps.
  split_and!.
  - rewrite !andb_true_iff. split_and!; [by apply Z.ltb_lt|by apply Z.leb_le|].
    apply forallb_forall. intros [k x] Hin. rewrite forallb_forall in H0. apply H0.
    rewrite Forall_forall in Hsel. apply list_elem_of_In. apply list_elem_of_In, Hsel in Hin.
    by apply map_get_some_in in Hin.
  - pose proof (select_props_le (fun kv => json_nodes (snd kv)) sel o) as Hle.
    specialize (Hle ltac:(intros kv; pose proof (json_nodes_pos (snd kv)); lia) Hnd Hsel). lia.
  - pose proof (select_props_le (fun kv => ok_bytes (fst kv) + json_charge (snd kv)) sel o) as Hle.
    specialize (Hle ltac:(intros kv; pose proof (json_charge_nonneg (snd kv)); pose proof (ok_bytes_nonneg (fst kv)); lia) Hnd Hsel). lia.
Qed.

Lemma prop_defined_get k o v : prop k o = v -> v ≠ JUndef -> map_get k o = Some v.
Proof. unfold prop. destruct (map_get k o); [congruence|done]. Qed.

Lemma when_defined_ok {A} v (f : jv -> wire A) r : when_defined v f = Ok r ->
  (v = JUndef /\ r = None) \/ (v ≠ JUndef /\ exists x, f v = Ok x /\ r = Some x).
Proof. destruct v; simpl; intros H; wire_hyps; subst; eauto 6. Qed.

Lemma boundedMap_obj v max o : boundedMap v max = Ok o -> v = JObj o.
Proof. unfold boundedMap, object. destruct v; simpl; intros H; try done. destruct (_ >? _); [done|]. by injection H as ->. Qed.

Lemma inputObject_obj o : validateJson (JObj o) MAX_INPUT_BYTES = Ok tt -> inputObject (JObj o) = Ok o.
Proof. intros H. unfold inputObject. by rewrite H. Qed.

Lemma inputObject_ok v o : inputObject v = Ok o -> v = JObj o /\ validateJson (JObj o) MAX_INPUT_BYTES = Ok tt.
Proof.
  unfold inputObject. intros ([] & Hv & Ho)%wbind_ok. destruct v; try done. injection Ho as ->. done.
Qed.

Definition entry_keys : list jstr :=
  [js "id"; js "parentId"; js "hostId"; js "sessionId"; js "turnId"; js "kind"; js "timestamp"; js "data"].

(** Only the declared properties matter. *)
Lemma decode_entry_object_props o o' :
  Forall (fun k => prop k o' = prop k o) entry_keys -> decode_entry_object o' = decode_entry_object o.
Proof.
  intros H. unfold decode_entry_object.
  repeat (apply Forall_cons in H as [-> H]). reflexivity.
Qed.

(** The properties of [entry_json] are properties of the decoded object. *)
Lemma decode_entry_object_fields o e : decode_entry_object o = Ok e ->
    prop (js "id") o = JStr (entry_id e) /\ prop (js "parentId") o = jopt (parentId e) /\
    prop (js "hostId") o = JStr (entry_hostId e) /\ prop (js "sessionId") o = JStr (entry_sessionId e) /\
    prop (js "turnId") o = match turnId e with Some t => JStr t | None => JUndef end /\
    prop (js "kind") o = JStr (kind e) /\ prop (js "timestamp") o = JStr (timestamp e) /\
    prop (js "data") o = JObj (data e).
Proof.
  unfold decode_entry_object. intros H. wire_hyps. subst e. simpl.
  repeat match goal with
  | Hc : controlFree _ _ = Ok _ |- _ => apply controlFree_str in Hc as (Hc & _)
  | Hc : wire_id _ = Ok _ |- _ => apply wire_id_str in Hc as (Hc & _)
  | Hc : boundedMap _ _ = Ok _ |- _ => apply boundedMap_obj in Hc
  | Hc : when_defined _ wire_id = Ok _ |- _ => apply when_defined_ok in Hc as [[Hc ->]|(_ & ? & Hc & ->)]
  end; split_and!; try done.
  all: match goal with Hp : match prop (js "parentId") _ with _ => _ end = Ok _ |- _ =>
         destruct (prop (js "parentId") o) eqn:Ep; wire_hyps; subst; try done;
         match goal with Hw : wire_id _ = Ok _ |- _ => apply wire_id_str in Hw as (Hw & _); by injection Hw as -> end end.
Qed.

(** The property list of [entry_json]. *)
Definition entry_props (e : DurableEntry) : list (jstr * jv) :=
  match entry_json e with JObj o => o | _ => [] end.

Lemma entry_props_same e o :
  decode_entry_object o = Ok e -> Forall (fun k => prop k (entry_props e) = prop k o) entry_keys.
Proof.
  intros (Hid & Hpa & Hh & Hs & Ht & Hk & Hts & Hd)%decode_entry_object_fields. unfold entry_keys.
  repeat apply Forall_cons_2; rewrite ?Hid, ?Hpa, ?Hh, ?Hs, ?Ht, ?Hk, ?Hts, ?Hd; [..|constructor];
    unfold entry_props, entry_json; destruct (turnId e); reflexivity.
Qed.

Lemma entry_props_valid e o :
  decode_entry_object o = Ok e -> validateJson (JObj o) MAX_INPUT_BYTES = Ok tt ->
  validateJson (JObj (entry_props e)) MAX_INPUT_BYTES = Ok tt.
Proof.
  intros (Hid & Hpa & Hh & Hs & Ht & Hk & Hts & Hd)%decode_entry_object_fields Hv.
  unfold entry_props, entry_json. eapply validate_select; [done| | | |exact Hv].
  - destruct (turnId e); by_compute.
  - repeat apply Forall_app_2; repeat constructor; simpl; try by apply prop_defined_get.
    + apply prop_defined_get; [done|by destruct (parentId e)].
    + destruct (turnId e); repeat constructor. by apply prop_defined_get.
  - destruct (turnId e); by_compute.
Qed.

Lemma entry_json_props e : entry_json e = JObj (entry_props e).
Proof. reflexivity. Qed.

Lemma decodeEntry_ok v e : decodeEntry v = Ok e <-> exists o, inputObject v = Ok o /\ decode_entry_object o = Ok e.
Proof. unfold decodeEntry. apply wbind_ok. Qed.

Lemma decodeEntry_reencode value e : decodeEntry value = Ok e -> decodeEntry (entry_json e) = Ok e.
Proof.
  rewrite !decodeEntry_ok, entry_json_props. intros (o & [-> Hv]%inputObject_ok & H).
  exists (entry_props e). split; [apply inputObject_obj; by apply (entry_props_valid e o)|].
  rewrite (decode_entry_object_props o); [done|]. by apply entry_props_same.
Qed.

(** Decoding is stable under re-encoding.  Whatever [decodeCursor] or [decodeEntry] accepts,
    the canonical JSON object of the decoded record ([cursor_json], [entry_json]) is accepted
    again, within all limits, and decodes to the same record. *)
Theorem decode_reencode :
  (forall value c, decodeCursor value = Ok c -> decodeCursor (cursor_json c) = Ok c) /\
  (forall value e, decodeEntry value = Ok e -> decodeEntry (entry_json e) = Ok e).
Proof.
  split; [intros value c [He Hs]%decodeCursor_fields; by apply decodeCursor_encode|].
  apply decodeEntry_reencode.
Qed.

(** ** Frames and workspaces *)

Lemma wire_map_ok {A B} (f : A -> wire B) l r : wire_map f l = Ok r -> Forall2 (fun x y => f x = Ok y) l r.
Proof.
  revert r. induction l as [|x l IH]; intros r H; simpl in H; wire_hyps; subst; constructor; auto.
Qed.

Lemma boundedArray_ok v max l : boundedArray v max = Ok l -> v = JArr l /\ len l <= max.
Proof.
  unfold boundedArray. destruct v; try done. destruct (_ >? _) eqn:E; [done|]. intros [= ->]. bool_hyps. done.
Qed.

Lemma frame_base_ok input type o : frame_base input type = Ok o ->
  input = JObj o /\ prop (js "v") o = JStr PROTOCOL_VERSION /\ prop (js "type") o = JStr type.
Proof.
  unfold frame_base. intros H. wire_hyps. subst.
  match goal with Hi : inputObject _ = Ok _ |- _ => apply inputObject_ok in Hi as [-> _] end.
  repeat match goal with Hs : negb (is_string ?v _) = false |- _ =>
    apply negb_false_iff in Hs; unfold is_string in Hs; destruct v eqn:?; try done; apply jstr_eqb_eq in Hs; subst end.
  done.
Qed.


Lemma oneOf_str v values s : oneOf v values = Ok s -> v = JStr s.
Proof. unfold oneOf. destruct v; try done. destruct (one_of _ _); [|done]. by intros [= ->]. Qed.

Lemma identifier_str v max s : identifier v max = Ok s -> v = JStr s.
Proof. unfold identifier. intros H. wire_hyps. subst. by apply controlFree_str in H0 as [-> _]. Qed.

Lemma kubernetesName_str v max s : kubernetesName v max = Ok s -> v = JStr s.
Proof. unfold kubernetesName. intros H. wire_hyps. subst. by apply controlFree_str in H0 as [-> _]. Qed.

Lemma nonEmptyText_str v max s : nonEmptyText v max = Ok s -> v = JStr s.
Proof. unfold nonEmptyText. intros H. wire_hyps. subst. by apply controlFree_str in H0 as [-> _]. Qed.

Lemma quantity_str v s : quantity v = Ok s -> v = JStr s.
Proof. unfold quantity. intros H. wire_hyps. subst. by apply nonEmptyText_str in H0. Qed.

(** Turn [f v = Ok s] into [f (JStr s) = Ok s] for every string decoder in the context. *)
Ltac as_strings :=
  repeat match goal with
  | H : ?f (prop _ _) ?m = Ok ?s |- _ =>
      let E := fresh "E" in
      assert (exists t, t = s /\ f (JStr t) m = Ok s) as (? & -> & ?)
        by (first [pose proof (proj1 (controlFree_str _ _ _ H)) as E | pose proof (oneOf_str _ _ _ H) as E
                  | pose proof (identifier_str _ _ _ H) as E | pose proof (kubernetesName_str _ _ _ H) as E
                  | pose proof (nonEmptyText_str _ _ _ H) as E]; rewrite E in H; eauto); clear H
  end.

(** Evaluate property reads of an object with literal keys. *)
Ltac eval_props :=
  repeat match goal with
  | |- context [prop ?k ?o] =>
      let v := eval vm_compute in (prop k o) in
      replace (prop k o) with v by (vm_compute; reflexivity)
  end.

(** Rewrite with every successful decoder of the context. *)
Ltac run_decoders :=
  repeat match goal with Hs : ?e = Ok ?r |- context [?e] => rewrite Hs; cbn [wbind] end.

Lemma exact_known o keys :
  len o <= MAX_MAP_KEYS -> has_unknown_key o keys = false -> exact (JObj o) keys = Ok o.
Proof.
  intros Hl Hk. unfold exact, boundedMap, object. cbn [wbind].
  destruct (len o >? MAX_MAP_KEYS) eqn:E; bool_hyps; [lia|]. cbn [wbind]. by rewrite Hk.
Qed.

Lemma decodeClusterCondition_reencode v c :
  decodeClusterCondition v = Ok c -> decodeClusterCondition (condition_json c) = Ok c.
Proof.
  unfold decodeClusterCondition at 1. intros H. wire_hyps. subst c.
  match goal with Hs : safeSeq _ = Ok _ |- _ => apply safeSeq_range, safeSeq_of_Z in Hs end.
  as_strings. unfold decodeClusterCondition, condition_json.
  rewrite exact_known; [cbn [wbind]|by_compute|reflexivity].
  cbn [cond_type cond_status cond_reason cond_message observedGeneration].
  match goal with Hs : safeSeq ?n = Ok _ |- _ => remember n as num eqn:Hn; clear Hn end.
  eval_props. run_decoders. reflexivity.
Qed.

Lemma decodeWorkspace_reencode v w :
  decodeWorkspaceInfrastructureProjection v = Ok w ->
  decodeWorkspaceInfrastructureProjection (workspace_json w) = Ok w.
Proof.
  unfold decodeWorkspaceInfrastructureProjection at 1. intros H. wire_hyps. subst w.
  unfold wire_id in *. as_strings.
  repeat match goal with Hw : when_defined _ _ = Ok _ |- _ =>
    apply when_defined_ok in Hw as [[_ ->]|(_ & ? & Hw & ->)] end.
  all: repeat match goal with
  | Hq : quantity _ = Ok _ |- _ => let E := fresh in pose proof (quantity_str _ _ Hq) as E; rewrite E in Hq; clear E
  | Hc : decodeClusterCondition (prop _ _) = Ok _ |- _ => apply decodeClusterCondition_reencode in Hc
  end.
  all: as_strings; unfold decodeWorkspaceInfrastructureProjection, workspace_json;
    cbn [ws_id displayName phase retentionPolicy storageClass capacity ws_revision condition app];
    try match goal with Hc : decodeClusterCondition ?n = Ok _ |- _ =>
      remember n as cond eqn:Hn; assert (cond ≠ JUndef) by (subst; done); clear Hn end.
  all: rewrite exact_known; [cbn [wbind]|by_compute|reflexivity]; eval_props; unfold wire_id; run_decoders; cbn [when_defined].
  all: try (destruct cond; try done); cbn [when_defined]; run_decoders; try reflexivity.
Qed.

(** A decoded workspace frame is consistent and its payload is canonical.  An upsert carries
    the workspace identifier and revision of its frame, and re-encoding the workspace decodes
    to the same workspace (optional fields included); a removal names the frame's workspace. *)
Theorem decodeWorkspaceState_sound v f :
  decodeWorkspaceState v = Ok f ->
  0 <= seq (wsf_cursor f) <= MAX_SAFE_INTEGER /\
  match wsf_change f with
  | inl w => ws_id w = wsf_workspaceId f /\ ws_revision w = wsf_revision f /\
      decodeWorkspaceInfrastructureProjection (workspace_json w) = Ok w
  | inr removed => removed = wsf_workspaceId f
  end.
Proof.
  unfold decodeWorkspaceState. intros H. wire_hyps.
  match goal with Hc : decodeCursor _ = Ok _ |- _ => apply decodeCursor_fields in Hc as [_ Hc] end.
  destruct (defined _); wire_hyps; subst f; simpl; [|done].
  bool_hyps. split; [done|]. split_and!; [by apply jstr_eqb_eq..|].
  by eapply decodeWorkspace_reencode.
Qed.

Definition sample_workspace : WorkspaceInfrastructureProjection :=
  mkWorkspace (js "ws-1") (js "Demo") (js "Ready") (js "Retain") None (Some (js "10Gi")) (js "r1") None.

Definition sample_workspace_frame : jv :=
  JObj [(js "v", JStr PROTOCOL_VERSION); (js "type", JStr (js "workspace.state")); (js "hostId", JStr (js "h"));
        (js "workspaceId", JStr (js "ws-1")); (js "cursor", cursor_json (mkCursor (js "e") 3));
        (js "revision", JStr (js "r1")); (js "upsert", workspace_json sample_workspace)].

Lemma decodeWorkspaceState_sound_witness :
  decodeWorkspaceInfrastructureProjection (workspace_json sample_workspace) = Ok sample_workspace.
Proof.
  assert (decodeWorkspaceState sample_workspace_frame
    = Ok (mkWorkspaceState (js "h") (js "ws-1") (mkCursor (js "e") 3) (js "r1") (inl sample_workspace))) as H
    by (vm_compute; reflexivity).
  destruct (decodeWorkspaceState_sound _ _ H) as (_ & _ & _ & Hw). exact Hw.
Defined.
