(* ===== verification/Retention.v ===== *)
(** * Retention: the client's bounded transcript retention
    ([packages/client/src/transcript-retention.ts])

    JSON values are finite trees here, so the [ancestors] set of the source, which only rejects
    cyclic objects, has no counterpart; the byte cache keyed by object identity is a memo of
    the size functions below and is not part of the state (see [appendRetainedValue_exact] and
    [sanitizeNode_exact], which show that the values it would hold are the sizes). *)
From stdpp Require Import base tactics option list numbers strings sets.
From S2P Require Import Prelude JsMap JsString JsValue Wire.

Definition MAX_RETAINED_TRANSCRIPT_ENTRIES : Z := 10000.
Definition MAX_RETAINED_TRANSCRIPT_BYTES : Z := 8 * 1024 * 1024.
Definition MAX_RETAINED_TRANSCRIPT_ENTRY_BYTES : Z := 256 * 1024.
Definition MAX_RETAINED_AGENT_TRANSCRIPTS : Z := 16.
Definition MAX_RETAINED_AGENT_TRANSCRIPT_ENTRIES : Z := 512.
Definition MAX_RETAINED_AGENT_TRANSCRIPT_BYTES : Z := 1024 * 1024.
Definition MAX_RETAINED_SESSION_EVENTS : Z := 512.
Definition MAX_RETAINED_SESSION_EVENTS_BYTES : Z := 2 * 1024 * 1024.
Definition MAX_RETAINED_SESSION_EVENT_BYTES : Z := 128 * 1024.
Definition MAX_RETAINED_VALUE_DEPTH : nat := 8.
Definition MAX_RETAINED_VALUE_ARRAY_ITEMS : nat := 256.
Definition MAX_RETAINED_VALUE_KEYS : Z := 256.
Definition MAX_RETAINED_VALUE_STRING_BYTES : Z := 64 * 1024.

Definition TRUNCATION_MARKER : jstr :=
  [0x0A; 0x2026]%N ++ js " retained value truncated " ++ [0x2026; 0x0A]%N.

(** ASCII case folding, as the [i] flag compares ASCII letters. *)
Definition fold_case (u : N) : N := if ((0x41 <=? u) && (u <=? 0x5A))%N then (u + 0x20)%N else u.

Fixpoint contains (p s : jstr) : bool :=
  starts_with p s || match s with [] => false | _ :: rest => contains p rest end.

(** [.] of a regular expression: no line terminator. *)
Definition not_line_terminator (u : N) : bool :=
  negb ((u =? 0x0A) || (u =? 0x0D) || (u =? 0x2028) || (u =? 0x2029))%N.

(** [private.?key] at the start of [s]. *)
Definition private_key_here (s : jstr) : bool :=
  let p := js "private" in
  starts_with p s &&
  (starts_with (js "key") (drop (length p) s) ||
   match drop (length p) s with
   | u :: rest => not_line_terminator u && starts_with (js "key") rest
   | [] => false
   end).

Fixpoint contains_private_key (s : jstr) : bool :=
  private_key_here s || match s with [] => false | _ :: rest => contains_private_key rest end.

(** [SECRET_KEY.test(name)] *)
Definition SECRET_KEY (name : jstr) : bool :=
  let n := map fold_case name in
  existsb (fun p => contains p n)
    [js "token"; js "secret"; js "password"; js "credential"; js "authorization"; js "cookie"]
  || contains_private_key n.

Definition IMPORTANT_KEY_PRIORITY : list (jstr * Z) :=
  [(js "type", 0); (js "images", 1); (js "role", 2); (js "text", 3); (js "reasoning", 4);
   (js "tool", 5); (js "title", 6); (js "args", 7); (js "result", 8); (js "details", 9);
   (js "customType", 10); (js "customDetails", 11); (js "output", 12); (js "stdout", 13);
   (js "stderr", 14); (js "content", 15)].

Definition IMPORTANT_KEY_COUNT : Z := fold_right Z.max 0 (map snd IMPORTANT_KEY_PRIORITY) + 1.

Definition key_priority (k : jstr) : Z :=
  match map_get k IMPORTANT_KEY_PRIORITY with Some p => p | None => IMPORTANT_KEY_COUNT end.

Record RetainedDurableEntries := mkRetained {
  ret_entries : list DurableEntry;
  ret_bytes : Z;
  ret_truncated : bool;
}.

Record RetainDurableEntryOptions := mkRetainOptions {
  opt_maxEntries : option Z;
  opt_maxBytes : option Z;
  opt_maxEntryBytes : option Z;
}.

(** The loop of [jsonStringBytes] from one index on. *)
Fixpoint jsonStringBytes_loop (value : jstr) : Z :=
  match value with
  | [] => 0
  | code :: rest =>
      if ((code =? 0x22) || (code =? 0x5C) || (code =? 0x08) || (code =? 0x09) || (code =? 0x0A)
          || (code =? 0x0C) || (code =? 0x0D))%N
      then 2 + jsonStringBytes_loop rest
      else if (code <? 0x20)%N then 6 + jsonStringBytes_loop rest
      else if (code <? 0x80)%N then 1 + jsonStringBytes_loop rest
      else if (code <? 0x800)%N then 2 + jsonStringBytes_loop rest
      else if ((0xD800 <=? code) && (code <=? 0xDBFF))%N then
        match rest with
        | next :: rest' =>
            if ((0xDC00 <=? next) && (next <=? 0xDFFF))%N then 4 + jsonStringBytes_loop rest'
            else 6 + jsonStringBytes_loop rest
        | [] => 6
        end
      else (if ((0xDC00 <=? code) && (code <=? 0xDFFF))%N then 6 else 3) + jsonStringBytes_loop rest
  end.

Definition jsonStringBytes (value : jstr) : Z := 2 + jsonStringBytes_loop value.

Definition retainedJsonBytes (value : jv) : Z :=
  match value with
  | JStr s => jsonStringBytes s
  | JNum n => if num_finite n then len (num_string n) else 4
  | JBool b => if b then 4 else 5
  | JNull => 4
  | _ => match stringify value with Some s => utf8Bytes s | None => 0 end
  end.

Definition retainedArrayItemBytes (value : jv) : Z :=
  let bytes := retainedJsonBytes value in
  if (bytes =? 0) && match stringify value with None => true | Some _ => false end then 4 else bytes.

Definition boundedInteger (value : option Z) (fallback ceiling : Z) : Z :=
  match value with
  | None => Z.min fallback ceiling
  | Some v =>
      if (negb (Z.abs v <=? MAX_SAFE_INTEGER)) || (v <? 1) then Z.min fallback ceiling
      else Z.min v ceiling
  end.

(** The candidate string that keeps [kept] code units of [value]. *)
Definition retainedText_candidate (value : jstr) (kept : Z) : jstr :=
  let head := (kept + 1) / 2 in
  let tail := kept / 2 in
  slice_first head value ++ TRUNCATION_MARKER ++ (if tail =? 0 then [] else slice_last tail value).

(** The binary search of [retainedText]; [None] if the fuel runs out. *)
Fixpoint retainedText_search (fuel : nat) (value : jstr) (budget low high : Z) (best : jstr) : option jstr :=
  match fuel with
  | O => None
  | S f =>
      if low <=? high then
        let kept := (low + high) / 2 in
        let candidate := retainedText_candidate value kept in
        if jsonStringBytes candidate <=? budget
        then retainedText_search f value budget (kept + 1) high candidate
        else retainedText_search f value budget low (kept - 1) best
      else Some best
  end.

Definition retainedText (value : jstr) (maxJsonBytes : Z) : jstr :=
  let budget := Z.max 2 maxJsonBytes in
  let valueBytes := jsonStringBytes value in
  if (valueBytes <=? budget) && (valueBytes <=? MAX_RETAINED_VALUE_STRING_BYTES + 2) then value
  else
    let available := Z.max 0 (Z.min (len value) MAX_RETAINED_VALUE_STRING_BYTES) in
    match retainedText_search (Z.to_nat available + 2) value budget 0 available [] with
    | Some best => best
    | None => []
    end.

(** Stable sort on the key priority ([Array.prototype.sort] is stable). *)
Fixpoint insert_by_priority (x : jstr * jv) (l : list (jstr * jv)) : list (jstr * jv) :=
  match l with
  | [] => [x]
  | y :: rest => if key_priority (fst x) <=? key_priority (fst y) then x :: l else y :: insert_by_priority x rest
  end.

Definition sort_by_priority (l : list (jstr * jv)) : list (jstr * jv) :=
  fold_right insert_by_priority [] l.

Fixpoint priority_sorted (l : list (jstr * jv)) : bool :=
  match l with
  | x :: ((y :: _) as rest) => (key_priority (fst x) <=? key_priority (fst y)) && priority_sorted rest
  | _ => true
  end.

Definition orderedEntries (o : list (jstr * jv)) : list (jstr * jv) :=
  if priority_sorted o then o else sort_by_priority o.

(** The array loop of [sanitizeNode] over the items still to visit. *)
Fixpoint sanitize_items (child : jv -> Z -> option (jv * Z)) (budget : Z) (items : list jv)
    (output : list jv) (bytes : Z) : list jv * Z :=
  match items with
  | [] => (output, bytes)
  | item :: rest =>
      let separator := if len output =? 0 then 0 else 1 in
      match child item (budget - bytes - separator) with
      | None => sanitize_items child budget rest output bytes
      | Some (v, n) =>
          let output' := output ++ [v] in
          let bytes' := bytes + separator + n in
          if budget <=? bytes' then (output', bytes') else sanitize_items child budget rest output' bytes'
      end
  end.

(** The object loop of [sanitizeNode] over the properties still to visit. *)
Fixpoint sanitize_props (child : jv -> Z -> option (jv * Z)) (budget : Z) (image : bool)
    (props : list (jstr * jv)) (output : list (jstr * jv)) (keys bytes : Z) : list (jstr * jv) * Z :=
  match props with
  | [] => (output, bytes)
  | (name, item) :: rest =>
      if (MAX_RETAINED_VALUE_KEYS <=? keys) || SECRET_KEY name then
        sanitize_props child budget image rest output keys bytes
      else if image && jstr_eqb name (js "data") &&
              match item with JStr _ => MAX_RETAINED_VALUE_STRING_BYTES <? retainedJsonBytes item | _ => false end
      then sanitize_props child budget image rest output keys bytes
      else
        let keyBytes := jsonStringBytes name in
        let separator := if keys =? 0 then 0 else 1 in
        let fixedBytes := separator + keyBytes + 1 in
        match child item (budget - bytes - fixedBytes) with
        | None => sanitize_props child budget image rest output keys bytes
        | Some (v, n) =>
            let output' := obj_assign name v output in
            let bytes' := bytes + (fixedBytes + n) in
            if budget <=? bytes' then (output', bytes')
            else sanitize_props child budget image rest output' (keys + 1) bytes'
        end
  end.

(** [sanitizeNode(value, budget, depth, ancestors, imageBlock)] with
    [levels = MAX_RETAINED_VALUE_DEPTH - depth]. *)
Fixpoint sanitizeNode (levels : nat) (value : jv) (budget : Z) (imageBlock : bool) : option (jv * Z) :=
  if budget <? 1 then None else
  match value with
  | JUndef => None
  | JNull | JBool _ =>
      let bytes := retainedJsonBytes value in
      if bytes <=? budget then Some (value, bytes) else None
  | JNum n =>
      if num_finite n then
        let bytes := retainedJsonBytes value in
        if bytes <=? budget then Some (value, bytes) else None
      else None
  | JStr s =>
      let text := retainedText s (Z.min budget (MAX_RETAINED_VALUE_STRING_BYTES + 2)) in
      let bytes := jsonStringBytes text in
      if bytes <=? budget then Some (JStr text, bytes) else None
  | JArr items =>
      match levels with
      | O => None
      | S l =>
          let (output, bytes) :=
            sanitize_items (fun v b => sanitizeNode l v b false) budget
              (take MAX_RETAINED_VALUE_ARRAY_ITEMS items) [] 2 in
          if bytes <=? budget then Some (JArr output, bytes) else None
      end
  | JObj source =>
      match levels with
      | O => None
      | S l =>
          let sourceIsImageBlock :=
            match prop (js "type") source with JStr t => jstr_eqb t (js "image") | _ => false end in
          let (output, bytes) :=
            sanitize_props (fun v b => sanitizeNode l v b sourceIsImageBlock) budget
              (imageBlock || sourceIsImageBlock) (orderedEntries source) [] 0 2 in
          if bytes <=? budget then Some (JObj output, bytes) else None
      end
  end.

Definition sanitizeRetainedValue (value : jv) (maxBytes : Z) : jv :=
  match sanitizeNode MAX_RETAINED_VALUE_DEPTH value (Z.max 2 maxBytes) false with
  | Some (v, _) => v
  | None => JUndef
  end.

Definition sanitizeRetainedRecord (value : jv) (maxBytes : Z) : list (jstr * jv) :=
  match sanitizeRetainedValue value maxBytes with JObj o => o | _ => [] end.

Definition sanitizeRetainedDurableEntry (entry : DurableEntry) (maxBytes : Z) : DurableEntry :=
  let limit := boundedInteger (Some maxBytes) MAX_RETAINED_TRANSCRIPT_ENTRY_BYTES MAX_RETAINED_TRANSCRIPT_BYTES in
  let shell := mkEntry (entry_id entry) (parentId entry) (entry_hostId entry) (entry_sessionId entry)
                 None (kind entry) (timestamp entry) [] in
  let shellBytesWithoutData := retainedJsonBytes (entry_json shell) - 2 in
  let retained_data :=
    sanitizeRetainedRecord (JObj (data entry)) (Z.max 2 (limit - shellBytesWithoutData)) in
  mkEntry (entry_id shell) (parentId shell) (entry_hostId shell) (entry_sessionId shell)
    (turnId shell) (kind shell) (timestamp shell) retained_data.

Definition retainedEntryOptions (options : RetainDurableEntryOptions) : Z * Z * Z :=
  let maxBytes := boundedInteger (opt_maxBytes options) MAX_RETAINED_TRANSCRIPT_BYTES MAX_RETAINED_TRANSCRIPT_BYTES in
  (boundedInteger (opt_maxEntries options) MAX_RETAINED_TRANSCRIPT_ENTRIES MAX_RETAINED_TRANSCRIPT_ENTRIES,
   maxBytes,
   boundedInteger (opt_maxEntryBytes options) MAX_RETAINED_TRANSCRIPT_ENTRY_BYTES
     (Z.min MAX_RETAINED_TRANSCRIPT_ENTRY_BYTES maxBytes)).

(** The loop of [retainSanitizedEntries] from the newest entry down; the accumulator holds the
    retained entries in chronological order. *)
Fixpoint retain_newest (rev_entries : list DurableEntry) (maxBytes : Z)
    (retained : list DurableEntry) (bytes : Z) : list DurableEntry * Z :=
  match rev_entries with
  | [] => (retained, bytes)
  | entry :: older =>
      let entryBytes := retainedJsonBytes (entry_json entry) in
      let separator := if len retained =? 0 then 0 else 1 in
      if maxBytes <? bytes + separator + entryBytes then (retained, bytes)
      else retain_newest older maxBytes (entry :: retained) (bytes + (separator + entryBytes))
  end.

Definition retainSanitizedEntries (entries : list DurableEntry) (uniqueCount maxBytes : Z) : RetainedDurableEntries :=
  let (retained, bytes) := retain_newest (rev entries) maxBytes [] 2 in
  mkRetained retained bytes (len retained <? uniqueCount).

(** First occurrence of each entry id, in order. *)
Definition unique_by_id (entries : list DurableEntry) : jsmap jstr DurableEntry :=
  fold_left (fun unique entry =>
    if map_has (entry_id entry) unique then unique else map_set (entry_id entry) entry unique) entries [].

Definition retainDurableEntries (entries : list DurableEntry) (options : RetainDurableEntryOptions) : RetainedDurableEntries :=
  let '(maxEntries, maxBytes, maxEntryBytes) := retainedEntryOptions options in
  let unique := unique_by_id entries in
  let candidates :=
    map (fun entry => sanitizeRetainedDurableEntry entry maxEntryBytes)
      (slice_last maxEntries (map_values unique)) in
  retainSanitizedEntries candidates (map_size unique) maxBytes.

Definition appendRetainedDurableEntry (entries : list DurableEntry) (entry : DurableEntry)
    (options : RetainDurableEntryOptions) : RetainedDurableEntries :=
  if existsb (fun existing => jstr_eqb (entry_id existing) (entry_id entry)) entries then
    mkRetained entries (retainedJsonBytes (JArr (map entry_json entries))) false
  else
    let '(maxEntries, maxBytes, maxEntryBytes) := retainedEntryOptions options in
    let appended :=
      (if maxEntries =? 1 then [] else slice_last (maxEntries - 1) entries)
      ++ [sanitizeRetainedDurableEntry entry maxEntryBytes] in
    retainSanitizedEntries appended (len entries + 1) maxBytes.

(** The two eviction loops of [appendRetainedValue]: by count, then by bytes. *)
Fixpoint drop_counted {A} (size : A -> Z) (n : nat) (values : list A) (bytes retainedCount : Z) : list A * Z * Z :=
  match n, values with
  | S n', v :: rest =>
      drop_counted size n' rest (if retainedCount =? 1 then 2 else bytes - size v - 1) (retainedCount - 1)
  | _, _ => (values, bytes, retainedCount)
  end.

Fixpoint drop_over_budget {A} (size : A -> Z) (budget : Z) (candidates : list A) (bytes retainedCount : Z) : list A * Z :=
  match candidates with
  | v :: rest =>
      if (budget <? bytes) && (0 <? retainedCount) then
        drop_over_budget size budget rest
          (if retainedCount =? 1 then 2 else bytes - size v - 1) (retainedCount - 1)
      else (candidates, bytes)
  | [] => ([], bytes)
  end.

(** [appendRetainedValue], with the size it remembers for the returned array. *)
Definition appendRetainedValue {A} (to_json : A -> jv) (values : list A) (value : A)
    (maxItems maxBytes : option Z) : list A * Z :=
  let size := fun v => retainedArrayItemBytes (to_json v) in
  let count := boundedInteger maxItems MAX_RETAINED_SESSION_EVENTS MAX_RETAINED_SESSION_EVENTS in
  let budget := boundedInteger maxBytes MAX_RETAINED_SESSION_EVENTS_BYTES MAX_RETAINED_SESSION_EVENTS_BYTES in
  let firstPriorIndex := if count =? 1 then len values else Z.max 0 (len values - (count - 1)) in
  let '(candidates, bytes, retainedCount) :=
    drop_counted size (Z.to_nat firstPriorIndex) values
      (retainedJsonBytes (JArr (map to_json values))) (len values) in
  let bytes := bytes + (size value + (if retainedCount =? 0 then 0 else 1)) in
  drop_over_budget size budget (candidates ++ [value]) bytes (retainedCount + 1).
