(* ===== verification/NumberText.v ===== *)
(** * NumberText: decimal printing of integers is injective

    [String(n)] of a non-negative safe integer is its plain decimal numeral, so distinct
    counters print differently.  The search for an unused identifier relies on it. *)
From stdpp Require Import base tactics option list numbers strings sets.
From Stdlib Require Import DecimalN DecimalFacts.
From S2P Require Import Prelude JsMap JsString JsValue WireSpec.

(** The value of a decimal numeral read after [acc]. *)
Definition dec_value (acc : Z) (s : jstr) : Z := fold_left (fun a u => 10 * a + (Z.of_N u - 0x30)) s acc.

Lemma dec_value_cons acc u s : dec_value acc (u :: s) = dec_value (10 * acc + (Z.of_N u - 0x30)) s.
Proof. done. Qed.

Lemma dec_value_app acc s t : dec_value acc (s ++ t) = dec_value (dec_value acc s) t.
Proof. apply fold_left_app. Qed.

Lemma dec_value_zeros acc n : 0 <= n -> dec_value acc (zeros n) = acc * 10 ^ n.
Proof.
  intros Hn. unfold zeros. rewrite <- (Z2Nat.id n Hn) at 2. generalize (Z.to_nat n) as m.
  intros m. revert acc. induction m as [|m IH]; intros acc; [simpl; lia|].
  cbn [repeat]. rewrite dec_value_cons, IH, Nat2Z.inj_succ, Z.pow_succ_r by lia. simpl. lia.
Qed.

Lemma dec_value_acc d acc : dec_value (Zpos acc) (uint_digits d) = Zpos (Pos.of_uint_acc d acc).
Proof.
  revert acc. induction d; intros acc; cbn [uint_digits Pos.of_uint_acc]; [done|..];
    rewrite <- IHd, dec_value_cons; f_equal; unfold digit; lia.
Qed.

Lemma dec_value_uint d : dec_value 0 (uint_digits d) = Z.of_N (N.of_uint d).
Proof.
  unfold N.of_uint. induction d; cbn [uint_digits Pos.of_uint]; [done|exact IHd|..];
    exact (dec_value_acc d _).
Qed.

Lemma dec_value_N n : dec_value 0 (N_digits n) = Z.of_N n.
Proof. unfold N_digits. by rewrite dec_value_uint, Unsigned.of_to. Qed.

Lemma len_uint d : len (uint_digits d) = Z.of_nat (Decimal.nb_digits d).
Proof. induction d; cbn [uint_digits Decimal.nb_digits]; rewrite ?len_cons, ?IHd; [done|lia..]. Qed.

Lemma of_uint_acc_ge d acc : Zpos acc * 10 ^ len (uint_digits d) <= Zpos (Pos.of_uint_acc d acc).
Proof.
  revert acc. induction d; intros acc; cbn [uint_digits Pos.of_uint_acc]; [rewrite len_nil; lia|..];
    rewrite len_cons, Z.pow_add_r by (pose proof (len_nonneg (uint_digits d)); lia);
    (etrans; [|apply IHd]); pose proof (Z.pow_pos_nonneg 10 (len (uint_digits d)) ltac:(lia) (len_nonneg _)); nia.
Qed.

Lemma nzhead_head d r : Decimal.nzhead d ≠ Decimal.D0 r.
Proof. by induction d. Qed.

(** The numeral of a positive number has no leading zero, so its length is logarithmic. *)
Lemma N_digits_len n : (0 < n)%N -> 10 ^ (len (N_digits n) - 1) <= Z.of_N n.
Proof.
  intros Hn. unfold N_digits. pose proof (Unsigned.to_of (N.to_uint n)) as Hnorm. rewrite Unsigned.of_to in Hnorm.
  pose proof (Unsigned.of_to n) as Hof.
  assert (forall d a, N.of_uint (N.to_uint n) = Npos (Pos.of_uint_acc d a) -> 10 ^ len (uint_digits d) <= Z.of_N n) as Hge.
  { intros d a. rewrite Unsigned.of_to. intros ->. pose proof (of_uint_acc_ge d a). simpl.
    pose proof (Z.pow_pos_nonneg 10 (len (uint_digits d)) ltac:(lia) (len_nonneg _)). nia. }
  destruct (N.to_uint n) as [|d|d|d|d|d|d|d|d|d|d]; cbn [uint_digits];
    rewrite ?len_cons, ?len_nil, ?Z.add_simpl_l; try (by eapply Hge); [by subst n|].
  exfalso. pose proof (nzhead_head d) as Hh. unfold Decimal.unorm in Hnorm. simpl in Hnorm.
  destruct (Decimal.nzhead d) as [|r| | | | | | | | |]; try done; [|by apply (Hh r)].
  injection Hnorm as ->. simpl in Hof. lia.
Qed.

Definition decimal (s : jstr) : Prop := Forall (fun u => 0x30 <= u <= 0x39)%N s.

Lemma uint_digits_decimal d : decimal (uint_digits d).
Proof. induction d; cbn [uint_digits]; [by constructor|..]; (constructor; [done|exact IHd]). Qed.

(** The numeral of a safe integer denotes it, and consists of at most 17 digits. *)
Lemma num_string_value z : 0 <= z <= MAX_SAFE_INTEGER ->
  dec_value 0 (num_string (num_of_Z z)) = z /\ len (num_string (num_of_Z z)) <= 17 /\
  decimal (num_string (num_of_Z z)).
Proof.
  intros Hz. unfold num_of_Z. pose proof (strip10_value 400 (Z.abs_N z) 0 ltac:(lia)) as Hv.
  destruct (strip10 400 (Z.abs_N z) 0) as [d e]. destruct Hv as [Hv He].
  rewrite N2Z.inj_abs_N, Z.abs_eq, Z.mul_1_r in Hv by lia. rewrite (proj2 (Z.ltb_ge _ _)) by lia.
  unfold num_string. destruct (N.eqb_spec d 0) as [->|Hd]; [simpl in Hv; subst z; by split_and!; [| |repeat constructor]|].
  pose proof (N_digits_len d ltac:(lia)) as Hl. set (k := len (N_digits d)) in *.
  assert (1 <= k) as Hk1.
  { pose proof (len_nonneg (N_digits d)). destruct (Z.eq_dec k 0) as [H0|]; [|lia]. exfalso. apply Hd.
    apply N2Z.inj. rewrite <- (dec_value_N d). by rewrite (len_zero_nil _ H0). }
  assert (10 ^ (k - 1 + e) <= z) as Hbound.
  { rewrite Z.pow_add_r by lia. pose proof (Z.pow_pos_nonneg 10 e ltac:(lia) He). nia. }
  assert (k + e <= 17) as Hk.
  { destruct (Z.le_gt_cases (k + e) 17) as [|Hgt]; [done|]. exfalso.
    assert (10 ^ 17 <= 10 ^ (k - 1 + e)) by (apply Z.pow_le_mono_r; lia).
    change (10 ^ 17) with 100000000000000000 in *. unfold MAX_SAFE_INTEGER in Hz. lia. }
  rewrite (proj2 (Z.leb_le _ _)), (proj2 (Z.leb_le _ _)) by lia. simpl.
  replace (k + e - k) with e by lia. split_and!.
  - rewrite dec_value_app, dec_value_N, dec_value_zeros by done. exact Hv.
  - rewrite len_app. fold k. unfold zeros, len. rewrite repeat_length. lia.
  - apply Forall_app_2; [apply uint_digits_decimal|]. apply Forall_forall. by intros u ->%list_elem_of_In%repeat_spec.
Qed.

Lemma num_string_inj y z : 0 <= y <= MAX_SAFE_INTEGER -> 0 <= z <= MAX_SAFE_INTEGER ->
  num_string (num_of_Z y) = num_string (num_of_Z z) -> y = z.
Proof.
  intros Hy Hz E. destruct (num_string_value y Hy) as [Hvy _], (num_string_value z Hz) as [Hvz _].
  rewrite <- Hvy, <- Hvz. by rewrite E.
Qed.
