(* ===== verification/RetentionSpec.v ===== *)
(** * RetentionSpec: what the retention code guarantees

    Exact byte accounting, byte, count and depth bounds, redaction, and the suffix discipline
    of the retained transcript and event windows. *)
From stdpp Require Import base tactics option list numbers strings sets.
From S2P Require Import Prelude JsMap JsString JsValue Wire Retention.

(** ** The string size function computes the size of the printed literal *)

Lemma utf8Bytes_unit u : is_lead u = false -> is_trail u = false ->
  utf8Bytes [u] = if (u <? 0x80)%N then 1 else if (u <? 0x800)%N then 2 else 3.
Proof.
  intros Hl Ht. unfold utf8Bytes, utf8_encode. simpl. rewrite Hl, Ht. simpl.
  destruct (N.leb_spec 0x10000 u); simpl.
  - destruct (N.ltb_spec u 0x80), (N.ltb_spec u 0x800); try lia. done.
  - rewrite app_nil_r. unfold utf8_cp.
    destruct (N.ltb_spec u 0x80), (N.ltb_spec u 0x800), (N.ltb_spec u 0x10000); try done; lia.
Qed.

Lemma utf8Bytes_pair u t : is_lead u = true -> is_trail t = true -> utf8Bytes [u; t] = 4.
Proof.
  intros Hl Ht. unfold utf8Bytes, utf8_encode. simpl. rewrite Hl, Ht. simpl. rewrite app_nil_r.
  set (c := (0x10000 + _ + _)%N). unfold utf8_cp. assert (0x10000 <= c)%N by (subst c; lia). clearbody c.
  destruct (N.ltb_spec c 0x80), (N.ltb_spec c 0x800), (N.ltb_spec c 0x10000); try lia. done.
Qed.

Lemma utf8Bytes_escape u : utf8Bytes (unicode_escape u) = 6.
Proof. rewrite ascii_utf8Bytes by apply unicode_escape_ascii. done. Qed.

Lemma quote_unit_bytes u : is_lead u = false -> is_trail u = false ->
  utf8Bytes (quote_unit u) =
  if ((u =? 0x22) || (u =? 0x5C) || (u =? 0x08) || (u =? 0x09) || (u =? 0x0A)
      || (u =? 0x0C) || (u =? 0x0D))%N then 2
  else if (u <? 0x20)%N then 6 else if (u <? 0x80)%N then 1 else if (u <? 0x800)%N then 2 else 3.
Proof.
  intros Hl Ht. unfold quote_unit.
  destruct (u =? 0x22)%N; [done|]. destruct (u =? 0x5C)%N; [done|]. destruct (u =? 0x08)%N; [done|].
  destruct (u =? 0x09)%N; [done|]. destruct (u =? 0x0A)%N; [done|]. destruct (u =? 0x0C)%N; [done|].
  destruct (u =? 0x0D)%N; [done|]. cbn [orb].
  destruct (u <? 0x20)%N; [apply utf8Bytes_escape|]. by apply utf8Bytes_unit.
Qed.

(** One step of the loop on a code unit that is no lead surrogate. *)
Lemma loop_not_lead u rest : is_lead u = false ->
  jsonStringBytes_loop (u :: rest) =
  (if is_trail u then 6 else utf8Bytes (quote_unit u)) + jsonStringBytes_loop rest.
Proof.
  intros Hl. cbn [jsonStringBytes_loop]. unfold is_lead in Hl. rewrite Hl.
  fold (is_trail u). destruct (is_trail u) eqn:Ht.
  - unfold is_trail in Ht. bool_hyps.
    repeat match goal with |- context [(?a =? ?b)%N] => rewrite (proj2 (N.eqb_neq a b)) by lia end.
    repeat match goal with |- context [(?a <? ?b)%N] => rewrite (proj2 (N.ltb_ge a b)) by lia end. done.
  - rewrite quote_unit_bytes by done. by repeat case_match.
Qed.

Lemma loop_lead u rest : is_lead u = true ->
  jsonStringBytes_loop (u :: rest) =
  match rest with
  | t :: rest' => if is_trail t then 4 + jsonStringBytes_loop rest' else 6 + jsonStringBytes_loop rest
  | [] => 6
  end.
Proof.
  intros Hl. cbn [jsonStringBytes_loop]. fold (is_lead u). rewrite Hl.
  unfold is_lead in Hl. bool_hyps.
  repeat match goal with |- context [(u =? ?b)%N] => rewrite (proj2 (N.eqb_neq u b)) by lia end.
  repeat match goal with |- context [(u <? ?b)%N] => rewrite (proj2 (N.ltb_ge u b)) by lia end. done.
Qed.

Lemma jsonStringBytes_loop_quote s : jsonStringBytes_loop s = utf8Bytes (quote_body s).
Proof.
  induction s as [|u|u t s IH1 IH2] using jstr_ind2; [done| |].
  - destruct (is_lead u) eqn:El.
    + rewrite loop_lead by done. simpl quote_body. rewrite El. by rewrite utf8Bytes_escape.
    + rewrite loop_not_lead by done.
      change (quote_body [u]) with
        (if is_lead u then unicode_escape u
         else if is_trail u then unicode_escape u ++ [] else quote_unit u ++ []).
      rewrite El, !app_nil_r. destruct (is_trail u); [by rewrite utf8Bytes_escape|]. simpl. lia.
  - change (quote_body (u :: t :: s)) with
      (if is_lead u then if is_trail t then [u; t] ++ quote_body s
                         else unicode_escape u ++ quote_body (t :: s)
       else if is_trail u then unicode_escape u ++ quote_body (t :: s)
       else quote_unit u ++ quote_body (t :: s)).
    pose proof (ascii_wf16 _ (unicode_escape_ascii u)) as Hesc.
    destruct (is_lead u) eqn:El.
    + rewrite loop_lead by done. destruct (is_trail t) eqn:Et.
      * rewrite utf8Bytes_app by (simpl; by rewrite El, Et).
        by rewrite utf8Bytes_pair, IH2.
      * rewrite utf8Bytes_app by done. by rewrite utf8Bytes_escape, IH1.
    + rewrite loop_not_lead by done. destruct (is_trail u) eqn:Et.
      * rewrite utf8Bytes_app by done. by rewrite utf8Bytes_escape, IH1.
      * rewrite utf8Bytes_app by by apply quote_unit_cases. by rewrite IH1.
Qed.

Lemma jsonStringBytes_quote s : jsonStringBytes s = utf8Bytes (quote s).
Proof.
  unfold jsonStringBytes, quote. change (0x22%N :: ?x) with ([0x22%N] ++ x).
  rewrite (utf8Bytes_app [0x22%N]) by done.
  rewrite utf8Bytes_app by apply quote_body_wf16. rewrite jsonStringBytes_loop_quote.
  assert (utf8Bytes [0x22%N] = 1) as -> by done. lia.
Qed.

(** The size functions agree with [JSON.stringify] on every value that prints. *)
Lemma retainedJsonBytes_exact v : v ≠ JUndef -> retainedJsonBytes v = json_bytes v.
Proof.
  destruct v as [| |b|n|s|l|o]; intros Hv; try done.
  - by destruct b.
  - unfold retainedJsonBytes, json_bytes. simpl. destruct (num_finite n) eqn:E; [|done].
    by rewrite ascii_utf8Bytes by apply num_string_ascii.
  - apply jsonStringBytes_quote.
Qed.

Lemma retainedArrayItemBytes_exact v : retainedArrayItemBytes v = json_bytes v.
Proof.
  assert (v = JUndef \/ v ≠ JUndef) as [->|Hv] by (destruct v; auto); [done|].
  unfold retainedArrayItemBytes. rewrite retainedJsonBytes_exact by done.
  destruct v; try done; simpl; by rewrite andb_false_r.
Qed.

(** ** Binary search of [retainedText] *)

(** With enough fuel the search ends, and what it returns fits the budget. *)
Lemma retainedText_search_total fuel value budget low high best :
  (Z.to_nat (high - low + 1) < fuel)%nat -> 0 <= low ->
  exists r, retainedText_search fuel value budget low high best = Some r.
Proof.
  revert low high best. induction fuel as [|f IH]; intros low high best Hf Hl; [lia|]. simpl.
  destruct (Z.leb_spec low high); [|by exists best].
  assert (low <= (low + high) / 2 <= high).
  { split; [apply Z.div_le_lower_bound; lia|apply Z.div_le_upper_bound; lia]. }
  destruct (_ <=? budget); apply IH; lia.
Qed.

Lemma retainedText_search_fits fuel value budget low high best r :
  jsonStringBytes best <= budget ->
  retainedText_search fuel value budget low high best = Some r -> jsonStringBytes r <= budget.
Proof.
  revert low high best. induction fuel as [|f IH]; intros low high best Hb; [done|]. simpl.
  destruct (low <=? high); [|by intros [= <-]].
  destruct (jsonStringBytes _ <=? budget) eqn:E; apply IH; [|done]. by apply Z.leb_le.
Qed.

Lemma retainedText_fits value maxJsonBytes :
  jsonStringBytes (retainedText value maxJsonBytes) <= Z.max 2 maxJsonBytes.
Proof.
  unfold retainedText. destruct (_ && _) eqn:E; [bool_hyps; lia|].
  destruct (retainedText_search _ _ _ _ _ _) eqn:Es; [|unfold jsonStringBytes; simpl; lia].
  eapply retainedText_search_fits; [|exact Es]. unfold jsonStringBytes; simpl; lia.
Qed.

(** ** Well-formed values: every object has distinct property names *)
Fixpoint jv_wf (v : jv) : Prop :=
  match v with
  | JArr items => (fix all l := match l with [] => True | x :: r => jv_wf x /\ all r end) items
  | JObj props =>
      NoDup (map fst props) /\
      (fix all l := match l with [] => True | (_, x) :: r => jv_wf x /\ all r end) props
  | _ => True
  end.

(** No property is called [__proto__]. *)
Fixpoint proto_free (v : jv) : Prop :=
  match v with
  | JArr items => (fix all l := match l with [] => True | x :: r => proto_free x /\ all r end) items
  | JObj props =>
      (fix all l := match l with [] => True | (k, x) :: r => k ≠ js "__proto__" /\ proto_free x /\ all r end) props
  | _ => True
  end.

Lemma jv_wf_arr l : jv_wf (JArr l) <-> Forall jv_wf l.
Proof. simpl. induction l as [|x l IH]; [split; constructor|]. rewrite Forall_cons, IH. done. Qed.

Lemma jv_wf_obj o : jv_wf (JObj o) <-> NoDup (map fst o) /\ Forall (fun kv => jv_wf (snd kv)) o.
Proof.
  simpl. apply and_iff_compat_l. induction o as [|[k x] o IH]; [split; constructor|].
  rewrite Forall_cons, IH. done.
Qed.

Lemma proto_free_arr l : proto_free (JArr l) <-> Forall proto_free l.
Proof. simpl. induction l as [|x l IH]; [split; constructor|]. rewrite Forall_cons, IH. done. Qed.

Lemma proto_free_obj o :
  proto_free (JObj o) <-> Forall (fun kv => fst kv ≠ js "__proto__" /\ proto_free (snd kv)) o.
Proof.
  simpl. induction o as [|[k x] o IH]; [split; constructor|]. rewrite Forall_cons, IH. simpl. tauto.
Qed.

(** ** Sorting keeps the properties *)

Lemma insert_by_priority_perm x l : insert_by_priority x l ≡ₚ x :: l.
Proof.
  induction l as [|y l IH]; simpl; [done|]. destruct (_ <=? _); [done|].
  rewrite IH. apply Permutation_swap.
Qed.

Lemma sort_by_priority_perm l : sort_by_priority l ≡ₚ l.
Proof.
  unfold sort_by_priority. induction l as [|x l IH]; simpl; [done|]. by rewrite insert_by_priority_perm, IH.
Qed.

Lemma orderedEntries_perm o : orderedEntries o ≡ₚ o.
Proof. unfold orderedEntries. destruct (priority_sorted o); [done|apply sort_by_priority_perm]. Qed.

Lemma insert_index_perm i k v o : insert_index i k v o ≡ₚ (k, v) :: o.
Proof.
  induction o as [|[k' v'] o IH]; simpl; [done|]. destruct (array_index k'); [|done].
  destruct (_ <? _)%N; [|done]. rewrite IH. apply Permutation_swap.
Qed.

Lemma obj_define_fresh k v o : k ∉ map fst o -> obj_define k v o ≡ₚ (k, v) :: o.
Proof.
  intros Hn. unfold obj_define. assert (map_has k o = false) as -> by by apply map_has_false.
  destruct (array_index k); [apply insert_index_perm|]. by rewrite Permutation_app_comm.
Qed.

Lemma obj_assign_fresh k v o : k ∉ map fst o ->
  (k = js "__proto__" /\ obj_assign k v o = o) \/
  (k ≠ js "__proto__" /\ obj_assign k v o ≡ₚ (k, v) :: o).
Proof.
  intros Hn. unfold obj_assign. assert (map_has k o = false) as -> by by apply map_has_false.
  destruct (jstr_eqb k (js "__proto__")) eqn:E.
  - apply jstr_eqb_eq in E. by left.
  - apply jstr_eqb_neq in E. right. split; [done|]. simpl. by apply obj_define_fresh.
Qed.

Lemma sumZ_perm l l' : l ≡ₚ l' -> sumZ l = sumZ l'.
Proof. induction 1; simpl; lia. Qed.

Lemma len_perm {A} (l l' : list A) : l ≡ₚ l' -> len l = len l'.
Proof. unfold len. by intros ->. Qed.

(** ** Byte accounting of [sanitizeNode] *)

(** [bytes] accounts for [total]: it is never less, and equal when [exact] holds. *)
Definition accounts (exact : Prop) (total bytes : Z) : Prop :=
  total <= bytes /\ (exact -> total = bytes).

Definition child_ok (child : jv -> Z -> option (jv * Z)) : Prop :=
  forall v b v' n, jv_wf v -> child v b = Some (v', n) ->
    v' ≠ JUndef /\ n <= b /\ accounts (proto_free v) (json_bytes v') n.

Definition items_total (output : list jv) : Z := 2 + sumZ (map json_bytes output) + seps (len output).

Lemma items_total_snoc output v :
  items_total (output ++ [v]) =
  items_total output + (if len output =? 0 then 0 else 1) + json_bytes v.
Proof.
  unfold items_total, seps. rewrite map_app, sumZ_app.
  autorewrite with omp_len. simpl. pose proof (len_nonneg output).
  destruct (Z.eqb_spec (len output) 0); lia.
Qed.

Lemma sanitize_items_accounts child budget items output bytes (exact : Prop) output' bytes' :
  child_ok child -> Forall jv_wf items -> (exact -> Forall proto_free items) ->
  accounts exact (items_total output) bytes ->
  sanitize_items child budget items output bytes = (output', bytes') ->
  accounts exact (items_total output') bytes'.
Proof.
  intros Hc Hwf. revert output bytes.
  induction Hwf as [|item items Hi Hwf IH]; intros output bytes Hex Hacc; simpl; [by intros [= <- <-]|].
  destruct (child item _) as [[v n]|] eqn:E.
  - destruct (Hc _ _ _ _ Hi E) as (_ & _ & Hle & Heq).
    assert (accounts exact (items_total (output ++ [v]))
      (bytes + (if len output =? 0 then 0 else 1) + n)) as Hacc'.
    { rewrite items_total_snoc. destruct Hacc as [? Hacc]. split; [lia|].
      intros He. specialize (Hex He). inversion Hex; subst. rewrite (Hacc He), Heq by done. lia. }
    destruct (budget <=? _); [by intros [= <- <-]|]. apply IH; [|done].
    intros He. specialize (Hex He). by inversion Hex.
  - apply IH; [|done]. intros He. specialize (Hex He). by inversion Hex.
Qed.

Definition props_total (keys : Z) (output : list (jstr * jv)) : Z :=
  2 + sumZ (map prop_bytes output) + seps keys.

Definition printable (kv : jstr * jv) : Prop := snd kv ≠ JUndef.

Lemma printed_all o : Forall printable o -> printed o = o.
Proof.
  intros H. apply filter_all_true. rewrite Forall_forall in H.
  intros [k x] Hin. specialize (H _ Hin). unfold printable in H. simpl in *. by destruct x.
Qed.

(** State of the object loop: names, counts and bytes seen so far. *)
Record props_inv (exact : Prop) (props output : list (jstr * jv)) (keys bytes : Z) : Prop := {
  pi_fresh : forall k, k ∈ map fst output -> k ∉ map fst props;
  pi_keys : 0 <= len output <= keys;
  pi_print : Forall printable output;
  pi_total : accounts exact (props_total keys output) bytes;
  pi_exact : exact -> len output = keys /\ Forall (fun kv => fst kv ≠ js "__proto__" /\ proto_free (snd kv)) props;
}.

Lemma props_inv_skip exact kv props output keys bytes :
  props_inv exact (kv :: props) output keys bytes -> props_inv exact props output keys bytes.
Proof.
  intros [H1 H2 H3 H4 H5]. constructor; auto.
  - intros k Hk Hin. apply (H1 k Hk). simpl. set_solver.
  - intros He. destruct (H5 He) as [? Hf]. split; [done|]. by inversion Hf.
Qed.

Lemma prop_bytes_nonneg kv : 0 <= prop_bytes kv.
Proof.
  unfold prop_bytes. pose proof (utf8Bytes_nonneg (quote (fst kv))).
  pose proof (json_bytes_nonneg (snd kv)). lia.
Qed.

Lemma props_inv_push exact name item props output keys bytes v n :
  NoDup (name :: map fst props) -> v ≠ JUndef -> accounts (proto_free item) (json_bytes v) n ->
  props_inv exact ((name, item) :: props) output keys bytes ->
  props_inv exact props (obj_assign name v output) (keys + 1)
    (bytes + ((if keys =? 0 then 0 else 1) + jsonStringBytes name + 1 + n)).
Proof.
  intros [Hnd _]%NoDup_cons Hv [Hle Heq] Hinv.
  destruct Hinv as [H1 H2 H3 [H4 H4'] H5].
  assert (name ∉ map fst output) as Hfresh.
  { intros Hin. apply (H1 name Hin). simpl. set_solver. }
  assert (seps (keys + 1) = seps keys + (if keys =? 0 then 0 else 1)) as Hseps.
  { unfold seps. destruct (Z.eqb_spec keys 0); lia. }
  pose proof (json_bytes_nonneg v).
  assert (0 <= jsonStringBytes name) by (rewrite jsonStringBytes_quote; apply utf8Bytes_nonneg).
  destruct (obj_assign_fresh name v output Hfresh) as [[Hp ->]|[Hp Hperm]].
  - constructor; [|lia|done| |].
    + intros k Hk Hin. apply (H1 k Hk). simpl. set_solver.
    + unfold props_total in *. split; [lia|].
      intros He. destruct (H5 He) as [_ Hf]. inversion Hf as [|? ? [Hc _] _]; subst. by destruct Hc.
    + intros He. destruct (H5 He) as [_ Hf]. inversion Hf as [|? ? [Hc _] _]; subst. by destruct Hc.
  - constructor.
    + intros k Hk Hin. rewrite Hperm in Hk. simpl in Hk. apply elem_of_cons in Hk as [->|Hk]; [done|].
      apply (H1 k Hk). simpl. set_solver.
    + rewrite (len_perm _ _ Hperm), len_cons. lia.
    + rewrite Hperm. constructor; [done|done].
    + unfold props_total in *. rewrite (sumZ_perm _ _ (Permutation_map prop_bytes Hperm)).
      rewrite map_cons, sumZ_cons.
      assert (prop_bytes (name, v) = utf8Bytes (quote name) + 1 + json_bytes v) as -> by done.
      rewrite jsonStringBytes_quote in *. split; [lia|].
      intros He. destruct (H5 He) as [_ Hf]. inversion Hf as [|? ? [_ Hc] _]; subst.
      rewrite (Heq Hc). specialize (H4' He). lia.
    + intros He. destruct (H5 He) as [Hl Hf]. inversion Hf; subst.
      rewrite (len_perm _ _ Hperm), len_cons. split; [lia|done].
Qed.

Lemma sanitize_props_accounts child budget image props output keys bytes (exact : Prop) output' bytes' :
  child_ok child -> NoDup (map fst props) -> Forall (fun kv => jv_wf (snd kv)) props ->
  props_inv exact props output keys bytes ->
  sanitize_props child budget image props output keys bytes = (output', bytes') ->
  exists keys' rest, props_inv exact rest output' keys' bytes'.
Proof.
  intros Hc Hnd Hwf. revert output keys bytes Hnd.
  induction Hwf as [|[name item] props Hi Hwf IH]; intros output keys bytes Hnd Hinv; simpl.
  { intros [= <- <-]. eauto. }
  assert (NoDup (map fst props)) as Hnd' by by apply NoDup_cons in Hnd as [_ ?].
  destruct (_ || SECRET_KEY name); [by eauto using props_inv_skip|].
  destruct (_ && _); [by eauto using props_inv_skip|].
  destruct (child item _) as [[v n]|] eqn:E; [|by eauto using props_inv_skip].
  destruct (Hc _ _ _ _ Hi E) as (Hv & _ & Hacc).
  pose proof (props_inv_push _ _ _ _ _ _ _ _ _ Hnd Hv Hacc Hinv) as Hpush.
  destruct (budget <=? _); [intros [= <- <-]; eauto|]. by apply IH.
Qed.

Lemma props_inv_total exact props output keys bytes :
  props_inv exact props output keys bytes -> accounts exact (json_bytes (JObj output)) bytes.
Proof.
  intros [_ Hk Hp [Hle Heq] Hex]. rewrite json_bytes_object, (printed_all _ Hp).
  unfold props_total in *. assert (seps (len output) <= seps keys) by (unfold seps; lia).
  split; [lia|]. intros He. destruct (Hex He) as [-> _]. by apply Heq.
Qed.

(** A value kept as it is, with its size. *)
Lemma leaf_ok v b v' n :
  v ≠ JUndef -> (if retainedJsonBytes v <=? b then Some (v, retainedJsonBytes v) else None) = Some (v', n) ->
  v' ≠ JUndef /\ n <= b /\ forall exact, accounts exact (json_bytes v') n.
Proof.
  intros Hv. destruct (_ <=? b) eqn:E; [|done]. intros [= <- <-]. bool_hyps.
  rewrite retainedJsonBytes_exact in * by done. unfold accounts. repeat split; try done; lia.
Qed.

Lemma sanitizeNode_child_ok levels image : child_ok (fun v b => sanitizeNode levels v b image).
Proof.
  revert image. induction levels as [|l IH]; intros image v b v' n Hwf H; destruct v as [| |bb|num|s|items|props];
    cbn [sanitizeNode] in H; (destruct (b <? 1) eqn:Eb; [done|]); try done.
  all: try (destruct (num_finite num); [|done]).
  all: try (eapply leaf_ok in H; [|done]; destruct H as (? & ? & ?); by split_and!).
  all: try (eapply (leaf_ok (JStr _)) in H; [|done]; destruct H as (? & ? & ?); by split_and!).
  all: revert H.
  - destruct (sanitize_items _ _ _ _ _) as [out by'] eqn:Es. destruct (by' <=? b) eqn:E; [|done].
    intros [= <- <-]. bool_hyps. split; [done|]. split; [lia|].
    rewrite json_bytes_array. apply jv_wf_arr in Hwf.
    eapply (sanitize_items_accounts _ _ _ _ _ (proto_free (JArr items))); [apply IH| | | |exact Es].
    + by apply Forall_take.
    + rewrite proto_free_arr. apply Forall_take.
    + split; [done|]. intros _. done.
  - destruct (sanitize_props _ _ _ _ _ _ _) as [out by'] eqn:Es. destruct (by' <=? b) eqn:E; [|done].
    intros [= <- <-]. bool_hyps. split; [done|]. split; [lia|].
    apply jv_wf_obj in Hwf as [Hnd Hwf]. pose proof (orderedEntries_perm props) as Hperm.
    eapply (sanitize_props_accounts _ _ _ _ _ _ _ (proto_free (JObj props))) in Es
      as (keys' & rest & Hinv); [by apply props_inv_total in Hinv|apply IH|by rewrite Hperm|by rewrite Hperm|].
    constructor; [set_solver|done|constructor|by split|].
    intros Hp. split; [done|]. rewrite Hperm. by apply proto_free_obj.
Qed.

(** ** Shape of sanitised values: bounded depth and width, no secret-like key *)
Fixpoint retained_shape (levels : nat) (v : jv) : Prop :=
  match v with
  | JUndef => False
  | JNull | JBool _ => True
  | JNum n => num_finite n = true
  | JStr s => jsonStringBytes s <= MAX_RETAINED_VALUE_STRING_BYTES + 2
  | JArr items =>
      match levels with
      | O => False
      | S l => len items <= Z.of_nat MAX_RETAINED_VALUE_ARRAY_ITEMS /\ Forall (retained_shape l) items
      end
  | JObj props =>
      match levels with
      | O => False
      | S l => len props <= MAX_RETAINED_VALUE_KEYS /\
          Forall (fun kv => SECRET_KEY (fst kv) = false /\ retained_shape l (snd kv)) props
      end
  end.

Definition child_shape (P : jv -> Prop) (child : jv -> Z -> option (jv * Z)) : Prop :=
  forall v b v' n, child v b = Some (v', n) -> P v'.

Lemma sanitize_items_shape P child budget items output bytes output' bytes' :
  child_shape P child -> Forall P output ->
  sanitize_items child budget items output bytes = (output', bytes') ->
  Forall P output' /\ len output' <= len output + len items.
Proof.
  intros Hc. revert output bytes.
  induction items as [|item items IH]; intros output bytes Ho; simpl.
  { intros [= <- <-]. split; [done|len_lia]. }
  rewrite len_cons. pose proof (len_nonneg items).
  destruct (child item _) as [[v n]|] eqn:E.
  - assert (Forall P (output ++ [v])) as Ho'.
    { apply Forall_app. split; [done|]. constructor; [eauto|done]. }
    destruct (budget <=? _); [intros [= <- <-]; split; [done|len_lia]|].
    intros Hs. destruct (IH _ _ Ho' Hs) as [? ?]. split; [done|len_lia].
  - intros Hs. destruct (IH _ _ Ho Hs) as [? ?]. split; [done|lia].
Qed.

Lemma map_set_Forall (Q : jstr * jv -> Prop) k v o :
  Forall Q o -> Q (k, v) -> Forall Q (map_set k v o).
Proof.
  intros Ho Hq. induction Ho as [|[k' v'] o Hk Ho IH]; simpl; [by constructor|].
  destruct (decide (k = k')) as [->|]; constructor; done.
Qed.

Lemma obj_assign_Forall (Q : jstr * jv -> Prop) k v o :
  Forall Q o -> Q (k, v) -> Forall Q (obj_assign k v o) /\ len (obj_assign k v o) <= len o + 1.
Proof.
  intros Ho Hq. unfold obj_assign. destruct (_ && _); [split; [done|lia]|].
  unfold obj_define. destruct (map_has k o) eqn:E.
  - split; [by apply map_set_Forall|].
    pose proof (map_size_set k v o) as Hs. rewrite E in Hs. unfold map_size in Hs. lia.
  - destruct (array_index k) as [i|].
    + rewrite (len_perm _ _ (insert_index_perm i k v o)), len_cons. split; [|lia].
      rewrite insert_index_perm. by constructor.
    + split; [|len_lia]. apply Forall_app. split; [done|]. by constructor.
Qed.

Lemma sanitize_props_shape P child budget image props output keys bytes output' bytes' :
  child_shape P child ->
  Forall (fun kv => SECRET_KEY (fst kv) = false /\ P (snd kv)) output ->
  len output <= keys <= MAX_RETAINED_VALUE_KEYS ->
  sanitize_props child budget image props output keys bytes = (output', bytes') ->
  Forall (fun kv => SECRET_KEY (fst kv) = false /\ P (snd kv)) output' /\
  len output' <= MAX_RETAINED_VALUE_KEYS.
Proof.
  intros Hc. revert output keys bytes.
  induction props as [|[name item] props IH]; intros output keys bytes Ho Hk; simpl.
  { intros [= <- <-]. split; [done|lia]. }
  destruct (_ || SECRET_KEY name) eqn:Es; [by apply IH|]. bool_hyps.
  destruct (_ && _); [by apply IH|].
  destruct (child item _) as [[v n]|] eqn:E; [|by apply IH].
  destruct (obj_assign_Forall _ name v output Ho ltac:(split; [exact H0|eapply Hc, E])) as [Ho' Hl].
  destruct (budget <=? _); [intros [= <- <-]; split; [done|lia]|]. apply IH; [done|lia].
Qed.

Lemma sanitizeNode_shape levels image :
  child_shape (retained_shape levels) (fun v b => sanitizeNode levels v b image).
Proof.
  revert image. induction levels as [|l IH]; intros image v b v' n H; destruct v as [| |bb|num|s|items|props];
    cbn [sanitizeNode] in H; (destruct (b <? 1) eqn:Eb; [done|]); try done.
  all: try (destruct (num_finite num) eqn:En; [|done]).
  all: try (destruct (_ <=? b) eqn:E; [|done]; injection H as <- <-; simpl; try done).
  1, 2: pose proof (retainedText_fits s (Z.min b (MAX_RETAINED_VALUE_STRING_BYTES + 2)));
    unfold MAX_RETAINED_VALUE_STRING_BYTES in *; lia.
  - destruct (sanitize_items _ _ _ _ _) as [out by'] eqn:Es. destruct (by' <=? b); [|done].
    injection H as <- <-. simpl.
    eapply sanitize_items_shape in Es as [? Hl]; [|apply IH|constructor].
    split; [|done]. rewrite len_nil in Hl. unfold len in *. rewrite length_take in Hl. lia.
  - destruct (sanitize_props _ _ _ _ _ _ _) as [out by'] eqn:Es. destruct (by' <=? b); [|done].
    injection H as <- <-. simpl.
    eapply sanitize_props_shape in Es as [? ?]; [|apply IH|constructor|done]. done.
Qed.

(** ** Entry windows *)

Definition entries_total (entries : list DurableEntry) : Z := items_total (map entry_json entries).

Lemma entries_total_json entries : entries_total entries = json_bytes (JArr (map entry_json entries)).
Proof. by rewrite json_bytes_array. Qed.

Lemma entries_total_cons e entries :
  entries_total (e :: entries) =
  entries_total entries + ((if len entries =? 0 then 0 else 1) + retainedJsonBytes (entry_json e)).
Proof.
  unfold entries_total, items_total, seps. rewrite retainedJsonBytes_exact by done.
  rewrite map_cons, map_cons, sumZ_cons. autorewrite with omp_len.
  pose proof (len_nonneg entries). destruct (Z.eqb_spec (len entries) 0); lia.
Qed.

(** The loop keeps the longest suffix that fits the byte budget, with its exact size. *)
Lemma retain_newest_spec entries maxBytes retained bytes retained' bytes' :
  bytes = entries_total retained -> bytes <= Z.max 2 maxBytes ->
  retain_newest (rev entries) maxBytes retained bytes = (retained', bytes') ->
  bytes' = entries_total retained' /\ bytes' <= Z.max 2 maxBytes /\
  exists older newer, entries = older ++ newer /\ retained' = newer ++ retained /\
    (forall o e, older = o ++ [e] -> maxBytes < entries_total (e :: retained')).
Proof.
  revert retained bytes. induction entries as [|e entries IH] using rev_ind; intros retained bytes Hb Hm.
  { simpl. intros [= <- <-]. split_and!; [done|done|]. exists [], []. split_and!; [done|done|].
    intros o e E. by destruct o. }
  rewrite rev_unit. cbn [retain_newest].
  destruct (maxBytes <? _) eqn:E; bool_hyps.
  - intros [= <- <-]. split_and!; [done|done|]. exists (entries ++ [e]), [].
    rewrite app_nil_r. split_and!; [done|done|]. intros o e' [-> [= ->]]%app_inj_2; [|done].
    rewrite entries_total_cons. lia.
  - intros Hr. apply IH in Hr as (? & ? & older & newer & -> & -> & Hmax); [|rewrite entries_total_cons; lia|lia].
    split_and!; [done|done|]. exists older, (newer ++ [e]).
    rewrite <- !app_assoc. split_and!; [done|done|]. intros o e' Ho. by apply (Hmax o e').
Qed.

(** What every entry window satisfies: a suffix of the candidates, of exact and bounded size,
    that cannot be extended. *)
Record window_ok (candidates : list DurableEntry) (uniqueCount maxBytes : Z) (r : RetainedDurableEntries) : Prop := {
  wo_bytes : ret_bytes r = json_bytes (JArr (map entry_json (ret_entries r)));
  wo_budget : ret_bytes r <= Z.max 2 maxBytes;
  wo_truncated : ret_truncated r = (len (ret_entries r) <? uniqueCount);
  wo_suffix : exists older, candidates = older ++ ret_entries r /\
    forall o e, older = o ++ [e] ->
      maxBytes < json_bytes (JArr (map entry_json (e :: ret_entries r)));
}.

Lemma retainSanitizedEntries_ok entries uniqueCount maxBytes :
  window_ok entries uniqueCount maxBytes (retainSanitizedEntries entries uniqueCount maxBytes).
Proof.
  unfold retainSanitizedEntries.
  destruct (retain_newest _ _ _ _) as [retained bytes] eqn:E.
  apply retain_newest_spec in E as (Hb & Hle & older & newer & -> & -> & Hmax); [|done|lia].
  rewrite app_nil_r in *. constructor; simpl; rewrite <- ?entries_total_json; auto.
  exists older. split; [done|]. intros o e Ho. rewrite <- map_cons, <- entries_total_json. eauto.
Qed.

Lemma boundedInteger_range value fallback ceiling :
  1 <= fallback -> 1 <= ceiling -> 1 <= boundedInteger value fallback ceiling <= ceiling.
Proof. intros. unfold boundedInteger. destruct value as [v|]; [|lia]. destruct (_ || _) eqn:E; bool_hyps; lia. Qed.


Lemma retainedEntryOptions_range options maxEntries maxBytes maxEntryBytes :
  retainedEntryOptions options = (maxEntries, maxBytes, maxEntryBytes) ->
  1 <= maxEntries <= MAX_RETAINED_TRANSCRIPT_ENTRIES /\
  1 <= maxBytes <= MAX_RETAINED_TRANSCRIPT_BYTES.
Proof.
  unfold retainedEntryOptions. intros [= <- <- _].
  unfold MAX_RETAINED_TRANSCRIPT_ENTRIES, MAX_RETAINED_TRANSCRIPT_BYTES.
  split; apply boundedInteger_range; lia.
Qed.

(** *** Unique ids *)

Lemma unique_by_id_inv entries unique :
  map_wf unique -> Forall (fun kv => fst kv = entry_id (snd kv)) unique ->
  let unique' := fold_left (fun unique entry =>
    if map_has (entry_id entry) unique then unique else map_set (entry_id entry) entry unique) entries unique in
  map_wf unique' /\ Forall (fun kv => fst kv = entry_id (snd kv)) unique' /\
  (forall k, k ∈ map_keys unique' <-> k ∈ map_keys unique \/ k ∈ map entry_id entries).
Proof.
  revert unique. induction entries as [|e entries IH]; intros unique Hwf Hk; simpl; [set_solver|].
  destruct (map_has (entry_id e) unique) eqn:E.
  - destruct (IH unique Hwf Hk) as (? & ? & Hkeys). split_and!; [done|done|].
    intros k. rewrite Hkeys. apply map_has_keys in E. set_solver.
  - apply map_has_false in E.
    destruct (IH (map_set (entry_id e) e unique)) as (? & ? & Hkeys).
    + by apply map_wf_set.
    + rewrite map_set_notin by done. apply Forall_app. split; [done|]. by constructor.
    + split_and!; [done|done|]. intros k. rewrite Hkeys, elem_of_keys_set. set_solver.
Qed.

Lemma keyed_by_id (m : jsmap jstr DurableEntry) :
  Forall (fun kv => fst kv = entry_id (snd kv)) m -> map entry_id (map_values m) = map_keys m.
Proof.
  induction 1 as [|[k e] l E _ IH]; [done|]. simpl in *. unfold map_values, map_keys in *.
  rewrite IH. by rewrite <- E.
Qed.

Lemma unique_by_id_spec entries :
  NoDup (map entry_id (map_values (unique_by_id entries))) /\
  (forall k, k ∈ map entry_id (map_values (unique_by_id entries)) <-> k ∈ map entry_id entries).
Proof.
  destruct (unique_by_id_inv entries []) as (Hwf & Hk & Hkeys); [apply map_wf_nil|constructor|].
  fold (unique_by_id entries) in *.
  rewrite keyed_by_id by done. split; [done|]. intros k. rewrite Hkeys. set_solver.
Qed.

Lemma sanitize_entry_id maxBytes e : entry_id (sanitizeRetainedDurableEntry e maxBytes) = entry_id e.
Proof. done. Qed.

Lemma NoDup_suffix {A} (l l' : list A) : l `suffix_of` l' -> NoDup l' -> NoDup l.
Proof. intros [k ->] (_ & _ & ?)%NoDup_app. done. Qed.

Lemma suffix_map {A B} (f : A -> B) (l l' : list A) : l `suffix_of` l' -> map f l `suffix_of` map f l'.
Proof. intros [k ->]. exists (map f k). by rewrite map_app. Qed.

Lemma len_suffix {A} (l l' : list A) : l `suffix_of` l' -> len l <= len l'.
Proof. intros [k ->]. pose proof (len_nonneg k). len_lia. Qed.

Lemma retainDurableEntries_ok entries options maxEntries maxBytes maxEntryBytes :
  retainedEntryOptions options = (maxEntries, maxBytes, maxEntryBytes) ->
  let r := retainDurableEntries entries options in
  let distinct := map_values (unique_by_id entries) in
  window_ok (map (fun e => sanitizeRetainedDurableEntry e maxEntryBytes) (slice_last maxEntries distinct))
    (len distinct) maxBytes r /\
  NoDup (map entry_id (ret_entries r)) /\
  map entry_id (ret_entries r) `suffix_of` map entry_id distinct /\
  len (ret_entries r) <= maxEntries.
Proof.
  intros Ho r distinct. destruct (retainedEntryOptions_range _ _ _ _ Ho) as [[He _] _].
  assert (r = retainSanitizedEntries
    (map (fun e => sanitizeRetainedDurableEntry e maxEntryBytes) (slice_last maxEntries distinct))
    (map_size (unique_by_id entries)) maxBytes) as Hr.
  { unfold r, retainDurableEntries. by rewrite Ho. }
  clearbody r. set (cands := map (fun e => sanitizeRetainedDurableEntry e maxEntryBytes) _) in *.
  assert (window_ok cands (len distinct) maxBytes r) as Hw.
  { rewrite Hr. unfold distinct. replace (len (map_values (unique_by_id entries))) with (map_size (unique_by_id entries))
      by (unfold map_size, map_values; by rewrite len_map). apply retainSanitizedEntries_ok. }
  assert (ret_entries r `suffix_of` cands) as Hsuf by (destruct (wo_suffix _ _ _ _ Hw) as (o & -> & _); by exists o).
  assert (map entry_id cands `suffix_of` map entry_id distinct) as Hc.
  { subst cands. rewrite map_map. apply (suffix_map entry_id), slice_last_suffix. }
  assert (map entry_id (ret_entries r) `suffix_of` map entry_id distinct) as Hids.
  { etrans; [by apply suffix_map|done]. }
  split_and!; [done| |done|].
  - eapply NoDup_suffix; [exact Hids|]. apply unique_by_id_spec.
  - apply len_suffix in Hsuf. subst cands. rewrite len_map in Hsuf.
    pose proof (slice_last_len maxEntries distinct). lia.
Qed.

(** Appending one entry: the ids stay distinct and within the old ids and the new one. *)
Lemma appendRetainedDurableEntry_ok entries entry options maxEntries maxBytes maxEntryBytes :
  retainedEntryOptions options = (maxEntries, maxBytes, maxEntryBytes) ->
  entry_id entry ∉ map entry_id entries ->
  let r := appendRetainedDurableEntry entries entry options in
  map entry_id (ret_entries r) `suffix_of` map entry_id entries ++ [entry_id entry] /\
  len (ret_entries r) <= maxEntries /\
  json_bytes (JArr (map entry_json (ret_entries r))) <= Z.max 2 maxBytes.
Proof.
  intros Ho Hn r. destruct (retainedEntryOptions_range _ _ _ _ Ho) as [[He _] _].
  unfold r, appendRetainedDurableEntry. rewrite Ho.
  destruct (existsb _ entries) eqn:E.
  { exfalso. apply Hn. apply existsb_exists in E as (x & Hin & Hx). apply jstr_eqb_eq in Hx.
    rewrite <- Hx. apply list_elem_of_fmap. exists x. split; [done|by apply list_elem_of_In]. }
  set (kept := if maxEntries =? 1 then [] else slice_last (maxEntries - 1) entries).
  assert (kept `suffix_of` entries /\ len kept <= maxEntries - 1) as [Hk Hl].
  { unfold kept. destruct (Z.eqb_spec maxEntries 1).
    - split; [exists entries; by rewrite app_nil_r|rewrite len_nil; lia].
    - split; [apply slice_last_suffix|apply slice_last_len; lia]. }
  clearbody kept.
  pose proof (retainSanitizedEntries_ok (kept ++ [sanitizeRetainedDurableEntry entry maxEntryBytes])
    (len entries + 1) maxBytes) as [Hb Hbud _ (older & Hs & _)].
  set (r' := retainSanitizedEntries _ _ _) in *.
  assert (ret_entries r' `suffix_of` kept ++ [sanitizeRetainedDurableEntry entry maxEntryBytes]) as Hsuf by (by exists older).
  split_and!; [|apply len_suffix in Hsuf; len_lia|lia].
  etrans; [by apply suffix_map|]. rewrite map_app. simpl.
  destruct Hk as [o Hk]. exists (map entry_id o). by rewrite Hk, map_app, <- app_assoc.
Qed.

(** *** Event windows *)

Section EventWindow.
Context {A : Type} (to_json : A -> jv).

Definition values_total (l : list A) : Z := items_total (map to_json l).

Lemma values_total_cons v l :
  values_total (v :: l) =
  json_bytes (to_json v) + values_total l + (if len l =? 0 then 0 else 1).
Proof.
  unfold values_total, items_total, seps. rewrite map_cons, map_cons, sumZ_cons.
  autorewrite with omp_len. pose proof (len_nonneg l). destruct (Z.eqb_spec (len l) 0); lia.
Qed.

Lemma values_total_tail v l :
  (if len (v :: l) =? 1 then 2
   else values_total (v :: l) - retainedArrayItemBytes (to_json v) - 1) = values_total l.
Proof.
  rewrite values_total_cons, retainedArrayItemBytes_exact, len_cons.
  destruct l as [|w l]; [done|]. rewrite len_cons. pose proof (len_nonneg l).
  destruct (Z.eqb_spec (1 + (1 + len l)) 1), (Z.eqb_spec (1 + len l) 0); lia.
Qed.

Lemma drop_counted_spec n values :
  drop_counted (fun v => retainedArrayItemBytes (to_json v)) n values (values_total values) (len values)
  = (drop n values, values_total (drop n values), len (drop n values)).
Proof.
  revert values. induction n as [|n IH]; intros [|v rest]; [done..|].
  cbn [drop_counted]. rewrite values_total_tail.
  replace (len (v :: rest) - 1) with (len rest) by (rewrite len_cons; lia). apply IH.
Qed.

Lemma drop_over_budget_spec budget candidates r bytes :
  drop_over_budget (fun v => retainedArrayItemBytes (to_json v)) budget candidates
    (values_total candidates) (len candidates) = (r, bytes) ->
  r `suffix_of` candidates /\ bytes = values_total r /\ (bytes <= budget \/ r = []) /\
  (forall older v, candidates = older ++ v :: r -> budget < values_total (v :: r)).
Proof.
  induction candidates as [|v rest IH]; cbn [drop_over_budget].
  - intros [= <- <-]. split_and!; [reflexivity|done|by right|]. intros older v E. by destruct older.
  - destruct (_ && _) eqn:E.
    + bool_hyps. rewrite values_total_tail.
      replace (len (v :: rest) - 1) with (len rest) by (rewrite len_cons; lia).
      intros (Hs & -> & Hb & Hmax)%IH. split_and!; [by apply suffix_cons_r|done|done|].
      intros [|w older] x [= <- Hr]; [by rewrite <- Hr|by eapply Hmax].
    + intros [= <- <-]. split_and!; [reflexivity|done| |].
      * left. rewrite len_cons in E. pose proof (len_nonneg rest).
        apply andb_false_iff in E as [?|?]; bool_hyps; lia.
      * intros older x Ex. apply (f_equal length) in Ex. rewrite length_app in Ex. simpl in Ex. lia.
Qed.

Lemma values_total_snoc l v :
  values_total (l ++ [v]) =
  values_total l + (retainedArrayItemBytes (to_json v) + (if len l =? 0 then 0 else 1)).
Proof.
  unfold values_total. rewrite map_app. simpl. rewrite items_total_snoc, retainedArrayItemBytes_exact, len_map. lia.
Qed.

Lemma appendRetainedValue_window values value maxItems maxBytes r bytes :
  appendRetainedValue to_json values value maxItems maxBytes = (r, bytes) ->
  r `suffix_of` values ++ [value] /\ bytes = json_bytes (JArr (map to_json r)) /\
  len r <= boundedInteger maxItems MAX_RETAINED_SESSION_EVENTS MAX_RETAINED_SESSION_EVENTS /\
  (bytes <= boundedInteger maxBytes MAX_RETAINED_SESSION_EVENTS_BYTES MAX_RETAINED_SESSION_EVENTS_BYTES \/ r = []).
Proof.
  unfold appendRetainedValue.
  pose proof (boundedInteger_range maxItems MAX_RETAINED_SESSION_EVENTS MAX_RETAINED_SESSION_EVENTS
    ltac:(done) ltac:(done)) as Hcount.
  set (count := boundedInteger maxItems _ _) in *. set (budget := boundedInteger maxBytes _ _).
  set (first := Z.to_nat _).
  rewrite retainedJsonBytes_exact by done. rewrite json_bytes_array.
  change (2 + _ + _) with (values_total values). rewrite len_map || idtac.
  rewrite drop_counted_spec. set (kept := drop first values).
  replace (len kept + 1) with (len (kept ++ [value])) by len_lia.
  rewrite <- values_total_snoc. intros (Hs & -> & Hb & _)%drop_over_budget_spec.
  assert (kept ++ [value] `suffix_of` values ++ [value]) as Hk.
  { exists (take first values). unfold kept. by rewrite app_assoc, take_drop. }
  split_and!; [by etrans| |  |done].
  - by rewrite json_bytes_array.
  - apply len_suffix in Hs. autorewrite with omp_len in Hs. unfold kept, len in *.
    rewrite length_drop in Hs. subst first. destruct (Z.eqb_spec count 1); lia.
Qed.
End EventWindow.

(** ** Properties *)

(** the single-pass size function of string literals equals the UTF-8 length of the JSON
    literal that [JSON.stringify] prints, for every string, unpaired surrogates and escapes
    included. *)
Theorem jsonStringBytes_exact s : jsonStringBytes s = json_bytes (JStr s).
Proof. apply jsonStringBytes_quote. Qed.

(** The binary search of [retainedText] always ends within its bound of steps, and the
    text it keeps fits the byte budget when printed as a JSON literal. *)
Theorem retainedText_total_and_bounded value maxJsonBytes :
  (exists best, retainedText_search (Z.to_nat (Z.max 0 (Z.min (len value) MAX_RETAINED_VALUE_STRING_BYTES)) + 2)
    value (Z.max 2 maxJsonBytes) 0 (Z.max 0 (Z.min (len value) MAX_RETAINED_VALUE_STRING_BYTES)) [] = Some best)
  /\ json_bytes (JStr (retainedText value maxJsonBytes)) <= Z.max 2 maxJsonBytes.
Proof.
  split; [apply retainedText_search_total; lia|].
  change (utf8Bytes (quote (retainedText value maxJsonBytes)) <= Z.max 2 maxJsonBytes).
  rewrite <- jsonStringBytes_quote. apply retainedText_fits.
Qed.

(** C38: [sanitizeNode] reports a byte count within its budget that covers the printed size of
    the value it returns, and the count is exact unless a property is called [__proto__]. *)
Theorem sanitizeNode_exact levels v budget image v' n :
  jv_wf v -> sanitizeNode levels v budget image = Some (v', n) ->
  json_bytes v' <= n <= budget /\ (proto_free v -> json_bytes v' = n).
Proof.
  intros Hwf H. destruct (sanitizeNode_child_ok levels image v budget v' n Hwf H) as (_ & ? & ? & ?).
  split; [lia|done].
Qed.

Definition sample_value : jv :=
  JObj [(js "b", JArr [JNum (num_of_Z 12); JStr (js "x\y")]); (js "apiToken", JStr (js "hidden"));
        (js "text", JStr (js "hello"))].

Lemma sanitizeNode_exact_witness :
  json_bytes (JObj [(js "text", JStr (js "hello")); (js "b", JArr [JNum (num_of_Z 12); JStr (js "x\y")])]) <= 32 <= 100
  /\ (proto_free sample_value ->
      json_bytes (JObj [(js "text", JStr (js "hello")); (js "b", JArr [JNum (num_of_Z 12); JStr (js "x\y")])]) = 32).
Proof.
  apply (sanitizeNode_exact 8 sample_value 100 false).
  - vm_compute. split; [|done]. repeat (constructor; [set_solver|]). constructor.
  - vm_compute. reflexivity.
Defined.

(** Whatever [sanitizeNode] keeps is nested at most [levels] deep, has at most 256 items per
    array and 256 properties per object, bounded strings, finite numbers, and no property whose
    name matches the secret-key pattern. *)
Theorem sanitizeNode_redacts levels v budget image v' n :
  sanitizeNode levels v budget image = Some (v', n) -> retained_shape levels v'.
Proof. apply sanitizeNode_shape. Qed.

Lemma sanitizeNode_redacts_witness :
  retained_shape 8 (JObj [(js "text", JStr (js "hello")); (js "b", JArr [JNum (num_of_Z 12); JStr (js "x\y")])]).
Proof. apply (sanitizeNode_redacts 8 sample_value 100 false _ 32). vm_compute. reflexivity. Defined.

(** A snapshot is installed as the longest suffix of its distinct entries (first occurrence
    of each id, at most [maxEntries] of them, each sanitised) that fits the byte budget; the
    reported size is the exact serialised size, ids stay distinct, and [truncated] is set exactly
    when some distinct entry was left out. *)
Theorem retainDurableEntries_window entries options maxEntries maxBytes maxEntryBytes :
  retainedEntryOptions options = (maxEntries, maxBytes, maxEntryBytes) ->
  let r := retainDurableEntries entries options in
  let distinct := map_values (unique_by_id entries) in
  window_ok (map (fun e => sanitizeRetainedDurableEntry e maxEntryBytes) (slice_last maxEntries distinct))
    (len distinct) maxBytes r /\
  NoDup (map entry_id (ret_entries r)) /\
  map entry_id (ret_entries r) `suffix_of` map entry_id distinct /\
  len (ret_entries r) <= maxEntries.
Proof. apply retainDurableEntries_ok. Qed.

Definition sample_entry (i : jstr) : DurableEntry :=
  mkEntry i None (js "h") (js "s") None (js "message") (js "t") [(js "text", JStr (js "hi"))].

Lemma retainDurableEntries_window_witness :
  let r := retainDurableEntries [sample_entry (js "a"); sample_entry (js "b"); sample_entry (js "a")]
             (mkRetainOptions (Some 1) (Some 4096) None) in
  ret_truncated r = true /\ NoDup (map entry_id (ret_entries r)).
Proof.
  split; [vm_compute; reflexivity|].
  apply (retainDurableEntries_window [sample_entry (js "a"); sample_entry (js "b"); sample_entry (js "a")]
    (mkRetainOptions (Some 1) (Some 4096) None) 1 4096 4096).
  vm_compute. reflexivity.
Defined.

(** The incremental event window equals what recomputing from scratch would give: a suffix
    of the old window with the new value appended, with the remembered size exact, at most the
    configured number of items, and within the byte budget unless it is empty. *)
Theorem appendRetainedValue_exact (values : list jv) value maxItems maxBytes r bytes :
  appendRetainedValue id values value maxItems maxBytes = (r, bytes) ->
  r `suffix_of` values ++ [value] /\ bytes = json_bytes (JArr r) /\
  len r <= boundedInteger maxItems MAX_RETAINED_SESSION_EVENTS MAX_RETAINED_SESSION_EVENTS /\
  (bytes <= boundedInteger maxBytes MAX_RETAINED_SESSION_EVENTS_BYTES MAX_RETAINED_SESSION_EVENTS_BYTES \/ r = []).
Proof.
  intros H%appendRetainedValue_window. rewrite map_id in H. exact H.
Qed.

Lemma appendRetainedValue_exact_witness :
  [JNum (num_of_Z 2); JStr (js "new")] `suffix_of` [JNum (num_of_Z 1); JNum (num_of_Z 2)] ++ [JStr (js "new")].
Proof.
  apply (appendRetainedValue_exact [JNum (num_of_Z 1); JNum (num_of_Z 2)] (JStr (js "new")) (Some 2) (Some 100) _ 9).
  vm_compute. reflexivity.
Defined.
