(* ===== verification/TranscriptWindow.v ===== *)
(** * TranscriptWindow: the retained transcript as the newest window of the whole transcript

    An abstract specification of transcript retention, the longest suffix within the budgets,
    and the proof that installing a snapshot and appending entry by entry both compute it. *)
From stdpp Require Import base tactics option list numbers strings sets.
From S2P Require Import Prelude JsMap JsString JsValue Wire Retention RetentionSpec.

(** ** Windows *)

(** [W] is the largest suffix of [l] that fits. *)
Definition is_window {A} (fits : list A -> Prop) (l W : list A) : Prop :=
  W `suffix_of` l /\ fits W /\ forall S, S `suffix_of` l -> fits S -> S `suffix_of` W.

Section Windows.
Context {A : Type} (fits : list A -> Prop).
Context (fits_suffix : forall S l, S `suffix_of` l -> fits l -> fits S).
Context (fits_prefix : forall l x, fits (l ++ [x]) -> fits l).

Lemma suffix_antisym (l l' : list A) : l `suffix_of` l' -> l' `suffix_of` l -> l = l'.
Proof.
  intros [k ->] [k' Hk]. assert (length (k ++ l) <= length l)%nat as Hlen.
  { apply (f_equal length) in Hk. rewrite !length_app in *. lia. }
  rewrite length_app in Hlen. destruct k; [done|simpl in Hlen; lia].
Qed.

Lemma is_window_unique l W W' : is_window fits l W -> is_window fits l W' -> W = W'.
Proof. intros (? & ? & H) (? & ? & H'). apply suffix_antisym; auto. Qed.

Lemma suffix_snoc_inv (S l : list A) x :
  S `suffix_of` l ++ [x] -> S = [] \/ exists S0, S = S0 ++ [x] /\ S0 `suffix_of` l.
Proof.
  destruct S as [|y S _] using rev_ind; [by left|]. intros [k Hk]. right. rename S into S0. rewrite app_assoc in Hk.
  apply app_inj_tail in Hk as [-> ->]. exists S0. split; [done|by exists k].
Qed.

Lemma suffix_snoc (S l : list A) x : S `suffix_of` l -> S ++ [x] `suffix_of` l ++ [x].
Proof. intros [k ->]. exists k. by rewrite <- app_assoc. Qed.

(** A window survives the arrival of an item: what it dropped would be dropped again. *)
Lemma is_window_snoc l W x W' :
  is_window fits l W -> is_window fits (W ++ [x]) W' -> is_window fits (l ++ [x]) W'.
Proof.
  intros (Hs & Hf & Hm) (Hs' & Hf' & Hm'). split_and!; [|done|].
  - etrans; [exact Hs'|]. by apply suffix_snoc.
  - intros S HS HSf. apply Hm'; [|done].
    destruct (suffix_snoc_inv S l x HS) as [->|(S0 & -> & HS0)]; [apply suffix_nil|].
    apply suffix_snoc, Hm; [done|]. by eapply fits_prefix.
Qed.

(** Restricting the candidates to a suffix that still contains every fitting suffix. *)
Lemma is_window_restrict l l' W :
  l' `suffix_of` l -> (forall S, S `suffix_of` l -> fits S -> S `suffix_of` l') ->
  is_window fits l' W -> is_window fits l W.
Proof. intros Hl Hall (Hs & Hf & Hm). split_and!; [by etrans|done|auto]. Qed.

(** A fitting suffix that cannot be extended by one item is the window. *)
Lemma is_window_greedy older W :
  fits W -> (forall o e, older = o ++ [e] -> ~ fits (e :: W)) -> is_window fits (older ++ W) W.
Proof.
  intros Hf Hg. split_and!; [by exists older|done|]. intros S [k Hk] HS.
  symmetry in Hk. destruct (app_eq_inv k S older W Hk) as [(m & -> & ->)|(m & -> & ->)]; [by exists m|].
  destruct m as [|e m _] using rev_ind; [done|]. exfalso.
  apply (Hg (k ++ m) e); [by rewrite app_assoc|]. eapply fits_suffix; [|exact HS].
  exists m. by rewrite <- app_assoc.
Qed.
End Windows.

(** ** The transcript window *)

(** A transcript within the entry and byte budgets; the empty transcript always is. *)
Definition transcript_fits (maxEntries maxBytes : Z) (l : list DurableEntry) : Prop :=
  len l <= maxEntries /\ (l = [] \/ entries_total l <= maxBytes).

(** The specification: the longest suffix within both budgets. *)
Definition transcript_window (maxEntries maxBytes : Z) : list DurableEntry -> list DurableEntry -> Prop :=
  is_window (transcript_fits maxEntries maxBytes).

Lemma entries_total_app l1 l2 :
  0 <= entries_total l1 - 2 <= entries_total (l1 ++ l2) - 2 /\ entries_total l2 <= entries_total (l1 ++ l2).
Proof.
  unfold entries_total, items_total. rewrite map_app, map_app, sumZ_app.
  assert (forall l, 0 <= sumZ (map json_bytes (map entry_json l))) as Hn.
  { intros l. apply sumZ_nonneg. apply Forall_map, Forall_true. intros e. apply json_bytes_nonneg. }
  pose proof (Hn l1). pose proof (Hn l2). unfold seps. autorewrite with omp_len.
  pose proof (len_nonneg l1). pose proof (len_nonneg l2). lia.
Qed.

Lemma entry_json_pos e : 2 <= json_bytes (entry_json e).
Proof.
  unfold entry_json. rewrite json_bytes_object.
  assert (forall l, 0 <= sumZ (map prop_bytes l)) as Hp.
  { intros l. apply sumZ_nonneg, Forall_map, Forall_true. intros kv. apply prop_bytes_nonneg. }
  match goal with |- context [sumZ (map prop_bytes ?l)] => pose proof (Hp l) end. unfold seps. lia.
Qed.

Lemma transcript_fits_suffix n b S l : S `suffix_of` l -> transcript_fits n b l -> transcript_fits n b S.
Proof.
  intros [k ->] [Hl Hb]. pose proof (entries_total_app k S). split; [pose proof (len_nonneg k); len_lia|].
  destruct Hb as [[_ ->]%app_eq_nil|Hb]; [by left|right; lia].
Qed.

Lemma transcript_fits_prefix n b l x : transcript_fits n b (l ++ [x]) -> transcript_fits n b l.
Proof.
  intros [Hl Hb]. pose proof (entries_total_app l [x]). split; [len_lia|].
  destruct Hb as [[-> _]%app_eq_nil|Hb]; [by left|right; lia].
Qed.

Lemma slice_last_contains {A} n (S l : list A) : 0 < n -> S `suffix_of` l -> len S <= n -> S `suffix_of` slice_last n l.
Proof.
  intros Hn HS Hl. destruct (slice_last_suffix n l) as [k Hk].
  destruct (decide (len l <= n)); [by rewrite slice_last_all|].
  assert (len (slice_last n l) = n) as Hlen.
  { unfold slice_last, len in *. destruct (Z.eqb_spec n 0); [lia|]. rewrite length_drop. lia. }
  destruct HS as [k' Hk']. rewrite Hk in Hk'. symmetry in Hk'.
  destruct (app_eq_inv k' S k (slice_last n l) Hk') as [(m & -> & ->)|(m & -> & ->)]; [by exists m|].
  autorewrite with omp_len in Hl. destruct m; [done|]. rewrite len_cons in Hl. pose proof (len_nonneg m). lia.
Qed.

Section Transcript.
Context (options : RetainDurableEntryOptions) (maxEntries maxBytes maxEntryBytes : Z).
Context (Hopts : retainedEntryOptions options = (maxEntries, maxBytes, maxEntryBytes)).

Abbreviation sanitized := (fun e => sanitizeRetainedDurableEntry e maxEntryBytes).
Abbreviation window := (transcript_window maxEntries maxBytes).

(** The backward loop over candidates within the entry budget finds their window. *)
Lemma retainSanitizedEntries_window l n :
  len l <= maxEntries -> window l (ret_entries (retainSanitizedEntries l n maxBytes)).
Proof.
  intros Hl. destruct (retainedEntryOptions_range _ _ _ _ Hopts) as [He Hmb].
  destruct (retainSanitizedEntries_ok l n maxBytes) as [Hb Hbud _ (older & Hs & Hmax)].
  set (r := retainSanitizedEntries l n maxBytes) in *. clearbody r. rewrite <- entries_total_json in Hb.
  rewrite Hs. apply is_window_greedy; [apply transcript_fits_suffix| |].
  - split; [rewrite Hs in Hl; pose proof (len_nonneg older); autorewrite with omp_len in Hl; lia|].
    destruct (ret_entries r) as [|e W]; [by left|right].
    rewrite <- Hb. destruct (decide (2 <= maxBytes)); [lia|]. exfalso.
    assert (entries_total (e :: W) <= 2) as Hle by (rewrite <- Hb; lia).
    unfold entries_total, items_total in Hle. rewrite map_cons, map_cons, sumZ_cons in Hle.
    assert (0 <= sumZ (map json_bytes (map entry_json W))) by (apply sumZ_nonneg, Forall_map, Forall_true; auto with omp).
    unfold seps in Hle. pose proof (entry_json_pos e). lia.
  - intros o e Ho [_ [|Hfit]]; [done|]. specialize (Hmax o e Ho). rewrite <- entries_total_json in Hmax. lia.
Qed.

(** Keeping the last [maxEntries] candidates loses no fitting suffix. *)
Lemma window_of_last l W : window (slice_last maxEntries l) W -> window l W.
Proof.
  destruct (retainedEntryOptions_range _ _ _ _ Hopts) as [He _].
  apply is_window_restrict; [apply slice_last_suffix|]. intros S HS [Hl _]. apply slice_last_contains; [lia|done|done].
Qed.

Lemma map_slice_last {A B} (f : A -> B) n l : map f (slice_last n l) = slice_last n (map f l).
Proof. unfold slice_last. destruct (n =? 0); [done|]. rewrite length_map. apply fmap_drop. Qed.

(** Distinct entries keep their order in the map of unique entries. *)
Lemma unique_by_id_nodup entries : NoDup (map entry_id entries) -> map_values (unique_by_id entries) = entries.
Proof.
  intros Hn. unfold unique_by_id.
  assert (forall m : jsmap jstr DurableEntry, (forall e, e ∈ entries -> entry_id e ∉ map_keys m) ->
    map_values (fold_left (fun unique entry =>
      if map_has (entry_id entry) unique then unique else map_set (entry_id entry) entry unique) entries m)
    = map_values m ++ entries) as H; [|rewrite H; [done|set_solver]].
  induction entries as [|e entries IH]; intros m Hm; [by rewrite app_nil_r|].
  apply NoDup_cons in Hn as [Hni Hn]. simpl.
  assert (entry_id e ∉ map_keys m) as Hem by (apply Hm; set_solver).
  pose proof Hem as Hh. apply map_has_false in Hh. rewrite Hh. rewrite map_set_notin by done.
  rewrite IH; [|done|].
  - unfold map_values. by rewrite map_app, <- app_assoc.
  - intros x Hx. unfold map_keys. rewrite map_app, elem_of_app. simpl. rewrite list_elem_of_singleton.
    intros [Hin|Heq]; [by apply (Hm x); [set_solver|]|]. apply Hni. rewrite <- Heq. by apply list_elem_of_fmap_2.
Qed.

Lemma retainDurableEntries_is_window entries : NoDup (map entry_id entries) ->
  window (map sanitized entries) (ret_entries (retainDurableEntries entries options)) /\
  ret_truncated (retainDurableEntries entries options) =
    (len (ret_entries (retainDurableEntries entries options)) <? len entries).
Proof.
  intros Hn. destruct (retainedEntryOptions_range _ _ _ _ Hopts) as [He _].
  pose proof (unique_by_id_nodup entries Hn) as Hu.
  destruct (retainDurableEntries_ok entries _ _ _ _ Hopts) as ([_ _ Ht _] & _). rewrite Hu in Ht. split; [|done].
  unfold retainDurableEntries. rewrite Hopts, Hu, map_slice_last.
  apply window_of_last, retainSanitizedEntries_window. apply slice_last_len. lia.
Qed.

(** Appending one entry to a window gives the window of the longer transcript. *)
Lemma appendRetainedDurableEntry_is_window l W entry :
  window l W -> entry_id entry ∉ map entry_id W ->
  let r := appendRetainedDurableEntry W entry options in
  window (l ++ [sanitized entry]) (ret_entries r) /\ len (ret_entries r) <= len W + 1 /\
  ret_truncated r = (len (ret_entries r) <? len W + 1).
Proof.
  intros Hw Hni r. destruct (retainedEntryOptions_range _ _ _ _ Hopts) as [He _].
  assert (existsb (fun existing => jstr_eqb (entry_id existing) (entry_id entry)) W = false) as Hex.
  { apply not_true_iff_false. intros (x & Hin & Hx)%existsb_exists. apply jstr_eqb_eq in Hx. apply Hni.
    rewrite <- Hx. apply list_elem_of_fmap_2. by apply list_elem_of_In. }
  unfold r, appendRetainedDurableEntry. rewrite Hex, Hopts.
  set (kept := if maxEntries =? 1 then [] else slice_last (maxEntries - 1) W).
  assert (kept `suffix_of` W /\ len kept <= maxEntries - 1 /\
    (forall S, S `suffix_of` W -> len S <= maxEntries - 1 -> S `suffix_of` kept)) as (Hk & Hkl & Hall).
  { unfold kept. destruct (Z.eqb_spec maxEntries 1).
    - split_and!; [apply suffix_nil|rewrite len_nil; lia|]. intros S _ HS. pose proof (len_nonneg S).
      rewrite (len_zero_nil S); [done|lia].
    - split_and!; [apply slice_last_suffix|apply slice_last_len; lia|]. intros. apply slice_last_contains; [lia|done|done]. }
  clearbody kept. destruct (retainSanitizedEntries_ok (kept ++ [sanitized entry]) (len W + 1) maxBytes) as [_ _ Ht (older & Hold & _)].
  split_and!; [|apply (f_equal len) in Hold; apply len_suffix in Hk; pose proof (len_nonneg older);
    autorewrite with omp_len in Hold; lia|exact Ht]. eapply is_window_snoc; [apply transcript_fits_prefix|exact Hw|].
  eapply is_window_restrict; [by apply suffix_snoc| |apply retainSanitizedEntries_window; len_lia].
  intros S HS [Hl _]. destruct (suffix_snoc_inv S W _ HS) as [->|(S0 & -> & HS0)]; [apply suffix_nil|].
  apply suffix_snoc, Hall; [done|]. autorewrite with omp_len in Hl. lia.
Qed.
End Transcript.
