(* ===== verification/ProjectionSanitize.v ===== *)
(** * ProjectionSanitize: values that enter the client projection
    ([packages/client/src/projection-sanitize.ts])

    [safeValue] and [sameSafeValue] recurse with a depth counter in the source; here the fuel
    is the number of levels left, so the depth limits of the source are the fuel itself. *)
From stdpp Require Import base tactics option list numbers strings sets.
From S2P Require Import Prelude JsMap JsString JsValue Wire WireGuards Retention.

(** [/token|secret|password|credential|authorization|endpoint|stack/i.test(name)] *)
Definition unsafe_name (name : jstr) : bool :=
  let n := map fold_case name in
  existsb (fun p => contains p n)
    [js "token"; js "secret"; js "password"; js "credential"; js "authorization"; js "endpoint"; js "stack"].

(** [safeValue(value, depth)] with [levels = 5 - depth]. *)
Fixpoint safe_value (levels : nat) (value : jv) : jv :=
  match levels with
  | O => JUndef
  | S l =>
      match value with
      | JUndef => JUndef
      | JNull => JNull
      | JStr s => JStr (slice_first 8192 s)
      | JBool b => JBool b
      | JNum n => if num_finite n then JNum n else JUndef
      | JArr items => JArr (List.filter defined (map (safe_value l) (take 128 items)))
      | JObj props =>
          JObj (fold_left (fun output kv =>
                  if unsafe_name (fst kv) then output
                  else let safe := safe_value l (snd kv) in
                       if defined safe then obj_assign (fst kv) safe output else output)
                (take 128 props) [])
      end
  end.

Definition safeValue (value : jv) : jv := safe_value 5 value.

(** [/[\u0000-\u001f\u007f]/u] *)
Definition boundedIdentity (value : jv) : option jstr :=
  match value with
  | JStr s =>
      if (len s =? 0) || (len s >? 256) || existsb is_control s then None else Some s
  | _ => None
  end.

(** A session reference is the sanitised JSON object itself. *)
Definition SessionRef : Type := list (jstr * jv).

Definition ref_string (ref : SessionRef) (k : jstr) : jstr :=
  match prop k ref with JStr s => s | _ => [] end.

Definition ref_hostId (ref : SessionRef) : jstr := ref_string ref (js "hostId").
Definition ref_sessionId (ref : SessionRef) : jstr := ref_string ref (js "sessionId").
Definition ref_revision (ref : SessionRef) : jstr := ref_string ref (js "revision").
Definition ref_updatedAt (ref : SessionRef) : jstr := ref_string ref (js "updatedAt").

Definition sanitizeSessionRef (value : jv) : option SessionRef :=
  match safeValue value with
  | JObj safe =>
      let project := match prop (js "project") safe with JObj p => Some p | _ => None end in
      match boundedIdentity (prop (js "hostId") safe), boundedIdentity (prop (js "sessionId") safe),
            project, boundedIdentity (prop (js "projectId") (default [] project)),
            boundedIdentity (prop (js "revision") safe),
            prop (js "title") safe, prop (js "status") safe, prop (js "updatedAt") safe with
      | Some hostId, Some sessionId, Some p, Some projectId, Some revision, JStr title, JStr status, JStr updatedAt =>
          Some (fold_left (fun o kv => obj_define (fst kv) (snd kv) o)
            [(js "hostId", JStr hostId); (js "sessionId", JStr sessionId);
             (js "project", JObj (obj_define (js "projectId") (JStr projectId) p));
             (js "revision", JStr revision); (js "title", JStr title); (js "status", JStr status);
             (js "updatedAt", JStr updatedAt)] safe)
      | _, _, _, _, _, _, _, _ => None
      end
  | _ => None
  end.

(** [Object.is] on values that are not objects; objects compare by identity in the source, and
    the objects compared here are always fresh. *)
Definition same_primitive (left right : jv) : bool :=
  match left, right with
  | JUndef, JUndef | JNull, JNull => true
  | JBool a, JBool b => Bool.eqb a b
  | JNum NaN, JNum NaN => true
  | JNum (Infinity a), JNum (Infinity b) => Bool.eqb a b
  | JNum (Finite a d e), JNum (Finite b d' e') => Bool.eqb a b && (d =? d')%N && (e =? e')
  | JStr a, JStr b => jstr_eqb a b
  | _, _ => false
  end.

(** [sameSafeValue(left, right, depth)] with [levels = 6 - depth]. *)
Fixpoint same_safe_value (levels : nat) (left right : jv) : bool :=
  same_primitive left right ||
  match levels with
  | O => false
  | S l =>
      match left, right with
      | JArr a, JArr b =>
          (len a =? len b) &&
          (fix every (xs ys : list jv) : bool :=
             match xs, ys with
             | x :: xs, y :: ys => same_safe_value l x y && every xs ys
             | _, _ => true
             end) a b
      | JObj a, JObj b =>
          (len a =? len b) &&
          forallb (fun kv => map_has (fst kv) b && same_safe_value l (snd kv) (prop (fst kv) b)) a
      | _, _ => false
      end
  end.

Definition sameSafeValue (left right : jv) : bool := same_safe_value 6 left right.
