(* ===== verification/Preview.v ===== *)
(** * Preview: metadata of browser previews
    ([packages/client/src/projection-preview.ts], [previewKey] of [preview.ts])

    Frame properties whose type the decoder fixes are typed; [authority] and
    [availableActions] are untyped JSON that this code validates itself.  The platform's URL
    parser is a parameter of [previewActivity]. *)
From stdpp Require Import base tactics option list numbers strings sets.
From S2P Require Import Prelude JsMap JsString JsValue Wire WireGuards.

Inductive Freshness := Fresh | CatchingUp | Cached.
Inductive PreviewFreshness := PreviewFresh (f : Freshness) | Stale.

#[export] Instance Freshness_eq_dec : EqDecision Freshness.
Proof. solve_decision. Defined.
#[export] Instance PreviewFreshness_eq_dec : EqDecision PreviewFreshness.
Proof. solve_decision. Defined.

Definition PREVIEW_ACTIONS : list jstr :=
  [js "activate"; js "navigate"; js "back"; js "forward"; js "reload"; js "close"; js "capture"; js "click";
   js "fill"; js "type"; js "press"; js "scroll"; js "select"; js "upload"; js "handoff"].

(** [PreviewCaptureMetadata] *)
Record PreviewCapture := mkCapture {
  captureId : jstr;
  capture_mimeType : jstr;
  capture_size : Z;
  capture_width : Z;
  capture_height : Z;
  capturedAt : Z;
  capture_sha256 : jstr;
}.

Record PreviewAuthority := mkAuthority {
  authority_id : jstr;
  authority_label : jstr;
  authority_kind : jstr;
  requiresExplicitOptIn : bool;
}.

Inductive PreviewFrameType := PreviewLaunch | PreviewState | PreviewNavigation | PreviewCaptured | PreviewErrored.

#[export] Instance PreviewFrameType_eq_dec : EqDecision PreviewFrameType.
Proof. solve_decision. Defined.

(** The five "preview.*" frames; [pf_code] and [pf_message] belong to "preview.error",
    [pf_error] to "preview.state". *)
Record PreviewFrame := mkPreviewFrame {
  pf_type : PreviewFrameType;
  pf_hostId : jstr;
  pf_sessionId : jstr;
  pf_previewId : jstr;
  pf_cursor : Cursor;
  pf_revision : jstr;
  pf_state : jstr;
  pf_url : jstr;
  pf_title : option jstr;
  pf_canGoBack : option bool;
  pf_canGoForward : option bool;
  pf_viewport : option jv;
  pf_capture : option PreviewCapture;
  pf_authority : jv;
  pf_availableActions : jv;
  pf_error : option jstr;
  pf_code : jstr;
  pf_message : jstr;
}.

Record PreviewProjection := mkPreview {
  pv_hostId : jstr;
  pv_sessionId : jstr;
  pv_previewId : jstr;
  pv_state : option jstr;
  pv_url : option jstr;
  pv_revision : jstr;
  pv_cursor : Cursor;
  pv_title : option jstr;
  pv_canGoBack : option bool;
  pv_canGoForward : option bool;
  pv_viewport : option jv;
  pv_capture : option PreviewCapture;
  pv_authority : option PreviewAuthority;
  pv_availableActions : option (list jstr);
  pv_error : option (jstr * jstr);
  pv_freshness : PreviewFreshness;
}.

Record PreviewEvent := mkPreviewEvent {
  pe_type : PreviewFrameType;
  pe_previewId : jstr;
  pe_cursor : Cursor;
  pe_url : option (jstr * jstr * bool);
  pe_timestamp : option Z;
  pe_captureId : option jstr;
  pe_errorCode : option jstr;
}.

(** [`${hostId}\u0000${sessionId}\u0000${previewId}`] *)
Definition previewKey (hostId sessionId previewId : jstr) : jstr :=
  hostId ++ [0%N] ++ sessionId ++ [0%N] ++ previewId.

Inductive cursor_state := Accept | Duplicate | Gap.

Definition previewCursorState (preview : option PreviewProjection) (cursor : Cursor) : cursor_state :=
  match preview with
  | None => Accept
  | Some p =>
      if negb (jstr_eqb (epoch cursor) (epoch (pv_cursor p))) then Gap
      else if seq cursor <=? seq (pv_cursor p) then Duplicate
      else if seq cursor =? seq (pv_cursor p) + 1 then Accept else Gap
  end.

Definition previewAuthority (value : jv) : option PreviewAuthority :=
  match value with
  | JObj o =>
      if negb (map_has (js "id") o && map_has (js "label") o && map_has (js "kind") o && map_has (js "requiresExplicitOptIn") o)
      then None
      else
        match prop (js "id") o, prop (js "label") o, prop (js "kind") o, prop (js "requiresExplicitOptIn") o with
        | JStr id, JStr label, JStr kind, JBool optIn =>
            if (len id =? 0) || (len id >? 128) || (len label >? 256) ||
               (negb (jstr_eqb kind (js "isolated-session")) && negb (jstr_eqb kind (js "authenticated-profile")))
            then None
            else Some (mkAuthority id label kind optIn)
        | _, _, _, _ => None
        end
  | _ => None
  end.

(** The string members of an array that are known actions. *)
Definition known_actions (items : list jv) : list jstr :=
  flat_map (fun v => match v with JStr s => if existsb (jstr_eqb s) PREVIEW_ACTIONS then [s] else [] | _ => [] end) items.

Definition previewActions (value : jv) : option (list jstr) :=
  match value with
  | JArr items =>
      if len items >? len PREVIEW_ACTIONS then None
      else
        let actions := known_actions items in
        if (len actions =? len items) && (len (remove_dups actions) =? len actions) then Some actions else None
  | _ => None
  end.

Definition previewProjection (frame : PreviewFrame) (previous : option PreviewProjection) : PreviewProjection :=
  let authority := previewAuthority (pf_authority frame) in
  let availableActions := previewActions (pf_availableActions frame) in
  match pf_type frame with
  | PreviewErrored =>
      {| pv_hostId := pf_hostId frame; pv_sessionId := pf_sessionId frame; pv_previewId := pf_previewId frame;
         pv_state := Some (js "failed"); pv_revision := pf_revision frame; pv_cursor := pf_cursor frame;
         pv_url := previous ≫= pv_url; pv_title := previous ≫= pv_title;
         pv_canGoBack := previous ≫= pv_canGoBack; pv_canGoForward := previous ≫= pv_canGoForward;
         pv_viewport := previous ≫= pv_viewport; pv_capture := previous ≫= pv_capture;
         pv_authority := previous ≫= pv_authority; pv_availableActions := previous ≫= pv_availableActions;
         pv_error := Some (pf_code frame, pf_message frame); pv_freshness := PreviewFresh Fresh |}
  | _ =>
      {| pv_hostId := pf_hostId frame; pv_sessionId := pf_sessionId frame; pv_previewId := pf_previewId frame;
         pv_state := Some (pf_state frame); pv_url := Some (pf_url frame); pv_revision := pf_revision frame;
         pv_cursor := pf_cursor frame; pv_title := pf_title frame;
         pv_canGoBack := pf_canGoBack frame; pv_canGoForward := pf_canGoForward frame;
         pv_viewport := pf_viewport frame; pv_capture := pf_capture frame;
         pv_authority := authority; pv_availableActions := availableActions;
         pv_error := match pf_type frame, pf_error frame with
                     | PreviewState, Some e => Some (js "preview_state", e)
                     | _, _ => None
                     end;
         pv_freshness := PreviewFresh Fresh |}
  end.

(** [new URL(url)]: the origin, pathname and search of a valid URL. *)
Definition url_parser : Type := jstr -> option (jstr * jstr * jstr).

Definition previewActivity (parse_url : url_parser) (frame : PreviewFrame) (preview : PreviewProjection) : option PreviewEvent :=
  match pf_type frame with
  | PreviewState => None
  | type =>
      let url :=
        match pv_url preview with
        | Some u =>
            match parse_url u with
            | Some (origin, pathname, search) =>
                Some (slice_first 512 origin, slice_first 1024 pathname, 0 <? len search)
            | None => None
            end
        | None => None
        end in
      Some (mkPreviewEvent type (pv_previewId preview) (pv_cursor preview) url
              (capturedAt <$> pv_capture preview) (captureId <$> pv_capture preview) (fst <$> pv_error preview))
  end.

(** [appendBounded] of [projection-preview.ts] and [projection-resource-reducers.ts] *)
Definition appendBounded {A} (items : list A) (item : A) (max : Z) : list A :=
  if max <=? len items then drop (Z.to_nat (len items - max + 1)) items ++ [item] else items ++ [item].

Definition appendPreviewActivity (events : list PreviewEvent) (e : PreviewEvent) (max : Z) : list PreviewEvent :=
  if existsb (fun previous => jstr_eqb (pe_previewId previous) (pe_previewId e) &&
                jstr_eqb (epoch (pe_cursor previous)) (epoch (pe_cursor e)) &&
                (seq (pe_cursor previous) =? seq (pe_cursor e))) events
  then events
  else appendBounded events e max.

Lemma appendBounded_bounded {A} (items : list A) item max : 1 <= max -> len (appendBounded items item max) <= max.
Proof.
  intros Hm. unfold appendBounded. destruct (Z.leb_spec max (len items)).
  - rewrite len_app. unfold len in *. rewrite length_drop. simpl. lia.
  - rewrite len_app. unfold len in *. simpl. lia.
Qed.
