(* ===== verification/ProjectionOptions.v ===== *)
(** * ProjectionOptions: the limits of the client projection
    ([packages/client/src/projection-options.ts] and the constants of
    [projection-contract.ts]).  Limits are integers; an absent option is [None]. *)
From stdpp Require Import base tactics option list numbers strings sets.
From S2P Require Import Prelude JsMap JsString JsValue Wire Retention.

Definition MAX_INDEXED_SESSION_REFS : Z := 1000.
Definition MAX_INDEXED_WORKSPACES : Z := 1000.
Definition MAX_RETAINED_TERMINALS : Z := 64.
Definition MAX_RETAINED_TERMINAL_BYTES : Z := 1024 * 1024.
Definition MAX_RETAINED_TERMINAL_BYTES_PER_TERMINAL : Z := 256 * 1024.
Definition MAX_RETAINED_FILES : Z := 256.
Definition MAX_RETAINED_FILES_BYTES : Z := 4 * 1024 * 1024.
Definition MAX_RETAINED_FILE_BYTES : Z := 768 * 1024.
Definition MAX_RETAINED_PREVIEWS : Z := 32.
Definition MAX_RETAINED_PREVIEW_EVENTS : Z := 128.

(** [Required<ProjectionOptions>] *)
Record ProjectionOptions := mkOptions {
  maxWarmSessions : Z;
  maxIndexedSessions : Z;
  maxWorkspaces : Z;
  maxEntries : Z;
  maxTranscriptBytes : Z;
  maxEntryBytes : Z;
  maxEvents : Z;
  maxEventsBytes : Z;
  maxEventBytes : Z;
  maxAudit : Z;
  maxAgentTranscripts : Z;
  maxAgentTranscriptEntries : Z;
  maxAgentTranscriptBytes : Z;
  maxTerminals : Z;
  maxTerminalBytes : Z;
  maxTerminalBytesPerTerminal : Z;
  maxFiles : Z;
  maxFilesBytes : Z;
  maxFileBytes : Z;
  maxPreviews : Z;
  maxPreviewEvents : Z;
}.

(** [ProjectionOptions], every property optional. *)
Record PartialOptions := mkPartial {
  opt_maxWarmSessions : option Z;
  opt_maxIndexedSessions : option Z;
  opt_maxWorkspaces : option Z;
  opt_maxTranscriptEntries : option Z;
  opt_maxTranscriptBytes : option Z;
  opt_maxTranscriptEntryBytes : option Z;
  opt_maxEvents : option Z;
  opt_maxEventsBytes : option Z;
  opt_maxEventBytes : option Z;
  opt_maxAudit : option Z;
  opt_maxAgentTranscripts : option Z;
  opt_maxAgentTranscriptEntries : option Z;
  opt_maxAgentTranscriptBytes : option Z;
  opt_maxTerminals : option Z;
  opt_maxTerminalBytes : option Z;
  opt_maxTerminalBytesPerTerminal : option Z;
  opt_maxFiles : option Z;
  opt_maxFilesBytes : option Z;
  opt_maxFileBytes : option Z;
  opt_maxPreviews : option Z;
  opt_maxPreviewEvents : option Z;
}.

Definition NO_OPTIONS : PartialOptions :=
  mkPartial None None None None None None None None None None None None None None None None None
    None None None None.

Definition DEFAULT_OPTIONS : ProjectionOptions := {|
  maxWarmSessions := 8;
  maxIndexedSessions := MAX_INDEXED_SESSION_REFS;
  maxWorkspaces := MAX_INDEXED_WORKSPACES;
  maxEntries := MAX_RETAINED_TRANSCRIPT_ENTRIES;
  maxTranscriptBytes := MAX_RETAINED_TRANSCRIPT_BYTES;
  maxEntryBytes := MAX_RETAINED_TRANSCRIPT_ENTRY_BYTES;
  maxEvents := MAX_RETAINED_SESSION_EVENTS;
  maxEventsBytes := MAX_RETAINED_SESSION_EVENTS_BYTES;
  maxEventBytes := MAX_RETAINED_SESSION_EVENT_BYTES;
  maxAudit := 256;
  maxAgentTranscripts := MAX_RETAINED_AGENT_TRANSCRIPTS;
  maxAgentTranscriptEntries := MAX_RETAINED_AGENT_TRANSCRIPT_ENTRIES;
  maxAgentTranscriptBytes := MAX_RETAINED_AGENT_TRANSCRIPT_BYTES;
  maxTerminals := MAX_RETAINED_TERMINALS;
  maxTerminalBytes := MAX_RETAINED_TERMINAL_BYTES;
  maxTerminalBytesPerTerminal := MAX_RETAINED_TERMINAL_BYTES_PER_TERMINAL;
  maxFiles := MAX_RETAINED_FILES;
  maxFilesBytes := MAX_RETAINED_FILES_BYTES;
  maxFileBytes := MAX_RETAINED_FILE_BYTES;
  maxPreviews := MAX_RETAINED_PREVIEWS;
  maxPreviewEvents := MAX_RETAINED_PREVIEW_EVENTS;
|}.

Definition positiveOption (value : option Z) (fallback : Z) : Z :=
  match value with
  | Some v => if (Z.abs v <=? MAX_SAFE_INTEGER) && (0 <? v) then v else fallback
  | None => fallback
  end.

Definition resolveProjectionOptions (options : PartialOptions) : ProjectionOptions :=
  let d := DEFAULT_OPTIONS in
  {|
    maxWarmSessions := default (maxWarmSessions d) (opt_maxWarmSessions options);
    maxIndexedSessions := default (maxIndexedSessions d) (opt_maxIndexedSessions options);
    maxWorkspaces := default (maxWorkspaces d) (opt_maxWorkspaces options);
    maxEntries := default (maxEntries d) (opt_maxTranscriptEntries options);
    maxTranscriptBytes := default (maxTranscriptBytes d) (opt_maxTranscriptBytes options);
    maxEntryBytes := default (maxEntryBytes d) (opt_maxTranscriptEntryBytes options);
    maxEvents := default (maxEvents d) (opt_maxEvents options);
    maxEventsBytes := default (maxEventsBytes d) (opt_maxEventsBytes options);
    maxEventBytes := default (maxEventBytes d) (opt_maxEventBytes options);
    maxAudit := default (maxAudit d) (opt_maxAudit options);
    maxAgentTranscripts := default (maxAgentTranscripts d) (opt_maxAgentTranscripts options);
    maxAgentTranscriptEntries :=
      default (maxAgentTranscriptEntries d) (opt_maxAgentTranscriptEntries options);
    maxAgentTranscriptBytes :=
      default (maxAgentTranscriptBytes d) (opt_maxAgentTranscriptBytes options);
    maxTerminals := positiveOption (opt_maxTerminals options) (maxTerminals d);
    maxTerminalBytes := positiveOption (opt_maxTerminalBytes options) (maxTerminalBytes d);
    maxTerminalBytesPerTerminal :=
      positiveOption (opt_maxTerminalBytesPerTerminal options) (maxTerminalBytesPerTerminal d);
    maxFiles := positiveOption (opt_maxFiles options) (maxFiles d);
    maxFilesBytes := positiveOption (opt_maxFilesBytes options) (maxFilesBytes d);
    maxFileBytes := positiveOption (opt_maxFileBytes options) (maxFileBytes d);
    maxPreviews := positiveOption (opt_maxPreviews options) (maxPreviews d);
    maxPreviewEvents := positiveOption (opt_maxPreviewEvents options) (maxPreviewEvents d);
  |}.

Lemma positiveOption_pos value fallback : 0 < fallback -> 0 < positiveOption value fallback.
Proof. intros. unfold positiveOption. destruct value; [|done]. destruct (_ && _) eqn:E; bool_hyps; lia. Qed.
