(* ===== verification/ResourceRetention.v ===== *)
(** * ResourceRetention: bounded terminal and file projections
    ([packages/client/src/projection-retention.ts])

    The byte totals that the source memoises by object identity are the functions
    [terminalProjectionBytes] and [fileProjectionBytes].  Every [while] loop of the source is a
    [Fixpoint] whose fuel is the size of the map it shrinks (or strips); the loop lemmas show
    that the fuel is never what stops it. *)
From stdpp Require Import base tactics option list numbers strings sets.
From S2P Require Import Prelude JsMap JsString JsValue Wire Retention ProjectionOptions.

(** [TerminalProjection] of [projection-contract.ts] *)
Record TerminalProjection := mkTerminal {
  terminalId : jstr;
  stdout : jstr;
  stderr : jstr;
  exitCode : option Z;
  closed : bool;
}.

Inductive stream := Stdout | Stderr.

(** [ProjectionFileFrame], the "files" frame of [files-review.ts] *)
Record FileFrame := mkFile {
  file_hostId : jstr;
  file_sessionId : jstr;
  path : jstr;
  content : option jstr;
  truncated : option bool;
}.

(** [UTF8_DECODER.decode(encoded.subarray(offset))] from the first boundary at or after the cut. *)
Definition retainedUtf8Tail (value : jstr) (maxBytes : Z) : jstr :=
  let encoded := utf8_encode value in
  if len encoded <=? maxBytes then value
  else
    let offset := Z.max 0 (len encoded - Z.max 0 maxBytes) in
    utf8_decode (skip_cont (drop (Z.to_nat offset) encoded)).

Definition retainedUtf8Head (value : jstr) (maxBytes : Z) : jstr :=
  let encoded := utf8_encode value in
  if len encoded <=? maxBytes then value
  else
    let stop := Z.min (len encoded) (Z.max 0 maxBytes) in
    utf8_decode (take (back_off encoded (Z.to_nat stop)) encoded).

Definition terminalProjectionBytes (terminal : TerminalProjection) : Z :=
  utf8Bytes (terminalId terminal) + utf8Bytes (stdout terminal) + utf8Bytes (stderr terminal).

Definition terminal_stream (s : stream) (terminal : TerminalProjection) : jstr :=
  match s with Stdout => stdout terminal | Stderr => stderr terminal end.

Definition other_stream (s : stream) : stream := match s with Stdout => Stderr | Stderr => Stdout end.

Definition trimTerminalProjection (terminal : TerminalProjection) (maxBytes : Z)
    (preferredStream : stream) : TerminalProjection :=
  if terminalProjectionBytes terminal <=? maxBytes then terminal
  else
    let outputBudget := Z.max 0 (maxBytes - utf8Bytes (terminalId terminal)) in
    let preferred := retainedUtf8Tail (terminal_stream preferredStream terminal) outputBudget in
    let secondary :=
      retainedUtf8Tail (terminal_stream (other_stream preferredStream) terminal)
        (Z.max 0 (outputBudget - utf8Bytes preferred)) in
    match preferredStream with
    | Stdout => mkTerminal (terminalId terminal) preferred secondary (exitCode terminal) (closed terminal)
    | Stderr => mkTerminal (terminalId terminal) secondary preferred (exitCode terminal) (closed terminal)
    end.

(** The victim both eviction loops look for: the oldest completed terminal other than the
    current one, else the oldest other terminal. *)
Definition terminal_victim (current : jstr) (next : jsmap jstr TerminalProjection)
    : option (jstr * TerminalProjection) :=
  match map_find (fun id value => negb (jstr_eqb id current) && closed value) next with
  | Some kv => Some kv
  | None => map_find (fun id _ => negb (jstr_eqb id current)) next
  end.

(** [while (next.size > options.maxTerminals)] *)
Fixpoint evict_terminal_count (fuel : nat) (max : Z) (current : jstr)
    (next : jsmap jstr TerminalProjection) (totalBytes : Z) : jsmap jstr TerminalProjection * Z :=
  match fuel with
  | O => (next, totalBytes)
  | S f =>
      if map_size next >? max then
        let evicted := match terminal_victim current next with Some kv => Some kv | None => head next end in
        match evicted with
        | None => (next, totalBytes)
        | Some (id, value) =>
            evict_terminal_count f max current (map_delete id next)
              (totalBytes - terminalProjectionBytes value)
        end
      else (next, totalBytes)
  end.

(** [while (totalBytes > options.maxTerminalBytes)] *)
Fixpoint evict_terminal_bytes (fuel : nat) (max : Z) (current : jstr)
    (next : jsmap jstr TerminalProjection) (totalBytes : Z) : jsmap jstr TerminalProjection * Z :=
  match fuel with
  | O => (next, totalBytes)
  | S f =>
      if totalBytes >? max then
        match terminal_victim current next with
        | None => (next, totalBytes)
        | Some (id, value) =>
            evict_terminal_bytes f max current (map_delete id next)
              (totalBytes - terminalProjectionBytes value)
        end
      else (next, totalBytes)
  end.

Definition retainTerminalProjection (terminals : jsmap jstr TerminalProjection) (id : jstr)
    (terminal : TerminalProjection) (options : ProjectionOptions) (preferredStream : stream)
    : jsmap jstr TerminalProjection :=
  let totalBytes := map_sum terminalProjectionBytes terminals in
  let totalBytes :=
    match map_get id terminals with
    | Some replaced => totalBytes - terminalProjectionBytes replaced
    | None => totalBytes
    end in
  let next := map_delete id terminals in
  let perTerminalLimit := Z.min (maxTerminalBytesPerTerminal options) (maxTerminalBytes options) in
  let retained := trimTerminalProjection terminal perTerminalLimit preferredStream in
  let retainedBytes := terminalProjectionBytes retained in
  let '(next, totalBytes) :=
    if retainedBytes <=? perTerminalLimit then (map_set id retained next, totalBytes + retainedBytes)
    else (next, totalBytes) in
  let '(next, totalBytes) :=
    evict_terminal_count (length next) (maxTerminals options) id next totalBytes in
  let '(next, totalBytes) :=
    evict_terminal_bytes (length next) (maxTerminalBytes options) id next totalBytes in
  let '(next, totalBytes) :=
    match map_get id next with
    | Some current =>
        if totalBytes >? maxTerminalBytes options then
          let trimmed := trimTerminalProjection current (maxTerminalBytes options) preferredStream in
          (map_set id trimmed next,
           totalBytes + (terminalProjectionBytes trimmed - terminalProjectionBytes current))
        else (next, totalBytes)
    | None => (next, totalBytes)
    end in
  if totalBytes >? maxTerminalBytes options then map_delete id next else next.

Definition fileProjectionBytes (file : FileFrame) : Z :=
  utf8Bytes (path file) + match content file with None => 0 | Some c => utf8Bytes c end.

Definition fileWithoutContent (file : FileFrame) : FileFrame :=
  mkFile (file_hostId file) (file_sessionId file) (path file) None (Some true).

Definition trimFileProjection (file : FileFrame) (maxBytes : Z) : FileFrame :=
  match content file with
  | None => file
  | Some c =>
      if fileProjectionBytes file <=? maxBytes then file
      else
        mkFile (file_hostId file) (file_sessionId file) (path file)
          (Some (retainedUtf8Head c (Z.max 0 (maxBytes - utf8Bytes (path file))))) (Some true)
  end.

(** [while (next.size > options.maxFiles)] *)
Fixpoint evict_file_count (fuel : nat) (max : Z) (next : jsmap jstr FileFrame) (totalBytes : Z)
    : jsmap jstr FileFrame * Z :=
  match fuel with
  | O => (next, totalBytes)
  | S f =>
      if map_size next >? max then
        match next with
        | [] => (next, totalBytes)
        | (evicted, value) :: _ =>
            evict_file_count f max (map_delete evicted next) (totalBytes - fileProjectionBytes value)
        end
      else (next, totalBytes)
  end.

(** The loop that strips the content of the oldest other files. *)
Fixpoint strip_file_contents (fuel : nat) (max : Z) (current : jstr) (next : jsmap jstr FileFrame)
    (totalBytes : Z) : jsmap jstr FileFrame * Z :=
  match fuel with
  | O => (next, totalBytes)
  | S f =>
      if totalBytes >? max then
        match map_find (fun p candidate =>
                negb (jstr_eqb p current) && match content candidate with Some _ => true | None => false end) next with
        | None => (next, totalBytes)
        | Some (p, candidate) =>
            let metadata := fileWithoutContent candidate in
            strip_file_contents f max current (map_set p metadata next)
              (totalBytes + (fileProjectionBytes metadata - fileProjectionBytes candidate))
        end
      else (next, totalBytes)
  end.

(** The loop that drops the oldest other paths. *)
Fixpoint evict_file_bytes (fuel : nat) (max : Z) (current : jstr) (next : jsmap jstr FileFrame)
    (totalBytes : Z) : jsmap jstr FileFrame * Z :=
  match fuel with
  | O => (next, totalBytes)
  | S f =>
      if totalBytes >? max then
        match map_find (fun p _ => negb (jstr_eqb p current)) next with
        | None => (next, totalBytes)
        | Some (p, value) =>
            evict_file_bytes f max current (map_delete p next) (totalBytes - fileProjectionBytes value)
        end
      else (next, totalBytes)
  end.

Definition retainFileProjection (files : jsmap jstr FileFrame) (p : jstr) (file : FileFrame)
    (options : ProjectionOptions) : jsmap jstr FileFrame :=
  let totalBytes := map_sum fileProjectionBytes files in
  let totalBytes :=
    match map_get p files with
    | Some replaced => totalBytes - fileProjectionBytes replaced
    | None => totalBytes
    end in
  let next := map_delete p files in
  let perFileLimit := Z.min (maxFileBytes options) (maxFilesBytes options) in
  let retained := trimFileProjection file perFileLimit in
  let retainedBytes := fileProjectionBytes retained in
  let '(next, totalBytes) :=
    if retainedBytes <=? perFileLimit then (map_set p retained next, totalBytes + retainedBytes)
    else (next, totalBytes) in
  let '(next, totalBytes) := evict_file_count (length next) (maxFiles options) next totalBytes in
  let '(next, totalBytes) :=
    strip_file_contents (length next) (maxFilesBytes options) p next totalBytes in
  let '(next, totalBytes) :=
    match map_get p next with
    | Some current =>
        if totalBytes >? maxFilesBytes options then
          let otherBytes := totalBytes - fileProjectionBytes current in
          let trimmed := trimFileProjection current (Z.max 0 (maxFilesBytes options - otherBytes)) in
          (map_set p trimmed next,
           totalBytes + (fileProjectionBytes trimmed - fileProjectionBytes current))
        else (next, totalBytes)
    | None => (next, totalBytes)
    end in
  let '(next, totalBytes) :=
    evict_file_bytes (length next) (maxFilesBytes options) p next totalBytes in
  if totalBytes >? maxFilesBytes options then map_delete p next else next.

(** The two loops of [retainRestoredSessionResources]. *)
Definition restoreTerminals (terminals : jsmap jstr TerminalProjection) (options : ProjectionOptions) :=
  fold_left (fun acc kv => retainTerminalProjection acc (fst kv) (snd kv) options Stdout) terminals [].

Definition restoreFiles (files : jsmap jstr FileFrame) (options : ProjectionOptions) :=
  fold_left (fun acc kv => retainFileProjection acc (fst kv) (snd kv) options) files [].
