(* ===== verification/ResourceRetentionSpec.v ===== *)
(** * ResourceRetentionSpec: what the bounded terminal and file projections guarantee

    Byte-exact truncation at character boundaries, exact running totals, and the budgets of
    [retainTerminalProjection] and [retainFileProjection]. *)
From stdpp Require Import base tactics option list numbers strings sets.
From S2P Require Import Prelude JsMap JsString JsValue Wire Retention ProjectionOptions ResourceRetention.

(** ** Truncation at character boundaries *)

Lemma decode_code_points q : Forall scalar q -> code_points (utf8_decode (flat_map utf8_cp q)) = strip_bom q.
Proof.
  intros H. unfold utf8_decode. rewrite dec_cps by done.
  apply code_points_of. eapply Forall_suffix; [apply strip_bom_suffix|done].
Qed.

Lemma utf8Bytes_code_points s : utf8Bytes s = len (flat_map utf8_cp (code_points s)).
Proof. done. Qed.

Lemma flat_map_suffix_len q cps :
  q `suffix_of` cps -> len (flat_map utf8_cp q) <= len (flat_map utf8_cp cps).
Proof. intros [k ->]. rewrite flat_map_app, len_app. pose proof (len_nonneg (flat_map utf8_cp k)). lia. Qed.

Lemma decode_bytes q : Forall scalar q ->
  utf8Bytes (utf8_decode (flat_map utf8_cp q)) <= len (flat_map utf8_cp q).
Proof.
  intros H. rewrite utf8Bytes_code_points, decode_code_points by done.
  apply flat_map_suffix_len, strip_bom_suffix.
Qed.

(** The suffix of characters that the tail keeps. *)
Lemma tail_characters value maxBytes :
  maxBytes < utf8Bytes value ->
  exists q, q `suffix_of` code_points value /\ len (flat_map utf8_cp q) <= Z.max 0 maxBytes /\
    retainedUtf8Tail value maxBytes = utf8_decode (flat_map utf8_cp q).
Proof.
  intros Hlt. unfold retainedUtf8Tail. unfold utf8Bytes in Hlt.
  destruct (Z.leb_spec (len (utf8_encode value)) maxBytes) as [|_]; [lia|].
  set (k := Z.to_nat _). assert (len (utf8_encode value) - Z.max 0 maxBytes <= Z.of_nat k) as Hk by lia.
  clearbody k. destruct (skip_cont_boundary (utf8_encode value) k) as (k' & Hle & -> & Hb).
  destruct (decide (k' <= length (utf8_encode value))%nat) as [Hin|Hout].
  - destruct Hb as [Hb|]; [|lia].
    destruct (encode_suffix (code_points value) k' (code_points_scalar value) Hb Hin) as (q & Hq & E).
    exists q. unfold utf8_encode in *. rewrite <- E. split_and!; [done| |done].
    unfold len in *. rewrite length_drop. lia.
  - exists []. rewrite drop_ge by lia. split_and!; [by exists (code_points value); rewrite app_nil_r|simpl; rewrite len_nil; lia|done].
Qed.

Lemma head_characters value maxBytes :
  maxBytes < utf8Bytes value ->
  exists p, p `prefix_of` code_points value /\ len (flat_map utf8_cp p) <= Z.max 0 maxBytes /\
    retainedUtf8Head value maxBytes = utf8_decode (flat_map utf8_cp p).
Proof.
  intros Hlt. unfold retainedUtf8Head. unfold utf8Bytes in Hlt.
  destruct (Z.leb_spec (len (utf8_encode value)) maxBytes) as [|_]; [lia|].
  set (e := Z.to_nat _). assert (Z.of_nat e <= Z.max 0 maxBytes) as Hm by lia.
  assert (e <= length (utf8_encode value))%nat as He by (unfold len in *; lia). clearbody e.
  destruct (back_off_spec (utf8_encode value) e He) as [Hle Hb].
  assert (len (take (back_off (utf8_encode value) e) (utf8_encode value)) <= Z.max 0 maxBytes) as Hlen
    by (unfold len; rewrite length_take; lia).
  destruct Hb as [Hz|Hb].
  - rewrite Hz. exists []. split_and!; [by exists (code_points value)|simpl; rewrite len_nil; lia|done].
  - destruct (encode_prefix (code_points value) _ (code_points_scalar value) Hb ltac:(unfold utf8_encode in *; lia))
      as (p & Hp & E).
    exists p. unfold utf8_encode in *. rewrite <- E. by split_and!.
Qed.

Lemma scalar_suffix q value : q `suffix_of` code_points value -> Forall scalar q.
Proof. intros. eapply Forall_suffix; [done|apply code_points_scalar]. Qed.

Lemma scalar_prefix p value : p `prefix_of` code_points value -> Forall scalar p.
Proof. intros [k Hk]. pose proof (code_points_scalar value) as H. rewrite Hk in H. by apply Forall_app in H as [? _]. Qed.

Lemma retainedUtf8Tail_bytes value maxBytes : utf8Bytes (retainedUtf8Tail value maxBytes) <= Z.max 0 maxBytes.
Proof.
  destruct (Z.le_gt_cases (utf8Bytes value) maxBytes) as [Hle|Hlt].
  - unfold retainedUtf8Tail. unfold utf8Bytes in Hle. rewrite (proj2 (Z.leb_le _ _) Hle). unfold utf8Bytes. lia.
  - destruct (tail_characters value maxBytes Hlt) as (q & Hq & Hl & ->).
    pose proof (decode_bytes q (scalar_suffix _ _ Hq)). lia.
Qed.

Lemma retainedUtf8Head_bytes value maxBytes : utf8Bytes (retainedUtf8Head value maxBytes) <= Z.max 0 maxBytes.
Proof.
  destruct (Z.le_gt_cases (utf8Bytes value) maxBytes) as [Hle|Hlt].
  - unfold retainedUtf8Head. unfold utf8Bytes in Hle. rewrite (proj2 (Z.leb_le _ _) Hle). unfold utf8Bytes. lia.
  - destruct (head_characters value maxBytes Hlt) as (q & Hq & Hl & ->).
    pose proof (decode_bytes q (scalar_prefix _ _ Hq)). lia.
Qed.

(** [retainedUtf8Tail] and [retainedUtf8Head] keep whole characters.  Whatever the budget,
    the tail is a suffix of the characters (code points) of the text and never exceeds the
    budget in UTF-8 bytes; the head is a prefix of them, less a leading byte-order mark that
    [TextDecoder] strips, within the same bound.  Text that fits is returned unchanged. *)
Theorem utf8_truncation_keeps_characters value maxBytes :
  (utf8Bytes value <= maxBytes -> retainedUtf8Tail value maxBytes = value /\ retainedUtf8Head value maxBytes = value) /\
  utf8Bytes (retainedUtf8Tail value maxBytes) <= Z.max 0 maxBytes /\
  utf8Bytes (retainedUtf8Head value maxBytes) <= Z.max 0 maxBytes /\
  code_points (retainedUtf8Tail value maxBytes) `suffix_of` code_points value /\
  exists p, p `prefix_of` code_points value /\
    (code_points (retainedUtf8Head value maxBytes) = p \/
     code_points (retainedUtf8Head value maxBytes) = strip_bom p).
Proof.
  split; [|split; [apply retainedUtf8Tail_bytes|split; [apply retainedUtf8Head_bytes|]]].
  - intros Hle. unfold retainedUtf8Tail, retainedUtf8Head. unfold utf8Bytes in Hle.
    by rewrite (proj2 (Z.leb_le _ _) Hle).
  - destruct (Z.le_gt_cases (utf8Bytes value) maxBytes) as [Hle|Hlt].
    + unfold retainedUtf8Tail, retainedUtf8Head. unfold utf8Bytes in Hle.
      rewrite (proj2 (Z.leb_le _ _) Hle). eauto.
    + destruct (tail_characters value maxBytes Hlt) as (q & Hq & _ & ->).
      destruct (head_characters value maxBytes Hlt) as (p & Hp & _ & ->).
      rewrite !decode_code_points by eauto using scalar_suffix, scalar_prefix.
      split; [|eauto]. etrans; [apply strip_bom_suffix|done].
Qed.

(** ** Eviction loops

    [evicted_from w current keep next total next' total']: the loop went from [next] to [next'] by
    deleting entries only, kept the running total exact and, when [keep] holds, kept [current]. *)
Section Eviction.
Context {V : Type} (w : V -> Z).
Implicit Types (next : jsmap jstr V).

Record evicted_from (current : jstr) (keep : Prop) next (total : Z) next' (total' : Z) : Prop := {
  ev_wf : map_wf next';
  ev_total : total' = map_sum w next';
  ev_size : map_size next' <= map_size next;
  ev_sub : forall k v, map_get k next' = Some v -> map_get k next = Some v;
  ev_keep : keep -> map_get current next' = map_get current next;
}.

Lemma evicted_refl current keep next total :
  map_wf next -> total = map_sum w next -> evicted_from current keep next total next total.
Proof. intros. by constructor. Qed.

Lemma evicted_step current keep next total k v next' total' :
  map_wf next -> total = map_sum w next -> map_get k next = Some v -> (keep -> k ≠ current) ->
  (map_wf (map_delete k next) -> total - w v = map_sum w (map_delete k next) ->
   map_size (map_delete k next) = map_size next - 1 ->
   evicted_from current keep (map_delete k next) (total - w v) next' total') ->
  evicted_from current keep next total next' total'.
Proof.
  intros Hwf -> Hg Hne IH.
  assert (map_size (map_delete k next) = map_size next - 1) as Hs.
  { rewrite map_size_delete by done. unfold map_has. by rewrite Hg. }
  destruct IH as [H1 H2 H3 H4 H5]; [by apply map_wf_delete|by rewrite (map_sum_delete w k v)|done|].
  constructor; [done|done|lia| |].
  - intros a b Hab. apply H4 in Hab. rewrite map_get_delete in Hab. by destruct (decide (a = k)).
  - intros Hk. rewrite (H5 Hk). apply map_get_delete_ne. intros ->. by apply (Hne Hk).
Qed.

Lemma map_find_get P next k v : map_wf next -> map_find P next = Some (k, v) -> map_get k next = Some v /\ P k v = true.
Proof. intros Hwf [Hin HP]%map_find_some. split; [by apply map_in_get|done]. Qed.

(** A map whose only key is [current]. *)
Definition only_key (current : jstr) next : Prop := forall k, k ∈ map_keys next -> k = current.

Lemma only_key_sum current next : map_wf next -> only_key current next ->
  map_sum w next = match map_get current next with Some v => w v | None => 0 end.
Proof.
  intros Hwf Ho. destruct next as [|[a b] next]; [done|].
  assert (a = current) as -> by (apply Ho; simpl; set_solver).
  apply map_wf_cons_inv in Hwf as [Hn Hwf].
  assert (next = []) as ->.
  { destruct next as [|[c d] next]; [done|]. exfalso. apply Hn.
    rewrite <- (Ho c) by (simpl; set_solver). simpl. set_solver. }
  simpl. rewrite decide_True by done. unfold map_sum. simpl. lia.
Qed.

Lemma find_none_only_key current next :
  map_find (fun k (_ : V) => negb (jstr_eqb k current)) next = None -> only_key current next.
Proof.
  intros Hn k Hk. apply map_get_keys in Hk as [v Hv]. apply map_get_some_in in Hv.
  apply (map_find_none _ _ Hn) in Hv. bool_hyps. by apply jstr_eqb_eq.
Qed.
End Eviction.

Lemma length_size {K V} `{EqDecision K} (m : jsmap K V) : Z.of_nat (length m) = map_size m.
Proof. done. Qed.

Lemma terminal_victim_some current next id value :
  map_wf next -> terminal_victim current next = Some (id, value) ->
  map_get id next = Some value /\ id ≠ current.
Proof.
  intros Hwf. unfold terminal_victim. destruct (map_find _ next) as [[a b]|] eqn:E; intros H.
  - injection H as -> ->. apply map_find_get in E as [Hg HP]; [|done]. bool_hyps. by apply jstr_eqb_neq in H.
  - apply map_find_get in H as [Hg HP]; [|done]. bool_hyps. by apply jstr_eqb_neq in HP.
Qed.

Lemma terminal_victim_none current next : terminal_victim current next = None -> only_key current next.
Proof. unfold terminal_victim. destruct (map_find _ next) as [[]|]; [done|]. apply find_none_only_key. Qed.

Lemma evict_terminal_count_spec fuel max current next total next' total' :
  map_wf next -> total = map_sum terminalProjectionBytes next -> map_size next <= Z.of_nat fuel -> 0 <= max ->
  evict_terminal_count fuel max current next total = (next', total') ->
  evicted_from terminalProjectionBytes current (1 <= max) next total next' total' /\ map_size next' <= max.
Proof.
  revert next total. induction fuel as [|f IH]; intros next total Hwf Ht Hf Hm; cbn [evict_terminal_count].
  { intros [= <- <-]. split; [by apply evicted_refl|lia]. }
  destruct (map_size next >? max) eqn:E; bool_hyps.
  2: { intros [= <- <-]. split; [by apply evicted_refl|lia]. }
  destruct (match terminal_victim current next with Some kv => Some kv | None => head next end) as [[id value]|] eqn:Ev.
  2: { destruct (terminal_victim current next); [done|]. destruct next; [|done].
       unfold map_size in *. rewrite len_nil in *. lia. }
  assert (map_get id next = Some value /\ (1 <= max -> id ≠ current)) as [Hg Hne].
  { destruct (terminal_victim current next) as [[a b]|] eqn:Evi.
    - injection Ev as -> ->. apply terminal_victim_some in Evi; [|done]. tauto.
    - destruct next as [|[a b] rest]; [done|]. injection Ev as -> ->.
      split; [simpl; by rewrite decide_True|]. intros H1 ->. apply terminal_victim_none in Evi.
      apply (map_wf_cons_inv _ _ _) in Hwf as [Hn Hwf]. destruct rest as [|[c d] rest].
      + unfold map_size, len in E. simpl in E. lia.
      + apply Hn. rewrite <- (Evi c) by (simpl; set_solver). simpl. set_solver. }
  intros Hr. assert (map_size (map_delete id next) = map_size next - 1) as Hs.
  { rewrite map_size_delete by done. unfold map_has. by rewrite Hg. }
  apply IH in Hr as [IH1 IH2];
    [|by apply map_wf_delete|rewrite Ht; symmetry; by apply map_sum_delete|lia|done].
  split; [|done]. eapply evicted_step; eauto.
Qed.

Lemma evict_terminal_bytes_spec fuel max current next total next' total' :
  map_wf next -> total = map_sum terminalProjectionBytes next -> map_size next <= Z.of_nat fuel ->
  evict_terminal_bytes fuel max current next total = (next', total') ->
  evicted_from terminalProjectionBytes current True next total next' total' /\
  (total' <= max \/ only_key current next').
Proof.
  revert next total. induction fuel as [|f IH]; intros next total Hwf Ht Hf; cbn [evict_terminal_bytes].
  { intros [= <- <-]. split; [by apply evicted_refl|]. right. unfold map_size, len in Hf.
    destruct next; [intros k Hk; simpl in Hk; set_solver|simpl in Hf; lia]. }
  destruct (total >? max) eqn:E; bool_hyps.
  2: { intros [= <- <-]. split; [by apply evicted_refl|by left]. }
  destruct (terminal_victim current next) as [[id value]|] eqn:Ev.
  2: { intros [= <- <-]. split; [by apply evicted_refl|]. right. by apply terminal_victim_none. }
  apply terminal_victim_some in Ev as [Hg Hne]; [|done].
  intros Hr. assert (map_size (map_delete id next) = map_size next - 1) as Hs.
  { rewrite map_size_delete by done. unfold map_has. by rewrite Hg. }
  apply IH in Hr as [IH1 IH2];
    [|by apply map_wf_delete|rewrite Ht; symmetry; by apply map_sum_delete|lia].
  split; [|done]. eapply evicted_step; eauto.
Qed.

(** ** Terminals *)

Lemma utf8Bytes_terminal_nonneg t : 0 <= terminalProjectionBytes t.
Proof.
  unfold terminalProjectionBytes. pose proof (utf8Bytes_nonneg (terminalId t)).
  pose proof (utf8Bytes_nonneg (stdout t)). pose proof (utf8Bytes_nonneg (stderr t)). lia.
Qed.

(** Trimming fits the budget exactly when the identifier alone does. *)
Lemma trimTerminalProjection_fits terminal maxBytes s :
  terminalProjectionBytes (trimTerminalProjection terminal maxBytes s) <= maxBytes
  <-> utf8Bytes (terminalId terminal) <= maxBytes.
Proof.
  unfold trimTerminalProjection.
  destruct (Z.leb_spec (terminalProjectionBytes terminal) maxBytes) as [H|H].
  - split; [|done]. intros _. unfold terminalProjectionBytes in H.
    pose proof (utf8Bytes_nonneg (stdout terminal)). pose proof (utf8Bytes_nonneg (stderr terminal)). lia.
  - set (budget := Z.max 0 _). set (p := retainedUtf8Tail _ budget). set (q := retainedUtf8Tail _ (Z.max 0 _)).
    assert (utf8Bytes p <= budget) by (pose proof (retainedUtf8Tail_bytes (terminal_stream s terminal) budget); subst p; lia).
    assert (utf8Bytes q <= budget - utf8Bytes p).
    { pose proof (retainedUtf8Tail_bytes (terminal_stream (other_stream s) terminal) (Z.max 0 (budget - utf8Bytes p))).
      subst q. lia. }
    pose proof (utf8Bytes_nonneg p). pose proof (utf8Bytes_nonneg q).
    destruct s; unfold terminalProjectionBytes; simpl; lia.
Qed.

Lemma sum_after_delete {V} (w : V -> Z) id (m : jsmap jstr V) : map_wf m ->
  (match map_get id m with Some v => map_sum w m - w v | None => map_sum w m end)
  = map_sum w (map_delete id m).
Proof.
  intros Hwf. destruct (map_get id m) eqn:E; [by rewrite (map_sum_delete w id v)|].
  by rewrite map_delete_notin by by apply map_get_none_keys.
Qed.

Lemma sum_after_set {V} (w : V -> Z) id v (m : jsmap jstr V) :
  map_sum w (map_set id v (map_delete id m)) = map_sum w (map_delete id m) + w v.
Proof. apply map_sum_set_fresh. apply map_get_none_keys, map_get_delete_eq. Qed.

(** The map and total after the new terminal was admitted or dropped. *)
Definition admitted {V} (id : jstr) (v : V) (fits : bool) (m : jsmap jstr V) : jsmap jstr V :=
  if fits then map_set id v (map_delete id m) else map_delete id m.

Lemma admitted_spec {V} (w : V -> Z) id v fits (m : jsmap jstr V) : map_wf m ->
  map_wf (admitted id v fits m) /\
  (if fits then (map_set id v (map_delete id m),
                 match map_get id m with Some r => map_sum w m - w r | None => map_sum w m end + w v)
   else (map_delete id m, match map_get id m with Some r => map_sum w m - w r | None => map_sum w m end))
  = (admitted id v fits m, map_sum w (admitted id v fits m)) /\
  map_get id (admitted id v fits m) = (if fits then Some v else None) /\
  forall k, k ≠ id -> map_get k (admitted id v fits m) = map_get k m.
Proof.
  intros Hwf. rewrite sum_after_delete by done. unfold admitted. destruct fits; split_and!; auto with omp.
  - by rewrite sum_after_set.
  - apply map_get_set_eq.
  - intros k Hk. rewrite map_get_set_ne, map_get_delete_ne by done. done.
  - apply map_get_delete_eq.
  - intros k Hk. by rewrite map_get_delete_ne.
Qed.

(** The state the two eviction loops leave; the later stages of the source are never reached. *)
Lemma retainTerminalProjection_stages terminals id terminal options s :
  map_wf terminals -> 0 <= maxTerminals options -> 0 <= maxTerminalBytes options ->
  let limit := Z.min (maxTerminalBytesPerTerminal options) (maxTerminalBytes options) in
  let retained := trimTerminalProjection terminal limit s in
  let start := admitted id retained (terminalProjectionBytes retained <=? limit) terminals in
  let result := retainTerminalProjection terminals id terminal options s in
  evicted_from terminalProjectionBytes id (1 <= maxTerminals options) start
    (map_sum terminalProjectionBytes start) result (map_sum terminalProjectionBytes result) /\
  map_size result <= maxTerminals options /\
  map_sum terminalProjectionBytes result <= maxTerminalBytes options.
Proof.
  intros Hwf Hmt Hmb limit retained start result.
  assert (exists n1 t1 n2 t2,
    evict_terminal_count (length start) (maxTerminals options) id start (map_sum terminalProjectionBytes start) = (n1, t1) /\
    evict_terminal_bytes (length n1) (maxTerminalBytes options) id n1 t1 = (n2, t2)) as (n1 & t1 & n2 & t2 & E1 & E2).
  { destruct (evict_terminal_count _ _ _ _ _) as [n1 t1]. destruct (evict_terminal_bytes (length n1) (maxTerminalBytes options) id n1 t1) eqn:E. eauto 6. }
  destruct (admitted_spec terminalProjectionBytes id retained (terminalProjectionBytes retained <=? limit) terminals Hwf)
    as (Hws & Heq & Hid & _).
  pose proof E1 as E1'. apply evict_terminal_count_spec in E1' as [[W1 T1 S1 G1 K1] M1]; [|done..].
  pose proof E2 as E2'. apply evict_terminal_bytes_spec in E2' as [[W2 T2 S2 G2 K2] M2]; [|done..].
  assert (t2 <= maxTerminalBytes options) as Ht2.
  { destruct M2 as [|Ho]; [done|]. rewrite T2, (only_key_sum _ id) by done.
    destruct (map_get id n2) as [v|] eqn:Ev; [|lia]. apply G2, G1 in Ev. unfold start in Ev. rewrite Hid in Ev.
    destruct (terminalProjectionBytes retained <=? limit) eqn:El; [|done]. injection Ev as <-. bool_hyps. lia. }
  assert (result = n2) as ->.
  { unfold result, retainTerminalProjection. fold limit. fold retained. rewrite Heq. fold start. rewrite E1, E2.
    assert (t2 >? maxTerminalBytes options = false) as -> by (rewrite Z.gtb_ltb; by apply Z.ltb_ge).
    destruct (map_get id n2);
      (assert (t2 >? maxTerminalBytes options = false) as -> by (rewrite Z.gtb_ltb; by apply Z.ltb_ge)); done. }
  split_and!; [|lia|lia]. constructor; [done|done|lia|auto|].
  intros H1. by rewrite K2, K1.
Qed.

Lemma evict_terminal_count_id fuel max current next total :
  map_size next <= max -> evict_terminal_count fuel max current next total = (next, total).
Proof.
  intros. destruct fuel; [done|]. cbn [evict_terminal_count].
  destruct (map_size next >? max) eqn:E; [bool_hyps; lia|done].
Qed.

Lemma evict_terminal_bytes_id fuel max current next total :
  total <= max -> evict_terminal_bytes fuel max current next total = (next, total).
Proof.
  intros. destruct fuel; [done|]. cbn [evict_terminal_bytes].
  destruct (total >? max) eqn:E; [bool_hyps; lia|done].
Qed.

Lemma retainTerminalProjection_no_pressure terminals id terminal options s :
  map_wf terminals ->
  let limit := Z.min (maxTerminalBytesPerTerminal options) (maxTerminalBytes options) in
  let retained := trimTerminalProjection terminal limit s in
  let start := admitted id retained (terminalProjectionBytes retained <=? limit) terminals in
  map_size start <= maxTerminals options -> map_sum terminalProjectionBytes start <= maxTerminalBytes options ->
  retainTerminalProjection terminals id terminal options s = start.
Proof.
  intros Hwf limit retained start Hs Ht. unfold retainTerminalProjection. fold limit. fold retained.
  destruct (admitted_spec terminalProjectionBytes id retained (terminalProjectionBytes retained <=? limit) terminals Hwf)
    as (_ & -> & _). fold start.
  rewrite evict_terminal_count_id, evict_terminal_bytes_id by done.
  assert (map_sum terminalProjectionBytes start >? maxTerminalBytes options = false) as Hle
    by (rewrite Z.gtb_ltb; by apply Z.ltb_ge).
  rewrite Hle. destruct (map_get id start); by rewrite Hle.
Qed.

(** [retainTerminalProjection] honours its budgets and protects the current terminal.  For
    any retained terminals and any new terminal state, the result is a well-formed map of at
    most [maxTerminals] terminals and [maxTerminalBytes] UTF-8 bytes; every other terminal in
    it is an unchanged old one; the current terminal is present, trimmed to the per-terminal
    limit, exactly when its identifier alone fits that limit; and nothing is evicted when the
    admitted state already fits both budgets. *)
Theorem retainTerminalProjection_budget terminals id terminal options s :
  map_wf terminals -> 1 <= maxTerminals options -> 0 <= maxTerminalBytes options ->
  let limit := Z.min (maxTerminalBytesPerTerminal options) (maxTerminalBytes options) in
  let retained := trimTerminalProjection terminal limit s in
  let start := admitted id retained (utf8Bytes (terminalId terminal) <=? limit) terminals in
  let result := retainTerminalProjection terminals id terminal options s in
  map_wf result /\ map_size result <= maxTerminals options /\
  map_sum terminalProjectionBytes result <= maxTerminalBytes options /\
  map_get id result = (if utf8Bytes (terminalId terminal) <=? limit then Some retained else None) /\
  (forall k t, k ≠ id -> map_get k result = Some t -> map_get k terminals = Some t) /\
  (map_size start <= maxTerminals options ->
   map_sum terminalProjectionBytes start <= maxTerminalBytes options -> result = start).
Proof.
  intros Hwf Hmt Hmb limit retained start result.
  assert ((terminalProjectionBytes retained <=? limit) = (utf8Bytes (terminalId terminal) <=? limit)) as Hfits.
  { apply Bool.eq_iff_eq_true. rewrite !Z.leb_le. apply trimTerminalProjection_fits. }
  destruct (retainTerminalProjection_stages terminals id terminal options s Hwf ltac:(lia) Hmb) as ([H1 _ _ H4 H5] & Hs & Hb).
  destruct (admitted_spec terminalProjectionBytes id retained (terminalProjectionBytes retained <=? limit) terminals Hwf)
    as (_ & _ & Hid & Hoth).
  split_and!; [done|done|done| | |].
  - unfold result. rewrite H5 by done. fold limit. fold retained. by rewrite Hid, Hfits.
  - intros k t Hne Hg. apply H4 in Hg. by rewrite Hoth in Hg.
  - intros. unfold result, start. rewrite <- Hfits. apply retainTerminalProjection_no_pressure; [done|..];
      fold limit retained; by rewrite Hfits.
Qed.

(** Small limits for the witnesses. *)
Definition tight : ProjectionOptions :=
  resolveProjectionOptions (mkPartial (Some 2) None None None None None None None None None None None None
    (Some 2) (Some 12) (Some 8) (Some 2) (Some 12) (Some 8) (Some 2) (Some 2)).

Definition term (id out : string) (c : bool) : TerminalProjection := mkTerminal (js id) (js out) [] None c.

Lemma retainTerminalProjection_budget_witness :
  map_get (js "c") (retainTerminalProjection
    [(js "a", term "a" "12" false); (js "b", term "b" "34" true)] (js "c") (term "c" "123456789" false) tight Stdout)
  = Some (term "c" "3456789" false).
Proof.
  destruct (retainTerminalProjection_budget
    [(js "a", term "a" "12" false); (js "b", term "b" "34" true)] (js "c") (term "c" "123456789" false) tight Stdout)
    as (_ & _ & _ & H & _);
    [by_compute..|].
  rewrite H. reflexivity.
Defined.

(** ** Files *)

Lemma fileProjectionBytes_nonneg f : 0 <= fileProjectionBytes f.
Proof.
  unfold fileProjectionBytes. pose proof (utf8Bytes_nonneg (path f)).
  destruct (content f) as [c|]; [pose proof (utf8Bytes_nonneg c)|]; lia.
Qed.

(** Trimming a file fits exactly when its path does (a file without content is never trimmed). *)
Lemma trimFileProjection_fits file maxBytes :
  fileProjectionBytes (trimFileProjection file maxBytes) <= maxBytes <-> utf8Bytes (path file) <= maxBytes.
Proof.
  unfold trimFileProjection. destruct (content file) as [c|] eqn:Ec.
  - destruct (Z.leb_spec (fileProjectionBytes file) maxBytes) as [H|H].
    + split; [|done]. intros _. unfold fileProjectionBytes in H. rewrite Ec in H.
      pose proof (utf8Bytes_nonneg c). lia.
    + set (h := retainedUtf8Head _ _). unfold fileProjectionBytes. simpl.
      pose proof (utf8Bytes_nonneg h).
      pose proof (retainedUtf8Head_bytes c (Z.max 0 (maxBytes - utf8Bytes (path file)))). fold h in H1. lia.
  - unfold fileProjectionBytes. rewrite Ec. lia.
Qed.

Lemma trimFileProjection_path file maxBytes : path (trimFileProjection file maxBytes) = path file.
Proof. unfold trimFileProjection. destruct (content file); [|done]. by destruct (_ <=? _). Qed.

Lemma evict_file_count_spec fuel max current next total next' total' :
  map_wf next -> total = map_sum fileProjectionBytes next -> map_size next <= Z.of_nat fuel -> 0 <= max ->
  last_of (map_keys next) = Some current \/ current ∉ map_keys next ->
  evict_file_count fuel max next total = (next', total') ->
  evicted_from fileProjectionBytes current (1 <= max) next total next' total' /\
  map_size next' = Z.min max (map_size next).
Proof.
  revert next total. induction fuel as [|f IH]; intros next total Hwf Ht Hf Hm Hl; cbn [evict_file_count].
  { intros [= <- <-]. split; [by apply evicted_refl|lia]. }
  destruct (map_size next >? max) eqn:E; bool_hyps.
  2: { intros [= <- <-]. split; [by apply evicted_refl|lia]. }
  destruct next as [|[k v] rest]; [unfold map_size in E; rewrite len_nil in E; lia|].
  rewrite map_delete_head by done. intros Hr.
  assert (map_get k ((k, v) :: rest) = Some v) as Hg by (simpl; by rewrite decide_True).
  assert (map_size ((k, v) :: rest) = 1 + map_size rest) as Hs by (unfold map_size; by rewrite len_cons).
  destruct (map_wf_cons_inv _ _ _ Hwf) as [Hn Hwf'].
  apply IH in Hr as [IH1 IH2]; [|done| |lia|done|].
  - split; [|lia]. eapply evicted_step; eauto.
    + intros H1 ->. destruct Hl as [Hl|Hl]; [|simpl in Hl; set_solver].
      destruct rest as [|[c d] rest]; [unfold map_size, len in E; simpl in E; lia|].
      change (last_of (map_keys ((c, d) :: rest)) = Some current) in Hl. apply last_of_in in Hl. done.
    + intros _ _ _. by rewrite map_delete_head.
  - rewrite Ht. unfold map_sum. simpl. lia.
  - destruct Hl as [Hl|Hl]; [|right; simpl in Hl; set_solver].
    simpl in Hl. destruct (map_keys rest) eqn:Ek; [right|left; done].
    set_solver.
Qed.

(** What stripping contents does: same keys, the current file untouched, other files either
    untouched or reduced to their metadata. *)
Record stripped_from (current : jstr) (next next' : jsmap jstr FileFrame) (total' : Z) : Prop := {
  st_wf : map_wf next';
  st_total : total' = map_sum fileProjectionBytes next';
  st_keys : map_keys next' = map_keys next;
  st_keep : map_get current next' = map_get current next;
  st_sub : forall k v, map_get k next' = Some v ->
    map_get k next = Some v \/ exists v0, map_get k next = Some v0 /\ v = fileWithoutContent v0;
}.

Definition contents (current : jstr) (next : jsmap jstr FileFrame) : nat :=
  length (List.filter (fun kv => negb (jstr_eqb (fst kv) current) && match content (snd kv) with Some _ => true | None => false end) next).

Lemma contents_strip current k v next :
  map_get k next = Some v -> k ≠ current -> content v ≠ None ->
  contents current next = S (contents current (map_set k (fileWithoutContent v) next)).
Proof.
  intros Hg Hne Hc. unfold contents. induction next as [|[a b] next IH]; [done|]. simpl in *.
  destruct (decide (k = a)) as [->|Hka].
  - injection Hg as ->. simpl. apply jstr_eqb_neq in Hne. rewrite Hne. simpl.
    by destruct (content v).
  - simpl. destruct (negb _ && _); simpl; [f_equal|]; by apply IH.
Qed.

Lemma map_keys_set_same (k : jstr) (v : FileFrame) next : is_Some (map_get k next) -> map_keys (map_set k v next) = map_keys next.
Proof. intros [x Hx]. rewrite map_keys_set. unfold map_has. by rewrite Hx. Qed.

Lemma strip_file_contents_spec fuel max current next total next' total' :
  map_wf next -> total = map_sum fileProjectionBytes next -> (contents current next <= fuel)%nat ->
  strip_file_contents fuel max current next total = (next', total') ->
  stripped_from current next next' total' /\
  (max < total' -> forall k v, k ≠ current -> map_get k next' = Some v -> content v = None).
Proof.
  revert next total. induction fuel as [|f IH]; intros next total Hwf Ht Hf; cbn [strip_file_contents].
  { intros [= <- <-]. split; [constructor; eauto|]. intros _ k v Hne Hg%map_get_some_in.
    destruct (content v) eqn:Ec; [|done]. exfalso. unfold contents in Hf.
    assert ((k, v) ∈ List.filter (fun kv => negb (jstr_eqb (fst kv) current) &&
      match content (snd kv) with Some _ => true | None => false end) next) as Hin.
    { apply elem_of_filter_list. simpl. rewrite Ec, (proj2 (jstr_eqb_neq _ _) Hne). done. }
    destruct (List.filter _ next); [set_solver|simpl in Hf; lia]. }
  destruct (total >? max) eqn:E; bool_hyps.
  2: { intros [= <- <-]. split; [constructor; eauto|lia]. }
  destruct (map_find _ next) as [[p c]|] eqn:Ef.
  2: { intros [= <- <-]. split; [constructor; eauto|]. intros _ k v Hne Hg%map_get_some_in.
       apply (map_find_none _ _ Ef) in Hg. rewrite (proj2 (jstr_eqb_neq _ _) Hne) in Hg. simpl in Hg.
       by destruct (content v). }
  apply map_find_get in Ef as [Hg HP]; [|done]. apply andb_true_iff in HP as [Hne Hc].
  apply negb_true_iff, jstr_eqb_neq in Hne.
  assert (content c ≠ None) as Hc' by (by destruct (content c)).
  pose proof (contents_strip current p c next Hg Hne Hc') as Hcount.
  intros Hr. apply IH in Hr as [[W T K G S] M]; [| | |lia].
  - split; [|done]. constructor; [done|done| | |].
    + rewrite K. apply map_keys_set_same. eauto.
    + rewrite G. by rewrite map_get_set_ne.
    + intros k v Hkv. apply S in Hkv as [Hkv|(v0 & Hkv & ->)]; rewrite map_get_set in Hkv;
        (destruct (decide (k = p)) as [->|]; [injection Hkv as <-; right; eauto|eauto]).
  - by apply map_wf_set.
  - rewrite Ht, (map_sum_set_eq _ p c) by done. lia.
Qed.

Lemma contents_le_length current next : (contents current next <= length next)%nat.
Proof. unfold contents. apply List.filter_length_le. Qed.

Lemma evict_file_bytes_spec fuel max current next total next' total' :
  map_wf next -> total = map_sum fileProjectionBytes next -> map_size next <= Z.of_nat fuel ->
  evict_file_bytes fuel max current next total = (next', total') ->
  evicted_from fileProjectionBytes current True next total next' total' /\
  (total' <= max \/ only_key current next').
Proof.
  revert next total. induction fuel as [|f IH]; intros next total Hwf Ht Hf; cbn [evict_file_bytes].
  { intros [= <- <-]. split; [by apply evicted_refl|]. right. unfold map_size, len in Hf.
    destruct next; [intros k Hk; simpl in Hk; set_solver|simpl in Hf; lia]. }
  destruct (total >? max) eqn:E; bool_hyps.
  2: { intros [= <- <-]. split; [by apply evicted_refl|by left]. }
  destruct (map_find _ next) as [[id value]|] eqn:Ev.
  2: { intros [= <- <-]. split; [by apply evicted_refl|]. right. by apply find_none_only_key. }
  apply map_find_get in Ev as [Hg HP]; [|done]. bool_hyps. apply jstr_eqb_neq in HP.
  intros Hr. assert (map_size (map_delete id next) = map_size next - 1) as Hs.
  { rewrite map_size_delete by done. unfold map_has. by rewrite Hg. }
  apply IH in Hr as [IH1 IH2];
    [|by apply map_wf_delete|rewrite Ht; symmetry; by apply map_sum_delete|lia].
  split; [|done]. eapply evicted_step; eauto.
Qed.

Lemma trimFileProjection_le file maxBytes : fileProjectionBytes (trimFileProjection file maxBytes) <= fileProjectionBytes file.
Proof.
  unfold trimFileProjection. destruct (content file) as [c|] eqn:Ec; [|lia].
  destruct (Z.leb_spec (fileProjectionBytes file) maxBytes); [lia|].
  unfold fileProjectionBytes. simpl. rewrite Ec. set (b := Z.max 0 _).
  destruct (Z.le_gt_cases (utf8Bytes c) b) as [Hle|Hlt].
  - unfold retainedUtf8Head. unfold utf8Bytes in Hle. rewrite (proj2 (Z.leb_le _ _) Hle). lia.
  - pose proof (retainedUtf8Head_bytes c b). lia.
Qed.

(** The optional third stage: the current file is trimmed to what the others leave. *)
Definition trim_current (max : Z) (p : jstr) (next : jsmap jstr FileFrame) (total : Z) : jsmap jstr FileFrame * Z :=
  match map_get p next with
  | Some current =>
      if total >? max then
        let trimmed := trimFileProjection current (Z.max 0 (max - (total - fileProjectionBytes current))) in
        (map_set p trimmed next, total + (fileProjectionBytes trimmed - fileProjectionBytes current))
      else (next, total)
  | None => (next, total)
  end.

Lemma trim_current_spec max p next total next' total' :
  map_wf next -> total = map_sum fileProjectionBytes next -> trim_current max p next total = (next', total') ->
  map_wf next' /\ total' = map_sum fileProjectionBytes next' /\ map_keys next' = map_keys next /\
  (forall k, k ≠ p -> map_get k next' = map_get k next) /\
  (total <= max -> next' = next) /\
  match map_get p next with
  | Some f => exists b, map_get p next' = Some (if total >? max then trimFileProjection f b else f)
  | None => map_get p next' = None
  end.
Proof.
  intros Hwf Ht. unfold trim_current. destruct (map_get p next) as [f|] eqn:Eg.
  - destruct (total >? max) eqn:E; bool_hyps; intros [= <- <-].
    + split_and!; [by apply map_wf_set| | | |lia|eexists; apply map_get_set_eq].
      * rewrite (map_sum_set_eq _ p f) by done. lia.
      * apply map_keys_set_same. eauto.
      * intros. by rewrite map_get_set_ne.
    + split_and!; eauto.
  - intros [= <- <-]. by split_and!.
Qed.

Lemma map_size_keys {K V} (m m' : jsmap K V) : map_keys m = map_keys m' -> map_size m = map_size m'.
Proof. intros H. unfold map_size. rewrite <- !(len_map fst). by fold (map_keys m) (map_keys m'); rewrite H. Qed.

Lemma admitted_last id (v : FileFrame) fits m :
  last_of (map_keys (admitted id v fits m)) = Some id \/ id ∉ map_keys (admitted id v fits m).
Proof.
  assert (id ∉ map_keys (map_delete id m)) by apply map_get_none_keys, map_get_delete_eq.
  unfold admitted. destruct fits; [left|by right].
  rewrite map_set_notin by done. unfold map_keys. rewrite map_app. apply last_of_app.
Qed.

(** All the stages of [retainFileProjection] together. *)
Lemma retainFileProjection_ok files p file options :
  map_wf files -> 1 <= maxFiles options -> 0 <= maxFilesBytes options ->
  let limit := Z.min (maxFileBytes options) (maxFilesBytes options) in
  let retained := trimFileProjection file limit in
  let start := admitted p retained (utf8Bytes (path file) <=? limit) files in
  let result := retainFileProjection files p file options in
  map_wf result /\ map_size result <= maxFiles options /\
  map_sum fileProjectionBytes result <= maxFilesBytes options /\
  (if utf8Bytes (path file) <=? limit
   then exists f, map_get p result = Some f /\ (f = retained \/ exists b, f = trimFileProjection retained b)
   else map_get p result = None) /\
  (forall k f, k ≠ p -> map_get k result = Some f ->
     map_get k files = Some f \/ exists f0, map_get k files = Some f0 /\ f = fileWithoutContent f0) /\
  ((exists k f c, k ≠ p /\ map_get k result = Some f /\ content f = Some c) ->
     map_size result = Z.min (maxFiles options) (map_size start)).
Proof.
  intros Hwf Hmf Hmb limit retained start result.
  assert ((fileProjectionBytes retained <=? limit) = (utf8Bytes (path file) <=? limit)) as Hfits.
  { apply Bool.eq_iff_eq_true. rewrite !Z.leb_le. apply trimFileProjection_fits. }
  destruct (admitted_spec fileProjectionBytes p retained (fileProjectionBytes retained <=? limit) files Hwf)
    as (Hws & Heq & Hid & Hoth).
  rewrite Hfits in Hws, Hid, Hoth. fold start in Hws, Hid, Hoth.
  destruct (evict_file_count (length start) (maxFiles options) start (map_sum fileProjectionBytes start)) as [n1 t1] eqn:E1.
  destruct (strip_file_contents (length n1) (maxFilesBytes options) p n1 t1) as [n2 t2] eqn:E2.
  destruct (trim_current (maxFilesBytes options) p n2 t2) as [n3 t3] eqn:E3.
  destruct (evict_file_bytes (length n3) (maxFilesBytes options) p n3 t3) as [n4 t4] eqn:E4.
  pose proof E1 as E1'. apply (evict_file_count_spec _ _ p) in E1' as [[W1 T1 S1 G1 K1] M1]; [|done|done|done|lia|apply admitted_last].
  pose proof E2 as E2'. apply strip_file_contents_spec in E2' as [[W2 T2 K2 G2 B2] M2]; [|done|done|apply contents_le_length].
  pose proof E3 as E3'. apply trim_current_spec in E3' as (W3 & T3 & K3 & O3 & I3 & C3); [|done|done].
  pose proof E4 as E4'. apply evict_file_bytes_spec in E4' as [[W4 T4 S4 G4 P4] M4]; [|done|done|done].
  assert (map_get p n2 = if utf8Bytes (path file) <=? limit then Some retained else None) as Hn2
    by (rewrite G2, K1 by lia; done).
  rewrite Hn2 in C3.
  assert (if utf8Bytes (path file) <=? limit
          then exists f, map_get p n4 = Some f /\ (f = retained \/ exists b, f = trimFileProjection retained b) /\
                 fileProjectionBytes f <= limit
          else map_get p n4 = None) as Hcur.
  { rewrite P4 by done. destruct (utf8Bytes (path file) <=? limit); [|done].
    destruct C3 as [b Hb]. rewrite Hb. bool_hyps. eexists. split; [done|].
    destruct (t2 >? maxFilesBytes options); [|eauto].
    pose proof (trimFileProjection_le retained b). split; [eauto|lia]. }
  assert (t4 <= maxFilesBytes options) as Ht4.
  { destruct M4 as [|Ho]; [done|]. rewrite T4, (only_key_sum _ p) by done.
    destruct (utf8Bytes (path file) <=? limit); [destruct Hcur as (f & -> & _ & ?); lia|rewrite Hcur; lia]. }
  assert (result = n4) as ->.
  { unfold result, retainFileProjection. fold limit. fold retained. rewrite Heq, Hfits. fold start. rewrite E1, E2.
    unfold trim_current in E3. rewrite E3, E4.
    by assert (t4 >? maxFilesBytes options = false) as -> by (rewrite Z.gtb_ltb; by apply Z.ltb_ge). }
  pose proof (map_size_keys _ _ K2) as Z2. pose proof (map_size_keys _ _ K3) as Z3.
  split_and!; [done|lia|lia| | |].
  - destruct (utf8Bytes (path file) <=? limit); [|done]. destruct Hcur as (f & ? & ? & _). eauto.
  - intros k f Hne Hg. apply G4 in Hg. rewrite O3 in Hg by done.
    apply B2 in Hg as [Hg|(f0 & Hg & ->)]; apply G1 in Hg; rewrite Hoth in Hg by done; eauto.
  - intros (k & f & c & Hne & Hg & Hc). apply G4 in Hg as Hg3. rewrite O3 in Hg3 by done.
    destruct (Z.le_gt_cases t2 (maxFilesBytes options)) as [Hle|Hgt].
    + specialize (I3 Hle). subst n3. assert (t3 <= maxFilesBytes options) as Ht3 by lia.
      assert (n4 = n2) as ->; [|lia].
      destruct (length n2); simpl in E4; [by injection E4|].
      destruct (t3 >? maxFilesBytes options) eqn:E; bool_hyps; [lia|by injection E4].
    + rewrite (M2 Hgt k f Hne Hg3) in Hc. done.
Qed.

(** [retainFileProjection] honours its budgets, keeps the current file and gives up content
    before paths.  The result has at most [maxFiles] files and [maxFilesBytes] bytes; the
    current path is present, possibly with shortened content, exactly when the path alone fits
    the per-file limit; every other file is an old one, unchanged or reduced to metadata; and
    while any other file still holds content, no path was dropped to save bytes. *)
Theorem retainFileProjection_budget files p file options :
  map_wf files -> 1 <= maxFiles options -> 0 <= maxFilesBytes options ->
  let limit := Z.min (maxFileBytes options) (maxFilesBytes options) in
  let retained := trimFileProjection file limit in
  let start := admitted p retained (utf8Bytes (path file) <=? limit) files in
  let result := retainFileProjection files p file options in
  map_wf result /\ map_size result <= maxFiles options /\
  map_sum fileProjectionBytes result <= maxFilesBytes options /\
  (if utf8Bytes (path file) <=? limit
   then exists f, map_get p result = Some f /\ (f = retained \/ exists b, f = trimFileProjection retained b)
   else map_get p result = None) /\
  (forall k f, k ≠ p -> map_get k result = Some f ->
     map_get k files = Some f \/ exists f0, map_get k files = Some f0 /\ f = fileWithoutContent f0) /\
  ((exists k f c, k ≠ p /\ map_get k result = Some f /\ content f = Some c) ->
     map_size result = Z.min (maxFiles options) (map_size start)).
Proof. apply retainFileProjection_ok. Qed.

Definition file (p c : string) : FileFrame := mkFile (js "h") (js "s") (js p) (Some (js c)) None.

Lemma retainFileProjection_budget_witness :
  let result := retainFileProjection [(js "a", file "a" "12345"); (js "b", file "b" "6789")]
                  (js "c") (file "c" "123456789") tight in
  map_size result <= 2 /\ map_sum fileProjectionBytes result <= 12 /\
  result = [(js "b", fileWithoutContent (file "b" "6789"));
            (js "c", mkFile (js "h") (js "s") (js "c") (Some (js "1234567")) (Some true))].
Proof.
  intros result.
  destruct (retainFileProjection_budget [(js "a", file "a" "12345"); (js "b", file "b" "6789")]
              (js "c") (file "c" "123456789") tight) as (_ & H1 & H2 & _); [by_compute..|].
  split; [exact H1|]. split; [exact H2|]. vm_compute. reflexivity.
Defined.
