(* ===== verification/ClientProjection.v ===== *)
(** * ClientProjection: the client's projection of the host's frames
    ([packages/client/src/projection-reducer.ts], [projection-resource-reducers.ts],
    [projection-contract.ts])

    The snapshot is an immutable record in the source and a value here.  An update function
    that may return its argument unchanged (the source then compares identities) returns
    [None] for that case.  The engine's string collation [localeCompare] and URL parser are
    parameters.  Frames are the payloads [applyPublicEvent] receives. *)
From stdpp Require Import base tactics option list numbers strings sets.
From S2P Require Import Prelude JsMap JsString JsValue Wire WireGuards WireFrames Retention.
From S2P Require Import ProjectionSanitize Preview ProjectionOptions ResourceRetention.

(** ** Data *)

Record AgentFrame := mkAgent {
  ag_hostId : jstr;
  ag_sessionId : jstr;
  ag_agentId : jstr;
  ag_state : jstr;
  ag_progress : option jnum;
  ag_detail : option jv;
}.

Record AgentTranscriptFrame := mkAgentTranscriptFrame {
  at_hostId : jstr;
  at_sessionId : jstr;
  at_agentId : jstr;
  at_cursor : Cursor;
  at_entries : list DurableEntry;
  at_revision : jstr;
}.

Record AgentTranscriptProjection := mkAgentTranscript {
  atp_entries : list DurableEntry;
  atp_entryIds : list jstr;
  atp_cursor : Cursor;
  atp_revision : jstr;
  atp_freshness : Freshness;
  atp_historyTruncated : bool;
}.

(** [stream] of the "terminal" frame. *)
Inductive TerminalStream := TStdout | TStderr | TExit.

Record TerminalFrame := mkTerminalFrame {
  tf_hostId : jstr;
  tf_sessionId : jstr;
  tf_terminalId : jstr;
  tf_stream : TerminalStream;
  tf_data : option jstr;
  tf_exitCode : option Z;
}.

Record ReviewFrame := mkReviewFrame {
  rf_hostId : jstr;
  rf_sessionId : jstr;
  rf_reviewId : jstr;
  rf_status : jstr;
  rf_path : option jstr;
  rf_findings : list jv;
}.

Record AuditFrame := mkAudit {
  au_hostId : jstr;
  au_sessionId : option jstr;
  au_action : jstr;
  au_actor : jstr;
  au_timestamp : jstr;
  au_detail : option jv;
}.

Record ConfirmationFrame := mkConfirmation {
  cf_confirmationId : jstr;
  cf_commandId : jstr;
  cf_hostId : jstr;
  cf_sessionId : option jstr;
  cf_commandHash : jstr;
  cf_revision : jstr;
  cf_expiresAt : jstr;
  cf_summary : jstr;
  cf_preview : option jstr;
}.

Record ResponseFrame := mkResponse {
  rs_requestId : jstr;
  rs_commandId : option jstr;
  rs_hostId : jstr;
  rs_sessionId : option jstr;
  rs_ok : bool;
  rs_result : option jv;
  rs_command : option jstr;
  rs_error : option (jstr * jstr);
}.

Record ResultProjection := mkResult {
  rp_requestId : jstr;
  rp_commandId : option jstr;
  rp_ok : bool;
  rp_result : option jv;
  rp_error : option (jstr * jstr);
}.

Record SessionProjection := mkSession {
  sp_hostId : jstr;
  sp_sessionId : jstr;
  sp_ref : option SessionRef;
  sp_entries : list DurableEntry;
  sp_events : list LiveEventFrame;
  sp_agents : jsmap jstr AgentFrame;
  sp_agentTranscripts : jsmap jstr AgentTranscriptProjection;
  sp_terminals : jsmap jstr TerminalProjection;
  sp_files : jsmap jstr FileFrame;
  sp_reviews : jsmap jstr ReviewFrame;
  sp_audit : list AuditFrame;
  sp_confirmations : jsmap jstr ConfirmationFrame;
  sp_results : jsmap jstr ResultProjection;
  sp_previews : jsmap jstr PreviewProjection;
  sp_previewEvents : list PreviewEvent;
  sp_revision : option jstr;
  sp_cursor : option Cursor;
  sp_epoch : option jstr;
  sp_freshness : Freshness;
  sp_transcriptEventArrivalOrdinal : Z;
  sp_contextMaintenanceEventArrivalOrdinal : Z;
  sp_gap : option GapFrame;
  sp_historyTruncated : bool;
  sp_entryIds : list jstr;
}.

Record SessionIndexMetadata := mkMetadata { md_totalCount : Z; md_truncated : bool }.

Record ProjectionSnapshot := mkProjection {
  ps_sessions : jsmap jstr SessionProjection;
  ps_activeSessionKey : option jstr;
  ps_sessionIndex : jsmap jstr SessionRef;
  ps_sessionIndexMetadata : jsmap jstr SessionIndexMetadata;
  ps_sessionRefArrivalOrdinals : jsmap jstr Z;
  ps_sessionDeltaCursors : jsmap jstr Cursor;
  ps_sessionInventoryCursors : jsmap jstr Cursor;
  ps_workspaces : jsmap jstr WorkspaceInfrastructureProjection;
  ps_workspaceCursors : jsmap jstr Cursor;
  ps_lru : list jstr;
  ps_cursor : option Cursor;
  ps_epoch : option jstr;
  ps_freshness : Freshness;
  ps_arrivalOrdinal : Z;
}.

(** ** Record updates ([{ ...session, field }]) *)

Definition set_transcript (s : SessionProjection) (entries : list DurableEntry) (entryIds : list jstr)
    (historyTruncated : bool) (events : list LiveEventFrame) (transcriptOrdinal maintenanceOrdinal : Z)
    (revision : option jstr) (cursor : Cursor) (fr : Freshness) (gap : option GapFrame) : SessionProjection :=
  mkSession (sp_hostId s) (sp_sessionId s) (sp_ref s) entries events (sp_agents s) (sp_agentTranscripts s)
    (sp_terminals s) (sp_files s) (sp_reviews s) (sp_audit s) (sp_confirmations s) (sp_results s)
    (sp_previews s) (sp_previewEvents s) revision (Some cursor) (Some (epoch cursor)) fr
    transcriptOrdinal maintenanceOrdinal gap historyTruncated entryIds.

Definition set_freshness (s : SessionProjection) (fr : Freshness) (gap : option GapFrame)
    (transcriptOrdinal maintenanceOrdinal : Z) : SessionProjection :=
  mkSession (sp_hostId s) (sp_sessionId s) (sp_ref s) (sp_entries s) (sp_events s) (sp_agents s) (sp_agentTranscripts s)
    (sp_terminals s) (sp_files s) (sp_reviews s) (sp_audit s) (sp_confirmations s) (sp_results s)
    (sp_previews s) (sp_previewEvents s) (sp_revision s) (sp_cursor s) (sp_epoch s) fr
    transcriptOrdinal maintenanceOrdinal gap (sp_historyTruncated s) (sp_entryIds s).

Definition set_ref (s : SessionProjection) (ref : SessionRef) : SessionProjection :=
  mkSession (sp_hostId s) (sp_sessionId s) (Some ref) (sp_entries s) (sp_events s) (sp_agents s) (sp_agentTranscripts s)
    (sp_terminals s) (sp_files s) (sp_reviews s) (sp_audit s) (sp_confirmations s) (sp_results s)
    (sp_previews s) (sp_previewEvents s) (Some (ref_revision ref)) (sp_cursor s) (sp_epoch s) (sp_freshness s)
    (sp_transcriptEventArrivalOrdinal s) (sp_contextMaintenanceEventArrivalOrdinal s) (sp_gap s)
    (sp_historyTruncated s) (sp_entryIds s).

Definition set_agents (s : SessionProjection) (agents : jsmap jstr AgentFrame)
    (transcripts : jsmap jstr AgentTranscriptProjection) : SessionProjection :=
  mkSession (sp_hostId s) (sp_sessionId s) (sp_ref s) (sp_entries s) (sp_events s) agents transcripts
    (sp_terminals s) (sp_files s) (sp_reviews s) (sp_audit s) (sp_confirmations s) (sp_results s)
    (sp_previews s) (sp_previewEvents s) (sp_revision s) (sp_cursor s) (sp_epoch s) (sp_freshness s)
    (sp_transcriptEventArrivalOrdinal s) (sp_contextMaintenanceEventArrivalOrdinal s) (sp_gap s)
    (sp_historyTruncated s) (sp_entryIds s).

Definition set_resources (s : SessionProjection) (terminals : jsmap jstr TerminalProjection)
    (files : jsmap jstr FileFrame) (reviews : jsmap jstr ReviewFrame) (audit : list AuditFrame) : SessionProjection :=
  mkSession (sp_hostId s) (sp_sessionId s) (sp_ref s) (sp_entries s) (sp_events s) (sp_agents s) (sp_agentTranscripts s)
    terminals files reviews audit (sp_confirmations s) (sp_results s)
    (sp_previews s) (sp_previewEvents s) (sp_revision s) (sp_cursor s) (sp_epoch s) (sp_freshness s)
    (sp_transcriptEventArrivalOrdinal s) (sp_contextMaintenanceEventArrivalOrdinal s) (sp_gap s)
    (sp_historyTruncated s) (sp_entryIds s).

Definition set_results (s : SessionProjection) (confirmations : jsmap jstr ConfirmationFrame)
    (results : jsmap jstr ResultProjection) : SessionProjection :=
  mkSession (sp_hostId s) (sp_sessionId s) (sp_ref s) (sp_entries s) (sp_events s) (sp_agents s) (sp_agentTranscripts s)
    (sp_terminals s) (sp_files s) (sp_reviews s) (sp_audit s) confirmations results
    (sp_previews s) (sp_previewEvents s) (sp_revision s) (sp_cursor s) (sp_epoch s) (sp_freshness s)
    (sp_transcriptEventArrivalOrdinal s) (sp_contextMaintenanceEventArrivalOrdinal s) (sp_gap s)
    (sp_historyTruncated s) (sp_entryIds s).

Definition set_previews (s : SessionProjection) (previews : jsmap jstr PreviewProjection)
    (events : list PreviewEvent) : SessionProjection :=
  mkSession (sp_hostId s) (sp_sessionId s) (sp_ref s) (sp_entries s) (sp_events s) (sp_agents s) (sp_agentTranscripts s)
    (sp_terminals s) (sp_files s) (sp_reviews s) (sp_audit s) (sp_confirmations s) (sp_results s)
    previews events (sp_revision s) (sp_cursor s) (sp_epoch s) (sp_freshness s)
    (sp_transcriptEventArrivalOrdinal s) (sp_contextMaintenanceEventArrivalOrdinal s) (sp_gap s)
    (sp_historyTruncated s) (sp_entryIds s).

Definition set_sessions (p : ProjectionSnapshot) (sessions : jsmap jstr SessionProjection) (lru : list jstr)
    (active : option jstr) (arrivalOrdinal : Z) : ProjectionSnapshot :=
  mkProjection sessions active (ps_sessionIndex p) (ps_sessionIndexMetadata p) (ps_sessionRefArrivalOrdinals p)
    (ps_sessionDeltaCursors p) (ps_sessionInventoryCursors p) (ps_workspaces p) (ps_workspaceCursors p) lru
    (ps_cursor p) (ps_epoch p) (ps_freshness p) arrivalOrdinal.

Definition set_index (p : ProjectionSnapshot) (index : jsmap jstr SessionRef)
    (metadata : jsmap jstr SessionIndexMetadata) (ordinals : jsmap jstr Z) (deltas inventory : jsmap jstr Cursor)
    : ProjectionSnapshot :=
  mkProjection (ps_sessions p) (ps_activeSessionKey p) index metadata ordinals deltas inventory
    (ps_workspaces p) (ps_workspaceCursors p) (ps_lru p) (ps_cursor p) (ps_epoch p) (ps_freshness p) (ps_arrivalOrdinal p).

Definition set_workspaces (p : ProjectionSnapshot) (workspaces : jsmap jstr WorkspaceInfrastructureProjection)
    (cursors : jsmap jstr Cursor) : ProjectionSnapshot :=
  mkProjection (ps_sessions p) (ps_activeSessionKey p) (ps_sessionIndex p) (ps_sessionIndexMetadata p)
    (ps_sessionRefArrivalOrdinals p) (ps_sessionDeltaCursors p) (ps_sessionInventoryCursors p)
    workspaces cursors (ps_lru p) (ps_cursor p) (ps_epoch p) (ps_freshness p) (ps_arrivalOrdinal p).

(** ** Helpers of the reducer *)

(** [`${hostId}\u0000${sessionId}`] *)
Definition key (hostId sessionId : jstr) : jstr := hostId ++ [0%N] ++ sessionId.

(** [while (next.size > max) next.delete(next.keys().next().value!)] *)
Fixpoint drop_oldest {K V} (max : Z) (m : jsmap K V) : jsmap K V :=
  match m with
  | [] => []
  | _ :: rest => if len m >? max then drop_oldest max rest else m
  end.

Definition mapWith {K V} `{EqDecision K} (m : jsmap K V) (itemKey : K) (value : V) (max : Z) : jsmap K V :=
  drop_oldest max (map_set itemKey value m).

Definition mapWithout {K V} `{EqDecision K} (m : jsmap K V) (itemKey : K) : jsmap K V := map_delete itemKey m.

Definition initialSession (hostId sessionId : jstr) : SessionProjection :=
  mkSession hostId sessionId None [] [] [] [] [] [] [] [] [] [] [] [] None None None Fresh 0 0 None false [].

(** [initialSession(...sessionKey.split("\u0000"))] for a key of two control-free identifiers. *)
Definition session_of_key (sessionKey : jstr) : SessionProjection :=
  match split_on 0 sessionKey with
  | h :: s :: _ => initialSession h s
  | [h] => initialSession h []
  | [] => initialSession [] []
  end.

Definition createProjectionSnapshot : ProjectionSnapshot :=
  mkProjection [] None [] [] [] [] [] [] [] [] None None Fresh 0.

Record BoundedEntries := mkBounded { be_entries : list DurableEntry; be_entryIds : list jstr; be_truncated : bool }.

Definition boundedUniqueEntries (entries : list DurableEntry) (max maxBytes maxEntryBytes : Z) : BoundedEntries :=
  let bounded := retainDurableEntries entries (mkRetainOptions (Some max) (Some maxBytes) (Some maxEntryBytes)) in
  mkBounded (ret_entries bounded) (map entry_id (ret_entries bounded)) (ret_truncated bounded).

Definition agentTranscriptProjection (previous : option AgentTranscriptProjection) (frame : AgentTranscriptFrame)
    (maxEntries maxBytes maxEntryBytes : Z) : option AgentTranscriptProjection :=
  let cursor := at_cursor frame in
  let project (contiguous : bool) (prior : list DurableEntry) (priorTruncated : bool) :=
    let bounded := boundedUniqueEntries (prior ++ at_entries frame) maxEntries maxBytes maxEntryBytes in
    mkAgentTranscript (be_entries bounded) (be_entryIds bounded) cursor (at_revision frame) Fresh
      (be_truncated bounded || (contiguous && priorTruncated)) in
  match previous with
  | None => Some (project false [] false)
  | Some p =>
      let epochChanged := negb (jstr_eqb (epoch (atp_cursor p)) (epoch cursor)) in
      let recoveringCachedBaseline := bool_decide (atp_freshness p = Cached) in
      if negb epochChanged && negb recoveringCachedBaseline && (seq cursor <=? seq (atp_cursor p)) then None
      else
        let contiguous := negb epochChanged && negb recoveringCachedBaseline && (seq cursor =? seq (atp_cursor p) + 1) in
        Some (if contiguous then project true (atp_entries p) (atp_historyTruncated p) else project false [] false)
  end.

Definition nextArrivalOrdinal (snapshot : ProjectionSnapshot) : Z :=
  if ps_arrivalOrdinal snapshot <? MAX_SAFE_INTEGER then ps_arrivalOrdinal snapshot + 1 else MAX_SAFE_INTEGER.

Definition type_is (o : list (jstr * jv)) (type : jstr) : bool := is_string (prop (js "type") o) type.

Definition eventChangesContextMaintenance (event : list (jstr * jv)) : bool :=
  type_is event (js "compaction.start") || type_is event (js "compaction.end") ||
  type_is event (js "turn.start") || type_is event (js "turn.end").

(** [while (lru.length > max) { evicted = lru.shift(); sessions = mapWithout(sessions, evicted) }] *)
Fixpoint evict_lru (max : Z) (lru : list jstr) (sessions : jsmap jstr SessionProjection)
    : list jstr * jsmap jstr SessionProjection :=
  match lru with
  | [] => ([], sessions)
  | evicted :: rest =>
      if len lru >? max then evict_lru max rest (mapWithout sessions evicted) else (lru, sessions)
  end.

Definition in_list (k : jstr) (l : list jstr) : bool := existsb (jstr_eqb k) l.

Definition touch (snapshot : ProjectionSnapshot) (sessionKey : jstr) (options : ProjectionOptions) : ProjectionSnapshot :=
  let existing := map_get sessionKey (ps_sessions snapshot) in
  let active_in_lru := match ps_activeSessionKey snapshot with
                       | Some a => in_list a (ps_lru snapshot) | None => false end in
  if match existing with Some _ => true | None => false end &&
     match last_of (ps_lru snapshot) with Some k => jstr_eqb k sessionKey | None => false end &&
     (len (ps_lru snapshot) <=? maxWarmSessions options) && active_in_lru
  then snapshot
  else
    let lru := List.filter (fun item => negb (jstr_eqb item sessionKey)) (ps_lru snapshot) ++ [sessionKey] in
    let sessions :=
      match existing with
      | Some _ => ps_sessions snapshot
      | None => mapWith (ps_sessions snapshot) sessionKey (session_of_key sessionKey) 256
      end in
    let '(lru, sessions) := evict_lru (maxWarmSessions options) lru sessions in
    let active :=
      match ps_activeSessionKey snapshot with
      | Some a => if in_list a lru then Some a else last_of lru
      | None => last_of lru
      end in
    set_sessions snapshot sessions lru active (ps_arrivalOrdinal snapshot).

(** [withSession(snapshot, sessionKey, update, options, arrivalOrdinal?)]; [update] answers
    [None] when it returns the session it was given.  [touch] leaves the session warm whenever
    [maxWarmSessions] is at least one ([touch_warm]); the source has no meaningful behaviour
    below that (it updates [undefined]). *)
Definition withSession (snapshot : ProjectionSnapshot) (sessionKey : jstr)
    (update : SessionProjection -> option SessionProjection) (options : ProjectionOptions)
    (arrivalOrdinal : option Z) : ProjectionSnapshot :=
  let warmed := touch snapshot sessionKey options in
  let ordinal := default (ps_arrivalOrdinal warmed) arrivalOrdinal in
  match map_get sessionKey (ps_sessions warmed) with
  | None => warmed
  | Some current =>
      match update current with
      | None => set_sessions warmed (ps_sessions warmed) (ps_lru warmed) (ps_activeSessionKey warmed) ordinal
      | Some updated =>
          set_sessions warmed (mapWith (ps_sessions warmed) sessionKey updated 256)
            (ps_lru warmed) (ps_activeSessionKey warmed) ordinal
      end
  end.

Definition updateRoot (snapshot : ProjectionSnapshot) (cursor : option Cursor) (newEpoch : option jstr)
    (fr : option Freshness) : ProjectionSnapshot :=
  mkProjection (ps_sessions snapshot) (ps_activeSessionKey snapshot) (ps_sessionIndex snapshot)
    (ps_sessionIndexMetadata snapshot) (ps_sessionRefArrivalOrdinals snapshot) (ps_sessionDeltaCursors snapshot)
    (ps_sessionInventoryCursors snapshot) (ps_workspaces snapshot) (ps_workspaceCursors snapshot) (ps_lru snapshot)
    (match cursor with Some c => Some c | None => ps_cursor snapshot end)
    (match newEpoch with Some e => Some e | None => ps_epoch snapshot end)
    (default (ps_freshness snapshot) fr) (ps_arrivalOrdinal snapshot).

Definition cursorState (session : SessionProjection) (cursor : Cursor) : cursor_state :=
  if bool_decide (sp_freshness session = CatchingUp) then Gap
  else match sp_cursor session with
       | None => Accept
       | Some c =>
           if negb (jstr_eqb (epoch cursor) (epoch c)) then Gap
           else if seq cursor <=? seq c then Duplicate
           else if seq cursor =? seq c + 1 then Accept else Gap
       end.

Definition sessionDeltaCursorIsStale (previous : option Cursor) (cursor : Cursor) : bool :=
  match previous with
  | Some p => jstr_eqb (epoch p) (epoch cursor) && (seq cursor <=? seq p)
  | None => false
  end.

Definition mostRecentSessionKey (sessionIndex : jsmap jstr SessionRef) : option jstr :=
  fst <$> fold_left (fun selected kv =>
    let updatedAt := ref_updatedAt (snd kv) in
    match selected with
    | None => Some (fst kv, updatedAt)
    | Some (k, u) =>
        if jstr_lt u updatedAt || (jstr_eqb updatedAt u && jstr_lt (fst kv) k)
        then Some (fst kv, updatedAt) else selected
    end) sessionIndex None.

Definition withoutHostRefOrdinals (ordinals : jsmap jstr Z) (hostId : jstr) : jsmap jstr Z :=
  List.filter (fun kv => negb (starts_with (hostId ++ [0%N]) (fst kv))) ordinals.

(** ** Session inventory *)

Record SessionsFrame := mkSessionsFrame {
  sf_hostId : jv;
  sf_cursor : Cursor;
  sf_sessions : list jv;
  sf_totalCount : jv;
  sf_truncated : jv;
}.

Record SessionDeltaFrame := mkDelta {
  sd_hostId : jv;
  sd_sessionId : jv;
  sd_cursor : Cursor;
  sd_upsert : option jv;
  sd_remove : option jv;
}.

(** The members of [new Set(list)] in insertion order. *)
Definition set_of (l : list jstr) : list jstr :=
  fold_left (fun acc x => if in_list x acc then acc else acc ++ [x]) l [].

Definition authoritativeSessionHosts (frame : SessionsFrame) (refs : list SessionRef) : list jstr :=
  set_of (map ref_hostId refs ++ match boundedIdentity (sf_hostId frame) with Some h => [h] | None => [] end).

Definition frame_total (frame : SessionsFrame) : option Z :=
  match sf_totalCount frame with
  | JNum n => match num_safe_integer n with Some z => if 0 <=? z then Some z else None | None => None end
  | _ => None
  end.

Definition sessionFrameMetadata (frame : SessionsFrame) (refs : list SessionRef) (maxIndexed : Z)
    (hosts : list jstr) : jsmap jstr SessionIndexMetadata :=
  let totalCount := frame_total frame in
  let trunc :=
    match sf_truncated frame with
    | JBool b => b
    | _ => match totalCount with None => maxIndexed <=? len refs | Some t => t >? len refs end
    end in
  map_of_entries (map (fun hostId =>
    (hostId, mkMetadata
      (match totalCount with
       | Some t => t
       | None => len (List.filter (fun ref => jstr_eqb (ref_hostId ref) hostId) refs)
       end) trunc)) hosts).

Definition sessionFrameIsComplete (frame : SessionsFrame) (refs : list SessionRef) (maxIndexed : Z) : bool :=
  match sf_truncated frame with
  | JBool true => false
  | t =>
      if match sf_totalCount frame with
         | JNum n => match num_safe_integer n with Some z => z >? len refs | None => false end
         | _ => false
         end then false
      else match t with JBool false => true | _ => len refs <? maxIndexed end
  end.

(** The state the inventory reduction threads through its loops. *)
Record Inventory := mkInventory {
  in_index : jsmap jstr SessionRef;
  in_sessions : jsmap jstr SessionProjection;
  in_deltas : jsmap jstr Cursor;
  in_active : option jstr;
}.

Definition drop_active (k : jstr) (active : option jstr) : option jstr :=
  match active with Some a => if jstr_eqb a k then None else Some a | None => None end.

(** The two removal loops of a complete page: refs, then warm sessions, of the page's hosts
    that the page does not list. *)
Definition remove_missing (hosts incoming : list jstr) (index : jsmap jstr SessionRef) (inv : Inventory) : Inventory :=
  fold_left (fun inv kv =>
    if negb (in_list (ref_hostId (snd kv)) hosts) || in_list (fst kv) incoming then inv
    else mkInventory (mapWithout (in_index inv) (fst kv)) (mapWithout (in_sessions inv) (fst kv))
           (mapWithout (in_deltas inv) (fst kv)) (drop_active (fst kv) (in_active inv))) index inv.

Definition remove_cold (hosts incoming : list jstr) (warm : jsmap jstr SessionProjection) (inv : Inventory) : Inventory :=
  fold_left (fun inv kv =>
    if negb (in_list (sp_hostId (snd kv)) hosts) || in_list (fst kv) incoming then inv
    else mkInventory (in_index inv) (mapWithout (in_sessions inv) (fst kv))
           (mapWithout (in_deltas inv) (fst kv)) (drop_active (fst kv) (in_active inv))) warm inv.

Definition ref_key (ref : SessionRef) : jstr := key (ref_hostId ref) (ref_sessionId ref).

(** Attach the returned refs to the warm sessions they name.  [existing.ref !== ref] holds for
    every freshly sanitised ref. *)
Definition attach_refs (refs : list SessionRef) (sessions : jsmap jstr SessionProjection) : jsmap jstr SessionProjection :=
  fold_left (fun sessions ref =>
    match map_get (ref_key ref) sessions with
    | Some existing => mapWith sessions (ref_key ref) (set_ref existing ref) 256
    | None => sessions
    end) refs sessions.

Definition cursor_behind (previous : option Cursor) (cursor : Cursor) : bool :=
  match previous with
  | Some p => jstr_eqb (epoch p) (epoch cursor) && (seq cursor <? seq p)
  | None => false
  end.

Section Reducer.
Context (localeCompare : jstr -> jstr -> comparison).
Context (parse_url : url_parser).

Definition compare_candidates (l r : jstr * SessionRef) : comparison :=
  match localeCompare (ref_updatedAt (snd l)) (ref_updatedAt (snd r)) with
  | Eq => localeCompare (fst l) (fst r)
  | c => c
  end.

(** [case "sessions"] *)
Definition reduce_sessions (snapshot : ProjectionSnapshot) (frame : SessionsFrame) (config : ProjectionOptions) : ProjectionSnapshot :=
  let arrivalOrdinal := nextArrivalOrdinal snapshot in
  let refs := omap sanitizeSessionRef (slice_first (maxIndexedSessions config) (sf_sessions frame)) in
  let hosts := authoritativeSessionHosts frame refs in
  if existsb (fun host => cursor_behind (map_get host (ps_sessionInventoryCursors snapshot)) (sf_cursor frame)) hosts
  then snapshot
  else
    let incomingKeys := map ref_key refs in
    let start := mkInventory (ps_sessionIndex snapshot) (ps_sessions snapshot) (ps_sessionDeltaCursors snapshot)
                   (ps_activeSessionKey snapshot) in
    let inv :=
      if sessionFrameIsComplete frame refs (maxIndexedSessions config) then
        let listed := remove_missing hosts incomingKeys (ps_sessionIndex snapshot) start in
        remove_cold hosts incomingKeys (in_sessions listed) listed
      else start in
    let retainedCapacity := Z.max 0 (maxIndexedSessions config - len refs) in
    let retainedCandidates :=
      sort compare_candidates (List.filter (fun kv => negb (in_list (fst kv) incomingKeys)) (in_index inv)) in
    let retainedEntries := if retainedCapacity =? 0 then [] else slice_last retainedCapacity retainedCandidates in
    let incomingEntries := map (fun ref => (ref_key ref, ref)) refs in
    let sessionIndex := map_of_entries (retainedEntries ++ incomingEntries) in
    let retainedKeys := map fst retainedEntries in
    let retainedOrdinals := List.filter (fun kv =>
      in_list (fst kv) retainedKeys &&
      match map_get (fst kv) (ps_sessionIndex snapshot) with
      | Some ref => negb (in_list (ref_hostId ref) hosts)
      | None => false
      end) (ps_sessionRefArrivalOrdinals snapshot) in
    let ordinals := map_of_entries (retainedOrdinals ++ map (fun kv => (fst kv, arrivalOrdinal)) incomingEntries) in
    let lru := List.filter (fun k => map_has k (in_sessions inv)) (ps_lru snapshot) in
    let metadata := fold_left (fun m kv => mapWith m (fst kv) (snd kv) (maxIndexedSessions config))
      (sessionFrameMetadata frame refs (maxIndexedSessions config) hosts) (ps_sessionIndexMetadata snapshot) in
    let inventory := fold_left (fun m h => mapWith m h (sf_cursor frame) (maxIndexedSessions config))
      hosts (ps_sessionInventoryCursors snapshot) in
    let next := set_sessions (set_index snapshot sessionIndex metadata ordinals (in_deltas inv) inventory)
      (in_sessions inv) lru (in_active inv) arrivalOrdinal in
    let active := match in_active inv with Some a => Some a | None => mostRecentSessionKey sessionIndex end in
    let next :=
      match active with
      | Some a =>
          let t := touch next a config in
          set_sessions t (ps_sessions t) (ps_lru t) (Some a) (ps_arrivalOrdinal t)
      | None => next
      end in
    let next := set_sessions next (attach_refs refs (ps_sessions next)) (ps_lru next)
      (ps_activeSessionKey next) (ps_arrivalOrdinal next) in
    updateRoot next (Some (sf_cursor frame)) None (Some Fresh).

(** [case "session.delta"] after its guards: the ref changes, the cursors are recorded. *)
Definition apply_delta (snapshot : ProjectionSnapshot) (config : ProjectionOptions) (hostId : jstr) (ownerKey targetKey : jstr)
    (upsert : option SessionRef) (cursor : Cursor) : ProjectionSnapshot :=
  let arrivalOrdinal := nextArrivalOrdinal snapshot in
  let maxIndexed := maxIndexedSessions config in
  let deltas := mapWith (ps_sessionDeltaCursors snapshot) ownerKey cursor maxIndexed in
  let index := ps_sessionIndex snapshot in
  let existingRef := map_get targetKey index in
  let metadata := ps_sessionIndexMetadata snapshot in
  match upsert with
  | Some ref =>
      let canStoreRef := match existingRef with Some _ => true | None => map_size index <? maxIndexed end in
      let ordinals :=
        if canStoreRef then mapWith (ps_sessionRefArrivalOrdinals snapshot) targetKey arrivalOrdinal maxIndexed
        else ps_sessionRefArrivalOrdinals snapshot in
      let index' :=
        match existingRef with
        | None => if canStoreRef then mapWith index targetKey ref maxIndexed else index
        | Some existing =>
            if sameSafeValue (JObj existing) (JObj ref) then index else mapWith index targetKey ref maxIndexed
        end in
      let metadata' :=
        match map_get hostId metadata, existingRef with
        | Some m, None =>
            if md_truncated m then metadata
            else mapWith metadata hostId (mkMetadata (md_totalCount m + 1) (md_truncated m)) maxIndexed
        | _, _ => metadata
        end in
      let sessions :=
        match map_get ownerKey (ps_sessions snapshot) with
        | Some warm => mapWith (ps_sessions snapshot) ownerKey (set_ref warm ref) (maxWarmSessions config)
        | None => ps_sessions snapshot
        end in
      set_sessions (set_index snapshot index' metadata' ordinals deltas (ps_sessionInventoryCursors snapshot))
        sessions (ps_lru snapshot) (ps_activeSessionKey snapshot) arrivalOrdinal
  | None =>
      let lru := List.filter (fun item => negb (jstr_eqb item targetKey)) (ps_lru snapshot) in
      let active :=
        match ps_activeSessionKey snapshot with
        | Some a => if jstr_eqb a targetKey then last_of lru else Some a
        | None => None
        end in
      let metadata' :=
        match map_get hostId metadata, existingRef with
        | Some m, Some _ => mapWith metadata hostId (mkMetadata (Z.max 0 (md_totalCount m - 1)) (md_truncated m)) maxIndexed
        | _, _ => metadata
        end in
      set_sessions (set_index snapshot (mapWithout index targetKey) metadata'
          (mapWithout (ps_sessionRefArrivalOrdinals snapshot) targetKey) deltas (ps_sessionInventoryCursors snapshot))
        (mapWithout (ps_sessions snapshot) targetKey) lru active arrivalOrdinal
  end.

Definition reduce_delta (snapshot : ProjectionSnapshot) (frame : SessionDeltaFrame) (config : ProjectionOptions) : ProjectionSnapshot :=
  match boundedIdentity (sd_hostId frame), boundedIdentity (sd_sessionId frame) with
  | Some hostId, Some frameSessionId =>
      let upsert := sd_upsert frame ≫= sanitizeSessionRef in
      let remove := sd_remove frame ≫= boundedIdentity in
      if match sd_upsert frame, upsert with Some _, None => true | _, _ => false end then snapshot
      else if match upsert with
              | Some ref => negb (jstr_eqb (ref_hostId ref) hostId) || negb (jstr_eqb (ref_sessionId ref) frameSessionId)
              | None => false
              end then snapshot
      else
        let ownerKey := key hostId frameSessionId in
        match upsert, remove with
        | None, None => snapshot
        | _, _ =>
            let targetKey := key hostId (match upsert with None => default [] remove | Some _ => frameSessionId end) in
            if sessionDeltaCursorIsStale (map_get ownerKey (ps_sessionDeltaCursors snapshot)) (sd_cursor frame) then snapshot
            else apply_delta snapshot config hostId ownerKey targetKey upsert (sd_cursor frame)
        end
  | _, _ => snapshot
  end.

(** ** Session transcript frames *)

(** [String(value)] of a JSON value; an object prints as its tag. *)
Fixpoint js_to_string (v : jv) : jstr :=
  match v with
  | JUndef => js "undefined"
  | JNull => js "null"
  | JBool true => js "true"
  | JBool false => js "false"
  | JNum n => num_string n
  | JStr s => s
  | JArr items => join (js ",") (map (fun x => match x with JUndef | JNull => [] | _ => js_to_string x end) items)
  | JObj _ => js "[object Object]"
  end.

(** [String(event.event.entryId ?? "")] *)
Definition event_entry_id (o : list (jstr * jv)) : jstr :=
  match prop (js "entryId") o with JUndef | JNull => [] | v => js_to_string v end.

Definition entry_options (config : ProjectionOptions) : RetainDurableEntryOptions :=
  mkRetainOptions (Some (maxEntries config)) (Some (maxTranscriptBytes config)) (Some (maxEntryBytes config)).

(** The update of [case "snapshot"]. *)
Definition apply_snapshot (frame : SessionSnapshotFrame) (config : ProjectionOptions) (session : SessionProjection) : SessionProjection :=
  let retained := retainDurableEntries (sn_entries frame) (entry_options config) in
  let sameEpoch := match sp_epoch session with Some e => jstr_eqb e (epoch (sn_cursor frame)) | None => false end in
  let preservesEventSuffix :=
    sameEpoch && bool_decide (sp_freshness session = Fresh) && match sp_gap session with None => true | Some _ => false end in
  set_transcript session (ret_entries retained) (map entry_id (ret_entries retained)) (ret_truncated retained)
    (if preservesEventSuffix then sp_events session
     else if sameEpoch then
       List.filter (fun e => type_is (event e) (js "message.settled") || type_is (event e) (js "message.discarded"))
         (sp_events session)
     else [])
    (if preservesEventSuffix then sp_transcriptEventArrivalOrdinal session else 0)
    (if preservesEventSuffix then sp_contextMaintenanceEventArrivalOrdinal session else 0)
    (Some (sn_revision frame)) (sn_cursor frame) Fresh None.

Definition reduce_snapshot (snapshot : ProjectionSnapshot) (frame : SessionSnapshotFrame) (config : ProjectionOptions) : ProjectionSnapshot :=
  let sessionKey := key (sn_hostId frame) (sn_sessionId frame) in
  if match map_get sessionKey (ps_sessions snapshot) with
     | Some current =>
         match sp_cursor current with
         | Some c =>
             jstr_eqb (epoch c) (epoch (sn_cursor frame)) &&
             ((seq (sn_cursor frame) <? seq c) ||
              ((seq (sn_cursor frame) =? seq c) && negb (bool_decide (sp_freshness current = Cached))))
         | None => false
         end
     | None => false
     end
  then snapshot
  else
    let next := withSession snapshot sessionKey (fun s => Some (apply_snapshot frame config s)) config None in
    let root := updateRoot next (Some (sn_cursor frame)) (Some (epoch (sn_cursor frame))) (Some Fresh) in
    set_sessions root (ps_sessions root) (ps_lru root) (Some (default sessionKey (ps_activeSessionKey next)))
      (ps_arrivalOrdinal root).

(** The update of [case "entry"]. *)
Definition apply_entry (frame : DurableEntryFrame) (config : ProjectionOptions) (session : SessionProjection) : SessionProjection :=
  let id := entry_id (ef_entry frame) in
  let retiredEvents := List.filter (fun e =>
    type_is (event e) (js "message.settled") || negb (jstr_eqb (event_entry_id (event e)) id)) (sp_events session) in
  if in_list id (sp_entryIds session) then
    set_transcript session (sp_entries session) (sp_entryIds session) (sp_historyTruncated session) retiredEvents
      (sp_transcriptEventArrivalOrdinal session) (sp_contextMaintenanceEventArrivalOrdinal session)
      (Some (ef_revision frame)) (ef_cursor frame) (sp_freshness session) (sp_gap session)
  else
    let retained := appendRetainedDurableEntry (sp_entries session) (ef_entry frame) (entry_options config) in
    set_transcript session (ret_entries retained) (map entry_id (ret_entries retained))
      (sp_historyTruncated session || ret_truncated retained) retiredEvents
      (sp_transcriptEventArrivalOrdinal session) (sp_contextMaintenanceEventArrivalOrdinal session)
      (Some (ef_revision frame)) (ef_cursor frame) Fresh None.

(** The object [appendRetainedValue] measures for a retained event frame. *)
Definition event_frame_json (f : LiveEventFrame) : jv :=
  JObj [(js "cursor", cursor_json (ev_cursor f)); (js "hostId", JStr (ev_hostId f)); (js "sessionId", JStr (ev_sessionId f));
        (js "event", JObj (event f)); (js "type", JStr (js "event"))].

(** The update of [case "event"]. *)
Definition apply_event (frame : LiveEventFrame) (config : ProjectionOptions) (ordinal : Z) (session : SessionProjection) : SessionProjection :=
  let ev := event frame in
  let transientEntryId :=
    match (if type_is ev (js "message.settled") || type_is ev (js "message.discarded")
           then obj_string ev (js "transientEntryId") else None) with
    | Some t => Some t
    | None => if type_is ev (js "message.discarded") then obj_string ev (js "entryId") else None
    end in
  let retiredEvents :=
    match transientEntryId with
    | None => sp_events session
    | Some t => List.filter (fun e => negb (jstr_eqb (event_entry_id (event e)) t)) (sp_events session)
    end in
  let sanitizedEvent := mkEvent (ev_cursor frame) (ev_hostId frame) (ev_sessionId frame)
    (sanitizeRetainedRecord (JObj ev) (maxEventBytes config)) in
  set_transcript session (sp_entries session) (sp_entryIds session) (sp_historyTruncated session)
    (fst (appendRetainedValue event_frame_json retiredEvents sanitizedEvent
            (Some (maxEvents config)) (Some (maxEventsBytes config))))
    ordinal
    (if eventChangesContextMaintenance ev then ordinal else sp_contextMaintenanceEventArrivalOrdinal session)
    (sp_revision session) (ev_cursor frame) Fresh None.

Definition catching_up (gap : option GapFrame) (session : SessionProjection) : SessionProjection :=
  set_freshness session CatchingUp gap (sp_transcriptEventArrivalOrdinal session)
    (sp_contextMaintenanceEventArrivalOrdinal session).

(** The admission that [case "entry"] and [case "event"] share. *)
Definition stream_state (snapshot : ProjectionSnapshot) (sessionKey : jstr) (cursor : Cursor) : cursor_state :=
  match map_get sessionKey (ps_sessions snapshot) with
  | None => Accept
  | Some current => cursorState current cursor
  end.

Definition reduce_entry (snapshot : ProjectionSnapshot) (frame : DurableEntryFrame) (config : ProjectionOptions) : ProjectionSnapshot :=
  let sessionKey := key (ef_hostId frame) (ef_sessionId frame) in
  match stream_state snapshot sessionKey (ef_cursor frame) with
  | Duplicate => snapshot
  | Gap => withSession snapshot sessionKey (fun s => Some (catching_up (sp_gap s) s)) config None
  | Accept => withSession snapshot sessionKey (fun s => Some (apply_entry frame config s)) config None
  end.

Definition reduce_event (snapshot : ProjectionSnapshot) (frame : LiveEventFrame) (config : ProjectionOptions) : ProjectionSnapshot :=
  let sessionKey := key (ev_hostId frame) (ev_sessionId frame) in
  match stream_state snapshot sessionKey (ev_cursor frame) with
  | Duplicate => snapshot
  | Gap => withSession snapshot sessionKey (fun s => Some (catching_up (sp_gap s) s)) config None
  | Accept =>
      let ordinal := nextArrivalOrdinal snapshot in
      withSession snapshot sessionKey (fun s => Some (apply_event frame config ordinal s)) config (Some ordinal)
  end.

Definition reduce_gap (snapshot : ProjectionSnapshot) (frame : GapFrame) (config : ProjectionOptions) : ProjectionSnapshot :=
  withSession snapshot (key (gap_hostId frame) (gap_sessionId frame))
    (fun s => Some (catching_up (Some frame) s)) config None.
(** ** Agents, connection and workspaces *)

Definition reduce_agent (snapshot : ProjectionSnapshot) (frame : AgentFrame) (config : ProjectionOptions) : ProjectionSnapshot :=
  withSession snapshot (key (ag_hostId frame) (ag_sessionId frame))
    (fun s => Some (set_agents s
      (mapWith (sp_agents s) (ag_agentId frame)
         (mkAgent (ag_hostId frame) (ag_sessionId frame) (ag_agentId frame) (ag_state frame) (ag_progress frame)
            (safeValue <$> ag_detail frame)) 256)
      (sp_agentTranscripts s))) config None.

Definition reduce_agent_transcript (snapshot : ProjectionSnapshot) (frame : AgentTranscriptFrame) (config : ProjectionOptions) : ProjectionSnapshot :=
  withSession snapshot (key (at_hostId frame) (at_sessionId frame))
    (fun s =>
       match agentTranscriptProjection (map_get (at_agentId frame) (sp_agentTranscripts s)) frame
               (maxAgentTranscriptEntries config) (maxAgentTranscriptBytes config) (maxEntryBytes config) with
       | None => None
       | Some transcript =>
           Some (set_agents s (sp_agents s)
             (mapWith (sp_agentTranscripts s) (at_agentId frame) transcript (maxAgentTranscripts config)))
       end) config None.

Record WelcomeFrame := mkWelcome { wl_hostId : jstr; wl_epoch : jstr }.

Definition set_preview_freshness (p : PreviewProjection) (f : PreviewFreshness) : PreviewProjection :=
  mkPreview (pv_hostId p) (pv_sessionId p) (pv_previewId p) (pv_state p) (pv_url p) (pv_revision p) (pv_cursor p)
    (pv_title p) (pv_canGoBack p) (pv_canGoForward p) (pv_viewport p) (pv_capture p) (pv_authority p)
    (pv_availableActions p) (pv_error p) f.

(** What a welcome does to one session of its host. *)
Definition welcome_session (epochChanged : bool) (s : SessionProjection) : SessionProjection :=
  let s' := if epochChanged then set_freshness s CatchingUp (sp_gap s) 0 0 else s in
  set_previews s'
    (map (fun kv => (fst kv, set_preview_freshness (snd kv) (PreviewFresh CatchingUp))) (sp_previews s))
    (sp_previewEvents s').

Definition reduce_welcome (snapshot : ProjectionSnapshot) (frame : WelcomeFrame) : ProjectionSnapshot :=
  let host := wl_hostId frame in
  let epochChanged := match ps_epoch snapshot with Some e => negb (jstr_eqb e (wl_epoch frame)) | None => false end in
  let sessions := map (fun kv =>
    (fst kv, if jstr_eqb (sp_hostId (snd kv)) host then welcome_session epochChanged (snd kv) else snd kv))
    (ps_sessions snapshot) in
  let next := set_sessions
    (set_index snapshot (ps_sessionIndex snapshot) (mapWithout (ps_sessionIndexMetadata snapshot) host)
       (withoutHostRefOrdinals (ps_sessionRefArrivalOrdinals snapshot) host) (ps_sessionDeltaCursors snapshot)
       (mapWithout (ps_sessionInventoryCursors snapshot) host))
    sessions (ps_lru snapshot) (ps_activeSessionKey snapshot) (ps_arrivalOrdinal snapshot) in
  updateRoot next None (Some (wl_epoch frame)) (Some (if epochChanged then CatchingUp else Fresh)).

(** The "workspace.state" frame, its payload still unvalidated JSON. *)
Record WorkspaceFrame := mkWorkspaceFrame {
  wf_hostId : jv;
  wf_workspaceId : jv;
  wf_cursor : Cursor;
  wf_upsert : option jv;
  wf_remove : option jstr;
}.

(** [case "workspace.state"]; a payload that does not decode throws ([Fail]). *)
Definition reduce_workspace (snapshot : ProjectionSnapshot) (frame : WorkspaceFrame) (config : ProjectionOptions) : wire ProjectionSnapshot :=
  match boundedIdentity (wf_hostId frame), boundedIdentity (wf_workspaceId frame) with
  | Some host, Some workspaceId =>
      if sessionDeltaCursorIsStale (map_get host (ps_workspaceCursors snapshot)) (wf_cursor frame) then Ok snapshot
      else
        let record := fun workspaces =>
          Ok (set_workspaces snapshot workspaces
                (mapWith (ps_workspaceCursors snapshot) host (wf_cursor frame) (maxWorkspaces config))) in
        match wf_upsert frame, wf_remove frame with
        | Some u, _ =>
            workspace <-- decodeWorkspaceInfrastructureProjection u ;;
            if negb (jstr_eqb (ws_id workspace) workspaceId) then Ok snapshot
            else record (mapWith (ps_workspaces snapshot) (key host workspaceId) workspace (maxWorkspaces config))
        | None, Some r =>
            if negb (jstr_eqb r workspaceId) then Ok snapshot
            else record (mapWithout (ps_workspaces snapshot) (key host workspaceId))
        | None, None => Ok snapshot
        end
  | _, _ => Ok snapshot
  end.

(** The decoding loop of [applyWorkspaceInventory]. *)
Fixpoint store_workspaces (host : jstr) (max : Z) (raw : list jv)
    (workspaces : jsmap jstr WorkspaceInfrastructureProjection) : wire (jsmap jstr WorkspaceInfrastructureProjection) :=
  match raw with
  | [] => Ok workspaces
  | r :: rest =>
      workspace <-- decodeWorkspaceInfrastructureProjection r ;;
      store_workspaces host max rest (mapWith workspaces (key host (ws_id workspace)) workspace max)
  end.

Definition applyWorkspaceInventory (snapshot : ProjectionSnapshot) (host : jstr) (workspaces : list jv)
    (cursor : option Cursor) (max : Z) : wire ProjectionSnapshot :=
  if match cursor with
     | Some c => cursor_behind (map_get host (ps_workspaceCursors snapshot)) c
     | None => false
     end then Ok snapshot
  else
    let kept := List.filter (fun kv => negb (starts_with (host ++ [0%N]) (fst kv))) (ps_workspaces snapshot) in
    next <-- store_workspaces host max (slice_first max workspaces) kept ;;
    Ok (set_workspaces snapshot next
          (match cursor with
           | Some c => mapWith (ps_workspaceCursors snapshot) host c max
           | None => ps_workspaceCursors snapshot
           end)).

(** ** Resource frames ([projection-resource-reducers.ts]) *)

Definition confirmationsAfterResponse (confirmations : jsmap jstr ConfirmationFrame) (frame : ResponseFrame)
    : jsmap jstr ConfirmationFrame :=
  let invalid := match rs_error frame with Some (code, _) => jstr_eqb code (js "confirmation_invalid") | None => false end in
  let commandId := default (js "undefined") (rs_commandId frame) in
  List.filter (fun kv => negb (jstr_eqb (cf_commandId (snd kv)) commandId) || invalid) confirmations.

Definition resultProjection (frame : ResponseFrame) : ResultProjection :=
  mkResult (rs_requestId frame) (rs_commandId frame) (rs_ok frame) (safeValue <$> rs_result frame) (rs_error frame).

Definition attachAcknowledgesCurrentCursor (session : SessionProjection) (frame : ResponseFrame) : bool :=
  match rs_ok frame, rs_command frame, sp_cursor session, rs_result frame with
  | true, Some command, Some c, Some (JObj result) =>
      jstr_eqb command (js "session.attach") &&
      match prop (js "attached") result with JBool true => true | _ => false end &&
      match decodeCursor (prop (js "cursor") result) with
      | Ok r => jstr_eqb (epoch r) (epoch c) && (seq r =? seq c)
      | Fail _ => false
      end
  | _, _, _, _ => false
  end.

Definition reduce_response (snapshot : ProjectionSnapshot) (frame : ResponseFrame) (config : ProjectionOptions) : ProjectionSnapshot :=
  match rs_sessionId frame with
  | None => snapshot
  | Some sessionId =>
      withSession snapshot (key (rs_hostId frame) sessionId)
        (fun s =>
           let s' := set_results s (confirmationsAfterResponse (sp_confirmations s) frame)
                       (mapWith (sp_results s) (rs_requestId frame) (resultProjection frame) 256) in
           Some (if attachAcknowledgesCurrentCursor s frame
                 then set_freshness s' Fresh None (sp_transcriptEventArrivalOrdinal s')
                        (sp_contextMaintenanceEventArrivalOrdinal s')
                 else s')) config None
  end.

Definition reduce_confirmation (snapshot : ProjectionSnapshot) (frame : ConfirmationFrame) (config : ProjectionOptions) : ProjectionSnapshot :=
  match cf_sessionId frame with
  | None => snapshot
  | Some sessionId =>
      withSession snapshot (key (cf_hostId frame) sessionId)
        (fun s => Some (set_results s (mapWith (sp_confirmations s) (cf_confirmationId frame) frame 256) (sp_results s)))
        config None
  end.

Definition reduce_audit (snapshot : ProjectionSnapshot) (frame : AuditFrame) (config : ProjectionOptions) : ProjectionSnapshot :=
  match au_sessionId frame with
  | None => snapshot
  | Some sessionId =>
      withSession snapshot (key (au_hostId frame) sessionId)
        (fun s => Some (set_resources s (sp_terminals s) (sp_files s) (sp_reviews s)
           (appendBounded (sp_audit s)
              (mkAudit (au_hostId frame) (au_sessionId frame) (au_action frame) (au_actor frame) (au_timestamp frame)
                 (safeValue <$> au_detail frame)) (maxAudit config)))) config None
  end.

Definition reduce_review (snapshot : ProjectionSnapshot) (frame : ReviewFrame) (config : ProjectionOptions) : ProjectionSnapshot :=
  withSession snapshot (key (rf_hostId frame) (rf_sessionId frame))
    (fun s => Some (set_resources s (sp_terminals s) (sp_files s)
       (mapWith (sp_reviews s) (rf_reviewId frame)
          (mkReviewFrame (rf_hostId frame) (rf_sessionId frame) (rf_reviewId frame) (rf_status frame) (rf_path frame)
             (map safeValue (rf_findings frame))) 256)
       (sp_audit s))) config None.

Definition reduce_files (snapshot : ProjectionSnapshot) (frame : FileFrame) (config : ProjectionOptions) : ProjectionSnapshot :=
  withSession snapshot (key (file_hostId frame) (file_sessionId frame))
    (fun s => Some (set_resources s (sp_terminals s)
       (retainFileProjection (sp_files s) (path frame) frame config) (sp_reviews s) (sp_audit s))) config None.

(** The terminal state after one frame. *)
Definition terminal_after (existing : TerminalProjection) (frame : TerminalFrame) : TerminalProjection :=
  let text := default [] (tf_data frame) in
  let exit := match tf_exitCode frame with Some c => Some c | None => exitCode existing end in
  match tf_stream frame with
  | TStdout => mkTerminal (terminalId existing) (stdout existing ++ text) (stderr existing) exit (closed existing)
  | TStderr => mkTerminal (terminalId existing) (stdout existing) (stderr existing ++ text) exit (closed existing)
  | TExit => mkTerminal (terminalId existing) (stdout existing) (stderr existing) exit true
  end.

Definition reduce_terminal (snapshot : ProjectionSnapshot) (frame : TerminalFrame) (config : ProjectionOptions) : ProjectionSnapshot :=
  withSession snapshot (key (tf_hostId frame) (tf_sessionId frame))
    (fun s =>
       let existing := default (mkTerminal (tf_terminalId frame) [] [] None false)
                         (map_get (tf_terminalId frame) (sp_terminals s)) in
       let preferred := match tf_stream frame with TStderr => Stderr | _ => Stdout end in
       Some (set_resources s
         (retainTerminalProjection (sp_terminals s) (tf_terminalId frame) (terminal_after existing frame) config preferred)
         (sp_files s) (sp_reviews s) (sp_audit s))) config None.

(** A preview that misses frames becomes stale, once. *)
Definition mark_stale (previewMapKey : jstr) (config : ProjectionOptions) (s : SessionProjection) : option SessionProjection :=
  match map_get previewMapKey (sp_previews s) with
  | None => None
  | Some previous =>
      if bool_decide (pv_freshness previous = Stale) then None
      else Some (set_previews s
             (mapWith (sp_previews s) previewMapKey (set_preview_freshness previous Stale) (maxPreviews config))
             (sp_previewEvents s))
  end.

Definition reduce_preview (snapshot : ProjectionSnapshot) (frame : PreviewFrame) (config : ProjectionOptions) : ProjectionSnapshot :=
  let sessionKey := key (pf_hostId frame) (pf_sessionId frame) in
  let previewMapKey := previewKey (pf_hostId frame) (pf_sessionId frame) (pf_previewId frame) in
  let current := map_get sessionKey (ps_sessions snapshot) ≫= (fun s => map_get previewMapKey (sp_previews s)) in
  let order := previewCursorState current (pf_cursor frame) in
  let baseline := match pf_type frame with PreviewLaunch | PreviewState => true | _ => false end in
  let stale := withSession snapshot sessionKey (mark_stale previewMapKey config) config None in
  match baseline, order with
  | false, Duplicate => snapshot
  | false, Gap => stale
  | _, _ =>
      if negb baseline && match current with
                          | Some c => negb (bool_decide (pv_freshness c = PreviewFresh Fresh))
                          | None => false
                          end then stale
      else
        let projected := previewProjection frame current in
        let activity := previewActivity parse_url frame projected in
        withSession snapshot sessionKey
          (fun s => Some (set_previews s (mapWith (sp_previews s) previewMapKey projected (maxPreviews config))
             (match activity with
              | None => sp_previewEvents s
              | Some a => appendPreviewActivity (sp_previewEvents s) a (maxPreviewEvents config)
              end))) config None
  end.

(** ** Dispatch *)

Inductive ProjectionInput :=
| InPreview (f : PreviewFrame)
| InTerminal (f : TerminalFrame)
| InFiles (f : FileFrame)
| InReview (f : ReviewFrame)
| InAudit (f : AuditFrame)
| InConfirmation (f : ConfirmationFrame)
| InResponse (f : ResponseFrame)
| InWorkspace (f : WorkspaceFrame)
| InSessions (f : SessionsFrame)
| InDelta (f : SessionDeltaFrame)
| InSnapshot (f : SessionSnapshotFrame)
| InEntry (f : DurableEntryFrame)
| InEvent (f : LiveEventFrame)
| InGap (f : GapFrame)
| InAgent (f : AgentFrame)
| InAgentTranscript (f : AgentTranscriptFrame)
| InWelcome (f : WelcomeFrame)
| InOther.

(** [applyProjectionInput] *)
Definition applyProjectionInput (snapshot : ProjectionSnapshot) (frame : ProjectionInput) (options : PartialOptions)
    : wire ProjectionSnapshot :=
  let config := resolveProjectionOptions options in
  match frame with
  | InPreview f => Ok (reduce_preview snapshot f config)
  | InTerminal f => Ok (reduce_terminal snapshot f config)
  | InFiles f => Ok (reduce_files snapshot f config)
  | InReview f => Ok (reduce_review snapshot f config)
  | InAudit f => Ok (reduce_audit snapshot f config)
  | InConfirmation f => Ok (reduce_confirmation snapshot f config)
  | InResponse f => Ok (reduce_response snapshot f config)
  | InWorkspace f => reduce_workspace snapshot f config
  | InSessions f => Ok (reduce_sessions snapshot f config)
  | InDelta f => Ok (reduce_delta snapshot f config)
  | InSnapshot f => Ok (reduce_snapshot snapshot f config)
  | InEntry f => Ok (reduce_entry snapshot f config)
  | InEvent f => Ok (reduce_event snapshot f config)
  | InGap f => Ok (reduce_gap snapshot f config)
  | InAgent f => Ok (reduce_agent snapshot f config)
  | InAgentTranscript f => Ok (reduce_agent_transcript snapshot f config)
  | InWelcome f => Ok (reduce_welcome snapshot f)
  | InOther => Ok snapshot
  end.
End Reducer.
