(* ===== verification/ClientInvariant.v ===== *)
(** * ClientInvariant: what every frame leaves true of the client projection

    The warm-session set and the least-recently-used list agree and stay bounded, the active
    session is warm, and every retained collection of every session respects its budget. *)
From stdpp Require Import base tactics option list numbers strings sets.
From S2P Require Import Prelude JsMap JsString JsValue Wire WireGuards WireFrames Retention RetentionSpec.
From S2P Require Import ProjectionSanitize Preview ProjectionOptions ResourceRetention ResourceRetentionSpec ClientProjection.

(** ** Bounded maps *)
Section BoundedMaps.
Context {K V : Type} `{EqDecision K}.
Implicit Types (m : jsmap K V).

Lemma drop_oldest_suffix max m : drop_oldest max m `suffix_of` m.
Proof.
  induction m as [|kv m IH]; [done|]. cbn [drop_oldest]. destruct (_ >? _); [|done]. by apply suffix_cons_r.
Qed.

Lemma drop_oldest_size max m : 0 <= max -> map_size (drop_oldest max m) <= max.
Proof.
  intros Hm. induction m as [|kv m IH]; [done|]. cbn [drop_oldest].
  destruct (len (kv :: m) >? max) eqn:E; [done|]. bool_hyps. done.
Qed.

Lemma drop_oldest_id max m : map_size m <= max -> drop_oldest max m = m.
Proof.
  intros Hm. destruct m as [|kv m]; [done|]. cbn [drop_oldest]. unfold map_size in Hm.
  destruct (len (kv :: m) >? max) eqn:E; [bool_hyps; lia|done].
Qed.

Lemma suffix_wf m m' : m `suffix_of` m' -> map_wf m' -> map_wf m.
Proof. intros Hs. unfold map_wf, map_keys. apply NoDup_suffix. by apply suffix_map. Qed.

Lemma mapWith_wf m k v max : map_wf m -> map_wf (mapWith m k v max).
Proof. intros. eapply suffix_wf; [apply drop_oldest_suffix|]. by apply map_wf_set. Qed.

Lemma mapWith_size m k v max : 0 <= max -> map_size (mapWith m k v max) <= max.
Proof. apply drop_oldest_size. Qed.

(** Nothing is dropped when the key is present or there is room. *)
Lemma mapWith_fits m k v max :
  map_size m <= max -> (map_has k m = false -> map_size m + 1 <= max) -> mapWith m k v max = map_set k v m.
Proof.
  intros Hs Hr. apply drop_oldest_id. rewrite map_size_set. destruct (map_has k m); [done|auto].
Qed.

Lemma mapWith_Forall (P : V -> Prop) m k v max :
  Forall (fun kv => P (snd kv)) m -> P v -> Forall (fun kv => P (snd kv)) (mapWith m k v max).
Proof.
  intros Hm Hv. eapply Forall_suffix; [apply drop_oldest_suffix|].
  induction Hm as [|[a b] m Hb Hm IH]; simpl; [by constructor|].
  destruct (decide (k = a)); by constructor.
Qed.

Lemma map_delete_Forall (P : V -> Prop) m k :
  Forall (fun kv => P (snd kv)) m -> Forall (fun kv => P (snd kv)) (map_delete k m).
Proof.
  rewrite !Forall_forall. intros Hm kv Hin. apply elem_of_filter_list in Hin as [Hin _]. auto.
Qed.

Lemma map_get_Forall (P : V -> Prop) m k v :
  Forall (fun kv => P (snd kv)) m -> map_get k m = Some v -> P v.
Proof. rewrite Forall_forall. intros Hm Hg%map_get_some_in. by apply (Hm (k, v)). Qed.

(** A well-formed map of at most [max] entries. *)
Definition bounded_map (max : Z) m : Prop := map_wf m /\ map_size m <= max.

Lemma bounded_mapWith m k v max : 0 <= max -> map_wf m -> bounded_map max (mapWith m k v max).
Proof. intros. split; [by apply mapWith_wf|by apply mapWith_size]. Qed.

Lemma bounded_delete m k max : bounded_map max m -> bounded_map max (map_delete k m).
Proof. intros [? ?]. split; [by apply map_wf_delete|]. pose proof (map_size_delete_le k m). lia. Qed.

Lemma bounded_filter (P : K * V -> bool) m max : bounded_map max m -> bounded_map max (List.filter P m).
Proof.
  intros [? ?]. split; [by apply map_filter_wf|]. unfold map_size in *. pose proof (len_filter_le P m). lia.
Qed.
End BoundedMaps.

#[export] Hint Resolve mapWith_wf bounded_mapWith bounded_delete bounded_filter : omp.

(** ** The invariant *)

(** The limits the theorems ask of the options; the defaults satisfy them. *)
Record options_ok (c : ProjectionOptions) : Prop := {
  oo_warm : 1 <= maxWarmSessions c <= 255;
  oo_indexed : 1 <= maxIndexedSessions c;
  oo_workspaces : 1 <= maxWorkspaces c;
  oo_audit : 1 <= maxAudit c;
  oo_agents : 0 <= maxAgentTranscripts c;
  oo_terminals : 1 <= maxTerminals c;
  oo_terminalBytes : 0 <= maxTerminalBytes c;
  oo_files : 1 <= maxFiles c;
  oo_filesBytes : 0 <= maxFilesBytes c;
  oo_previews : 0 <= maxPreviews c;
  oo_previewEvents : 1 <= maxPreviewEvents c;
}.

(** The transcript budget in force under [c]. *)
Definition transcript_bytes (c : ProjectionOptions) : Z :=
  boundedInteger (Some (maxTranscriptBytes c)) MAX_RETAINED_TRANSCRIPT_BYTES MAX_RETAINED_TRANSCRIPT_BYTES.
Definition transcript_entries (c : ProjectionOptions) : Z :=
  boundedInteger (Some (maxEntries c)) MAX_RETAINED_TRANSCRIPT_ENTRIES MAX_RETAINED_TRANSCRIPT_ENTRIES.

Record transcript_ok (c : ProjectionOptions) (entries : list DurableEntry) (ids : list jstr) : Prop := {
  to_ids : ids = map entry_id entries;
  to_nodup : NoDup ids;
  to_count : len entries <= transcript_entries c;
  to_bytes : json_bytes (JArr (map entry_json entries)) <= Z.max 2 (transcript_bytes c);
}.

Record session_ok (c : ProjectionOptions) (s : SessionProjection) : Prop := {
  so_transcript : transcript_ok c (sp_entries s) (sp_entryIds s);
  so_events : len (sp_events s) <= MAX_RETAINED_SESSION_EVENTS;
  so_agents : bounded_map 256 (sp_agents s);
  so_agentTranscripts : bounded_map (maxAgentTranscripts c) (sp_agentTranscripts s);
  so_terminals : bounded_map (maxTerminals c) (sp_terminals s);
  so_terminalBytes : map_sum terminalProjectionBytes (sp_terminals s) <= maxTerminalBytes c;
  so_files : bounded_map (maxFiles c) (sp_files s);
  so_fileBytes : map_sum fileProjectionBytes (sp_files s) <= maxFilesBytes c;
  so_reviews : bounded_map 256 (sp_reviews s);
  so_audit : len (sp_audit s) <= maxAudit c;
  so_confirmations : bounded_map 256 (sp_confirmations s);
  so_results : bounded_map 256 (sp_results s);
  so_previews : bounded_map (maxPreviews c) (sp_previews s);
  so_previewEvents : len (sp_previewEvents s) <= maxPreviewEvents c;
}.

(** Warm sessions, their recency list and the active session. *)
Record warm_ok (c : ProjectionOptions) (sessions : jsmap jstr SessionProjection) (lru : list jstr)
    (active : option jstr) : Prop := {
  wm_wf : map_wf sessions;
  wm_nodup : NoDup lru;
  wm_dom : forall k, k ∈ lru <-> k ∈ map_keys sessions;
  wm_size : len lru <= maxWarmSessions c;
  wm_active : forall a, active = Some a -> a ∈ lru;
  wm_sessions : Forall (fun kv => session_ok c (snd kv)) sessions;
}.

Record projection_ok (c : ProjectionOptions) (p : ProjectionSnapshot) : Prop := {
  po_warm : warm_ok c (ps_sessions p) (ps_lru p) (ps_activeSessionKey p);
  po_index : bounded_map (maxIndexedSessions c) (ps_sessionIndex p);
  po_metadata : bounded_map (maxIndexedSessions c) (ps_sessionIndexMetadata p);
  po_ordinals : bounded_map (maxIndexedSessions c) (ps_sessionRefArrivalOrdinals p);
  po_deltas : bounded_map (maxIndexedSessions c) (ps_sessionDeltaCursors p);
  po_inventory : bounded_map (maxIndexedSessions c) (ps_sessionInventoryCursors p);
  po_workspaces : bounded_map (maxWorkspaces c) (ps_workspaces p);
  po_workspaceCursors : bounded_map (maxWorkspaces c) (ps_workspaceCursors p);
  po_ordinal : 0 <= ps_arrivalOrdinal p <= MAX_SAFE_INTEGER;
}.

(** ** Warm sessions *)

Lemma elem_of_without (k x : jstr) lru : x ∈ List.filter (fun item => negb (jstr_eqb item k)) lru <-> x ∈ lru /\ x ≠ k.
Proof. rewrite elem_of_filter_list, negb_true_iff, jstr_eqb_neq. done. Qed.

Lemma in_list_true k l : in_list k l = true <-> k ∈ l.
Proof.
  unfold in_list. rewrite existsb_exists. split.
  - intros (x & Hin & Hx). apply jstr_eqb_eq in Hx. subst. by apply list_elem_of_In.
  - intros H. exists k. split; [by apply list_elem_of_In|apply jstr_eqb_refl].
Qed.

Lemma in_list_false k l : in_list k l = false <-> k ∉ l.
Proof. rewrite <- in_list_true. destruct (in_list k l); naive_solver. Qed.

Lemma lru_size (lru : list jstr) (sessions : jsmap jstr SessionProjection) :
  NoDup lru -> map_wf sessions -> (forall k, k ∈ lru <-> k ∈ map_keys sessions) -> map_size sessions = len lru.
Proof.
  intros Hn Hw Hd. assert (lru ≡ₚ map_keys sessions) as Hp by (by apply NoDup_Permutation).
  unfold map_size. rewrite <- (len_map fst). fold (map_keys sessions). unfold len. by rewrite Hp.
Qed.

(** The recency list and the session map, without bound on their size. *)
Record lru_ok (c : ProjectionOptions) (lru : list jstr) (sessions : jsmap jstr SessionProjection) : Prop := {
  lo_wf : map_wf sessions;
  lo_nodup : NoDup lru;
  lo_dom : forall k, k ∈ lru <-> k ∈ map_keys sessions;
  lo_sessions : Forall (fun kv => session_ok c (snd kv)) sessions;
}.

Lemma lru_ok_delete c k lru sessions :
  lru_ok c lru sessions -> lru_ok c (List.filter (fun item => negb (jstr_eqb item k)) lru) (map_delete k sessions).
Proof.
  intros [H1 H2 H3 H4]. constructor.
  - by apply map_wf_delete.
  - by apply NoDup_filter_list.
  - intros x. rewrite elem_of_without, elem_of_keys_delete, H3. tauto.
  - by apply map_delete_Forall.
Qed.

Lemma lru_ok_shift c k lru sessions : lru_ok c (k :: lru) sessions -> lru_ok c lru (map_delete k sessions).
Proof.
  intros [H1 [Hk H2]%NoDup_cons H3 H4]. constructor; [by apply map_wf_delete|done| |by apply map_delete_Forall].
  intros x. rewrite elem_of_keys_delete, <- H3, elem_of_cons. split; [|tauto]. intros Hx. split; [|tauto].
  intros ->. done.
Qed.

Lemma evict_lru_spec c max lru sessions lru' sessions' :
  0 <= max -> lru_ok c lru sessions -> evict_lru max lru sessions = (lru', sessions') ->
  lru_ok c lru' sessions' /\ len lru' <= max /\ lru' `suffix_of` lru /\
  (forall k, k ∈ lru' -> map_get k sessions' = map_get k sessions) /\ (1 <= max -> last_of lru' = last_of lru).
Proof.
  intros Hm. revert sessions. induction lru as [|k lru IH]; intros sessions Hok; cbn [evict_lru].
  { intros [= <- <-]. split_and!; try done. }
  destruct (len (k :: lru) >? max) eqn:E; bool_hyps.
  2: { intros [= <- <-]. split_and!; done. }
  intros Hr. apply IH in Hr as (H1 & H2 & H3 & H4 & H5); [|by apply lru_ok_shift].
  assert (k ∉ lru) as Hk by (by destruct Hok as [_ [Hn _]%NoDup_cons _ _]).
  split_and!; [done|done|by apply suffix_cons_r| |].
  - intros x Hx. rewrite H4 by done. apply map_get_delete_ne. intros ->. apply Hk.
    destruct H3 as [o ->]. set_solver.
  - intros H1m. rewrite H5 by done. destruct lru; [|done]. rewrite len_cons, len_nil in E. lia.
Qed.

Lemma NoDup_without_snoc (k : jstr) lru :
  NoDup lru -> NoDup (List.filter (fun item => negb (jstr_eqb item k)) lru ++ [k]).
Proof.
  intros. apply NoDup_app. split_and!; [by apply NoDup_filter_list| |apply NoDup_singleton].
  intros x Hx%elem_of_without. set_solver.
Qed.

Lemma transcript_ok_nil c : transcript_ok c [] [].
Proof.
  constructor; [done|constructor| |].
  - rewrite len_nil. pose proof (boundedInteger_range (Some (maxEntries c)) MAX_RETAINED_TRANSCRIPT_ENTRIES
      MAX_RETAINED_TRANSCRIPT_ENTRIES ltac:(done) ltac:(done)). unfold transcript_entries. lia.
  - change (json_bytes (JArr (map entry_json []))) with 2. lia.
Qed.

Lemma initialSession_ok c h s : options_ok c -> session_ok c (initialSession h s).
Proof.
  intros []. constructor; simpl; try (split; [apply map_wf_nil|]); try apply transcript_ok_nil;
    unfold map_size, map_sum; rewrite ?len_nil; simpl; try done; lia.
Qed.

Lemma session_of_key_ok c k : options_ok c -> session_ok c (session_of_key k).
Proof. intros. unfold session_of_key. destruct (split_on 0 k) as [|? [|]]; by apply initialSession_ok. Qed.

(** The session [touch] leaves at its key. *)
Definition warm_session (p : ProjectionSnapshot) (k : jstr) : SessionProjection :=
  default (session_of_key k) (map_get k (ps_sessions p)).

Lemma touch_other p k c :
  ps_sessionIndex (touch p k c) = ps_sessionIndex p /\ ps_sessionIndexMetadata (touch p k c) = ps_sessionIndexMetadata p /\
  ps_sessionRefArrivalOrdinals (touch p k c) = ps_sessionRefArrivalOrdinals p /\
  ps_sessionDeltaCursors (touch p k c) = ps_sessionDeltaCursors p /\
  ps_sessionInventoryCursors (touch p k c) = ps_sessionInventoryCursors p /\
  ps_workspaces (touch p k c) = ps_workspaces p /\ ps_workspaceCursors (touch p k c) = ps_workspaceCursors p /\
  ps_cursor (touch p k c) = ps_cursor p /\ ps_epoch (touch p k c) = ps_epoch p /\
  ps_freshness (touch p k c) = ps_freshness p /\ ps_arrivalOrdinal (touch p k c) = ps_arrivalOrdinal p.
Proof.
  unfold touch. destruct (_ && _); [done|]. by destruct (evict_lru _ _ _).
Qed.

Lemma lru_ok_touch p k c : options_ok c ->
  warm_ok c (ps_sessions p) (ps_lru p) (ps_activeSessionKey p) ->
  lru_ok c (List.filter (fun item => negb (jstr_eqb item k)) (ps_lru p) ++ [k])
    (match map_get k (ps_sessions p) with
     | Some _ => ps_sessions p
     | None => mapWith (ps_sessions p) k (session_of_key k) 256
     end).
Proof.
  intros Hc [H1 H2 H3 H4 H5 H6]. pose proof (oo_warm c Hc) as Hw.
  pose proof (lru_size _ _ H2 H1 H3) as Hs.
  destruct (map_get k (ps_sessions p)) as [s|] eqn:E.
  - constructor; [done|by apply NoDup_without_snoc| |done].
    intros x. rewrite elem_of_app, elem_of_without, H3.
    assert (k ∈ map_keys (ps_sessions p)) by (apply map_get_keys; eauto).
    destruct (decide (x = k)); set_solver.
  - rewrite mapWith_fits by lia. constructor; [by apply map_wf_set|by apply NoDup_without_snoc| |].
    + intros x. rewrite elem_of_app, elem_of_without, elem_of_keys_set, H3. destruct (decide (x = k)); set_solver.
    + rewrite <- (mapWith_fits _ k (session_of_key k) 256) by lia.
      apply mapWith_Forall; [done|by apply session_of_key_ok].
Qed.

Lemma touch_spec p k c : options_ok c ->
  warm_ok c (ps_sessions p) (ps_lru p) (ps_activeSessionKey p) ->
  let t := touch p k c in
  warm_ok c (ps_sessions t) (ps_lru t) (ps_activeSessionKey t) /\
  last_of (ps_lru t) = Some k /\ map_get k (ps_sessions t) = Some (warm_session p k) /\
  (forall x s, x ≠ k -> map_get x (ps_sessions t) = Some s -> map_get x (ps_sessions p) = Some s) /\
  ps_activeSessionKey t ≠ None.
Proof.
  intros Hc Hok t. pose proof (lru_ok_touch p k c Hc Hok) as Hl. pose proof (oo_warm c Hc) as Hw.
  pose proof (lru_size _ _ (wm_nodup _ _ _ _ Hok) (wm_wf _ _ _ _ Hok) (wm_dom _ _ _ _ Hok)) as Hsz.
  pose proof (wm_size _ _ _ _ Hok) as Hsize.
  unfold t, touch, warm_session.
  destruct (match map_get k (ps_sessions p) with Some _ => true | None => false end && _ && _ && _) eqn:Eq.
  { bool_hyps. destruct (map_get k (ps_sessions p)) as [s|] eqn:Eg; [|done].
    destruct (last_of (ps_lru p)) as [x|] eqn:El; [|done]. apply jstr_eqb_eq in H2. subst x.
    split_and!; try done. by destruct (ps_activeSessionKey p). }
  clear Eq. destruct (evict_lru _ _ _) as [lru' sessions'] eqn:Ee.
  apply (evict_lru_spec c) in Ee as (Hlok & Hlen & Hsuf & Hget & Hlast); [|lia|exact Hl].
  assert (last_of lru' = Some k) as Hk by (rewrite Hlast by lia; apply last_of_app).
  assert (k ∈ lru') as Hin by (by apply last_of_in).
  destruct Hlok as [L1 L2 L3 L4]. cbn [ps_sessions ps_lru ps_activeSessionKey set_sessions].
  split_and!; [|done| | |].
  - constructor; [done|done|done|done| |done].
    intros a. destruct (ps_activeSessionKey p) as [b|]; [destruct (in_list b lru') eqn:Eb|];
      rewrite ?Hk; intros [= <-]; [by apply in_list_true|done|done].
  - rewrite Hget by done. destruct (map_get k (ps_sessions p)) as [s|] eqn:Eg; [done|].
    rewrite mapWith_fits by lia. apply map_get_set_eq.
  - intros x s Hx Hs. assert (x ∈ lru') as Hxl by (apply L3, map_get_keys; eauto).
    rewrite Hget in Hs by done. destruct (map_get k (ps_sessions p)) as [s0|] eqn:Eg; [done|].
    rewrite mapWith_fits in Hs by lia. by rewrite map_get_set_ne in Hs.
  - destruct (ps_activeSessionKey p) as [b|]; [destruct (in_list b lru')|]; by rewrite ?Hk.
Qed.

(** Replacing one warm session keeps the warm state. *)
Lemma warm_ok_replace c sessions lru active k s :
  options_ok c -> warm_ok c sessions lru active -> is_Some (map_get k sessions) -> session_ok c s ->
  mapWith sessions k s 256 = map_set k s sessions /\ warm_ok c (map_set k s sessions) lru active.
Proof.
  intros Hc Hok [s0 Hk] Hs. pose proof (oo_warm c Hc) as Hw.
  destruct Hok as [H1 H2 H3 H4 H5 H6]. pose proof (lru_size _ _ H2 H1 H3) as Hsz.
  assert (map_has k sessions = true) as Hhas by (unfold map_has; by rewrite Hk).
  assert (mapWith sessions k s 256 = map_set k s sessions) as Heq by (apply mapWith_fits; [lia|congruence]).
  split; [done|]. constructor; [by apply map_wf_set|done| |done|done|].
  - intros x. rewrite map_keys_set, Hhas. apply H3.
  - rewrite <- Heq. by apply mapWith_Forall.
Qed.

Lemma withSession_spec p k update c ordinal : options_ok c ->
  warm_ok c (ps_sessions p) (ps_lru p) (ps_activeSessionKey p) ->
  (forall s s', session_ok c s -> update s = Some s' -> session_ok c s') ->
  let t := withSession p k update c ordinal in
  warm_ok c (ps_sessions t) (ps_lru t) (ps_activeSessionKey t) /\
  last_of (ps_lru t) = Some k /\
  map_get k (ps_sessions t) = Some (default (warm_session p k) (update (warm_session p k))) /\
  (forall x s, x ≠ k -> map_get x (ps_sessions t) = Some s -> map_get x (ps_sessions p) = Some s) /\
  ps_arrivalOrdinal t = default (ps_arrivalOrdinal p) ordinal /\ ps_activeSessionKey t ≠ None.
Proof.
  intros Hc Hok Hup t. destruct (touch_spec p k c Hc Hok) as (Hw & Hl & Hg & Hoth & Ha).
  destruct (touch_other p k c) as (_ & _ & _ & _ & _ & _ & _ & _ & _ & _ & Hord).
  unfold t, withSession. rewrite Hg.
  assert (session_ok c (warm_session p k)) as Hws by (by apply (map_get_Forall _ _ _ _ (wm_sessions _ _ _ _ Hw) Hg)).
  destruct (update (warm_session p k)) as [s'|] eqn:Eu.
  - destruct (warm_ok_replace c _ _ _ k s' Hc Hw ltac:(eauto) ltac:(eauto)) as [-> Hw'].
    cbn [ps_sessions ps_lru ps_activeSessionKey set_sessions ps_arrivalOrdinal default from_option].
    split_and!; [done|done|apply map_get_set_eq| | |done].
    + intros x s Hx. rewrite map_get_set_ne by done. by apply Hoth.
    + by rewrite Hord.
  - cbn [ps_sessions ps_lru ps_activeSessionKey set_sessions ps_arrivalOrdinal]. rewrite Hord. by split_and!.
Qed.

Lemma withSession_other p k update c ordinal :
  let t := withSession p k update c ordinal in
  ps_sessionIndex t = ps_sessionIndex p /\ ps_sessionIndexMetadata t = ps_sessionIndexMetadata p /\
  ps_sessionRefArrivalOrdinals t = ps_sessionRefArrivalOrdinals p /\
  ps_sessionDeltaCursors t = ps_sessionDeltaCursors p /\
  ps_sessionInventoryCursors t = ps_sessionInventoryCursors p /\
  ps_workspaces t = ps_workspaces p /\ ps_workspaceCursors t = ps_workspaceCursors p /\
  ps_epoch t = ps_epoch p /\ ps_freshness t = ps_freshness p.
Proof.
  unfold withSession. destruct (touch_other p k c) as (? & ? & ? & ? & ? & ? & ? & ? & ? & ? & ?).
  destruct (map_get _ _); [destruct (update _)|]; by split_and!.
Qed.

Lemma withSession_ok p k update c ordinal : options_ok c -> projection_ok c p ->
  (forall s s', session_ok c s -> update s = Some s' -> session_ok c s') ->
  0 <= default (ps_arrivalOrdinal p) ordinal <= MAX_SAFE_INTEGER ->
  projection_ok c (withSession p k update c ordinal).
Proof.
  intros Hc Hp Hup Ho. destruct (withSession_spec p k update c ordinal Hc (po_warm c p Hp) Hup) as (Hw & _ & _ & _ & E & _).
  destruct (withSession_other p k update c ordinal) as (E1 & E2 & E3 & E4 & E5 & E6 & E7 & _).
  destruct Hp. constructor; rewrite ?E, ?E1, ?E2, ?E3, ?E4, ?E5, ?E6, ?E7; done.
Qed.

(** ** Session updates *)

Lemma retained_transcript_ok c entries :
  let r := retainDurableEntries entries (entry_options c) in
  transcript_ok c (ret_entries r) (map entry_id (ret_entries r)).
Proof.
  intros r. destruct (retainedEntryOptions (entry_options c)) as [[n b] e] eqn:Eo.
  destruct (retainDurableEntries_ok entries _ _ _ _ Eo) as ([Hb Hbud _ _] & Hn & _ & Hl).
  unfold retainedEntryOptions, entry_options in Eo. injection Eo as <- <- _. fold r in Hb, Hbud, Hn, Hl.
  constructor; [done|done|exact Hl|]. rewrite <- Hb. exact Hbud.
Qed.

Lemma appended_transcript_ok c entries ids entry :
  transcript_ok c entries ids -> entry_id entry ∉ ids ->
  let r := appendRetainedDurableEntry entries entry (entry_options c) in
  transcript_ok c (ret_entries r) (map entry_id (ret_entries r)).
Proof.
  intros [-> Hnd _ _] Hn r. destruct (retainedEntryOptions (entry_options c)) as [[n b] e] eqn:Eo.
  destruct (appendRetainedDurableEntry_ok entries entry _ _ _ _ Eo Hn) as (Hs & Hl & Hb).
  unfold retainedEntryOptions, entry_options in Eo. injection Eo as <- <- _. fold r in Hs, Hl, Hb.
  constructor; [done| |exact Hl|exact Hb]. eapply NoDup_suffix; [exact Hs|].
  apply NoDup_app. split_and!; [done| |apply NoDup_singleton]. set_solver.
Qed.

Lemma set_transcript_ok c s entries ids trunc events o1 o2 rev cur fr gap :
  session_ok c s -> transcript_ok c entries ids -> len events <= MAX_RETAINED_SESSION_EVENTS ->
  session_ok c (set_transcript s entries ids trunc events o1 o2 rev cur fr gap).
Proof. intros [] ? ?. by constructor. Qed.

Lemma set_freshness_ok c s fr gap o1 o2 : session_ok c s -> session_ok c (set_freshness s fr gap o1 o2).
Proof. intros []. by constructor. Qed.

Lemma set_ref_ok c s ref : session_ok c s -> session_ok c (set_ref s ref).
Proof. intros []. by constructor. Qed.

Lemma set_agents_ok c s agents transcripts :
  session_ok c s -> bounded_map 256 agents -> bounded_map (maxAgentTranscripts c) transcripts ->
  session_ok c (set_agents s agents transcripts).
Proof. intros [] ? ?. by constructor. Qed.

Lemma set_results_ok c s confirmations results :
  session_ok c s -> bounded_map 256 confirmations -> bounded_map 256 results -> session_ok c (set_results s confirmations results).
Proof. intros [] ? ?. by constructor. Qed.

Lemma set_previews_ok c s previews events :
  session_ok c s -> bounded_map (maxPreviews c) previews -> len events <= maxPreviewEvents c ->
  session_ok c (set_previews s previews events).
Proof. intros [] ? ?. by constructor. Qed.

Lemma set_resources_ok c s terminals files reviews audit :
  session_ok c s -> bounded_map (maxTerminals c) terminals -> map_sum terminalProjectionBytes terminals <= maxTerminalBytes c ->
  bounded_map (maxFiles c) files -> map_sum fileProjectionBytes files <= maxFilesBytes c ->
  bounded_map 256 reviews -> len audit <= maxAudit c -> session_ok c (set_resources s terminals files reviews audit).
Proof. intros [] ? ? ? ? ? ?. by constructor. Qed.

Lemma apply_snapshot_ok c frame s : session_ok c s -> session_ok c (apply_snapshot frame c s).
Proof.
  intros Hs. unfold apply_snapshot. apply set_transcript_ok; [done|apply retained_transcript_ok|].
  pose proof (so_events c s Hs) as He.
  match goal with |- len (if ?a then _ else if ?b then _ else _) <= _ => destruct a; [done|destruct b; [|done]] end.
  etrans; [apply len_filter_le|done].
Qed.

Lemma apply_entry_ok c frame s : session_ok c s -> session_ok c (apply_entry frame c s).
Proof.
  intros Hs. pose proof (so_events c s Hs) as He. pose proof (so_transcript c s Hs) as Ht. unfold apply_entry.
  assert (forall P, len (List.filter P (sp_events s)) <= MAX_RETAINED_SESSION_EVENTS) as Hf
    by (intros; etrans; [apply len_filter_le|done]).
  destruct (in_list _ _) eqn:Ei; apply set_transcript_ok; auto.
  apply in_list_false in Ei. by eapply appended_transcript_ok.
Qed.

Lemma apply_event_ok c frame ordinal s : session_ok c s -> session_ok c (apply_event frame c ordinal s).
Proof.
  intros Hs. unfold apply_event. apply set_transcript_ok; [done|apply (so_transcript c s Hs)|].
  destruct (appendRetainedValue _ _ _ _ _) as [r bytes] eqn:E.
  apply appendRetainedValue_window in E as (_ & _ & Hl & _). simpl.
  pose proof (boundedInteger_range (Some (maxEvents c)) MAX_RETAINED_SESSION_EVENTS MAX_RETAINED_SESSION_EVENTS
    ltac:(done) ltac:(done)). lia.
Qed.

(** ** Frames that update one session *)

Lemma nextArrivalOrdinal_range c p : projection_ok c p -> 0 <= nextArrivalOrdinal p <= MAX_SAFE_INTEGER.
Proof. intros []. unfold nextArrivalOrdinal. destruct (Z.ltb_spec (ps_arrivalOrdinal p) MAX_SAFE_INTEGER); unfold MAX_SAFE_INTEGER in *; lia. Qed.

(** [withSession] with an update that always answers. *)
Lemma withSession_some_ok p k update c ordinal : options_ok c -> projection_ok c p ->
  (forall s, session_ok c s -> session_ok c (update s)) ->
  0 <= default (ps_arrivalOrdinal p) ordinal <= MAX_SAFE_INTEGER ->
  projection_ok c (withSession p k (fun s => Some (update s)) c ordinal).
Proof. intros Hc Hp Hu Ho. apply withSession_ok; [done|done| |done]. intros s s' Hs [= <-]. auto. Qed.

Lemma warm_ok_active c sessions lru active k : warm_ok c sessions lru active -> k ∈ lru -> warm_ok c sessions lru (Some k).
Proof. intros [H1 H2 H3 H4 H5 H6] Hk. constructor; try done. by intros a [= <-]. Qed.

Lemma updateRoot_ok c p cur e fr : projection_ok c p -> projection_ok c (updateRoot p cur e fr).
Proof. intros []. by constructor. Qed.

Lemma set_sessions_ok c p sessions lru active ordinal :
  projection_ok c p -> warm_ok c sessions lru active -> 0 <= ordinal <= MAX_SAFE_INTEGER ->
  projection_ok c (set_sessions p sessions lru active ordinal).
Proof. intros [] ? ?. by constructor. Qed.

Lemma set_index_ok c p index metadata ordinals deltas inventory :
  projection_ok c p -> bounded_map (maxIndexedSessions c) index -> bounded_map (maxIndexedSessions c) metadata ->
  bounded_map (maxIndexedSessions c) ordinals -> bounded_map (maxIndexedSessions c) deltas ->
  bounded_map (maxIndexedSessions c) inventory -> projection_ok c (set_index p index metadata ordinals deltas inventory).
Proof. intros [] ? ? ? ? ?. by constructor. Qed.

Section Frames.
Context (c : ProjectionOptions) (Hc : options_ok c).
Context (localeCompare : jstr -> jstr -> comparison) (parse_url : url_parser).
Implicit Types (p : ProjectionSnapshot).

Lemma same_ordinal p : projection_ok c p -> 0 <= default (ps_arrivalOrdinal p) None <= MAX_SAFE_INTEGER.
Proof. intros []. done. Qed.

Lemma reduce_snapshot_ok p f : projection_ok c p -> projection_ok c (reduce_snapshot p f c).
Proof.
  intros Hp. unfold reduce_snapshot. match goal with |- context [if ?b then _ else _] => destruct b end; [done|].
  set (k := key _ _). set (next := withSession _ _ _ _ _).
  assert (projection_ok c next) as Hn
    by (apply withSession_some_ok; auto using apply_snapshot_ok, same_ordinal).
  destruct (withSession_spec p k (fun s => Some (apply_snapshot f c s)) c None Hc (po_warm c p Hp)) as (Hw & Hl & _ & _ & _ & Ha).
  { intros s s' Hs [= <-]. by apply apply_snapshot_ok. }
  fold next in Hw, Hl, Ha. apply set_sessions_ok; [by apply updateRoot_ok| |].
  - cbn [ps_sessions ps_lru updateRoot]. destruct (ps_activeSessionKey next) as [a|] eqn:Ea; [|done]. done.
  - by destruct Hn.
Qed.

Lemma catching_up_ok gap s : session_ok c s -> session_ok c (catching_up gap s).
Proof. apply set_freshness_ok. Qed.

Lemma reduce_entry_ok p f : projection_ok c p -> projection_ok c (reduce_entry p f c).
Proof.
  intros Hp. unfold reduce_entry. destruct (stream_state _ _ _); [|done|];
    apply withSession_some_ok; auto using apply_entry_ok, catching_up_ok, same_ordinal.
Qed.

Lemma reduce_event_ok p f : projection_ok c p -> projection_ok c (reduce_event p f c).
Proof.
  intros Hp. unfold reduce_event. destruct (stream_state _ _ _); [|done|];
    apply withSession_some_ok; auto using apply_event_ok, catching_up_ok, same_ordinal.
  simpl. by apply (nextArrivalOrdinal_range c).
Qed.

Lemma reduce_gap_ok p f : projection_ok c p -> projection_ok c (reduce_gap p f c).
Proof. intros. apply withSession_some_ok; auto using catching_up_ok, same_ordinal. Qed.

Lemma reduce_agent_ok p f : projection_ok c p -> projection_ok c (reduce_agent p f c).
Proof.
  intros. apply withSession_some_ok; auto using same_ordinal. intros s Hs. pose proof Hs as [].
  apply set_agents_ok; [done| |done]. apply bounded_mapWith; [done|by destruct so_agents0].
Qed.

Lemma reduce_agent_transcript_ok p f : projection_ok c p -> projection_ok c (reduce_agent_transcript p f c).
Proof.
  intros. apply withSession_ok; auto using same_ordinal. intros s s' Hs. pose proof Hs as [].
  destruct (agentTranscriptProjection _ _ _ _ _); [|done]. intros [= <-].
  apply set_agents_ok; [done|done|]. apply bounded_mapWith; [by destruct Hc|by destruct so_agentTranscripts0].
Qed.

Lemma reduce_response_ok p f : projection_ok c p -> projection_ok c (reduce_response p f c).
Proof.
  intros. unfold reduce_response. destruct (rs_sessionId f); [|done].
  apply withSession_some_ok; auto using same_ordinal. intros s Hs. pose proof Hs as [].
  assert (session_ok c (set_results s (confirmationsAfterResponse (sp_confirmations s) f)
    (mapWith (sp_results s) (rs_requestId f) (resultProjection f) 256))).
  { apply set_results_ok; [done| |]; [by apply bounded_filter|]. apply bounded_mapWith; [done|by destruct so_results0]. }
  destruct (attachAcknowledgesCurrentCursor s f); [by apply set_freshness_ok|done].
Qed.

Lemma reduce_confirmation_ok p f : projection_ok c p -> projection_ok c (reduce_confirmation p f c).
Proof.
  intros. unfold reduce_confirmation. destruct (cf_sessionId f); [|done].
  apply withSession_some_ok; auto using same_ordinal. intros s Hs. pose proof Hs as [].
  apply set_results_ok; [done| |done]. apply bounded_mapWith; [done|by destruct so_confirmations0].
Qed.

Lemma reduce_audit_ok p f : projection_ok c p -> projection_ok c (reduce_audit p f c).
Proof.
  intros. unfold reduce_audit. destruct (au_sessionId f); [|done].
  apply withSession_some_ok; auto using same_ordinal. intros s Hs. pose proof Hs as [].
  apply set_resources_ok; try done. apply appendBounded_bounded. by destruct Hc.
Qed.

Lemma reduce_review_ok p f : projection_ok c p -> projection_ok c (reduce_review p f c).
Proof.
  intros. apply withSession_some_ok; auto using same_ordinal. intros s Hs. pose proof Hs as [].
  apply set_resources_ok; try done. apply bounded_mapWith; [done|by destruct so_reviews0].
Qed.

Lemma reduce_files_ok p f : projection_ok c p -> projection_ok c (reduce_files p f c).
Proof.
  intros. apply withSession_some_ok; auto using same_ordinal. intros s Hs. pose proof Hs as [].
  pose proof Hc as []. destruct so_files0 as [Hwf _].
  destruct (retainFileProjection_ok (sp_files s) (path f) f c Hwf) as (? & ? & ? & _); [lia|lia|].
  by apply set_resources_ok.
Qed.

Lemma reduce_terminal_ok p f : projection_ok c p -> projection_ok c (reduce_terminal p f c).
Proof.
  intros. apply withSession_some_ok; auto using same_ordinal. intros s Hs. pose proof Hs as [].
  pose proof Hc as []. destruct so_terminals0 as [Hwf _]. cbv zeta.
  set (existing := default _ _). set (preferred := match tf_stream f with TStderr => _ | _ => _ end).
  destruct (retainTerminalProjection_stages (sp_terminals s) (tf_terminalId f) (terminal_after existing f) c preferred Hwf)
    as ([? _ _ _ _] & ? & ?); [lia|lia|].
  by apply set_resources_ok.
Qed.

Lemma appendPreviewActivity_bounded events e max :
  1 <= max -> len events <= max -> len (appendPreviewActivity events e max) <= max.
Proof. intros. unfold appendPreviewActivity. destruct (existsb _ _); [done|]. by apply appendBounded_bounded. Qed.

Lemma mark_stale_ok k s s' : session_ok c s -> mark_stale k c s = Some s' -> session_ok c s'.
Proof.
  intros Hs. pose proof Hs as []. unfold mark_stale. destruct (map_get _ _); [|done]. destruct (bool_decide _); [done|].
  intros [= <-]. apply set_previews_ok; [done| |done]. apply bounded_mapWith; [by destruct Hc|by destruct so_previews0].
Qed.

Lemma reduce_preview_ok p f : projection_ok c p -> projection_ok c (reduce_preview parse_url p f c).
Proof.
  intros Hp. unfold reduce_preview. set (k := key _ _). set (pk := previewKey _ _ _).
  assert (projection_ok c (withSession p k (mark_stale pk c) c None)) as Hst
    by (apply withSession_ok; eauto using mark_stale_ok, same_ordinal).
  assert (forall projected activity, projection_ok c (withSession p k (fun s => Some (set_previews s
      (mapWith (sp_previews s) pk projected (maxPreviews c))
      (match activity with None => sp_previewEvents s
       | Some a => appendPreviewActivity (sp_previewEvents s) a (maxPreviewEvents c) end))) c None)) as Hup.
  { intros projected activity. apply withSession_some_ok; auto using same_ordinal. intros s Hs. pose proof Hs as [].
    pose proof Hc as []. apply set_previews_ok; [done|apply bounded_mapWith; [done|by destruct so_previews0]|].
    destruct activity; [|done]. by apply appendPreviewActivity_bounded. }
  destruct (match pf_type f with PreviewLaunch | PreviewState => true | _ => false end); [apply Hup|].
  destruct (previewCursorState _ _); [|done|done].
  match goal with |- context [if ?b then _ else _] => destruct b end; [done|apply Hup].
Qed.
End Frames.

(** ** Inventory frames *)

Lemma map_of_entries_size {K V} `{EqDecision K} (l : list (K * V)) : map_size (map_of_entries l) <= len l.
Proof.
  unfold map_of_entries.
  cut (forall m, map_size (fold_left (fun m kv => map_set (fst kv) (snd kv) m) l m) <= map_size m + len l).
  { intros H. specialize (H []). unfold map_size at 2 in H. rewrite len_nil in H. lia. }
  induction l as [|[k v] l IH]; intros m; simpl; [rewrite len_nil; lia|].
  specialize (IH (map_set k v m)). rewrite map_size_set in IH. rewrite len_cons. destruct (map_has k m); lia.
Qed.

Lemma map_of_entries_keys {K V} `{EqDecision K} (l : list (K * V)) k :
  k ∈ map_keys (map_of_entries l) <-> k ∈ map fst l.
Proof.
  unfold map_of_entries.
  cut (forall m, k ∈ map_keys (fold_left (fun m kv => map_set (fst kv) (snd kv) m) l m) <-> k ∈ map_keys m \/ k ∈ map fst l).
  { intros H. rewrite H. unfold map_keys. simpl. set_solver. }
  induction l as [|[a v] l IH]; intros m; simpl; [set_solver|].
  rewrite IH, elem_of_keys_set. set_solver.
Qed.

Lemma NoDup_subset_len {A} (l l' : list A) : NoDup l -> (forall x, x ∈ l -> x ∈ l') -> len l <= len l'.
Proof. intros Hn Hs. unfold len. pose proof (submseteq_length l l' (NoDup_submseteq l l' Hn Hs)). lia. Qed.

Lemma insert_sorted_perm {A} (cmp : A -> A -> comparison) x l : insert_sorted cmp x l ≡ₚ x :: l.
Proof.
  induction l as [|y l IH]; simpl; [done|]. destruct (cmp x y); try done. rewrite IH. apply Permutation_swap.
Qed.

Lemma sort_perm {A} (cmp : A -> A -> comparison) l : sort cmp l ≡ₚ l.
Proof. unfold sort. induction l as [|x l IH]; simpl; [done|]. by rewrite insert_sorted_perm, IH. Qed.

Lemma omap_len {A B} (f : A -> option B) l : len (omap f l) <= len l.
Proof.
  induction l as [|x l IH]; [done|]. rewrite len_cons. cbn [omap list_omap]. fold (omap f l).
  destruct (f x); rewrite ?len_cons; change (list_omap _ _ f l) with (omap f l); lia.
Qed.

Lemma slice_first_len {A} n (l : list A) : 0 <= n -> len (slice_first n l) <= n.
Proof. intros. unfold slice_first, len. rewrite length_take. lia. Qed.

Lemma fold_mapWith_bounded {A K V} `{EqDecision K} (f : A -> K) (g : A -> V) max (l : list A) (m : jsmap K V) :
  0 <= max -> bounded_map max m -> bounded_map max (fold_left (fun m x => mapWith m (f x) (g x) max) l m).
Proof.
  intros Hm. revert m. induction l as [|x l IH]; intros m Hb; simpl; [done|].
  apply IH. apply bounded_mapWith; [done|by destruct Hb].
Qed.

(** What the removal loops preserve. *)
Record inventory_ok (c : ProjectionOptions) (lru : list jstr) (inv : Inventory) : Prop := {
  io_index : bounded_map (maxIndexedSessions c) (in_index inv);
  io_wf : map_wf (in_sessions inv);
  io_sessions : Forall (fun kv => session_ok c (snd kv)) (in_sessions inv);
  io_lru : forall k, k ∈ map_keys (in_sessions inv) -> k ∈ lru;
  io_deltas : bounded_map (maxIndexedSessions c) (in_deltas inv);
  io_active : forall a, in_active inv = Some a -> a ∈ map_keys (in_sessions inv);
}.

Lemma drop_active_some k active a : drop_active k active = Some a <-> active = Some a /\ a ≠ k.
Proof.
  unfold drop_active. destruct active as [x|]; [|naive_solver].
  destruct (jstr_eqb x k) eqn:E; [apply jstr_eqb_eq in E|apply jstr_eqb_neq in E]; naive_solver.
Qed.

Lemma inventory_ok_remove c lru inv k index :
  inventory_ok c lru inv -> bounded_map (maxIndexedSessions c) index ->
  inventory_ok c lru (mkInventory index (map_delete k (in_sessions inv)) (map_delete k (in_deltas inv))
    (drop_active k (in_active inv))).
Proof.
  intros [H1 H2 H3 H4 H5 H6] Hi. constructor; simpl; auto with omp.
  - by apply map_delete_Forall.
  - intros x [_ Hx]%elem_of_keys_delete. auto.
  - intros a [Ha Hne]%drop_active_some. apply elem_of_keys_delete. auto.
Qed.

Lemma remove_missing_ok c lru hosts incoming index inv :
  inventory_ok c lru inv -> inventory_ok c lru (remove_missing hosts incoming index inv).
Proof.
  unfold remove_missing. revert inv. induction index as [|kv index IH]; intros inv H; simpl; [done|].
  apply IH. destruct (_ || _); [done|]. apply inventory_ok_remove; [done|]. apply bounded_delete. by destruct H.
Qed.

Lemma remove_cold_ok c lru hosts incoming warm inv :
  inventory_ok c lru inv -> inventory_ok c lru (remove_cold hosts incoming warm inv).
Proof.
  unfold remove_cold. revert inv. induction warm as [|kv warm IH]; intros inv H; simpl; [done|].
  apply IH. destruct (_ || _); [done|]. apply inventory_ok_remove; [done|]. by destruct H.
Qed.

(** The recency list restricted to the sessions that remain. *)
Lemma inventory_warm_ok c lru inv : NoDup lru -> len lru <= maxWarmSessions c -> inventory_ok c lru inv ->
  warm_ok c (in_sessions inv) (List.filter (fun k => map_has k (in_sessions inv)) lru) (in_active inv).
Proof.
  intros Hn Hl [H1 H2 H3 H4 H5 H6].
  assert (forall k, k ∈ List.filter (fun k => map_has k (in_sessions inv)) lru <-> k ∈ map_keys (in_sessions inv)) as Hd.
  { intros k. rewrite elem_of_filter_list, map_has_keys. naive_solver. }
  constructor; [done|by apply NoDup_filter_list|done| | |done].
  - etrans; [apply len_filter_le|done].
  - intros a Ha. apply Hd. auto.
Qed.

Lemma attach_refs_ok c refs sessions lru active :
  options_ok c -> warm_ok c sessions lru active -> warm_ok c (attach_refs refs sessions) lru active.
Proof.
  intros Hc. unfold attach_refs. revert sessions. induction refs as [|ref refs IH]; intros sessions Hw; simpl; [done|].
  apply IH. destruct (map_get (ref_key ref) sessions) as [s|] eqn:E; [|done].
  assert (session_ok c (set_ref s ref)) as Hs.
  { apply set_ref_ok. by apply (map_get_Forall _ _ _ _ (wm_sessions _ _ _ _ Hw) E). }
  destruct (warm_ok_replace c _ _ _ (ref_key ref) _ Hc Hw ltac:(eauto) Hs) as [-> Hw']. done.
Qed.

(** The rebuilt index: the returned refs and the newest retained ones, within the cap. *)
Lemma index_bounded {V} (max : Z) (retained : list (jstr * V)) (incoming : list (jstr * V)) :
  len incoming <= max -> len retained <= Z.max 0 (max - len incoming) ->
  bounded_map max (map_of_entries (retained ++ incoming)).
Proof.
  intros H1 H2. split; [apply map_wf_of_entries|]. pose proof (map_of_entries_size (retained ++ incoming)).
  rewrite len_app in *. lia.
Qed.

Lemma ordinals_bounded {V} (max : Z) (retained incoming : list (jstr * V)) (ordinals : jsmap jstr Z)
    (P : jstr * Z -> bool) (n : Z) :
  bounded_map max (map_of_entries (retained ++ incoming)) ->
  (forall kv, P kv = true -> fst kv ∈ map fst retained) ->
  bounded_map max (map_of_entries (List.filter P ordinals ++ map (fun kv => (fst kv, n)) incoming)).
Proof.
  intros [_ Hs] HP. split; [apply map_wf_of_entries|].
  etrans; [|exact Hs]. unfold map_size. rewrite <- !(len_map fst).
  apply NoDup_subset_len; [apply map_wf_of_entries|].
  intros k Hk. apply (proj1 (map_of_entries_keys _ k)) in Hk. apply (proj2 (map_of_entries_keys _ k)).
  rewrite map_app, elem_of_app in Hk |- *. destruct Hk as [Hk|Hk].
  - left. apply list_elem_of_fmap in Hk as (kv & -> & [_ Hkv]%elem_of_filter_list). auto.
  - right. by rewrite map_map in Hk.
Qed.

Section InventoryFrames.
Context (c : ProjectionOptions) (Hc : options_ok c).
Context (localeCompare : jstr -> jstr -> comparison).
Implicit Types (p : ProjectionSnapshot).

Lemma reduce_sessions_inventory p f refs hosts :
  projection_ok c p ->
  let start := mkInventory (ps_sessionIndex p) (ps_sessions p) (ps_sessionDeltaCursors p) (ps_activeSessionKey p) in
  let listed := remove_missing hosts (map ref_key refs) (ps_sessionIndex p) start in
  inventory_ok c (ps_lru p)
    (if sessionFrameIsComplete f refs (maxIndexedSessions c)
     then remove_cold hosts (map ref_key refs) (in_sessions listed) listed else start).
Proof.
  intros [Hw Hi _ _ Hd _ _ _ _] start listed.
  assert (inventory_ok c (ps_lru p) start) as Hstart.
  { destruct Hw as [H1 H2 H3 H4 H5 H6]. constructor; simpl; auto; [intros k; by rewrite H3|].
    intros a Ha. apply H3. auto. }
  destruct (sessionFrameIsComplete _ _ _); [|done]. by apply remove_cold_ok, remove_missing_ok.
Qed.

Lemma touch_ok p k : projection_ok c p -> projection_ok c (touch p k c).
Proof.
  intros Hp. destruct (touch_other p k c) as (E1 & E2 & E3 & E4 & E5 & E6 & E7 & _ & _ & _ & E8).
  destruct (touch_spec p k c Hc (po_warm c p Hp)) as (Hw & _). destruct Hp.
  constructor; rewrite ?E1, ?E2, ?E3, ?E4, ?E5, ?E6, ?E7, ?E8; done.
Qed.

(** Selecting the active session after an inventory page. *)
Lemma select_active_ok p active : projection_ok c p ->
  projection_ok c (match active with
                   | Some a => let t := touch p a c in set_sessions t (ps_sessions t) (ps_lru t) (Some a) (ps_arrivalOrdinal t)
                   | None => p
                   end).
Proof.
  intros Hp. destruct active as [a|]; [|done]. pose proof (touch_ok p a Hp) as Ht.
  destruct (touch_spec p a c Hc (po_warm c p Hp)) as (Hw & Hl & _). cbv zeta.
  apply set_sessions_ok; [done| |by destruct Ht]. eapply warm_ok_active; [done|]. by apply last_of_in.
Qed.

Lemma reduce_sessions_ok p f : projection_ok c p -> projection_ok c (reduce_sessions localeCompare p f c).
Proof.
  intros Hp. pose proof (oo_indexed c Hc) as Hmax. unfold reduce_sessions.
  set (refs := omap _ _). assert (len refs <= maxIndexedSessions c) as Hrefs.
  { etrans; [apply omap_len|]. apply slice_first_len. lia. }
  clearbody refs. set (hosts := authoritativeSessionHosts f refs).
  destruct (existsb _ hosts); [done|]. cbv zeta.
  pose proof (reduce_sessions_inventory p f refs hosts Hp) as Hinv. cbv zeta in Hinv.
  set (inv := if sessionFrameIsComplete _ _ _ then _ else _) in Hinv |- *. clearbody inv.
  set (retained := if _ =? 0 then [] else _).
  assert (len retained <= Z.max 0 (maxIndexedSessions c - len refs)) as Hret.
  { subst retained. destruct (Z.eqb_spec (Z.max 0 (maxIndexedSessions c - len refs)) 0); [rewrite len_nil; lia|].
    apply slice_last_len. lia. }
  clearbody retained.
  assert (bounded_map (maxIndexedSessions c) (map_of_entries (retained ++ map (fun ref => (ref_key ref, ref)) refs))) as Hidx.
  { apply index_bounded; by rewrite len_map. }
  set (index := map_of_entries (retained ++ _)) in *.
  apply updateRoot_ok. set (active := match in_active inv with Some a => Some a | None => _ end).
  set (base := set_sessions (set_index _ _ _ _ _ _) _ _ _ _).
  assert (projection_ok c base) as Hbase.
  { subst base. pose proof Hp as [Hw ? Hmd Hord ? Hic ? ? ?]. apply set_sessions_ok.
    - apply set_index_ok; [done|done| | |by destruct Hinv|].
      + apply (fold_mapWith_bounded fst snd); [lia|done].
      + apply (ordinals_bounded _ retained); [exact Hidx|]. intros kv Hkv. bool_hyps. by apply in_list_true.
      + apply (fold_mapWith_bounded id (fun _ => sf_cursor f)); [lia|done].
    - destruct Hw. by apply inventory_warm_ok.
    - by apply (nextArrivalOrdinal_range c). }
  clearbody base. pose proof (select_active_ok base active Hbase) as Hsel. cbv zeta in Hsel.
  set (next := match active with Some a => _ | None => base end) in *. clearbody next.
  apply set_sessions_ok; [done| |by destruct Hsel]. apply attach_refs_ok; [done|by destruct Hsel].
Qed.

Lemma apply_delta_ok p hostId ownerKey targetKey upsert cursor :
  projection_ok c p -> projection_ok c (apply_delta p c hostId ownerKey targetKey upsert cursor).
Proof.
  intros Hp. pose proof (oo_indexed c Hc) as Hmax. pose proof Hp as [Hw Hi Hmd Hord Hd Hinv ? ? ?].
  assert (forall {V} (m : jsmap jstr V) k v, bounded_map (maxIndexedSessions c) m ->
    bounded_map (maxIndexedSessions c) (mapWith m k v (maxIndexedSessions c))) as Hset.
  { intros V m k v [? _]. apply bounded_mapWith; [lia|done]. }
  unfold apply_delta. destruct upsert as [ref|].
  - apply set_sessions_ok; [apply set_index_ok; auto| |by apply (nextArrivalOrdinal_range c)].
    + destruct (map_get targetKey (ps_sessionIndex p)); [destruct (sameSafeValue _ _)|destruct (_ <? _)]; auto.
    + destruct (map_get hostId (ps_sessionIndexMetadata p)) as [m|], (map_get targetKey (ps_sessionIndex p)); auto. destruct (md_truncated m); auto.
    + match goal with |- bounded_map _ (if ?b then _ else _) => destruct b end; auto.
    + destruct (map_get ownerKey (ps_sessions p)) as [s|] eqn:E; [|done].
      assert (session_ok c (set_ref s ref)) as Hs.
      { apply set_ref_ok. by apply (map_get_Forall _ _ _ _ (wm_sessions _ _ _ _ Hw) E). }
      destruct (warm_ok_replace c _ _ _ ownerKey _ Hc Hw ltac:(eauto) Hs) as [_ Hw'].
      rewrite mapWith_fits; [done| |].
      * destruct Hw as [? ? ? Hsz ? ?]. rewrite (lru_size (ps_lru p)) by done. done.
      * unfold map_has. by rewrite E.
  - unfold mapWithout.
    apply set_sessions_ok; [apply set_index_ok; auto with omp| |by apply (nextArrivalOrdinal_range c)].
    + destruct (map_get hostId (ps_sessionIndexMetadata p)) as [m|]; [|done].
      destruct (map_get targetKey (ps_sessionIndex p)); auto.
    + destruct Hw as [H1 H2 H3 H4 H5 H6].
      destruct (lru_ok_delete c targetKey (ps_lru p) (ps_sessions p)) as [L1 L2 L3 L4]; [by constructor|].
      constructor; [done|done|done| | |done].
      * etrans; [apply len_filter_le|done].
      * intros a. destruct (ps_activeSessionKey p) as [b|]; [|done].
        destruct (jstr_eqb b targetKey) eqn:E; [apply last_of_in|].
        intros [= <-]. apply elem_of_without. split; [auto|]. by apply jstr_eqb_neq.
Qed.

Lemma reduce_delta_ok p f : projection_ok c p -> projection_ok c (reduce_delta p f c).
Proof.
  intros Hp. unfold reduce_delta. destruct (boundedIdentity _); [|done]. destruct (boundedIdentity _); [|done].
  repeat match goal with
  | |- projection_ok c (if ?b then _ else _) => destruct b
  | |- projection_ok c (match ?x with _ => _ end) => destruct x
  end; auto using apply_delta_ok.
Qed.
End InventoryFrames.

(** ** Connection and workspace frames *)

Lemma map_values_keys {K V} (f : V -> V) (m : jsmap K V) : map_keys (map (fun kv => (fst kv, f (snd kv))) m) = map_keys m.
Proof. unfold map_keys. by rewrite map_map. Qed.

Lemma welcome_session_ok c b s : session_ok c s -> session_ok c (welcome_session b s).
Proof.
  intros Hs. unfold welcome_session.
  assert (session_ok c (if b then set_freshness s CatchingUp (sp_gap s) 0 0 else s)) as Hs'
    by (destruct b; [by apply set_freshness_ok|done]).
  apply set_previews_ok; [done| |by destruct Hs'].
  destruct (so_previews c s Hs) as [Hwf Hsz]. split.
  - unfold map_wf in *. by rewrite (map_values_keys (fun v => set_preview_freshness v (PreviewFresh CatchingUp))).
  - unfold map_size in *. by rewrite len_map.
Qed.

Lemma warm_ok_map c (h : jstr * SessionProjection -> jstr * SessionProjection) sessions lru active :
  (forall kv, fst (h kv) = fst kv) -> warm_ok c sessions lru active ->
  (forall kv, session_ok c (snd kv) -> session_ok c (snd (h kv))) -> warm_ok c (map h sessions) lru active.
Proof.
  intros Hf [H1 H2 H3 H4 H5 H6] Hs.
  assert (map_keys (map h sessions) = map_keys sessions) as Hk by (unfold map_keys; rewrite map_map; by apply map_ext).
  constructor; [unfold map_wf; by rewrite Hk|done|by rewrite Hk|done|done|].
  rewrite Forall_forall in H6 |- *. intros kv (kv0 & -> & Hin)%list_elem_of_fmap. auto.
Qed.

Lemma reduce_welcome_ok c p f : projection_ok c p -> projection_ok c (reduce_welcome p f).
Proof.
  intros Hp. pose proof Hp as [Hw ? ? ? ? ? ? ? ?]. unfold reduce_welcome. apply updateRoot_ok, set_sessions_ok; [| |done].
  - unfold mapWithout, withoutHostRefOrdinals. apply set_index_ok; auto with omp.
  - apply warm_ok_map; [done|done|]. intros kv Hkv. simpl. destruct (jstr_eqb _ _); [by apply welcome_session_ok|done].
Qed.

Lemma set_workspaces_ok c p workspaces cursors :
  projection_ok c p -> bounded_map (maxWorkspaces c) workspaces -> bounded_map (maxWorkspaces c) cursors ->
  projection_ok c (set_workspaces p workspaces cursors).
Proof. intros [] ? ?. by constructor. Qed.

Lemma reduce_workspace_ok c p f p' : options_ok c -> projection_ok c p ->
  reduce_workspace p f c = Ok p' -> projection_ok c p'.
Proof.
  intros Hc Hp. pose proof (oo_workspaces c Hc) as Hm. pose proof Hp as [? ? ? ? ? ? [Hw ?] [Hcur ?] ?]. unfold reduce_workspace.
  assert (forall workspaces host cur, bounded_map (maxWorkspaces c) workspaces ->
    projection_ok c (set_workspaces p workspaces (mapWith (ps_workspaceCursors p) host cur (maxWorkspaces c)))) as Hset.
  { intros. apply set_workspaces_ok; [done|done|]. apply bounded_mapWith; [lia|done]. }
  destruct (boundedIdentity _) as [host|]; [|by intros [= <-]]. destruct (boundedIdentity _) as [id|]; [|by intros [= <-]].
  destruct (sessionDeltaCursorIsStale _ _); [by intros [= <-]|].
  destruct (wf_upsert f) as [u|]; [|destruct (wf_remove f) as [r|]; [|by intros [= <-]]].
  - intros Hr. wire_hyps. destruct (negb _); injection Hr as <-; [done|].
    apply Hset. apply bounded_mapWith; [lia|done].
  - destruct (negb _); intros [= <-]; [done|]. apply Hset. by apply bounded_delete.
Qed.

Lemma store_workspaces_ok c host raw m m' : options_ok c -> bounded_map (maxWorkspaces c) m ->
  store_workspaces host (maxWorkspaces c) raw m = Ok m' -> bounded_map (maxWorkspaces c) m'.
Proof.
  intros Hc. pose proof (oo_workspaces c Hc). revert m. induction raw as [|r raw IH]; intros m Hm; simpl; [by intros [= <-]|].
  intros Hr. wire_hyps. apply IH in Hr; [done|]. destruct Hm. apply bounded_mapWith; [lia|done].
Qed.

Lemma applyWorkspaceInventory_ok c p host workspaces cursor p' : options_ok c -> projection_ok c p ->
  applyWorkspaceInventory p host workspaces cursor (maxWorkspaces c) = Ok p' -> projection_ok c p'.
Proof.
  intros Hc Hp. pose proof (oo_workspaces c Hc). pose proof Hp as [? ? ? ? ? ? ? [? ?] ?]. unfold applyWorkspaceInventory.
  match goal with |- context [if ?b then _ else _] => destruct b end; [by intros [= <-]|].
  intros Hr. wire_hyps. subst p'. apply set_workspaces_ok; [done| |].
  - eapply store_workspaces_ok; [done| |done]. by apply bounded_filter.
  - destruct cursor; [|done]. apply bounded_mapWith; [lia|done].
Qed.

Lemma createProjectionSnapshot_ok c : options_ok c -> projection_ok c createProjectionSnapshot.
Proof.
  intros []. assert (forall {V} n, 1 <= n -> bounded_map n (@nil (jstr * V))) as Hb.
  { intros. split; [apply map_wf_nil|]. unfold map_size. rewrite len_nil. lia. }
  constructor; simpl; auto; [|unfold MAX_SAFE_INTEGER; lia].
  constructor; simpl; [apply map_wf_nil|constructor|set_solver|rewrite len_nil; lia|done|constructor].
Qed.

Lemma applyProjectionInput_ok localeCompare parse_url options p frame p' :
  options_ok (resolveProjectionOptions options) -> projection_ok (resolveProjectionOptions options) p ->
  applyProjectionInput localeCompare parse_url p frame options = Ok p' ->
  projection_ok (resolveProjectionOptions options) p'.
Proof.
  intros Hc Hp. unfold applyProjectionInput. set (c := resolveProjectionOptions options) in *. clearbody c.
  destruct frame; try (intros [= <-]);
    eauto using reduce_preview_ok, reduce_terminal_ok, reduce_files_ok, reduce_review_ok, reduce_audit_ok,
      reduce_confirmation_ok, reduce_response_ok, reduce_workspace_ok, reduce_sessions_ok, reduce_delta_ok,
      reduce_snapshot_ok, reduce_entry_ok, reduce_event_ok, reduce_gap_ok, reduce_agent_ok,
      reduce_agent_transcript_ok, reduce_welcome_ok.
Qed.

(** ** Reachable projections *)

(** Every way the store changes its snapshot: a frame that does not throw, an inventory of
    workspaces, or an activation of a session from the interface. *)
Inductive store_step (localeCompare : jstr -> jstr -> comparison) (parse_url : url_parser) (options : PartialOptions)
    : ProjectionSnapshot -> ProjectionSnapshot -> Prop :=
| step_frame p frame p' :
    applyProjectionInput localeCompare parse_url p frame options = Ok p' -> store_step localeCompare parse_url options p p'
| step_workspaces p host workspaces cursor p' :
    applyWorkspaceInventory p host workspaces cursor (maxWorkspaces (resolveProjectionOptions options)) = Ok p' ->
    store_step localeCompare parse_url options p p'
| step_activate p hostId sessionId :
    store_step localeCompare parse_url options p
      (let t := touch p (key hostId sessionId) (resolveProjectionOptions options) in
       set_sessions t (ps_sessions t) (ps_lru t) (Some (key hostId sessionId)) (ps_arrivalOrdinal t)).

Inductive reachable localeCompare parse_url options : ProjectionSnapshot -> Prop :=
| reach_initial : reachable localeCompare parse_url options createProjectionSnapshot
| reach_step p p' : reachable localeCompare parse_url options p -> store_step localeCompare parse_url options p p' ->
    reachable localeCompare parse_url options p'.


Lemma default_options_ok : options_ok (resolveProjectionOptions NO_OPTIONS).
Proof. constructor; by_compute. Qed.

(** A snapshot frame with one entry, and the entry that follows it. *)
Definition sample_snapshot : SessionSnapshotFrame :=
  mkSnapshot (mkCursor (js "e") 4) (js "r-1") (js "h") (js "s") [sample_entry (js "a")].
Definition sample_next : DurableEntryFrame :=
  mkEntryFrame (mkCursor (js "e") 5) (js "r-2") (js "h") (js "s") (sample_entry (js "b")).

(** The projection after both frames, with the default options. *)
Definition sample_projection : ProjectionSnapshot :=
  let config := resolveProjectionOptions NO_OPTIONS in
  reduce_entry (reduce_snapshot createProjectionSnapshot sample_snapshot config) sample_next config.

