(* ===== verification/ClientStream.v ===== *)
(** * ClientStream: what the client makes of a session's frame stream

    Contiguous frames build exactly the transcript a snapshot would have installed, duplicates
    are ignored, a discontinuity halts the session until a newer snapshot arrives, and no frame
    moves a session's cursor backwards within an epoch. *)
From stdpp Require Import base tactics option list numbers strings sets.
From S2P Require Import Prelude JsMap JsString JsValue Wire WireGuards WireFrames Retention RetentionSpec.
From S2P Require Import TranscriptWindow ProjectionSanitize Preview ProjectionOptions ResourceRetention ClientProjection ClientInvariant.

(** ** Streams *)

Definition stream_key (f : stream_frame) : jstr := key (stream_host f) (stream_session f).
Definition reduce_stream (c : ProjectionOptions) (p : ProjectionSnapshot) (f : stream_frame) : ProjectionSnapshot :=
  match f with EntryFrame f => reduce_entry p f c | EventFrame f => reduce_event p f c end.

(** [delivery k e n frames entries m]: frames of session [k] in epoch [e], each either the
    successor of what was delivered so far or a repetition of something older, take a receiver
    from sequence number [n] to [m] and carry [entries] for the first time. *)
Inductive delivery (k e : jstr) : Z -> list stream_frame -> list DurableEntry -> Z -> Prop :=
| delivered_all n : delivery k e n [] [] n
| deliver_next n f frames entries m :
    stream_key f = k -> stream_cursor f = mkCursor e (n + 1) -> delivery k e (n + 1) frames entries m ->
    delivery k e n (f :: frames) (stream_entries f ++ entries) m
| deliver_again n f frames entries m i :
    stream_key f = k -> stream_cursor f = mkCursor e i -> i <= n -> delivery k e n frames entries m ->
    delivery k e n (f :: frames) entries m.

(** A session that has received exactly the transcript [L] up to cursor [(e, n)]. *)
Record streamed (c : ProjectionOptions) (e : jstr) (L : list DurableEntry) (n : Z) (s : SessionProjection) : Prop := {
  st_window : forall maxEntries maxBytes maxEntryBytes,
    retainedEntryOptions (entry_options c) = (maxEntries, maxBytes, maxEntryBytes) ->
    transcript_window maxEntries maxBytes
      (map (fun x => sanitizeRetainedDurableEntry x maxEntryBytes) L) (sp_entries s);
  st_truncated : sp_historyTruncated s = (len (sp_entries s) <? len L);
  st_ids : sp_entryIds s = map entry_id (sp_entries s);
  st_cursor : sp_cursor s = Some (mkCursor e n);
  st_fresh : sp_freshness s = Fresh;
  st_gap : sp_gap s = None;
}.

Section Stream.
Context (c : ProjectionOptions).
Implicit Types (s : SessionProjection) (p : ProjectionSnapshot).

Lemma cursorState_streamed e L n s i : streamed c e L n s ->
  cursorState s (mkCursor e i) = if i <=? n then Duplicate else if i =? n + 1 then Accept else Gap.
Proof. intros []. unfold cursorState. by rewrite st_fresh0, st_cursor0, bool_decide_eq_false_2, jstr_eqb_refl. Qed.

Lemma apply_snapshot_streamed f s :
  NoDup (map entry_id (sn_entries f)) ->
  streamed c (epoch (sn_cursor f)) (sn_entries f) (seq (sn_cursor f)) (apply_snapshot f c s).
Proof.
  intros Hn. destruct (retainedEntryOptions (entry_options c)) as [[a b] d] eqn:Eo.
  destruct (retainDurableEntries_is_window _ _ _ _ Eo _ Hn) as [Hw Ht].
  constructor; [|exact Ht|done| |done|done].
  - intros ? ? ? E. rewrite Eo in E. injection E as <- <- <-. exact Hw.
  - simpl. by destruct (sn_cursor f).
Qed.

Lemma window_ids (l W : list DurableEntry) a b m :
  transcript_window a b (map (fun x => sanitizeRetainedDurableEntry x m) l) W ->
  map entry_id W `suffix_of` map entry_id l.
Proof. intros [Hs _]. apply (suffix_map entry_id) in Hs. by rewrite map_map in Hs. Qed.

Lemma apply_entry_streamed e L n f s :
  streamed c e L n s -> ef_cursor f = mkCursor e (n + 1) -> entry_id (ef_entry f) ∉ map entry_id L ->
  streamed c e (L ++ [ef_entry f]) (n + 1) (apply_entry f c s).
Proof.
  intros Hs Hc Hni. destruct (retainedEntryOptions (entry_options c)) as [[a b] d] eqn:Eo.
  pose proof (st_window _ _ _ _ _ Hs _ _ _ Eo) as Hw. destruct Hs as [_ Ht Hids _ Hf Hg].
  assert (entry_id (ef_entry f) ∉ map entry_id (sp_entries s)) as Hni'.
  { intros Hin. apply Hni. apply window_ids in Hw as [k ->]. set_solver. }
  destruct (appendRetainedDurableEntry_is_window _ _ _ _ Eo _ _ (ef_entry f) Hw Hni') as (Hw' & Hl' & Ht').
  unfold apply_entry. rewrite Hids, (proj2 (in_list_false _ _) Hni').
  constructor; cbn [set_transcript sp_entries sp_historyTruncated sp_entryIds sp_cursor sp_freshness sp_gap];
    [| |done|by rewrite Hc|done|done].
  - intros ? ? ? E. rewrite Eo in E. injection E as <- <- <-. by rewrite map_app.
  - set (W' := ret_entries _) in *. rewrite Ht, Ht'. destruct Hw as (HW & _ & _), Hw' as (HW' & _ & _).
    apply len_suffix in HW, HW'. autorewrite with omp_len in *.
    destruct (Z.ltb_spec (len (sp_entries s)) (len L)), (Z.ltb_spec (len W') (len (sp_entries s) + 1)),
      (Z.ltb_spec (len W') (len L + 1)); try done; lia.
Qed.

Lemma apply_event_streamed e L n f o s :
  streamed c e L n s -> ev_cursor f = mkCursor e (n + 1) -> streamed c e L (n + 1) (apply_event f c o s).
Proof. intros [] Hc. unfold apply_event. constructor; [done|done|done|by rewrite <- Hc|done|done]. Qed.

(** *** At the reducer *)
Context (Hc : options_ok c).

Lemma warm_session_get p k s : map_get k (ps_sessions p) = Some s -> warm_session p k = s.
Proof. unfold warm_session. by intros ->. Qed.

(** The session an unconditional update leaves at its key. *)
Lemma withSession_get p k (f : SessionProjection -> SessionProjection) ordinal :
  projection_ok c p -> (forall s, session_ok c s -> session_ok c (f s)) ->
  map_get k (ps_sessions (withSession p k (fun s => Some (f s)) c ordinal)) = Some (f (warm_session p k)).
Proof.
  intros Hp Hf. by destruct (withSession_spec p k (fun s => Some (f s)) c ordinal Hc (po_warm c p Hp)) as (_ & _ & -> & _);
    [intros s s' Hs [= <-]; auto|].
Qed.

Lemma reduce_stream_ok p f : projection_ok c p -> projection_ok c (reduce_stream c p f).
Proof. intros. destruct f; [by apply reduce_entry_ok|by apply reduce_event_ok]. Qed.

(** Admission of a stream frame, in the three cases of [cursorState]. *)
Lemma reduce_stream_cases p f : projection_ok c p ->
  let k := stream_key f in
  let p' := reduce_stream c p f in
  match stream_state p k (stream_cursor f) with
  | Duplicate => p' = p
  | Gap => map_get k (ps_sessions p') = Some (catching_up (sp_gap (warm_session p k)) (warm_session p k))
  | Accept => map_get k (ps_sessions p') =
      Some (match f with
            | EntryFrame f => apply_entry f c (warm_session p k)
            | EventFrame f => apply_event f c (nextArrivalOrdinal p) (warm_session p k)
            end)
  end.
Proof.
  intros Hp. destruct f as [f|f]; cbn -[reduce_entry reduce_event key];
    unfold reduce_entry, reduce_event; destruct (stream_state _ _ _); try done.
  - apply (withSession_get _ _ (apply_entry f c)); [done|]. intros. by apply apply_entry_ok.
  - apply (withSession_get _ _ (fun s => catching_up (sp_gap s) s)); [done|]. intros. by apply catching_up_ok.
  - apply (withSession_get _ _ (apply_event f c _)); [done|]. intros. by apply apply_event_ok.
  - apply (withSession_get _ _ (fun s => catching_up (sp_gap s) s)); [done|]. intros. by apply catching_up_ok.
Qed.

Lemma delivery_streamed k e n frames entries m : delivery k e n frames entries m -> forall p s L,
  projection_ok c p -> map_get k (ps_sessions p) = Some s -> streamed c e L n s -> NoDup (map entry_id (L ++ entries)) ->
  exists s', map_get k (ps_sessions (fold_left (reduce_stream c) frames p)) = Some s' /\ streamed c e (L ++ entries) m s'.
Proof.
  induction 1 as [n|n f frames entries m Hk Hcur Hd IH|n f frames entries m i Hk Hcur Hi Hd IH];
    intros p s L Hp Hg Hs Hn; simpl.
  { exists s. by rewrite app_nil_r. }
  all: pose proof (reduce_stream_cases p f Hp) as Hstep; cbv zeta in Hstep; rewrite Hk, Hcur in Hstep.
  all: unfold stream_state in Hstep; rewrite Hg, (cursorState_streamed _ _ _ _ _ Hs) in Hstep.
  - rewrite (proj2 (Z.leb_gt _ _)) in Hstep by lia. rewrite Z.eqb_refl in Hstep.
    rewrite (warm_session_get _ _ _ Hg) in Hstep.
    rewrite app_assoc in Hn |- *. eapply IH; [by apply reduce_stream_ok|exact Hstep| |exact Hn].
    rewrite map_app, NoDup_app in Hn. destruct Hn as (Hn & _ & _).
    destruct f as [f|f]; cbn [stream_entries stream_cursor] in *.
    + apply apply_entry_streamed; [done|done|]. rewrite map_app, NoDup_app in Hn. set_solver.
    + rewrite app_nil_r. by apply apply_event_streamed.
  - rewrite (proj2 (Z.leb_le _ _)) in Hstep by lia. rewrite Hstep. by eapply IH.
Qed.

(** When [case "snapshot"] installs its frame. *)
Definition snapshot_admitted p (f : SessionSnapshotFrame) : Prop :=
  forall s cur, map_get (key (sn_hostId f) (sn_sessionId f)) (ps_sessions p) = Some s -> sp_cursor s = Some cur ->
    epoch cur = epoch (sn_cursor f) ->
    seq cur < seq (sn_cursor f) \/ seq cur = seq (sn_cursor f) /\ sp_freshness s = Cached.

Lemma reduce_snapshot_get p f : projection_ok c p -> snapshot_admitted p f ->
  let k := key (sn_hostId f) (sn_sessionId f) in
  map_get k (ps_sessions (reduce_snapshot p f c)) = Some (apply_snapshot f c (warm_session p k)).
Proof.
  intros Hp Ha k. unfold reduce_snapshot. fold k.
  match goal with |- context [if ?b then p else _] => destruct b eqn:E end.
  - exfalso. destruct (map_get k (ps_sessions p)) as [s|] eqn:Eg; [|done].
    destruct (sp_cursor s) as [cur|] eqn:Ec; [|done]. bool_hyps. apply jstr_eqb_eq in H.
    destruct (Ha s cur Eg Ec H) as [?|[? Hcached]]; destruct (_ <? _) eqn:E1; bool_hyps; try lia.
    apply orb_true_iff in H0 as [|]; [done|]. bool_hyps. by rewrite Hcached in *.
  - cbn [ps_sessions set_sessions updateRoot]. apply (withSession_get _ _ (apply_snapshot f c)); [done|].
    intros. by apply apply_snapshot_ok.
Qed.
End Stream.

(** C18: A stream builds the transcript a snapshot would have.  Take any projection within the
    invariant, a snapshot frame it admits, and then any interleaving of entry and live-event
    frames in which each frame either continues the sequence or repeats something already
    delivered.  The session ends fresh, without a gap, at the last cursor, and its retained
    entries and truncation flag are those that installing the whole transcript in one snapshot
    would compute, whatever the entry and byte budgets dropped on the way. *)
Theorem stream_equals_snapshot c p f frames entries m :
  options_ok c -> projection_ok c p -> snapshot_admitted p f ->
  delivery (key (sn_hostId f) (sn_sessionId f)) (epoch (sn_cursor f)) (seq (sn_cursor f)) frames entries m ->
  NoDup (map entry_id (sn_entries f ++ entries)) ->
  let whole := retainDurableEntries (sn_entries f ++ entries) (entry_options c) in
  exists s,
    map_get (key (sn_hostId f) (sn_sessionId f))
      (ps_sessions (fold_left (reduce_stream c) frames (reduce_snapshot p f c))) = Some s /\
    sp_entries s = ret_entries whole /\ sp_entryIds s = map entry_id (ret_entries whole) /\
    sp_historyTruncated s = ret_truncated whole /\
    sp_cursor s = Some (mkCursor (epoch (sn_cursor f)) m) /\ sp_freshness s = Fresh /\ sp_gap s = None.
Proof.
  intros Hc Hp Ha Hd Hn whole. pose proof (reduce_snapshot_get c Hc p f Hp Ha) as Hg. cbv zeta in Hg.
  assert (NoDup (map entry_id (sn_entries f))) as Hn0 by (rewrite map_app, NoDup_app in Hn; tauto).
  destruct (delivery_streamed c Hc _ _ _ _ _ _ Hd _ _ _ (reduce_snapshot_ok c Hc p f Hp) Hg
    (apply_snapshot_streamed c f _ Hn0) Hn) as (s & Hs & [Hw Ht Hi Hcur Hf Hgap]).
  exists s. split; [done|]. destruct (retainedEntryOptions (entry_options c)) as [[a b] d] eqn:Eo.
  destruct (retainDurableEntries_is_window _ _ _ _ Eo _ Hn) as [Hw' Ht'].
  assert (sp_entries s = ret_entries whole) as He by exact (is_window_unique _ _ _ _ (Hw _ _ _ eq_refl) Hw').
  unfold whole in *. split_and!; [done|by rewrite Hi, He|by rewrite Ht, Ht', He|done|done|done].
Qed.

(** The stream of the sample session: an event, a repetition, and the next entry. *)
Definition sample_event : LiveEventFrame :=
  mkEvent (mkCursor (js "e") 5) (js "h") (js "s") [(js "type", JStr (js "turn.start"))].
Definition sample_later : DurableEntryFrame :=
  mkEntryFrame (mkCursor (js "e") 6) (js "r-2") (js "h") (js "s") (sample_entry (js "b")).

Lemma stream_equals_snapshot_witness :
  let c := resolveProjectionOptions NO_OPTIONS in
  let frames := [EventFrame sample_event; EventFrame sample_event; EntryFrame sample_later] in
  (exists s,
    map_get (key (js "h") (js "s"))
      (ps_sessions (fold_left (reduce_stream c) frames (reduce_snapshot createProjectionSnapshot sample_snapshot c))) = Some s /\
    sp_entries s = ret_entries (retainDurableEntries [sample_entry (js "a"); sample_entry (js "b")] (entry_options c)) /\
    sp_cursor s = Some (mkCursor (js "e") 6)).
Proof.
  intros c frames.
  destruct (stream_equals_snapshot c createProjectionSnapshot sample_snapshot frames [sample_entry (js "b")] 6)
    as (s & Hs & He & _ & _ & Hcur & _).
  - exact default_options_ok.
  - apply createProjectionSnapshot_ok, default_options_ok.
  - intros s cur Hs. done.
  - apply (deliver_next _ _ 4 (EventFrame sample_event) _ [sample_entry (js "b")]); [done|done|].
    apply (deliver_again _ _ 5 (EventFrame sample_event) _ _ _ 5); [done|done|lia|].
    apply (deliver_next _ _ 5 (EntryFrame sample_later) [] []); [done|done|]. apply delivered_all.
  - by_compute.
  - exists s. split_and!; [exact Hs|exact He|exact Hcur].
Defined.

(** ** Gaps *)

Section Gaps.
Context (c : ProjectionOptions) (Hc : options_ok c).
Implicit Types (s : SessionProjection) (p : ProjectionSnapshot).

Definition reduce_stream_or_gap p (f : stream_frame + GapFrame) : ProjectionSnapshot :=
  match f with inl f => reduce_stream c p f | inr g => reduce_gap p g c end.
Definition stream_or_gap_key (f : stream_frame + GapFrame) : jstr :=
  match f with inl f => stream_key f | inr g => key (gap_hostId g) (gap_sessionId g) end.

(** The frame does not continue a session at cursor [cur]. *)
Definition discontiguous (cur next : Cursor) : Prop := epoch next ≠ epoch cur \/ seq cur + 1 < seq next.

Lemma discontiguous_gap p k s cur next :
  map_get k (ps_sessions p) = Some s -> sp_cursor s = Some cur -> discontiguous cur next ->
  stream_state p k next = Gap.
Proof.
  intros Hg Hcur Hd. unfold stream_state, cursorState. rewrite Hg, Hcur. case_bool_decide; [done|].
  destruct (jstr_eqb (epoch next) (epoch cur)) eqn:E; [|done]. apply jstr_eqb_eq in E. simpl.
  destruct Hd as [|Hd]; [done|]. destruct (Z.leb_spec (seq next) (seq cur)); [lia|].
  destruct (Z.eqb_spec (seq next) (seq cur + 1)); [lia|done].
Qed.

Lemma catching_up_again gap gap' s : catching_up gap' (catching_up gap s) = catching_up gap' s.
Proof. done. Qed.

Lemma halted_step p f k gap s : projection_ok c p -> stream_or_gap_key f = k ->
  map_get k (ps_sessions p) = Some (catching_up gap s) ->
  projection_ok c (reduce_stream_or_gap p f) /\
  exists gap', map_get k (ps_sessions (reduce_stream_or_gap p f)) = Some (catching_up gap' s).
Proof.
  intros Hp Hk Hg. destruct f as [f|g]; simpl in *.
  - split; [by apply reduce_stream_ok|]. pose proof (reduce_stream_cases c Hc p f Hp) as Hstep. cbv zeta in Hstep.
    rewrite Hk in Hstep. unfold stream_state in Hstep. rewrite Hg in Hstep. simpl in Hstep.
    rewrite Hstep, (warm_session_get _ _ _ Hg). exists gap. done.
  - split; [by apply reduce_gap_ok|]. exists (Some g). unfold reduce_gap. rewrite Hk.
    rewrite (withSession_get c Hc p k (catching_up (Some g))); [|done|intros; by apply catching_up_ok].
    by rewrite (warm_session_get _ _ _ Hg).
Qed.

Lemma halted_run frames k : Forall (fun f => stream_or_gap_key f = k) frames -> forall p gap s,
  projection_ok c p -> map_get k (ps_sessions p) = Some (catching_up gap s) ->
  projection_ok c (fold_left reduce_stream_or_gap frames p) /\
  exists gap', map_get k (ps_sessions (fold_left reduce_stream_or_gap frames p)) = Some (catching_up gap' s).
Proof.
  induction 1 as [|f frames Hf _ IH]; intros p gap s Hp Hg; simpl; [eauto|].
  destruct (halted_step p f k gap s Hp Hf Hg) as (Hp' & gap' & Hg'). by eapply IH.
Qed.
End Gaps.

(** A discontinuity halts a session until a newer snapshot repairs it.  A frame of another
    epoch, or one that skips a sequence number, leaves the session's transcript, events and
    cursor as they were and marks it catching up; whatever entry, event and gap frames of the
    session follow change nothing but the recorded gap; a snapshot at or before the cursor in
    its epoch is ignored; and a snapshot of another epoch or beyond the cursor installs its own
    transcript and cursor, fresh and without gap. *)
Theorem gap_halts_until_snapshot c p k s cur f frames :
  options_ok c -> projection_ok c p ->
  map_get k (ps_sessions p) = Some s -> sp_cursor s = Some cur ->
  stream_key f = k -> discontiguous cur (stream_cursor f) ->
  Forall (fun g => stream_or_gap_key g = k) frames ->
  let q := fold_left (reduce_stream_or_gap c) frames (reduce_stream c p f) in
  (exists gap, map_get k (ps_sessions q) = Some (catching_up gap s)) /\
  forall snap, key (sn_hostId snap) (sn_sessionId snap) = k ->
    if jstr_eqb (epoch (sn_cursor snap)) (epoch cur) && (seq (sn_cursor snap) <=? seq cur) then reduce_snapshot q snap c = q
    else exists s', map_get k (ps_sessions (reduce_snapshot q snap c)) = Some s' /\
      sp_entries s' = ret_entries (retainDurableEntries (sn_entries snap) (entry_options c)) /\
      sp_cursor s' = Some (sn_cursor snap) /\ sp_freshness s' = Fresh /\ sp_gap s' = None.
Proof.
  intros Hc Hp Hg Hcur Hk Hd Hall q.
  pose proof (reduce_stream_cases c Hc p f Hp) as Hstep. cbv zeta in Hstep.
  rewrite Hk, (discontiguous_gap p k s cur _ Hg Hcur Hd), (warm_session_get _ _ _ Hg) in Hstep.
  destruct (halted_run c Hc frames k Hall _ _ _ (reduce_stream_ok c Hc p f Hp) Hstep) as (Hq & gap & Hgq).
  fold q in Hq, Hgq. split; [by exists gap|]. intros snap Hks.
  destruct (jstr_eqb _ _ && _) eqn:E.
  - bool_hyps. unfold reduce_snapshot. rewrite Hks, Hgq. cbn [catching_up set_freshness sp_cursor sp_freshness].
    rewrite Hcur. apply jstr_eqb_eq in H. rewrite H, jstr_eqb_refl. rewrite bool_decide_eq_false_2 by done.
    destruct (Z.ltb_spec (seq (sn_cursor snap)) (seq cur)); [done|].
    by rewrite (proj2 (Z.eqb_eq _ _)) by lia.
  - assert (snapshot_admitted q snap) as Ha.
    { intros s0 cur0 Hs0 Hc0 He. rewrite Hks, Hgq in Hs0. injection Hs0 as <-. simpl in Hc0. rewrite Hcur in Hc0.
      injection Hc0 as <-. left. rewrite He, jstr_eqb_refl in E. simpl in E. bool_hyps. lia. }
    pose proof (reduce_snapshot_get c Hc q snap Hq Ha) as Hr. cbv zeta in Hr. rewrite Hks in Hr. eauto 10.
Qed.

Lemma sample_projection_ok : projection_ok (resolveProjectionOptions NO_OPTIONS) sample_projection.
Proof.
  apply reduce_entry_ok; [apply default_options_ok|]. apply reduce_snapshot_ok; [apply default_options_ok|].
  apply createProjectionSnapshot_ok, default_options_ok.
Qed.

(** An event that skips sequence number 6. *)
Definition sample_skip : LiveEventFrame :=
  mkEvent (mkCursor (js "e") 7) (js "h") (js "s") [(js "type", JStr (js "turn.end"))].

Lemma gap_halts_until_snapshot_witness :
  let c := resolveProjectionOptions NO_OPTIONS in
  let k := key (js "h") (js "s") in
  let q := fold_left (reduce_stream_or_gap c) [inl (EntryFrame sample_later)]
             (reduce_stream c sample_projection (EventFrame sample_skip)) in
  exists gap, map_get k (ps_sessions q) = Some (catching_up gap (warm_session sample_projection k)).
Proof.
  intros c k q.
  apply (gap_halts_until_snapshot c sample_projection k (warm_session sample_projection k) (mkCursor (js "e") 5)
    (EventFrame sample_skip) [inl (EntryFrame sample_later)]).
  - exact default_options_ok.
  - exact sample_projection_ok.
  - by vm_compute.
  - by vm_compute.
  - done.
  - right. simpl. lia.
  - by repeat constructor.
Defined.

(** ** Cursors *)

(** A cursor moved forward: it appeared, it changed epoch, or it did not decrease. *)
Definition cursor_forward (before after : option Cursor) : Prop :=
  match before, after with
  | None, _ => True
  | Some _, None => False
  | Some b, Some a => epoch a ≠ epoch b \/ seq b <= seq a
  end.

Lemma cursor_forward_refl o : cursor_forward o o.
Proof. destruct o; simpl; [right; lia|done]. Qed.

Lemma session_of_key_cursor k : sp_cursor (session_of_key k) = None.
Proof. unfold session_of_key. by destruct (split_on 0 k) as [|? [|]]. Qed.

Section Cursors.
Context (c : ProjectionOptions) (Hc : options_ok c).
Implicit Types (s : SessionProjection) (p : ProjectionSnapshot).

(** Every warm session of [p'] continues its session of [p]. *)
Definition continues p p' : Prop :=
  forall k s s', map_get k (ps_sessions p) = Some s -> map_get k (ps_sessions p') = Some s' ->
    cursor_forward (sp_cursor s) (sp_cursor s').

Lemma continues_refl p p' : ps_sessions p' = ps_sessions p -> continues p p'.
Proof. intros E k s s' Hs Hs'. rewrite E, Hs in Hs'. injection Hs' as <-. apply cursor_forward_refl. Qed.

(** Lookups after an update, whatever the update does. *)
Lemma withSession_lookup p k update ordinal x s' : projection_ok c p ->
  map_get x (ps_sessions (withSession p k update c ordinal)) = Some s' ->
  if decide (x = k) then s' = default (warm_session p k) (update (warm_session p k))
  else map_get x (ps_sessions p) = Some s'.
Proof.
  intros Hp. destruct (touch_spec p k c Hc (po_warm c p Hp)) as ([H1 H2 H3 H4 _ _] & _ & Hg & Hoth & _).
  pose proof (lru_size _ _ H2 H1 H3) as Hsz. pose proof (oo_warm c Hc) as Hw.
  unfold withSession. rewrite Hg. destruct (update (warm_session p k)) as [u|]; cbn [ps_sessions set_sessions].
  - rewrite mapWith_fits; [|lia|unfold map_has; by rewrite Hg].
    destruct (decide (x = k)) as [->|Hx]; [rewrite map_get_set_eq; by intros [= <-]|].
    rewrite map_get_set_ne by done. by apply Hoth.
  - destruct (decide (x = k)) as [->|Hx]; [rewrite Hg; by intros [= <-]|by apply Hoth].
Qed.

Lemma continues_withSession p k update ordinal : projection_ok c p ->
  (forall s s', map_get k (ps_sessions p) = Some s -> update s = Some s' -> cursor_forward (sp_cursor s) (sp_cursor s')) ->
  continues p (withSession p k update c ordinal).
Proof.
  intros Hp Hf x s s' Hs Hs'%(withSession_lookup p k update ordinal x s' Hp).
  destruct (decide (x = k)) as [->|Hx].
  - rewrite (warm_session_get _ _ _ Hs) in Hs'. destruct (update s) as [u|] eqn:Eu; simpl in Hs'; subst s'; [eauto|].
    apply cursor_forward_refl.
  - rewrite Hs in Hs'. injection Hs' as <-. apply cursor_forward_refl.
Qed.

(** An update that does not touch the cursor. *)
Lemma continues_update p k update ordinal : projection_ok c p ->
  (forall s s', update s = Some s' -> sp_cursor s' = sp_cursor s) -> continues p (withSession p k update c ordinal).
Proof. intros Hp Hf. apply continues_withSession; [done|]. intros s s' _ ->%Hf. apply cursor_forward_refl. Qed.

Lemma accepted_forward s cursor : cursorState s cursor = Accept -> cursor_forward (sp_cursor s) (Some cursor).
Proof.
  unfold cursorState. case_bool_decide; [done|]. destruct (sp_cursor s) as [cur|]; [|done].
  destruct (jstr_eqb _ _); [|done]. simpl. destruct (Z.leb_spec (seq cursor) (seq cur)); [done|]. intros _. right. lia.
Qed.

Lemma accepted_session p k cursor s :
  stream_state p k cursor = Accept -> map_get k (ps_sessions p) = Some s -> cursor_forward (sp_cursor s) (Some cursor).
Proof. unfold stream_state. intros Ha Hs. rewrite Hs in Ha. by apply accepted_forward. Qed.

Lemma continues_stream p f : projection_ok c p -> continues p (reduce_stream c p f).
Proof.
  intros Hp. destruct f as [f|f]; simpl; unfold reduce_entry, reduce_event;
    destruct (stream_state _ _ _) eqn:Ea; try (by apply continues_refl);
    try (apply continues_update; [done|by intros s s' [= <-]]);
    apply continues_withSession; try done; intros s s' Hs [= <-];
    pose proof (accepted_session _ _ _ _ Ea Hs); [|done].
  unfold apply_entry. by destruct (in_list _ _).
Qed.

Lemma continues_snapshot p f : projection_ok c p -> continues p (reduce_snapshot p f c).
Proof.
  intros Hp. unfold reduce_snapshot. set (k := key _ _).
  match goal with |- context [if ?b then _ else _] => destruct b eqn:E end; [by apply continues_refl|].
  apply (continues_withSession p k (fun s => Some (apply_snapshot f c s)) None Hp).
  intros s s' Hs [= <-]. rewrite Hs in E. simpl. destruct (sp_cursor s) as [cur|]; [|done].
  destruct (jstr_eqb (epoch cur) (epoch (sn_cursor f))) eqn:Ee; [right|left; apply jstr_eqb_neq in Ee; congruence].
  simpl in E. apply orb_false_iff in E as [E _]. apply Z.ltb_ge in E. lia.
Qed.

Lemma map_get_map_values {V} (g : V -> V) (m : jsmap jstr V) k :
  map_get k (map (fun kv => (fst kv, g (snd kv))) m) = g <$> map_get k m.
Proof. induction m as [|[x v] m IH]; [done|]. simpl. by destruct (decide (k = x)). Qed.

Lemma continues_welcome p f : continues p (reduce_welcome p f).
Proof.
  intros k s s' Hs Hs'. unfold reduce_welcome in Hs'. cbn [ps_sessions updateRoot set_sessions] in Hs'.
  rewrite (map_get_map_values (fun v => if jstr_eqb (sp_hostId v) (wl_hostId f) then welcome_session _ v else v)), Hs in Hs'.
  injection Hs' as <-.
  destruct (jstr_eqb _ _); [|apply cursor_forward_refl].
  unfold welcome_session. match goal with |- context [if ?b then set_freshness _ _ _ _ _ else _] => destruct b end; apply cursor_forward_refl.
Qed.

Lemma continues_delta p f : projection_ok c p -> continues p (reduce_delta p f c).
Proof.
  intros Hp. unfold reduce_delta. destruct (boundedIdentity _); [|by apply continues_refl].
  destruct (boundedIdentity _); [|by apply continues_refl].
  assert (forall h ok tk u cur, continues p (apply_delta p c h ok tk u cur)) as Hd.
  { intros h ok tk u cur k s s' Hs Hs'. unfold apply_delta in Hs'. destruct u as [ref|]; cbn [ps_sessions set_sessions] in Hs'.
    - destruct (map_get ok (ps_sessions p)) as [w|] eqn:Eo; [|rewrite Hs in Hs'; injection Hs' as <-; apply cursor_forward_refl].
      rewrite mapWith_fits in Hs'.
      + destruct (decide (k = ok)) as [->|]; [rewrite map_get_set_eq in Hs'|rewrite map_get_set_ne in Hs' by done];
          simplify_eq; apply cursor_forward_refl.
      + destruct (po_warm c p Hp) as [H1 H2 H3 H4 _ _]. by rewrite (lru_size (ps_lru p)).
      + unfold map_has. by rewrite Eo.
    - destruct (decide (k = tk)) as [->|]; unfold mapWithout in Hs'.
      + by rewrite map_get_delete_eq in Hs'.
      + rewrite map_get_delete_ne in Hs' by done. simplify_eq. apply cursor_forward_refl. }
  repeat match goal with
  | |- continues p (if ?b then _ else _) => destruct b
  | |- continues p (match ?x with _ => _ end) => destruct x
  end; auto using continues_refl.
Qed.
End Cursors.

(** *** Inventory pages *)

(** Every session of [m'] has the cursor of a session of [m] at its key, or none. *)
Definition derived (m m' : jsmap jstr SessionProjection) : Prop :=
  forall k s', (k, s') ∈ m' -> sp_cursor s' = None \/ exists s, (k, s) ∈ m /\ sp_cursor s' = sp_cursor s.

Lemma derived_refl m : derived m m.
Proof. intros k s' H. right. by exists s'. Qed.

Lemma derived_trans m1 m2 m3 : derived m1 m2 -> derived m2 m3 -> derived m1 m3.
Proof.
  intros H12 H23 k s' [?|(s & Hin & ->)]%H23; [by left|]. exact (H12 k s Hin).
Qed.

Lemma derived_incl m m' : m' ⊆ m -> derived m m'.
Proof. intros Hi k s' H. right. exists s'. split; [by apply Hi|done]. Qed.

Lemma derived_delete m k : derived m (map_delete k m).
Proof. apply derived_incl. intros kv Hin. by apply elem_of_filter_list in Hin as [? _]. Qed.

Lemma elem_of_map_set (m : jsmap jstr SessionProjection) k v kv : kv ∈ map_set k v m -> kv = (k, v) \/ kv ∈ m.
Proof.
  induction m as [|[x w] m IH]; simpl; [set_solver|]. destruct (decide (k = x)) as [->|]; [set_solver|].
  intros [->|[->|]%IH]%elem_of_cons; set_solver.
Qed.

Lemma derived_mapWith m k v max :
  (sp_cursor v = None \/ exists s, (k, s) ∈ m /\ sp_cursor v = sp_cursor s) -> derived m (mapWith m k v max).
Proof.
  intros Hv x s' Hin.
  assert ((x, s') ∈ map_set k v m) as [[= -> ->]|Hold]%elem_of_map_set; [|done|right; by exists s'].
  unfold mapWith in Hin. destruct (drop_oldest_suffix max (map_set k v m)) as [o ->]. set_solver.
Qed.

Lemma derived_evict max lru m : derived m (snd (evict_lru max lru m)).
Proof.
  revert m. induction lru as [|k lru IH]; intros m; simpl; [apply derived_refl|].
  destruct (_ >? _); [|apply derived_refl]. eapply derived_trans; [apply (derived_delete m k)|apply IH].
Qed.

Lemma derived_touch p k c : derived (ps_sessions p) (ps_sessions (touch p k c)).
Proof.
  unfold touch. destruct (_ && _); [apply derived_refl|].
  set (lru := _ ++ [k]). set (m := match map_get k (ps_sessions p) with Some _ => _ | None => _ end).
  assert (derived (ps_sessions p) m) as Hm.
  { unfold m. destruct (map_get k (ps_sessions p)); [apply derived_refl|].
    apply derived_mapWith. left. apply session_of_key_cursor. }
  pose proof (derived_evict (maxWarmSessions c) lru m) as He.
  destruct (evict_lru _ _ _) as [lru' m']. simpl in *. by eapply derived_trans.
Qed.

Lemma derived_attach refs m : derived m (attach_refs refs m).
Proof.
  revert m. induction refs as [|r refs IH]; intros m; [apply derived_refl|]. unfold attach_refs. simpl.
  eapply derived_trans; [|apply IH]. destruct (map_get (ref_key r) m) as [s|] eqn:E; [|apply derived_refl].
  apply derived_mapWith. right. exists s. split; [by apply map_get_some_in|done].
Qed.

Lemma derived_fold {B} (step : Inventory -> B -> Inventory) l :
  (forall inv b, derived (in_sessions inv) (in_sessions (step inv b))) ->
  forall inv, derived (in_sessions inv) (in_sessions (fold_left step l inv)).
Proof.
  intros Hs. induction l as [|b l IH]; intros inv; simpl; [apply derived_refl|].
  eapply derived_trans; [apply Hs|apply IH].
Qed.

Lemma derived_sessions localeCompare c p f :
  derived (ps_sessions p) (ps_sessions (reduce_sessions localeCompare p f c)).
Proof.
  unfold reduce_sessions. set (refs := omap _ _). clearbody refs.
  destruct (existsb _ _); [apply derived_refl|]. cbv zeta. cbn [ps_sessions updateRoot set_sessions].
  set (inv := if sessionFrameIsComplete _ _ _ then _ else _).
  assert (derived (ps_sessions p) (in_sessions inv)) as Hinv.
  { unfold inv. destruct (sessionFrameIsComplete _ _ _); [|apply derived_refl].
    eapply derived_trans; [|apply derived_fold]; [unfold remove_missing; apply (derived_fold _ (ps_sessionIndex p))|].
    all: intros i b; destruct (_ || _); [apply derived_refl|apply derived_delete]. }
  clearbody inv. eapply derived_trans; [exact Hinv|]. eapply derived_trans; [|apply derived_attach].
  match goal with |- derived _ (ps_sessions (match ?a with Some _ => _ | None => _ end)) => destruct a end;
    [|apply derived_refl].
  cbn [ps_sessions set_sessions]. apply derived_touch.
Qed.

Lemma continues_frame localeCompare parse_url options p frame p' :
  let c := resolveProjectionOptions options in
  options_ok c -> projection_ok c p -> applyProjectionInput localeCompare parse_url p frame options = Ok p' ->
  match frame with InSessions _ => True | _ => continues p p' end.
Proof.
  intros c Hc Hp. unfold applyProjectionInput. fold c. clearbody c.
  destruct frame as [f|f|f|f|f|f|f|f|f|f|f|f|f|f|f|f|f|]; try (intros [= <-]); auto using continues_refl.
  - unfold reduce_preview.
    repeat match goal with
    | |- continues p (if ?b then _ else _) => destruct b
    | |- continues p (match ?x with _ => _ end) => destruct x
    end; try (by apply continues_refl); apply continues_update; try done; intros s s'; try (by intros [= <-]);
      unfold mark_stale; destruct (map_get _ _); try done; destruct (bool_decide _); by intros [= <-].
  - apply continues_update; [done|done|]. by intros s s' [= <-].
  - apply continues_update; [done|done|]. by intros s s' [= <-].
  - apply continues_update; [done|done|]. by intros s s' [= <-].
  - unfold reduce_audit. destruct (au_sessionId f); [|by apply continues_refl].
    apply continues_update; [done|done|]. by intros s s' [= <-].
  - unfold reduce_confirmation. destruct (cf_sessionId f); [|by apply continues_refl].
    apply continues_update; [done|done|]. by intros s s' [= <-].
  - unfold reduce_response. destruct (rs_sessionId f); [|by apply continues_refl].
    apply continues_update; [done|done|]. intros s s' [= <-]. by destruct (attachAcknowledgesCurrentCursor s f).
  - intros Hr. apply continues_refl. revert Hr. unfold reduce_workspace.
    destruct (boundedIdentity _); [|by intros [= <-]]. destruct (boundedIdentity _); [|by intros [= <-]].
    destruct (sessionDeltaCursorIsStale _ _); [by intros [= <-]|].
    destruct (wf_upsert f); [|destruct (wf_remove f); [|by intros [= <-]]].
    + intros Hr. wire_hyps. destruct (negb _); by injection Hr as <-.
    + destruct (negb _); by intros [= <-].
  - by apply continues_delta.
  - by apply continues_snapshot.
  - by apply (continues_stream c Hc p (EntryFrame f)).
  - by apply (continues_stream c Hc p (EventFrame f)).
  - apply continues_update; [done|done|]. by intros s s' [= <-].
  - apply continues_update; [done|done|]. by intros s s' [= <-].
  - apply continues_update; [done|done|]. intros s s'. destruct (agentTranscriptProjection _ _ _ _ _); by intros [= <-].
  - apply continues_welcome.
Qed.

(** No frame moves a session's cursor backwards.  Whatever frame the reducer applies to a
    projection within the invariant, a session that is warm before and after it keeps its
    cursor, moves it forward within the epoch, or takes the cursor of another epoch; it never
    returns to an earlier sequence number of the same epoch and never forgets its cursor, except
    that an inventory page may discard the session and leave an empty one without a cursor. *)
Theorem cursor_never_rewinds localeCompare parse_url options p frame p' k s s' :
  options_ok (resolveProjectionOptions options) -> projection_ok (resolveProjectionOptions options) p ->
  applyProjectionInput localeCompare parse_url p frame options = Ok p' ->
  map_get k (ps_sessions p) = Some s -> map_get k (ps_sessions p') = Some s' ->
  cursor_forward (sp_cursor s) (sp_cursor s') \/ (exists f, frame = InSessions f) /\ sp_cursor s' = None.
Proof.
  intros Hc Hp Ha Hs Hs'. pose proof (continues_frame _ _ _ _ _ _ Hc Hp Ha) as Hf.
  destruct frame; try (left; exact (Hf k s s' Hs Hs')).
  unfold applyProjectionInput in Ha. injection Ha as <-. apply map_get_some_in in Hs'.
  destruct (derived_sessions _ _ _ _ _ _ Hs') as [?|(s0 & Hin & ->)]; [eauto|left].
  apply map_in_get in Hin; [|by destruct (po_warm _ _ Hp)]. rewrite Hs in Hin. injection Hin as <-. apply cursor_forward_refl.
Qed.

Lemma cursor_never_rewinds_witness :
  let c := resolveProjectionOptions NO_OPTIONS in
  let k := key (js "h") (js "s") in
  let p' := reduce_event sample_projection sample_event c in
  cursor_forward (sp_cursor (warm_session sample_projection k)) (sp_cursor (warm_session p' k)) \/
  (exists f, InEvent sample_event = InSessions f) /\ sp_cursor (warm_session p' k) = None.
Proof.
  intros c k p'.
  apply (cursor_never_rewinds (fun _ _ => Eq) (fun _ => None) NO_OPTIONS sample_projection (InEvent sample_event) p' k).
  - exact default_options_ok.
  - exact sample_projection_ok.
  - done.
  - by vm_compute.
  - by vm_compute.
Defined.
