(* ===== verification/SnapshotLimits.v ===== *)
(** * SnapshotLimits: bounded session snapshots on the host
    ([packages/host-service/src/snapshot-limits.ts])

    SHA-256 of [node:crypto] is a parameter, with the documented shape of a hexadecimal digest
    as the hypothesis of the theorems that need it.  The two searches that the source writes as
    unbounded loops take fuel here and answer [None] when it runs out; the theorems show the
    fuel the definitions use is enough. *)
From stdpp Require Import base tactics option list numbers strings sets.
From S2P Require Import Prelude JsMap JsString JsValue Wire WireGuards.

Definition MAX_SNAPSHOT_ENTRIES : Z := 1000.
Definition MAX_SNAPSHOT_BYTES : Z := 512 * 1024.
Definition MAX_SNAPSHOT_NODES : Z := 16000.

Definition boundUtf8 (value : jstr) (maxBytes : Z) : jstr :=
  let bytes := utf8_encode value in
  if len bytes <=? maxBytes then value
  else utf8_decode (take (back_off bytes (Z.to_nat maxBytes)) bytes).

Fixpoint jsonNodeCount (value : jv) : Z :=
  match value with
  | JArr items => 1 + sumZ (map jsonNodeCount items)
  | JObj props => 1 + sumZ (map (fun kv => jsonNodeCount (snd kv)) props)
  | _ => 1
  end.

Definition entry_bytes (e : DurableEntry) : Z := json_bytes (entry_json e).
Definition entry_nodes (e : DurableEntry) : Z := jsonNodeCount (entry_json e).

Definition has_prefix (p s : jstr) : bool := starts_with p s.

Definition priorOmissionCount (entry : DurableEntry) : Z :=
  match prop (js "omitted") (data entry), prop (js "summary") (data entry) with
  | JNum n, JStr summary =>
      match num_safe_integer n with
      | Some omitted =>
          if negb (jstr_eqb (kind entry) (js "compaction")) || match parentId entry with Some _ => true | None => false end ||
             negb match prop (js "snapshotOmission") (data entry) with JBool b => b | _ => false end ||
             (omitted <? 1) ||
             negb (has_prefix (js "Older transcript entries were omitted from this snapshot (") summary)
          then 0 else omitted
      | None => 0
      end
  | _, _ => 0
  end.

(** [payloadSize], as the pair of bytes and nodes. *)
Fixpoint payload_loop (first : bool) (entries : list DurableEntry) (bytes nodes : Z) : Z * Z :=
  match entries with
  | [] => (bytes, nodes)
  | e :: rest => payload_loop false rest (bytes + ((if first then 0 else 1) + entry_bytes e)) (nodes + entry_nodes e)
  end.

Definition payloadSize (entries : list DurableEntry) : Z * Z := payload_loop true entries 2 1.

(** [split the entries into earlier omission notices and candidates] *)
Definition prior_omitted (entries : list DurableEntry) : Z := sumZ (map priorOmissionCount entries).
Definition candidates_of (entries : list DurableEntry) : list DurableEntry :=
  List.filter (fun e => priorOmissionCount e =? 0) entries.

(** The selection loop, newest candidate first; the accumulator is in chronological order. *)
Fixpoint select_newest (rev_candidates retained : list DurableEntry) (bytes nodes : Z) : list DurableEntry :=
  match rev_candidates with
  | [] => retained
  | entry :: older =>
      if len retained <? MAX_SNAPSHOT_ENTRIES then
        let separator := if len retained =? 0 then 0 else 1 in
        if (MAX_SNAPSHOT_BYTES <? bytes + separator + entry_bytes entry) ||
           (MAX_SNAPSHOT_NODES <? nodes + entry_nodes entry)
        then if len retained =? 0 then select_newest older retained bytes nodes else retained
        else select_newest older (entry :: retained) (bytes + (separator + entry_bytes entry)) (nodes + entry_nodes entry)
      else retained
  end.

(** [while (retained.length >= MAX_SNAPSHOT_ENTRIES) { retained.shift(); omitted++; }] *)
Fixpoint shed_count (retained : list DurableEntry) (omitted : Z) : list DurableEntry * Z :=
  match retained with
  | _ :: rest => if MAX_SNAPSHOT_ENTRIES <=? len retained then shed_count rest (omitted + 1) else (retained, omitted)
  | [] => ([], omitted)
  end.

Section Notice.
Context (sha256_hex : jstr -> jstr).

(** The counter loop of [uniqueEntryId]. *)
Fixpoint fresh_candidate (fuel : nat) (suffix : jstr) (counter : Z) (used : list jstr) : option (wire jstr) :=
  match fuel with
  | O => None
  | S f =>
      match wire_id (JStr (js "snapshot-" ++ suffix ++ js "-" ++ num_string (num_of_Z counter))) with
      | Fail c => Some (Fail c)
      | Ok candidate =>
          if existsb (jstr_eqb candidate) used then fresh_candidate f suffix (counter + 1) used
          else Some (Ok candidate)
      end
  end.

(** [uniqueEntryId(base, used)]; [used] lists the members of the set, without duplicates. *)
Definition uniqueEntryId (base : jstr) (used : list jstr) : option (wire jstr) :=
  match wire_id (JStr (boundUtf8 base 256)) with
  | Fail c => Some (Fail c)
  | Ok first =>
      if existsb (jstr_eqb first) used then
        fresh_candidate (length used + 1) (take 16 (sha256_hex base)) (len used) used
      else Some (Ok first)
  end.

Definition omissionNotice (retained : list DurableEntry) (host session timestamp : jstr) (omitted : Z) : option (wire DurableEntry) :=
  match uniqueEntryId (js "snapshot-truncation-" ++ session) (remove_dups (map entry_id retained)) with
  | None => None
  | Some (Fail c) => Some (Fail c)
  | Some (Ok id) =>
      Some (Ok (mkEntry id None host session None (js "compaction") timestamp
        [(js "summary", JStr (js "Older transcript entries were omitted from this snapshot (" ++
                              num_string (num_of_Z omitted) ++ js " entries)."));
         (js "omitted", JNum (num_of_Z omitted)); (js "snapshotOmission", JBool true)]))
  end.

Definition first_timestamp (retained : list DurableEntry) (fallback : jstr) : jstr :=
  match retained with e :: _ => timestamp e | [] => fallback end.

(** [while (true)]: shed entries until the notice fits with the rest. *)
Fixpoint shed_to_fit (fuel : nat) (retained : list DurableEntry) (host session fallback : jstr) (omitted : Z)
    : option (wire (list DurableEntry * Z)) :=
  match fuel with
  | O => None
  | S f =>
      match omissionNotice retained host session (first_timestamp retained fallback) omitted with
      | None => None
      | Some (Fail c) => Some (Fail c)
      | Some (Ok notice) =>
          let (bytes, nodes) := payloadSize (notice :: retained) in
          if (bytes <=? MAX_SNAPSHOT_BYTES) && (nodes <=? MAX_SNAPSHOT_NODES) then Some (Ok (retained, omitted))
          else shed_to_fit f (tail retained) host session fallback (omitted + 1)
      end
  end.

Definition set_parent_null (e : DurableEntry) : DurableEntry :=
  mkEntry (entry_id e) None (entry_hostId e) (entry_sessionId e) (turnId e) (kind e) (timestamp e) (data e).

(** Entries whose parent was omitted become roots. *)
Definition rebind_parents (retained : list DurableEntry) : list DurableEntry :=
  map (fun e =>
    match parentId e with
    | Some p => if negb (len p =? 0) && negb (existsb (jstr_eqb p) (map entry_id retained)) then set_parent_null e else e
    | None => e
    end) retained.

(** [boundSnapshotEntries]; [None] would mean that a loop did not end. *)
Definition boundSnapshotEntries (entries : list DurableEntry) (host session fallback : jstr)
    : option (wire (list DurableEntry)) :=
  let candidates := candidates_of entries in
  let retained := select_newest (rev candidates) [] 2 1 in
  let omitted := prior_omitted entries + len candidates - len retained in
  if omitted =? 0 then Some (Ok retained)
  else
    let (retained, omitted) := shed_count retained omitted in
    match shed_to_fit (length retained + 1) retained host session fallback omitted with
    | None => None
    | Some (Fail c) => Some (Fail c)
    | Some (Ok (retained, omitted)) =>
        let rebound := rebind_parents retained in
        match omissionNotice rebound host session (first_timestamp rebound fallback) omitted with
        | None => None
        | Some (Fail c) => Some (Fail c)
        | Some (Ok notice) => Some (Ok (notice :: rebound))
        end
    end.
End Notice.
