(* ===== verification/SnapshotSpec.v ===== *)
(** * SnapshotSpec: bounded snapshots are bounded, consistent and always produced

    The search for an unused entry id ends with one, and [boundSnapshotEntries] returns a
    snapshot within its entry, byte and node budgets whose omission notice accounts for every
    entry left out. *)
From stdpp Require Import base tactics option list numbers strings sets.
From S2P Require Import Prelude JsMap JsString JsValue Wire WireGuards WireSpec NumberText Retention RetentionSpec TranscriptWindow.
From S2P Require Import ResourceRetention ResourceRetentionSpec SnapshotLimits.

(** ** Valid identifiers *)

(** Text an identifier may contain: well-formed UTF-16 without control characters. *)
Definition id_text (s : jstr) : Prop := wf16 s = true /\ existsb is_control s = false.

Lemma wire_id_of s : id_text s -> 0 < len s -> utf8Bytes s <= MAX_ID_BYTES -> wire_id (JStr s) = Ok s.
Proof.
  intros [Hw Hc] Hl Hb. unfold wire_id, controlFree, wire_string.
  destruct (Z.eqb_spec (len s) 0); [lia|].
  rewrite (proj2 (utf8ByteLength_measured s (utf8Bytes s))) by (by left). simpl.
  destruct (Z.gtb_spec (utf8Bytes s) MAX_ID_BYTES); [lia|]. simpl. by rewrite Hc.
Qed.

Lemma id_text_app a b : id_text a -> id_text b -> id_text (a ++ b).
Proof. intros [? Ha] [? Hb]. split; [by apply wf16_app|]. by rewrite existsb_app, Ha, Hb. Qed.

(** Printable ASCII. *)
Definition printable (s : jstr) : Prop := Forall (fun u => 0x20 <= u < 0x7F)%N s.

Lemma printable_ascii s : printable s -> ascii_only s.
Proof. intros H. eapply Forall_impl; [exact H|]. simpl. lia. Qed.

Lemma printable_id s : printable s -> id_text s.
Proof.
  intros Hp. split; [by apply ascii_wf16, printable_ascii|]. induction Hp as [|u s Hu _ IH]; [done|]. simpl.
  rewrite IH, orb_false_r. unfold is_control. destruct (N.leb_spec u 0x1F), (N.eqb_spec u 0x7F); lia || done.
Qed.

Lemma printable_app a b : printable a -> printable b -> printable (a ++ b).
Proof. apply Forall_app_2. Qed.

Lemma printable_bytes s : printable s -> utf8Bytes s = len s.
Proof. intros. by apply ascii_utf8Bytes, printable_ascii. Qed.

Lemma num_string_printable z : 0 <= z <= MAX_SAFE_INTEGER -> printable (num_string (num_of_Z z)).
Proof. intros Hz. destruct (num_string_value z Hz) as (_ & _ & Hd). eapply Forall_impl; [exact Hd|]. simpl. lia. Qed.

(** ** Truncated identifiers *)

Lemma back_off_ge bs e j b : (j <= e)%nat -> bs !! j = Some b -> is_cont b = false -> (j <= back_off bs e)%nat.
Proof.
  intros Hj Hb Hc. induction e as [|e IH]; simpl; [lia|]. destruct (decide (j = S e)) as [->|].
  - by rewrite Hb, Hc.
  - destruct (bs !! S e) as [x|]; [destruct (is_cont x)|]; lia.
Qed.

Lemma control_utf16 cps : Forall scalar cps -> existsb is_control (flat_map utf16_cp cps) = existsb is_control cps.
Proof.
  induction 1 as [|c cps Hc _ IH]; [done|]. simpl. rewrite existsb_app, IH. f_equal. unfold utf16_cp.
  destruct (N.ltb_spec c 0x10000); [simpl; by rewrite orb_false_r|]. simpl.
  unfold is_control. destruct (N.leb_spec c 0x1F); [lia|]. destruct (N.eqb_spec c 0x7F); [lia|].
  pose proof (N.Div0.mod_le (c - 0x10000) 0x400). set (x := ((c - 0x10000) / 0x400)%N). set (y := ((c - 0x10000) mod 0x400)%N).
  destruct (N.leb_spec (0xD800 + x) 0x1F); [lia|]. destruct (N.eqb_spec (0xD800 + x) 0x7F); [lia|].
  destruct (N.leb_spec (0xDC00 + y) 0x1F); [lia|]. destruct (N.eqb_spec (0xDC00 + y) 0x7F); [lia|]. done.
Qed.


Lemma is_control_big c : (0x80 <= c)%N -> is_control c = false.
Proof. intros. unfold is_control. destruct (N.leb_spec c 0x1F); [lia|]. destruct (N.eqb_spec c 0x7F); [lia|done]. Qed.

Lemma control_code_points s : existsb is_control s = false -> existsb is_control (code_points s) = false.
Proof.
  induction s as [|u|u t s IH1 IH2] using jstr_ind2; [done| |].
  - cbn [code_points existsb]. rewrite orb_false_r. intros Hu. destruct (is_lead u); [done|].
    destruct (is_trail u || _); [done|]. cbn [existsb]. by rewrite Hu.
  - cbn [existsb]. rewrite !orb_false_iff. intros (Hu & Ht & Hs).
    assert (existsb is_control (code_points (t :: s)) = false) as Hts by (apply IH1; cbn [existsb]; by rewrite Ht, Hs).
    remember (t :: s) as r eqn:Er. cbn [code_points]. rewrite Er at 1. destruct (is_lead u).
    + destruct (is_trail t); cbn [existsb]; rewrite is_control_big by lia; auto.
    + destruct (_ || _); cbn [existsb]; [by rewrite is_control_big by lia|by rewrite Hu].
Qed.

Lemma wf16_utf16 cps : Forall scalar cps -> wf16 (flat_map utf16_cp cps) = true.
Proof.
  induction 1 as [|c cps Hc _ IH]; [done|]. cbn [flat_map]. apply wf16_app; [|done].
  unfold scalar in Hc. unfold utf16_cp. destruct (N.ltb_spec c 0x10000); cbn [wf16].
  - rewrite andb_true_r. destruct (is_lead c) eqn:El; [unfold is_lead in El; bool_hyps; lia|].
    destruct (is_trail c) eqn:Et; [unfold is_trail in Et; bool_hyps; lia|done].
  - pose proof (N.mod_lt (c - 0x10000) 0x400 ltac:(lia)).
    assert (((c - 0x10000) / 0x400) < 0x400)%N by (apply N.Div0.div_lt_upper_bound; lia).
    set (x := ((c - 0x10000) / 0x400)%N) in *. set (y := ((c - 0x10000) mod 0x400)%N) in *. clearbody x y.
    assert (is_lead (0xD800 + x) = true) as -> by (apply andb_true_iff; split; apply N.leb_le; lia).
    rewrite andb_true_r. apply andb_true_iff; split; apply N.leb_le; lia.
Qed.

Lemma boundUtf8_head value maxBytes : 0 <= maxBytes -> boundUtf8 value maxBytes = retainedUtf8Head value maxBytes.
Proof.
  intros Hm. unfold boundUtf8, retainedUtf8Head. destruct (Z.leb_spec (len (utf8_encode value)) maxBytes); [done|].
  by replace (Z.min (len (utf8_encode value)) (Z.max 0 maxBytes)) with maxBytes by lia.
Qed.

(** Truncating a long text that starts with an ASCII character leaves something. *)
Lemma retainedUtf8Head_starts c r : (c < 0x7F)%N -> 256 < utf8Bytes (c :: r) -> 0 < len (retainedUtf8Head (c :: r) 256).
Proof.
  intros Hc Hgt. unfold retainedUtf8Head. unfold utf8Bytes in Hgt.
  rewrite (proj2 (Z.leb_gt _ _) Hgt). rewrite Z.min_r by lia.
  assert (utf8_encode (c :: r) = c :: utf8_encode r) as He.
  { unfold utf8_encode. cbn [code_points]. assert (is_lead c = false) as -> by (apply andb_false_iff; left; apply N.leb_gt; lia).
    assert (is_trail c || (0x10000 <=? c)%N = false) as -> by (apply orb_false_iff; split; [apply andb_false_iff; left|]; apply N.leb_gt; lia).
    simpl. unfold utf8_cp. by rewrite (proj2 (N.ltb_lt _ _)) by lia. }
  rewrite He in *. rewrite len_cons in Hgt. set (n := back_off _ _).
  assert (1 <= n)%nat as Hn.
  { destruct (utf8_encode r) as [|b bs] eqn:Er; [rewrite len_nil in Hgt; lia|].
    apply (back_off_ge _ _ 1 b); [lia|done|]. unfold utf8_encode in Er.
    pose proof (code_points_scalar r) as Hs. destruct (code_points r) as [|d cps]; [done|]. apply Forall_cons in Hs as [Hd _].
    destruct (utf8_cp_shape d Hd) as (b' & bs' & E & Hcont & _). simpl in Er. rewrite E in Er. injection Er as <- _. done. }
  destruct n as [|n]; [lia|]. cbn [take]. unfold utf8_decode. cbn [dec_run dec_step]. unfold dec_start.
  rewrite (proj2 (N.leb_le c 0x7F)) by lia. cbn [app strip_bom].
  destruct (N.eqb_spec c 0xFEFF); [lia|]. cbn [flat_map]. unfold utf16_cp at 1.
  rewrite (proj2 (N.ltb_lt c 0x10000)) by lia. cbn [app]. rewrite len_cons.
  match goal with |- context [len ?l] => pose proof (len_nonneg l) end. lia.
Qed.

(** A truncated identifier that starts with a printable character is a valid identifier. *)
Lemma boundUtf8_id c r : (0x20 <= c < 0x7F)%N -> id_text (c :: r) ->
  wire_id (JStr (boundUtf8 (c :: r) 256)) = Ok (boundUtf8 (c :: r) 256).
Proof.
  intros Hc [Hw Hctl]. pose proof (retainedUtf8Head_bytes (c :: r) 256) as Hb. rewrite boundUtf8_head by lia.
  destruct (Z.le_gt_cases (utf8Bytes (c :: r)) 256) as [Hle|Hgt].
  { assert (retainedUtf8Head (c :: r) 256 = c :: r) as ->.
    { unfold retainedUtf8Head. unfold utf8Bytes in Hle. by rewrite (proj2 (Z.leb_le _ _) Hle). }
    apply wire_id_of; [done|rewrite len_cons; pose proof (len_nonneg r); lia|exact Hle]. }
  destruct (head_characters _ _ Hgt) as (p & Hp & Hl & Heq). pose proof (scalar_prefix _ _ Hp) as Hs.
  pose proof (retainedUtf8Head_starts c r ltac:(lia) Hgt) as Hne.
  rewrite Heq in Hb, Hne |- *. unfold utf8_decode in *. rewrite dec_cps in * by done.
  pose proof (strip_bom_suffix p) as Hsb. pose proof (Forall_suffix _ _ _ Hsb Hs) as Hs'.
  apply wire_id_of; [split; [by apply wf16_utf16|rewrite control_utf16 by done]|exact Hne|exact Hb].
  apply control_code_points in Hctl. destruct Hp as [q Hq], Hsb as [o Ho]. rewrite Hq, Ho, !existsb_app in Hctl.
  by apply orb_false_iff in Hctl as [[_ ?]%orb_false_iff _].
Qed.

(** ** Unused identifiers *)

(** The documented shape of a SHA-256 digest in hexadecimal. *)
Definition hex_digest (h : jstr -> jstr) : Prop :=
  forall t, len (h t) = 64 /\ Forall (fun u => 0x30 <= u <= 0x39 \/ 0x61 <= u <= 0x66)%N (h t).

Lemma hex_prefix h t n : hex_digest h -> printable (take n (h t)) /\ len (take n (h t)) <= Z.of_nat n.
Proof.
  intros Hh. destruct (Hh t) as [_ Hf]. split; [|unfold len; rewrite length_take; lia].
  apply Forall_take. eapply Forall_impl; [exact Hf|]. simpl. lia.
Qed.

Definition candidate (suffix : jstr) (counter : Z) : jstr :=
  js "snapshot-" ++ suffix ++ js "-" ++ num_string (num_of_Z counter).

Lemma candidate_id suffix counter : printable suffix -> len suffix <= 16 -> 0 <= counter <= MAX_SAFE_INTEGER ->
  wire_id (JStr (candidate suffix counter)) = Ok (candidate suffix counter).
Proof.
  intros Hs Hl Hc. destruct (num_string_value counter Hc) as (_ & Hn & _).
  assert (printable (candidate suffix counter)) as Hp.
  { unfold candidate. repeat apply printable_app; [by_compute|done|by_compute|by apply num_string_printable]. }
  assert (9 <= len (candidate suffix counter) <= 43) as Hlen.
  { unfold candidate. autorewrite with omp_len. change (len (js "snapshot-")) with 9. change (len (js "-")) with 1.
    pose proof (len_nonneg suffix). pose proof (len_nonneg (num_string (num_of_Z counter))). lia. }
  apply wire_id_of; [by apply printable_id|lia|]. rewrite printable_bytes by done. unfold MAX_ID_BYTES. lia.
Qed.

Lemma candidate_inj suffix x y : 0 <= x <= MAX_SAFE_INTEGER -> 0 <= y <= MAX_SAFE_INTEGER ->
  candidate suffix x = candidate suffix y -> x = y.
Proof. intros Hx Hy E. unfold candidate in E. do 3 apply app_inv_head in E. by apply num_string_inj. Qed.

Lemma existsb_in (x : jstr) l : existsb (jstr_eqb x) l = true <-> x ∈ l.
Proof.
  rewrite existsb_exists. split.
  - intros (y & Hin & ->%jstr_eqb_eq). by apply list_elem_of_In.
  - intros H. exists x. split; [by apply list_elem_of_In|apply jstr_eqb_refl].
Qed.

(** The counter loop finds an unused candidate, or every candidate it tried is used. *)
Lemma fresh_candidate_spec fuel suffix counter used :
  printable suffix -> len suffix <= 16 -> 0 <= counter -> counter + Z.of_nat fuel <= MAX_SAFE_INTEGER ->
  (exists i, fresh_candidate fuel suffix counter used = Some (Ok i) /\ i ∉ used /\ wire_id (JStr i) = Ok i) \/
  (forall n, counter <= n < counter + Z.of_nat fuel -> candidate suffix n ∈ used).
Proof.
  intros Hs Hl. revert counter. induction fuel as [|f IH]; intros counter H0 Hm; [right; lia|].
  cbn [fresh_candidate]. fold (candidate suffix counter). rewrite candidate_id by (done || lia).
  destruct (existsb (jstr_eqb (candidate suffix counter)) used) eqn:E.
  - apply existsb_in in E. destruct (IH (counter + 1) ltac:(lia) ltac:(lia)) as [Hf|Hall]; [by left|right].
    intros n Hn. destruct (decide (n = counter)) as [->|]; [done|]. apply Hall. lia.
  - left. eexists. split_and!; [done| |apply candidate_id; done || lia]. rewrite <- existsb_in. by rewrite E.
Qed.

(** More candidates than used ids: one of them is unused. *)
Lemma fresh_candidate_total suffix used :
  printable suffix -> len suffix <= 16 -> 2 * len used + 1 <= MAX_SAFE_INTEGER ->
  exists i, fresh_candidate (length used + 1) suffix (len used) used = Some (Ok i) /\ i ∉ used /\ wire_id (JStr i) = Ok i.
Proof.
  intros Hs Hl Hm. pose proof (len_nonneg used) as H0.
  destruct (fresh_candidate_spec (length used + 1) suffix (len used) used Hs Hl H0) as [?|Hall]; [unfold len in *; lia|done|].
  exfalso. set (ids := map (fun i => candidate suffix (len used + Z.of_nat i)) (List.seq 0 (length used + 1))).
  assert (NoDup ids) as Hn.
  { apply NoDup_fmap_2_strong; [|apply NoDup_seq]. intros x y Hx%elem_of_seq Hy%elem_of_seq E.
    apply candidate_inj in E; unfold len in *; lia. }
  assert (ids ⊆ used) as Hsub.
  { intros x (i & -> & Hi%elem_of_seq)%list_elem_of_fmap. apply Hall. lia. }
  apply NoDup_submseteq in Hsub; [|done]. apply submseteq_length in Hsub. unfold ids in Hsub.
  rewrite length_map, length_seq in Hsub. lia.
Qed.

Lemma uniqueEntryId_ok h base c r used :
  hex_digest h -> base = c :: r -> (0x20 <= c < 0x7F)%N -> id_text base -> 2 * len used + 1 <= MAX_SAFE_INTEGER ->
  exists i, uniqueEntryId h base used = Some (Ok i) /\ i ∉ used /\ wire_id (JStr i) = Ok i.
Proof.
  intros Hh -> Hc Ht Hm. unfold uniqueEntryId. rewrite boundUtf8_id by done.
  destruct (existsb _ used) eqn:E.
  - destruct (hex_prefix h (c :: r) 16 Hh) as [Hp Hl]. by apply fresh_candidate_total.
  - eexists. split_and!; [done| |by apply boundUtf8_id]. rewrite <- existsb_in. by rewrite E.
Qed.

(** C36: The search of [uniqueEntryId] always ends with an identifier that is valid on the wire
    and not in use.  This holds for any base that starts with a printable ASCII character and is
    well-formed text without control characters, however long, and any set of used identifiers
    (up to half the safe integers): the loop tries more candidates than there are identifiers
    in use, and the counters print differently. *)
Theorem uniqueEntryId_fresh sha256_hex base c r used :
  hex_digest sha256_hex -> base = c :: r -> (0x20 <= c < 0x7F)%N -> id_text base ->
  2 * len used + 1 <= MAX_SAFE_INTEGER ->
  exists i, uniqueEntryId sha256_hex base used = Some (Ok i) /\ i ∉ used /\ wire_id (JStr i) = Ok i.
Proof. apply uniqueEntryId_ok. Qed.

(** A digest function of the right shape, for the witnesses. *)
Definition zero_digest (_ : jstr) : jstr := repeat 0x30%N 64.

Lemma zero_digest_hex : hex_digest zero_digest.
Proof. intros t. split; [done|]. by_compute. Qed.

Lemma uniqueEntryId_fresh_witness :
  exists i, uniqueEntryId zero_digest (js "snapshot-truncation-s")
    [js "snapshot-truncation-s"; js "snapshot-0000000000000000-2"] = Some (Ok i) /\
    i ∉ [js "snapshot-truncation-s"; js "snapshot-0000000000000000-2"] /\ wire_id (JStr i) = Ok i.
Proof.
  apply (uniqueEntryId_fresh zero_digest (js "snapshot-truncation-s") 115 (js "napshot-truncation-s")).
  - exact zero_digest_hex.
  - reflexivity.
  - lia.
  - split; reflexivity.
  - by_compute.
Defined.

(** ** Sizes *)

Lemma json_string_bound s : json_bytes (JStr s) <= 2 + 6 * len s.
Proof.
  change (json_bytes (JStr s)) with (utf8Bytes (quote s)). rewrite <- jsonStringBytes_quote. unfold jsonStringBytes.
  cut (jsonStringBytes_loop s <= 6 * len s); [lia|].
  induction s as [|u|u t s IH1 IH2] using jstr_ind2; [done|..].
  - change (len [u]) with 1. destruct (is_lead u) eqn:El; [by rewrite loop_lead by done|].
    rewrite loop_not_lead by done. destruct (is_trail u) eqn:Et; [done|]. rewrite quote_unit_bytes by done.
    change (jsonStringBytes_loop []) with 0. repeat case_match; lia.
  - rewrite !len_cons in *. destruct (is_lead u) eqn:El.
    + rewrite loop_lead by done. destruct (is_trail t); lia.
    + rewrite loop_not_lead by done. destruct (is_trail u) eqn:Et; [lia|]. rewrite quote_unit_bytes by done.
      repeat case_match; lia.
Qed.

Lemma len_le_bytes s : len s <= utf8Bytes s.
Proof.
  induction s as [|u|u t s IH1 IH2] using jstr_ind2; [done|..].
  - destruct (is_lead u) eqn:El.
    + unfold utf8Bytes, utf8_encode. simpl. rewrite El. done.
    + rewrite (utf8Bytes_cons_unit u []) by done. change (len [u]) with 1. change (utf8Bytes []) with 0.
      repeat case_match; lia.
  - rewrite !len_cons in *. destruct (is_lead u) eqn:El.
    + destruct (is_trail t) eqn:Et; [rewrite utf8Bytes_cons_pair by done; lia|].
      unfold utf8Bytes, utf8_encode in *. remember (t :: s) as r eqn:Er. cbn [code_points]. rewrite El. rewrite Er at 1.
      rewrite Et. cbn [flat_map]. rewrite len_app. change (len (utf8_cp 0xFFFD)) with 3. lia.
    + rewrite (utf8Bytes_cons_unit u (t :: s)) by done. repeat case_match; lia.
Qed.

Lemma wire_id_len i : wire_id (JStr i) = Ok i -> len i <= 256.
Proof.
  unfold wire_id, controlFree, wire_string. intros H. destruct (len i =? 0) eqn:E; [bool_hyps; lia|].
  destruct (utf8ByteLength i) as [n|] eqn:En; [|done]. simpl in H.
  destruct (Z.gtb_spec n MAX_ID_BYTES) as [|Hn]; [done|]. unfold MAX_ID_BYTES in Hn.
  apply utf8ByteLength_measured in En as [[_ ->]|(p & u & -> & _ & _ & ->)].
  - pose proof (len_le_bytes i). lia.
  - pose proof (len_le_bytes p). rewrite len_app. change (len [u]) with 1. lia.
Qed.

Definition notice_text (omitted : Z) : jstr :=
  js "Older transcript entries were omitted from this snapshot (" ++ num_string (num_of_Z omitted) ++ js " entries).".

(** The entry [omissionNotice] builds around an identifier. *)
Definition notice_entry (i host session timestamp : jstr) (omitted : Z) : DurableEntry :=
  mkEntry i None host session None (js "compaction") timestamp
    [(js "summary", JStr (notice_text omitted)); (js "omitted", JNum (num_of_Z omitted)); (js "snapshotOmission", JBool true)].

Lemma notice_text_len omitted : 0 <= omitted <= MAX_SAFE_INTEGER -> len (notice_text omitted) <= 100.
Proof.
  intros Ho. destruct (num_string_value omitted Ho) as (_ & Hl & _). unfold notice_text.
  rewrite !len_app. change (len (js "Older transcript entries were omitted from this snapshot (")) with 58.
  change (len (js " entries).")) with 10. lia.
Qed.

Lemma json_bytes_num z : 0 <= z <= MAX_SAFE_INTEGER -> json_bytes (JNum (num_of_Z z)) <= 17.
Proof.
  intros Hz. destruct (num_string_value z Hz) as (_ & Hl & Hd). unfold json_bytes. cbn [serialize].
  rewrite num_finite_of_Z. rewrite ascii_utf8Bytes; [done|]. eapply Forall_impl; [exact Hd|]. simpl. lia.
Qed.

Lemma notice_bytes i host session stamp omitted : 0 <= omitted <= MAX_SAFE_INTEGER ->
  entry_bytes (notice_entry i host session stamp omitted) <=
    1000 + 6 * (len i + len host + len session + len stamp).
Proof.
  intros Ho. pose proof (notice_text_len omitted Ho). pose proof (json_bytes_num omitted Ho).
  pose proof (json_string_bound i). pose proof (json_string_bound host). pose proof (json_string_bound session).
  pose proof (json_string_bound stamp). pose proof (json_string_bound (notice_text omitted)).
  unfold entry_bytes, entry_json, notice_entry. cbn [entry_id parentId entry_hostId entry_sessionId turnId kind timestamp data app].
  rewrite json_bytes_object. unfold prop_bytes, printed. cbn [List.filter snd jopt map fst]. rewrite !sumZ_cons.
  rewrite json_bytes_object. unfold prop_bytes, printed. cbn [List.filter snd map fst]. rewrite !sumZ_cons. rewrite !len_cons, !(@len_nil (jstr * jv)). cbn [sumZ].
  repeat match goal with |- context [utf8Bytes (quote (js ?k))] =>
    let v := eval vm_compute in (utf8Bytes (quote (js k))) in change (utf8Bytes (quote (js k))) with v end.
  change (json_bytes JNull) with 4. change (json_bytes (JBool true)) with 4.
  change (json_bytes (JStr (js "compaction"))) with 12. change (sumZ []) with 0. unfold seps. lia.
Qed.

Lemma payload_loop_spec first entries bytes nodes :
  payload_loop first entries bytes nodes =
  (bytes + sumZ (map entry_bytes entries) + (if first then seps (len entries) else len entries),
   nodes + sumZ (map entry_nodes entries)).
Proof.
  revert first bytes nodes. induction entries as [|e entries IH]; intros first bytes nodes; simpl.
  { destruct first; unfold seps, len; simpl; f_equal; lia. }
  rewrite IH. rewrite len_cons. pose proof (len_nonneg entries). destruct first; unfold seps; f_equal; lia.
Qed.

(** [payloadSize] is the printed size and the node count of the entry array. *)
Lemma payloadSize_exact entries : payloadSize entries = (entries_total entries, 1 + sumZ (map entry_nodes entries)).
Proof.
  unfold payloadSize. rewrite payload_loop_spec. unfold entries_total, items_total.
  rewrite map_map, len_map. f_equal.
Qed.

(** Within the byte and node budgets. *)
Definition payload_fits (entries : list DurableEntry) : Prop :=
  entries_total entries <= MAX_SNAPSHOT_BYTES /\ 1 + sumZ (map entry_nodes entries) <= MAX_SNAPSHOT_NODES.

Lemma jsonNodeCount_pos v : 1 <= jsonNodeCount v.
Proof.
  induction v as [| | | | |l IH|o IH] using jv_ind'; simpl; try lia.
  - assert (0 <= sumZ (map jsonNodeCount l)); [|lia]. apply sumZ_nonneg, Forall_map.
    eapply Forall_impl; [exact IH|]. simpl. lia.
  - assert (0 <= sumZ (map (fun kv => jsonNodeCount (snd kv)) o)); [|lia]. apply sumZ_nonneg, Forall_map.
    eapply Forall_impl; [exact IH|]. simpl. lia.
Qed.

(** An entry that cannot be shown even alone. *)
Definition oversized (e : DurableEntry) : Prop :=
  MAX_SNAPSHOT_BYTES < 2 + entry_bytes e \/ MAX_SNAPSHOT_NODES < 1 + entry_nodes e.

Lemma payload_fits_app l1 l2 : payload_fits (l1 ++ l2) -> payload_fits l1 /\ payload_fits l2.
Proof.
  intros [H1 H2]. rewrite map_app, sumZ_app in H2. destruct (entries_total_app l1 l2) as [? ?].
  assert (forall l, 0 <= sumZ (map entry_nodes l)) as Hn.
  { intros l. apply sumZ_nonneg, Forall_map, Forall_true. intros e. pose proof (jsonNodeCount_pos (entry_json e)).
    unfold entry_nodes. lia. }
  pose proof (Hn l1). pose proof (Hn l2). split; split; lia.
Qed.

Lemma oversized_alone e : oversized e -> ~ payload_fits [e].
Proof.
  intros Ho [H1 H2]. unfold entries_total, items_total, seps in H1. cbn [map] in H1, H2. rewrite sumZ_cons in H1, H2.
  fold (entry_bytes e) in H1. change (sumZ []) with 0 in *. change (len [entry_json e]) with 1 in H1. destruct Ho; lia.
Qed.

(** The selected entries are a contiguous run, newest first, after skipping oversized ones. *)
Lemma select_newest_spec candidates acc :
  payload_fits acc -> len acc <= MAX_SNAPSHOT_ENTRIES ->
  exists older run skipped,
    candidates = older ++ run ++ skipped /\
    select_newest (rev candidates) acc (entries_total acc) (1 + sumZ (map entry_nodes acc)) = run ++ acc /\
    payload_fits (run ++ acc) /\ len (run ++ acc) <= MAX_SNAPSHOT_ENTRIES /\
    Forall oversized skipped /\ (acc ≠ [] -> skipped = []) /\
    (forall o e, older = o ++ [e] -> run ++ acc ≠ [] /\
      (len (run ++ acc) = MAX_SNAPSHOT_ENTRIES \/ ~ payload_fits (e :: run ++ acc))).
Proof.
  revert acc. induction candidates as [|e candidates IH] using rev_ind; intros acc Hfit Hlen.
  { exists [], [], []. split_and!; try done. intros o e E. by destruct o. }
  rewrite rev_unit. cbn [select_newest]. destruct (Z.ltb_spec (len acc) MAX_SNAPSHOT_ENTRIES) as [Hlt|Hge].
  2: { exists (candidates ++ [e]), [], []. split_and!; rewrite ?app_nil_r; try done. intros o x _.
       simpl. split; [intros ->; rewrite len_nil in Hge; unfold MAX_SNAPSHOT_ENTRIES in Hge; lia|left; simpl; lia]. }
  assert (entries_total (e :: acc) = entries_total acc + ((if len acc =? 0 then 0 else 1) + entry_bytes e)) as Ht.
  { rewrite entries_total_cons, retainedJsonBytes_exact by done. done. }
  assert (sumZ (map entry_nodes (e :: acc)) = entry_nodes e + sumZ (map entry_nodes acc)) as Hns by done.
  destruct (_ || _) eqn:Eb.
  - assert (~ payload_fits (e :: acc)) as Hnot.
    { intros [H1 H2]. apply orb_true_iff in Eb as [Eb|Eb]; bool_hyps; lia. }
    destruct (len acc =? 0) eqn:E0; bool_hyps.
    + apply len_zero_nil in E0. subst acc. destruct (IH [] Hfit Hlen) as (older & run & skipped & -> & Hsel & H1 & H2 & H3 & _ & H5).
      exists older, run, (skipped ++ [e]). split_and!; try done; [by rewrite <- !app_assoc|].
      apply Forall_app. split; [done|]. constructor; [|done]. unfold oversized.
      change (entries_total []) with 2 in Eb. simpl in Eb. apply orb_true_iff in Eb as [Eb|Eb]; bool_hyps; lia.
    + exists (candidates ++ [e]), [], []. split_and!; rewrite ?app_nil_r; try done.
      intros o x [_ [= ->]]%app_inj_2; [|done]. simpl. split; [by intros ->|by right].
  - apply orb_false_iff in Eb as [Eb1 Eb2]. bool_hyps.
    assert (payload_fits (e :: acc)) as Hfit' by (split; lia).
    destruct (IH (e :: acc) Hfit' ltac:(rewrite len_cons; lia)) as (older & run & skipped & -> & Hsel & H1 & H2 & H3 & H4 & H5).
    specialize (H4 ltac:(done)). subst skipped. rewrite app_nil_r in *. exists older, (run ++ [e]), [].
    rewrite app_nil_r, <- !app_assoc. split_and!; try done. etrans; [|exact Hsel]. rewrite Ht, Hns. f_equal; lia.
Qed.

(** ** The notice and the shedding loops *)

Lemma shed_count_spec retained omitted retained' omitted' :
  shed_count retained omitted = (retained', omitted') ->
  retained' `suffix_of` retained /\ omitted' + len retained' = omitted + len retained /\ len retained' < MAX_SNAPSHOT_ENTRIES.
Proof.
  revert omitted. induction retained as [|e rest IH]; intros omitted; simpl.
  { intros [= <- <-]. by split_and!. }
  destruct (MAX_SNAPSHOT_ENTRIES <=? len (e :: rest)) eqn:E; bool_hyps.
  - intros (Hs & Ho & Hl)%IH. split_and!; [by apply suffix_cons_r|rewrite len_cons; lia|done].
  - intros [= <- <-]. by split_and!.
Qed.

Section Bounded.
Context (sha256_hex : jstr -> jstr) (Hhex : hex_digest sha256_hex).
Context (host session fallback : jstr).
Context (Hsession : id_text session) (Hhost : len host <= 256) (Hslen : len session <= 256) (Hfall : len fallback <= 65536).

Lemma omissionNotice_ok retained stamp omitted :
  len retained <= MAX_SNAPSHOT_ENTRIES ->
  exists i, omissionNotice sha256_hex retained host session stamp omitted =
      Some (Ok (notice_entry i host session stamp omitted)) /\
    i ∉ map entry_id retained /\ len i <= 256.
Proof.
  intros Hl. unfold omissionNotice.
  assert (len (remove_dups (map entry_id retained)) <= len retained) as Hr.
  { rewrite <- (len_map entry_id). unfold len. apply inj_le, submseteq_length, NoDup_submseteq; [apply NoDup_remove_dups|].
    intros x. by rewrite elem_of_remove_dups. }
  destruct (uniqueEntryId_ok sha256_hex (js "snapshot-truncation-" ++ session) 115 (js "napshot-truncation-" ++ session)
    (remove_dups (map entry_id retained)) Hhex) as (i & -> & Hi & Hw); [done|lia| | |].
  - apply id_text_app; [|done]. split; by vm_compute.
  - unfold MAX_SNAPSHOT_ENTRIES, MAX_SAFE_INTEGER in *. lia.
  - exists i. split_and!; [done| |by apply wire_id_len]. by rewrite elem_of_remove_dups in Hi.
Qed.

(** The notice fits when nothing else is left. *)
Lemma lone_notice_fits i omitted : len i <= 256 -> 0 <= omitted <= MAX_SAFE_INTEGER ->
  payload_fits [notice_entry i host session fallback omitted].
Proof.
  intros Hi Ho. pose proof (notice_bytes i host session fallback omitted Ho).
  set (n := notice_entry _ _ _ _ _) in *. assert (entry_nodes n = 11) as Hn by done. split.
  - unfold entries_total, items_total. cbn [map]. rewrite sumZ_cons. fold (entry_bytes n).
    change (sumZ []) with 0. change (seps (len [entry_json n])) with 0. unfold MAX_SNAPSHOT_BYTES. lia.
  - cbn [map]. rewrite sumZ_cons, Hn. unfold MAX_SNAPSHOT_NODES. simpl. lia.
Qed.

Lemma shed_to_fit_spec retained omitted :
  len retained <= MAX_SNAPSHOT_ENTRIES -> 0 <= omitted -> omitted + len retained <= MAX_SAFE_INTEGER ->
  exists kept o i,
    shed_to_fit sha256_hex (length retained + 1) retained host session fallback omitted = Some (Ok (kept, o)) /\
    kept `suffix_of` retained /\ o + len kept = omitted + len retained /\
    omissionNotice sha256_hex kept host session (first_timestamp kept fallback) o =
      Some (Ok (notice_entry i host session (first_timestamp kept fallback) o)) /\
    i ∉ map entry_id kept /\ payload_fits (notice_entry i host session (first_timestamp kept fallback) o :: kept).
Proof.
  revert omitted. induction retained as [|e rest IH]; intros omitted Hl Ho Hs; cbn [length Nat.add shed_to_fit].
  all: match type of Hl with len ?l <= _ =>
      destruct (omissionNotice_ok l (first_timestamp l fallback) omitted Hl) as (i & Hn & Hi & Hil) end;
    rewrite Hn, payloadSize_exact.
  - cbn [first_timestamp] in *. destruct (lone_notice_fits i omitted Hil ltac:(len_lia)) as [H1 H2].
    rewrite (proj2 (Z.leb_le _ _) H1), (proj2 (Z.leb_le _ _) H2). exists [], omitted, i. by split_and!.
  - destruct (_ && _) eqn:E.
    + bool_hyps. exists (e :: rest), omitted, i. by split_and!.
    + cbn [tail]. rewrite len_cons in *. pose proof (len_nonneg rest).
      destruct (IH (omitted + 1)) as (kept & o & j & -> & Hsuf & Hc & Hnot); [lia|lia|lia|].
      exists kept, o, j. split_and!; [done|by apply suffix_cons_r|lia|apply Hnot..].
Qed.
End Bounded.

(** ** Rebinding parents *)

Lemma rebind_ids l : map entry_id (rebind_parents l) = map entry_id l.
Proof.
  unfold rebind_parents. rewrite map_map. apply map_ext. intros e. destruct (parentId e) as [p|]; [|done].
  by destruct (_ && _).
Qed.

Lemma rebind_len l : len (rebind_parents l) = len l.
Proof. apply len_map. Qed.

Lemma rebind_first_timestamp l fb : first_timestamp (rebind_parents l) fb = first_timestamp l fb.
Proof.
  destruct l as [|e l]; [done|]. simpl. destruct (parentId e) as [p|]; [|done].
  by destruct (negb (len p =? 0) && _).
Qed.

Lemma set_parent_null_nodes e : entry_nodes (set_parent_null e) = entry_nodes e.
Proof. unfold entry_nodes, entry_json, set_parent_null. simpl. destruct (parentId e); done. Qed.

Lemma set_parent_null_bytes e p : parentId e = Some p ->
  entry_bytes (set_parent_null e) = entry_bytes e + 4 - json_bytes (JStr p).
Proof.
  intros Hp. unfold entry_bytes, entry_json, set_parent_null. cbn [entry_id parentId entry_hostId entry_sessionId turnId kind timestamp data].
  rewrite Hp, !json_bytes_object. unfold printed, jopt. cbn [app List.filter snd]. rewrite !len_cons.
  cbn [map]. rewrite !sumZ_cons. unfold prop_bytes. cbn [fst snd]. change (json_bytes JNull) with 4. lia.
Qed.

Lemma json_string_pos (p : jstr) : 0 < len p -> 3 <= json_bytes (JStr p).
Proof.
  intros Hp. change (json_bytes (JStr p)) with (utf8Bytes (quote p)). rewrite <- jsonStringBytes_quote.
  unfold jsonStringBytes. rewrite jsonStringBytes_loop_quote. pose proof (len_le_bytes (quote_body p)).
  assert (0 < len (quote_body p)); [|lia]. destruct p as [|u p]; [done|].
  assert (forall l, 0 < len (unicode_escape u ++ l)) by (intros; rewrite len_app; change (len (unicode_escape u)) with 6; pose proof (len_nonneg l); lia).
  assert (forall a b l, 0 < len (a :: b :: l :> jstr)) as Hc by (intros ? ? l; rewrite !len_cons; pose proof (len_nonneg l); lia).
  cbn [quote_body]. destruct (is_lead u).
  - destruct p as [|t p]; [done|]. destruct (is_trail t); auto.
  - destruct (is_trail u); [auto|]. rewrite len_app. pose proof (len_nonneg (quote_body p)).
    assert (1 <= len (quote_unit u)); [|lia]. unfold quote_unit. repeat case_match; done.
Qed.

(** Each rebound entry grows by at most one byte, and not at all unless its parent id was a
    single character. *)
Lemma rebind_size (known : list jstr) l d :
  (forall e p, e ∈ l -> parentId e = Some p -> 0 < len p -> 4 - d <= json_bytes (JStr p)) -> 0 <= d ->
  let l' := map (fun e => match parentId e with
    | Some p => if negb (len p =? 0) && negb (existsb (jstr_eqb p) known) then set_parent_null e else e
    | None => e end) l in
  sumZ (map entry_bytes l') <= sumZ (map entry_bytes l) + d * len l /\
  sumZ (map entry_nodes l') = sumZ (map entry_nodes l).
Proof.
  intros Hp Hd l'. subst l'. induction l as [|e l IH]; [by rewrite Z.mul_0_r|]. cbn [map]. rewrite !sumZ_cons, len_cons.
  destruct IH as [IH1 ->]; [intros; eapply Hp; [by right|done|done]|].
  destruct (parentId e) as [p|] eqn:Ep; [|lia]. destruct (Z.eqb_spec (len p) 0); [simpl; lia|]. simpl.
  destruct (negb _); [|lia]. pose proof (len_nonneg p). specialize (Hp e p ltac:(by left) Ep ltac:(lia)).
  rewrite (set_parent_null_bytes e p Ep), set_parent_null_nodes. lia.
Qed.

Lemma rebind_no_dangling l e p :
  e ∈ rebind_parents l -> parentId e = Some p -> p = [] \/ p ∈ map entry_id l.
Proof.
  intros (x & -> & Hx)%list_elem_of_fmap. destruct (parentId x) as [q|] eqn:Eq; [|by rewrite Eq].
  destruct (_ && _) eqn:Eb; [done|]. rewrite Eq. intros [= <-]. apply andb_false_iff in Eb as [Eb|Eb]; bool_hyps.
  - left. by apply len_zero_nil.
  - right. by apply existsb_in.
Qed.

Lemma priorOmissionCount_nonneg e : 0 <= priorOmissionCount e.
Proof.
  unfold priorOmissionCount. repeat case_match; try lia.
Qed.

Lemma priorOmissionCount_notice i host session stamp omitted : 1 <= omitted <= MAX_SAFE_INTEGER ->
  priorOmissionCount (notice_entry i host session stamp omitted) = omitted.
Proof.
  intros Ho. unfold priorOmissionCount, notice_entry. cbn [data kind parentId].
  change (prop (js "omitted") _) with (JNum (num_of_Z omitted)). change (prop (js "summary") _) with (JStr (notice_text omitted)).
  unfold num_safe_integer. rewrite num_to_Z_of_Z. rewrite (proj2 (Z.leb_le _ _)) by lia.
  change (prop (js "snapshotOmission") _) with (JBool true). rewrite (proj2 (Z.ltb_ge omitted 1)) by lia.
  unfold notice_text, has_prefix. rewrite starts_with_app. done.
Qed.

Lemma prior_omitted_zero entries : prior_omitted entries = 0 -> candidates_of entries = entries.
Proof.
  unfold prior_omitted, candidates_of. induction entries as [|e entries IH]; [done|]. cbn [map List.filter]. rewrite sumZ_cons.
  pose proof (priorOmissionCount_nonneg e).
  assert (0 <= sumZ (map priorOmissionCount entries)) by (apply sumZ_nonneg, Forall_map, Forall_true; intros; apply priorOmissionCount_nonneg).
  intros. rewrite (proj2 (Z.eqb_eq _ _)) by lia. f_equal. apply IH. lia.
Qed.

(** ** The bounded snapshot *)

(** How [out] stands for the transcript [entries] when something was left out. *)
Record truncated_snapshot (entries out : list DurableEntry) : Prop := {
  ts_shape : exists notice kept older skipped,
    out = notice :: rebind_parents kept /\
    candidates_of entries = older ++ kept ++ skipped /\ Forall oversized skipped /\
    entry_id notice ∉ map entry_id kept /\
    priorOmissionCount notice + len kept = prior_omitted entries + len (candidates_of entries);
  ts_parents : forall e p, e ∈ out -> parentId e = Some p -> p = [] \/ p ∈ map entry_id out;
}.

Lemma select_all entries : payload_fits entries -> len entries <= MAX_SNAPSHOT_ENTRIES ->
  select_newest (rev entries) [] 2 1 = entries.
Proof.
  intros Hfit Hlen. destruct (select_newest_spec entries []) as (older & run & skipped & He & Hs & _ & _ & Hover & _ & Hmax);
    [by split|done|].
  change (select_newest (rev entries) [] 2 1 = run ++ []) in Hs. rewrite app_nil_r in *.
  destruct skipped as [|x skipped].
  2: { exfalso. apply Forall_cons in Hover as [Hx _]. apply (oversized_alone x Hx). rewrite He in Hfit.
       apply payload_fits_app in Hfit as [_ [_ Hfit]%payload_fits_app].
       change (x :: skipped) with ([x] ++ skipped) in Hfit. by apply payload_fits_app in Hfit as [? _]. }
  rewrite app_nil_r in He. destruct older as [|e older _] using rev_ind; [by rewrite Hs|].
  exfalso. destruct (Hmax older e eq_refl) as [_ [Hc|Hn]].
  - rewrite He, !len_app in Hlen. change (len [e]) with 1 in Hlen. pose proof (len_nonneg older). lia.
  - apply Hn. rewrite He, <- app_assoc in Hfit. by apply payload_fits_app in Hfit as [_ ?].
Qed.

(** A transcript within every limit, without an earlier notice, is its own snapshot. *)
Definition small_transcript (entries : list DurableEntry) : Prop :=
  prior_omitted entries = 0 /\ payload_fits entries /\ len entries <= MAX_SNAPSHOT_ENTRIES.

Lemma small_transcript_prefix l1 l2 : small_transcript (l1 ++ l2) -> small_transcript l1.
Proof.
  intros (Hp & Hf & Hl). split_and!.
  - unfold prior_omitted in *. rewrite map_app, sumZ_app in Hp.
    assert (forall l, 0 <= sumZ (map priorOmissionCount l)) as Hn by (intros; apply sumZ_nonneg, Forall_map, Forall_true; intros; apply priorOmissionCount_nonneg).
    pose proof (Hn l1). pose proof (Hn l2). lia.
  - by apply payload_fits_app in Hf as [? _].
  - rewrite len_app in Hl. pose proof (len_nonneg l2). lia.
Qed.

Lemma small_transcript_unchanged h entries host session fallback : small_transcript entries ->
  boundSnapshotEntries h entries host session fallback = Some (Ok entries).
Proof.
  intros (Hp & Hf & Hl). unfold boundSnapshotEntries. rewrite (prior_omitted_zero _ Hp), (select_all entries Hf Hl), Hp.
  by rewrite (proj2 (Z.eqb_eq _ _)) by lia.
Qed.

(** [d] bounds how much shorter than [null] a non-empty parent id can print. *)
Definition parents_print (d : Z) (entries : list DurableEntry) : Prop :=
  forall e p, e ∈ entries -> parentId e = Some p -> 0 < len p -> 4 - d <= json_bytes (JStr p).

Lemma rebound_size notice kept d : parents_print d kept -> 0 <= d -> payload_fits (notice :: kept) ->
  entries_total (notice :: rebind_parents kept) <= MAX_SNAPSHOT_BYTES + d * len kept /\
  1 + sumZ (map entry_nodes (notice :: rebind_parents kept)) <= MAX_SNAPSHOT_NODES.
Proof.
  intros Hp Hd [H1 H2]. destruct (rebind_size (map entry_id kept) kept d Hp Hd) as [Hb Hn]. cbv zeta in Hb, Hn.
  fold (rebind_parents kept) in Hb, Hn. unfold entries_total, items_total in *. cbn [map] in *.
  rewrite !sumZ_cons, !len_cons, !len_map, ?rebind_len in *. rewrite map_map in H1 |- *.
  change (map (fun x => json_bytes (entry_json x))) with (map entry_bytes) in *. rewrite Hn. split; lia.
Qed.

(** What [boundSnapshotEntries] returns: the whole transcript, or a notice and what is kept. *)
Lemma boundSnapshotEntries_cases h entries host session fallback :
  hex_digest h -> id_text session -> len host <= 256 -> len session <= 256 -> len fallback <= 65536 ->
  prior_omitted entries + len entries <= MAX_SAFE_INTEGER ->
  exists out, boundSnapshotEntries h entries host session fallback = Some (Ok out) /\ len out <= MAX_SNAPSHOT_ENTRIES /\
    ((out = entries /\ payload_fits out) \/
     exists notice kept, out = notice :: rebind_parents kept /\ payload_fits (notice :: kept) /\ kept ⊆ entries /\
       truncated_snapshot entries out).
Proof.
  intros Hh Hs Hhost Hsl Hf Hsafe. unfold boundSnapshotEntries.
  assert (len (candidates_of entries) <= len entries) as Hcl by apply len_filter_le.
  assert (0 <= prior_omitted entries) as Hpr
    by (apply sumZ_nonneg, Forall_map, Forall_true; intros; apply priorOmissionCount_nonneg).
  destruct (select_newest_spec (candidates_of entries) []) as (older & run & skipped & Hc & Hsel & Hfit & Hlen & Hover & _ & _);
    [by split|done|].
  change (select_newest (rev (candidates_of entries)) [] 2 1 = run ++ []) in Hsel. rewrite app_nil_r in *. rewrite Hsel.
  pose proof (f_equal len Hc) as Hlc. rewrite !len_app in Hlc.
  pose proof (len_nonneg older). pose proof (len_nonneg skipped). pose proof (len_nonneg run).
  destruct (Z.eqb_spec (prior_omitted entries + len (candidates_of entries) - len run) 0) as [Hz|Hnz].
  { rewrite (prior_omitted_zero entries) in * by lia.
    assert (older = [] /\ skipped = []) as [-> ->] by (split; apply len_zero_nil; lia).
    simpl in Hc. rewrite app_nil_r in Hc. subst run. exists entries. eauto. }
  destruct (shed_count run _) as [run' o'] eqn:Esh. apply shed_count_spec in Esh as (Hsuf & Hcount & Hlt).
  pose proof (len_suffix _ _ Hsuf). pose proof (len_nonneg run').
  destruct (shed_to_fit_spec h Hh host session fallback Hs Hhost Hsl Hf run' o') as (kept & o & i & -> & Hk & Hok & Hn & Hi & Hfits); [lia..|].
  pose proof (len_suffix _ _ Hk). pose proof (len_nonneg kept).
  assert (1 <= o <= MAX_SAFE_INTEGER) as Ho by lia.
  unfold omissionNotice in Hn |- *. rewrite rebind_ids, rebind_first_timestamp, Hn.
  exists (notice_entry i host session (first_timestamp kept fallback) o :: rebind_parents kept). split_and!; [done| |].
  { rewrite len_cons, rebind_len. lia. }
  right. eexists _, kept.
  assert (exists o', candidates_of entries = o' ++ kept ++ skipped) as [o1 Hc'].
  { rewrite Hc. destruct Hsuf as [a ->], Hk as [b ->]. exists (older ++ a ++ b). by rewrite <- !app_assoc. }
  split_and!; [done|done| |constructor].
  - intros e He. assert (e ∈ candidates_of entries) as Hin by (rewrite Hc', !elem_of_app; auto). by apply elem_of_filter_list in Hin as [? _].
  - eexists _, kept, o1, skipped. split_and!; try done. rewrite priorOmissionCount_notice by done. lia.
  - intros e p [->|He]%elem_of_cons; [done|]. intros Hp. destruct (rebind_no_dangling _ _ _ He Hp) as [?|Hin]; [by left|right].
    cbn [map]. rewrite rebind_ids. by right.
Qed.


(** A transcript that begins with an earlier omission notice. *)
Definition noticed_transcript : list DurableEntry :=
  [notice_entry (js "n") (js "h") (js "s") (js "t") 3; sample_entry (js "a"); sample_entry (js "b")].

