(* ===== verification/HostProjection.v ===== *)
(** * HostProjection: the host's projection of one session
    ([packages/host-service/src/projection.ts], [attach-output.ts])

    The class is a record of its fields, its methods are functions that return the new record.
    The session ref is the JSON object the host sends, with its properties in order, because the
    code decides whether something changed by comparing printed objects.  [node:crypto]'s SHA-256
    and the engine's collation are parameters; the running hash object is the text fed to it so
    far.  A method that calls [snapshot] can throw, and could fail to end: its result is an
    [option (wire _)] beside the record. *)
From stdpp Require Import base tactics option list numbers strings sets.
From S2P Require Import Prelude JsMap JsString JsValue Wire WireGuards WireFrames SnapshotLimits.

Definition MAX_REPLAY_BYTES : Z := 512 * 1024.
Definition MAX_REBASE_FRAMES : Z := 128.
Definition ATTENTION_MAX_PENDING_ITEMS : Z := 8.

Abbreviation json_object := (list (jstr * jv)).

(** ** Frames *)

(** The frames a projection emits. *)
Inductive HostFrame :=
| HDelta (cursor : Cursor) (rev host session : jstr) (change : json_object + jstr)
| HEntry (f : DurableEntryFrame)
| HEvent (f : LiveEventFrame)
| HGap (f : GapFrame)
| HSnapshot (f : SessionSnapshotFrame).

(** The object each frame literal builds. *)
Definition host_frame_json (f : HostFrame) : jv :=
  let v := (js "v", JStr (js "omp-app/1")) in
  let type t := (js "type", JStr t) in
  match f with
  | HDelta c r h s change =>
      JObj [v; type (js "session.delta"); (js "cursor", cursor_json c); (js "revision", JStr r); (js "hostId", JStr h);
            (js "sessionId", JStr s);
            match change with inl ref => (js "upsert", JObj ref) | inr id => (js "remove", JStr id) end]
  | HEntry f =>
      JObj [v; type (js "entry"); (js "cursor", cursor_json (ef_cursor f)); (js "revision", JStr (ef_revision f));
            (js "hostId", JStr (ef_hostId f)); (js "sessionId", JStr (ef_sessionId f)); (js "entry", entry_json (ef_entry f))]
  | HEvent f =>
      JObj [v; type (js "event"); (js "cursor", cursor_json (ev_cursor f)); (js "hostId", JStr (ev_hostId f));
            (js "sessionId", JStr (ev_sessionId f)); (js "event", JObj (event f))]
  | HGap f =>
      JObj [v; type (js "gap"); (js "hostId", JStr (gap_hostId f)); (js "sessionId", JStr (gap_sessionId f));
            (js "from", cursor_json (gap_from f)); (js "to", cursor_json (gap_to f)); (js "reason", JStr (gap_reason f))]
  | HSnapshot f =>
      JObj [v; type (js "snapshot"); (js "cursor", cursor_json (sn_cursor f)); (js "revision", JStr (sn_revision f));
            (js "hostId", JStr (sn_hostId f)); (js "sessionId", JStr (sn_sessionId f));
            (js "entries", JArr (map entry_json (sn_entries f)))]
  end.

Definition frame_bytes (f : HostFrame) : Z := json_bytes (host_frame_json f).
Definition replayBytes (frames : list HostFrame) : Z := sumZ (map frame_bytes frames).

(** [frameCursor] *)
Definition frameCursor (f : HostFrame) : Cursor :=
  match f with
  | HDelta c _ _ _ _ => c
  | HEntry f => ef_cursor f
  | HEvent f => ev_cursor f
  | HGap f => gap_to f
  | HSnapshot f => sn_cursor f
  end.

(** ** State *)

Record Projection := mkHost {
  h_hostId : jstr;
  h_sessionId : jstr;
  h_revision : jstr;
  h_cursor : Cursor;
  h_indexCursor : Cursor;
  h_entries : list DurableEntry;
  h_ref : json_object;
  h_ring : list HostFrame;
  h_byId : jsmap jstr DurableEntry;
  h_ringSize : Z;
  h_hashed : jstr;  (* the text [#revisionHash] has absorbed *)
  h_pendingAttention : jsmap jstr json_object;
}.

Definition set_ring (h : Projection) (cursor : Cursor) (ring : list HostFrame) : Projection :=
  mkHost (h_hostId h) (h_sessionId h) (h_revision h) cursor (h_indexCursor h) (h_entries h) (h_ref h) ring
    (h_byId h) (h_ringSize h) (h_hashed h) (h_pendingAttention h).
Definition set_host_ref (h : Projection) (rev : jstr) (hashed : jstr) (ref : json_object) (index : Cursor) : Projection :=
  mkHost (h_hostId h) (h_sessionId h) rev (h_cursor h) index (h_entries h) ref (h_ring h)
    (h_byId h) (h_ringSize h) hashed (h_pendingAttention h).
Definition set_entries (h : Projection) (rev : jstr) (hashed : jstr) (ref : json_object) (entries : list DurableEntry)
    (byId : jsmap jstr DurableEntry) : Projection :=
  mkHost (h_hostId h) (h_sessionId h) rev (h_cursor h) (h_indexCursor h) entries ref (h_ring h)
    byId (h_ringSize h) hashed (h_pendingAttention h).
Definition set_attention (h : Projection) (pending : jsmap jstr json_object) : Projection :=
  mkHost (h_hostId h) (h_sessionId h) (h_revision h) (h_cursor h) (h_indexCursor h) (h_entries h) (h_ref h) (h_ring h)
    (h_byId h) (h_ringSize h) (h_hashed h) pending.

(** [types.ts]: the discovered session a projection starts from. *)
Record SessionRecord := mkRecord {
  rec_sessionId : jstr;
  rec_projectId : jstr;
  rec_projectName : option jstr;
  rec_title : jstr;
  rec_updatedAt : jstr;
  rec_status : jstr;
  rec_archivedAt : option jstr;
  rec_model : option jstr;
  rec_thinking : option jstr;
  rec_mode : option jstr;
  rec_runtime : option json_object;
  rec_entries : list DurableEntry;
}.

(** ** Objects *)

(** [o.k = v], [delete o.k] and [{...o.k}] on objects with ordinary keys. *)
Definition oset (k : jstr) (v : jv) (o : json_object) : json_object := obj_define k v o.
Definition odel (k : jstr) (o : json_object) : json_object := map_delete k o.
Definition osub (k : jstr) (o : json_object) : json_object := match prop k o with JObj p => p | _ => [] end.
Definition same_json (a b : json_object) : bool := jstr_eqb (serialize (JObj a)) (serialize (JObj b)).

Definition truthy (v : jv) : bool :=
  match v with
  | JUndef | JNull | JBool false => false
  | JStr s => negb (len s =? 0)
  | JNum (Finite _ d _) => negb (d =? 0)%N
  | JNum NaN => false
  | _ => true
  end.
Definition is_true (v : jv) : bool := match v with JBool true => true | _ => false end.
Definition is_undef (v : jv) : bool := match v with JUndef => true | _ => false end.

(** [...(value ? { k: value } : {})] for an optional string. *)
Definition spread_text (k : jstr) (value : option jstr) : json_object :=
  match value with Some s => if len s =? 0 then [] else [(k, JStr s)] | None => [] end.
Definition ref_text (k : jstr) (o : json_object) : jstr := match prop k o with JStr s => s | _ => [] end.

Fixpoint copy_defined (keys : list jstr) (from into : json_object) : json_object :=
  match keys with
  | [] => into
  | k :: rest => copy_defined rest from (if is_undef (prop k from) then into else oset k (prop k from) into)
  end.
Definition delete_all (keys : list jstr) (o : json_object) : json_object := fold_left (fun o k => odel k o) keys o.

Definition is_space (u : N) : bool :=
  existsb (N.eqb u) [0x09; 0x0A; 0x0B; 0x0C; 0x0D; 0x20; 0xA0; 0x1680; 0x2000; 0x2001; 0x2002; 0x2003; 0x2004; 0x2005;
    0x2006; 0x2007; 0x2008; 0x2009; 0x200A; 0x2028; 0x2029; 0x202F; 0x205F; 0x3000; 0xFEFF]%N.
Definition placeholderTitle (title : jstr) : bool :=
  jstr_eqb title (js "Session") || jstr_eqb title (js "Untitled") || forallb is_space title.

Definition settledRuntimeRef (current : json_object) (status : jstr) : json_object :=
  let next := odel (js "pendingUserInput") (odel (js "pendingApproval") (oset (js "status") (JStr status) current)) in
  let next :=
    match prop (js "attention") current with
    | JObj a =>
        let attention := oset (js "truncated") (JBool false)
          (oset (js "pendingCount") (JNum (num_of_Z 0)) (oset (js "pending") (JArr []) a)) in
        if truthy (prop (js "latestOutcome") attention) then oset (js "attention") (JObj attention) next
        else odel (js "attention") next
    | _ => next
    end in
  match prop (js "liveState") current with
  | JObj l =>
      let liveState := oset (js "queuedMessageCount") (JNum (num_of_Z 0))
        (oset (js "isCompacting") (JBool false) (oset (js "isStreaming") (JBool false) l)) in
      oset (js "liveState") (JObj (delete_all [js "pendingPrompt"; js "pendingPrompts"; js "queuedMessages"; js "pendingApproval";
        js "pendingUserInput"; js "runtimeCrashed"] liveState)) next
  | _ => next
  end.

Section Host.
Context (sha256_hex : jstr -> jstr).
Context (localeCompare : jstr -> jstr -> comparison).

(** [revision(`r-${hash.copy().digest("hex").slice(0, 24)}`)]; the identifier check never throws
    on a hexadecimal digest ([revision_valid]). *)
Definition revision_of (hashed : jstr) : jstr := js "r-" ++ take 24 (sha256_hex hashed).

Definition entry_line (e : DurableEntry) : jstr := serialize (entry_json e) ++ [0x0A]%N.

(** [nextCursor], [nextIndexCursor] *)
Definition next_cursor (c : Cursor) : Cursor := mkCursor (epoch c) (seq c + 1).

Definition appendFrame (h : Projection) (frame : HostFrame) : Projection :=
  let ring := h_ring h ++ [frame] in
  set_ring h (h_cursor h) (if h_ringSize h <? len ring then tail ring else ring).

(** [updateRef] *)
Definition updateRef (h : Projection) (next : json_object) (marker : jstr) : Projection * HostFrame :=
  let hashed := h_hashed h ++ marker ++ js ":" ++ serialize (JObj next) ++ [0x0A]%N in
  let rev := revision_of hashed in
  let next := oset (js "revision") (JStr rev) next in
  let index := next_cursor (h_indexCursor h) in
  (set_host_ref h rev hashed next index, HDelta index rev (h_hostId h) (h_sessionId h) (inl next)).

(** [if (JSON.stringify(next) === JSON.stringify(current)) return undefined; return this.updateRef(...)] *)
Definition update_if_changed (h : Projection) (next : json_object) (marker : jstr) : Projection * option HostFrame :=
  if same_json next (h_ref h) then (h, None)
  else let (h', f) := updateRef h next marker in (h', Some f).
Definition update_always (h : Projection) (next : json_object) (marker : jstr) : Projection * option HostFrame :=
  let (h', f) := updateRef h next marker in (h', Some f).

Definition rebound (host session : jstr) (e : DurableEntry) : DurableEntry :=
  mkEntry (entry_id e) (parentId e) host session (turnId e) (kind e) (timestamp e) (data e).

(** The constructor. *)
Definition new_projection (host : jstr) (record : SessionRecord) (ep : jstr) (ringSize : Z) : Projection :=
  let byId := fold_left (fun m e => map_set (entry_id e) e m) (map (rebound host (rec_sessionId record)) (rec_entries record)) [] in
  let entries := map_values byId in
  let hashed := flat_map entry_line entries in
  let rev := revision_of hashed in
  mkHost host (rec_sessionId record) rev (mkCursor ep 0) (mkCursor ep 0) entries
    ([(js "hostId", JStr host); (js "sessionId", JStr (rec_sessionId record));
      (js "project", JObj ((js "projectId", JStr (rec_projectId record)) :: spread_text (js "name") (rec_projectName record)));
      (js "revision", JStr rev); (js "title", JStr (rec_title record)); (js "status", JStr (rec_status record));
      (js "updatedAt", JStr (rec_updatedAt record))] ++
     spread_text (js "archivedAt") (rec_archivedAt record) ++ spread_text (js "model") (rec_model record) ++
     spread_text (js "thinking") (rec_thinking record) ++ spread_text (js "mode") (rec_mode record) ++
     match rec_runtime record with Some r => [(js "runtime", JObj r)] | None => [] end)
    [] byId ringSize hashed [].

Definition find_image (sha256 : jstr) (images : list TranscriptImageMetadata) : option TranscriptImageMetadata :=
  List.find (fun i => jstr_eqb (image_sha256 i) sha256) images.

Definition transcriptImage (h : Projection) (entryId sha256 : jstr) : option TranscriptImageMetadata :=
  match map_get entryId (h_byId h) with
  | None => None
  | Some e =>
      if is_undef (prop (js "images") (data e)) then None
      else match decodeTranscriptImageMetadataList (prop (js "images") (data e)) with
           | Ok images => find_image sha256 images
           | Fail _ => None
           end
  end.

Fixpoint first_artifact (artifactId : jstr) (entries : list DurableEntry) : option ArtifactDescriptor :=
  match entries with
  | [] => None
  | e :: rest =>
      let found :=
        if is_undef (prop (js "artifacts") (data e)) then None
        else match decodeArtifactDescriptorList (prop (js "artifacts") (data e)) with
             | Ok l => List.find (fun a => jstr_eqb (WireFrames.artifactId a) artifactId) l
             | Fail _ => None
             end in
      match found with Some a => Some a | None => first_artifact artifactId rest end
  end.
Definition artifact (h : Projection) (artifactId : jstr) : option ArtifactDescriptor :=
  first_artifact artifactId (map_values (h_byId h)).

(** ** Session ref *)

Definition updateStatus (h : Projection) (status : jstr) : Projection * option HostFrame :=
  let current := h_ref h in
  let closed := jstr_eqb status (js "closed") in
  let h := if closed then set_attention h [] else h in
  let next := if closed then settledRuntimeRef current status else oset (js "status") (JStr status) current in
  let live := osub (js "liveState") current in
  let next :=
    if jstr_eqb status (js "idle") && is_true (prop (js "isStreaming") live)
    then oset (js "liveState") (JObj (oset (js "isStreaming") (JBool false) live)) next
    else if jstr_eqb status (js "active") && is_true (prop (js "runtimeCrashed") live)
    then oset (js "liveState") (JObj (odel (js "runtimeCrashed") live)) next
    else next in
  update_if_changed h next (js "status:" ++ status).

Definition markRuntimeCrashed (h : Projection) (outcome : option json_object) : Projection * option HostFrame :=
  let current := h_ref h in
  let h := set_attention h [] in
  let next := settledRuntimeRef current (js "closed") in
  let next :=
    match outcome with
    | Some o => oset (js "attention") (JObj [(js "pending", JArr []); (js "pendingCount", JNum (num_of_Z 0));
                                             (js "truncated", JBool false); (js "latestOutcome", JObj o)]) next
    | None => next
    end in
  let next := oset (js "liveState") (JObj (oset (js "runtimeCrashed") (JBool true) (osub (js "liveState") next))) next in
  update_if_changed h next (js "runtime:crashed").

Definition markRuntimeRestartable (h : Projection) : Projection * option HostFrame :=
  if negb (is_true (prop (js "runtimeCrashed") (osub (js "liveState") (h_ref h)))) then (h, None)
  else update_if_changed h (oset (js "status") (JStr (js "idle")) (h_ref h)) (js "runtime:restartable").

Definition updateTitle (h : Projection) (title : jstr) : Projection * option HostFrame :=
  if (len title =? 0) || jstr_eqb (ref_text (js "title") (h_ref h)) title then (h, None)
  else update_always h (oset (js "title") (JStr title) (h_ref h)) (js "title:" ++ title).

Definition updateMode (h : Projection) (mode : jstr) : Projection * option HostFrame :=
  let current := h_ref h in
  if jstr_eqb mode (js "build") then
    if is_undef (prop (js "mode") current) then (h, None)
    else update_always h (odel (js "mode") current) (js "mode:" ++ mode)
  else if is_string (prop (js "mode") current) mode then (h, None)
  else update_always h (oset (js "mode") (JStr mode) current) (js "mode:" ++ mode).

(** [project.name], absent or a string. *)
Definition project_name (o : json_object) : option jstr := obj_string (osub (js "project") o) (js "name").
Definition project_of (projectId : jstr) (name : option jstr) : jv :=
  JObj ((js "projectId", JStr projectId) :: spread_text (js "name") name).
Definition nonempty (o : option jstr) : bool := match o with Some s => negb (len s =? 0) | None => false end.

(** [if (archivedAt) next.archivedAt = archivedAt; else delete next.archivedAt;] *)
Definition set_archived (archivedAt : option jstr) (next : json_object) : json_object :=
  if nonempty archivedAt then oset (js "archivedAt") (JStr (default [] archivedAt)) next else odel (js "archivedAt") next.

Definition reconcileRecord (h : Projection) (record : SessionRecord) : Projection * option HostFrame :=
  let current := h_ref h in
  let currentName := project_name current in
  let sameProject := is_string (prop (js "projectId") (osub (js "project") current)) (rec_projectId record) in
  let projectName :=
    if sameProject && negb (nonempty currentName) && nonempty (rec_projectName record) then rec_projectName record else currentName in
  let renamed := sameProject && negb (bool_decide (projectName = currentName)) in
  let project := if renamed then project_of (rec_projectId record) projectName else prop (js "project") current in
  let currentTitle := ref_text (js "title") current in
  let title := if placeholderTitle currentTitle && negb (placeholderTitle (rec_title record)) then rec_title record else currentTitle in
  if negb renamed && jstr_eqb title currentTitle &&
     bool_decide (rec_archivedAt record = obj_string current (js "archivedAt")) then (h, None)
  else
    let next := oset (js "title") (JStr title) (oset (js "project") project current) in
    update_always h (set_archived (rec_archivedAt record) next)
      (js "record:" ++ rec_updatedAt record ++ js ":" ++ default (js "restored") (rec_archivedAt record)).

Definition reconcileObserverRecord (h : Projection) (record : SessionRecord) : Projection * option HostFrame :=
  let current := h_ref h in
  let project :=
    if is_string (prop (js "projectId") (osub (js "project") current)) (rec_projectId record) &&
       negb (bool_decide (rec_projectName record = project_name current))
    then project_of (rec_projectId record) (rec_projectName record) else prop (js "project") current in
  let currentTitle := ref_text (js "title") current in
  let title :=
    if placeholderTitle (rec_title record) && negb (placeholderTitle currentTitle) then currentTitle
    else if len (rec_title record) =? 0 then currentTitle else rec_title record in
  let updatedAt := ref_text (js "updatedAt") current in
  let next := oset (js "updatedAt") (JStr (if jstr_lt updatedAt (rec_updatedAt record) then rec_updatedAt record else updatedAt))
    (oset (js "title") (JStr title) (oset (js "project") project current)) in
  let put k (v : option jstr) o := match v with Some s => oset k (JStr s) o | None => o end in
  let next := put (js "mode") (rec_mode record) (put (js "thinking") (rec_thinking record) (put (js "model") (rec_model record) next)) in
  update_if_changed h next (js "observer-record:" ++ rec_updatedAt record).

Definition updateArchivedAt (h : Projection) (archivedAt : option jstr) : Projection * option HostFrame :=
  if bool_decide (obj_string (h_ref h) (js "archivedAt") = archivedAt) then (h, None)
  else update_always h (set_archived archivedAt (h_ref h)) (js "archived:" ++ default (js "restored") archivedAt).

Definition indexUpsert (h : Projection) : Projection * HostFrame :=
  let index := next_cursor (h_indexCursor h) in
  (set_host_ref h (h_revision h) (h_hashed h) (h_ref h) index,
   HDelta index (h_revision h) (h_hostId h) (h_sessionId h) (inl (h_ref h))).

Definition remove (h : Projection) : Projection * HostFrame :=
  let hashed := h_hashed h ++ js "deleted" ++ [0x0A]%N in
  let rev := revision_of hashed in
  let index := next_cursor (h_indexCursor h) in
  (set_host_ref h rev hashed (h_ref h) index, HDelta index rev (h_hostId h) (h_sessionId h) (inr (h_sessionId h))).

(** [if (Object.keys(liveState).length > 0) next.liveState = liveState; else delete next.liveState;] *)
Definition set_live (live next : json_object) : json_object :=
  if len live =? 0 then odel (js "liveState") next else oset (js "liveState") (JObj live) next.

Definition setSessionControl (h : Projection) (control : option json_object) : Projection * option HostFrame :=
  let live := osub (js "liveState") (h_ref h) in
  let live := match control with Some c => oset (js "sessionControl") (JObj c) live | None => odel (js "sessionControl") live end in
  update_if_changed h (set_live live (h_ref h))
    (js "session-control:" ++ match control with Some c => ref_text (js "mode") c | None => js "clear" end).

(** ** Live state *)

Definition updateState (h : Projection) (state : json_object) (statusOverride : option jstr) (recoverClosedStatus : bool)
    (providerTransport : option json_object) : Projection * option HostFrame :=
  let next := h_ref h in
  let live := delete_all [js "modelId"; js "modelProvider"; js "modelDisplayName"; js "runtimeCrashed"; js "thinkingEffective";
    js "thinkingResolved"; js "thinkingLevels"; js "thinkingSupported"; js "thinkingOffFloored"; js "fast"; js "fastAvailable";
    js "fastActive"; js "providerTransport"] (osub (js "liveState") next) in
  let live := match providerTransport with Some t => oset (js "providerTransport") (JObj t) live | None => live end in
  let live := if truthy (prop (js "queuedMessages") state) then oset (js "queuedMessages") (prop (js "queuedMessages") state) live
              else odel (js "queuedMessages") live in
  let next := if is_undef (prop (js "sessionName") state) then next else oset (js "title") (prop (js "sessionName") state) next in
  let '(next, live) :=
    match prop (js "model") state with
    | JObj m =>
        let live := oset (js "modelProvider") (prop (js "provider") m) (oset (js "modelId") (prop (js "id") m) live) in
        (oset (js "model") (JStr (ref_text (js "provider") m ++ js "/" ++ ref_text (js "id") m)) next,
         if truthy (prop (js "displayName") m) then oset (js "modelDisplayName") (prop (js "displayName") m) live else live)
    | _ => (odel (js "model") next, live)
    end in
  let next := if is_undef (prop (js "thinking") state) then odel (js "thinking") next
              else oset (js "thinking") (prop (js "thinking") state) next in
  let live := copy_defined [js "thinkingEffective"; js "thinkingResolved"; js "thinkingLevels"; js "thinkingSupported";
    js "thinkingOffFloored"; js "fast"; js "fastAvailable"; js "fastActive"] state live in
  let next := if is_undef (prop (js "contextUsage") state) then odel (js "contextUsage") next
              else oset (js "contextUsage") (prop (js "contextUsage") state) next in
  let next :=
    if negb (is_string (prop (js "status") next) (js "closed")) || recoverClosedStatus
    then oset (js "status") (JStr (default (if truthy (prop (js "isStreaming") state) then js "active" else js "idle") statusOverride)) next
    else next in
  let live := fold_left (fun l k => oset k (prop k state) l)
    [js "isStreaming"; js "isCompacting"; js "isPaused"; js "messageCount"; js "queuedMessageCount"; js "steeringMode";
     js "followUpMode"; js "interruptMode"] live in
  update_if_changed h (oset (js "liveState") (JObj live) next) (js "state").

(** ** Pending prompts *)

Definition join_ids (l : list json_object) : jstr := join (js ",") (map (ref_text (js "entryId")) l).

Definition updatePendingPrompts (h : Projection) (pendingPrompts : list json_object) : Projection * option HostFrame :=
  let live := odel (js "pendingPrompt") (osub (js "liveState") (h_ref h)) in
  let live := if len pendingPrompts =? 0 then odel (js "pendingPrompts") live
              else oset (js "pendingPrompts") (JArr (map JObj pendingPrompts)) live in
  update_if_changed h (set_live live (h_ref h)) (js "pending-prompts:" ++ join_ids pendingPrompts).

Definition valid_prompt (v : jv) : option json_object :=
  match v with
  | JObj o =>
      match prop (js "entryId") o, prop (js "text") o, prop (js "attachmentCount") o, prop (js "at") o with
      | JStr _, JStr _, JNum _, JStr _ => Some o
      | _, _, _, _ => None
      end
  | _ => None
  end.
Definition pendingPrompts (h : Projection) : list json_object :=
  match prop (js "pendingPrompts") (osub (js "liveState") (h_ref h)) with JArr l => omap valid_prompt l | _ => [] end.

Definition addPendingPrompt (h : Projection) (pending : json_object) : Projection * option HostFrame :=
  let current := pendingPrompts h in
  if existsb (fun c => jstr_eqb (ref_text (js "entryId") c) (ref_text (js "entryId") pending)) current then (h, None)
  else updatePendingPrompts h (current ++ [pending]).

Definition clearPendingPrompt (h : Projection) (entryId : jstr) : Projection * option HostFrame :=
  let current := pendingPrompts h in
  let next := List.filter (fun p => negb (jstr_eqb (ref_text (js "entryId") p) entryId)) current in
  if len next =? len current then (h, None) else updatePendingPrompts h next.

(** ** Attention *)

Definition compare_requests (a b : json_object) : comparison :=
  match localeCompare (ref_text (js "requestedAt") a) (ref_text (js "requestedAt") b) with
  | Eq => localeCompare (ref_text (js "id") a) (ref_text (js "id") b)
  | c => c
  end.

(** [if (allPending.some(item => item.kind === kind)) next[flag] = true; else delete next[flag];] *)
Definition set_flag (flag kind : jstr) (all : list json_object) (next : json_object) : json_object :=
  if existsb (fun i => is_string (prop (js "kind") i) kind) all then oset flag (JBool true) next else odel flag next.

Definition current_outcome (h : Projection) : jv := prop (js "latestOutcome") (osub (js "attention") (h_ref h)).

(** [#updateAttentionRef] *)
Definition updateAttentionRef (h : Projection) (marker : jstr) (latestOutcome : jv) : Projection * option HostFrame :=
  let allPending := sort compare_requests (map_values (h_pendingAttention h)) in
  let pending := slice_first ATTENTION_MAX_PENDING_ITEMS allPending in
  let pendingCount := map_size (h_pendingAttention h) in
  let next :=
    if (0 <? pendingCount) || truthy latestOutcome then
      oset (js "attention") (JObj ([(js "pending", JArr (map JObj pending)); (js "pendingCount", JNum (num_of_Z pendingCount));
          (js "truncated", JBool (len pending <? pendingCount))] ++
          (if truthy latestOutcome then [(js "latestOutcome", latestOutcome)] else []))) (h_ref h)
    else odel (js "attention") (h_ref h) in
  let next := set_flag (js "pendingUserInput") (js "question") allPending
    (set_flag (js "pendingApproval") (js "approval") allPending next) in
  update_always h next marker.

Definition setPendingAttention (h : Projection) (item : json_object) : Projection * option HostFrame :=
  let id := ref_text (js "id") item in
  if match map_get id (h_pendingAttention h) with Some previous => same_json previous item | None => false end then (h, None)
  else
    let h := set_attention h (map_set id item (h_pendingAttention h)) in
    updateAttentionRef h (js "attention:pending:" ++ ref_text (js "kind") item ++ js ":" ++ id) (current_outcome h).

Definition removePendingAttention (h : Projection) (id : jstr) : Projection * option HostFrame :=
  if map_has id (h_pendingAttention h) then
    let h := set_attention h (map_delete id (h_pendingAttention h)) in
    updateAttentionRef h (js "attention:resolved:" ++ id) (current_outcome h)
  else (h, None).

Definition clearPendingAttention (h : Projection) : Projection * option HostFrame :=
  if map_size (h_pendingAttention h) =? 0 then (h, None)
  else let h := set_attention h [] in updateAttentionRef h (js "attention:pending:clear") (current_outcome h).

(** [JSON.stringify(this.value.ref.attention?.latestOutcome) === JSON.stringify(outcome)] *)
Definition unchanged_outcome (h : Projection) (outcome : json_object) : bool :=
  bool_decide (stringify (current_outcome h) = stringify (JObj outcome)).

Definition setLatestOutcome (h : Projection) (outcome : json_object) : Projection * option HostFrame :=
  if unchanged_outcome h outcome then (h, None)
  else updateAttentionRef h (js "attention:outcome:" ++ ref_text (js "id") outcome) (JObj outcome).

Definition settleAttentionOutcome (h : Projection) (outcome : json_object) : Projection * option HostFrame :=
  if (map_size (h_pendingAttention h) =? 0) && unchanged_outcome h outcome then (h, None)
  else updateAttentionRef (set_attention h []) (js "attention:settled:" ++ ref_text (js "id") outcome) (JObj outcome).

(** ** Transcript stream *)

Definition appendEvent (h : Projection) (ev : json_object) : Projection * HostFrame :=
  let cursor := next_cursor (h_cursor h) in
  let frame := HEvent (mkEvent cursor (h_hostId h) (h_sessionId h) ev) in
  (appendFrame (set_ring h cursor (h_ring h)) frame, frame).

Definition appendEntry (h : Projection) (entry : DurableEntry) : Projection * option HostFrame :=
  match map_get (entry_id entry) (h_byId h) with
  | Some previous =>
      if jstr_eqb (serialize (entry_json previous)) (serialize (entry_json entry)) then (h, None)
      else
        let (h', f) := appendEvent h [(js "type", JStr (js "entry_conflict")); (js "entryId", JStr (entry_id entry))] in
        (h', Some f)
  | None =>
      let hashed := h_hashed h ++ entry_line entry in
      let rev := revision_of hashed in
      let ref := oset (js "updatedAt") (JStr (timestamp entry)) (oset (js "revision") (JStr rev) (h_ref h)) in
      let h := set_entries h rev hashed ref (h_entries h ++ [entry]) (map_set (entry_id entry) entry (h_byId h)) in
      let cursor := next_cursor (h_cursor h) in
      let frame := HEntry (mkEntryFrame cursor rev (h_hostId h) (h_sessionId h) entry) in
      (appendFrame (set_ring h cursor (h_ring h)) frame, Some frame)
  end.

(** [snapshot] *)
Definition snapshot (h : Projection) : option (wire HostFrame) :=
  match boundSnapshotEntries sha256_hex (h_entries h) (h_hostId h) (h_sessionId h) (ref_text (js "updatedAt") (h_ref h)) with
  | Some (Ok entries) => Some (Ok (HSnapshot (mkSnapshot (h_cursor h) (h_revision h) (h_hostId h) (h_sessionId h) entries)))
  | Some (Fail c) => Some (Fail c)
  | None => None
  end.

(** A gap up to the current cursor, followed by the current snapshot. *)
Definition gap_and_snapshot (h : Projection) (from : Cursor) (reason : jstr) : option (wire (list HostFrame)) :=
  match snapshot h with
  | Some (Ok s) => Some (Ok [HGap (mkGap (h_hostId h) (h_sessionId h) from (h_cursor h) reason); s])
  | Some (Fail c) => Some (Fail c)
  | None => None
  end.

Definition replay (h : Projection) (cursor : Cursor) : option (wire (list HostFrame)) :=
  let resume := mkCursor (epoch cursor) (seq cursor + 1) in
  if negb (jstr_eqb (epoch cursor) (epoch (h_cursor h)))
  then gap_and_snapshot h (mkCursor (epoch (h_cursor h)) 0) (js "epoch_mismatch")
  else
    let oldestSeq := match h_ring h with oldest :: _ => seq (frameCursor oldest) | [] => seq (h_cursor h) + 1 end in
    if seq cursor <? oldestSeq - 1 then gap_and_snapshot h resume (js "ring_evicted")
    else
      let frames := List.filter (fun f => seq cursor <? seq (frameCursor f)) (h_ring h) in
      if replayBytes frames <=? MAX_REPLAY_BYTES then Some (Ok frames)
      else gap_and_snapshot h resume (js "replay_budget_exceeded").

(** The loop of a rebase that only appends: the frames sent so far and whether their budget is
    exhausted. *)
Fixpoint rebase_append (entries : list DurableEntry) (h : Projection) (frames : list HostFrame) (bytes : Z) (exceeded : bool)
    : Projection * list HostFrame * bool :=
  match entries with
  | [] => (h, frames, exceeded)
  | entry :: rest =>
      let (h, sent) := appendEntry h entry in
      match sent with
      | Some frame =>
          if exceeded then rebase_append rest h frames bytes exceeded
          else if (MAX_REBASE_FRAMES <=? len frames) || (MAX_REPLAY_BYTES <? bytes + frame_bytes frame)
          then rebase_append rest h frames bytes true
          else rebase_append rest h (frames ++ [frame]) (bytes + frame_bytes frame) exceeded
      | None => rebase_append rest h frames bytes exceeded
      end
  end.

(** [this.value.ring.length = 0; this.appendFrame(gap); this.appendFrame(snapshot); return [gap, snapshot]] *)
Definition restart_ring (h : Projection) (from : Cursor) (reason : jstr) : Projection * option (wire (list HostFrame)) :=
  match gap_and_snapshot h from reason with
  | Some (Ok frames) => (fold_left appendFrame frames (set_ring h (h_cursor h) []), Some (Ok frames))
  | r => (h, r)
  end.

(** [current.every((entry, index) => JSON.stringify(entry) === JSON.stringify(rebound[index]))] with
    the length test. *)
Fixpoint is_prefix (current entries : list DurableEntry) : bool :=
  match current, entries with
  | [], _ => true
  | a :: current', b :: entries' =>
      jstr_eqb (serialize (entry_json a)) (serialize (entry_json b)) && is_prefix current' entries'
  | _ :: _, [] => false
  end.

Definition rebaseEntries (h : Projection) (entries : list DurableEntry) : Projection * option (wire (list HostFrame)) :=
  let reboundEntries := map (rebound (h_hostId h) (h_sessionId h)) entries in
  let from := mkCursor (epoch (h_cursor h)) (seq (h_cursor h) + 1) in
  if is_prefix (h_entries h) reboundEntries then
    let '(h', frames, exceeded) := rebase_append (drop (length (h_entries h)) reboundEntries) h [] 0 false in
    if exceeded then restart_ring h' from (js "rebase_budget_exceeded") else (h', Some (Ok frames))
  else
    let byId := fold_left (fun m e => map_set (entry_id e) e m) reboundEntries [] in
    let hashed := flat_map entry_line reboundEntries in
    let rev := revision_of hashed in
    let ref := oset (js "revision") (JStr rev) (h_ref h) in
    let ref := match last_of reboundEntries with Some e => oset (js "updatedAt") (JStr (timestamp e)) ref | None => ref end in
    let h' := set_entries h rev hashed ref reboundEntries byId in
    restart_ring (set_ring h' (next_cursor (h_cursor h)) (h_ring h')) from (js "projection_rebase").

(** ** Attach ([attach-output.ts]) *)

Record PreparedAttachOutput := mkPrepared { initialFrames : list HostFrame; baseline : Cursor }.

Definition prepareAttachOutput (h : Projection) (cursor : option Cursor) : option (wire PreparedAttachOutput) :=
  match match cursor with
        | None => match snapshot h with Some (Ok s) => Some (Ok [s]) | Some (Fail c) => Some (Fail c) | None => None end
        | Some c => replay h c
        end with
  | Some (Ok frames) => Some (Ok (mkPrepared frames (h_cursor h)))
  | Some (Fail c) => Some (Fail c)
  | None => None
  end.

(** [completeAttachOutput], with the frames of the subagent projection as an argument. *)
Definition completeAttachOutput (prepared : PreparedAttachOutput) (h : Projection) (subagents : list HostFrame)
    : option (wire (list HostFrame)) :=
  match replay h (baseline prepared) with
  | Some (Ok frames) => Some (Ok (initialFrames prepared ++ frames ++ subagents))
  | Some (Fail c) => Some (Fail c)
  | None => None
  end.
End Host.
