(* ===== verification/JsObject.v ===== *)
(** * JsObject: properties of object values after assignments and deletions

    Lookups after [o.k = v] and [delete o.k], and how the printed size of an object changes. *)
From stdpp Require Import base tactics option list numbers strings sets.
From S2P Require Import Prelude JsMap JsString JsValue RetentionSpec HostProjection.

Lemma map_get_insert_index x i k v o : map_get k o = None ->
  map_get x (insert_index i k v o) = if decide (x = k) then Some v else map_get x o.
Proof.
  induction o as [|[k' v'] o IH]; simpl; [done|]. destruct (decide (k = k')) as [->|Hk]; [done|]. intros Hn.
  destruct (array_index k') as [j|]; [destruct (j <? i)%N|]; simpl; [rewrite (IH Hn)|done..].
  destruct (decide (x = k')) as [->|]; [by rewrite decide_False by congruence|done].
Qed.

Lemma map_get_define x k v o : map_get x (obj_define k v o) = if decide (x = k) then Some v else map_get x o.
Proof.
  unfold obj_define. destruct (map_has k o) eqn:E; [apply map_get_set|].
  assert (map_get k o = None) as Hn by (apply map_has_false in E; by apply map_get_none_keys).
  destruct (array_index k); [by apply map_get_insert_index|]. rewrite <- (map_set_notin k v o); [apply map_get_set|]. by apply map_get_none_keys.
Qed.

Lemma prop_set_eq k v o : prop k (oset k v o) = v.
Proof. unfold prop, oset. rewrite map_get_define. by rewrite decide_True. Qed.

Lemma prop_set_ne x k v o : x ≠ k -> prop x (oset k v o) = prop x o.
Proof. intros Hx. unfold prop, oset. rewrite map_get_define. by rewrite decide_False. Qed.

Lemma prop_del_eq k o : prop k (odel k o) = JUndef.
Proof. unfold prop, odel. by rewrite map_get_delete_eq. Qed.

Lemma prop_del_ne x k o : x ≠ k -> prop x (odel k o) = prop x o.
Proof. intros Hx. unfold prop, odel. by rewrite map_get_delete_ne. Qed.

(** ** Printed sizes *)

Lemma prop_bytes_pos kv : 0 < prop_bytes kv.
Proof. unfold prop_bytes. pose proof (utf8Bytes_nonneg (quote (fst kv))). pose proof (json_bytes_nonneg (snd kv)). lia. Qed.

Lemma map_set_bytes k v v0 o : map_get k o = Some v0 -> v0 ≠ JUndef -> v ≠ JUndef ->
  sumZ (map prop_bytes (printed (map_set k v o))) = sumZ (map prop_bytes (printed o)) - json_bytes v0 + json_bytes v /\
  len (printed (map_set k v o)) = len (printed o).
Proof.
  intros Hg Hv0 Hv. induction o as [|[k' w] o IH]; [done|]. cbn [map_get map_set] in *. destruct (decide (k = k')) as [->|Hk].
  - injection Hg as ->. unfold printed. cbn [List.filter snd]. destruct v0; try done; destruct v; try done; cbn [map]; rewrite !sumZ_cons, !len_cons;
      unfold prop_bytes; cbn [fst snd]; lia.
  - destruct (IH Hg) as [IH1 IH2]. unfold printed in *. cbn [List.filter snd].
    destruct w; cbn [map]; rewrite ?sumZ_cons, ?len_cons; lia.
Qed.

Lemma object_bytes_set k v v0 o : map_get k o = Some v0 -> v0 ≠ JUndef -> v ≠ JUndef ->
  json_bytes (JObj (oset k v o)) = json_bytes (JObj o) - json_bytes v0 + json_bytes v.
Proof.
  intros Hg Hv0 Hv. unfold oset, obj_define. assert (map_has k o = true) as -> by (unfold map_has; by rewrite Hg).
  rewrite !json_bytes_object. destruct (map_set_bytes k v v0 o Hg Hv0 Hv) as [-> ->]. lia.
Qed.

(** A printed object shrinks when some of its properties go. *)
Lemma filter_bytes (P : jstr * jv -> bool) o :
  let o' := List.filter P o in
  sumZ (map prop_bytes (printed o')) <= sumZ (map prop_bytes (printed o)) /\ len (printed o') <= len (printed o) /\
  ((exists kv, kv ∈ o /\ P kv = false /\ snd kv ≠ JUndef) -> sumZ (map prop_bytes (printed o')) < sumZ (map prop_bytes (printed o))).
Proof.
  induction o as [|kv o (IH1 & IH2 & IH3)]; [split_and!; try done; intros (x & Hx & _); by apply elem_of_nil in Hx|].
  unfold printed in *. cbn [List.filter]. pose proof (prop_bytes_pos kv) as Hpos.
  destruct (P kv) eqn:EP; cbn [List.filter]; destruct (snd kv) eqn:Ev; cbn [map]; rewrite ?sumZ_cons, ?len_cons;
    (split_and!; [lia|lia|]); intros (x & [->|Hx]%elem_of_cons & HP & Hu); try congruence; try lia;
    assert (sumZ (map prop_bytes (List.filter (fun kv => match snd kv with JUndef => false | _ => true end) (List.filter P o))) <
      sumZ (map prop_bytes (List.filter (fun kv => match snd kv with JUndef => false | _ => true end) o))) by (apply IH3; eauto); lia.
Qed.

Lemma object_bytes_del k o : json_bytes (JObj (odel k o)) <= json_bytes (JObj o) /\
  (prop k o ≠ JUndef -> json_bytes (JObj (odel k o)) < json_bytes (JObj o)).
Proof.
  rewrite !json_bytes_object. destruct (filter_bytes (fun kv => negb (bool_decide (k = fst kv))) o) as (H1 & H2 & H3).
  fold (map_delete k o) in H1, H2, H3. fold (odel k o) in H1, H2, H3. cbv zeta in *. unfold seps. pose proof (len_nonneg (printed (odel k o))).
  split; [lia|]. intros Hp. assert (sumZ (map prop_bytes (printed (odel k o))) < sumZ (map prop_bytes (printed o))); [|lia].
  apply H3. unfold prop in Hp. destruct (map_get k o) as [v|] eqn:E; [|done]. exists (k, v). split_and!; [by apply map_get_some_in| |done].
  simpl. by rewrite bool_decide_eq_true_2.
Qed.

(** An array shrinks when some of its items go. *)
Lemma array_bytes_sublist l l' : l' `sublist_of` l -> json_bytes (JArr l') <= json_bytes (JArr l) /\ len l' <= len l.
Proof.
  intros Hs. rewrite !json_bytes_array. enough (sumZ (map json_bytes l') <= sumZ (map json_bytes l) /\ len l' <= len l) as [? ?].
  { unfold seps. pose proof (len_nonneg l'). split; lia. }
  induction Hs as [|x l' l _ IH|x l' l _ IH]; [done|..]; cbn [map]; rewrite ?sumZ_cons, ?len_cons; pose proof (json_bytes_nonneg x); lia.
Qed.

Lemma array_bytes_strict l l' : l' `sublist_of` l -> len l' < len l -> (forall x, x ∈ l -> 0 < json_bytes x) ->
  json_bytes (JArr l') < json_bytes (JArr l).
Proof.
  intros Hs Hlt Hpos. rewrite !json_bytes_array. enough (sumZ (map json_bytes l') < sumZ (map json_bytes l)).
  { unfold seps. pose proof (len_nonneg l'). lia. }
  induction Hs as [|x l' l Hs IH|x l' l Hs IH]; [done|..]; cbn [map]; rewrite ?sumZ_cons; rewrite ?len_cons in Hlt.
  - assert (sumZ (map json_bytes l') < sumZ (map json_bytes l)); [|lia]. apply IH; [lia|]. intros y Hy. apply Hpos. by right.
  - pose proof (Hpos x ltac:(by left)). destruct (array_bytes_sublist l l' Hs) as [_ Hl].
    assert (sumZ (map json_bytes l') <= sumZ (map json_bytes l)); [|lia]. clear IH Hlt Hpos Hl.
    induction Hs as [|y l' l _ IH|y l' l _ IH]; [done|..]; cbn [map]; rewrite ?sumZ_cons; pose proof (json_bytes_nonneg y); lia.
Qed.

(** Objects of different printed sizes print differently. *)
Lemma same_json_bytes a b : same_json a b = true -> json_bytes (JObj a) = json_bytes (JObj b).
Proof. unfold same_json, json_bytes. by intros ->%jstr_eqb_eq. Qed.
