(* ===== verification/HostInvariant.v ===== *)
(** * HostInvariant: what every host operation leaves true of a session projection

    The replay ring is a gapless record of the most recent frames, its snapshot (if any) is the
    bounded transcript at its cursor, the id map mirrors the transcript, and the revision is the
    digest of everything hashed so far. *)
From stdpp Require Import base tactics option list numbers strings sets.
From S2P Require Import Prelude JsMap JsString JsValue Wire WireGuards WireSpec SnapshotLimits SnapshotSpec HostProjection.

Definition of_stream (f : stream_frame) : HostFrame := match f with EntryFrame f => HEntry f | EventFrame f => HEvent f end.

(** Frames of one session whose cursors are the successors of [n], in order. *)
Fixpoint contiguous (host session e : jstr) (n : Z) (frames : list stream_frame) : Prop :=
  match frames with
  | [] => True
  | f :: rest =>
      stream_host f = host /\ stream_session f = session /\ stream_cursor f = mkCursor e (n + 1) /\
      contiguous host session e (n + 1) rest
  end.

Lemma contiguous_app host session e n a b :
  contiguous host session e n (a ++ b) <-> contiguous host session e n a /\ contiguous host session e (n + len a) b.
Proof.
  revert n. induction a as [|f a IH]; intros n; simpl.
  - change (len (@nil stream_frame)) with 0. rewrite Z.add_0_r. tauto.
  - rewrite IH, len_cons. replace (n + 1 + len a) with (n + (1 + len a)) by lia. tauto.
Qed.

(** The revision built from a digest is an identifier of the wire. *)
Lemma revision_valid digest hashed : hex_digest digest -> wire_id (JStr (revision_of digest hashed)) = Ok (revision_of digest hashed).
Proof.
  intros Hd. destruct (hex_prefix digest hashed 24 Hd) as [Hp Hl]. unfold revision_of.
  assert (printable (js "r-" ++ take 24 (digest hashed))) as Hr by (apply printable_app; [by_compute|done]).
  apply wire_id_of; [by apply printable_id| |rewrite printable_bytes by done]; rewrite len_app; change (len (js "r-")) with 2.
  - pose proof (len_nonneg (take 24 (digest hashed))). lia.
  - unfold MAX_ID_BYTES. lia.
Qed.

Section Host.
Context (sha256_hex : jstr -> jstr) (localeCompare : jstr -> jstr -> comparison).
Implicit Types (h : Projection).

(** [s] is the snapshot of the transcript [base] at sequence number [n]. *)
Record snapshot_at h (base : list DurableEntry) (n : Z) (s : SessionSnapshotFrame) : Prop := {
  sa_cursor : sn_cursor s = mkCursor (epoch (h_cursor h)) n;
  sa_host : sn_hostId s = h_hostId h;
  sa_session : sn_sessionId s = h_sessionId h;
  sa_entries : exists fallback, boundSnapshotEntries sha256_hex base (h_hostId h) (h_sessionId h) fallback = Some (Ok (sn_entries s));
}.

(** How a ring may begin: with nothing, with a snapshot, or with a gap and the snapshot that
    repairs it. *)
Inductive ring_start h (base : list DurableEntry) (n : Z) : list HostFrame -> Prop :=
| start_none : ring_start h base n []
| start_snapshot s : snapshot_at h base n s -> ring_start h base n [HSnapshot s]
| start_gap g s : gap_hostId g = h_hostId h -> gap_sessionId g = h_sessionId h ->
    gap_to g = mkCursor (epoch (h_cursor h)) n -> snapshot_at h base n s ->
    ring_start h base n [HGap g; HSnapshot s].

(** The ring from sequence number [n], at which the transcript was [base], up to the cursor. *)
Record ring_from h (base : list DurableEntry) (n : Z) (start : list HostFrame) (frames : list stream_frame) : Prop := {
  rf_ring : h_ring h = start ++ map of_stream frames;
  rf_start : ring_start h base n start;
  rf_frames : contiguous (h_hostId h) (h_sessionId h) (epoch (h_cursor h)) n frames;
  rf_seq : n + len frames = seq (h_cursor h);
  rf_entries : h_entries h = base ++ flat_map stream_entries frames;
  rf_origin : 0 <= n;
}.

Record host_ok h : Prop := {
  ho_ring : exists base n start frames, ring_from h base n start frames;
  ho_size : len (h_ring h) <= h_ringSize h;
  ho_byId : map_wf (h_byId h);
  ho_ids : forall k, k ∈ map_keys (h_byId h) <-> k ∈ map entry_id (h_entries h);
  ho_revision : h_revision h = revision_of sha256_hex (h_hashed h);
  ho_index : epoch (h_indexCursor h) = epoch (h_cursor h) /\ 0 <= seq (h_indexCursor h);
}.

(** ** Operations that leave the stream alone *)

(** Same stream, and a revision that is again the digest of what was hashed. *)
Record ref_change h h' : Prop := {
  rc_host : h_hostId h' = h_hostId h;
  rc_session : h_sessionId h' = h_sessionId h;
  rc_cursor : h_cursor h' = h_cursor h;
  rc_entries : h_entries h' = h_entries h;
  rc_ring : h_ring h' = h_ring h;
  rc_byId : h_byId h' = h_byId h;
  rc_size : h_ringSize h' = h_ringSize h;
  rc_revision : h_revision h = revision_of sha256_hex (h_hashed h) -> h_revision h' = revision_of sha256_hex (h_hashed h');
  rc_index : epoch (h_indexCursor h') = epoch (h_indexCursor h) /\ seq (h_indexCursor h) <= seq (h_indexCursor h');
}.

Lemma ref_change_refl h : ref_change h h.
Proof. constructor; auto. split; [done|lia]. Qed.

Lemma ref_change_attention h pending : ref_change h (set_attention h pending).
Proof. constructor; auto. simpl. split; [done|lia]. Qed.

Lemma ref_change_trans h1 h2 h3 : ref_change h1 h2 -> ref_change h2 h3 -> ref_change h1 h3.
Proof. intros [? ? ? ? ? ? ? ? [? ?]] [? ? ? ? ? ? ? ? [? ?]]. constructor; try congruence; [auto|split; [congruence|lia]]. Qed.

Lemma ref_change_updateRef h next marker : ref_change h (fst (updateRef sha256_hex h next marker)).
Proof. constructor; try done. simpl. split; [done|lia]. Qed.

Lemma snapshot_at_change h h' base n s : ref_change h h' -> snapshot_at h base n s -> snapshot_at h' base n s.
Proof. intros [] [? ? ? [fb ?]]. constructor; try congruence. exists fb. congruence. Qed.

Lemma ring_start_change h h' base n start : ref_change h h' -> ring_start h base n start -> ring_start h' base n start.
Proof.
  intros Hc. pose proof Hc as []. destruct 1; constructor; try congruence; by eapply snapshot_at_change.
Qed.

Lemma ref_change_ok h h' : ref_change h h' -> host_ok h -> host_ok h'.
Proof.
  intros Hc [(base & n & start & frames & [H1 H2 H3 H4 H5 H6]) Hs Hw Hi Hr [He Hn]]. pose proof Hc as [? ? ? E1 E2 E3 ? Hrev [? ?]].
  constructor; [|congruence|congruence|by rewrite E1, E3|auto|split; [congruence|lia]].
  exists base, n, start, frames. constructor; try congruence. by eapply ring_start_change.
Qed.

(** ** Operations *)

(** The public operations that change a projection. *)
Inductive host_op :=
| OpStatus (status : jstr) | OpCrashed (outcome : option json_object) | OpRestartable
| OpTitle (title : jstr) | OpMode (mode : jstr) | OpReconcile (r : SessionRecord) | OpObserve (r : SessionRecord)
| OpArchived (at_ : option jstr) | OpIndexUpsert | OpRemove | OpControl (control : option json_object)
| OpState (state : json_object) (override : option jstr) (recover : bool) (transport : option json_object)
| OpPrompts (l : list json_object) | OpAddPrompt (p : json_object) | OpClearPrompt (id : jstr)
| OpSetAttention (item : json_object) | OpRemoveAttention (id : jstr) | OpClearAttention
| OpOutcome (o : json_object) | OpSettle (o : json_object)
| OpEntry (e : DurableEntry) | OpEvent (ev : json_object) | OpRebase (entries : list DurableEntry).

(** A method's new state and the frame it returns, if any. *)
Definition emit (r : Projection * option HostFrame) : Projection * list HostFrame := (fst r, option_list (snd r)).
Definition emit_one (r : Projection * HostFrame) : Projection * list HostFrame := (fst r, [snd r]).

Definition run h (op : host_op) : Projection * list HostFrame :=
  match op with
  | OpStatus s => emit (updateStatus sha256_hex h s)
  | OpCrashed o => emit (markRuntimeCrashed sha256_hex h o)
  | OpRestartable => emit (markRuntimeRestartable sha256_hex h)
  | OpTitle t => emit (updateTitle sha256_hex h t)
  | OpMode m => emit (updateMode sha256_hex h m)
  | OpReconcile r => emit (reconcileRecord sha256_hex h r)
  | OpObserve r => emit (reconcileObserverRecord sha256_hex h r)
  | OpArchived a => emit (updateArchivedAt sha256_hex h a)
  | OpIndexUpsert => emit_one (indexUpsert h)
  | OpRemove => emit_one (remove sha256_hex h)
  | OpControl c => emit (setSessionControl sha256_hex h c)
  | OpState s o r t => emit (updateState sha256_hex h s o r t)
  | OpPrompts l => emit (updatePendingPrompts sha256_hex h l)
  | OpAddPrompt p => emit (addPendingPrompt sha256_hex h p)
  | OpClearPrompt i => emit (clearPendingPrompt sha256_hex h i)
  | OpSetAttention i => emit (setPendingAttention sha256_hex localeCompare h i)
  | OpRemoveAttention i => emit (removePendingAttention sha256_hex localeCompare h i)
  | OpClearAttention => emit (clearPendingAttention sha256_hex localeCompare h)
  | OpOutcome o => emit (setLatestOutcome sha256_hex localeCompare h o)
  | OpSettle o => emit (settleAttentionOutcome sha256_hex localeCompare h o)
  | OpEntry e => emit (appendEntry sha256_hex h e)
  | OpEvent ev => emit_one (appendEvent h ev)
  | OpRebase l => (fst (rebaseEntries sha256_hex h l), match snd (rebaseEntries sha256_hex h l) with Some (Ok frames) => frames | _ => [] end)
  end.

Definition run_op h (op : host_op) : Projection := fst (run h op).

(** A step that only changes the ref and announces it with upserts of this session. *)
Definition ref_step h (r : Projection * list HostFrame) : Prop :=
  ref_change h (fst r) /\
  Forall (fun f => exists cursor rev ref, f = HDelta cursor rev (h_hostId h) (h_sessionId h) (inl ref)) (snd r).

Lemma ref_step_none h : ref_step h (emit (h, None)).
Proof. split; [apply ref_change_refl|constructor]. Qed.

Lemma ref_step_always h next marker : ref_step h (emit (update_always sha256_hex h next marker)).
Proof. split; [apply ref_change_updateRef|]. repeat constructor. eauto. Qed.

Lemma ref_step_if_changed h next marker : ref_step h (emit (update_if_changed sha256_hex h next marker)).
Proof. unfold update_if_changed. destruct (same_json _ _); [apply ref_step_none|apply ref_step_always]. Qed.

(** Clearing or changing the attention map first makes no difference to the stream. *)
Lemma ref_step_attention h pending r : ref_step (set_attention h pending) r -> ref_step h r.
Proof. intros [Hr Hf]. split; [|done]. eapply ref_change_trans; [apply ref_change_attention|done]. Qed.

Hint Resolve ref_step_none ref_step_always ref_step_if_changed ref_step_attention : omp.

Lemma ref_op_step h op :
  match op with OpEntry _ | OpEvent _ | OpRebase _ | OpRemove => True | _ => ref_step h (run h op) end.
Proof.
  destruct op; try done; cbn [run].
  - unfold updateStatus. destruct (jstr_eqb status (js "closed")); eauto with omp.
  - unfold markRuntimeCrashed. eauto with omp.
  - unfold markRuntimeRestartable. destruct (negb _); auto with omp.
  - unfold updateTitle. destruct (_ || _); auto with omp.
  - unfold updateMode. destruct (jstr_eqb _ _); [destruct (is_undef _)|destruct (is_string _ _)]; auto with omp.
  - unfold reconcileRecord. destruct (_ && bool_decide _); auto with omp.
  - unfold reconcileObserverRecord. auto with omp.
  - unfold updateArchivedAt. destruct (bool_decide _); auto with omp.
  - split; [|repeat constructor; simpl; eauto]. constructor; try done. simpl. split; [done|lia].
  - unfold setSessionControl. auto with omp.
  - unfold updateState. destruct (prop (js "model") state); auto with omp.
  - unfold updatePendingPrompts. auto with omp.
  - unfold addPendingPrompt, updatePendingPrompts. destruct (existsb _ _); auto with omp.
  - unfold clearPendingPrompt, updatePendingPrompts. destruct (_ =? _); auto with omp.
  - unfold setPendingAttention, updateAttentionRef.
    destruct (match map_get _ _ with Some _ => _ | None => _ end); eauto with omp.
  - unfold removePendingAttention, updateAttentionRef. destruct (map_has _ _); eauto with omp.
  - unfold clearPendingAttention, updateAttentionRef. destruct (_ =? 0); eauto with omp.
  - unfold setLatestOutcome, updateAttentionRef. destruct (unchanged_outcome _ _); auto with omp.
  - unfold settleAttentionOutcome, updateAttentionRef. destruct (_ && _); eauto with omp.
Qed.

Lemma ref_op_change h op : match op with OpEntry _ | OpEvent _ | OpRebase _ => True | _ => ref_change h (run_op h op) end.
Proof.
  pose proof (ref_op_step h op) as Hs. destruct op; try done; try apply Hs.
  constructor; try done. simpl. split; [done|lia].
Qed.

(** ** The stream *)

(** The ring facts that only depend on the session and the epoch. *)
Lemma snapshot_at_same h h' base n s :
  h_hostId h' = h_hostId h -> h_sessionId h' = h_sessionId h -> epoch (h_cursor h') = epoch (h_cursor h) ->
  snapshot_at h base n s -> snapshot_at h' base n s.
Proof. intros E1 E2 E3 []. constructor; rewrite ?E1, ?E2, ?E3; done. Qed.

Lemma ring_start_same h h' base n start :
  h_hostId h' = h_hostId h -> h_sessionId h' = h_sessionId h -> epoch (h_cursor h') = epoch (h_cursor h) ->
  ring_start h base n start -> ring_start h' base n start.
Proof. intros E1 E2 E3. destruct 1; constructor; rewrite ?E1, ?E2, ?E3; try done; by apply (snapshot_at_same h). Qed.

(** The ring, and what it says of an earlier moment: when it reaches back to sequence number
    [m], its frames since then are what was added to the transcript [past] of that moment. *)
Definition ring_since h (m : Z) (past : list DurableEntry) : Prop :=
  exists base n start frames, ring_from h base n start frames /\
    (n <= m -> past = base ++ flat_map stream_entries (take (Z.to_nat (m - n)) frames)).

Lemma ring_since_now h base n start frames : ring_from h base n start frames -> ring_since h (seq (h_cursor h)) (h_entries h).
Proof.
  intros Hr. exists base, n, start, frames. split; [done|]. intros _. destruct Hr as [_ _ _ H4 H5 _].
  rewrite take_ge; [done|]. unfold len in H4. lia.
Qed.

Lemma ring_since_from h m past : ring_since h m past -> exists base n start frames, ring_from h base n start frames.
Proof. intros (base & n & start & frames & Hr & _). eauto. Qed.

(** The oldest frame can always be dropped. *)
Lemma ring_shift h m past : ring_since h m past -> h_ring h ≠ [] -> ring_since (set_ring h (h_cursor h) (tail (h_ring h))) m past.
Proof.
  intros (base & n & start & frames & [H1 H2 H3 H4 H5 H6] & Hpast) Hne.
  destruct H2 as [|s Hs|g s Eg1 Eg2 Eg3 Hs]; simpl in H1.
  - destruct frames as [|f frames]; [done|]. destruct H3 as (E1 & E2 & E3 & H3).
    exists (base ++ stream_entries f), (n + 1), [], frames. split.
    + constructor; simpl; [by rewrite H1|constructor|done|rewrite len_cons in H4; lia| |lia].
      rewrite H5. simpl. by rewrite app_assoc.
    + intros Hm. rewrite Hpast by lia. replace (Z.to_nat (m - n)) with (S (Z.to_nat (m - (n + 1)))) by lia.
      simpl. by rewrite app_assoc.
  - exists base, n, [], frames. split; [|done]. constructor; simpl; [by rewrite H1|constructor|done..].
  - exists base, n, [HSnapshot s], frames. split; [|done]. constructor; simpl; [by rewrite H1| |done..].
    constructor. by apply (snapshot_at_same h).
Qed.

(** The next frame of the stream extends the ring. *)
Lemma ring_push h h1 base n start frames f :
  ring_from h base n start frames ->
  h_hostId h1 = h_hostId h -> h_sessionId h1 = h_sessionId h -> h_entries h1 = h_entries h ++ stream_entries f ->
  stream_host f = h_hostId h -> stream_session f = h_sessionId h -> stream_cursor f = next_cursor (h_cursor h) ->
  ring_from (set_ring h1 (next_cursor (h_cursor h)) (h_ring h ++ [of_stream f])) base n start (frames ++ [f]).
Proof.
  intros [H1 H2 H3 H4 H5 H6] E1 E2 E3 F1 F2 F3. constructor; simpl.
  - by rewrite H1, map_app, <- app_assoc.
  - by apply (ring_start_same h).
  - rewrite E1, E2. apply contiguous_app. split; [done|]. simpl. rewrite F1, F2, F3. split_and!; try done.
    unfold next_cursor. by rewrite H4.
  - rewrite len_app. change (len [f]) with 1. lia.
  - rewrite E3, H5, flat_map_app. simpl. by rewrite app_nil_r, app_assoc.
  - done.
Qed.

Lemma append_stream h h1 f m past :
  ring_since h m past -> m <= seq (h_cursor h) -> len (h_ring h) <= h_ringSize h ->
  h_hostId h1 = h_hostId h -> h_sessionId h1 = h_sessionId h -> h_ringSize h1 = h_ringSize h ->
  h_entries h1 = h_entries h ++ stream_entries f ->
  stream_host f = h_hostId h -> stream_session f = h_sessionId h -> stream_cursor f = next_cursor (h_cursor h) ->
  let h' := appendFrame (set_ring h1 (next_cursor (h_cursor h)) (h_ring h)) (of_stream f) in
  ring_since h' m past /\ len (h_ring h') <= h_ringSize h'.
Proof.
  intros (base & n & start & frames & Hr & Hpast) Hm Hs E1 E2 E3 E4 F1 F2 F3 h'.
  pose proof (ring_push h h1 base n start frames f Hr E1 E2 E4 F1 F2 F3) as Hp.
  assert (ring_since (set_ring h1 (next_cursor (h_cursor h)) (h_ring h ++ [of_stream f])) m past) as Hsince.
  { exists base, n, start, (frames ++ [f]). split; [done|]. intros Hn. rewrite take_app_le; [auto|].
    destruct Hr as [_ _ _ H4 _ _]. unfold len in H4. lia. }
  unfold h', appendFrame. simpl. rewrite E3. destruct (Z.ltb_spec (h_ringSize h) (len (h_ring h ++ [of_stream f]))) as [Hlt|Hge].
  - split; [by apply ring_shift in Hsince; [|by destruct (h_ring h)]|].
    destruct (h_ring h ++ [of_stream f]) as [|x l] eqn:E; [by destruct (h_ring h)|].
    apply (f_equal len) in E. autorewrite with omp_len in E. simpl. lia.
  - by split.
Qed.

(** What an appended event and an appended entry do to the ring. *)
Lemma appendEvent_since h ev m past : host_ok h -> ring_since h m past -> m <= seq (h_cursor h) ->
  ring_since (fst (appendEvent h ev)) m past /\ len (h_ring (fst (appendEvent h ev))) <= h_ringSize h.
Proof.
  intros Hh Hr Hm. apply (append_stream h h (EventFrame (mkEvent (next_cursor (h_cursor h)) (h_hostId h) (h_sessionId h) ev))); try done.
  - by destruct Hh.
  - simpl. by rewrite app_nil_r.
Qed.

Lemma appendEvent_ok h ev : host_ok h -> host_ok (fst (appendEvent h ev)).
Proof.
  intros Hh. pose proof Hh as [(base & n & start & frames & Hr) Hs Hw Hi Hrev Hx].
  destruct (appendEvent_since h ev _ _ Hh (ring_since_now _ _ _ _ _ Hr)) as [Hr' Hs']; [lia|].
  constructor; try done. by apply ring_since_from in Hr'.
Qed.

Lemma appendEntry_since h e m past : host_ok h -> ring_since h m past -> m <= seq (h_cursor h) ->
  ring_since (fst (appendEntry sha256_hex h e)) m past /\ len (h_ring (fst (appendEntry sha256_hex h e))) <= h_ringSize h.
Proof.
  intros Hh Hr Hm. unfold appendEntry. destruct (map_get (entry_id e) (h_byId h)) as [previous|].
  { destruct (jstr_eqb _ _); [by destruct Hh|]. by apply appendEvent_since. }
  set (hashed := h_hashed h ++ entry_line e). set (rev := revision_of sha256_hex hashed). set (ref := oset _ _ _).
  apply (append_stream h (set_entries h rev hashed ref (h_entries h ++ [e]) (map_set (entry_id e) e (h_byId h)))
    (EntryFrame (mkEntryFrame (next_cursor (h_cursor h)) rev (h_hostId h) (h_sessionId h) e))); try done. by destruct Hh.
Qed.

Lemma appendEntry_ok h e : host_ok h -> host_ok (fst (appendEntry sha256_hex h e)).
Proof.
  intros Hh. pose proof Hh as [(base & n & start & frames & Hr) Hs Hw Hi Hrev Hx].
  destruct (appendEntry_since h e _ _ Hh (ring_since_now _ _ _ _ _ Hr)) as [Hr' Hs']; [lia|]. apply ring_since_from in Hr'. revert Hr' Hs'.
  unfold appendEntry. destruct (map_get (entry_id e) (h_byId h)) as [previous|] eqn:Eg.
  { destruct (jstr_eqb _ _); [done|]. intros _ _. by apply (appendEvent_ok h). }
  intros Hr' Hs'. constructor; try done; cbn [h_byId h_entries fst appendFrame set_ring set_entries]; [by apply map_wf_set|].
  intros k. rewrite elem_of_keys_set, map_app, elem_of_app, Hi. set_solver.
Qed.

(** ** Rebase *)

Lemma snapshot_shape h f : snapshot sha256_hex h = Some (Ok f) ->
  exists s, f = HSnapshot s /\ snapshot_at h (h_entries h) (seq (h_cursor h)) s.
Proof.
  unfold snapshot. destruct (boundSnapshotEntries _ _ _ _ _) as [[entries|]|] eqn:E; try done.
  intros [= <-]. eexists. split; [done|]. constructor; simpl; [by destruct (h_cursor h)|done|done|eauto].
Qed.

Lemma gap_and_snapshot_shape h from reason frames : gap_and_snapshot sha256_hex h from reason = Some (Ok frames) ->
  exists s, frames = [HGap (mkGap (h_hostId h) (h_sessionId h) from (h_cursor h) reason); HSnapshot s] /\
    snapshot_at h (h_entries h) (seq (h_cursor h)) s.
Proof.
  unfold gap_and_snapshot. destruct (snapshot sha256_hex h) as [[f|]|] eqn:E; try done. intros [= <-].
  apply snapshot_shape in E as (s & -> & Hs). eauto.
Qed.

(** Restarting the ring re-establishes it from the current transcript alone. *)
Lemma restart_ring_ring h from reason frames : 0 <= h_ringSize h -> 0 <= seq (h_cursor h) ->
  snd (restart_ring sha256_hex h from reason) = Some (Ok frames) ->
  let h' := fst (restart_ring sha256_hex h from reason) in
  exists start, ring_from h' (h_entries h) (seq (h_cursor h)) start [] /\ h' = set_ring h (h_cursor h) start /\ len start <= h_ringSize h.
Proof.
  intros Hsz Hseq. unfold restart_ring.
  destruct (gap_and_snapshot _ _ _ _) as [[l|]|] eqn:E; try done. intros _.
  apply gap_and_snapshot_shape in E as (s & -> & Hs). cbn [fst snd fold_left]. set (g := mkGap _ _ _ _ _).
  assert (forall start, ring_start h (h_entries h) (seq (h_cursor h)) start -> len start <= h_ringSize h ->
    exists start', ring_from (set_ring h (h_cursor h) start) (h_entries h) (seq (h_cursor h)) start' [] /\
      set_ring h (h_cursor h) start = set_ring h (h_cursor h) start' /\ len start' <= h_ringSize h) as Hok.
  { intros start Hst Hl. exists start. split_and!; try done. constructor; simpl; rewrite ?app_nil_r; try done; [by apply (ring_start_same h)|apply Z.add_0_r]. }
  assert (ring_start h (h_entries h) (seq (h_cursor h)) [HGap g; HSnapshot s]) as H2
    by (constructor; [done|done|simpl; by destruct (h_cursor h)|done]).
  unfold appendFrame. cbn [h_ringSize h_ring h_cursor set_ring app].
  destruct (Z.ltb_spec (h_ringSize h) (len [HGap g])) as [H1|H1]; cbn [tail app]; change (len [HGap g]) with 1 in H1.
  - rewrite (proj2 (Z.ltb_lt _ _)) by (change (len [HSnapshot s]) with 1; lia). apply (Hok []); [constructor|done].
  - destruct (Z.ltb_spec (h_ringSize h) (len [HGap g; HSnapshot s])) as [H3|H3]; cbn [tail].
    + apply (Hok [HSnapshot s]); [by constructor|done].
    + by apply (Hok [HGap g; HSnapshot s]).
Qed.

Lemma restart_ring_ok h from reason frames :
  0 <= h_ringSize h -> 0 <= seq (h_cursor h) -> map_wf (h_byId h) ->
  (forall k, k ∈ map_keys (h_byId h) <-> k ∈ map entry_id (h_entries h)) ->
  h_revision h = revision_of sha256_hex (h_hashed h) ->
  epoch (h_indexCursor h) = epoch (h_cursor h) /\ 0 <= seq (h_indexCursor h) ->
  snd (restart_ring sha256_hex h from reason) = Some (Ok frames) ->
  host_ok (fst (restart_ring sha256_hex h from reason)).
Proof.
  intros Hsz Hseq Hw Hi Hrev Hx Hr. destruct (restart_ring_ring h from reason frames Hsz Hseq Hr) as (start & Hring & Heq & Hl).
  revert Hring. cbv zeta in Heq. rewrite Heq. intros Hring. constructor; try done. eauto.
Qed.

Lemma restart_ring_since h from reason frames m past : 0 <= h_ringSize h -> 0 <= seq (h_cursor h) -> m < seq (h_cursor h) ->
  snd (restart_ring sha256_hex h from reason) = Some (Ok frames) ->
  ring_since (fst (restart_ring sha256_hex h from reason)) m past.
Proof.
  intros Hsz Hseq Hm Hr. destruct (restart_ring_ring h from reason frames Hsz Hseq Hr) as (start & Hring & _).
  exists (h_entries h), (seq (h_cursor h)), start, []. split; [done|lia].
Qed.

(** What one appended entry keeps, and whether it advances the cursor. *)
Lemma appendEntry_step h e :
  let r := appendEntry sha256_hex h e in
  h_hostId (fst r) = h_hostId h /\ h_sessionId (fst r) = h_sessionId h /\ epoch (h_cursor (fst r)) = epoch (h_cursor h) /\
  seq (h_cursor (fst r)) = seq (h_cursor h) + len (option_list (snd r)).
Proof.
  unfold appendEntry. destruct (map_get _ _) as [previous|]; [destruct (jstr_eqb _ _)|]; split_and!; try done.
  cbn. by rewrite Z.add_0_r.
Qed.

(** The loop of a rebase keeps the invariant; when its budget runs out, it has sent a frame. *)
Lemma rebase_append_ok entries h frames bytes exceeded h' frames' exceeded' :
  host_ok h -> rebase_append sha256_hex entries h frames bytes exceeded = (h', frames', exceeded') ->
  host_ok h' /\ seq (h_cursor h) <= seq (h_cursor h') /\
  (exceeded' = true -> exceeded = true \/ seq (h_cursor h) < seq (h_cursor h')) /\
  forall m past, m <= seq (h_cursor h) -> ring_since h m past -> ring_since h' m past.
Proof.
  revert h frames bytes exceeded. induction entries as [|e entries IH]; intros h frames bytes exceeded Hh; cbn [rebase_append].
  { intros [= <- <- <-]. split_and!; auto. lia. }
  pose proof (appendEntry_ok h e Hh) as Hh1. pose proof (appendEntry_step h e) as (_ & _ & _ & Es).
  pose proof (fun m past Hm Hr => proj1 (appendEntry_since h e m past Hh Hr Hm)) as Hsince.
  destruct (appendEntry sha256_hex h e) as [h1 sent]. cbn [fst snd] in *. intros Hr.
  assert (exists fs b ex, rebase_append sha256_hex entries h1 fs b ex = (h', frames', exceeded') /\ (ex = true -> exceeded = true \/ sent ≠ None))
    as (fs & b & ex & Hr' & Hex).
  { destruct sent as [frame|]; [destruct exceeded; [|destruct (_ || _)]|]; eexists _, _, _; (split; [exact Hr|]); auto. }
  pose proof (IH _ _ _ _ Hh1 Hr') as (? & ? & Hex' & Hs'). pose proof (len_nonneg (option_list sent)). split_and!; [done|lia| |].
  - intros Ht. destruct (Hex' Ht) as [He|?]; [|right; lia]. destruct (Hex He) as [|Hn]; [by left|]. right.
    destruct sent as [frame|]; [|done]. change (len (option_list (Some frame))) with 1 in Es. lia.
  - intros m past Hm Hpast. apply Hs'; [lia|]. by apply Hsince.
Qed.

Lemma byId_ids entries (m : jsmap jstr DurableEntry) : map_wf m ->
  let m' := fold_left (fun m e => map_set (entry_id e) e m) entries m in
  map_wf m' /\ forall k, k ∈ map_keys m' <-> k ∈ map_keys m \/ k ∈ map entry_id entries.
Proof.
  revert m. induction entries as [|e entries IH]; intros m Hm; simpl; [set_solver|].
  destruct (IH (map_set (entry_id e) e m) ltac:(by apply map_wf_set)) as [Hw Hk]. split; [done|].
  intros k. rewrite Hk, elem_of_keys_set. set_solver.
Qed.

Lemma ring_nonneg h : host_ok h -> 0 <= h_ringSize h /\ 0 <= seq (h_cursor h).
Proof.
  intros [(base & n & start & frames & [_ _ _ H4 _ H6]) Hs _ _ _ _]. pose proof (len_nonneg (h_ring h)).
  pose proof (len_nonneg frames). lia.
Qed.

Lemma rebaseEntries_ok h entries frames :
  host_ok h -> snd (rebaseEntries sha256_hex h entries) = Some (Ok frames) -> host_ok (fst (rebaseEntries sha256_hex h entries)).
Proof.
  intros Hh. unfold rebaseEntries. set (rebounds := map _ entries). destruct (is_prefix _ _).
  - destruct (rebase_append _ _ _ _ _ _) as [[h' fs] exceeded] eqn:E. apply rebase_append_ok in E as [Hh' _]; [|done].
    destruct exceeded; [|done]. destruct (ring_nonneg h' Hh') as [? ?]. destruct Hh'. by apply restart_ring_ok.
  - destruct (ring_nonneg h Hh) as [? ?]. destruct Hh as [_ _ _ _ _ [? ?]].
    destruct (byId_ids rebounds []) as [Hw Hk]; [apply map_wf_nil|].
    apply restart_ring_ok; try done; simpl; [lia|]. intros k. rewrite Hk. set_solver.
Qed.

Lemma rebaseEntries_since h entries frames m past : host_ok h -> m <= seq (h_cursor h) -> ring_since h m past ->
  snd (rebaseEntries sha256_hex h entries) = Some (Ok frames) -> ring_since (fst (rebaseEntries sha256_hex h entries)) m past.
Proof.
  intros Hh Hm Hs. destruct (ring_nonneg h Hh) as [? ?]. unfold rebaseEntries. set (rebounds := map _ entries). destruct (is_prefix _ _).
  - destruct (rebase_append _ _ _ _ _ _) as [[h' fs] exceeded] eqn:E. apply rebase_append_ok in E as (Hh' & Hle & Hex & Hs'); [|done].
    destruct exceeded; [|intros _; auto]. destruct (ring_nonneg h' Hh') as [? ?]. destruct (Hex eq_refl) as [|Hlt]; [done|].
    apply restart_ring_since; [done|done|lia].
  - apply restart_ring_since; [done|cbn; lia|cbn; lia].
Qed.

Lemma new_projection_ok host record ep ringSize : 0 <= ringSize -> host_ok (new_projection sha256_hex host record ep ringSize).
Proof.
  intros Hs. unfold new_projection. set (rebounds := map _ (rec_entries record)).
  destruct (byId_ids rebounds []) as [Hw Hk]; [apply map_wf_nil|]. set (byId := fold_left _ rebounds []) in *.
  assert (Forall (fun kv => fst kv = entry_id (snd kv)) byId) as Hkeyed.
  { unfold byId. assert (Forall (fun kv : jstr * DurableEntry => fst kv = entry_id (snd kv)) []) as H0 by constructor. revert H0.
    generalize (@nil (jstr * DurableEntry)). clear. induction rebounds as [|e l IH]; intros m Hm; [done|]. simpl. apply IH.
    clear IH. induction Hm as [|[k v] m Hv Hm IH]; simpl; [by repeat constructor|]. destruct (decide _) as [<-|]; by constructor. }
  constructor; simpl; try done.
  - exists (map_values byId), 0, [], []. constructor; simpl; try done; [constructor|by rewrite app_nil_r].
  - intros k. by rewrite RetentionSpec.keyed_by_id.
Qed.

(** ** Reachable projections *)

(** An operation that does not throw; only a rebase can. *)
Definition op_returns h (op : host_op) : Prop :=
  match op with OpRebase l => exists frames, snd (rebaseEntries sha256_hex h l) = Some (Ok frames) | _ => True end.

Inductive host_reachable (host : jstr) (record : SessionRecord) (ep : jstr) (ringSize : Z) : Projection -> Prop :=
| host_initial : host_reachable host record ep ringSize (new_projection sha256_hex host record ep ringSize)
| host_step h op : host_reachable host record ep ringSize h -> op_returns h op ->
    host_reachable host record ep ringSize (run_op h op).

Lemma run_op_ok h op : host_ok h -> op_returns h op -> host_ok (run_op h op).
Proof.
  intros Hh Hr. pose proof (ref_op_change h op) as Hc. destruct op; try (by eapply ref_change_ok); simpl in *.
  - by apply appendEntry_ok.
  - by apply appendEvent_ok.
  - destruct Hr as [frames Hr]. by eapply rebaseEntries_ok.
Qed.

Lemma ring_since_change h h' m past : ref_change h h' -> ring_since h m past -> ring_since h' m past.
Proof.
  intros Hch (base & n & start & frames & [H1 H2 H3 H4 H5 H6] & Hp). pose proof Hch as []. exists base, n, start, frames.
  split; [|done]. constructor; try congruence. by eapply ring_start_change.
Qed.

Lemma run_op_since h op m past : host_ok h -> op_returns h op -> m <= seq (h_cursor h) -> ring_since h m past ->
  ring_since (run_op h op) m past.
Proof.
  intros Hh Hr Hm Hs. pose proof (ref_op_change h op) as Hc. destruct op; try (by eapply ring_since_change).
  - by apply appendEntry_since.
  - by apply appendEvent_since.
  - destruct Hr as [frames Hr]. by eapply rebaseEntries_since.
Qed.
End Host.

(** C19: Every state a host projection can reach keeps its invariant.  Starting from a discovered
    session and applying any sequence of its operations that do not throw: the replay ring holds
    at most [ringSize] frames; it is a gapless run of entry and event frames of this session and
    epoch that ends at the current cursor, optionally preceded by a snapshot (with or without
    its gap frame) that is the bounded transcript of the moment it was taken; the transcript is
    that base followed by the entries of those frames; the id map lists exactly the transcript's
    ids; and the revision is the digest of everything hashed. *)
Theorem host_reachable_ok sha256_hex localeCompare host record ep ringSize h :
  0 <= ringSize -> host_reachable sha256_hex localeCompare host record ep ringSize h -> host_ok sha256_hex h.
Proof. intros Hs. induction 1; [by apply new_projection_ok|by apply run_op_ok]. Qed.

(** A session with two entries, an event, and a rebase that replaces the transcript. *)
Definition sample_record : SessionRecord :=
  mkRecord (js "s") (js "p") None (js "Untitled") (js "t0") (js "idle") None None None None None [RetentionSpec.sample_entry (js "a")].
Definition sample_ops : list host_op :=
  [OpEntry (RetentionSpec.sample_entry (js "b")); OpEvent [(js "type", JStr (js "turn.start"))]; OpTitle (js "Work");
   OpRebase [RetentionSpec.sample_entry (js "c")]; OpEntry (RetentionSpec.sample_entry (js "d"))].
Definition sample_host : Projection :=
  fold_left (run_op zero_digest (fun _ _ => Eq)) sample_ops (new_projection zero_digest (js "h") sample_record (js "e") 256).

Lemma sample_host_reachable : host_reachable zero_digest (fun _ _ => Eq) (js "h") sample_record (js "e") 256 sample_host.
Proof.
  unfold sample_host, sample_ops. cbn [fold_left].
  repeat (apply host_step; [|first [exact I | eexists; vm_compute; reflexivity]]). apply host_initial.
Qed.

Lemma sample_host_ok : host_ok zero_digest sample_host.
Proof. induction sample_host_reachable; [by apply (new_projection_ok zero_digest (fun _ _ => Eq))|by apply run_op_ok]. Qed.

Lemma host_reachable_ok_witness : h_cursor sample_host = mkCursor (js "e") 4 /\ host_ok zero_digest sample_host.
Proof.
  split; [by vm_compute|].
  apply (host_reachable_ok zero_digest (fun _ _ => Eq) (js "h") sample_record (js "e") 256); [lia|exact sample_host_reachable].
Defined.
