(* ===== verification/Sync.v ===== *)
(** * Sync: the client follows the host

    The frames a host replays bring a client that was fresh at an earlier cursor (or of an
    earlier epoch) to the host's cursor. *)
From stdpp Require Import base tactics option list numbers strings sets.
From S2P Require Import Prelude JsMap JsString JsValue Wire WireGuards Retention RetentionSpec TranscriptWindow.
From S2P Require Import SnapshotLimits SnapshotSpec HostProjection HostInvariant.
From S2P Require Import ProjectionSanitize Preview ProjectionOptions ClientProjection ClientInvariant ClientStream.

(** The client's reaction to each frame of the host. *)
Definition deliver (c : ProjectionOptions) (p : ProjectionSnapshot) (f : HostFrame) : ProjectionSnapshot :=
  match f with
  | HDelta cursor _ host session change =>
      reduce_delta p (mkDelta (JStr host) (JStr session) cursor
        (match change with inl ref => Some (JObj ref) | inr _ => None end)
        (match change with inl _ => None | inr id => Some (JStr id) end)) c
  | HEntry f => reduce_entry p f c
  | HEvent f => reduce_event p f c
  | HGap f => reduce_gap p f c
  | HSnapshot f => reduce_snapshot p f c
  end.

Definition host_key (h : Projection) : jstr := key (h_hostId h) (h_sessionId h).

Lemma deliver_stream c p f : deliver c p (of_stream f) = reduce_stream c p f.
Proof. by destruct f. Qed.

Lemma deliver_streams c p frames : fold_left (deliver c) (map of_stream frames) p = fold_left (reduce_stream c) frames p.
Proof. revert p. induction frames as [|f frames IH]; intros p; [done|]. simpl. by rewrite deliver_stream. Qed.

Lemma contiguous_delivery host session e n frames : contiguous host session e n frames ->
  delivery (key host session) e n frames (flat_map stream_entries frames) (n + len frames).
Proof.
  revert n. induction frames as [|f frames IH]; intros n; simpl.
  - change (len (@nil stream_frame)) with 0. rewrite Z.add_0_r. constructor.
  - intros (E1 & E2 & E3 & Hr). rewrite len_cons. replace (n + (1 + len frames)) with (n + 1 + len frames) by lia.
    constructor; [unfold stream_key; by rewrite E1, E2|done|auto].
Qed.

Lemma contiguous_drop host session e n i frames : contiguous host session e n frames -> (i <= length frames)%nat ->
  contiguous host session e (n + Z.of_nat i) (drop i frames).
Proof.
  intros Hc Hi. rewrite <- (take_drop i frames) in Hc. apply contiguous_app in Hc as [_ Hc].
  unfold len in Hc. by rewrite length_take_le in Hc.
Qed.

Lemma filter_all_stream host session e n m frames : contiguous host session e n frames -> m <= n ->
  List.filter (fun f => m <? seq (frameCursor f)) (map of_stream frames) = map of_stream frames.
Proof.
  revert n. induction frames as [|f frames IH]; intros n Hc Hm; [done|]. destruct Hc as (_ & _ & E & Hc). cbn [map List.filter].
  assert (seq (frameCursor (of_stream f)) = n + 1) as -> by (destruct f; simpl in *; by rewrite E).
  rewrite (proj2 (Z.ltb_lt _ _)) by lia. f_equal. apply (IH (n + 1)); [done|lia].
Qed.

(** The frames of a contiguous run beyond sequence number [m]. *)
Lemma contiguous_filter host session e n m frames : contiguous host session e n frames -> n <= m <= n + len frames ->
  List.filter (fun f => m <? seq (frameCursor f)) (map of_stream frames) = map of_stream (drop (Z.to_nat (m - n)) frames).
Proof.
  revert n. induction frames as [|f frames IH]; intros n Hc Hm; [by rewrite drop_nil|].
  destruct Hc as (_ & _ & E & Hc). rewrite len_cons in Hm.
  assert (seq (frameCursor (of_stream f)) = n + 1) as Hf by (destruct f; simpl in *; by rewrite E).
  cbn [map List.filter]. rewrite Hf. destruct (Z.ltb_spec m (n + 1)).
  - replace (m - n) with 0 by lia. simpl. f_equal.
    apply (filter_all_stream host session e (n + 1)); [done|lia].
  - rewrite (IH (n + 1) Hc) by lia. replace (Z.to_nat (m - n)) with (S (Z.to_nat (m - (n + 1)))) by lia. done.
Qed.

Section Sync.
Context (sha256_hex : jstr -> jstr).
Implicit Types (h : Projection).

(** The two kinds of replay: the frames the receiver missed since the transcript was [before],
    or a fresh start from a snapshot and what followed it. *)
Inductive replayed h (cur : Cursor) (before : list DurableEntry) : list HostFrame -> Prop :=
| replay_continue rest :
    epoch cur = epoch (h_cursor h) ->
    contiguous (h_hostId h) (h_sessionId h) (epoch (h_cursor h)) (seq cur) rest -> seq cur + len rest = seq (h_cursor h) ->
    h_entries h = before ++ flat_map stream_entries rest ->
    replayed h cur before (map of_stream rest)
| replay_restart gaps s base n rest :
    Forall (fun g => key (gap_hostId g) (gap_sessionId g) = host_key h) gaps ->
    snapshot_at sha256_hex h base n s -> (epoch cur = epoch (h_cursor h) -> seq cur < n) ->
    contiguous (h_hostId h) (h_sessionId h) (epoch (h_cursor h)) n rest -> n + len rest = seq (h_cursor h) ->
    h_entries h = base ++ flat_map stream_entries rest ->
    replayed h cur before (map HGap gaps ++ HSnapshot s :: map of_stream rest).

Lemma gap_and_snapshot_replayed h cur before from reason frames :
  gap_and_snapshot sha256_hex h from reason = Some (Ok frames) ->
  (epoch cur = epoch (h_cursor h) -> seq cur < seq (h_cursor h)) -> replayed h cur before frames.
Proof.
  intros (s & -> & Hs)%gap_and_snapshot_shape Hlt.
  apply (replay_restart h cur before [mkGap _ _ _ _ _] s (h_entries h) (seq (h_cursor h)) []); try done.
  - by repeat constructor.
  - len_lia.
  - by rewrite app_nil_r.
Qed.

(** The part of the ring after [cur], when the ring still reaches back to it. *)
Lemma ring_suffix_replayed h before cur :
  ring_since sha256_hex h (seq cur) before -> epoch cur = epoch (h_cursor h) -> seq cur <= seq (h_cursor h) ->
  match h_ring h with oldest :: _ => seq (frameCursor oldest) | [] => seq (h_cursor h) + 1 end - 1 <= seq cur ->
  replayed h cur before (List.filter (fun f => seq cur <? seq (frameCursor f)) (h_ring h)).
Proof.
  intros (base & n & start & frames & [H1 H2 H3 H4 H5 H6] & Hpast) He Hle Hold. rewrite H1 in *. rewrite List.filter_app.
  assert (n <= seq cur -> List.filter (fun f => seq cur <? seq (frameCursor f)) start = []) as Hskip.
  { intros Hn. destruct H2 as [|s [Ec _ _ _]|g s _ _ Eg [Ec _ _ _]]; [done|simpl; rewrite Ec|simpl; rewrite Ec, Eg]; simpl;
      by rewrite (proj2 (Z.ltb_ge _ _)) by lia. }
  destruct (Z.le_gt_cases n (seq cur)) as [Hn|Hn].
  - rewrite Hskip by done. rewrite (contiguous_filter _ _ _ n) by (done || lia). simpl.
    assert (Z.to_nat (seq cur - n) <= length frames)%nat as Hi by (unfold len in H4; lia).
    apply (replay_continue h cur before (drop (Z.to_nat (seq cur - n)) frames)).
    + done.
    + apply (contiguous_drop _ _ _ _ _ _ H3) in Hi. by replace (n + Z.of_nat (Z.to_nat (seq cur - n))) with (seq cur) in Hi by lia.
    + unfold len in *. rewrite length_drop. lia.
    + by rewrite (Hpast Hn), H5, <- app_assoc, <- flat_map_app, take_drop.
  - rewrite (filter_all_stream _ _ _ n) by (done || lia).
    destruct H2 as [|s Hs|g s Eg1 Eg2 Eg3 Hs]; simpl in Hold |- *.
    + exfalso. destruct frames as [|f frames]; simpl in Hold; [len_lia|].
      destruct H3 as (_ & _ & E & _). destruct f; simpl in *; rewrite E in Hold; simpl in Hold; lia.
    + rewrite (sa_cursor _ _ _ _ _ Hs) in *. simpl in *. rewrite (proj2 (Z.ltb_lt _ _)) by lia.
      by apply (replay_restart h cur before [] s base n frames).
    + rewrite Eg3, (sa_cursor _ _ _ _ _ Hs). simpl. rewrite (proj2 (Z.ltb_lt _ _)) by lia.
      apply (replay_restart h cur before [g] s base n frames); try done. constructor; [|done]. unfold host_key. by rewrite Eg1, Eg2.
Qed.

Lemma replay_replayed h cur before frames :
  (epoch cur = epoch (h_cursor h) -> seq cur <= seq (h_cursor h) /\ ring_since sha256_hex h (seq cur) before) ->
  replay sha256_hex h cur = Some (Ok frames) -> replayed h cur before frames.
Proof.
  intros Hle. unfold replay. destruct (jstr_eqb (epoch cur) (epoch (h_cursor h))) eqn:E; simpl.
  2: { intros Hg. apply (gap_and_snapshot_replayed _ _ _ _ _ _ Hg). apply jstr_eqb_neq in E. done. }
  apply jstr_eqb_eq in E. destruct (Hle E) as [Hcur Hsince]. pose proof (ring_since_from _ _ _ _ Hsince) as (base & n & start & fs & Hr).
  set (oldest := match h_ring h with f :: _ => _ | [] => _ end).
  assert (oldest <= seq (h_cursor h) + 1) as Hold.
  { unfold oldest. pose proof Hr as [H1 H2 H3 H4 _ _]. rewrite H1. pose proof (len_nonneg fs).
    destruct H2 as [|s Hs|g s _ _ Eg Hs]; simpl.
    - destruct fs as [|f fs]; simpl; [lia|]. destruct H3 as (_ & _ & Ef & _). rewrite len_cons in *. pose proof (len_nonneg fs).
      destruct f; simpl in *; rewrite Ef; simpl; lia.
    - rewrite (sa_cursor _ _ _ _ _ Hs). simpl. lia.
    - rewrite Eg. simpl. lia. }
  destruct (Z.ltb_spec (seq cur) (oldest - 1)) as [Hlt|Hge].
  { intros Hg. apply (gap_and_snapshot_replayed _ _ _ _ _ _ Hg). lia. }
  pose proof (ring_suffix_replayed h before cur Hsince E Hcur Hge) as Hs.
  destruct (_ <=? MAX_REPLAY_BYTES) eqn:Eb; [by intros [= <-]|].
  intros Hg. apply (gap_and_snapshot_replayed _ _ _ _ _ _ Hg). intros _.
  destruct (Z.eq_dec (seq cur) (seq (h_cursor h))) as [Heq|]; [|lia]. exfalso.
  remember (List.filter _ _) as l eqn:El. destruct Hs as [rest _ _ Hrest _|gaps s b k rest _ _ Hlt _ Hrest _].
  - rewrite (len_zero_nil rest) in Eb by lia. simpl in Eb. by vm_compute in Eb.
  - specialize (Hlt E). pose proof (len_nonneg rest). lia.
Qed.

(** Every ring says something of every earlier moment. *)
Lemma ring_since_any h m : host_ok sha256_hex h -> exists past, ring_since sha256_hex h m past.
Proof. intros [(base & n & start & frames & Hr) _ _ _ _ _]. by exists (base ++ flat_map stream_entries (take (Z.to_nat (m - n)) frames)), base, n, start, frames. Qed.
End Sync.

(** ** The client side *)

Section Client.
Context (sha256_hex : jstr -> jstr) (c : ProjectionOptions) (Hc : options_ok c).
Implicit Types (p : ProjectionSnapshot) (h : Projection) (s : SessionProjection).

(** Session [k] is fresh, without gap, at the cursor. *)
Definition fresh_at p (k : jstr) (cur : Cursor) : Prop :=
  exists s, map_get k (ps_sessions p) = Some s /\ sp_cursor s = Some cur /\ sp_freshness s = Fresh /\ sp_gap s = None.

(** Session [k] is unknown, of another epoch, or before sequence number [n]. *)
Definition behind p (k : jstr) (e : jstr) (n : Z) : Prop :=
  forall s cur, map_get k (ps_sessions p) = Some s -> sp_cursor s = Some cur -> epoch cur = e -> seq cur < n.

Lemma stream_fresh host session e n frames p :
  contiguous host session e n frames -> projection_ok c p -> fresh_at p (key host session) (mkCursor e n) ->
  let p' := fold_left (reduce_stream c) frames p in
  projection_ok c p' /\ fresh_at p' (key host session) (mkCursor e (n + len frames)).
Proof.
  revert n p. induction frames as [|f frames IH]; intros n p Hcon Hp Hf; simpl.
  { change (len (@nil stream_frame)) with 0. by rewrite Z.add_0_r. }
  destruct Hcon as (E1 & E2 & E3 & Hcon). rewrite len_cons. replace (n + (1 + len frames)) with (n + 1 + len frames) by lia.
  apply IH; [done|by apply reduce_stream_ok|]. destruct Hf as (s & Hg & Hcur & Hfr & Hgap).
  pose proof (reduce_stream_cases c Hc p f Hp) as Hs. cbv zeta in Hs. unfold stream_key in Hs. rewrite E1, E2, E3 in Hs.
  assert (stream_state p (key host session) (mkCursor e (n + 1)) = Accept) as Ha.
  { unfold stream_state, cursorState. rewrite Hg, Hfr, Hcur, bool_decide_eq_false_2 by done. simpl. rewrite jstr_eqb_refl. simpl.
    rewrite (proj2 (Z.leb_gt _ _)) by lia. by rewrite Z.eqb_refl. }
  rewrite Ha, (warm_session_get _ _ _ Hg) in Hs. exists (match f with EntryFrame f => apply_entry f c s | EventFrame f => apply_event f c (nextArrivalOrdinal p) s end).
  split; [exact Hs|]. destruct f as [f|f]; simpl in E3 |- *; [|by rewrite E3].
  unfold apply_entry. destruct (in_list _ _); simpl; by rewrite E3.
Qed.

Lemma gap_behind p g k e n : projection_ok c p -> key (gap_hostId g) (gap_sessionId g) = k -> behind p k e n ->
  projection_ok c (reduce_gap p g c) /\ behind (reduce_gap p g c) k e n.
Proof.
  intros Hp Hk Hb. split; [by apply reduce_gap_ok|]. intros s cur Hs Hcur. unfold reduce_gap in Hs. rewrite Hk in Hs.
  rewrite (withSession_get c Hc p k (catching_up (Some g))) in Hs; [|done|intros; by apply catching_up_ok].
  injection Hs as <-. simpl in Hcur. unfold warm_session in Hcur.
  destruct (map_get k (ps_sessions p)) as [s0|] eqn:E; simpl in Hcur; [by apply (Hb s0)|].
  by rewrite session_of_key_cursor in Hcur.
Qed.

Lemma gaps_behind gaps p k e n : Forall (fun g => key (gap_hostId g) (gap_sessionId g) = k) gaps ->
  projection_ok c p -> behind p k e n ->
  projection_ok c (fold_left (deliver c) (map HGap gaps) p) /\ behind (fold_left (deliver c) (map HGap gaps) p) k e n.
Proof.
  intros Hall. revert p. induction Hall as [|g gaps Hg _ IH]; intros p Hp Hb; [done|]. simpl.
  destruct (gap_behind p g k e n Hp Hg Hb) as [? ?]. auto.
Qed.

Lemma snapshot_fresh h base n (s : SessionSnapshotFrame) p : projection_ok c p -> snapshot_at sha256_hex h base n s ->
  behind p (host_key h) (epoch (h_cursor h)) n ->
  projection_ok c (reduce_snapshot p s c) /\ fresh_at (reduce_snapshot p s c) (host_key h) (mkCursor (epoch (h_cursor h)) n).
Proof.
  intros Hp [Ec Eh Es _] Hb. split; [by apply reduce_snapshot_ok|].
  assert (snapshot_admitted p s) as Ha.
  { intros s0 cur Hs0 Hcur He. rewrite Eh, Es in Hs0. rewrite Ec in *. simpl in *. left. by apply (Hb s0). }
  pose proof (reduce_snapshot_get c Hc p s Hp Ha) as Hg. cbv zeta in Hg. rewrite Eh, Es in Hg. fold (host_key h) in Hg.
  eexists. split; [exact Hg|]. by rewrite <- Ec.
Qed.

(** Either kind of replay brings a client that was fresh at [cur] to the host's cursor. *)
Lemma replayed_fresh h cur before frames p :
  projection_ok c p -> replayed sha256_hex h cur before frames -> fresh_at p (host_key h) cur ->
  let p' := fold_left (deliver c) frames p in projection_ok c p' /\ fresh_at p' (host_key h) (h_cursor h).
Proof.
  intros Hp Hr Hf. assert (h_cursor h = mkCursor (epoch (h_cursor h)) (seq (h_cursor h))) as Heta by (by destruct (h_cursor h)).
  destruct Hr as [rest He Hcon Hlen _|gaps s base n rest Hg Hs Hlt Hcon Hlen _]; cbv zeta.
  - rewrite deliver_streams, Heta, <- Hlen. apply stream_fresh; [done|done|].
    rewrite <- He. by destruct cur.
  - rewrite fold_left_app. simpl. rewrite deliver_streams.
    assert (behind p (host_key h) (epoch (h_cursor h)) n) as Hb.
    { destruct Hf as (s0 & Hs0 & Hc0 & _). intros s1 cur1 Hs1 Hc1 He1. simplify_eq. auto. }
    destruct (gaps_behind gaps p _ _ _ Hg Hp Hb) as [Hp1 Hb1].
    destruct (snapshot_fresh h base n s _ Hp1 Hs Hb1) as [Hp2 Hf2].
    rewrite Heta, <- Hlen. by apply stream_fresh.
Qed.
End Client.

(** Replay synchronises.  Take a host projection within its invariant and a client whose
    session is fresh, without gap, at some cursor: the host's own epoch and not ahead of it, or
    any other epoch.  Whatever [replay] answers for that cursor (the missed frames, or a gap and
    a snapshot when the epoch differs, the ring has evicted the position or the frames exceed
    the replay budget), applying those frames in order leaves the client's session fresh,
    without gap, at exactly the host's cursor. *)
Theorem replay_synchronizes sha256_hex c p h cur frames :
  options_ok c -> projection_ok c p -> host_ok sha256_hex h ->
  fresh_at p (host_key h) cur -> (epoch cur = epoch (h_cursor h) -> seq cur <= seq (h_cursor h)) ->
  replay sha256_hex h cur = Some (Ok frames) ->
  fresh_at (fold_left (deliver c) frames p) (host_key h) (h_cursor h).
Proof.
  intros Hc Hp Hh Hf Hle Hr. destruct (ring_since_any sha256_hex h (seq cur) Hh) as [past Hpast].
  pose proof (replay_replayed sha256_hex h cur past frames (fun E => conj (Hle E) Hpast) Hr) as Hrep.
  by apply (replayed_fresh sha256_hex c Hc h cur past frames p Hp Hrep Hf).
Qed.
