(* ===== verification/Mirror.v ===== *)
(** * Mirror: the client's transcript is the host's

    A simulation between the host's projection of a session and a client's: every operation of
    the host, delivered live, and every reconnection, by replay, keep the client's transcript
    the retained window of the host's. *)
From stdpp Require Import base tactics option list numbers strings sets.
From S2P Require Import Prelude JsMap JsString JsValue Wire WireGuards Retention RetentionSpec TranscriptWindow.
From S2P Require Import SnapshotLimits SnapshotSpec HostProjection HostInvariant.
From S2P Require Import ProjectionSanitize Preview ProjectionOptions ClientProjection ClientInvariant ClientStream Sync.

Section Mirror.
Context (sha256_hex : jstr -> jstr) (localeCompare : jstr -> jstr -> comparison) (c : ProjectionOptions) (Hc : options_ok c).
Implicit Types (p : ProjectionSnapshot) (h : Projection).

(** [L] stands for the transcript [entries] of the host's session: an initial part as a bounded
    snapshot shows it, followed by the rest, entry by entry. *)
Definition stands_for h (entries L : list DurableEntry) : Prop :=
  exists base rest fallback es, entries = base ++ rest /\
    boundSnapshotEntries sha256_hex base (h_hostId h) (h_sessionId h) fallback = Some (Ok es) /\ L = es ++ rest.

Definition explains h (L : list DurableEntry) : Prop := stands_for h (h_entries h) L.

(** No omission notice takes the id of an entry. *)
Definition collision_free h : Prop := forall L, explains h L -> NoDup (map entry_id L).

(** Client session [s] shows the host's transcript: it is fresh at the host's cursor and has
    received exactly a transcript that stands for the host's. *)
Definition mirrored h (s : SessionProjection) : Prop :=
  exists L, explains h L /\ streamed c (epoch (h_cursor h)) L (seq (h_cursor h)) s.

Definition in_sync h p : Prop :=
  projection_ok c p /\ exists s, map_get (host_key h) (ps_sessions p) = Some s /\ mirrored h s.

Lemma explains_snapshot h base n s rest : snapshot_at sha256_hex h base n s -> h_entries h = base ++ rest ->
  explains h (sn_entries s ++ rest).
Proof. intros [_ _ _ [fb Hb]] He. exists base, rest, fb, (sn_entries s). by split_and!. Qed.

Lemma streams_ok frames p : projection_ok c p -> projection_ok c (fold_left (reduce_stream c) frames p).
Proof. revert p. induction frames as [|f frames IH]; intros p Hp; [done|]. simpl. apply IH. by apply reduce_stream_ok. Qed.

(** A snapshot of the host followed by the frames up to its cursor. *)
Lemma restart_in_sync h base n s rest p :
  projection_ok c p -> collision_free h -> snapshot_at sha256_hex h base n s ->
  behind p (host_key h) (epoch (h_cursor h)) n ->
  contiguous (h_hostId h) (h_sessionId h) (epoch (h_cursor h)) n rest -> n + len rest = seq (h_cursor h) ->
  h_entries h = base ++ flat_map stream_entries rest ->
  in_sync h (fold_left (deliver c) (HSnapshot s :: map of_stream rest) p).
Proof.
  intros Hp Hfree Hs Hb Hcon Hlen He. simpl. rewrite deliver_streams.
  split; [by apply streams_ok, reduce_snapshot_ok|]. pose proof (explains_snapshot h base n s _ Hs He) as Hex. specialize (Hfree _ Hex).
  destruct Hs as [Ec Eh Es _].
  assert (snapshot_admitted p s) as Ha.
  { intros s0 cur Hs0 Hcur Hep. rewrite Eh, Es in Hs0. rewrite Ec in *. simpl in *. left. by apply (Hb s0). }
  pose proof (reduce_snapshot_get c Hc p s Hp Ha) as Hg. cbv zeta in Hg. rewrite Eh, Es in Hg. fold (host_key h) in Hg.
  assert (NoDup (map entry_id (sn_entries s))) as Hn by (rewrite map_app, NoDup_app in Hfree; tauto).
  pose proof (apply_snapshot_streamed c s (warm_session p (host_key h)) Hn) as Hst. rewrite Ec in Hst. simpl in Hst.
  destruct (delivery_streamed c Hc _ _ _ _ _ _ (contiguous_delivery _ _ _ _ _ Hcon) _ _ _ (reduce_snapshot_ok c Hc p s Hp) Hg Hst Hfree)
    as (s' & Hs' & Hst'). exists s'. split; [exact Hs'|]. exists (sn_entries s ++ flat_map stream_entries rest).
  split; [done|]. by rewrite <- Hlen.
Qed.

(** Frames that continue what the client has. *)
Lemma continue_in_sync h L rest n s p :
  projection_ok c p -> collision_free h -> map_get (host_key h) (ps_sessions p) = Some s ->
  streamed c (epoch (h_cursor h)) L n s -> explains h (L ++ flat_map stream_entries rest) ->
  contiguous (h_hostId h) (h_sessionId h) (epoch (h_cursor h)) n rest -> n + len rest = seq (h_cursor h) ->
  in_sync h (fold_left (deliver c) (map of_stream rest) p).
Proof.
  intros Hp Hfree Hg Hst Hex Hcon Hlen. rewrite deliver_streams. split; [by apply streams_ok|].
  destruct (delivery_streamed c Hc _ _ _ _ _ _ (contiguous_delivery _ _ _ _ _ Hcon) _ _ _ Hp Hg Hst (Hfree _ Hex)) as (s' & Hs' & Hst').
  exists s'. split; [exact Hs'|]. exists (L ++ flat_map stream_entries rest). split; [done|]. by rewrite <- Hlen.
Qed.

Lemma mirrored_fresh h p : in_sync h p -> fresh_at p (host_key h) (h_cursor h).
Proof.
  intros (_ & s & Hs & L & _ & [_ _ _ Hcur Hf Hg]). exists s. split_and!; try done. by destruct (h_cursor h).
Qed.

(** *** One step of the host *)

(** Two host states that agree on everything a client can see of the stream. *)
Lemma in_sync_same h h' p :
  h_hostId h' = h_hostId h -> h_sessionId h' = h_sessionId h -> h_cursor h' = h_cursor h -> h_entries h' = h_entries h ->
  in_sync h p -> in_sync h' p.
Proof.
  intros E1 E2 E3 E4 (Hp & s & Hs & L & (base & rest & fb & es & H1 & H2 & H3) & Hst). split; [done|]. exists s.
  unfold host_key in *. rewrite E1, E2. split; [done|]. exists L. rewrite E3. split; [|done].
  exists base, rest, fb, es. by rewrite E1, E2, E4.
Qed.

(** An upsert of the session changes nothing but its ref. *)
Lemma upsert_session p f k s ref : projection_ok c p -> sd_upsert f = Some ref -> map_get k (ps_sessions p) = Some s ->
  exists r, map_get k (ps_sessions (reduce_delta p f c)) = Some s \/ map_get k (ps_sessions (reduce_delta p f c)) = Some (set_ref s r).
Proof.
  intros Hp Hu Hs. exists (default [] (sanitizeSessionRef ref)). unfold reduce_delta. rewrite Hu. simpl.
  destruct (boundedIdentity (sd_hostId f)) as [hostId|]; [|by left]. destruct (boundedIdentity (sd_sessionId f)) as [session|]; [|by left].
  destruct (sanitizeSessionRef ref) as [r|]; [|by left]. destruct (_ || _); [by left|]. simpl.
  destruct (sessionDeltaCursorIsStale _ _); [by left|]. unfold apply_delta. cbn [ps_sessions set_sessions].
  destruct (map_get (key hostId session) (ps_sessions p)) as [w|] eqn:Ew; [|by left].
  rewrite mapWith_fits; [|destruct (po_warm c p Hp); by rewrite (lru_size (ps_lru p))|unfold map_has; by rewrite Ew].
  destruct (decide (k = key hostId session)) as [->|]; [right; rewrite map_get_set_eq; congruence|left; by rewrite map_get_set_ne].
Qed.

Lemma upsert_in_sync h h' p cursor rev ref : ref_change sha256_hex h h' -> in_sync h p ->
  in_sync h' (deliver c p (HDelta cursor rev (h_hostId h) (h_sessionId h) (inl ref))).
Proof.
  intros [E1 E2 E3 E4 _ _ _ _ _] Hsync. apply (in_sync_same h); try done. destruct Hsync as (Hp & s & Hs & Hm).
  split; [by apply reduce_delta_ok|]. simpl. set (f := mkDelta _ _ _ _ _).
  destruct (upsert_session p f (host_key h) s (JObj ref) Hp eq_refl Hs) as [r [Hg|Hg]]; (eexists; split; [exact Hg|]); [done|].
  destruct Hm as (L & Hex & []). exists L. split; [done|]. by constructor.
Qed.

Lemma collision_free_prefix h h' more : h_hostId h' = h_hostId h -> h_sessionId h' = h_sessionId h ->
  h_entries h' = h_entries h ++ more -> collision_free h' -> collision_free h.
Proof.
  intros E1 E2 E3 Hfree L (base & rest & fb & es & H1 & H2 & ->).
  assert (explains h' (es ++ rest ++ more)) as Hex.
  { exists base, (rest ++ more), fb, es. rewrite E1, E2, E3, H1, <- app_assoc. done. }
  apply Hfree in Hex. rewrite app_assoc, map_app, NoDup_app in Hex. tauto.
Qed.

(** The next frame of the stream, delivered live. *)
Lemma stream_in_sync h h' f p :
  h_hostId h' = h_hostId h -> h_sessionId h' = h_sessionId h -> h_cursor h' = next_cursor (h_cursor h) ->
  h_entries h' = h_entries h ++ stream_entries f -> stream_host f = h_hostId h -> stream_session f = h_sessionId h ->
  stream_cursor f = next_cursor (h_cursor h) -> collision_free h' -> in_sync h p -> in_sync h' (deliver c p (of_stream f)).
Proof.
  intros E1 E2 E3 E4 F1 F2 F3 Hfree (Hp & s & Hs & L & Hex & Hst).
  apply (continue_in_sync h' L [f] (seq (h_cursor h)) s p); try done.
  - unfold host_key. by rewrite E1, E2.
  - by rewrite E3.
  - simpl. rewrite app_nil_r. destruct Hex as (base & rest & fb & es & H1 & H2 & ->).
    exists base, (rest ++ stream_entries f), fb, es. rewrite E1, E2, E4, H1, <- !app_assoc. done.
  - simpl. by rewrite E1, E2, E3.
  - rewrite E3. done.
Qed.

(** The frames a host sent while going from [h] to [h'] keep every client in step. *)
Record advances h h' (frames : list HostFrame) : Prop := {
  ad_host : h_hostId h' = h_hostId h;
  ad_session : h_sessionId h' = h_sessionId h;
  ad_epoch : epoch (h_cursor h') = epoch (h_cursor h);
  ad_seq : seq (h_cursor h) <= seq (h_cursor h');
  ad_sync : forall p, collision_free h' -> in_sync h p -> in_sync h' (fold_left (deliver c) frames p);
}.

Lemma advances_refl h : advances h h [].
Proof. constructor; (done || lia). Qed.


Lemma appendEvent_advances h ev : advances h (fst (appendEvent h ev)) [snd (appendEvent h ev)].
Proof.
  constructor; try done; [cbn; lia|]. intros p Hfree Hsync. cbn [fold_left].
  apply (stream_in_sync h _ (EventFrame (mkEvent (next_cursor (h_cursor h)) (h_hostId h) (h_sessionId h) ev))); try done.
  cbn. by rewrite app_nil_r.
Qed.

(** One appended entry: nothing when it is already there, a conflict event when another entry has
    its id, and its frame otherwise. *)
Lemma appendEntry_facts h e :
  let r := appendEntry sha256_hex h e in
  advances h (fst r) (option_list (snd r)) /\ (exists more, h_entries (fst r) = h_entries h ++ more) /\
  match snd r with None => fst r = h | Some _ => seq (h_cursor (fst r)) = seq (h_cursor h) + 1 end.
Proof.
  unfold appendEntry. destruct (map_get _ _) as [previous|]; [destruct (jstr_eqb _ _)|].
  - split_and!; [apply advances_refl|exists []; by rewrite app_nil_r|done].
  - split_and!; [apply appendEvent_advances|exists []; by rewrite app_nil_r|done].
  - set (rev := revision_of _ _). set (ref := oset _ _ _). split_and!; [|by eexists|done].
    constructor; try done; [cbn; lia|]. intros p Hfree Hsync. cbn [option_list snd fold_left].
    by apply (stream_in_sync h _ (EntryFrame (mkEntryFrame (next_cursor (h_cursor h)) rev (h_hostId h) (h_sessionId h) e))).
Qed.

(** A rebase that only appends. *)
Lemma rebase_append_facts entries h frames bytes exceeded h' frames' exceeded' :
  rebase_append sha256_hex entries h frames bytes exceeded = (h', frames', exceeded') ->
  (exists more, h_entries h' = h_entries h ++ more) /\
  (exceeded' = true -> exceeded = true \/ seq (h_cursor h) < seq (h_cursor h')) /\
  exists sent, advances h h' sent /\ (exceeded' = false -> frames' = frames ++ sent).
Proof.
  revert h frames bytes exceeded. induction entries as [|e entries IH]; intros h frames bytes exceeded; simpl.
  { intros [= <- <- <-]. split_and!; [exists []; by rewrite app_nil_r|by left|].
    exists []. split; [apply advances_refl|by rewrite app_nil_r]. }
  pose proof (appendEntry_facts h e) as ([E1 E2 E3 E6 Hs] & [m1 E4] & Es). destruct (appendEntry sha256_hex h e) as [h1 sent]. simpl in *.
  destruct sent as [frame|]; [|subst h1; eauto].
  set (ex1 := exceeded || ((MAX_REBASE_FRAMES <=? len frames) || (MAX_REPLAY_BYTES <? bytes + frame_bytes frame))).
  intros Hr. assert (exists fs b, rebase_append sha256_hex entries h1 fs b ex1 = (h', frames', exceeded') /\ (ex1 = false -> fs = frames ++ [frame]))
    as (fs & b & Hr' & Hfs).
  { unfold ex1. destruct exceeded; simpl; [by eexists _, _|]. by destruct (_ || _); eexists _, _. }
  clear Hr. pose proof (IH _ _ _ _ Hr') as ([m2 E5] & Hex & more & [A1 A2 A3 A4 A5] & Hout).
  split_and!; [exists (m1 ++ m2); by rewrite E5, E4, app_assoc| |].
  { intros Ht. destruct exceeded; [by left|]. right. lia. }
  exists (frame :: more). split.
  - constructor; try congruence; [lia|]. intros p Hfree Hsync. simpl. apply A5; [done|]. apply Hs; [|done].
    by apply (collision_free_prefix h1 h' m2).
  - intros Hf. rewrite (Hout Hf). destruct ex1 eqn:Ee; [|by rewrite Hfs, <- app_assoc].
    exfalso. revert Hr' Hf. clear. revert h1 fs b. induction entries as [|e entries IH]; intros h1 fs b; simpl; [by intros [= _ _ <-]|].
    destruct (appendEntry sha256_hex h1 e) as [h2 [f|]]; apply IH.
Qed.

(** Restarting the ring of a host whose cursor has advanced. *)
Lemma restart_ring_in_sync h h1 from reason frames p :
  h_hostId h1 = h_hostId h -> h_sessionId h1 = h_sessionId h -> epoch (h_cursor h1) = epoch (h_cursor h) ->
  seq (h_cursor h) < seq (h_cursor h1) -> snd (restart_ring sha256_hex h1 from reason) = Some (Ok frames) ->
  collision_free (fst (restart_ring sha256_hex h1 from reason)) -> in_sync h p ->
  in_sync (fst (restart_ring sha256_hex h1 from reason)) (fold_left (deliver c) frames p).
Proof.
  intros E1 E2 E3 Hlt. unfold restart_ring. destruct (gap_and_snapshot _ _ _ _) as [[l|]|] eqn:E; try done.
  intros [= ->] Hfree Hsync. apply gap_and_snapshot_shape in E as (s & -> & Hs). simpl in *.
  match type of Hfree with collision_free ?x => set (h2 := x) in * end.
  assert (h_hostId h2 = h_hostId h1 /\ h_sessionId h2 = h_sessionId h1 /\ h_cursor h2 = h_cursor h1 /\ h_entries h2 = h_entries h1)
    as (F1 & F2 & F3 & F4) by done.
  assert (host_key h2 = host_key h) as Hk by (unfold host_key; congruence).
  assert (behind p (host_key h2) (epoch (h_cursor h2)) (seq (h_cursor h2))) as Hb.
  { intros s0 cur Hs0 Hcur _. rewrite Hk in Hs0. destruct Hsync as (_ & s1 & Hs1 & L & _ & Hst). rewrite Hs1 in Hs0. simplify_eq.
    rewrite (st_cursor _ _ _ _ _ Hst) in Hcur. simplify_eq. exact Hlt. }
  set (g := mkGap _ _ _ _ _). destruct (gap_behind c Hc p g (host_key h2) _ _ (proj1 Hsync) eq_refl Hb) as [Hp' Hb'].
  apply (restart_in_sync h2 (h_entries h2) (seq (h_cursor h2)) s [] (reduce_gap p g c)); try done.
  - by apply (snapshot_at_same sha256_hex h1).
  - apply Z.add_0_r.
  - by rewrite app_nil_r.
Qed.

Lemma restart_ring_advances h h1 from reason frames :
  h_hostId h1 = h_hostId h -> h_sessionId h1 = h_sessionId h -> epoch (h_cursor h1) = epoch (h_cursor h) ->
  seq (h_cursor h) < seq (h_cursor h1) -> snd (restart_ring sha256_hex h1 from reason) = Some (Ok frames) ->
  advances h (fst (restart_ring sha256_hex h1 from reason)) frames.
Proof.
  intros E1 E2 E3 Hlt Hr. pose proof (fun p => restart_ring_in_sync h h1 from reason frames p E1 E2 E3 Hlt Hr) as Hsync.
  revert Hr Hsync. unfold restart_ring. destruct (gap_and_snapshot _ _ _ _) as [[l|]|] eqn:E; try done.
  apply gap_and_snapshot_shape in E as (s & -> & _). intros _ Hsync. constructor; [done..| |exact Hsync].
  cbn. lia.
Qed.

Lemma rebaseEntries_advances h entries frames : snd (rebaseEntries sha256_hex h entries) = Some (Ok frames) ->
  advances h (fst (rebaseEntries sha256_hex h entries)) frames.
Proof.
  unfold rebaseEntries. destruct (is_prefix _ _).
  - destruct (rebase_append _ _ _ _ _ _) as [[h' fs] exceeded] eqn:E. apply rebase_append_facts in E as (_ & Hex & sent & Ha & Hfs).
    destruct exceeded; [|intros [= ->]; by rewrite (Hfs eq_refl)]. intros Hr.
    destruct (Hex eq_refl) as [?|Hlt]; [done|]. destruct Ha. by apply restart_ring_advances.
  - apply restart_ring_advances; try done. cbn. lia.
Qed.

Lemma upserts_in_sync h frames p :
  Forall (fun f => exists cursor rev ref, f = HDelta cursor rev (h_hostId h) (h_sessionId h) (inl ref)) frames ->
  in_sync h p -> in_sync h (fold_left (deliver c) frames p).
Proof.
  intros Hall. revert p. induction Hall as [|f frames (cur & rev & ref & ->) _ IH]; intros p Hp; [done|].
  cbn [fold_left]. apply IH. apply (upsert_in_sync h); [apply ref_change_refl|done].
Qed.

Lemma ref_step_advances h r : ref_step sha256_hex h r -> advances h (fst r) (snd r).
Proof.
  intros [Hch Hf]. pose proof Hch as [E1 E2 E3 E4 _ _ _ _ _]. constructor; [congruence..|rewrite E3; lia|].
  intros p _ Hsync. apply (in_sync_same h); try done. by apply upserts_in_sync.
Qed.

Lemma run_advances h op : op ≠ OpRemove -> op_returns sha256_hex h op ->
  advances h (run_op sha256_hex localeCompare h op) (snd (run sha256_hex localeCompare h op)).
Proof.
  intros Hne Hret. pose proof (ref_op_step sha256_hex localeCompare h op) as Hs. unfold run_op.
  destruct op; try (by apply ref_step_advances); try done.
  - apply appendEntry_facts.
  - apply appendEvent_advances.
  - destruct Hret as [frames Hret]. cbn [run fst snd]. rewrite Hret. by apply rebaseEntries_advances.
Qed.

(** *** A whole run of the host *)

(** From [h0] to [h] by operations that do not remove the session and do not throw, sending
    [frames]. *)
Inductive session_run h0 : list HostFrame -> Projection -> Prop :=
| run_start : session_run h0 [] h0
| run_next frames h op : session_run h0 frames h -> op ≠ OpRemove -> op_returns sha256_hex h op ->
    collision_free (run_op sha256_hex localeCompare h op) ->
    session_run h0 (frames ++ snd (run sha256_hex localeCompare h op)) (run_op sha256_hex localeCompare h op).

Lemma run_live h0 frames h p : session_run h0 frames h -> in_sync h0 p -> in_sync h (fold_left (deliver c) frames p).
Proof.
  intros Hr. induction Hr as [|frames h op _ IH Hne Hret Hfree]; intros Hp; [done|]. rewrite fold_left_app.
  apply run_advances; auto.
Qed.

(** *** Reconnection *)

(** What a disconnected client that was in step at cursor [cur] knows of the host: nothing when
    the epoch has changed, and otherwise an initial part of the stream the host is in. *)
Definition follows h p (cur : Cursor) : Prop :=
  projection_ok c p /\ exists s, map_get (host_key h) (ps_sessions p) = Some s /\ sp_cursor s = Some cur /\
    (epoch cur = epoch (h_cursor h) -> seq cur <= seq (h_cursor h) /\
      exists past L, ring_since sha256_hex h (seq cur) past /\ stands_for h past L /\ streamed c (epoch cur) L (seq cur) s).

Lemma in_sync_follows h p : host_ok sha256_hex h -> in_sync h p -> follows h p (h_cursor h).
Proof.
  intros [(base & n & start & frames & Hr) _ _ _ _ _] (Hp & s & Hs & L & Hex & Hst). split; [done|]. exists s. split; [done|].
  split; [rewrite (st_cursor _ _ _ _ _ Hst); by destruct (h_cursor h)|]. intros _. split; [lia|].
  exists (h_entries h), L. split; [|done]. by eapply ring_since_now.
Qed.

Lemma follows_step h op p cur : host_ok sha256_hex h -> op ≠ OpRemove -> op_returns sha256_hex h op ->
  follows h p cur -> follows (run_op sha256_hex localeCompare h op) p cur.
Proof.
  intros Hh Hne Hret (Hp & s & Hs & Hcur & Hf). destruct (run_advances h op Hne Hret) as [E1 E2 E3 E4 _].
  split; [done|]. exists s. unfold host_key in *. rewrite E1, E2, E3. split_and!; [done|done|].
  intros He. destruct (Hf He) as (Hle & past & L & Hr & Hl & Hst). split; [lia|]. exists past, L. split_and!; [by apply run_op_since| |done].
  unfold stands_for in *. by rewrite E1, E2.
Qed.

Lemma follows_run h0 frames h p cur : session_run h0 frames h -> host_ok sha256_hex h0 -> follows h0 p cur ->
  host_ok sha256_hex h /\ follows h p cur.
Proof.
  intros Hr Hh Hf. induction Hr as [|frames h op _ [IH1 IH2] Hne Hret _]; [done|]. split; [by apply run_op_ok|by apply follows_step].
Qed.

Lemma resume h p cur frames : follows h p cur -> collision_free h -> replay sha256_hex h cur = Some (Ok frames) ->
  in_sync h (fold_left (deliver c) frames p).
Proof.
  intros (Hp & s & Hs & Hcur & Hf) Hfree Hr.
  assert (exists past, (epoch cur = epoch (h_cursor h) -> seq cur <= seq (h_cursor h) /\ ring_since sha256_hex h (seq cur) past) /\
    (epoch cur = epoch (h_cursor h) -> exists L, stands_for h past L /\ streamed c (epoch cur) L (seq cur) s)) as (past & Hpast & HL).
  { destruct (decide (epoch cur = epoch (h_cursor h))) as [E|E]; [|by exists []].
    destruct (Hf E) as (? & past & L & ? & ? & ?). exists past. split; [done|eauto]. }
  pose proof (replay_replayed sha256_hex h cur past frames Hpast Hr) as Hrep.
  destruct Hrep as [rest He Hcon Hlen Hent|gaps sn base n rest Hg Hsn Hlt Hcon Hlen Hent].
  - destruct (HL He) as (L & (base & r & fb & es & H1 & H2 & ->) & Hst). rewrite He in Hst.
    apply (continue_in_sync h (es ++ r) rest (seq cur) s p); try done.
    exists base, (r ++ flat_map stream_entries rest), fb, es. rewrite Hent, H1, <- !app_assoc. done.
  - rewrite fold_left_app.
    assert (behind p (host_key h) (epoch (h_cursor h)) n) as Hb.
    { intros s1 cur1 Hs1 Hc1 He1. rewrite Hs in Hs1. simplify_eq. auto. }
    destruct (gaps_behind c Hc gaps p _ _ _ Hg Hp Hb) as [Hp1 Hb1]. by eapply restart_in_sync.
Qed.

(** The first answer to a client that attaches without a cursor. *)
Lemma snapshot_in_sync h p f : projection_ok c p -> collision_free h -> behind p (host_key h) (epoch (h_cursor h)) (seq (h_cursor h)) ->
  snapshot sha256_hex h = Some (Ok f) -> in_sync h (deliver c p f).
Proof.
  intros Hp Hfree Hb (s & -> & Hs)%snapshot_shape.
  apply (restart_in_sync h (h_entries h) (seq (h_cursor h)) s [] p); try done; [apply Z.add_0_r|by rewrite app_nil_r].
Qed.

(** *** Snapshots can be taken *)

(** What [boundSnapshotEntries] asks of a session, beyond the digest. *)
Record snapshotable h : Prop := {
  sb_text : id_text (h_sessionId h);
  sb_host : len (h_hostId h) <= 256;
  sb_session : len (h_sessionId h) <= 256;
  sb_updated : len (ref_text (js "updatedAt") (h_ref h)) <= 65536;
  sb_count : prior_omitted (h_entries h) + len (h_entries h) <= MAX_SAFE_INTEGER;
}.

Lemma snapshot_total h : hex_digest sha256_hex -> snapshotable h -> exists f, snapshot sha256_hex h = Some (Ok f).
Proof.
  intros Hd [H1 H2 H3 H4 H5]. unfold snapshot.
  destruct (boundSnapshotEntries_cases _ (h_entries h) _ _ _ Hd H1 H2 H3 H4 H5) as (out & -> & _). eauto.
Qed.

Lemma replay_total h cur : hex_digest sha256_hex -> snapshotable h -> exists frames, replay sha256_hex h cur = Some (Ok frames).
Proof.
  intros Hd Hs. destruct (snapshot_total h Hd Hs) as [f Hf].
  assert (forall from reason, exists frames, gap_and_snapshot sha256_hex h from reason = Some (Ok frames)) as Hg
    by (intros; unfold gap_and_snapshot; rewrite Hf; eauto).
  unfold replay. destruct (negb _); [apply Hg|]. cbv zeta.
  match goal with |- context [if ?b then gap_and_snapshot _ _ _ _ else _] => destruct b end; [apply Hg|].
  destruct (_ <=? _); [eauto|apply Hg].
Qed.

(** A small transcript without repeated ids stands for itself only. *)
Lemma small_collision_free h : small_transcript (h_entries h) -> NoDup (map entry_id (h_entries h)) -> collision_free h.
Proof.
  intros Hs Hn L (base & rest & fb & es & He & Hb & ->). rewrite He in Hs. apply small_transcript_prefix in Hs.
  rewrite small_transcript_unchanged in Hb by done. injection Hb as <-. by rewrite <- He.
Qed.
End Mirror.

(** C1: A connected client mirrors the host.  From a state in which the client's session shows
    the host's transcript, let the host perform any sequence of operations on the session other
    than removing it: status, title, mode, prompts, attention and state changes, entries, events,
    and rebases that append, replace the transcript or exceed their budget.  Applying the frames
    these operations return, in order, leaves the client's session fresh, without gap, at the
    host's cursor, and its transcript is again the longest suffix within the client's budgets of
    the host's transcript (entries before the last snapshot as that snapshot shows them), with
    the truncation flag exact. *)
Theorem live_frames_mirror sha256_hex localeCompare c h0 frames h p :
  options_ok c -> session_run sha256_hex localeCompare h0 frames h -> in_sync sha256_hex c h0 p ->
  in_sync sha256_hex c h (fold_left (deliver c) frames p).
Proof. intros Hc Hr. by eapply run_live. Qed.

(** C2: Reconnection loses nothing.  A client in step with the host disconnects, the host performs
    any sequence of operations on the session other than removing it, and the client asks for a
    replay from the cursor it remembers.  The replay returns, and whether it is the missed
    frames or a gap with a snapshot, applying it to what the client had brings the client back
    in step: fresh, without gap, at the host's cursor, with the retained window of the host's
    current transcript. *)
Theorem reconnection_resynchronizes sha256_hex localeCompare c h0 missed h p :
  hex_digest sha256_hex -> options_ok c -> host_ok sha256_hex h0 -> in_sync sha256_hex c h0 p ->
  session_run sha256_hex localeCompare h0 missed h -> collision_free sha256_hex h -> snapshotable h ->
  exists frames, replay sha256_hex h (h_cursor h0) = Some (Ok frames) /\
    in_sync sha256_hex c h (fold_left (deliver c) frames p).
Proof.
  intros Hd Hc Hh Hp Hr Hfree Hs. destruct (replay_total sha256_hex h (h_cursor h0) Hd Hs) as [frames Hf].
  exists frames. split; [done|].
  destruct (follows_run sha256_hex localeCompare c Hc h0 missed h p (h_cursor h0) Hr Hh) as [_ Hfol]; [by apply in_sync_follows|].
  by apply (resume sha256_hex c Hc h p (h_cursor h0)).
Qed.

(** What a client may bring to an attach: without a cursor, at most an older state of the
    session; with a cursor, the state it had there. *)
Definition attaching (sha256_hex : jstr -> jstr) (c : ProjectionOptions) (h : Projection) (p : ProjectionSnapshot)
    (cursor : option Cursor) : Prop :=
  match cursor with
  | None => projection_ok c p /\ behind p (host_key h) (epoch (h_cursor h)) (seq (h_cursor h))
  | Some cur => follows sha256_hex c h p cur
  end.

(** C3: Attaching misses nothing that happens while the answer is prepared.  The frames of
    [prepareAttachOutput], taken at one moment, are completed with a replay from the baseline
    recorded there after the host has performed any further sequence of operations on the
    session.  Both calls return, and the frames they produce bring the client in step with the
    host as it is at completion, whether it attached with a cursor (of this epoch or another) or
    without one. *)
Theorem attach_misses_nothing sha256_hex localeCompare c h0 missed h p cursor :
  hex_digest sha256_hex -> options_ok c -> host_ok sha256_hex h0 -> attaching sha256_hex c h0 p cursor ->
  collision_free sha256_hex h0 -> snapshotable h0 ->
  session_run sha256_hex localeCompare h0 missed h -> collision_free sha256_hex h -> snapshotable h ->
  exists prepared frames, prepareAttachOutput sha256_hex h0 cursor = Some (Ok prepared) /\
    completeAttachOutput sha256_hex prepared h [] = Some (Ok frames) /\
    in_sync sha256_hex c h (fold_left (deliver c) frames p).
Proof.
  intros Hd Hc Hh Ha Hfree0 Hs0 Hr Hfree Hs.
  assert (exists first, prepareAttachOutput sha256_hex h0 cursor = Some (Ok (mkPrepared first (h_cursor h0))) /\
    in_sync sha256_hex c h0 (fold_left (deliver c) first p)) as (first & Hprep & Hsync).
  { unfold prepareAttachOutput. destruct cursor as [cur|].
    - destruct (replay_total sha256_hex h0 cur Hd Hs0) as [first Hf]. rewrite Hf. exists first. split; [done|]. by apply (resume sha256_hex c Hc h0 p cur).
    - destruct (snapshot_total sha256_hex h0 Hd Hs0) as [f Hf]. rewrite Hf. exists [f]. split; [done|]. destruct Ha. by apply snapshot_in_sync. }
  destruct (replay_total sha256_hex h (h_cursor h0) Hd Hs) as [frames Hf].
  exists (mkPrepared first (h_cursor h0)), (first ++ frames ++ []). unfold completeAttachOutput. cbn [baseline initialFrames]. rewrite Hf.
  split_and!; [done|done|]. rewrite app_nil_r, fold_left_app.
  destruct (follows_run sha256_hex localeCompare c Hc h0 missed h _ (h_cursor h0) Hr Hh (in_sync_follows _ _ _ _ Hh Hsync)) as [_ Hfol].
  by apply (resume sha256_hex c Hc h _ (h_cursor h0)).
Qed.

(** ** A session followed from its start *)

Definition default_config : ProjectionOptions := resolveProjectionOptions NO_OPTIONS.
Definition first_host : Projection := new_projection zero_digest (js "h") sample_record (js "e") 256.

Lemma sample_run_from (ops : list host_op) h0 frames h :
  session_run zero_digest (fun _ _ => Eq) h0 frames h ->
  Forall (fun op => op ≠ OpRemove) ops ->
  (forall k op, ops !! k = Some op ->
    let x := fold_left (run_op zero_digest (fun _ _ => Eq)) (take k ops) h in
    op_returns zero_digest x op /\ collision_free zero_digest (run_op zero_digest (fun _ _ => Eq) x op)) ->
  exists frames', session_run zero_digest (fun _ _ => Eq) h0 frames' (fold_left (run_op zero_digest (fun _ _ => Eq)) ops h).
Proof.
  revert frames h. induction ops as [|op ops IH]; intros frames h Hr Hne Hall; [by exists frames|].
  apply Forall_cons in Hne as [Hop Hne]. destruct (Hall 0%nat op eq_refl) as [Hret Hfree]. cbn [take fold_left] in Hret, Hfree.
  cbn [fold_left]. eapply IH; [by apply run_next|done|]. intros k op' Hk. exact (Hall (S k) op' Hk).
Qed.

(** Transcripts of a few small entries. *)
Ltac small_host := apply small_collision_free; [split_and!; [by_compute|split; by_compute|by_compute]|by_compute].

Lemma first_host_free : collision_free zero_digest first_host.
Proof. small_host. Qed.

Lemma sample_host_free : collision_free zero_digest sample_host.
Proof. small_host. Qed.

Lemma sample_run : exists frames, session_run zero_digest (fun _ _ => Eq) first_host frames sample_host.
Proof.
  apply (sample_run_from sample_ops first_host [] first_host); [apply run_start|by repeat constructor|].
  intros k op Hk. do 5 (destruct k as [|k]; [injection Hk as <-; split; [first [exact I|eexists; vm_compute; reflexivity]|small_host]|]).
  done.
Qed.

Lemma first_host_ok : host_ok zero_digest first_host.
Proof. unfold first_host. apply (new_projection_ok zero_digest (fun _ _ => Eq)). lia. Qed.

(** A client that attached when the session was discovered. *)
Definition first_client : ProjectionSnapshot :=
  match snapshot zero_digest first_host with
  | Some (Ok f) => deliver default_config createProjectionSnapshot f
  | _ => createProjectionSnapshot
  end.

Lemma first_client_in_sync : in_sync zero_digest default_config first_host first_client.
Proof.
  unfold first_client. destruct (snapshot zero_digest first_host) as [[f|]|] eqn:E; [|by vm_compute in E..].
  apply snapshot_in_sync; [exact default_options_ok|apply createProjectionSnapshot_ok, default_options_ok|exact first_host_free|by intros ? ?|exact E].
Qed.

Lemma first_host_snapshotable : snapshotable first_host.
Proof. constructor; [split; reflexivity|by_compute..]. Qed.

Lemma sample_host_snapshotable : snapshotable sample_host.
Proof. constructor; [split; reflexivity|by_compute..]. Qed.

Lemma live_frames_mirror_witness : exists frames,
  in_sync zero_digest default_config sample_host (fold_left (deliver default_config) frames first_client).
Proof.
  destruct sample_run as [frames Hr]. exists frames.
  apply (live_frames_mirror zero_digest (fun _ _ => Eq) default_config first_host frames sample_host first_client).
  - exact default_options_ok.
  - exact Hr.
  - exact first_client_in_sync.
Defined.

Lemma replay_synchronizes_witness : exists frames,
  fresh_at (fold_left (deliver default_config) frames first_client) (host_key sample_host) (mkCursor (js "e") 4).
Proof.
  destruct (replay_total zero_digest sample_host (mkCursor (js "e") 0) zero_digest_hex sample_host_snapshotable) as [frames Hf].
  exists frames.
  apply (replay_synchronizes zero_digest default_config first_client sample_host (mkCursor (js "e") 0) frames).
  - exact default_options_ok.
  - apply first_client_in_sync.
  - exact sample_host_ok.
  - exact (mirrored_fresh zero_digest default_config first_host first_client first_client_in_sync).
  - intros _. vm_compute. discriminate.
  - exact Hf.
Defined.

Lemma reconnection_resynchronizes_witness : exists frames, replay zero_digest sample_host (mkCursor (js "e") 0) = Some (Ok frames) /\
  in_sync zero_digest default_config sample_host (fold_left (deliver default_config) frames first_client).
Proof.
  destruct sample_run as [missed Hr].
  apply (reconnection_resynchronizes zero_digest (fun _ _ => Eq) default_config first_host missed sample_host first_client).
  - exact zero_digest_hex.
  - exact default_options_ok.
  - exact first_host_ok.
  - exact first_client_in_sync.
  - exact Hr.
  - exact sample_host_free.
  - exact sample_host_snapshotable.
Defined.

Lemma attach_misses_nothing_witness : exists prepared frames,
  prepareAttachOutput zero_digest first_host None = Some (Ok prepared) /\
  completeAttachOutput zero_digest prepared sample_host [] = Some (Ok frames) /\
  in_sync zero_digest default_config sample_host (fold_left (deliver default_config) frames createProjectionSnapshot).
Proof.
  destruct sample_run as [missed Hr].
  apply (attach_misses_nothing zero_digest (fun _ _ => Eq) default_config first_host missed sample_host createProjectionSnapshot None).
  - exact zero_digest_hex.
  - exact default_options_ok.
  - exact first_host_ok.
  - split; [apply createProjectionSnapshot_ok, default_options_ok|by intros ? ?].
  - exact first_host_free.
  - exact first_host_snapshotable.
  - exact Hr.
  - exact sample_host_free.
  - exact sample_host_snapshotable.
Defined.
