(* ===== verification/PromptLifecycle.v ===== *)
(** * PromptLifecycle: prompts between acceptance and their durable entry
    ([packages/host-service/src/prompt-lifecycle-controller.ts])

    The controller's lifecycles are shared mutable objects compared by identity, so they live in
    a heap and the maps hold their addresses.  What the controller needs of a session's
    projection is the class [PromptProjection]; the callbacks [projection], [broadcast] and
    [advanceStateRefreshGeneration] are parts of the state: the projections by session and two
    logs.  The time is an argument, SHA-256 and the text sanitiser [projectMessageText] of
    [discovery.ts] are parameters. *)
From stdpp Require Import base tactics option list numbers strings sets.
From S2P Require Import Prelude JsMap JsString JsValue HostProjection.

Definition PENDING_PROMPT_TEXT_BYTES : Z := 8 * 1024.
Definition PENDING_PROMPT_EVENT_TEXT_BYTES : Z := 24 * 1024.
Definition MAX_PENDING_PROMPTS : Z := 16.

(** ** What the controller asks of a projection *)

(** [SessionProjection], as far as the controller uses it, with the ids of its pending prompts. *)
Class PromptProjection (P F : Type) := {
  pp_addPendingPrompt : P -> json_object -> P * option F;
  pp_clearPendingPrompt : P -> jstr -> P * option F;
  pp_appendEvent : P -> json_object -> P * F;
  pp_prompts : P -> list jstr;
}.

(** Adding a prompt adds at most its id, clearing one removes it, events leave prompts alone. *)
Class PromptProjectionLaws (P F : Type) `{PromptProjection P F} : Prop := {
  add_prompts : forall p pending, pp_prompts (fst (pp_addPendingPrompt p pending)) ⊆ ref_text (js "entryId") pending :: pp_prompts p;
  clear_prompts : forall p id, pp_prompts (fst (pp_clearPendingPrompt p id)) ⊆ pp_prompts p /\
    id ∉ pp_prompts (fst (pp_clearPendingPrompt p id));
  event_prompts : forall p event, pp_prompts (fst (pp_appendEvent p event)) = pp_prompts p;
}.

(** ** State *)

Inductive PromptKind := KPrompt | KSteer | KFollowUp.
#[export] Instance PromptKind_eq_dec : EqDecision PromptKind.
Proof. solve_decision. Defined.

Inductive PromptDiscardReason := Rejected | LocalOnly | Failed | Cancelled | CompletedWithoutEntry.
Definition reason_text (r : PromptDiscardReason) : jstr :=
  match r with
  | Rejected => js "rejected" | LocalOnly => js "local-only" | Failed => js "failed" | Cancelled => js "cancelled"
  | CompletedWithoutEntry => js "completed-without-entry"
  end.

Record PromptLifecycle := mkLifecycle {
  pl_requestId : jstr;
  pl_commandId : jstr;
  pl_commandHash : jstr;
  pl_kind : PromptKind;
  pl_accepted : bool;
  pl_cancelRequested : bool;
  pl_internalId : option jstr;
  pl_transientEntryId : option jstr;
  pl_registeredAt : Z;
}.

Definition set_transient (l : PromptLifecycle) (id : option jstr) : PromptLifecycle :=
  mkLifecycle (pl_requestId l) (pl_commandId l) (pl_commandHash l) (pl_kind l) (pl_accepted l) (pl_cancelRequested l)
    (pl_internalId l) id (pl_registeredAt l).

Section Controller.
Context {P F : Type} `{PromptProjection P F}.
Context (sha256_hex : jstr -> jstr) (projectMessageText : jstr -> Z -> jstr).

Record PromptController := mkController {
  pc_heap : list PromptLifecycle;
  pc_activePrompts : jsmap jstr nat;
  pc_messages : jsmap jstr (list nat);
  pc_byCommandId : jsmap jstr nat;
  pc_projections : jsmap jstr P;
  pc_broadcasts : list (jstr * F);
  pc_generations : list jstr;
}.
Implicit Types (c : PromptController).

Definition set_lifecycle c (id : nat) (l : PromptLifecycle) : PromptController :=
  mkController (<[id := l]> (pc_heap c)) (pc_activePrompts c) (pc_messages c) (pc_byCommandId c) (pc_projections c) (pc_broadcasts c)
    (pc_generations c).
Definition set_projection c (session : jstr) (p : P) : PromptController :=
  mkController (pc_heap c) (pc_activePrompts c) (pc_messages c) (pc_byCommandId c) (map_set session p (pc_projections c)) (pc_broadcasts c)
    (pc_generations c).
Definition broadcast c (session : jstr) (frame : F) : PromptController :=
  mkController (pc_heap c) (pc_activePrompts c) (pc_messages c) (pc_byCommandId c) (pc_projections c) (pc_broadcasts c ++ [(session, frame)])
    (pc_generations c).
Definition broadcast_some c (session : jstr) (frame : option F) : PromptController :=
  match frame with Some f => broadcast c session f | None => c end.

(** ** Operations *)

Definition clear c : PromptController :=
  mkController (pc_heap c) [] [] [] (pc_projections c) (pc_broadcasts c) (pc_generations c).

Definition messages_of c (session : jstr) : list nat := default [] (map_get session (pc_messages c)).

Definition activeCount c : Z := sumZ (map (fun kv => len (snd kv)) (pc_messages c)).
Definition activePrompt c (session : jstr) : option nat := map_get session (pc_activePrompts c).
Definition setActivePrompt c (session : jstr) (id : nat) : PromptController :=
  mkController (pc_heap c) (map_set session id (pc_activePrompts c)) (pc_messages c) (pc_byCommandId c) (pc_projections c)
    (pc_broadcasts c) (pc_generations c).
Definition lifecycleForCommand c (commandId : jstr) : option nat := map_get commandId (pc_byCommandId c).
Definition pendingCount c (session : jstr) : Z := len (messages_of c session).
Definition has c (session : jstr) (id : nat) : bool := existsb (Nat.eqb id) (messages_of c session).

(** [register] *)
Definition register c (session : jstr) (id : nat) : PromptController * bool :=
  match pc_heap c !! id with
  | None => (c, false)
  | Some l =>
      let current := messages_of c session in
      if (MAX_PENDING_PROMPTS <=? len current) || map_has (pl_commandId l) (pc_byCommandId c) then (c, false)
      else (mkController (pc_heap c) (pc_activePrompts c) (map_set session (current ++ [id]) (pc_messages c))
              (map_set (pl_commandId l) id (pc_byCommandId c)) (pc_projections c) (pc_broadcasts c) (pc_generations c ++ [session]), true)
  end.

Definition find c (session : jstr) (internalId : option jstr) : option nat :=
  match internalId with
  | None => None
  | Some i => List.find (fun id => match pc_heap c !! id with Some l => bool_decide (pl_internalId l = Some i) | None => false end)
                (messages_of c session)
  end.

Definition without (session : jstr) (id : nat) (m : jsmap jstr nat) : jsmap jstr nat :=
  match map_get session m with Some x => if Nat.eqb x id then map_delete session m else m | None => m end.

Definition remove c (session : jstr) (id : nat) : PromptController * bool :=
  let current := messages_of c session in
  match pc_heap c !! id with
  | None => (c, false)
  | Some l =>
      if negb (has c session id) then (c, false)
      else
        let next := List.filter (fun x => negb (Nat.eqb x id)) current in
        (mkController (pc_heap c) (without session id (pc_activePrompts c))
           (if 0 <? len next then map_set session next (pc_messages c) else map_delete session (pc_messages c))
           (without (pl_commandId l) id (pc_byCommandId c)) (pc_projections c) (pc_broadcasts c) (pc_generations c ++ [session]), true)
  end.

(** A set [transientEntryId] is a string that is not empty. *)
Definition has_transient (l : PromptLifecycle) : bool := nonempty (pl_transientEntryId l).

Definition emitTransient c (session commandId : jstr) (id : nat) (message : jstr) (attachmentCount : Z) (at_ : jstr) : PromptController :=
  match pc_heap c !! id with
  | None => c
  | Some l =>
      if negb (has c session id) || has_transient l then c
      else
        let transientEntryId := js "user:" ++ take 32 (sha256_hex commandId) in
        let c := set_lifecycle c id (set_transient l (Some transientEntryId)) in
        match map_get session (pc_projections c) with
        | None => c
        | Some projection =>
            let (projection, pending) := pp_addPendingPrompt projection
              [(js "entryId", JStr transientEntryId); (js "text", JStr (projectMessageText message PENDING_PROMPT_TEXT_BYTES));
               (js "attachmentCount", JNum (num_of_Z attachmentCount)); (js "at", JStr at_)] in
            let c := broadcast_some c session pending in
            let (projection, event) := pp_appendEvent projection
              [(js "type", JStr (js "message.update")); (js "entryId", JStr transientEntryId); (js "role", JStr (js "user"));
               (js "text", JStr (projectMessageText message PENDING_PROMPT_EVENT_TEXT_BYTES)); (js "reasoning", JStr []);
               (js "attachmentCount", JNum (num_of_Z attachmentCount)); (js "at", JStr at_)] in
            broadcast (set_projection c session projection) session event
        end
  end.

(** The end of a transient entry in the projection: an event, then its pending prompt goes. *)
Definition finish_transient c (session : jstr) (transientEntryId : jstr) (event : json_object) : PromptController :=
  match map_get session (pc_projections c) with
  | None => c
  | Some projection =>
      let (projection, frame) := pp_appendEvent projection event in
      let c := broadcast c session frame in
      let (projection, pending) := pp_clearPendingPrompt projection transientEntryId in
      broadcast_some (set_projection c session projection) session pending
  end.

Definition settleTransient c (session : jstr) (lifecycle : option nat) (entryId at_ : jstr) : PromptController :=
  match lifecycle with
  | None => c
  | Some id =>
      match pc_heap c !! id with
      | None => c
      | Some l =>
          match pl_transientEntryId l with
          | Some transientEntryId =>
              if negb (has c session id) || (len transientEntryId =? 0) then c
              else
                let c := set_lifecycle c id (set_transient l None) in
                match map_get session (pc_projections c) with
                | None => c
                | Some _ =>
                    let c := finish_transient c session transientEntryId
                      [(js "type", JStr (js "message.settled")); (js "transientEntryId", JStr transientEntryId);
                       (js "entryId", JStr entryId); (js "at", JStr at_)] in
                    if bool_decide (pl_kind l = KPrompt) then c else fst (remove c session id)
                end
          | None => c
          end
      end
  end.

Definition discardTransient c (session : jstr) (id : nat) (reason : PromptDiscardReason) (at_ : jstr) : PromptController :=
  match pc_heap c !! id with
  | None => c
  | Some l =>
      match pl_transientEntryId l with
      | Some transientEntryId =>
          if len transientEntryId =? 0 then c
          else finish_transient (set_lifecycle c id (set_transient l None)) session transientEntryId
                 [(js "type", JStr (js "message.discarded")); (js "transientEntryId", JStr transientEntryId);
                  (js "reason", JStr (reason_text reason)); (js "at", JStr at_)]
      | None => c
      end
  end.

Definition release c (session : jstr) (lifecycle : option nat) (reason : PromptDiscardReason) (at_ : jstr) : PromptController * bool :=
  match lifecycle with
  | None => (c, false)
  | Some id => if negb (has c session id) then (c, false) else remove (discardTransient c session id reason at_) session id
  end.

Fixpoint release_each c (session : jstr) (ids : list nat) (reason : PromptDiscardReason) (at_ : jstr) (released : bool)
    : PromptController * bool :=
  match ids with
  | [] => (c, released)
  | id :: rest => let (c, r) := release c session (Some id) reason at_ in release_each c session rest reason at_ (released || r)
  end.
Definition releaseAll c (session : jstr) (reason : PromptDiscardReason) (at_ : jstr) : PromptController * bool :=
  release_each c session (messages_of c session) reason at_ false.

(** [stale], with the clock and the grace period as arguments. *)
Definition stale c (session : jstr) (now idleGraceMs : Z) : list nat :=
  List.filter (fun id => match pc_heap c !! id with Some l => idleGraceMs <=? now - pl_registeredAt l | None => false end)
    (messages_of c session).
End Controller.
Arguments PromptController P F : clear implicits.
