(* ===== verification/PromptLifecycleSpec.v ===== *)
(** * PromptLifecycleSpec: no prompt outlives its lifecycle

    Proved against the interface of the projection alone: the three indexes of the controller
    agree, and every pending prompt a projection shows belongs to a registered lifecycle. *)
From stdpp Require Import base tactics option list numbers strings sets.
From S2P Require Import Prelude JsMap JsString JsValue HostProjection PromptLifecycle.

Section Spec.
Context {P F : Type} `{PromptProjectionLaws P F}.
Context (sha256_hex : jstr -> jstr) (projectMessageText : jstr -> Z -> jstr).
Abbreviation controller := (PromptController P F).
Implicit Types (c : controller).

Definition registered c (session : jstr) (id : nat) : Prop := id ∈ messages_of c session.
Definition lifecycle c (id : nat) (l : PromptLifecycle) : Prop := pc_heap c !! id = Some l.

Lemma has_spec c session id : has c session id = true <-> registered c session id.
Proof.
  unfold has, registered. rewrite existsb_exists. split.
  - intros (x & Hx & ->%Nat.eqb_eq). by apply list_elem_of_In.
  - intros Hx. exists id. rewrite Nat.eqb_refl. split; [by apply list_elem_of_In|done].
Qed.

(** The indexes: lists without repetition and within their bound, one session and one command
    per registered lifecycle, and every command and active prompt registered. *)
Record indexes_ok c : Prop := {
  ix_messages : map_wf (pc_messages c);
  ix_lists : forall session, NoDup (messages_of c session) /\ len (messages_of c session) <= MAX_PENDING_PROMPTS;
  ix_command : forall session id, registered c session id ->
    exists l, lifecycle c id l /\ map_get (pl_commandId l) (pc_byCommandId c) = Some id;
  ix_registered : forall commandId id, map_get commandId (pc_byCommandId c) = Some id ->
    exists session l, registered c session id /\ lifecycle c id l /\ pl_commandId l = commandId;
  ix_session : forall s1 s2 id, registered c s1 id -> registered c s2 id -> s1 = s2;
  ix_active : forall session id, map_get session (pc_activePrompts c) = Some id -> registered c session id;
}.

(** Every pending prompt is the transient entry of a lifecycle registered for its session. *)
Definition no_orphans c : Prop := forall session p x, map_get session (pc_projections c) = Some p -> x ∈ pp_prompts p ->
  x ≠ [] /\ exists id l, registered c session id /\ lifecycle c id l /\ pl_transientEntryId l = Some x.

Definition prompts_ok c : Prop := indexes_ok c /\ no_orphans c.

(** *** Frames of the state *)

(** [c'] differs from [c] only in what no index depends on. *)
Record same_indexes c c' : Prop := {
  si_active : pc_activePrompts c' = pc_activePrompts c;
  si_messages : pc_messages c' = pc_messages c;
  si_commands : pc_byCommandId c' = pc_byCommandId c;
  si_heap : forall id l, lifecycle c id l -> exists l', lifecycle c' id l' /\ pl_commandId l' = pl_commandId l;
}.

Lemma same_indexes_refl c : same_indexes c c.
Proof. constructor; eauto. Qed.

Lemma same_indexes_trans c1 c2 c3 : same_indexes c1 c2 -> same_indexes c2 c3 -> same_indexes c1 c3.
Proof.
  intros [? ? ? H1] [? ? ? H2]. constructor; try congruence. intros id l (l' & Hl' & <-)%H1. destruct (H2 id l' Hl') as (l'' & ? & <-). eauto.
Qed.

Lemma indexes_same c c' : same_indexes c c' -> indexes_ok c -> indexes_ok c'.
Proof.
  intros [E1 E2 E3 Hh] [H1 H2 H3 H4 H5 H6].
  assert (forall s, messages_of c' s = messages_of c s) as Hm by (intros; unfold messages_of; by rewrite E2).
  constructor; rewrite ?E1, ?E2, ?E3; unfold registered in *; try setoid_rewrite Hm; try done.
  - intros s id (l & Hl & Hc)%H3. destruct (Hh id l Hl) as (l' & ? & El). exists l'. by rewrite El.
  - intros k id (s & l & Hr & Hl & <-)%H4. destruct (Hh id l Hl) as (l' & ? & El). by exists s, l'.
Qed.

Lemma registered_same c c' s id : same_indexes c c' -> registered c' s id <-> registered c s id.
Proof. intros []. unfold registered, messages_of. by rewrite si_messages0. Qed.

Lemma same_set_lifecycle c id l l' : lifecycle c id l -> pl_commandId l' = pl_commandId l -> same_indexes c (set_lifecycle c id l').
Proof.
  intros Hl El. constructor; try done. intros x lx Hx. unfold lifecycle, set_lifecycle in *. cbn [pc_heap].
  destruct (decide (x = id)) as [->|Hne]; [|rewrite list_lookup_insert_ne by done; eauto].
  exists l'. rewrite list_lookup_insert_eq by (by eapply lookup_lt_Some). split; [done|congruence].
Qed.

Lemma lifecycle_set c id l' x lx : lifecycle (set_lifecycle c id l') x lx -> x = id /\ lx = l' \/ x ≠ id /\ lifecycle c x lx.
Proof.
  unfold lifecycle, set_lifecycle. cbn [pc_heap]. intros [(-> & <- & _)|[? ?]]%list_lookup_insert_Some; [by left|right; split; [congruence|done]].
Qed.

Lemma set_lifecycle_other c id l' x lx : x ≠ id -> lifecycle c x lx -> lifecycle (set_lifecycle c id l') x lx.
Proof. intros Hx Hl. unfold lifecycle, set_lifecycle in *. cbn [pc_heap]. by rewrite list_lookup_insert_ne. Qed.

Lemma set_lifecycle_same c id l l' : lifecycle c id l -> lifecycle (set_lifecycle c id l') id l'.
Proof. intros Hl. unfold lifecycle, set_lifecycle in *. cbn [pc_heap]. apply list_lookup_insert_eq. by eapply lookup_lt_Some. Qed.

Lemma same_projection c s p : same_indexes c (set_projection c s p).
Proof. constructor; eauto. Qed.

Lemma same_broadcast c s f : same_indexes c (broadcast c s f).
Proof. constructor; eauto. Qed.

Lemma same_broadcast_some c s f : same_indexes c (broadcast_some c s f).
Proof. destruct f; [apply same_broadcast|apply same_indexes_refl]. Qed.

Lemma projections_broadcast c s f : pc_projections (broadcast_some c s f) = pc_projections c /\ pc_heap (broadcast_some c s f) = pc_heap c.
Proof. by destruct f. Qed.

(** *** Ending a transient entry *)

(** The prompt of one session is cleared and nothing else of the state the invariant speaks of
    changes. *)
Lemma finish_transient_facts c s x event :
  let c' := finish_transient c s x event in
  same_indexes c c' /\ pc_heap c' = pc_heap c /\
  (forall session, session ≠ s -> map_get session (pc_projections c') = map_get session (pc_projections c)) /\
  (forall p', map_get s (pc_projections c') = Some p' -> x ∉ pp_prompts p' /\
    exists p, map_get s (pc_projections c) = Some p /\ pp_prompts p' ⊆ pp_prompts p).
Proof.
  unfold finish_transient. destruct (map_get s (pc_projections c)) as [p|] eqn:Ep; [|split_and!; [apply same_indexes_refl|done|done|congruence]].
  pose proof (event_prompts (F:=F) p event) as He. destruct (pp_appendEvent p event) as [p1 f1]. cbn [fst] in He.
  pose proof (clear_prompts (F:=F) p1 x) as [Hs Hn]. destruct (pp_clearPendingPrompt p1 x) as [p2 f2]. cbn [fst] in Hs, Hn. rewrite He in Hs.
  destruct (projections_broadcast (set_projection (broadcast c s f1) s p2) s f2) as [Ep2 Eh2]. split_and!.
  - eapply same_indexes_trans; [|apply same_broadcast_some]. eapply same_indexes_trans; [apply same_broadcast|apply same_projection].
  - by rewrite Eh2.
  - intros session Hne. rewrite Ep2. cbn. by rewrite map_get_set_ne.
  - intros p'. rewrite Ep2. cbn. rewrite map_get_set_eq. intros [= <-]. eauto.
Qed.

(** Clearing the transient entry [x] of lifecycle [id] and its prompt. *)
Lemma finish_ok c s id l x event : prompts_ok c -> lifecycle c id l -> registered c s id -> pl_transientEntryId l = Some x ->
  let c' := finish_transient (set_lifecycle c id (set_transient l None)) s x event in
  prompts_ok c' /\ same_indexes c c' /\ (exists l', lifecycle c' id l' /\ pl_transientEntryId l' = None).
Proof.
  intros [Hix Hor] Hl Hr Hx. set (c1 := set_lifecycle c id (set_transient l None)).
  pose proof (same_set_lifecycle c id l (set_transient l None) Hl eq_refl) as Hs1. fold c1 in Hs1.
  destruct (finish_transient_facts c1 s x event) as (Hs2 & Hheap & Hoth & Hp). cbv zeta. set (c' := finish_transient c1 s x event) in *.
  pose proof (same_indexes_trans _ _ _ Hs1 Hs2) as Hs. split_and!; [split|done|].
  - by apply (indexes_same c).
  - assert (forall session y p, map_get session (pc_projections c) = Some p -> y ∈ pp_prompts p -> (session = s -> y ≠ x) ->
      y ≠ [] /\ exists i li, registered c' session i /\ lifecycle c' i li /\ pl_transientEntryId li = Some y) as Hkeep.
    { intros session y p Hg Hy Hne. destruct (Hor session p y Hg Hy) as (Hy0 & i & li & Hri & Hli & Ei). split; [done|]. exists i, li.
      split_and!; [by apply (registered_same c c')| |done]. unfold lifecycle. rewrite Hheap. apply set_lifecycle_other; [|done].
      intros ->. assert (session = s) as -> by (by eapply ix_session). apply Hne; [done|]. unfold lifecycle in *. congruence. }
    intros session p' y Hg Hy. destruct (decide (session = s)) as [->|Hne].
    + destruct (Hp p' Hg) as (Hn & p & Hgp & Hsub). apply (Hkeep s y p); [done|by apply Hsub|]. intros _ ->. done.
    + rewrite Hoth in Hg by done. by apply (Hkeep session y p').
  - exists (set_transient l None). split; [|done]. unfold lifecycle. rewrite Hheap. by eapply set_lifecycle_same.
Qed.

(** *** Removing a lifecycle *)

Lemma messages_set (m : jsmap jstr (list nat)) s s' ids :
  default [] (map_get s' (if 0 <? len ids then map_set s ids m else map_delete s m)) = if decide (s' = s) then ids else default [] (map_get s' m).
Proof.
  destruct (Z.ltb_spec 0 (len ids)) as [Hl|Hl].
  - rewrite map_get_set. by destruct (decide (s' = s)).
  - rewrite map_get_delete. destruct (decide (s' = s)); [|done]. assert (ids = []) as -> by (apply len_zero_nil; pose proof (len_nonneg ids); lia). done.
Qed.

Lemma without_get (m : jsmap jstr nat) s id k x :
  map_get k (without s id m) = Some x <-> map_get k m = Some x /\ (k = s -> x ≠ id).
Proof.
  unfold without. destruct (map_get s m) as [y|] eqn:E.
  - destruct (Nat.eqb_spec y id) as [->|Hy].
    + rewrite map_get_delete. destruct (decide (k = s)) as [->|]; [|naive_solver]. rewrite E. split; [done|]. intros [[= <-] Hne]. by destruct Hne.
    + split; [|naive_solver]. intros Hk. split; [done|]. intros ->. congruence.
  - split; [|naive_solver]. intros Hk. split; [done|]. intros ->. congruence.
Qed.

Lemma remove_ok c s id l : prompts_ok c -> registered c s id -> lifecycle c id l ->
  (forall x, pl_transientEntryId l = Some x -> x = []) \/ map_get s (pc_projections c) = None ->
  let c' := fst (remove c s id) in
  prompts_ok c' /\ (forall s' x, registered c' s' x <-> registered c s' x /\ x ≠ id) /\ pc_projections c' = pc_projections c /\ pc_heap c' = pc_heap c.
Proof.
  intros [Hix Hor] Hr Hl Ht. unfold remove. unfold lifecycle in Hl. rewrite Hl, (proj2 (has_spec c s id) Hr). cbn [negb fst].
  set (next := List.filter _ _). set (c' := mkController _ _ _ _ _ _ _). pose proof Hix as [H1 H2 H3 H4 H5 H6].
  assert (forall s', messages_of c' s' = if decide (s' = s) then next else messages_of c s') as Hm by (intros; apply messages_set).
  assert (forall x, x ∈ next <-> x ∈ messages_of c s /\ x ≠ id) as Hnext.
  { intros x. unfold next. rewrite elem_of_filter_list, negb_true_iff, Nat.eqb_neq. done. }
  assert (forall s' x, registered c' s' x <-> registered c s' x /\ x ≠ id) as Hreg.
  { intros s' x. unfold registered. rewrite Hm. destruct (decide (s' = s)) as [->|Hne]; [apply Hnext|].
    split; [|tauto]. intros Hx. split; [done|]. intros ->. apply Hne. by apply (H5 s' s id). }
  split_and!; [split|done|done|done].
  - constructor.
    + cbn [c' pc_messages]. destruct (0 <? _); [by apply map_wf_set|by apply map_wf_delete].
    + intros s'. rewrite Hm. destruct (decide (s' = s)) as [->|]; [|done]. destruct (H2 s) as [Hn Hb]. split; [by apply NoDup_filter_list|].
      pose proof (len_filter_le (fun x => negb (Nat.eqb x id)) (messages_of c s)) as Hlen. fold next in Hlen. lia.
    + intros s' x [Hx Hne]%Hreg. destruct (H3 s' x Hx) as (lx & Hlx & Hc). exists lx. split; [done|]. cbn [c' pc_byCommandId]. apply without_get.
      split; [done|]. done.
    + intros k x [Hk Hne]%without_get. destruct (H4 k x Hk) as (s' & lx & Hx & Hlx & Ek). exists s', lx. split_and!; [|done|done].
      apply Hreg. split; [done|]. intros ->. apply Hne; [|done]. unfold lifecycle in Hlx. congruence.
    + intros s1 s2 x [Hx1 _]%Hreg [Hx2 _]%Hreg. by eapply H5.
    + intros s' x [Hx Hne]%without_get. apply Hreg. split; [by apply H6|]. intros ->. apply Hne; [|done]. apply (H5 s' s id); [by apply H6|done].
  - intros s' p y Hg Hy. destruct (Hor s' p y Hg Hy) as (Hy0 & i & li & Hri & Hli & Ei). split; [done|]. exists i, li. split_and!; [|done|done].
    apply Hreg. split; [done|]. intros ->. assert (s' = s) as -> by (by eapply H5). cbn [c' pc_projections] in Hg.
    unfold lifecycle in *. destruct Ht as [Ht|Ht]; [|congruence]. apply Hy0, Ht. congruence.
Qed.

(** *** The operations *)

Lemma discard_ok c s id reason at_ : prompts_ok c -> registered c s id ->
  let c' := discardTransient c s id reason at_ in
  prompts_ok c' /\ same_indexes c c' /\ exists l', lifecycle c' id l' /\ forall x, pl_transientEntryId l' = Some x -> x = [].
Proof.
  intros Hok Hr. destruct (ix_command c (proj1 Hok) s id Hr) as (l & Hl & _). unfold discardTransient. unfold lifecycle in Hl. rewrite Hl.
  destruct (pl_transientEntryId l) as [x|] eqn:Ex; [|split_and!; [done|apply same_indexes_refl|exists l; split; [done|congruence]]].
  destruct (Z.eqb_spec (len x) 0) as [E|E].
  - apply len_zero_nil in E as ->. split_and!; [done|apply same_indexes_refl|exists l; split; [done|congruence]].
  - match goal with |- context [finish_transient _ _ _ ?e] => destruct (finish_ok c s id l x e Hok Hl Hr Ex) as (H1 & H2 & l' & Hl' & Et) end.
    split_and!; [done|done|exists l'; split; [done|congruence]].
Qed.

Lemma release_ok c s id reason at_ : prompts_ok c -> registered c s id ->
  let c' := fst (release c s (Some id) reason at_) in
  prompts_ok c' /\ (forall s' x, registered c' s' x <-> registered c s' x /\ x ≠ id).
Proof.
  intros Hok Hr. unfold release. rewrite (proj2 (has_spec c s id) Hr). cbn [negb].
  destruct (discard_ok c s id reason at_ Hok Hr) as (Hok1 & Hs & l' & Hl' & Ht). cbv zeta. set (c1 := discardTransient c s id reason at_) in *.
  destruct (remove_ok c1 s id l') as (Hok2 & Hreg & _); [done|by apply (registered_same c c1)|done|by left|].
  split; [done|]. intros s' x. rewrite Hreg. by rewrite (registered_same c c1).
Qed.

Lemma release_any c s lid reason at_ : prompts_ok c -> prompts_ok (fst (release c s lid reason at_)).
Proof.
  intros Hok. destruct lid as [id|]; [|done]. destruct (has c s id) eqn:E; [by apply release_ok, has_spec|]. unfold release. by rewrite E.
Qed.

Lemma release_each_ok ids c s reason at_ released : prompts_ok c ->
  let c' := fst (release_each c s ids reason at_ released) in
  prompts_ok c' /\ forall x, registered c' s x -> registered c s x /\ x ∉ ids.
Proof.
  revert c released. induction ids as [|id ids IH]; intros c released Hok; cbn [release_each].
  { split; [done|]. intros x Hx. split; [done|apply not_elem_of_nil]. }
  destruct (release c s (Some id) reason at_) as [c1 r] eqn:Er.
  assert (prompts_ok c1) as Hok1 by (pose proof (release_any c s (Some id) reason at_ Hok) as Hx; by rewrite Er in Hx).
  assert (forall x, registered c1 s x -> registered c s x /\ x ≠ id) as Hreg.
  { intros x Hx. destruct (has c s id) eqn:E.
    - destruct (release_ok c s id reason at_ Hok (proj1 (has_spec c s id) E)) as [_ Hr]. rewrite Er in Hr. by apply Hr.
    - unfold release in Er. rewrite E in Er. injection Er as <- _. split; [done|]. intros ->. apply has_spec in Hx. congruence. }
  destruct (IH c1 (released || r) Hok1) as [Hok2 Hr2]. split; [done|]. intros x [Hx Hn]%Hr2. destruct (Hreg x Hx) as [? ?].
  split; [done|]. by rewrite not_elem_of_cons.
Qed.

Lemma settle_transient_ok c s lid entryId at_ : prompts_ok c -> prompts_ok (settleTransient c s lid entryId at_).
Proof.
  intros Hok. unfold settleTransient. destruct lid as [id|]; [|done]. destruct (pc_heap c !! id) as [l|] eqn:El; [|done].
  destruct (pl_transientEntryId l) as [x|] eqn:Ex; [|done]. destruct (has c s id) eqn:Eh; [|done]. cbn [negb orb].
  destruct (Z.eqb_spec (len x) 0) as [_|Hx]; [done|]. apply has_spec in Eh.
  match goal with |- context [finish_transient _ _ _ ?e] => destruct (finish_ok c s id l x e Hok El Eh Ex) as (H1 & H2 & l' & Hl' & Et) end.
  destruct (map_get s (pc_projections (set_lifecycle c id (set_transient l None)))) as [p|] eqn:Ep.
  - destruct (bool_decide _); [done|]. eapply remove_ok; [done|by apply (registered_same c)|exact Hl'|]. left. intros y Hy. congruence.
  - unfold finish_transient in H1. by rewrite Ep in H1.
Qed.

Lemma emit_ok c s commandId id message count at_ : prompts_ok c ->
  prompts_ok (emitTransient sha256_hex projectMessageText c s commandId id message count at_).
Proof.
  intros Hok. unfold emitTransient. destruct (pc_heap c !! id) as [l|] eqn:El; [|done]. destruct (has c s id) eqn:Eh; [|done].
  destruct (has_transient l) eqn:Et; [done|]. cbn [negb orb]. apply has_spec in Eh. set (x := js "user:" ++ _). set (l1 := set_transient l (Some x)).
  set (c1 := set_lifecycle c id l1). pose proof (same_set_lifecycle c id l l1 El eq_refl) as Hs. fold c1 in Hs.
  assert (forall c2, same_indexes c1 c2 -> pc_heap c2 = pc_heap c1 ->
    (forall s' p y, map_get s' (pc_projections c2) = Some p -> y ∈ pp_prompts p ->
      (exists p0, map_get s' (pc_projections c) = Some p0 /\ y ∈ pp_prompts p0) \/ s' = s /\ y = x) -> prompts_ok c2) as Hdone.
  { intros c2 Hs2 Hh Hp. pose proof (same_indexes_trans _ _ _ Hs Hs2) as Hs'. split; [by apply (indexes_same c), Hok|].
    intros s' p y Hg Hy. destruct (Hp s' p y Hg Hy) as [(p0 & Hg0 & Hy0)|[-> ->]].
    - destruct (proj2 Hok s' p0 y Hg0 Hy0) as (Hne & i & li & Hri & Hli & Ei). split; [done|]. exists i, li.
      split_and!; [by apply (registered_same c c2)| |done]. unfold lifecycle. rewrite Hh. apply set_lifecycle_other; [|done]. intros ->.
      unfold lifecycle in Hli. rewrite El in Hli. injection Hli as <-. unfold has_transient, nonempty in Et. rewrite Ei in Et.
      apply Hne, len_zero_nil. apply negb_false_iff, Z.eqb_eq in Et. done.
    - split; [by unfold x|]. exists id, l1. split_and!; [by apply (registered_same c c2)| |done]. unfold lifecycle. rewrite Hh. by eapply set_lifecycle_same. }
  destruct (map_get s (pc_projections c1)) as [p|] eqn:Ep.
  2: { apply Hdone; [apply same_indexes_refl|done|]. intros s' p y Hg Hy. left. eauto. }
  pose proof (add_prompts (F:=F) p [(js "entryId", JStr x); (js "text", JStr (projectMessageText message PENDING_PROMPT_TEXT_BYTES));
    (js "attachmentCount", JNum (num_of_Z count)); (js "at", JStr at_)]) as Ha. destruct (pp_addPendingPrompt p _) as [p1 f1]. cbn [fst] in Ha.
  pose proof (event_prompts (F:=F) p1) as He. match goal with |- context [pp_appendEvent p1 ?e] => specialize (He e); destruct (pp_appendEvent p1 e) as [p2 f2] end.
  cbn [fst] in He. destruct (projections_broadcast c1 s f1) as [Epr Ehp]. apply Hdone.
  - eapply same_indexes_trans; [|apply same_broadcast]. eapply same_indexes_trans; [apply same_broadcast_some|apply same_projection].
  - cbn. by rewrite Ehp.
  - intros s' p' y. cbn. rewrite Epr. destruct (decide (s' = s)) as [->|Hne].
    + rewrite map_get_set_eq. intros [= <-]. rewrite He. intros Hy%Ha. apply elem_of_cons in Hy as [->|Hy]; [by right|left; eauto].
    + rewrite map_get_set_ne by done. intros Hg Hy. left. eauto.
Qed.

Lemma register_ok c s id : prompts_ok c -> prompts_ok (fst (register c s id)).
Proof.
  intros Hok. unfold register. destruct (pc_heap c !! id) as [l|] eqn:El; [|done]. destruct (_ || _) eqn:Eb; [done|].
  apply orb_false_iff in Eb as [Elen Ecmd]. apply Z.leb_gt in Elen. apply map_has_false in Ecmd. cbn [fst]. set (c' := mkController _ _ _ _ _ _ _).
  destruct Hok as [[H1 H2 H3 H4 H5 H6] Hor].
  assert (map_get (pl_commandId l) (pc_byCommandId c) = None) as Hnone by (by apply map_get_none_keys).
  assert (forall s', ~ registered c s' id) as Hfresh.
  { intros s' Hr. destruct (H3 s' id Hr) as (l' & Hl' & Hc). unfold lifecycle in Hl'. rewrite El in Hl'. injection Hl' as <-. congruence. }
  assert (forall s' x, registered c' s' x <-> registered c s' x \/ s' = s /\ x = id) as Hreg.
  { intros s' x. unfold registered, messages_of. cbn [c' pc_messages]. rewrite map_get_set. destruct (decide (s' = s)) as [->|Hne]; simpl.
    - fold (messages_of c s). rewrite elem_of_app, list_elem_of_singleton. naive_solver.
    - naive_solver. }
  split.
  - constructor.
    + by apply map_wf_set.
    + intros s'. unfold messages_of. cbn [c' pc_messages]. rewrite map_get_set. destruct (decide (s' = s)) as [->|]; [|apply H2]. simpl.
      fold (messages_of c s). destruct (H2 s) as [Hn _]. split; [|rewrite len_app; change (len [id]) with 1; lia].
      apply NoDup_app. split_and!; [done| |apply NoDup_singleton]. intros x Hx ->%list_elem_of_singleton. by eapply Hfresh.
    + intros s' x [Hx|[-> ->]]%Hreg; [|exists l; split; [done|]; cbn; apply map_get_set_eq].
      destruct (H3 s' x Hx) as (lx & Hlx & Hc). exists lx. split; [done|]. cbn. rewrite map_get_set_ne; [done|]. intros E. congruence.
    + intros k x. cbn [c' pc_byCommandId]. rewrite map_get_set. destruct (decide (k = pl_commandId l)) as [->|Hk].
      * intros [= <-]. exists s, l. split_and!; [apply Hreg; by right|done|done].
      * intros (s' & lx & Hx & Hlx & Ek)%H4. exists s', lx. split_and!; [apply Hreg; by left|done|done].
    + intros s1 s2 x [Hx1|[-> ->]]%Hreg [Hx2|[-> E]]%Hreg; subst; try done; [by eapply H5|exfalso; by eapply Hfresh..].
    + intros s' x Hx%H6. apply Hreg. by left.
  - intros s' p y Hg Hy. destruct (Hor s' p y Hg Hy) as (Hy0 & i & li & Hri & Hli & Ei). split; [done|]. exists i, li.
    split_and!; [apply Hreg; by left|done|done].
Qed.

(** *** Runs *)

(** What the server does with the controller: it creates lifecycles and marks them, registers,
    shows, settles and releases them, and installs, changes or drops projections without adding
    prompts of its own. *)
Inductive prompt_run : controller -> Prop :=
| prompts_new projections : (forall s p, map_get s projections = Some p -> pp_prompts p = []) ->
    prompt_run (mkController [] [] [] [] projections [] [])
| prompts_create c l : prompt_run c -> pl_transientEntryId l = None ->
    prompt_run (mkController (pc_heap c ++ [l]) (pc_activePrompts c) (pc_messages c) (pc_byCommandId c) (pc_projections c)
      (pc_broadcasts c) (pc_generations c))
| prompts_mark c id l l' : prompt_run c -> lifecycle c id l -> pl_commandId l' = pl_commandId l ->
    pl_transientEntryId l' = pl_transientEntryId l -> prompt_run (set_lifecycle c id l')
| prompts_register c s id : prompt_run c -> prompt_run (fst (register c s id))
| prompts_active c s id : prompt_run c -> has c s id = true -> prompt_run (setActivePrompt c s id)
| prompts_emit c s commandId id message count at_ : prompt_run c ->
    prompt_run (emitTransient sha256_hex projectMessageText c s commandId id message count at_)
| prompts_settle c s lid entryId at_ : prompt_run c -> prompt_run (settleTransient c s lid entryId at_)
| prompts_release c s lid reason at_ : prompt_run c -> prompt_run (fst (release c s lid reason at_))
| prompts_release_all c s reason at_ : prompt_run c -> prompt_run (fst (releaseAll c s reason at_))
| prompts_projection c s p' : prompt_run c ->
    (forall x, x ∈ pp_prompts p' -> exists p, map_get s (pc_projections c) = Some p /\ x ∈ pp_prompts p) -> prompt_run (set_projection c s p')
| prompts_drop c s : prompt_run c ->
    prompt_run (mkController (pc_heap c) (pc_activePrompts c) (pc_messages c) (pc_byCommandId c) (map_delete s (pc_projections c))
      (pc_broadcasts c) (pc_generations c)).

(** The invariant only depends on the indexes, the transient ids and the prompts shown. *)
Lemma prompts_ok_same c c' : prompts_ok c -> same_indexes c c' ->
  (forall id l, lifecycle c id l -> exists l', lifecycle c' id l' /\ pl_transientEntryId l' = pl_transientEntryId l) ->
  (forall s p' x, map_get s (pc_projections c') = Some p' -> x ∈ pp_prompts p' ->
    exists p, map_get s (pc_projections c) = Some p /\ x ∈ pp_prompts p) -> prompts_ok c'.
Proof.
  intros Hok Hs Ht Hp. split; [by apply (indexes_same c), Hok|]. intros s p' x Hg Hx. destruct (Hp s p' x Hg Hx) as (p & Hg0 & Hx0).
  destruct (proj2 Hok s p x Hg0 Hx0) as (Hne & i & li & Hri & Hli & Ei). split; [done|]. destruct (Ht i li Hli) as (l' & Hl' & El).
  exists i, l'. split_and!; [by apply (registered_same c c')|done|congruence].
Qed.

Lemma prompt_run_ok c : prompt_run c -> prompts_ok c.
Proof.
  induction 1 as [projections Hp|c l _ IH Ht|c id l l' _ IH Hl Ec Et|c s id _ IH|c s id _ IH Hh|c s k id m n a _ IH|c s lid e a _ IH|c s lid r a _ IH
    |c s r a _ IH|c s p' _ IH Hp|c s _ IH].
  - split.
    + constructor; try done; cbn; intros; try (by apply elem_of_nil in H1); [apply map_wf_nil|split; [apply NoDup_nil_2|done]|..]; by apply elem_of_nil in H2.
    + intros s p x Hg Hx. rewrite (Hp s p Hg) in Hx. by apply elem_of_nil in Hx.
  - assert (forall id li, lifecycle c id li -> (pc_heap c ++ [l]) !! id = Some li) as Hold by (intros; by apply lookup_app_l_Some).
    apply (prompts_ok_same c); [done|constructor; try done; intros id li Hli; exists li; split; [by apply Hold|done]| |eauto].
    intros id li Hli. exists li. split; [by apply Hold|done].
  - apply (prompts_ok_same c); [done|by apply (same_set_lifecycle c id l)| |eauto]. intros x lx Hx. destruct (decide (x = id)) as [->|Hne].
    + exists l'. split; [by eapply set_lifecycle_same|]. unfold lifecycle in *. congruence.
    + exists lx. split; [by apply set_lifecycle_other|done].
  - by apply register_ok.
  - destruct IH as [[H1 H2 H3 H4 H5 H6] Hor]. split; [|exact Hor]. constructor; try done. intros s' x. cbn. rewrite map_get_set.
    destruct (decide (s' = s)) as [->|]; [intros [= <-]; by apply has_spec in Hh|apply H6].
  - by apply emit_ok.
  - by apply settle_transient_ok.
  - by apply release_any.
  - by apply release_each_ok.
  - apply (prompts_ok_same c); [done|apply same_projection|eauto|]. intros s' q x. cbn. rewrite map_get_set.
    destruct (decide (s' = s)) as [->|]; [intros [= <-]; auto|eauto].
  - apply (prompts_ok_same c); [done|constructor; eauto|eauto|]. intros s' q x. cbn. rewrite map_get_delete. destruct (decide (s' = s)); [done|eauto].
Qed.
End Spec.

(** C29: The prompt controller's indexes agree, and a session never shows a prompt that nothing will
    settle.  In every state the server can bring the controller to, whatever implements the
    projection: a session has at most 16 lifecycles, none twice; a registered lifecycle belongs
    to one session and is the one its command id leads to; every indexed command and every
    active prompt is registered; and every pending prompt a projection shows is the transient
    entry of a lifecycle still registered for that session. *)
Theorem prompt_controller_invariant {P F} `{PromptProjectionLaws P F} sha256_hex projectMessageText (c : PromptController P F) :
  prompt_run sha256_hex projectMessageText c -> prompts_ok c.
Proof. apply prompt_run_ok. Qed.

(** Releasing a session's prompts leaves nothing behind.  Whatever state the controller is in,
    after [releaseAll] the session has no lifecycle, no active prompt, and its projection shows
    no pending prompt. *)
Theorem releaseAll_leaves_nothing {P F} `{PromptProjectionLaws P F} sha256_hex projectMessageText (c : PromptController P F) session reason at_ :
  prompt_run sha256_hex projectMessageText c ->
  let c' := fst (releaseAll c session reason at_) in
  messages_of c' session = [] /\ activePrompt c' session = None /\
  forall p, map_get session (pc_projections c') = Some p -> pp_prompts p = [].
Proof.
  intros Hr. pose proof (prompt_run_ok _ _ c Hr) as Hok. destruct (release_each_ok sha256_hex projectMessageText (messages_of c session) c session reason at_ false Hok) as [[Hix Hor] Hreg].
  unfold releaseAll. cbv zeta in *. set (c' := fst (release_each _ _ _ _ _ _)) in *.
  assert (forall x, ~ registered c' session x) as Hnone by (intros x [Hx Hn]%Hreg; done).
  split_and!.
  - destruct (messages_of c' session) as [|x l] eqn:E; [done|]. exfalso. apply (Hnone x). unfold registered. rewrite E. by left.
  - unfold activePrompt. destruct (map_get session (pc_activePrompts c')) as [x|] eqn:E; [|done]. exfalso. eapply Hnone. by eapply ix_active.
  - intros p Hp. destruct (pp_prompts p) as [|x l] eqn:E; [done|]. exfalso.
    destruct (Hor session p x Hp) as (_ & id & li & Hri & _); [rewrite E; by left|]. by eapply Hnone.
Qed.
