(* ===== verification/PromptHost.v ===== *)
(** * PromptHost: the host's projection as the prompt controller sees it

    [SessionProjection] implements the interface of the prompt controller and keeps its laws. *)
From stdpp Require Import base tactics option list numbers strings sets.
From S2P Require Import Prelude JsMap JsString JsValue HostProjection JsObject RetentionSpec SnapshotSpec.
From S2P Require Import HostInvariant PromptLifecycle PromptLifecycleSpec.

Section Instance_.
Context (sha256_hex : jstr -> jstr).
Implicit Types (h : Projection).

Definition prompt_ids h : list jstr := map (ref_text (js "entryId")) (pendingPrompts h).

#[export] Instance host_prompt_projection : PromptProjection Projection HostFrame := {
  pp_addPendingPrompt := addPendingPrompt sha256_hex;
  pp_clearPendingPrompt := clearPendingPrompt sha256_hex;
  pp_appendEvent := appendEvent;
  pp_prompts := prompt_ids;
}.

(** ** The prompts after an update *)

Lemma valid_prompts_map l : omap valid_prompt (map JObj l) `sublist_of` l.
Proof.
  induction l as [|o l IH]; [done|].
  change (match valid_prompt (JObj o) with Some y => y :: omap valid_prompt (map JObj l) | None => omap valid_prompt (map JObj l) end `sublist_of` o :: l).
  destruct (valid_prompt (JObj o)) as [y|] eqn:E; [|by constructor].
  assert (y = o) as -> by (unfold valid_prompt in E; repeat case_match; congruence). by constructor.
Qed.

Definition next_live h (l : list json_object) : json_object :=
  let live := odel (js "pendingPrompt") (osub (js "liveState") (h_ref h)) in
  if len l =? 0 then odel (js "pendingPrompts") live else oset (js "pendingPrompts") (JArr (map JObj l)) live.

Lemma osub_set_live live ref : osub (js "liveState") (set_live live ref) = live.
Proof.
  unfold set_live, osub. destruct (Z.eqb_spec (len live) 0) as [E|E]; [|by rewrite prop_set_eq].
  rewrite prop_del_eq. by apply len_zero_nil in E as ->.
Qed.

Lemma updatePendingPrompts_cases h l : let h' := fst (updatePendingPrompts sha256_hex h l) in
  (h' = h /\ same_json (set_live (next_live h l) (h_ref h)) (h_ref h) = true) \/ pendingPrompts h' = omap valid_prompt (map JObj l).
Proof.
  unfold updatePendingPrompts. fold (next_live h l). unfold update_if_changed. destruct (same_json _ _) eqn:E; [by left|right].
  unfold pendingPrompts, updateRef. cbn [fst h_ref set_host_ref]. set (ref := set_live (next_live h l) (h_ref h)).
  assert (osub (js "liveState") (oset (js "revision") (JStr (revision_of sha256_hex (h_hashed h ++ (js "pending-prompts:" ++ join_ids l) ++ js ":" ++ serialize (JObj ref) ++ [0x0A]%N))) ref)
    = next_live h l) as ->.
  { unfold osub. rewrite prop_set_ne by done. fold (osub (js "liveState") ref). apply osub_set_live. }
  unfold next_live. destruct (Z.eqb_spec (len l) 0) as [El|El]; [|by rewrite prop_set_eq].
  rewrite prop_del_eq. by apply len_zero_nil in El as ->.
Qed.

(** ** Clearing changes what is printed *)

Lemma valid_prompts_sublist l : map JObj (omap valid_prompt l) `sublist_of` l.
Proof.
  induction l as [|v l IH]; [done|]. cbn [omap list_omap]. destruct (valid_prompt v) as [o|] eqn:E; [|by constructor].
  assert (v = JObj o) as -> by (unfold valid_prompt in E; repeat case_match; congruence). cbn [map]. by constructor.
Qed.

Lemma object_bytes_pos o : 0 < json_bytes (JObj o).
Proof.
  rewrite json_bytes_object. assert (0 <= sumZ (map prop_bytes (printed o))); [|unfold seps; lia].
  apply sumZ_nonneg, Forall_map, Forall_true. intros x. pose proof (prop_bytes_pos x). lia.
Qed.

(** Dropping a valid prompt makes the array print shorter. *)
Lemma kept_prompts_bytes (P : json_object -> bool) l :
  len (List.filter P (omap valid_prompt l)) < len (omap valid_prompt l) ->
  json_bytes (JArr (map JObj (List.filter P (omap valid_prompt l)))) < json_bytes (JArr l).
Proof.
  intros Hlt. eapply Z.lt_le_trans; [|apply (array_bytes_sublist l), valid_prompts_sublist].
  apply array_bytes_strict; [apply sublist_map, filter_sublist|by rewrite !len_map|].
  intros x (o & -> & _)%list_elem_of_fmap. apply object_bytes_pos.
Qed.

(** The ref printed after some prompts are dropped is shorter than before. *)
Lemma dropped_prompts_differ h (P : json_object -> bool) :
  len (List.filter P (pendingPrompts h)) < len (pendingPrompts h) ->
  same_json (set_live (next_live h (List.filter P (pendingPrompts h))) (h_ref h)) (h_ref h) = false.
Proof.
  intros Hlt. destruct (same_json _ _) eqn:E; [|done]. exfalso. apply same_json_bytes in E. revert Hlt E.
  unfold pendingPrompts. destruct (prop (js "liveState") (h_ref h)) as [| | | | | |live] eqn:El; unfold osub; rewrite ?El; try (cbn; lia).
  destruct (prop (js "pendingPrompts") live) as [| | | | |l|] eqn:Ep; try (cbn; lia). intros Hlt E.
  pose proof (kept_prompts_bytes P l Hlt) as Hb. set (next := List.filter P (omap valid_prompt l)) in *.
  set (live1 := odel (js "pendingPrompt") live). destruct (object_bytes_del (js "pendingPrompt") live) as [Hle _]. fold live1 in Hle.
  assert (prop (js "pendingPrompts") live1 = JArr l) as Ep1 by (unfold live1; by rewrite prop_del_ne).
  assert (map_get (js "pendingPrompts") live1 = Some (JArr l)) as Eg1 by (unfold prop in Ep1; destruct (map_get _ live1); congruence).
  assert (map_get (js "liveState") (h_ref h) = Some (JObj live)) as Eg by (unfold prop in El; destruct (map_get _ (h_ref h)); congruence).
  assert (next_live h next = if len next =? 0 then odel (js "pendingPrompts") live1 else oset (js "pendingPrompts") (JArr (map JObj next)) live1) as Hn
    by (unfold next_live, osub; by rewrite El).
  assert (json_bytes (JObj (next_live h next)) < json_bytes (JObj live)) as Hlive.
  { rewrite Hn. destruct (len next =? 0).
    - destruct (object_bytes_del (js "pendingPrompts") live1) as [_ Hd]. specialize (Hd ltac:(by rewrite Ep1)). lia.
    - rewrite (object_bytes_set _ _ (JArr l)) by done. lia. }
  unfold set_live in E. destruct (len (next_live h next) =? 0).
  - destruct (object_bytes_del (js "liveState") (h_ref h)) as [_ Hd]. specialize (Hd ltac:(by rewrite El)). lia.
  - rewrite (object_bytes_set _ _ (JObj live)) in E by done. lia.
Qed.

Lemma clearPendingPrompt_ids h id :
  prompt_ids (fst (clearPendingPrompt sha256_hex h id)) ⊆ prompt_ids h /\ id ∉ prompt_ids (fst (clearPendingPrompt sha256_hex h id)).
Proof.
  unfold clearPendingPrompt. set (P := fun p => negb (jstr_eqb (ref_text (js "entryId") p) id)).
  assert (id ∉ map (ref_text (js "entryId")) (List.filter P (pendingPrompts h))) as Hn.
  { intros (p & Ep & Hp)%list_elem_of_fmap. apply elem_of_filter_list in Hp as [_ Hp]. unfold P in Hp. rewrite <- Ep, jstr_eqb_refl in Hp. done. }
  pose proof (len_filter_le P (pendingPrompts h)) as Hle.
  destruct (Z.eqb_spec (len (List.filter P (pendingPrompts h))) (len (pendingPrompts h))) as [E|E].
  - split; [done|]. intros Hin. apply Hn. cbn [fst] in Hin.
    assert (List.filter P (pendingPrompts h) = pendingPrompts h) as ->; [|done].
    pose proof (filter_sublist P (pendingPrompts h)) as Hs. apply sublist_submseteq in Hs.
    unfold len in E. clear -E. revert E. induction (pendingPrompts h) as [|x l IH]; [done|]. simpl.
    assert (length (List.filter P l) <= length l)%nat by (clear; induction l as [|y l IH]; simpl; [lia|]; destruct (P y); simpl; lia).
    destruct (P x); simpl; intros; [f_equal; apply IH; lia|lia].
  - destruct (updatePendingPrompts_cases h (List.filter P (pendingPrompts h))) as [[_ Hs]|Hp].
    + rewrite dropped_prompts_differ in Hs by lia. done.
    + unfold prompt_ids at 1 3. rewrite Hp. split.
      * intros x (p & -> & Hin)%list_elem_of_fmap. apply (sublist_elem _ _ _ (valid_prompts_map _)) in Hin. apply elem_of_filter_list in Hin as [Hin _].
        by apply list_elem_of_fmap_2.
      * intros (p & Ep & Hin)%list_elem_of_fmap. apply Hn. rewrite Ep. apply list_elem_of_fmap_2. by apply (sublist_elem _ _ _ (valid_prompts_map _)) in Hin.
Qed.

#[export] Instance host_prompt_laws : PromptProjectionLaws Projection HostFrame.
Proof.
  constructor.
  - intros h pending x. cbn. unfold addPendingPrompt. destruct (existsb _ _); [intros Hx; by right|].
    destruct (updatePendingPrompts_cases h (pendingPrompts h ++ [pending])) as [[-> _]|Hp]; [intros Hx; by right|].
    unfold prompt_ids at 1. rewrite Hp. intros (p & -> & Hin)%list_elem_of_fmap. apply (sublist_elem _ _ _ (valid_prompts_map _)) in Hin.
    apply elem_of_app in Hin as [Hin|Hin]; [right; by apply list_elem_of_fmap_2|]. apply list_elem_of_singleton in Hin as ->. by left.
  - intros h id. apply clearPendingPrompt_ids.
  - intros h event. done.
Qed.
End Instance_.

(** ** A prompt shown and released *)

Definition sample_lifecycle : PromptLifecycle :=
  mkLifecycle (js "r1") (js "c1") (js "hash") KPrompt false false None None 0.
Definition plain_text (s : jstr) (_ : Z) : jstr := s.

#[local] Instance sample_projections : PromptProjection Projection HostFrame := host_prompt_projection zero_digest.
#[local] Instance sample_laws : PromptProjectionLaws Projection HostFrame := host_prompt_laws zero_digest.

Definition unprompted : PromptController Projection HostFrame :=
  mkController [] [] [] [] [(js "s", new_projection zero_digest (js "h") sample_record (js "e") 256)] [] [].
Definition prompting : PromptController Projection HostFrame :=
  emitTransient zero_digest plain_text
    (fst (register (mkController [sample_lifecycle] [] [] [] (pc_projections unprompted) [] []) (js "s") 0)) (js "s") (js "c1") 0
    (js "hello") 0 (js "t").

Lemma unprompted_new s p : map_get s (pc_projections unprompted) = Some p -> pp_prompts p = [].
Proof.
  cbn [unprompted pc_projections map_get]. destruct (decide _); [|done]. intros [= <-]. vm_compute. reflexivity.
Qed.

Lemma prompting_run : prompt_run zero_digest plain_text prompting.
Proof.
  apply prompts_emit, prompts_register, (prompts_create _ _ unprompted sample_lifecycle); [|done]. apply prompts_new, unprompted_new.
Qed.

Lemma prompt_controller_invariant_witness : prompts_ok prompting /\ messages_of prompting (js "s") = [0%nat] /\
  option_map pp_prompts (map_get (js "s") (pc_projections prompting)) = Some [js "user:" ++ take 32 (zero_digest (js "c1"))].
Proof.
  split; [exact (prompt_controller_invariant zero_digest plain_text prompting prompting_run)|]. by vm_compute.
Defined.

Lemma releaseAll_leaves_nothing_witness : let c' := fst (releaseAll prompting (js "s") Cancelled (js "t2")) in
  messages_of c' (js "s") = [] /\ activePrompt c' (js "s") = None /\
  forall p, map_get (js "s") (pc_projections c') = Some p -> pp_prompts p = [].
Proof. exact (releaseAll_leaves_nothing zero_digest plain_text prompting (js "s") Cancelled (js "t2") prompting_run). Defined.
