(* ===== verification/Idempotency.v ===== *)
(** * Idempotency: commands that run at most once
    ([packages/host-service/src/idempotency.ts])

    The store is a record; a promise is a number, with the list of resolutions so far, so that
    waiters and their outcomes are visible.  The clock is an argument of every operation: a
    reading in whole milliseconds, or [None] for one that is not finite.  A thrown error is
    [Threw]; the store is returned beside it, because the code prunes before it throws. *)
From stdpp Require Import base tactics option list numbers strings sets.
From S2P Require Import Prelude JsMap JsString JsValue RetentionSpec.

(** [types.ts] *)
Record CommandOutcome := mkOutcome {
  co_frame : jv;
  co_attachOutput : option jv;
  co_operationEvents : option (list jv);
  co_unknown : option bool;
}.

(** ** Payload hashes *)

Definition compare_keys (a b : jstr * jv) : comparison :=
  if jstr_lt (fst a) (fst b) then Lt else if jstr_lt (fst b) (fst a) then Gt else Eq.

Definition from_entries (l : list (jstr * jv)) : list (jstr * jv) :=
  fold_left (fun o kv => obj_define (fst kv) (snd kv) o) l [].

(** [key !== "requestId" && key !== "confirmationId"] *)
Definition payload_key (k : jstr) : bool := negb (jstr_eqb k (js "requestId")) && negb (jstr_eqb k (js "confirmationId")).

(** [semantic]; children are always normalised without omission, so they are normalised before
    the keys are filtered and sorted. *)
Fixpoint semantic (value : jv) (omitEnvelopeIdentifiers : bool) : jv :=
  match value with
  | JArr items => JArr (map (fun item => semantic item false) items)
  | JObj props =>
      JObj (from_entries (sort compare_keys
        (List.filter (fun kv => negb omitEnvelopeIdentifiers || payload_key (fst kv))
          (map (fun kv => (fst kv, semantic (snd kv) false)) props))))
  | _ => value
  end.

(** ** The store *)

Definition DEFAULT_COMPLETED_TTL_MS : Z := 5 * 60000.
Definition DEFAULT_MAX_COMPLETED_ENTRIES : Z := 1024.

Record IdempotencyEntry := mkIdem {
  ie_hash : jstr;
  ie_outcome : option CommandOutcome;
  ie_pending : option nat;  (* the promise *)
  ie_resolve : option nat;  (* the promise this resolves *)
  ie_completedAt : option Z;
}.

Inductive IdempotencyResult := INew | IPending (promise : nat) | IReplay (outcome : CommandOutcome) | IConflict (hash : jstr).

Record IdempotencyStore := mkStore {
  is_entries : jsmap jstr IdempotencyEntry;
  is_ttl : Z;
  is_max : Z;
  is_promises : nat;                            (* promises created so far *)
  is_resolved : list (nat * CommandOutcome);    (* in order of resolution *)
}.

Definition with_entries (s : IdempotencyStore) (entries : jsmap jstr IdempotencyEntry) : IdempotencyStore :=
  mkStore entries (is_ttl s) (is_max s) (is_promises s) (is_resolved s).

Definition new_store (completedTtlMs : option Z) (maxCompletedEntries : option Z) : attempt IdempotencyStore :=
  let ttl := default DEFAULT_COMPLETED_TTL_MS completedTtlMs in
  let max := default DEFAULT_MAX_COMPLETED_ENTRIES maxCompletedEntries in
  if ttl <=? 0 then Threw (js "completedTtlMs must be a positive finite number")
  else if (max <=? 0) || (MAX_SAFE_INTEGER <? max) then Threw (js "maxCompletedEntries must be a positive safe integer")
  else Done (mkStore [] ttl max 0 []).

Definition expired (ttl now : Z) (e : IdempotencyEntry) : bool :=
  match ie_completedAt e with Some t => (t <=? now) && (ttl <=? now - t) | None => false end.
Definition is_completed (e : IdempotencyEntry) : bool := match ie_completedAt e with Some _ => true | None => false end.
Definition completed_count (m : jsmap jstr IdempotencyEntry) : Z := len (List.filter (fun kv => is_completed (snd kv)) m).

(** The second loop of [#prune]: completed entries leave in map order while too many remain. *)
Fixpoint evict_completed (max completed : Z) (m : jsmap jstr IdempotencyEntry) : jsmap jstr IdempotencyEntry :=
  if completed <=? max then m
  else match m with
       | [] => []
       | kv :: rest => if is_completed (snd kv) then evict_completed max (completed - 1) rest
                       else kv :: evict_completed max completed rest
       end.

Definition prune (s : IdempotencyStore) (now : Z) : IdempotencyStore :=
  let live := List.filter (fun kv => negb (expired (is_ttl s) now (snd kv))) (is_entries s) in
  with_entries s (evict_completed (is_max s) (completed_count live) live).

(** [#touch]: the entry becomes the most recent one. *)
Definition touch_entry (s : IdempotencyStore) (commandId : jstr) (e : IdempotencyEntry) : IdempotencyStore :=
  with_entries s (map_set commandId e (map_delete commandId (is_entries s))).

Definition settle (s : IdempotencyStore) (commandId : jstr) (current : IdempotencyEntry) (outcome : CommandOutcome) (now : Z)
    : IdempotencyStore :=
  match ie_completedAt current with
  | Some _ => s
  | None =>
      let s := touch_entry s commandId (mkIdem (ie_hash current) (Some outcome) None None (Some now)) in
      let resolved := match ie_resolve current with Some g => is_resolved s ++ [(g, outcome)] | None => is_resolved s end in
      prune (mkStore (is_entries s) (is_ttl s) (is_max s) (is_promises s) resolved) now
  end.

Definition clock_error : jstr := js "idempotency clock must return a finite number".

Section Store.
Context (sha256_hex : jstr -> jstr).

Definition payloadHash (value : jv) : jstr := sha256_hex (serialize (semantic value true)).

Definition begin (s : IdempotencyStore) (clock : option Z) (commandId : jstr) (payload : jv)
    : IdempotencyStore * attempt IdempotencyResult :=
  match clock with
  | None => (s, Threw clock_error)
  | Some now =>
      let s := prune s now in
      let hash := payloadHash payload in
      match map_get commandId (is_entries s) with
      | None =>
          let g := is_promises s in
          (mkStore (map_set commandId (mkIdem hash None (Some g) (Some g) None) (is_entries s)) (is_ttl s) (is_max s) (S g) (is_resolved s),
           Done INew)
      | Some existing =>
          if negb (jstr_eqb (ie_hash existing) hash) then (s, Done (IConflict hash))
          else match ie_outcome existing with
               | Some outcome => (touch_entry s commandId existing, Done (IReplay outcome))
               | None =>
                   match ie_pending existing with
                   | Some g => (s, Done (IPending g))
                   | None => (s, Threw (js "idempotency entry has neither a pending nor completed outcome"))
                   end
               end
      end
  end.

Definition complete (s : IdempotencyStore) (clock : option Z) (commandId : jstr) (payload : jv) (outcome : CommandOutcome)
    : IdempotencyStore * attempt unit :=
  match clock with
  | None => (s, Threw clock_error)
  | Some now =>
      let s := prune s now in
      let hash := payloadHash payload in
      match map_get commandId (is_entries s) with
      | None => (prune (with_entries s (map_set commandId (mkIdem hash (Some outcome) None None (Some now)) (is_entries s))) now, Done tt)
      | Some current =>
          if negb (jstr_eqb (ie_hash current) hash) then (s, Threw (js "cannot complete a command with a conflicting payload"))
          else (settle s commandId current outcome now, Done tt)
      end
  end.
End Store.

Definition unknown_outcome (commandId : jstr) : CommandOutcome :=
  mkOutcome (JObj [(js "v", JStr (js "omp-app/1")); (js "type", JStr (js "error")); (js "code", JStr (js "outcome_unknown"));
    (js "message", JStr (js "child ended before command outcome")); (js "requestId", JStr commandId)]) None None (Some true).

Definition unknown (s : IdempotencyStore) (clock : option Z) (commandId : jstr) : IdempotencyStore * attempt unit :=
  match map_get commandId (is_entries s) with
  | None => (s, Done tt)
  | Some current =>
      match clock with
      | None => (s, Threw clock_error)
      | Some now => (settle s commandId current (unknown_outcome commandId) now, Done tt)
      end
  end.
