(* ===== verification/IdempotencySpec.v ===== *)
(** * IdempotencySpec: what the idempotency store promises

    Which payloads count as the same command, the store's invariant, and that a command id is
    given out for execution at most once until its outcome is settled. *)
From stdpp Require Import base tactics option list numbers strings sets sorting.
From S2P Require Import Prelude JsMap JsString JsValue RetentionSpec Idempotency.

(** ** Payloads *)

(** Equal up to the order of object properties, at every depth. *)
Inductive same_value : jv -> jv -> Prop :=
| same_refl v : same_value v v
| same_array l l' : Forall2 same_value l l' -> same_value (JArr l) (JArr l')
| same_object o o' o'' : o ≡ₚ o'' -> Forall2 (fun a b => fst a = fst b /\ same_value (snd a) (snd b)) o'' o' ->
    same_value (JObj o) (JObj o').

Definition key_le (a b : jstr * jv) : Prop := jstr_lt (fst b) (fst a) = false.

Lemma key_le_trans a b c : key_le a b -> key_le b c -> key_le a c.
Proof.
  unfold key_le. intros Hab Hbc. destruct (jstr_lt (fst c) (fst a)) eqn:E; [|done].
  destruct (jstr_lt (fst a) (fst b)) eqn:Eab; [by rewrite (jstr_lt_trans _ _ _ E Eab) in Hbc|].
  by rewrite (jstr_lt_total _ _ Eab Hab), Hbc in E.
Qed.

Lemma jstr_lt_asym a b : jstr_lt a b = true -> jstr_lt b a = false.
Proof. intros H. destruct (jstr_lt b a) eqn:E; [|done]. pose proof (jstr_lt_trans _ _ _ H E) as Hr. by rewrite jstr_lt_irrefl in Hr. Qed.

Lemma insert_keys_perm x l : insert_sorted compare_keys x l ≡ₚ x :: l.
Proof. induction l as [|y l IH]; simpl; [done|]. destruct (compare_keys x y); try done. rewrite IH. constructor. Qed.

Lemma sort_keys_perm l : sort compare_keys l ≡ₚ l.
Proof. induction l as [|x l IH]; [done|]. unfold sort in *. simpl. by rewrite insert_keys_perm, IH. Qed.

Lemma insert_keys_sorted x l : StronglySorted key_le l -> StronglySorted key_le (insert_sorted compare_keys x l).
Proof.
  induction 1 as [|y l Hs IH Hall]; simpl; [by repeat constructor|].
  assert (compare_keys x y ≠ Gt -> key_le x y) as Hle.
  { unfold compare_keys, key_le. destruct (jstr_lt (fst x) (fst y)) eqn:E; [by intros _; apply jstr_lt_asym|].
    by destruct (jstr_lt (fst y) (fst x)). }
  destruct (compare_keys x y) eqn:E.
  3: { constructor; [done|]. rewrite insert_keys_perm. constructor; [|done]. unfold compare_keys in E. unfold key_le.
       by destruct (jstr_lt (fst x) (fst y)). }
  all: constructor; [by constructor|]; constructor; [by apply Hle|]; eapply Forall_impl; [exact Hall|];
    intros z; apply key_le_trans; by apply Hle.
Qed.

Lemma sort_keys_sorted l : StronglySorted key_le (sort compare_keys l).
Proof. induction l as [|x l IH]; [constructor|]. unfold sort in *. simpl. by apply insert_keys_sorted. Qed.

Lemma nodup_keys_fst (l : list (jstr * jv)) a b : NoDup (map fst l) -> a ∈ l -> b ∈ l -> fst a = fst b -> a = b.
Proof.
  induction l as [|x l IH]; intros Hn Ha Hb E; [by apply elem_of_nil in Ha|]. cbn [map] in Hn. apply NoDup_cons in Hn as [Hx Hn].
  assert (forall y, y ∈ l -> fst y ∈ map fst l) as Hin by (intros y Hy; by apply list_elem_of_fmap_2).
  apply elem_of_cons in Ha as [->|Ha], Hb as [->|Hb]; [done|exfalso; apply Hx..|by apply IH].
  - rewrite E. auto.
  - rewrite <- E. auto.
Qed.

(** Sorting distinct keys forgets their order. *)
Lemma sort_keys_unique l l' : NoDup (map fst l) -> l ≡ₚ l' -> sort compare_keys l = sort compare_keys l'.
Proof.
  intros Hn Hp. apply (StronglySorted_unique_strong key_le); [|apply sort_keys_sorted..|by rewrite !sort_keys_perm].
  intros a b Ha Hb Hab Hba. rewrite sort_keys_perm in Ha. rewrite sort_keys_perm, <- Hp in Hb.
  apply (nodup_keys_fst l); [done..|]. by apply jstr_lt_total.
Qed.

Lemma from_entries_perm l : NoDup (map fst l) -> from_entries l ≡ₚ l.
Proof.
  intros Hn. unfold from_entries.
  assert (forall acc, NoDup (map fst (acc ++ l)) -> fold_left (fun o kv => obj_define (fst kv) (snd kv) o) l acc ≡ₚ acc ++ l) as H.
  { clear Hn. induction l as [|[k v] l IH]; intros acc Hn; [by rewrite app_nil_r|]. cbn [fold_left fst snd].
    assert (obj_define k v acc ≡ₚ (k, v) :: acc) as Hd.
    { apply obj_define_fresh. rewrite map_app, NoDup_app in Hn. destruct Hn as (_ & Hd & _). intros Hk. apply (Hd k Hk). by left. }
    rewrite IH, Hd; [apply Permutation_middle|]. rewrite Hd. cbn [app]. by rewrite (Permutation_middle acc l (k, v)). }
  by apply (H []).
Qed.

Definition sem (kv : jstr * jv) : jstr * jv := (fst kv, semantic (snd kv) false).

Lemma map_fst_sem o : map fst (map sem o) = map fst o.
Proof. by rewrite map_map. Qed.

Lemma semantic_object o : semantic (JObj o) false = JObj (from_entries (sort compare_keys (map sem o))).
Proof. cbn [semantic negb orb]. do 3 f_equal. induction (map _ o) as [|x l IH]; [done|]. simpl. by rewrite IH. Qed.

(** What the envelope identifiers leave. *)
Definition payload_props (o : list (jstr * jv)) : list (jstr * jv) := List.filter (fun kv => payload_key (fst kv)) o.

Lemma semantic_payload o : semantic (JObj o) true = semantic (JObj (payload_props o)) false.
Proof.
  rewrite semantic_object. cbn [semantic negb orb]. do 3 f_equal. unfold payload_props.
  induction o as [|kv o IH]; [done|]. simpl. destruct (payload_key (fst kv)); simpl; by rewrite IH.
Qed.

Lemma same_semantic v : forall w, jv_wf v -> same_value v w -> semantic v false = semantic w false.
Proof.
  induction v as [| | | | |l IH|o IH] using jv_ind'; intros w Hv Hs; try (by inversion Hs).
  - inversion Hs as [|? l' Hl E1 E2|]; [done|]; subst. simpl. f_equal. apply jv_wf_arr in Hv. clear Hs.
    induction Hl as [|x y l l' Hxy _ IHl]; [done|]. apply Forall_cons in IH as [Hx IH], Hv as [Hvx Hv]. simpl. f_equal; auto.
  - inversion Hs as [| |? o' o'' Hp Hl E1 E2]; [done|]; subst. rewrite !semantic_object. do 2 f_equal. apply jv_wf_obj in Hv as [Hn Hv].
    apply sort_keys_unique; [by rewrite map_fst_sem|]. rewrite Hp in Hv, IH |- *. apply Permutation_refl'. clear Hp Hn Hs.
    induction Hl as [|x y l l' [Hk Hxy] _ IHl]; [done|]. apply Forall_cons in IH as [Hx IH], Hv as [Hvx Hv]. simpl. f_equal; [|auto].
    unfold sem. rewrite Hk. f_equal. auto.
Qed.

Lemma semantic_same v : forall w, jv_wf v -> jv_wf w -> semantic v false = semantic w false -> same_value v w.
Proof.
  induction v as [| | | | |l IH|o IH] using jv_ind'; intros w Hv Hw He;
    try (destruct w; simpl in He; simplify_eq; constructor).
  - apply jv_wf_arr in Hv, Hw. revert items Hw He IH Hv. induction l as [|x l IHl]; intros [|y l'] Hw He IH Hv; simplify_eq; [constructor|].
    apply Forall_cons in IH as [Hx IH], Hv as [Hvx Hv], Hw as [Hwy Hw]. constructor; [auto|]. by apply IHl.
  - destruct w as [| | | | | |o']; try done. rewrite !semantic_object in He. injection He as He.
    apply jv_wf_obj in Hv as [Hn Hv], Hw as [Hn' Hw].
    assert (forall o, NoDup (map fst o) -> from_entries (sort compare_keys (map sem o)) ≡ₚ map sem o) as Hperm.
    { intros x Hx. rewrite from_entries_perm; [apply sort_keys_perm|]. by rewrite sort_keys_perm, map_fst_sem. }
    assert (map sem o ≡ₚ map sem o') as Hp by (by rewrite <- (Hperm o), <- (Hperm o'), He).
    symmetry in Hp. apply Permutation_map_inv in Hp as (o'' & Ho & Hp). apply (same_object _ _ o''); [done|].
    rewrite Hp in Hv, IH. clear Hp Hn Hn' Hperm He. revert o'' Ho Hv IH. induction o' as [|y o' IHo]; intros [|x o''] Ho Hv IH; simplify_eq/=; [constructor|].
    apply Forall_cons in IH as [Hx IH], Hv as [Hvx Hv], Hw as [Hwy Hw]. constructor; [split; [done|by apply Hx]|]. by apply IHo.
Qed.

(** Two command payloads count as the same exactly when they are.  The normal form hashed by
    [payloadHash] is equal for two payload objects exactly when, leaving out [requestId] and
    [confirmationId] at the top, they hold the same values under the same keys at every depth,
    in whatever order the properties were written; so re-sending a command with fresh envelope
    identifiers and reordered properties is recognised, and a payload that differs anywhere
    else has a different normal form. *)
Theorem payload_identity a b : jv_wf (JObj a) -> jv_wf (JObj b) ->
  semantic (JObj a) true = semantic (JObj b) true <-> same_value (JObj (payload_props a)) (JObj (payload_props b)).
Proof.
  intros Ha Hb. rewrite !semantic_payload.
  assert (forall o, jv_wf (JObj o) -> jv_wf (JObj (payload_props o))) as Hf.
  { intros o [Hn Hw]%jv_wf_obj. apply jv_wf_obj. unfold payload_props. split.
    - clear Hw. induction o as [|x o IH]; [done|]. cbn [map] in Hn. apply NoDup_cons in Hn as [Hx Hn]. cbn [List.filter].
      destruct (payload_key _); [|auto]. cbn [map]. constructor; [|auto]. intros Hin. apply Hx.
      apply list_elem_of_fmap in Hin as (y & -> & Hy). apply elem_of_filter_list in Hy as [Hy _]. by apply list_elem_of_fmap_2.
    - rewrite Forall_forall in *. intros x [Hx _]%elem_of_filter_list. auto. }
  split; [apply semantic_same; auto|intros; by apply same_semantic; auto].
Qed.

Lemma payload_identity_witness :
  let a := [(js "requestId", JStr (js "r1")); (js "b", JNum (num_of_Z 1)); (js "a", JObj [(js "x", JNull); (js "y", JBool true)])] in
  let b := [(js "a", JObj [(js "y", JBool true); (js "x", JNull)]); (js "b", JNum (num_of_Z 1)); (js "requestId", JStr (js "r2"))] in
  same_value (JObj (payload_props a)) (JObj (payload_props b)).
Proof.
  intros a b. apply (payload_identity a b); [cbn; split_and!; first [exact I|by_compute]..|]. vm_compute. reflexivity.
Defined.

(** ** The store *)

Definition pending_entry (e : IdempotencyEntry) (g : nat) : Prop :=
  ie_outcome e = None /\ ie_pending e = Some g /\ ie_resolve e = Some g /\ ie_completedAt e = None.
Definition completed_entry (e : IdempotencyEntry) : Prop :=
  (exists o, ie_outcome e = Some o) /\ ie_pending e = None /\ ie_resolve e = None /\ exists t, ie_completedAt e = Some t.

(** Every entry is pending on its own unresolved promise or completed, and no promise is resolved
    twice. *)
Record core_ok (s : IdempotencyStore) : Prop := {
  so_map : map_wf (is_entries s);
  so_entries : forall k e, (k, e) ∈ is_entries s ->
    (exists g, pending_entry e g /\ (g < is_promises s)%nat /\ g ∉ map fst (is_resolved s)) \/ completed_entry e;
  so_own : forall k1 k2 e1 e2 g, (k1, e1) ∈ is_entries s -> (k2, e2) ∈ is_entries s ->
    pending_entry e1 g -> pending_entry e2 g -> k1 = k2;
  so_resolved : NoDup (map fst (is_resolved s)) /\ Forall (fun r => fst r < is_promises s)%nat (is_resolved s);
  so_limits : 0 < is_ttl s /\ 0 < is_max s;
}.

(** Between operations the completed outcomes are within their bound as well. *)
Definition store_ok (s : IdempotencyStore) : Prop := core_ok s /\ completed_count (is_entries s) <= is_max s.

Lemma pending_not_completed e g : pending_entry e g -> is_completed e = false.
Proof. intros (_ & _ & _ & E). unfold is_completed. by rewrite E. Qed.

(** *** Pruning *)

Lemma completed_count_cons kv m : completed_count (kv :: m) = (if is_completed (snd kv) then 1 else 0) + completed_count m.
Proof. unfold completed_count. simpl. destruct (is_completed (snd kv)); [by rewrite len_cons|lia]. Qed.

Lemma completed_count_app m1 m2 : completed_count (m1 ++ m2) = completed_count m1 + completed_count m2.
Proof. unfold completed_count. by rewrite List.filter_app, len_app. Qed.

Lemma completed_count_nonneg m : 0 <= completed_count m.
Proof. apply len_nonneg. Qed.

Lemma evict_completed_spec max m : 0 <= max ->
  let m' := evict_completed max (completed_count m) m in
  m' `sublist_of` m /\ completed_count m' <= max /\ forall kv, kv ∈ m -> is_completed (snd kv) = false -> kv ∈ m'.
Proof.
  intros Hmax. cbv zeta.
  enough (forall n, completed_count m = n -> let m' := evict_completed max n m in
    m' `sublist_of` m /\ completed_count m' <= max /\ forall kv, kv ∈ m -> is_completed (snd kv) = false -> kv ∈ m') as H by (by apply H).
  induction m as [|kv m IH]; intros n Hn; simpl.
  { unfold completed_count, len in *. simpl in *. destruct (n <=? max); split_and!; try done; simpl; lia. }
  rewrite completed_count_cons in Hn. destruct (Z.leb_spec n max).
  { split_and!; [done|rewrite completed_count_cons; lia|done]. }
  destruct (is_completed (snd kv)) eqn:E.
  - destruct (IH (n - 1)) as (H1 & H2 & H3); [lia|]. split_and!; [by constructor|done|]. intros x [->|Hx]%elem_of_cons; [congruence|auto].
  - destruct (IH n) as (H1 & H2 & H3); [lia|]. split_and!; [by constructor|rewrite completed_count_cons, E; lia|].
    intros x [->|Hx]%elem_of_cons Hc; [by left|right; auto].
Qed.

Lemma evict_completed_last max kv : 1 <= max -> forall m, exists m', evict_completed max (completed_count (m ++ [kv])) (m ++ [kv]) = m' ++ [kv].
Proof.
  intros Hmax m. enough (forall n, n = completed_count (m ++ [kv]) -> exists m', evict_completed max n (m ++ [kv]) = m' ++ [kv]) as H by (by apply H).
  induction m as [|x m IH]; intros n Hn.
  - rewrite app_nil_l, completed_count_cons in Hn. exists []. simpl. rewrite (proj2 (Z.leb_le _ _)); [done|]. rewrite Hn.
    change (completed_count []) with 0. destruct (is_completed _); lia.
  - rewrite <- app_comm_cons, completed_count_cons in Hn. simpl. destruct (n <=? max); [by exists (x :: m)|].
    destruct (is_completed (snd x)).
    + apply IH. lia.
    + destruct (IH n) as [m' ->]; [lia|]. by exists (x :: m').
Qed.

Lemma prune_spec s now : 0 <= is_max s ->
  is_entries (prune s now) `sublist_of` is_entries s /\ completed_count (is_entries (prune s now)) <= is_max s /\
  forall kv, kv ∈ is_entries s -> is_completed (snd kv) = false -> kv ∈ is_entries (prune s now).
Proof.
  intros Hmax. unfold prune. cbn [is_entries with_entries]. set (live := List.filter _ _).
  destruct (evict_completed_spec (is_max s) live Hmax) as (H1 & H2 & H3). split_and!; [|done|].
  - transitivity live; [done|]. apply filter_sublist.
  - intros kv Hin Hc. apply H3; [|done]. apply elem_of_filter_list. split; [done|]. unfold expired, is_completed in *.
    by destruct (ie_completedAt (snd kv)).
Qed.

(** The most recent entry stays unless it has expired. *)
Lemma prune_last s now m k e : is_entries s = m ++ [(k, e)] -> 0 < is_max s -> expired (is_ttl s) now e = false ->
  exists m', is_entries (prune s now) = m' ++ [(k, e)].
Proof.
  intros He Hmax Hx. unfold prune. cbn [is_entries with_entries]. rewrite He, List.filter_app. cbn [List.filter snd]. rewrite Hx. cbn [negb].
  apply evict_completed_last. lia.
Qed.

Lemma map_get_last (m : jsmap jstr IdempotencyEntry) k e : map_wf (m ++ [(k, e)]) -> map_get k (m ++ [(k, e)]) = Some e.
Proof. intros Hw. apply map_in_get; [done|]. apply elem_of_app. right. by left. Qed.

Lemma sublist_map_wf (m m' : jsmap jstr IdempotencyEntry) : m' `sublist_of` m -> map_wf m -> map_wf m'.
Proof. intros Hs Hw. unfold map_wf in *. eapply sublist_NoDup; [exact Hw|]. unfold map_keys. by apply sublist_map. Qed.

(** Pruning establishes the bound. *)
Lemma prune_ok s now : core_ok s -> store_ok (prune s now).
Proof.
  intros [H1 H2 H3 H4 H5]. destruct (prune_spec s now) as (Hs & Hc & _); [lia|].
  assert (forall kv, kv ∈ is_entries (prune s now) -> kv ∈ is_entries s) as Hin by (intros; by eapply sublist_elem).
  split; [|done]. constructor; [by eapply sublist_map_wf|intros; apply (H2 k); auto|intros; eauto|done|done].
Qed.

Lemma prune_keeps s now k e : core_ok s -> map_get k (is_entries s) = Some e -> is_completed e = false ->
  map_get k (is_entries (prune s now)) = Some e.
Proof.
  intros Hs Hg Hc. apply map_in_get; [by apply so_map, prune_ok|]. destruct (so_limits s Hs). destruct (prune_spec s now) as (_ & _ & H3); [lia|].
  apply H3; [by apply map_get_some_in|done].
Qed.

(** *** Settling *)

Lemma touch_entries s k e : map_wf (is_entries s) -> is_entries (touch_entry s k e) = map_delete k (is_entries s) ++ [(k, e)].
Proof. intros Hw. unfold touch_entry. cbn [is_entries with_entries]. apply map_set_notin. rewrite elem_of_keys_delete. tauto. Qed.

Lemma delete_in (m : jsmap jstr IdempotencyEntry) k kv : kv ∈ map_delete k m <-> kv ∈ m /\ fst kv ≠ k.
Proof. unfold map_delete. rewrite elem_of_filter_list, negb_true_iff, bool_decide_eq_false. split; intros [? ?]; split; congruence. Qed.

Lemma filter_length_le (P : jstr * IdempotencyEntry -> bool) m : completed_count (List.filter P m) <= completed_count m.
Proof.
  induction m as [|x m IH]; simpl; [done|]. destruct (P x); rewrite !completed_count_cons; [lia|]. destruct (is_completed _); lia.
Qed.

Lemma delete_count (m : jsmap jstr IdempotencyEntry) k e : map_get k m = Some e ->
  completed_count (map_delete k m) + (if is_completed e then 1 else 0) <= completed_count m.
Proof.
  induction m as [|[x v] m IH]; simpl; [done|]. unfold map_delete. simpl. rewrite completed_count_cons. cbn [snd].
  destruct (decide (k = x)) as [->|Hx].
  - intros [= ->]. rewrite bool_decide_eq_true_2 by done. simpl. pose proof (filter_length_le (fun kv => negb (bool_decide (x = kv.1))) m). lia.
  - intros Hg. rewrite bool_decide_eq_false_2 by done. simpl. rewrite completed_count_cons. cbn [snd]. specialize (IH Hg). unfold map_delete in IH. lia.
Qed.

Lemma completed_new hash outcome now : completed_entry (mkIdem hash (Some outcome) None None (Some now)).
Proof. split_and!; eauto. Qed.

Lemma completed_not_pending e g : completed_entry e -> ~ pending_entry e g.
Proof. intros ((o & Ho) & _) (Hn & _). congruence. Qed.

(** A pending entry's promise is unresolved. *)
Lemma pending_fresh s k e g : core_ok s -> (k, e) ∈ is_entries s -> pending_entry e g ->
  (g < is_promises s)%nat /\ g ∉ map fst (is_resolved s).
Proof.
  intros Hs Hin Hp. destruct (so_entries s Hs k e Hin) as [(g' & Hg' & ? & ?)|Hc]; [|by apply completed_not_pending with (g := g) in Hc].
  assert (g' = g) as -> by (destruct Hg' as (_ & E & _), Hp as (_ & E' & _); congruence). done.
Qed.

(** Replacing entry [k] by a completed one at the end. *)
Lemma replace_completed s k hash outcome now resolved : core_ok s ->
  NoDup (map fst resolved) -> Forall (fun r => fst r < is_promises s)%nat resolved ->
  (forall x e g, (x, e) ∈ is_entries s -> x ≠ k -> pending_entry e g -> g ∉ map fst resolved) ->
  core_ok (mkStore (map_delete k (is_entries s) ++ [(k, mkIdem hash (Some outcome) None None (Some now))])
    (is_ttl s) (is_max s) (is_promises s) resolved).
Proof.
  intros [H1 H2 H3 _ H6] Hn Hf Hr. set (c := mkIdem _ _ _ _ _). pose proof (completed_new hash outcome now) as Hc. fold c in Hc.
  assert (forall x e, (x, e) ∈ map_delete k (is_entries s) ++ [(k, c)] -> (x, e) ∈ is_entries s /\ x ≠ k \/ e = c) as Hin.
  { intros x e [Hx|Hx]%elem_of_app; [left; by apply delete_in in Hx|right]. apply list_elem_of_singleton in Hx. congruence. }
  constructor; cbn [is_entries is_promises is_resolved is_max is_ttl]; try done.
  - rewrite <- (touch_entries s k c) by done. unfold touch_entry. cbn [is_entries with_entries]. by apply map_wf_set, map_wf_delete.
  - intros x e [[Hx Hk]| ->]%Hin; [|by right]. destruct (H2 x e Hx) as [(g & Hg & Hl & _)|]; [left|by right].
    exists g. split_and!; [done|done|by eapply Hr].
  - intros k1 k2 e1 e2 g [[Hx1 _]| ->]%Hin [[Hx2 _]| ->]%Hin Hg1 Hg2; [by eapply H3|exfalso; by eapply completed_not_pending..].
Qed.

(** Settling a pending entry resolves its promise and leaves the outcome as the newest entry. *)
Lemma settle_pending s k e g outcome now : core_ok s -> map_get k (is_entries s) = Some e -> pending_entry e g ->
  let s' := settle s k e outcome now in
  store_ok s' /\ is_resolved s' = is_resolved s ++ [(g, outcome)] /\ g ∉ map fst (is_resolved s) /\
  exists m, is_entries s' = m ++ [(k, mkIdem (ie_hash e) (Some outcome) None None (Some now))].
Proof.
  intros Hs Hg Hp s'. pose proof Hs as [H1 H2 H3 [H5 H5'] H6]. pose proof (map_get_some_in _ _ _ Hg) as Hin.
  pose proof Hp as (_ & _ & Hres & Hcomp).
  destruct (pending_fresh s k e g Hs Hin Hp) as [Hlt Hfresh].
  unfold s', settle. rewrite Hcomp, Hres. cbn [is_ttl is_max is_promises is_resolved touch_entry with_entries is_entries].
  set (c := mkIdem _ _ _ _ _). pose proof (touch_entries s k c H1) as Ht. unfold touch_entry in Ht. cbn [is_entries with_entries] in Ht. rewrite Ht.
  set (t := mkStore _ _ _ _ _). assert (core_ok t) as Hn.
  { apply (replace_completed s); [done|..].
    - rewrite map_app. apply NoDup_app. split_and!; [done|set_solver|apply NoDup_singleton].
    - apply Forall_app_2; [done|by repeat constructor].
    - intros x ex gx Hx Hne Hpx. rewrite map_app, elem_of_app. intros [Hgx|Hgx].
      + by apply (pending_fresh s x ex gx).
      + apply list_elem_of_singleton in Hgx. simpl in Hgx. subst gx. apply Hne. by apply (H3 x k ex e g). }
  split_and!; [by apply prune_ok|done|done|]. eapply prune_last; [done|apply H6|].
  apply andb_false_iff. right. apply Z.leb_gt. change (now - now < is_ttl s). lia.
Qed.

(** ** Every operation keeps the invariant *)

Section Ops.
Context (sha256_hex : jstr -> jstr).
Implicit Types (s : IdempotencyStore).

Inductive idem_op :=
| IBegin (clock : option Z) (id : jstr) (payload : jv)
| IComplete (clock : option Z) (id : jstr) (payload : jv) (outcome : CommandOutcome)
| IUnknown (clock : option Z) (id : jstr).

Definition idem_run s (op : idem_op) : IdempotencyStore :=
  match op with
  | IBegin t i p => fst (begin sha256_hex s t i p)
  | IComplete t i p o => fst (complete sha256_hex s t i p o)
  | IUnknown t i => fst (unknown s t i)
  end.

Lemma store_cases s k e : core_ok s -> map_get k (is_entries s) = Some e -> (exists g, pending_entry e g) \/ completed_entry e.
Proof. intros Hs Hg. destruct (so_entries s Hs k e) as [(g & Hp & _)|]; [by apply map_get_some_in|left; eauto|by right]. Qed.

Lemma settle_ok s k e outcome now : store_ok s -> map_get k (is_entries s) = Some e -> store_ok (settle s k e outcome now).
Proof.
  intros Hs Hg. destruct (store_cases s k e (proj1 Hs) Hg) as [[g Hp]|(_ & _ & _ & t & Et)].
  - by apply (settle_pending s k e g outcome now (proj1 Hs)).
  - unfold settle. by rewrite Et.
Qed.

(** A fresh pending entry. *)
Lemma begin_new_ok s k hash : store_ok s -> map_get k (is_entries s) = None ->
  let g := is_promises s in
  store_ok (mkStore (map_set k (mkIdem hash None (Some g) (Some g) None) (is_entries s)) (is_ttl s) (is_max s) (S g) (is_resolved s)).
Proof.
  intros [Hs Hb] Hg g. pose proof Hs as [H1 H2 H3 [H4 H4'] H5]. pose proof (proj1 (map_get_none_keys _ _) Hg) as Hk. rewrite (map_set_notin _ _ _ Hk).
  set (e := mkIdem _ _ _ _ _). assert (pending_entry e g) as Hp by done.
  assert (g ∉ map fst (is_resolved s)) as Hfresh.
  { intros (r & Er & Hr)%list_elem_of_fmap. rewrite Forall_forall in H4'. specialize (H4' r Hr). simpl in H4'. unfold g in Er. lia. }
  assert (forall x ex gx, (x, ex) ∈ is_entries s -> pending_entry ex gx -> (gx < g)%nat) as Hlt
    by (intros x ex gx Hx Hpx; by apply (pending_fresh s x ex gx)).
  split; [constructor; cbn [is_entries is_promises is_resolved is_ttl is_max]|].
  - rewrite <- (map_set_notin _ _ _ Hk). by apply map_wf_set.
  - intros x ex [Hx|Hx%list_elem_of_singleton]%elem_of_app.
    + destruct (H2 x ex Hx) as [(g' & Hg' & Hl & Hf)|]; [left; exists g'; split_and!; [done|lia|done]|by right].
    + injection Hx as -> ->. left. exists g. split_and!; [done|lia|done].
  - intros k1 k2 e1 e2 g' [Hx|Hx%list_elem_of_singleton]%elem_of_app [Hy|Hy%list_elem_of_singleton]%elem_of_app Hp1 Hp2; simplify_eq; [by eapply H3| | |done].
    + specialize (Hlt _ _ _ Hx Hp1). destruct Hp2 as (_ & E & _). injection E as E. unfold g in *. lia.
    + specialize (Hlt _ _ _ Hy Hp2). destruct Hp1 as (_ & E & _). injection E as E. unfold g in *. lia.
  - split; [done|]. eapply Forall_impl; [exact H4'|]. simpl. lia.
  - done.
  - cbn [is_entries is_max]. rewrite completed_count_app, completed_count_cons. change (completed_count []) with 0. simpl. lia.
Qed.

(** A completed entry moved to the end. *)
Lemma touch_completed_ok s k e : store_ok s -> map_get k (is_entries s) = Some e -> completed_entry e -> store_ok (touch_entry s k e).
Proof.
  intros [Hs Hb] Hg Hc. pose proof Hs as [H1 H2 H3 [H4 H4'] H5]. destruct Hc as ((o & Ho) & Hp & Hr & t & Ht).
  assert (e = mkIdem (ie_hash e) (Some o) None None (Some t)) as He by (destruct e; simpl in *; congruence).
  pose proof (touch_entries s k e H1) as Hte. rewrite He in Hte at 2.
  assert (core_ok (mkStore (map_delete k (is_entries s) ++ [(k, mkIdem (ie_hash e) (Some o) None None (Some t))]) (is_ttl s) (is_max s) (is_promises s) (is_resolved s))) as Hcore.
  { apply replace_completed; try done. intros x ex gx Hx _ Hpx. by apply (pending_fresh s x ex gx). }
  rewrite <- Hte in Hcore. split; [exact Hcore|]. rewrite Hte, completed_count_app, completed_count_cons. cbn [snd is_completed ie_completedAt].
  pose proof (delete_count (is_entries s) k e Hg) as Hd. rewrite He in Hd. cbn [is_completed ie_completedAt] in Hd.
  change (completed_count []) with 0. change (is_max (touch_entry s k e)) with (is_max s). lia.
Qed.

Lemma idem_run_ok s op : store_ok s -> store_ok (idem_run s op).
Proof.
  intros Hs. destruct op as [[now|] k p|[now|] k p o|[now|] k]; cbn [idem_run]; unfold begin, complete; try done; cbv zeta.
  - pose proof (prune_ok s now (proj1 Hs)) as Hp. destruct (map_get k _) as [e|] eqn:Eg; [|by apply begin_new_ok].
    destruct (negb _); [done|]. destruct (store_cases _ _ _ (proj1 Hp) Eg) as [(g & H1 & H2 & _)|Hc].
    + rewrite H1, H2. done.
    + pose proof Hc as ((o & ->) & _). by apply touch_completed_ok.
  - pose proof (prune_ok s now (proj1 Hs)) as Hp. destruct (map_get k _) as [e|] eqn:Eg.
    + destruct (negb _); [done|]. by apply settle_ok.
    + cbn [fst]. apply prune_ok. unfold with_entries. pose proof (proj1 (map_get_none_keys _ _) Eg) as Hk. rewrite (map_set_notin _ _ _ Hk).
      rewrite <- (map_delete_notin _ _ Hk) at 1. destruct (so_resolved _ (proj1 Hp)) as [H4 H4'].
      apply replace_completed; [apply Hp|done|done|]. intros x ex gx Hx _ Hpx. apply (pending_fresh _ x ex gx (proj1 Hp) Hx Hpx).
  - unfold unknown. destruct (map_get k _) as [e|] eqn:Eg; [|done]. by apply settle_ok.
  - unfold unknown. by destruct (map_get k _).
Qed.

(** *** A pending command stays pending until it is settled *)

(** The operation does not settle command [k]. *)
Definition not_settling (k : jstr) (op : idem_op) : Prop :=
  match op with IBegin _ _ _ => True | IComplete _ i _ _ | IUnknown _ i => i ≠ k end.

Lemma touch_keeps s k x e ex : map_wf (is_entries s) -> x ≠ k -> map_get k (is_entries s) = Some e ->
  map_get k (is_entries (touch_entry s x ex)) = Some e.
Proof. intros Hw Hx Hg. unfold touch_entry. cbn [is_entries with_entries]. by rewrite map_get_set_ne, map_get_delete_ne. Qed.

Lemma settle_keeps s k x e ex outcome now : store_ok s -> x ≠ k -> map_get x (is_entries s) = Some ex ->
  map_get k (is_entries s) = Some e -> is_completed e = false -> map_get k (is_entries (settle s x ex outcome now)) = Some e.
Proof.
  intros Hs Hx Hgx Hg Hc. pose proof (settle_ok s x ex outcome now Hs Hgx) as Hs'. revert Hs'. unfold settle.
  destruct (ie_completedAt ex); [done|]. intros Hs'. apply map_in_get; [by destruct Hs' as [[]]|].
  match goal with |- _ ∈ is_entries (prune ?t now) => destruct (prune_spec t now) as (_ & _ & H3) end; [destruct (so_limits s (proj1 Hs)); simpl; lia|].
  apply H3; [|done]. apply map_get_some_in. apply (touch_keeps s k x e); [by destruct Hs as [[]]|done|done].
Qed.

Lemma pending_persists s op k e g : store_ok s -> map_get k (is_entries s) = Some e -> pending_entry e g -> not_settling k op ->
  map_get k (is_entries (idem_run s op)) = Some e.
Proof.
  intros Hs Hg Hp Hn. pose proof (pending_not_completed e g Hp) as Hc.
  pose proof (fun now => prune_keeps s now k e (proj1 Hs) Hg Hc) as Hkeep. pose proof (fun now => prune_ok s now (proj1 Hs)) as Hok.
  destruct op as [[now|] x p|[now|] x p o|[now|] x]; cbn [idem_run]; unfold begin, complete, unknown; try done; cbv zeta.
  - specialize (Hkeep now). specialize (Hok now). destruct (map_get x (is_entries (prune s now))) as [ex|] eqn:Eg.
    + destruct (negb _); [done|]. destruct (ie_outcome ex) as [o|] eqn:Eo; [|by destruct (ie_pending ex)].
      apply touch_keeps; [by destruct Hok as [[]]| |done]. intros ->. rewrite Hkeep in Eg. destruct Hp as (E & _). congruence.
    + cbn [fst is_entries]. rewrite map_get_set_ne; [done|]. congruence.
  - specialize (Hkeep now). specialize (Hok now). cbn in Hn. destruct (map_get x (is_entries (prune s now))) as [ex|] eqn:Eg.
    + destruct (negb _); [done|]. by apply settle_keeps.
    + set (t := with_entries _ _). pose proof (idem_run_ok s (IComplete (Some now) x p o) Hs) as Hs'. cbn [idem_run] in Hs'. unfold complete in Hs'.
      cbv zeta in Hs'. rewrite Eg in Hs'. apply map_in_get; [by destruct Hs' as [[]]|].
      destruct (prune_spec t now) as (_ & _ & H3); [destruct (so_limits _ (proj1 Hok)); simpl in *; lia|].
      apply H3; [|done]. apply map_get_some_in. cbn [t is_entries with_entries]. by rewrite map_get_set_ne.
  - cbn in Hn. destruct (map_get x (is_entries s)) as [ex|] eqn:Eg; [|done]. by apply settle_keeps.
  - by destruct (map_get x (is_entries s)).
Qed.

Lemma pending_run ops s k e g : store_ok s -> map_get k (is_entries s) = Some e -> pending_entry e g -> Forall (not_settling k) ops ->
  store_ok (fold_left idem_run ops s) /\ map_get k (is_entries (fold_left idem_run ops s)) = Some e.
Proof.
  intros Hs Hg Hp Hall. revert s Hs Hg. induction Hall as [|op ops Hop _ IH]; intros s Hs Hg; [done|].
  apply IH; [by apply idem_run_ok|by apply (pending_persists s op k e g)].
Qed.

(** A settled outcome is replayed while it has not expired. *)
Lemma replayed_outcome s k payload outcome t m now : store_ok s ->
  is_entries s = m ++ [(k, mkIdem (payloadHash sha256_hex payload) (Some outcome) None None (Some t))] ->
  now < t \/ now - t < is_ttl s -> snd (begin sha256_hex s (Some now) k payload) = Done (IReplay outcome).
Proof.
  intros Hs He Hnow. unfold begin. cbv zeta. destruct (so_limits s (proj1 Hs)) as [_ Hmax].
  destruct (prune_last s now m k _ He Hmax) as [m' Hm].
  { unfold expired. cbn [ie_completedAt]. apply andb_false_iff. destruct Hnow; [left|right]; apply Z.leb_gt; lia. }
  assert (map_wf (is_entries (prune s now))) as Hw by (apply so_map, prune_ok, Hs). rewrite Hm in Hw. rewrite Hm, map_get_last by done.
  cbn [ie_hash ie_outcome]. by rewrite jstr_eqb_refl.
Qed.
End Ops.

(** C21: A command is given out for execution at most once, and every duplicate gets its outcome.
    After [begin] answers [new] for a command id, whatever operations on the store follow that
    do not settle it (other commands beginning, completing or failing, any number of repeats of
    this one, readings of the clock in any order), [begin] with the same id answers [pending]
    with the same promise when the payload is the same and [conflict] otherwise; it never
    answers [new], because pruning never drops a pending command.  When the command then
    completes, or its outcome becomes unknown, the promise, not resolved before, is resolved
    with that outcome, and a repeat of the command within the retention time is answered by
    replaying it. *)
Theorem command_runs_once sha256_hex s now id payload s1 ops :
  store_ok s -> begin sha256_hex s (Some now) id payload = (s1, Done INew) -> Forall (not_settling id) ops ->
  let s2 := fold_left (idem_run sha256_hex) ops s1 in
  exists promise,
    (forall t payload', snd (begin sha256_hex s2 (Some t) id payload') = Done
      (if jstr_eqb (payloadHash sha256_hex payload) (payloadHash sha256_hex payload') then IPending promise
       else IConflict (payloadHash sha256_hex payload'))) /\
    forall t op outcome,
      op = IComplete (Some t) id payload outcome \/ op = IUnknown (Some t) id /\ outcome = unknown_outcome id ->
      let s3 := idem_run sha256_hex s2 op in
      is_resolved s3 = is_resolved s2 ++ [(promise, outcome)] /\ promise ∉ map fst (is_resolved s2) /\
      forall later, later < t \/ later - t < is_ttl s3 -> snd (begin sha256_hex s3 (Some later) id payload) = Done (IReplay outcome).
Proof.
  intros Hs Hb Hall s2. set (hash := payloadHash sha256_hex payload). pose proof (idem_run_ok sha256_hex s (IBegin (Some now) id payload) Hs) as Hs1.
  cbn [idem_run] in Hs1. rewrite Hb in Hs1. cbn [fst] in Hs1.
  assert (exists g, map_get id (is_entries s1) = Some (mkIdem hash None (Some g) (Some g) None)) as [g Hg].
  { unfold begin in Hb. cbv zeta in Hb. destruct (map_get id _) as [e|]; [|injection Hb as <-; eexists; apply map_get_set_eq].
    destruct (negb _); [done|]. destruct (ie_outcome e); [done|]. by destruct (ie_pending e). }
  set (e := mkIdem _ _ _ _ _) in Hg. assert (pending_entry e g) as Hp by done.
  destruct (pending_run sha256_hex ops s1 id e g Hs1 Hg Hp Hall) as [Hs2 Hg2]. fold s2 in Hs2, Hg2. exists g. split.
  - intros t payload'. unfold begin. cbv zeta. rewrite (prune_keeps s2 t id e (proj1 Hs2) Hg2 eq_refl). cbn [e ie_hash ie_outcome ie_pending].
    fold hash. by destruct (jstr_eqb hash _).
  - intros t op outcome Hop s3.
    assert (exists s2', store_ok s2' /\ map_get id (is_entries s2') = Some e /\ s3 = settle s2' id e outcome t /\ is_resolved s2' = is_resolved s2)
      as (s2' & Hs2' & Hg2' & Heq & Hres).
    { unfold s3. destruct Hop as [->|[-> ->]]; cbn [idem_run]; unfold complete, unknown; cbv zeta.
      - exists (prune s2 t). pose proof (prune_keeps s2 t id e (proj1 Hs2) Hg2 eq_refl) as Hk. rewrite Hk. cbn [e ie_hash]. fold hash.
        rewrite jstr_eqb_refl. split_and!; [by apply prune_ok; apply Hs2|done|done|done].
      - exists s2. rewrite Hg2. done. }
    destruct (settle_pending s2' id e g outcome t (proj1 Hs2') Hg2' Hp) as (Hs3 & Hr & Hf & m & Hm).
    rewrite <- Heq in *. rewrite Hres in *. split_and!; [done|done|]. intros later Hl. eapply replayed_outcome; [done|exact Hm|done].
Qed.

(** A digest that keeps everything. *)
Definition plain_digest (t : jstr) : jstr := t.

Definition idle_store : IdempotencyStore := mkStore [] 1000 2 0 [].

Lemma idle_store_ok : store_ok idle_store.
Proof. split; [|done]. constructor; cbn; try done; try (intros; set_solver). apply map_wf_nil. split; constructor. Qed.

Lemma command_runs_once_witness :
  let payload := JObj [(js "text", JStr (js "hi"))] in
  let s1 := fst (begin plain_digest idle_store (Some 0) (js "c1") payload) in
  exists promise, snd (begin plain_digest s1 (Some 5) (js "c1") payload) = Done (IPending promise).
Proof.
  intros payload s1.
  destruct (command_runs_once plain_digest idle_store 0 (js "c1") payload s1 []) as (promise & Hb & _).
  - exact idle_store_ok.
  - reflexivity.
  - constructor.
  - exists promise. exact (Hb 5 payload).
Defined.

(** Every store that the constructor accepts stays consistent and bounded.  After any sequence
    of operations, with any readings of the clock: each command id has at most one entry, every
    entry is either pending on a promise of its own that is not resolved or completed with an
    outcome, at most [maxCompletedEntries] completed outcomes are kept, and no promise has been
    resolved twice. *)
Theorem idempotency_store_invariant sha256_hex ttl max s ops :
  new_store ttl max = Done s -> store_ok (fold_left (idem_run sha256_hex) ops s).
Proof.
  intros Hn. assert (store_ok s) as Hs.
  { revert Hn. unfold new_store. destruct (Z.leb_spec (default DEFAULT_COMPLETED_TTL_MS ttl) 0) as [|Ht]; [done|].
    destruct (_ || _) eqn:E; [done|]. intros [= <-]. apply orb_false_iff in E as [E _]. apply Z.leb_gt in E.
    split; [|apply Z.lt_le_incl, E]. constructor; cbn; [apply map_wf_nil|set_solver|set_solver|split; [apply NoDup_nil_2|apply Forall_nil_2]|done]. }
  clear Hn. revert s Hs. induction ops as [|op ops IH]; intros s Hs; [done|]. apply IH. by apply idem_run_ok.
Qed.

Lemma idempotency_store_invariant_witness :
  store_ok (fold_left (idem_run plain_digest) [IBegin (Some 0) (js "c1") JNull; IComplete (Some 3) (js "c1") JNull (unknown_outcome (js "c1"))]
    (mkStore [] 300000 1024 0 [])).
Proof. apply (idempotency_store_invariant plain_digest None None). reflexivity. Defined.
