(* ===== verification/CursorJournal.v ===== *)
(** * CursorJournal: the client's durable resume cursors
    ([packages/client/src/omp-client-cursor.ts])

    The journal is a record of its maps.  A drain is an asynchronous loop that is suspended only
    while the store saves a record, so between two events each session key has at most one
    suspended drain: [cj_inflight] holds it with the record being saved, and [resume] continues
    it when the save succeeds or fails.  Promises of drains are numbered, because the set
    [drains] of the source is observable through [pendingSaves].  The calls of [store.save] and
    the saves that succeeded are kept as logs.  A store whose [save] throws instead of returning
    a rejected promise is not modelled. *)
From stdpp Require Import base tactics option list numbers strings sets.
From S2P Require Import Prelude JsMap JsString JsValue Wire WireGuards Idempotency.

(** [omp-client-contracts.ts] *)
Definition MAX_SAVED : Z := 128.
Definition sessionKey (host session : jstr) : jstr := host ++ [0%N] ++ session.

Record CursorRecord := mkCursorRecord { cr_hostId : jstr; cr_sessionId : jstr; cr_cursor : Cursor }.

Record SaveQueue := mkQueue { q_barrier : option CursorRecord; q_latest : option CursorRecord; q_running : bool }.

Record CursorJournal := mkJournal {
  cj_records : jsmap jstr CursorRecord;
  cj_bySession : jsmap jstr Cursor;
  cj_queues : jsmap jstr SaveQueue;
  cj_drains : list nat;
  cj_saved : jsmap jstr Cursor;
  cj_store : bool;                                    (* a store was given *)
  cj_nextDrain : nat;
  cj_inflight : jsmap jstr (nat * CursorRecord);      (* suspended drains *)
  cj_calls : list (jstr * (CursorRecord * bool));     (* calls of [store.save], authoritative or not *)
  cj_persisted : list (jstr * CursorRecord);          (* saves that succeeded *)
  cj_errors : Z;                                      (* errors emitted *)
}.

Definition new_journal (store : bool) : CursorJournal := mkJournal [] [] [] [] [] store 0 [] [] [] 0.

Definition pendingSaves (j : CursorJournal) : Z := len (cj_drains j).

Definition set_memory (j : CursorJournal) (records : jsmap jstr CursorRecord) (bySession saved : jsmap jstr Cursor) : CursorJournal :=
  mkJournal records bySession (cj_queues j) (cj_drains j) saved (cj_store j) (cj_nextDrain j) (cj_inflight j) (cj_calls j)
    (cj_persisted j) (cj_errors j).
Definition set_queue (j : CursorJournal) (key : jstr) (q : SaveQueue) : CursorJournal :=
  mkJournal (cj_records j) (cj_bySession j) (map_set key q (cj_queues j)) (cj_drains j) (cj_saved j) (cj_store j) (cj_nextDrain j)
    (cj_inflight j) (cj_calls j) (cj_persisted j) (cj_errors j).

(** [resetForEpoch] *)
Definition resetForEpoch (j : CursorJournal) (ep : jstr) : CursorJournal :=
  fold_left (fun j kv =>
    if jstr_eqb (epoch (cr_cursor (snd kv))) ep then j
    else set_memory j (map_delete (fst kv) (cj_records j)) (map_delete (fst kv) (cj_bySession j)) (map_delete (fst kv) (cj_saved j)))
    (cj_records j) j.

(** The record with the identifiers and the cursor decoded; [None] when the cursor is not one. *)
Definition normalized (record : CursorRecord) : option (attempt CursorRecord) :=
  match decodeCursor (cursor_json (cr_cursor record)) with
  | Fail _ => None
  | Ok cursor =>
      match wire_id (JStr (cr_hostId record)), wire_id (JStr (cr_sessionId record)) with
      | Ok host, Ok session => Some (Done (mkCursorRecord host session cursor))
      | _, _ => Some (Threw (js "invalid identifier"))
      end
  end.
Definition record_key (r : CursorRecord) : jstr := sessionKey (cr_hostId r) (cr_sessionId r).

(** The part of [remember] that keeps the bounded recency order. *)
Definition remember_record (j : CursorJournal) (r : CursorRecord) : CursorJournal :=
  let key := record_key r in
  let records := map_set key r (map_delete key (cj_records j)) in
  let bySession := map_set key (cr_cursor r) (cj_bySession j) in
  if MAX_SAVED <? map_size records then
    match records with
    | (oldest, _) :: _ => set_memory j (map_delete oldest records) (map_delete oldest bySession) (map_delete oldest (cj_saved j))
    | [] => set_memory j records bySession (cj_saved j)
    end
  else set_memory j records bySession (cj_saved j).

(** [saved !== undefined && saved.epoch === record.cursor.epoch && saved.seq >= record.cursor.seq] *)
Definition covered (saved : option Cursor) (cursor : Cursor) : bool :=
  match saved with Some s => jstr_eqb (epoch s) (epoch cursor) && (seq cursor <=? seq s) | None => false end.

(** The drain of [key] calls [store.save] and is suspended. *)
Definition start_save (j : CursorJournal) (key : jstr) (id : nat) (q : SaveQueue) (r : CursorRecord) (authoritative : bool) : CursorJournal :=
  mkJournal (cj_records j) (cj_bySession j) (map_set key q (cj_queues j)) (cj_drains j)
    (if authoritative then map_delete key (cj_saved j) else cj_saved j) (cj_store j) (cj_nextDrain j)
    (map_set key (id, r) (cj_inflight j)) (cj_calls j ++ [(key, (r, authoritative))]) (cj_persisted j) (cj_errors j).

(** The loop of [drain] up to its next suspension; [false] when it has ended. *)
Definition drain_loop (j : CursorJournal) (key : jstr) (id : nat) (q : SaveQueue) : CursorJournal * bool :=
  match q_barrier q with
  | Some r => (start_save j key id (mkQueue None (q_latest q) true) r true, true)
  | None =>
      match q_latest q with
      | Some r =>
          if covered (map_get key (cj_saved j)) (cr_cursor r) then (set_queue j key (mkQueue None None true), false)
          else (start_save j key id (mkQueue None None true) r false, true)
      | None => (set_queue j key (mkQueue None None true), false)
      end
  end.

(** The [finally] block: the loop only ends with nothing left to save. *)
Definition end_drain (j : CursorJournal) (key : jstr) (drains : list nat) : CursorJournal :=
  mkJournal (cj_records j) (cj_bySession j) (map_delete key (cj_queues j)) drains (cj_saved j) (cj_store j) (cj_nextDrain j)
    (cj_inflight j) (cj_calls j) (cj_persisted j) (cj_errors j).

Definition add_drain (j : CursorJournal) (id : nat) : CursorJournal :=
  mkJournal (cj_records j) (cj_bySession j) (cj_queues j) (cj_drains j ++ [id]) (cj_saved j) (cj_store j) (S id)
    (cj_inflight j) (cj_calls j) (cj_persisted j) (cj_errors j).

(** [drain(key, queue)]: when the loop ends before its first suspension, the [finally] block runs
    before the promise is known, so it removes nothing from [drains]; the promise is added
    afterwards. *)
Definition drain (j : CursorJournal) (key : jstr) (q : SaveQueue) : CursorJournal :=
  let id := cj_nextDrain j in
  let (j, suspended) := drain_loop j key id q in
  add_drain (if suspended then j else end_drain j key (cj_drains j)) id.

Definition queue_of (j : CursorJournal) (key : jstr) : SaveQueue := default (mkQueue None None false) (map_get key (cj_queues j)).

Definition enqueue (q : SaveQueue) (r : CursorRecord) (authoritative : bool) : SaveQueue :=
  if authoritative then mkQueue (Some r) None (q_running q) else mkQueue (q_barrier q) (Some r) (q_running q).

Definition remember (j : CursorJournal) (record : CursorRecord) (authoritative : bool) : CursorJournal * attempt unit :=
  match normalized record with
  | None => (j, Done tt)
  | Some (Threw m) => (j, Threw m)
  | Some (Done r) =>
      let key := record_key r in
      let j := remember_record j r in
      if negb (cj_store j) then (j, Done tt)
      else
        let q := enqueue (queue_of j key) r authoritative in
        let j := set_queue j key q in
        (if q_running q then j else drain j key q, Done tt)
  end.

(** The save of [key] settles and its drain goes on. *)
Definition resume (j : CursorJournal) (key : jstr) (saved : bool) : CursorJournal :=
  match map_get key (cj_inflight j) with
  | None => j
  | Some (id, r) =>
      let j := mkJournal (cj_records j) (cj_bySession j) (cj_queues j) (cj_drains j)
        (if saved then map_set key (cr_cursor r) (cj_saved j) else cj_saved j) (cj_store j) (cj_nextDrain j)
        (map_delete key (cj_inflight j)) (cj_calls j) (if saved then cj_persisted j ++ [(key, r)] else cj_persisted j)
        (if saved then cj_errors j else cj_errors j + 1) in
      let (j, suspended) := drain_loop j key id (queue_of j key) in
      if suspended then j else end_drain j key (List.filter (fun d => negb (Nat.eqb d id)) (cj_drains j))
  end.

(** The records a finished [load] adds. *)
Definition loaded (j : CursorJournal) (records : list CursorRecord) : CursorJournal :=
  fold_left (fun j record =>
    match normalized record with
    | Some (Done r) => set_memory j (map_set (record_key r) r (cj_records j)) (map_set (record_key r) (cr_cursor r) (cj_bySession j)) (cj_saved j)
    | _ => j
    end) (slice_first MAX_SAVED records) j.
