(* ===== verification/CursorJournalSpec.v ===== *)
(** * CursorJournalSpec: no resume cursor is lost

    A run of the journal is a sequence of its events: cursors to remember, saves that settle,
    epoch resets and loads.  The specification of its queue is the sequence of remembered
    records itself. *)
From stdpp Require Import base tactics option list numbers strings sets.
From S2P Require Import Prelude JsMap JsString JsValue Wire WireGuards Idempotency CursorJournal.

(** What waits in a queue, as a summary of the records it stands for: the last authoritative one,
    and the last one after it. *)
Definition pending_step (p : option CursorRecord * option CursorRecord) (x : CursorRecord * bool) :=
  if snd x then (Some (fst x), None) else (fst p, Some (fst x)).
Definition pending_of (l : list (CursorRecord * bool)) : option CursorRecord * option CursorRecord :=
  fold_left pending_step l (None, None).

Lemma pending_of_snoc l x : pending_of (l ++ [x]) = pending_step (pending_of l) x.
Proof. unfold pending_of. by rewrite fold_left_app. Qed.

Lemma pending_none l : pending_of l = (None, None) -> l = [].
Proof. destruct l as [|x l _] using rev_ind; [done|]. rewrite pending_of_snoc. unfold pending_step. by destruct (snd x). Qed.

Lemma pending_latest l r : pending_of l = (None, Some r) ->
  (exists before, l = before ++ [(r, false)]) /\ Forall (fun x => snd x = false) l.
Proof.
  revert r. induction l as [|[x b] l IH] using rev_ind; intros r; [done|]. rewrite pending_of_snoc. unfold pending_step. destruct b; [done|]. simpl.
  intros [= Hb ->]. split; [by exists l|]. apply Forall_app_2; [|by repeat constructor].
  destruct (pending_of l) as [bar lat] eqn:E. simpl in Hb. subst bar. destruct lat as [r'|]; [by apply (IH r')|].
  by rewrite (pending_none l E).
Qed.

Lemma pending_barrier l b lat : pending_of l = (Some b, lat) ->
  exists before after, l = before ++ (b, true) :: after /\ pending_of after = (None, lat).
Proof.
  revert lat. induction l as [|[x a] l IH] using rev_ind; intros lat; [done|]. rewrite pending_of_snoc. unfold pending_step. destruct a; simpl.
  - intros [= -> <-]. by exists l, [].
  - intros [= Hb <-]. destruct (pending_of l) as [bar lat'] eqn:E. simpl in Hb. subst bar.
    destruct (IH lat' eq_refl) as (before & after & -> & Ha). exists before, (after ++ [(x, false)]).
    rewrite <- app_assoc. split; [done|]. by rewrite pending_of_snoc, Ha.
Qed.

(** The last authoritative record. *)
Definition last_authoritative (l : list (CursorRecord * bool)) : option CursorRecord :=
  fst <$> last (List.filter snd l).

Lemma last_authoritative_app l l' : Forall (fun x => snd x = false) l' -> last_authoritative (l ++ l') = last_authoritative l.
Proof.
  intros H. unfold last_authoritative. rewrite List.filter_app.
  assert (List.filter snd l' = []) as -> by (induction H as [|x l' Hx _ IH]; [done|]; simpl; by rewrite Hx). by rewrite app_nil_r.
Qed.

Lemma last_authoritative_snoc l r : last_authoritative (l ++ [(r, true)]) = Some r.
Proof. unfold last_authoritative. rewrite List.filter_app. simpl. by rewrite last_snoc. Qed.

Definition for_key {A} (k : jstr) (l : list (jstr * A)) : list A := omap (fun x => if jstr_eqb (fst x) k then Some (snd x) else None) l.

Lemma for_key_app {A} k (l l' : list (jstr * A)) : for_key k (l ++ l') = for_key k l ++ for_key k l'.
Proof. unfold for_key. by rewrite omap_app. Qed.

Lemma for_key_one {A} k x (a : A) : for_key k [(x, a)] = if jstr_eqb x k then [a] else [].
Proof. unfold for_key. simpl. by destruct (jstr_eqb x k). Qed.

(** ** Runs *)

(** [H] lists the records remembered so far, with their keys. *)
Inductive journal_run : list (jstr * (CursorRecord * bool)) -> CursorJournal -> Prop :=
| run_new : journal_run [] (new_journal true)
| run_remember H j record authoritative : journal_run H j ->
    journal_run (match normalized record with Some (Done r) => H ++ [(record_key r, (r, authoritative))] | _ => H end)
      (fst (remember j record authoritative))
| run_settle H j k saved : journal_run H j -> journal_run H (resume j k saved)
| run_reset H j ep : journal_run H j -> journal_run H (resetForEpoch j ep)
| run_load H j records : journal_run H j -> journal_run H (loaded j records).

(** A save of key [k] that succeeded covers the cursor. *)
Definition covered_by_save (j : CursorJournal) (k : jstr) (r : CursorRecord) : Prop :=
  exists r', (k, r') ∈ cj_persisted j /\ covered (Some (cr_cursor r')) (cr_cursor r) = true.

(** The records of key [k] split into those handled and those that wait in its queue. *)
Record key_ok (H : list (jstr * (CursorRecord * bool))) (j : CursorJournal) (k : jstr) : Prop := {
  ko_split : exists handled waiting, for_key k H = handled ++ waiting /\
    for_key k (cj_calls j) `sublist_of` handled /\
    last_authoritative handled = last_authoritative (for_key k (cj_calls j)) /\
    (forall x, last handled = Some x -> last (for_key k (cj_calls j)) = Some x \/ covered_by_save j k (fst x)) /\
    match map_get k (cj_queues j) with
    | None => waiting = []
    | Some q => q_running q = true /\ pending_of waiting = (q_barrier q, q_latest q)
    end;
  ko_flight : is_Some (map_get k (cj_queues j)) <-> is_Some (map_get k (cj_inflight j));
  ko_saved : forall cur, map_get k (cj_saved j) = Some cur -> exists r, (k, r) ∈ cj_persisted j /\ cr_cursor r = cur;
}.

(** *** Steps that leave a key alone *)

Record agree (k : jstr) (j j' : CursorJournal) : Prop := {
  ag_queue : map_get k (cj_queues j') = map_get k (cj_queues j);
  ag_flight : map_get k (cj_inflight j') = map_get k (cj_inflight j);
  ag_saved : forall cur, map_get k (cj_saved j') = Some cur -> map_get k (cj_saved j) = Some cur;
  ag_calls : for_key k (cj_calls j') = for_key k (cj_calls j);
  ag_persisted : forall x, x ∈ cj_persisted j -> x ∈ cj_persisted j';
}.

Lemma agree_refl k j : agree k j j.
Proof. by constructor. Qed.

Lemma agree_trans k j1 j2 j3 : agree k j1 j2 -> agree k j2 j3 -> agree k j1 j3.
Proof. intros [] []. constructor; try congruence; auto. Qed.

Lemma covered_by_mono j j' k r : (forall x, x ∈ cj_persisted j -> x ∈ cj_persisted j') -> covered_by_save j k r -> covered_by_save j' k r.
Proof. intros Hp (r' & Hin & Hc). exists r'. auto. Qed.

Lemma key_ok_agree H H' j j' k : agree k j j' -> for_key k H' = for_key k H -> key_ok H j k -> key_ok H' j' k.
Proof.
  intros [A1 A2 A3 A4 A5] HH [(handled & waiting & S1 & S2 & S3 & S4 & S5) Hf Hs]. constructor.
  - exists handled, waiting. rewrite HH, A4, A1. split_and!; try done. intros x Hx. destruct (S4 x Hx) as [|Hc]; [by left|right].
    by eapply covered_by_mono.
  - by rewrite A1, A2.
  - intros cur Hc. destruct (Hs cur) as (r & Hr & <-); [auto|]. exists r. auto.
Qed.

(** Deleting keys of the in-memory maps only forgets what was saved. *)
Definition forgets (saved saved' : jsmap jstr Cursor) : Prop :=
  forall k cur, map_get k saved' = Some cur -> map_get k saved = Some cur.

Lemma forgets_refl saved : forgets saved saved.
Proof. by intros k cur. Qed.

Lemma forgets_delete saved k : forgets saved (map_delete k saved).
Proof. intros x cur. rewrite map_get_delete. by destruct (decide _). Qed.

Lemma agree_memory j records bySession saved k : forgets (cj_saved j) saved -> agree k j (set_memory j records bySession saved).
Proof. intros Hf. constructor; simpl; auto. Qed.

Lemma agree_reset j ep k : agree k j (resetForEpoch j ep).
Proof.
  unfold resetForEpoch. generalize (cj_records j) as l. intros l. revert j. induction l as [|kv l IH]; intros j; [apply agree_refl|].
  cbn [fold_left]. eapply agree_trans; [|apply IH]. destruct (jstr_eqb _ _); [apply agree_refl|]. apply agree_memory, forgets_delete.
Qed.

Lemma agree_loaded j records k : agree k j (loaded j records).
Proof.
  unfold loaded. generalize (slice_first MAX_SAVED records) as l. intros l. revert j. induction l as [|r l IH]; intros j; [apply agree_refl|].
  cbn [fold_left]. eapply agree_trans; [|apply IH]. destruct (normalized r) as [[r'|]|]; try apply agree_refl. by apply agree_memory, forgets_refl.
Qed.

Lemma agree_remember_record j r k : agree k j (remember_record j r).
Proof.
  unfold remember_record. destruct (_ <? _); [|by apply agree_memory, forgets_refl]. destruct (map_set _ _ _) as [|[oldest ?] ?]; [by apply agree_memory, forgets_refl|].
  apply agree_memory, forgets_delete.
Qed.

(** *** The drain of one key *)

(** The loop of the drain of [k] is about to look at its queue [q]. *)
Record open_ok (H : list (jstr * (CursorRecord * bool))) (j : CursorJournal) (k : jstr) (q : SaveQueue) : Prop := {
  op_split : exists handled waiting, for_key k H = handled ++ waiting /\
    for_key k (cj_calls j) `sublist_of` handled /\
    last_authoritative handled = last_authoritative (for_key k (cj_calls j)) /\
    (forall x, last handled = Some x -> last (for_key k (cj_calls j)) = Some x \/ covered_by_save j k (fst x)) /\
    pending_of waiting = (q_barrier q, q_latest q);
  op_flight : map_get k (cj_inflight j) = None;
  op_saved : forall cur, map_get k (cj_saved j) = Some cur -> exists r, (k, r) ∈ cj_persisted j /\ cr_cursor r = cur;
}.

(** A record handed to the store. *)
Lemma start_save_ok H j k id q r authoritative handled waiting :
  for_key k H = handled ++ waiting -> last handled = Some (r, authoritative) ->
  for_key k (cj_calls j) ++ [(r, authoritative)] `sublist_of` handled ->
  last_authoritative handled = last_authoritative (for_key k (cj_calls j) ++ [(r, authoritative)]) ->
  q_running q = true -> pending_of waiting = (q_barrier q, q_latest q) ->
  (forall cur, map_get k (cj_saved j) = Some cur -> exists r, (k, r) ∈ cj_persisted j /\ cr_cursor r = cur) ->
  key_ok H (start_save j k id q r authoritative) k.
Proof.
  intros S1 Hl S2 S3 Hq Hw Hs.
  assert (for_key k (cj_calls (start_save j k id q r authoritative)) = for_key k (cj_calls j) ++ [(r, authoritative)]) as E.
  { cbn [start_save cj_calls]. by rewrite for_key_app, for_key_one, jstr_eqb_refl. }
  constructor.
  - exists handled, waiting. rewrite E. split_and!; try done.
    + intros x Hx. rewrite Hl in Hx. injection Hx as <-. left. by rewrite last_snoc.
    + cbn [start_save cj_queues]. by rewrite map_get_set_eq.
  - cbn [start_save cj_queues cj_inflight]. rewrite !map_get_set_eq. by split; eexists.
  - intros cur Hc. apply Hs. cbn [start_save cj_saved] in Hc. destruct authoritative; [|done]. by rewrite map_get_delete_eq in Hc.
Qed.

Lemma end_drain_ok H j k q drains handled :
  for_key k H = handled -> for_key k (cj_calls j) `sublist_of` handled ->
  last_authoritative handled = last_authoritative (for_key k (cj_calls j)) ->
  (forall x, last handled = Some x -> last (for_key k (cj_calls j)) = Some x \/ covered_by_save j k (fst x)) ->
  map_get k (cj_inflight j) = None ->
  (forall cur, map_get k (cj_saved j) = Some cur -> exists r, (k, r) ∈ cj_persisted j /\ cr_cursor r = cur) ->
  key_ok H (end_drain (set_queue j k q) k drains) k.
Proof.
  intros S1 S2 S3 S4 Hf Hs. constructor; cbn [end_drain set_queue cj_queues cj_inflight cj_saved cj_calls cj_persisted].
  - exists handled, []. rewrite app_nil_r, map_get_delete_eq. by split_and!.
  - rewrite map_get_delete_eq, Hf. by split; intros [? ?].
  - exact Hs.
Qed.

Lemma drain_loop_ok H j k id q drains : open_ok H j k q ->
  let r := drain_loop j k id q in key_ok H (if snd r then fst r else end_drain (fst r) k drains) k.
Proof.
  intros [(handled & waiting & S1 & S2 & S3 & S4 & S5) Hf Hs]. unfold drain_loop.
  destruct (q_barrier q) as [b|] eqn:Eb; [|destruct (q_latest q) as [r|] eqn:El]; cbn [fst snd].
  - destruct (pending_barrier _ _ _ S5) as (before & after & -> & Ha).
    apply (start_save_ok H j k id _ b true (handled ++ before ++ [(b, true)]) after); try done.
    + by rewrite S1, <- !app_assoc.
    + by rewrite app_assoc, last_snoc.
    + rewrite app_assoc. apply sublist_app; [|done]. by apply sublist_inserts_r.
    + by rewrite app_assoc, !last_authoritative_snoc.
  - destruct (pending_latest _ _ S5) as [[before ->] Hall]. apply Forall_app in Hall as [Hall _].
    destruct (covered (map_get k (cj_saved j)) (cr_cursor r)) eqn:Ec; cbn [fst snd].
    + apply (end_drain_ok H j k _ drains (handled ++ before ++ [(r, false)])); try done.
      * by apply sublist_inserts_r.
      * rewrite last_authoritative_app; [done|]. apply Forall_app_2; [done|by repeat constructor].
      * intros x. rewrite app_assoc, last_snoc. intros [= <-]. right. unfold covered in Ec.
        destruct (map_get k (cj_saved j)) as [cur|] eqn:Es; [|done]. destruct (Hs cur eq_refl) as (r' & Hr' & <-). by exists r'.
    + apply (start_save_ok H j k id _ r false (handled ++ before ++ [(r, false)]) []); try done.
      * by rewrite S1, app_nil_r.
      * by rewrite app_assoc, last_snoc.
      * rewrite app_assoc. apply sublist_app; [|done]. by apply sublist_inserts_r.
      * rewrite !last_authoritative_app; [done|by repeat constructor|]. apply Forall_app_2; [done|by repeat constructor].
  - rewrite (pending_none waiting S5), app_nil_r in S1. by apply (end_drain_ok H j k _ drains handled).
Qed.

Lemma drain_loop_other j k id q drains x : x ≠ k ->
  let r := drain_loop j k id q in agree x j (if snd r then fst r else end_drain (fst r) k drains).
Proof.
  intros Hx. assert (jstr_eqb k x = false) as Hk by (apply jstr_eqb_neq; congruence).
  assert (forall q' r a, agree x j (start_save j k id q' r a)) as Hsave.
  { intros q' r a. constructor; cbn [start_save cj_queues cj_inflight cj_saved cj_calls cj_persisted]; try done.
    - by rewrite map_get_set_ne.
    - by rewrite map_get_set_ne.
    - intros cur. destruct a; [by rewrite map_get_delete_ne|done].
    - by rewrite for_key_app, for_key_one, Hk, app_nil_r. }
  assert (forall q', agree x j (end_drain (set_queue j k q') k drains)) as Hend.
  { intros q'. constructor; cbn [end_drain set_queue cj_queues cj_inflight cj_saved cj_calls cj_persisted]; try done.
    by rewrite map_get_delete_ne, map_get_set_ne. }
  unfold drain_loop. destruct (q_barrier q); [apply Hsave|]. destruct (q_latest q); [|apply Hend].
  by destruct (covered _ _); [apply Hend|apply Hsave].
Qed.

(** *** Every step keeps the invariant *)

Lemma drain_loop_store j k id q : cj_store (fst (drain_loop j k id q)) = cj_store j.
Proof. unfold drain_loop. destruct (q_barrier q); [done|]. destruct (q_latest q); [|done]. by destruct (covered _ _). Qed.

Lemma memory_store j : (forall ep, cj_store (resetForEpoch j ep) = cj_store j) /\ (forall l, cj_store (loaded j l) = cj_store j) /\
  forall r, cj_store (remember_record j r) = cj_store j.
Proof.
  split_and!.
  - intros ep. unfold resetForEpoch. generalize (cj_records j) as l. intros l. revert j. induction l as [|kv l IH]; intros j; [done|].
    cbn [fold_left]. rewrite IH. by destruct (jstr_eqb _ _).
  - intros l. unfold loaded. generalize (slice_first MAX_SAVED l) as l'. intros l'. revert j. induction l' as [|r l' IH]; intros j; [done|].
    cbn [fold_left]. rewrite IH. by destruct (normalized r) as [[?|?]|].
  - intros r. unfold remember_record. destruct (_ <? _); [|done]. by destruct (map_set _ _ _) as [|[? ?] ?].
Qed.

Lemma agree_add_drain k j id : agree k j (add_drain j id).
Proof. by constructor. Qed.

Lemma drain_ok H j k q : open_ok H j k q -> key_ok H (drain j k q) k.
Proof.
  intros Ho. unfold drain. pose proof (drain_loop_ok H j k (cj_nextDrain j) q (cj_drains (fst (drain_loop j k (cj_nextDrain j) q))) Ho) as Hk.
  destruct (drain_loop j k (cj_nextDrain j) q) as [j' s]. by eapply key_ok_agree; [apply agree_add_drain| |exact Hk].
Qed.

Lemma drain_other j k q x : x ≠ k -> agree x j (drain j k q).
Proof.
  intros Hx. unfold drain. pose proof (drain_loop_other j k (cj_nextDrain j) q (cj_drains (fst (drain_loop j k (cj_nextDrain j) q))) x Hx) as Ha.
  destruct (drain_loop j k (cj_nextDrain j) q) as [j' s]. eapply agree_trans; [exact Ha|apply agree_add_drain].
Qed.

Lemma set_queue_other j k q x : x ≠ k -> agree x j (set_queue j k q).
Proof. intros Hx. constructor; try done. cbn. by rewrite map_get_set_ne. Qed.

(** A remembered record joins those that wait. *)
Lemma remember_key H j r authoritative : key_ok H j (record_key r) ->
  let k := record_key r in let q := enqueue (queue_of j k) r authoritative in
  key_ok (H ++ [(k, (r, authoritative))]) (if q_running q then set_queue j k q else drain (set_queue j k q) k q) k.
Proof.
  intros [(handled & waiting & S1 & S2 & S3 & S4 & S5) Hf Hs] k q. fold k in Hf, Hs, S1, S2, S3, S4, S5.
  assert (for_key k (H ++ [(k, (r, authoritative))]) = handled ++ waiting ++ [(r, authoritative)]) as EH
    by (by rewrite for_key_app, for_key_one, jstr_eqb_refl, S1, app_assoc).
  destruct (map_get k (cj_queues j)) as [q0|] eqn:Eq.
  - destruct S5 as [Hrun Hp]. assert (q = enqueue q0 r authoritative) as Hq by (unfold q, queue_of; by rewrite Eq).
    assert (q_running q = true) as Hqr by (rewrite Hq; unfold enqueue; by destruct authoritative). rewrite Hqr. constructor; cbn [set_queue].
    + exists handled, (waiting ++ [(r, authoritative)]). cbn. rewrite map_get_set_eq. split_and!; try done.
      rewrite pending_of_snoc, Hp, Hq. unfold pending_step, enqueue. by destruct authoritative.
    + cbn. rewrite map_get_set_eq, <- Hf. by split; eexists.
    + exact Hs.
  - subst waiting. assert (q = enqueue (mkQueue None None false) r authoritative) as Hq by (unfold q, queue_of; by rewrite Eq).
    assert (q_running q = false) as Hqr by (rewrite Hq; unfold enqueue; by destruct authoritative). rewrite Hqr. apply drain_ok. constructor.
    + exists handled, [(r, authoritative)]. cbn. split_and!; try done. rewrite Hq. unfold pending_of, pending_step, enqueue. by destruct authoritative.
    + cbn. destruct (map_get k (cj_inflight j)) eqn:E; [|done]. destruct (proj2 Hf) as [? ?]; [by eexists|done].
    + exact Hs.
Qed.

Lemma resume_key H j k saved : key_ok H j k -> key_ok H (resume j k saved) k.
Proof.
  intros Hk. pose proof Hk as [(handled & waiting & S1 & S2 & S3 & S4 & S5) Hf Hs]. unfold resume.
  destruct (map_get k (cj_inflight j)) as [[id r]|] eqn:Ei; [|done]. set (j1 := mkJournal _ _ _ _ _ _ _ _ _ _ _).
  destruct (map_get k (cj_queues j)) as [q0|] eqn:Eq; [|destruct (proj2 Hf) as [? ?]; [by eexists|done]]. destruct S5 as [_ Hp].
  assert (forall x, x ∈ cj_persisted j -> x ∈ cj_persisted j1) as Hper by (intros x Hx; cbn; destruct saved; set_solver).
  assert (queue_of j1 k = q0) as -> by (unfold queue_of; cbn; by rewrite Eq).
  assert (open_ok H j1 k q0) as Ho.
  { constructor.
    - exists handled, waiting. split_and!; try done. intros x Hx. destruct (S4 x Hx) as [|Hc]; [by left|right; by eapply covered_by_mono].
    - cbn. apply map_get_delete_eq.
    - intros cur. cbn. destruct saved; [rewrite map_get_set_eq; intros [= <-]; exists r; set_solver|]. exact (Hs cur). }
  pose proof (drain_loop_ok H j1 k id q0 (List.filter (fun d => negb (Nat.eqb d id)) (cj_drains (fst (drain_loop j1 k id q0)))) Ho) as Hres.
  by destruct (drain_loop j1 k id q0) as [j2 s].
Qed.

Lemma resume_other j k saved x : x ≠ k -> agree x j (resume j k saved).
Proof.
  intros Hx. unfold resume. destruct (map_get k (cj_inflight j)) as [[id r]|]; [|apply agree_refl]. set (j1 := mkJournal _ _ _ _ _ _ _ _ _ _ _).
  assert (agree x j j1) as Ha.
  { constructor; cbn; try done.
    - by rewrite map_get_delete_ne.
    - intros cur. destruct saved; [by rewrite map_get_set_ne|done].
    - intros y Hy. destruct saved; set_solver. }
  eapply agree_trans; [exact Ha|].
  pose proof (drain_loop_other j1 k id (queue_of j1 k) (List.filter (fun d => negb (Nat.eqb d id)) (cj_drains (fst (drain_loop j1 k id (queue_of j1 k))))) x Hx) as Hres.
  by destruct (drain_loop j1 k id (queue_of j1 k)) as [j2 s].
Qed.

Lemma resume_store j k saved : cj_store (resume j k saved) = cj_store j.
Proof.
  unfold resume. destruct (map_get k _) as [[id r]|]; [|done]. set (j1 := mkJournal _ _ _ _ _ _ _ _ _ _ _).
  pose proof (drain_loop_store j1 k id (queue_of j1 k)) as Hs. destruct (drain_loop j1 k id (queue_of j1 k)) as [j2 []]; exact Hs.
Qed.

Lemma journal_run_ok H j : journal_run H j -> cj_store j = true /\ forall k, key_ok H j k.
Proof.
  induction 1 as [|H j record authoritative _ [Hst IH]|H j k saved _ [Hst IH]|H j ep _ [Hst IH]|H j l _ [Hst IH]].
  - split; [done|]. intros k. constructor; [|by split; intros [? ?]|done]. exists [], []. by split_and!.
  - unfold remember. destruct (normalized record) as [[r|m]|]; [|done|done]. destruct (memory_store j) as (_ & _ & Hm). rewrite Hm, Hst.
    cbn [negb fst]. set (j1 := remember_record j r). set (q := enqueue _ _ _). split.
    + destruct (q_running q); [by rewrite <- Hst, <- (Hm r)|]. unfold drain.
      pose proof (drain_loop_store (set_queue j1 (record_key r) q) (record_key r) (cj_nextDrain (set_queue j1 (record_key r) q)) q) as Hs.
      destruct (drain_loop _ _ _ _) as [j2 []]; cbn in Hs |- *; by rewrite Hs, <- Hst, <- (Hm r).
    + intros k. assert (key_ok H j1 k) as Hk by (by eapply key_ok_agree; [apply agree_remember_record| |apply IH]).
      destruct (decide (k = record_key r)) as [->|Hne]; [by apply remember_key|].
      eapply key_ok_agree; [| |exact Hk].
      * destruct (q_running q); [by apply set_queue_other|]. eapply agree_trans; [by apply set_queue_other|by apply drain_other].
      * rewrite for_key_app, for_key_one. assert (jstr_eqb (record_key r) k = false) as -> by (apply jstr_eqb_neq; congruence).
        by rewrite app_nil_r.
  - split; [by rewrite resume_store|]. intros x. destruct (decide (x = k)) as [->|Hne]; [by apply resume_key|].
    by eapply key_ok_agree; [by apply resume_other| |apply IH].
  - split; [by destruct (memory_store j) as (-> & _)|]. intros x. by eapply key_ok_agree; [apply agree_reset| |apply IH].
  - split; [by destruct (memory_store j) as (_ & -> & _)|]. intros x. by eapply key_ok_agree; [apply agree_loaded| |apply IH].
Qed.

(** *** Draining ends *)

Definition queued (q : SaveQueue) : nat := length (option_list (q_barrier q)) + length (option_list (q_latest q)).

(** Saves still to be settled for key [k] when nothing new is remembered. *)
Definition outstanding (j : CursorJournal) (k : jstr) : nat :=
  match map_get k (cj_inflight j) with None => 0 | Some _ => 1 + queued (queue_of j k) end.

Lemma outstanding_bound j k : (outstanding j k <= 3)%nat.
Proof.
  unfold outstanding, queued. destruct (map_get k _); [|lia]. destruct (q_barrier _), (q_latest _); simpl; lia.
Qed.

Lemma drain_loop_outstanding j k id q drains : map_get k (cj_inflight j) = None ->
  let r := drain_loop j k id q in (outstanding (if snd r then fst r else end_drain (fst r) k drains) k <= queued q)%nat.
Proof.
  intros Hf. unfold drain_loop, outstanding, queued, queue_of.
  destruct (q_barrier q), (q_latest q); try destruct (covered _ _); cbn [fst snd start_save end_drain set_queue cj_inflight cj_queues];
    rewrite ?map_get_set_eq, ?Hf; simpl; lia.
Qed.

Lemma resume_outstanding j k saved : (outstanding (resume j k saved) k <= outstanding j k - 1)%nat.
Proof.
  unfold resume, outstanding at 2. destruct (map_get k (cj_inflight j)) as [[id r]|] eqn:Ei; [|unfold outstanding; by rewrite Ei].
  set (j1 := mkJournal _ _ _ _ _ _ _ _ _ _ _).
  pose proof (drain_loop_outstanding j1 k id (queue_of j1 k) (List.filter (fun d => negb (Nat.eqb d id)) (cj_drains (fst (drain_loop j1 k id (queue_of j1 k)))))) as H.
  specialize (H (map_get_delete_eq _ _)). change (queue_of j1 k) with (queue_of j k) in *. cbv zeta in H.
  destruct (drain_loop j1 k id (queue_of j k)) as [j2 []]; cbn [fst snd] in H; lia.
Qed.

(** The journal after the saves of [k] have settled with these outcomes. *)
Definition settle_all (j : CursorJournal) (k : jstr) (outcomes : list bool) : CursorJournal :=
  fold_left (fun j saved => resume j k saved) outcomes j.

Lemma settle_all_outstanding outcomes j k : (outstanding (settle_all j k outcomes) k <= outstanding j k - length outcomes)%nat.
Proof.
  unfold settle_all. revert j. induction outcomes as [|b outcomes IH]; intros j; simpl; [lia|].
  pose proof (IH (resume j k b)). pose proof (resume_outstanding j k b). lia.
Qed.

Lemma settle_all_run H outcomes j k : journal_run H j -> journal_run H (settle_all j k outcomes).
Proof. unfold settle_all. revert j. induction outcomes as [|b outcomes IH]; intros j Hr; [done|]. simpl. apply IH. by apply run_settle. Qed.


(** Draining always ends.  Whatever is queued for a session, after three of its saves have
    settled, successfully or not, with nothing new remembered for it, no save is in flight, its
    queue is gone, and the last record remembered for it was the last one given to the store or
    is covered by a save that succeeded. *)
Theorem journal_drains H j k outcomes : journal_run H j -> (3 <= length outcomes)%nat ->
  let j' := settle_all j k outcomes in
  map_get k (cj_inflight j') = None /\ map_get k (cj_queues j') = None /\
  forall x, last (for_key k H) = Some x -> last (for_key k (cj_calls j')) = Some x \/ covered_by_save j' k (fst x).
Proof.
  intros Hr Hlen j'. pose proof (settle_all_outstanding outcomes j k) as Ho. pose proof (outstanding_bound j k). fold j' in Ho.
  assert (map_get k (cj_inflight j') = None) as Hi.
  { destruct (map_get k (cj_inflight j')) as [x|] eqn:E; [|done]. unfold outstanding in Ho at 1. rewrite E in Ho. lia. }
  destruct (journal_run_ok H j' (settle_all_run H outcomes j k Hr)) as [_ Hok].
  destruct (Hok k) as [(handled & waiting & S1 & S2 & S3 & S4 & S5) Hf _].
  destruct (map_get k (cj_queues j')) as [q|] eqn:Eq; [destruct (proj1 Hf) as [? ?]; [by eexists|congruence]|].
  subst waiting. rewrite app_nil_r in S1. by rewrite S1.
Qed.

(** A cursor, an authoritative reset and a later cursor, remembered while the first is saved. *)
Definition sample_cursor (n : Z) : CursorRecord := mkCursorRecord (js "h") (js "s") (mkCursor (js "e") n).
Definition sample_journal : CursorJournal :=
  fst (remember (fst (remember (fst (remember (new_journal true) (sample_cursor 7) false)) (sample_cursor 2) true)) (sample_cursor 3) false).
Definition sample_history : list (jstr * (CursorRecord * bool)) :=
  let k := sessionKey (js "h") (js "s") in [(k, (sample_cursor 7, false)); (k, (sample_cursor 2, true)); (k, (sample_cursor 3, false))].

Lemma sample_journal_run : journal_run sample_history sample_journal.
Proof. exact (run_remember _ _ (sample_cursor 3) false (run_remember _ _ (sample_cursor 2) true (run_remember _ _ (sample_cursor 7) false run_new))). Qed.


Lemma journal_drains_witness :
  let k := sessionKey (js "h") (js "s") in
  let j := settle_all sample_journal k [true; false; true] in
  map (fun c => seq (cr_cursor (fst (snd c)))) (cj_calls j) = [7; 2; 3] /\ map_get k (cj_inflight j) = None.
Proof.
  intros k j. split; [reflexivity|].
  apply (journal_drains sample_history sample_journal k [true; false; true]); [exact sample_journal_run|simpl; lia].
Defined.

(** A cursor that a successful save already covers, remembered while its session is idle, leaves
    an entry in [drains] that no save will remove: the drain ends before its promise is known. *)
Lemma covered_remember_leaks j record r : cj_store j = true -> normalized record = Some (Done r) ->
  map_get (record_key r) (cj_queues (remember_record j r)) = None ->
  covered (map_get (record_key r) (cj_saved (remember_record j r))) (cr_cursor r) = true ->
  let j' := fst (remember j record false) in
  pendingSaves j' = pendingSaves (remember_record j r) + 1 /\ cj_inflight j' = cj_inflight (remember_record j r) /\
  cj_calls j' = cj_calls (remember_record j r).
Proof.
  intros Hst Hn Hq Hc. unfold remember. rewrite Hn. destruct (memory_store j) as (_ & _ & Hm). rewrite Hm, Hst. cbn [negb].
  unfold queue_of. rewrite Hq. cbn [default enqueue q_running q_barrier]. unfold drain, drain_loop. cbn [q_barrier q_latest cj_saved set_queue].
  rewrite Hc. cbn [fst]. unfold pendingSaves. cbn [add_drain end_drain set_queue cj_drains cj_inflight cj_calls]. by rewrite len_app.
Qed.
