(* ===== verification/ClientRequests.v ===== *)
(** * ClientRequests: requests the client waits for
    ([packages/client/src/omp-client-pending.ts], [omp-client-response.ts],
    [omp-client-timers.ts], [omp-client-reconnect-health.ts], and of [omp-client-runtime.ts] the
    sending of requests, the end of a connection and fatal failures)

    A promise is a number, with the list of settlements so far.  Timers and abort listeners are
    the lists of those that are active: a timer carries the request its callback settles, with
    its delay.  Sending is a callback that runs inside [begin] and may settle requests or throw. *)
From stdpp Require Import base tactics option list numbers strings sets.
From S2P Require Import Prelude JsMap JsString JsValue Wire WireGuards.

(** ** Errors, messages and responses *)

Inductive ClientErrorCode :=
| e_transport | e_protocol | e_auth | e_capability | e_invalid_state | e_timeout | e_aborted | e_closed | e_outcome_unknown | e_desync | e_storage.
Record OmpClientError := mkClientError { ce_code : ClientErrorCode; ce_message : jstr; ce_retryable : bool; ce_commandId : option jstr }.
Definition client_error (code : ClientErrorCode) (message : string) (retryable : bool) : OmpClientError := mkClientError code (js message) retryable None.

Inductive MessageKind := MCommand | MConfirm | MPairStart.
Inductive PendingKind := PCommand | PConfirm | PPair | PAttach.
#[export] Instance ClientErrorCode_eq_dec : EqDecision ClientErrorCode.
Proof. solve_decision. Defined.
#[export] Instance MessageKind_eq_dec : EqDecision MessageKind.
Proof. solve_decision. Defined.
#[export] Instance PendingKind_eq_dec : EqDecision PendingKind.
Proof. solve_decision. Defined.

(** The properties of a message that responses are matched with; a pair-start message has neither
    host, session nor command. *)
Record PendingMessage := mkMessage {
  pm_kind : MessageKind;
  pm_commandId : option jstr;
  pm_hostId : option jstr;
  pm_sessionId : option jstr;
}.
Record CommandIntent := mkIntent { ci_hostId : jstr; ci_sessionId : option jstr; ci_command : jstr }.

Record OmpResponse := mkResponse {
  or_requestId : jstr;
  or_commandId : option jstr;
  or_hostId : jstr;
  or_sessionId : option jstr;
  or_ok : bool;
  or_result : jv;
  or_command : option jstr;
  or_errorCode : option jstr;
}.
Inductive PendingResult := ResultResponse (frame : OmpResponse) | ResultPairOk (frame : jv).
Inductive Settlement := Resolved (result : PendingResult) | RejectedWith (error : OmpClientError).

Record Pending := mkPending {
  pd_promise : nat;
  pd_commandId : option jstr;
  pd_message : PendingMessage;
  pd_timer : option nat;
  pd_abort : option nat;
  pd_handedToTransport : bool;
  pd_kind : PendingKind;
  pd_intent : option CommandIntent;
}.

(** [PendingRequests] with the timers and signals it uses. *)
Record Requests := mkRequests {
  rq_max : Z;
  rq_defaultTimeout : Z;
  rq_entries : jsmap jstr Pending;
  rq_timers : jsmap nat (jstr * Z);
  rq_nextTimer : nat;
  rq_listeners : list (nat * (nat * jstr));
  rq_aborted : list nat;
  rq_nextPromise : nat;
  rq_settled : list (nat * Settlement);
}.
Implicit Types (s : Requests) (id requestText : jstr).

Definition MAX_PENDING : Z := 256.
Definition new_requests (max defaultTimeout : Z) : Requests := mkRequests max defaultTimeout [] [] 0 [] [] 0 [].

Definition set_entries s (m : jsmap jstr Pending) : Requests :=
  mkRequests (rq_max s) (rq_defaultTimeout s) m (rq_timers s) (rq_nextTimer s) (rq_listeners s) (rq_aborted s) (rq_nextPromise s) (rq_settled s).
Definition set_timers s (m : jsmap nat (jstr * Z)) (next : nat) : Requests :=
  mkRequests (rq_max s) (rq_defaultTimeout s) (rq_entries s) m next (rq_listeners s) (rq_aborted s) (rq_nextPromise s) (rq_settled s).
Definition set_signals s (l : list (nat * (nat * jstr))) (aborted : list nat) : Requests :=
  mkRequests (rq_max s) (rq_defaultTimeout s) (rq_entries s) (rq_timers s) (rq_nextTimer s) l aborted (rq_nextPromise s) (rq_settled s).
Definition new_promise s : Requests :=
  mkRequests (rq_max s) (rq_defaultTimeout s) (rq_entries s) (rq_timers s) (rq_nextTimer s) (rq_listeners s) (rq_aborted s) (S (rq_nextPromise s)) (rq_settled s).
Definition record_settled s (promise : nat) (r : Settlement) : Requests :=
  mkRequests (rq_max s) (rq_defaultTimeout s) (rq_entries s) (rq_timers s) (rq_nextTimer s) (rq_listeners s) (rq_aborted s) (rq_nextPromise s)
    (rq_settled s ++ [(promise, r)]).

(** ** Timers ([ClientTimerRegistry]) *)

Definition schedule s requestText (delayMs : Z) : Requests * nat :=
  (set_timers s (map_set (rq_nextTimer s) (requestText, Z.max 0 delayMs) (rq_timers s)) (S (rq_nextTimer s)), rq_nextTimer s).
Definition clear_timer s (timer : nat) : Requests := set_timers s (map_delete timer (rq_timers s)) (rq_nextTimer s).
Definition clearAll s : Requests := set_timers s [] (rq_nextTimer s).

(** ** Settling *)

Definition add_listener s (signal promise : nat) requestText : Requests :=
  set_signals s (rq_listeners s ++ [(signal, (promise, requestText))]) (rq_aborted s).
Definition remove_listener s (signal promise : nat) : Requests :=
  set_signals s (List.filter (fun l => negb (bool_decide (fst l = signal) && bool_decide (fst (snd l) = promise))) (rq_listeners s)) (rq_aborted s).

Definition outcome (result : option PendingResult) (error : option OmpClientError) : Settlement :=
  match error, result with
  | Some e, _ => RejectedWith e
  | None, Some r => Resolved r
  | None, None => RejectedWith (client_error e_protocol "request settled without a result" false)
  end.

Definition settle s id (result : option PendingResult) (error : option OmpClientError) : Requests :=
  match map_get id (rq_entries s) with
  | None => s
  | Some pending =>
      let s := set_entries s (map_delete id (rq_entries s)) in
      let s := match pd_timer pending with Some t => clear_timer s t | None => s end in
      let s := match pd_abort pending with Some signal => remove_listener s signal (pd_promise pending) | None => s end in
      record_settled s (pd_promise pending) (outcome result error)
  end.

(** Settle the requests of [ids], one after the other. *)
Definition settle_each s (ids : list jstr) (how : jstr -> option PendingResult * option OmpClientError) : Requests :=
  fold_left (fun s id => settle s id (fst (how id)) (snd (how id))) ids s.

Definition rejectAll s (error : OmpClientError) : Requests := settle_each s (map_keys (rq_entries s)) (fun _ => (None, Some error)).

(** The callback of a timer, and of the listeners of a signal that is aborted. *)
Definition timeout_error : OmpClientError := client_error e_timeout "request timed out" false.
Definition aborted_error : OmpClientError := client_error e_aborted "request aborted" false.
Definition fire s (timer : nat) : Requests :=
  match map_get timer (rq_timers s) with
  | Some (requestText, _) => settle (clear_timer s timer) requestText None (Some timeout_error)
  | None => s
  end.
Definition abort s (signal : nat) : Requests :=
  if bool_decide (signal ∈ rq_aborted s) then s
  else
    let mine := List.filter (fun l => bool_decide (fst l = signal)) (rq_listeners s) in
    let others := List.filter (fun l => negb (bool_decide (fst l = signal))) (rq_listeners s) in
    settle_each (set_signals s others (signal :: rq_aborted s)) (map (fun l => snd (snd l)) mine) (fun _ => (None, Some aborted_error)).

(** ** Beginning a request *)

Definition update_pending s requestText (promise : nat) (f : Pending -> Pending) : Requests :=
  match map_get requestText (rq_entries s) with
  | Some p => if bool_decide (pd_promise p = promise) then set_entries s (map_set requestText (f p) (rq_entries s)) else s
  | None => s
  end.
Definition set_handed (handed : bool) (p : Pending) : Pending :=
  mkPending (pd_promise p) (pd_commandId p) (pd_message p) (pd_timer p) (pd_abort p) handed (pd_kind p) (pd_intent p).
Definition set_abort (signal : nat) (p : Pending) : Pending :=
  mkPending (pd_promise p) (pd_commandId p) (pd_message p) (pd_timer p) (Some signal) (pd_handedToTransport p) (pd_kind p) (pd_intent p).

(** Registering up to the call of [send]: the new entry with its timer and abort listener. *)
Definition register s (message : PendingMessage) requestText (timeoutMs : option Z) (signal : option nat) (kind : PendingKind)
    (intent : option CommandIntent) : Requests :=
  let promise := rq_nextPromise s in
  let '(s, timer) := schedule (new_promise s) requestText (default (rq_defaultTimeout s) timeoutMs) in
  let pending := mkPending promise (pm_commandId message) message (Some timer) None false kind intent in
  let s := set_entries s (map_set requestText pending (rq_entries s)) in
  match signal with
  | None => s
  | Some g =>
      if bool_decide (g ∈ rq_aborted s) then settle s requestText None (Some aborted_error)
      else update_pending (add_listener s g promise requestText) requestText promise (set_abort g)
  end.

Definition begin_ s (message : PendingMessage) requestText (timeoutMs : option Z) (signal : option nat) (kind : PendingKind)
    (intent : option CommandIntent) (send : nat -> Requests -> Requests * option OmpClientError) : Requests * attempt nat :=
  let promise := rq_nextPromise s in
  if rq_max s <=? map_size (rq_entries s) then
    (record_settled (new_promise s) promise (RejectedWith (client_error e_invalid_state "pending request limit reached" false)), Done promise)
  else match wire_id (JStr requestText) with
  | Fail _ => (s, Threw (js "requestId"))
  | Ok _ =>
      let s := register s message requestText timeoutMs signal kind intent in
      if negb (map_has requestText (rq_entries s)) then (s, Done promise)
      else match send promise s with
           | (s, None) => (s, Done promise)
           | (s, Some error) =>
               if map_has requestText (rq_entries s)
               then (settle (update_pending s requestText promise (set_handed false)) requestText None (Some error), Done promise)
               else (s, Done promise)
           end
  end.

(** [sendPending]: the message is encoded and handed to the connection, whose [send] may end the
    connection and may throw. *)
Definition sendPending s (message : PendingMessage) requestText (timeoutMs : option Z) (signal : option nat) (kind : PendingKind)
    (intent : option CommandIntent) (encoded : bool) (transport : Requests -> Requests * option OmpClientError) : Requests * attempt nat :=
  begin_ s message requestText timeoutMs signal kind intent (fun promise s =>
    if negb encoded then (s, Some (client_error e_protocol "outbound message could not be encoded" false))
    else match transport (update_pending s requestText promise (set_handed true)) with
         | (s, None) => (s, None)
         | (s, Some error) => (update_pending s requestText promise (set_handed false), Some error)
         end).

(** ** The end of a connection, and of the client *)

(** The requests a lost connection leaves: those handed to the transport may have run. *)
Definition lost_outcome (p : Pending) : OmpClientError :=
  if pd_handedToTransport p
  then mkClientError e_outcome_unknown (js "request outcome is unknown; inspect server state before retrying") true (slice_first 256 <$> pd_commandId p)
  else client_error e_transport "transport disconnected before request was sent" true.
Definition disconnect s : Requests :=
  settle_each s (map_keys (rq_entries s)) (fun id => (None, lost_outcome <$> map_get id (rq_entries s))).

Definition fatal s (error : OmpClientError) : Requests := rejectAll (clearAll s) error.

(** ** Responses *)

Definition isConfirmationDecisionConsumed (frame : OmpResponse) : bool :=
  negb (bool_decide (or_errorCode frame = Some (js "confirmation_invalid"))).

(** [String(value)] of an optional identifier *)
Definition text_or_undefined (o : option jstr) : jstr := default (js "undefined") o.

Definition is_matching_confirm (frame : OmpResponse) (p : Pending) : bool :=
  bool_decide (pd_kind p = PConfirm) && bool_decide (pm_kind (pd_message p) = MConfirm) &&
  jstr_eqb (text_or_undefined (pm_commandId (pd_message p))) (text_or_undefined (or_commandId frame)) &&
  bool_decide (pm_hostId (pd_message p) = Some (or_hostId frame)) && bool_decide (pm_sessionId (pd_message p) = or_sessionId frame).
Definition matchingConfirmRequests (entries : jsmap jstr Pending) (frame : OmpResponse) : list jstr :=
  map fst (List.filter (fun kv => is_matching_confirm frame (snd kv)) entries).

Inductive ResponseOutput := OutProtocolFailure (message : jstr) | OutPublish | OutAttached (hostId sessionId : jstr).

Definition settle_aliases s (frame : OmpResponse) : Requests :=
  settle_each s (matchingConfirmRequests (rq_entries s) frame) (fun _ => (Some (ResultResponse frame), None)).

(** Why a response does not fit the request it names. *)
Definition mismatch (pending : Pending) (frame : OmpResponse) : option jstr :=
  if bool_decide (pm_kind (pd_message pending) = MPairStart) || negb (bool_decide (pm_hostId (pd_message pending) = Some (or_hostId frame)))
  then Some (js "response host correlation mismatch")
  else if negb (bool_decide (or_sessionId frame = pm_sessionId (pd_message pending))) then Some (js "response session correlation mismatch")
  else if match pd_intent pending, or_command frame with Some i, Some c => negb (jstr_eqb c (ci_command i)) | _, _ => false end
  then Some (js "response command name correlation mismatch")
  else if match pd_commandId pending with Some c => negb (jstr_eqb (text_or_undefined (or_commandId frame)) c) | None => false end
  then Some (js "response command correlation mismatch")
  else None.

Definition handleResponseFrame s (frame : OmpResponse) : Requests * list ResponseOutput :=
  match map_get (or_requestId frame) (rq_entries s) with
  | None => (if isConfirmationDecisionConsumed frame then settle_aliases s frame else s, [OutPublish])
  | Some pending =>
      match mismatch pending frame with
      | Some message => (s, [OutProtocolFailure message])
      | None =>
          let s := settle s (or_requestId frame) (Some (ResultResponse frame)) None in
          let s := if negb (bool_decide (pd_kind pending = PConfirm)) && isConfirmationDecisionConsumed frame then settle_aliases s frame else s in
          let attached := match pd_intent pending with
                          | Some i => match ci_sessionId i with
                                      | Some session => if bool_decide (pd_kind pending = PAttach) && or_ok frame then [OutAttached (ci_hostId i) session] else []
                                      | None => []
                                      end
                          | None => []
                          end in
          (s, attached ++ [OutPublish])
      end
  end.

(** [handleResponse] of the runtime: a failure is fatal to the client. *)
Definition handleResponse s (frame : OmpResponse) : Requests :=
  match handleResponseFrame s frame with
  | (s, [OutProtocolFailure message]) => fatal s (mkClientError e_protocol message false None)
  | (s, _) => s
  end.

(** ** Reconnect health *)

Record ReplayProbe := mkProbe { rp_generation : Z; rp_responseReceived : bool; rp_sawSnapshot : bool; rp_targetCursor : option Cursor }.
(** [resetAttempts] is counted. *)
Record ReconnectHealth := mkHealth { rh_heartbeatGeneration : option Z; rh_replay : jsmap jstr ReplayProbe; rh_resets : nat }.
Implicit Types (h : ReconnectHealth).

Definition new_health : ReconnectHealth := mkHealth None [] 0.
Definition clear_health h : ReconnectHealth := mkHealth None [] (rh_resets h).
Definition beginWelcome h (generation : Z) (sessionKeys : list jstr) : ReconnectHealth :=
  mkHealth None (fold_left (fun m key => map_set key (mkProbe generation false false None) m) sessionKeys []) (rh_resets h).

Definition maybeReset h (generation : Z) : ReconnectHealth :=
  if bool_decide (rh_heartbeatGeneration h = Some generation) && (map_size (rh_replay h) =? 0)
  then mkHealth (rh_heartbeatGeneration h) (rh_replay h) (S (rh_resets h)) else h.
Definition acceptPong h (generation : Z) : ReconnectHealth := maybeReset (mkHealth (Some generation) (rh_replay h) (rh_resets h)) generation.

Definition currentProbe h (generation : Z) (key : jstr) : option ReplayProbe :=
  match map_get key (rh_replay h) with Some p => if rp_generation p =? generation then Some p else None | None => None end.
Definition isComplete (p : ReplayProbe) (current : option Cursor) : bool :=
  if negb (rp_responseReceived p) then false
  else match rp_targetCursor p with
       | None => rp_sawSnapshot p
       | Some target => match current with Some c => jstr_eqb (epoch c) (epoch target) && (seq target <=? seq c) | None => false end
       end.
Definition probed h (generation : Z) (key : jstr) (p : ReplayProbe) (current : option Cursor) : ReconnectHealth :=
  if isComplete p current then maybeReset (mkHealth (rh_heartbeatGeneration h) (map_delete key (rh_replay h)) (rh_resets h)) generation
  else mkHealth (rh_heartbeatGeneration h) (map_set key p (rh_replay h)) (rh_resets h).

(** The cursor of an attach response, if it has a proper one. *)
Definition response_cursor (frame : OmpResponse) : option Cursor :=
  match or_result frame with
  | JObj o => match decodeCursor (prop (js "cursor") o) with Ok c => Some c | Fail _ => None end
  | _ => None
  end.
Definition acceptAttachResponse h (generation : Z) (key : jstr) (frame : OmpResponse) (current : option Cursor) : ReconnectHealth :=
  match currentProbe h generation key with
  | None => h
  | Some p =>
      let target := match response_cursor frame with Some c => Some c | None => rp_targetCursor p end in
      probed h generation key (mkProbe (rp_generation p) true (rp_sawSnapshot p) target) current
  end.
Definition acceptReplayProgress h (generation : Z) (key : jstr) (cursor : Cursor) (snapshot : bool) : ReconnectHealth :=
  match currentProbe h generation key with
  | None => h
  | Some p => probed h generation key (mkProbe (rp_generation p) (rp_responseReceived p) (rp_sawSnapshot p || snapshot) (rp_targetCursor p)) (Some cursor)
  end.
