(* ===== verification/ClientRequestsSpec.v ===== *)
(** * ClientRequestsSpec: one settlement per request

    The invariant of [PendingRequests] with its timers and abort listeners over every sequence of
    events, what the end of a connection tells the requests that wait, and which requests a
    response settles. *)
From stdpp Require Import base tactics option list numbers strings sets.
From S2P Require Import Prelude JsMap JsString JsValue Wire WireGuards ClientRequests.

Implicit Types (s : Requests) (id requestText : jstr) (p : Pending) (g n t : nat).

(** ** Events *)

(** What may happen at any moment, also while a message is handed to the connection. *)
Inductive Interruption :=
| TimerFires (timer : nat)
| SignalAborts (signal : nat)
| ResponseArrives (frame : OmpResponse)
| PairSettles (requestText : jstr) (result : option PendingResult) (error : option OmpClientError)
| ConnectionLost
| ClientFails (error : OmpClientError).
Definition interrupt s (i : Interruption) : Requests :=
  match i with
  | TimerFires t => fire s t
  | SignalAborts g => abort s g
  | ResponseArrives frame => handleResponse s frame
  | PairSettles id result error => settle s id result error
  | ConnectionLost => disconnect s
  | ClientFails error => fatal s error
  end.
Definition interrupt_all s (l : list Interruption) : Requests := fold_left interrupt l s.

(** Sending a request, with what happens while its message is handed over. *)
Record Sending := mkSending {
  sd_message : PendingMessage;
  sd_requestText : jstr;
  sd_timeoutMs : option Z;
  sd_signal : option nat;
  sd_kind : PendingKind;
  sd_intent : option CommandIntent;
  sd_encoded : bool;
  sd_during : list Interruption;
  sd_thrown : option OmpClientError;
}.
Definition send_request s (d : Sending) : Requests * attempt nat :=
  sendPending s (sd_message d) (sd_requestText d) (sd_timeoutMs d) (sd_signal d) (sd_kind d) (sd_intent d) (sd_encoded d)
    (fun s => (interrupt_all s (sd_during d), sd_thrown d)).

Inductive RequestEvent := Sends (d : Sending) | Interrupted (i : Interruption).

(** Request identifiers are generated: one that still waits is not used again. *)
Definition request_event s (ev : RequestEvent) : option Requests :=
  match ev with
  | Sends d => if map_has (sd_requestText d) (rq_entries s) then None else Some (fst (send_request s d))
  | Interrupted i => Some (interrupt s i)
  end.
Fixpoint run_requests s (evs : list RequestEvent) : option Requests :=
  match evs with
  | [] => Some s
  | ev :: evs => match request_event s ev with Some s' => run_requests s' evs | None => None end
  end.

(** ** The invariant *)

Definition waits s n : Prop := exists id p, map_get id (rq_entries s) = Some p /\ pd_promise p = n.
Definition is_settled s n : Prop := n ∈ map fst (rq_settled s).

Record requests_ok s : Prop := {
  ro_wf : map_wf (rq_entries s);
  ro_bound : map_size (rq_entries s) <= rq_max s;
  ro_made : forall n, (n < rq_nextPromise s)%nat <-> is_settled s n \/ waits s n;
  ro_once : NoDup (map fst (rq_settled s));
  ro_open : forall n, is_settled s n -> ~ waits s n;
  ro_own : forall id id' p p', map_get id (rq_entries s) = Some p -> map_get id' (rq_entries s) = Some p' ->
    pd_promise p = pd_promise p' -> id = id';
  ro_timed : forall id p, map_get id (rq_entries s) = Some p -> is_Some (pd_timer p);
  ro_timers : forall t id, fst <$> map_get t (rq_timers s) = Some id <-> exists p, map_get id (rq_entries s) = Some p /\ pd_timer p = Some t;
  ro_next : forall t, is_Some (map_get t (rq_timers s)) -> (t < rq_nextTimer s)%nat;
  ro_listen : forall g n id, (g, (n, id)) ∈ rq_listeners s <->
    exists p, map_get id (rq_entries s) = Some p /\ pd_promise p = n /\ pd_abort p = Some g;
  ro_quiet : forall g n id, (g, (n, id)) ∈ rq_listeners s -> g ∉ rq_aborted s;
}.

Lemma new_requests_ok (max d : Z) : 0 <= max -> requests_ok (new_requests max d).
Proof.
  intros Hm. split; cbn; try done; try constructor.
  - lia.
  - intros [H|(id & p & H & _)]; [by apply elem_of_nil in H|done].
  - by intros n H%elem_of_nil.
  - done.
  - by intros (p & H & _).
  - by intros H%elem_of_nil.
  - by intros (p & H & _).
  - by intros g n id H%elem_of_nil.
Qed.

(** *** Settling *)

Lemma settle_unknown s id r e : map_get id (rq_entries s) = None -> settle s id r e = s.
Proof. unfold settle. by intros ->. Qed.

(** The state after a waiting request is settled. *)
Lemma settle_known s id p r e :
  map_get id (rq_entries s) = Some p ->
  settle s id r e =
    mkRequests (rq_max s) (rq_defaultTimeout s) (map_delete id (rq_entries s))
      (match pd_timer p with Some t => map_delete t (rq_timers s) | None => rq_timers s end) (rq_nextTimer s)
      (match pd_abort p with
       | Some g => List.filter (fun l => negb (bool_decide (fst l = g) && bool_decide (fst (snd l) = pd_promise p))) (rq_listeners s)
       | None => rq_listeners s end)
      (rq_aborted s) (rq_nextPromise s) (rq_settled s ++ [(pd_promise p, outcome r e)]).
Proof. unfold settle. intros ->. destruct (pd_timer p), (pd_abort p); reflexivity. Qed.

Lemma get_delete_some {V} id id' (v : V) (m : jsmap jstr V) :
  map_get id (map_delete id' m) = Some v <-> id ≠ id' /\ map_get id m = Some v.
Proof.
  destruct (decide (id = id')) as [->|Hne].
  - rewrite map_get_delete_eq. naive_solver.
  - rewrite map_get_delete_ne by done. naive_solver.
Qed.

Lemma settle_waits s id p r e n :
  requests_ok s -> map_get id (rq_entries s) = Some p -> (waits (settle s id r e) n <-> waits s n /\ n ≠ pd_promise p).
Proof.
  intros Hok Hp. rewrite (settle_known _ _ _ _ _ Hp). unfold waits; cbn [rq_entries]. split.
  - intros (id' & p' & [Hne Hg]%get_delete_some & <-). split; [by eauto|]. intros Heq.
    by apply Hne, (ro_own _ Hok _ _ _ _ Hg Hp).
  - intros ((id' & p' & Hg & <-) & Hne). exists id', p'. split; [|done]. apply get_delete_some. split; [|done].
    intros ->. simplify_eq.
Qed.

Lemma settle_settled s id p r e n :
  map_get id (rq_entries s) = Some p -> (is_settled (settle s id r e) n <-> is_settled s n \/ n = pd_promise p).
Proof.
  intros Hp. rewrite (settle_known _ _ _ _ _ Hp). unfold is_settled; cbn [rq_settled].
  rewrite map_app, elem_of_app. cbn. by rewrite list_elem_of_singleton.
Qed.

Lemma timer_of s t id x : requests_ok s -> map_get t (rq_timers s) = Some x -> fst x = id -> exists p, map_get id (rq_entries s) = Some p /\ pd_timer p = Some t.
Proof. intros Hok Ht <-. apply (ro_timers _ Hok). by rewrite Ht. Qed.

(** Two waiting requests have different timers. *)
Lemma timer_own s id id' p p' t :
  requests_ok s -> map_get id (rq_entries s) = Some p -> map_get id' (rq_entries s) = Some p' ->
  pd_timer p = Some t -> pd_timer p' = Some t -> id = id'.
Proof.
  intros Hok Hp Hp' Ht Ht'.
  assert (fst <$> map_get t (rq_timers s) = Some id) as H1 by (apply (ro_timers _ Hok); eauto).
  assert (fst <$> map_get t (rq_timers s) = Some id') as H2 by (apply (ro_timers _ Hok); eauto). congruence.
Qed.

Lemma settle_timers s id p r e t id' :
  requests_ok s -> map_get id (rq_entries s) = Some p ->
  (fst <$> map_get t (rq_timers (settle s id r e)) = Some id' <->
   id' ≠ id /\ exists p', map_get id' (rq_entries s) = Some p' /\ pd_timer p' = Some t).
Proof.
  intros Hok Hp. rewrite (settle_known _ _ _ _ _ Hp); cbn [rq_timers].
  destruct (ro_timed _ Hok _ _ Hp) as [u Hu]. rewrite Hu, map_get_delete. destruct (decide (t = u)) as [->|Hne].
  - cbn. split; [done|]. intros (Hne & p' & Hp' & Ht'). destruct Hne. by apply (timer_own s id' id p' p u).
  - rewrite (ro_timers _ Hok). split; [|by intros [_ H]]. intros (p' & Hp' & Ht'). split; [|by eauto].
    intros ->. simplify_eq.
Qed.

Lemma settle_listeners s id p r e g n id' :
  requests_ok s -> map_get id (rq_entries s) = Some p ->
  ((g, (n, id')) ∈ rq_listeners (settle s id r e) <-> id' ≠ id /\ (g, (n, id')) ∈ rq_listeners s).
Proof.
  intros Hok Hp. rewrite (settle_known _ _ _ _ _ Hp); cbn [rq_listeners].
  assert ((g, (n, id')) ∈ rq_listeners s -> id' = id -> n = pd_promise p /\ pd_abort p = Some g) as Hid.
  { intros (p' & Hp' & <- & Hg)%(ro_listen _ Hok) ->. by simplify_eq. }
  destruct (pd_abort p) as [u|] eqn:Hu; [rewrite elem_of_filter_list, negb_true_iff, andb_false_iff, !bool_decide_eq_false; cbn [fst snd]|].
  - split; [intros [Hin Hor]; split; [|done]; intros Heq; destruct (Hid Hin Heq); naive_solver|].
    intros [Hne Hin]. split; [done|]. destruct (decide (n = pd_promise p)) as [->|]; [|by right]. destruct Hne.
    apply (ro_listen _ Hok) in Hin as (p' & Hp' & Heq & _). by apply (ro_own _ Hok _ _ _ _ Hp' Hp).
  - split; [intros Hin; split; [|done]; intros Heq; by destruct (Hid Hin Heq)|by intros [_ ?]].
Qed.

Lemma requests_settle_ok s id r e : requests_ok s -> requests_ok (settle s id r e).
Proof.
  intros Hok. destruct (map_get id (rq_entries s)) as [p|] eqn:Hp; [|by rewrite settle_unknown].
  assert (rq_entries (settle s id r e) = map_delete id (rq_entries s)) as He by by rewrite (settle_known _ _ _ _ _ Hp).
  assert (waits s (pd_promise p)) as Hw by (exists id, p; done).
  split.
  - rewrite He. apply map_wf_delete, Hok.
  - rewrite He, (settle_known _ _ _ _ _ Hp); cbn [rq_max]. pose proof (map_size_delete_le id (rq_entries s)).
    pose proof (ro_bound _ Hok). lia.
  - intros n. rewrite (settle_waits _ _ _ _ _ _ Hok Hp), (settle_settled _ _ _ _ _ _ Hp).
    rewrite (settle_known _ _ _ _ _ Hp); cbn [rq_nextPromise]. rewrite (ro_made _ Hok).
    destruct (decide (n = pd_promise p)); naive_solver.
  - rewrite (settle_known _ _ _ _ _ Hp); cbn [rq_settled]. rewrite map_app. apply NoDup_app; split_and!.
    + apply Hok.
    + intros n Hn ->%list_elem_of_singleton. by apply (ro_open _ Hok _ Hn).
    + apply NoDup_singleton.
  - intros n. rewrite (settle_waits _ _ _ _ _ _ Hok Hp), (settle_settled _ _ _ _ _ _ Hp).
    pose proof (ro_open _ Hok n). naive_solver.
  - intros i i' q q'. rewrite He, !get_delete_some. intros [_ Hq] [_ Hq']. by apply (ro_own _ Hok).
  - intros i q. rewrite He, get_delete_some. intros [_ Hq]. by apply (ro_timed _ Hok _ _ Hq).
  - intros t i. rewrite (settle_timers _ _ _ _ _ _ _ Hok Hp), He. setoid_rewrite get_delete_some. naive_solver.
  - intros t [x Hx]. assert (rq_nextTimer (settle s id r e) = rq_nextTimer s) as -> by by rewrite (settle_known _ _ _ _ _ Hp).
    apply (ro_next _ Hok). assert (fst <$> map_get t (rq_timers (settle s id r e)) = Some (fst x)) as Ht by by rewrite Hx.
    apply (settle_timers _ _ _ _ _ _ _ Hok Hp) in Ht as [_ Ht]. apply (ro_timers _ Hok) in Ht. destruct (map_get t (rq_timers s)); [by eauto|done].
  - intros g n i. rewrite (settle_listeners _ _ _ _ _ _ _ _ Hok Hp), (ro_listen _ Hok), He. setoid_rewrite get_delete_some. naive_solver.
  - intros g n i. rewrite (settle_listeners _ _ _ _ _ _ _ _ Hok Hp). intros [_ Hin].
    rewrite (settle_known _ _ _ _ _ Hp); cbn [rq_aborted]. by apply (ro_quiet _ Hok _ _ _ Hin).
Qed.

(** *** Settling several requests *)

Lemma settle_each_cons s id ids how : settle_each s (id :: ids) how = settle_each (settle s id (fst (how id)) (snd (how id))) ids how.
Proof. reflexivity. Qed.

Lemma settle_each_ok s ids how : requests_ok s -> requests_ok (settle_each s ids how).
Proof. revert s. induction ids as [|id ids IH]; intros s Hok; [done|]. rewrite settle_each_cons. by apply IH, requests_settle_ok. Qed.

Lemma settle_entries s id r e : rq_entries (settle s id r e) = map_delete id (rq_entries s).
Proof.
  destruct (map_get id (rq_entries s)) as [p|] eqn:Hp; [by rewrite (settle_known _ _ _ _ _ Hp)|].
  rewrite settle_unknown, map_delete_notin by (done || by apply map_get_none_keys). done.
Qed.

Lemma settle_each_get s ids how id p :
  map_get id (rq_entries (settle_each s ids how)) = Some p <-> id ∉ ids /\ map_get id (rq_entries s) = Some p.
Proof.
  revert s. induction ids as [|i ids IH]; intros s; [split; [by split; [apply not_elem_of_nil|]|by intros [_ ?]]|].
  rewrite settle_each_cons, IH, settle_entries, get_delete_some, not_elem_of_cons. naive_solver.
Qed.

Lemma settle_each_listeners s ids how g n id :
  requests_ok s -> ((g, (n, id)) ∈ rq_listeners (settle_each s ids how) <-> id ∉ ids /\ (g, (n, id)) ∈ rq_listeners s).
Proof.
  intros Hok. rewrite (ro_listen _ (settle_each_ok _ ids how Hok)), (ro_listen _ Hok). setoid_rewrite settle_each_get. naive_solver.
Qed.

(** The settlements of several requests are added in order. *)
Definition settlement_of (m : jsmap jstr Pending) (how : jstr -> option PendingResult * option OmpClientError) id : option (nat * Settlement) :=
  (fun p => (pd_promise p, outcome (fst (how id)) (snd (how id)))) <$> map_get id m.

Lemma omap_ext_in {A B} (f f' : A -> option B) (l : list A) : (forall x, x ∈ l -> f x = f' x) -> omap f l = omap f' l.
Proof.
  induction l as [|x l IH]; intros H; [done|]. cbn. rewrite H by by left. destruct (f' x); [f_equal|]; apply IH; intros y Hy; apply H; by right.
Qed.

Lemma settle_each_settled s ids how :
  NoDup ids -> rq_settled (settle_each s ids how) = rq_settled s ++ omap (settlement_of (rq_entries s) how) ids.
Proof.
  revert s. induction ids as [|id ids IH]; intros s Hnd; [by rewrite app_nil_r|]. apply NoDup_cons in Hnd as [Hni Hnd].
  rewrite settle_each_cons, IH, settle_entries by done.
  rewrite (omap_ext_in _ (settlement_of (rq_entries s) how)); [|intros i Hi; unfold settlement_of; rewrite map_get_delete_ne; [done|by intros ->]].
  cbn [omap list_omap]. unfold settlement_of at 2. destruct (map_get id (rq_entries s)) as [p|] eqn:Hp; cbn [fmap option_fmap option_map].
  - rewrite (settle_known _ _ _ _ _ Hp); cbn [rq_settled]. by rewrite <- app_assoc.
  - by rewrite settle_unknown.
Qed.

Lemma omap_keys {V B} (m : jsmap jstr V) (f : jstr -> V -> B) :
  map_wf m -> omap (fun id => f id <$> map_get id m) (map_keys m) = map (fun kv => f (fst kv) (snd kv)) m.
Proof.
  induction m as [|[k v] m IH]; intros Hwf; [done|]. pose proof (map_wf_cons_inv _ _ _ Hwf) as [Hk Hwf']. cbn [map_keys map fst snd omap list_omap map_get].
  rewrite decide_True by done. cbn [fmap option_fmap option_map]. f_equal. rewrite <- IH by done. apply omap_ext_in. intros i Hi.
  rewrite decide_False; [done|]. intros ->. done.
Qed.

(** With nothing waiting there is no timer and no listener. *)
Lemma requests_idle s : requests_ok s -> rq_entries s = [] -> rq_timers s = [] /\ rq_listeners s = [].
Proof.
  intros Hok He. split.
  - destruct (rq_timers s) as [|[t x] l] eqn:Ht; [done|]. assert (map_get t (rq_timers s) = Some x) as Hx by (rewrite Ht; cbn; by rewrite decide_True).
    destruct (timer_of s t (fst x) x Hok Hx eq_refl) as (p & Hp & _). by rewrite He in Hp.
  - destruct (rq_listeners s) as [|[g [n id]] l] eqn:Hl; [done|].
    destruct (proj1 (ro_listen _ Hok g n id)) as (p & Hp & _); [rewrite Hl; by left|]. by rewrite He in Hp.
Qed.

Lemma settle_all_empty s how : rq_entries (settle_each s (map_keys (rq_entries s)) how) = [].
Proof.
  destruct (rq_entries (settle_each s (map_keys (rq_entries s)) how)) as [|[k p] l] eqn:He; [done|].
  assert (map_get k (rq_entries (settle_each s (map_keys (rq_entries s)) how)) = Some p) as H by (rewrite He; cbn; by rewrite decide_True).
  apply settle_each_get in H as [Hni Hg]. destruct Hni. apply map_get_keys. eauto.
Qed.

(** *** Timers, signals and the end of the client *)

Lemma clear_timer_settle s t id p r e :
  map_get id (rq_entries s) = Some p -> pd_timer p = Some t -> settle (clear_timer s t) id r e = settle s id r e.
Proof.
  intros Hp Ht. rewrite (settle_known s id p) by done. rewrite (settle_known (clear_timer s t) id p) by done. cbn. rewrite Ht.
  f_equal. apply map_delete_notin. rewrite elem_of_keys_delete. naive_solver.
Qed.

Lemma fire_ok s t : requests_ok s -> requests_ok (fire s t).
Proof.
  intros Hok. unfold fire. destruct (map_get t (rq_timers s)) as [[id d]|] eqn:Ht; [|done].
  destruct (timer_of _ _ id _ Hok Ht eq_refl) as (p & Hp & Hpt). rewrite (clear_timer_settle _ _ _ _ _ _ Hp Hpt). by apply requests_settle_ok.
Qed.

Lemma clearAll_settle s id r e : settle (clearAll s) id r e = clearAll (settle s id r e).
Proof.
  destruct (map_get id (rq_entries s)) as [p|] eqn:Hp; [|by rewrite !settle_unknown].
  rewrite (settle_known s id p), (settle_known (clearAll s) id p) by done. cbn. by destruct (pd_timer p), (pd_abort p).
Qed.
Lemma clearAll_settle_each s ids how : settle_each (clearAll s) ids how = clearAll (settle_each s ids how).
Proof. revert s. induction ids as [|id ids IH]; intros s; [done|]. by rewrite !settle_each_cons, clearAll_settle, IH. Qed.

Lemma fatal_rejects s error : requests_ok s -> fatal s error = rejectAll s error.
Proof.
  intros Hok. unfold fatal, rejectAll. rewrite clearAll_settle_each. cbn [clearAll rq_entries set_timers].
  set (s' := settle_each s _ _). assert (rq_timers s' = []) as Ht.
  { apply requests_idle; [by apply settle_each_ok|apply settle_all_empty]. }
  unfold clearAll, set_timers. rewrite <- Ht. by destruct s'.
Qed.

(** Dropping the listeners of an aborted signal first makes no difference to settling. *)
Definition silence s g : Requests :=
  set_signals s (List.filter (fun l => negb (bool_decide (fst l = g))) (rq_listeners s)) (g :: rq_aborted s).
Lemma filter_comm {A} (P Q : A -> bool) (l : list A) : List.filter P (List.filter Q l) = List.filter Q (List.filter P l).
Proof. induction l as [|x l IH]; [done|]. cbn. destruct (P x) eqn:HP, (Q x) eqn:HQ; cbn; rewrite ?HP, ?HQ, IH; done. Qed.
Lemma silence_settle s g id r e : settle (silence s g) id r e = silence (settle s id r e) g.
Proof.
  destruct (map_get id (rq_entries s)) as [p|] eqn:Hp; [|by rewrite !settle_unknown].
  rewrite (settle_known s id p), (settle_known (silence s g) id p) by done. unfold silence, set_signals. cbn.
  destruct (pd_abort p); [|done]. by rewrite filter_comm.
Qed.
Lemma silence_settle_each s g ids how : settle_each (silence s g) ids how = silence (settle_each s ids how) g.
Proof. revert s. induction ids as [|id ids IH]; intros s; [done|]. by rewrite !settle_each_cons, silence_settle, IH. Qed.

Lemma silence_ok s g : requests_ok s -> (forall n id, (g, (n, id)) ∉ rq_listeners s) -> requests_ok (silence s g).
Proof.
  intros Hok Hg. assert (rq_listeners (silence s g) = rq_listeners s) as Hl.
  { apply filter_all_true. intros [g' [n id]] Hin. cbn. rewrite bool_decide_eq_false_2; [done|]. intros ->. by apply (Hg n id). }
  destruct Hok. split; rewrite ?Hl; try done.
  intros g' n id Hin [->|Ha]%elem_of_cons; [by apply (Hg n id)|by apply (ro_quiet0 g' n id)].
Qed.

(** The requests that listen to a signal. *)
Definition listening s g : list jstr := map (fun l => snd (snd l)) (List.filter (fun l => bool_decide (fst l = g)) (rq_listeners s)).
Lemma elem_of_listening s g id : id ∈ listening s g <-> exists n, (g, (n, id)) ∈ rq_listeners s.
Proof.
  unfold listening. rewrite list_elem_of_In, in_map_iff. setoid_rewrite <- list_elem_of_In. setoid_rewrite elem_of_filter_list. split.
  - intros ([g' [n i]] & <- & Hin & Hb%bool_decide_eq_true). cbn in Hb. subst g'. by exists n.
  - intros [n Hn]. exists (g, (n, id)). cbn. by rewrite bool_decide_eq_true_2.
Qed.

Lemma abort_settles s g :
  g ∉ rq_aborted s -> abort s g = silence (settle_each s (listening s g) (fun _ => (None, Some aborted_error))) g.
Proof. intros Ha. unfold abort. rewrite bool_decide_eq_false_2 by done. by rewrite <- silence_settle_each. Qed.

Lemma abort_ok s g : requests_ok s -> requests_ok (abort s g).
Proof.
  intros Hok. destruct (decide (g ∈ rq_aborted s)) as [Ha|Ha]; [unfold abort; by rewrite bool_decide_eq_true_2|].
  rewrite abort_settles by done. apply silence_ok; [by apply settle_each_ok|]. intros n id.
  rewrite settle_each_listeners, elem_of_listening by done. naive_solver.
Qed.

Lemma disconnect_ok s : requests_ok s -> requests_ok (disconnect s).
Proof. apply settle_each_ok. Qed.
Lemma requests_fatal_ok s error : requests_ok s -> requests_ok (fatal s error).
Proof. intros Hok. rewrite fatal_rejects by done. by apply settle_each_ok. Qed.

Lemma settle_aliases_ok s frame : requests_ok s -> requests_ok (settle_aliases s frame).
Proof. apply settle_each_ok. Qed.
#[local] Hint Resolve requests_settle_ok fire_ok abort_ok disconnect_ok requests_fatal_ok settle_aliases_ok : omp.

Lemma response_frame_ok s frame : requests_ok s -> requests_ok (fst (handleResponseFrame s frame)).
Proof. intros Hok. unfold handleResponseFrame. repeat case_match; cbn [fst]; auto with omp. Qed.
Lemma handleResponse_ok s frame : requests_ok s -> requests_ok (handleResponse s frame).
Proof.
  intros Hok. unfold handleResponse. pose proof (response_frame_ok s frame Hok) as Hf.
  destruct (handleResponseFrame s frame) as [s' out]. cbn [fst] in Hf. repeat case_match; auto with omp.
Qed.
#[local] Hint Resolve handleResponse_ok : omp.

Lemma interrupt_ok s i : requests_ok s -> requests_ok (interrupt s i).
Proof. destruct i; cbn [interrupt]; auto with omp. Qed.
Lemma interrupt_all_ok s l : requests_ok s -> requests_ok (interrupt_all s l).
Proof. revert s. induction l as [|i l IH]; intros s Hok; [done|]. by apply IH, interrupt_ok. Qed.

(** *** Sending *)

Definition skeleton p : nat * option nat * option nat := (pd_promise p, pd_timer p, pd_abort p).
Lemma update_pending_ok s id n f : (forall p, skeleton (f p) = skeleton p) -> requests_ok s -> requests_ok (update_pending s id n f).
Proof.
  intros Hf Hok. unfold update_pending. destruct (map_get id (rq_entries s)) as [p|] eqn:Hp; [|done]. case_bool_decide; [|done].
  set (m := map_set id (f p) (rq_entries s)).
  assert (forall i q, map_get i m = Some q -> exists q0, map_get i (rq_entries s) = Some q0 /\ skeleton q = skeleton q0) as Hto.
  { intros i q. unfold m. rewrite map_get_set. case_decide; [intros [= <-]; subst i; eauto|eauto]. }
  assert (forall i q0, map_get i (rq_entries s) = Some q0 -> exists q, map_get i m = Some q /\ skeleton q = skeleton q0) as Hfrom.
  { intros i q. unfold m. rewrite map_get_set. case_decide; [|eauto]. subst i. intros Hq. simplify_eq. eauto. }
  assert (forall n', waits (set_entries s m) n' <-> waits s n') as Hw.
  { intros n'. split; intros (i & q & Hq & <-).
    - destruct (Hto i q Hq) as (q0 & Hq0 & Hs). exists i, q0. unfold skeleton in Hs. naive_solver congruence.
    - destruct (Hfrom i q Hq) as (q0 & Hq0 & Hs). exists i, q0. unfold skeleton in Hs. naive_solver congruence. }
  destruct Hok as [H1 H2 H3 H4 H5 H6 H7 H8 H9 H10 H11]. unfold skeleton in Hto, Hfrom. split; cbn [set_entries rq_entries rq_max rq_settled rq_timers rq_nextTimer rq_listeners rq_aborted rq_nextPromise]; try done.
  - by apply map_wf_set.
  - unfold m. rewrite map_size_set. unfold map_has. rewrite Hp. done.
  - intros n'. rewrite Hw. apply H3.
  - intros n' Hs. rewrite Hw. by apply H5.
  - intros i i' q q' Hq Hq' Heq. destruct (Hto _ _ Hq) as (q0 & Hq0 & [=]), (Hto _ _ Hq') as (q0' & Hq0' & [=]). apply (H6 _ _ _ _ Hq0 Hq0'). congruence.
  - intros i q Hq. destruct (Hto _ _ Hq) as (q0 & Hq0 & [= _ -> _]). eauto.
  - intros t i. rewrite H8. split; intros (q & Hq & Ht); [destruct (Hfrom _ _ Hq) as (q0 & Hq0 & [=])|destruct (Hto _ _ Hq) as (q0 & Hq0 & [=])]; exists q0; split; congruence.
  - intros g n' i. rewrite H10. split; intros (q & Hq & Hn & Ha); [destruct (Hfrom _ _ Hq) as (q0 & Hq0 & [=])|destruct (Hto _ _ Hq) as (q0 & Hq0 & [=])]; exists q0; split_and!; congruence.
Qed.

(** A new entry with its promise, its timer and its listener. *)
Definition enter s id p (delay : Z) : Requests :=
  mkRequests (rq_max s) (rq_defaultTimeout s) (map_set id p (rq_entries s)) (map_set (rq_nextTimer s) (id, delay) (rq_timers s)) (S (rq_nextTimer s))
    (rq_listeners s ++ match pd_abort p with Some g => [(g, (pd_promise p, id))] | None => [] end) (rq_aborted s) (S (rq_nextPromise s)) (rq_settled s).

Section Enter.
Context (s : Requests) (id : jstr) (p : Pending) (delay : Z).
Hypothesis Hok : requests_ok s.
Hypothesis Hnew : map_get id (rq_entries s) = None.
Hypothesis Hroom : map_size (rq_entries s) < rq_max s.
Hypothesis Hpromise : pd_promise p = rq_nextPromise s.
Hypothesis Htimer : pd_timer p = Some (rq_nextTimer s).
Hypothesis Hsignal : forall g, pd_abort p = Some g -> g ∉ rq_aborted s.

Lemma enter_get i q : map_get i (rq_entries (enter s id p delay)) = Some q <-> (i = id /\ q = p) \/ map_get i (rq_entries s) = Some q.
Proof. cbn [enter rq_entries]. rewrite map_get_set. case_decide; naive_solver. Qed.
Lemma enter_waits n : waits (enter s id p delay) n <-> n = rq_nextPromise s \/ waits s n.
Proof. unfold waits. setoid_rewrite enter_get. naive_solver. Qed.

Lemma old_promise i q : map_get i (rq_entries s) = Some q -> (pd_promise q < rq_nextPromise s)%nat.
Proof. intros Hq. apply (ro_made _ Hok). right. by exists i, q. Qed.
Lemma old_timer i q t : map_get i (rq_entries s) = Some q -> pd_timer q = Some t -> (t < rq_nextTimer s)%nat.
Proof.
  intros Hq Ht. apply (ro_next _ Hok). assert (fst <$> map_get t (rq_timers s) = Some i) as H by (apply (ro_timers _ Hok); eauto).
  by destruct (map_get t (rq_timers s)).
Qed.

Lemma enter_listeners g n i : (g, (n, i)) ∈ rq_listeners (enter s id p delay) <->
  (i = id /\ n = pd_promise p /\ pd_abort p = Some g) \/ (g, (n, i)) ∈ rq_listeners s.
Proof.
  cbn [enter rq_listeners]. rewrite elem_of_app. destruct (pd_abort p) as [g'|]; [rewrite list_elem_of_singleton|rewrite elem_of_nil]; naive_solver.
Qed.

Lemma enter_ok : requests_ok (enter s id p delay).
Proof.
  split.
  - apply map_wf_set, Hok.
  - cbn [enter rq_entries rq_max]. rewrite map_size_set. unfold map_has. rewrite Hnew. lia.
  - intros n. rewrite enter_waits. cbn [enter rq_nextPromise]. pose proof (ro_made _ Hok n). unfold is_settled in *. cbn [enter rq_settled].
    rewrite Nat.lt_succ_r, Nat.le_lteq. naive_solver.
  - apply Hok.
  - intros n Hs. rewrite enter_waits. intros [->|Hw]; [|by apply (ro_open _ Hok n)]. 
    assert (rq_nextPromise s < rq_nextPromise s)%nat by (apply (ro_made _ Hok); by left). lia.
  - intros i i' q q' [[-> ->]|Hq]%enter_get [[-> ->]|Hq']%enter_get Heq; [done| | |by apply (ro_own _ Hok _ _ _ _ Hq Hq')].
    + apply old_promise in Hq'. lia.
    + apply old_promise in Hq. lia.
  - intros i q [[-> ->]|Hq]%enter_get; [by rewrite Htimer|by apply (ro_timed _ Hok _ _ Hq)].
  - intros t i. setoid_rewrite enter_get. cbn [enter rq_timers]. rewrite map_get_set. case_decide as Ht.
    + subst t. cbn. split; [intros [= <-]; eauto|]. intros (q & [[-> ->]|Hq] & Hqt); [done|]. pose proof (old_timer _ _ _ Hq Hqt). lia.
    + rewrite (ro_timers _ Hok). naive_solver.
  - intros t. cbn [enter rq_timers rq_nextTimer]. rewrite map_get_set. case_decide; [lia|]. intros Ht%(ro_next _ Hok). lia.
  - intros g n i. rewrite enter_listeners, (ro_listen _ Hok). setoid_rewrite enter_get. naive_solver.
  - intros g n i [(-> & -> & Hg)|Hin]%enter_listeners; [by apply Hsignal|by apply (ro_quiet _ Hok _ _ _ Hin)].
Qed.
End Enter.

Lemma map_set_set {V} id (v v' : V) (m : jsmap jstr V) : map_set id v' (map_set id v m) = map_set id v' m.
Proof.
  induction m as [|[k w] m IH]; cbn [map_set]; [by rewrite decide_True|]. destruct (decide (id = k)) as [->|Hne]; cbn [map_set].
  - by rewrite decide_True.
  - by rewrite decide_False, IH.
Qed.

(** What [begin] has registered when it calls [send]. *)
Definition new_pending s (message : PendingMessage) (kind : PendingKind) (intent : option CommandIntent) (listen : option nat) : Pending :=
  mkPending (rq_nextPromise s) (pm_commandId message) message (Some (rq_nextTimer s)) listen false kind intent.
Lemma register_enters s message id timeoutMs signal kind intent :
  let delay := Z.max 0 (default (rq_defaultTimeout s) timeoutMs) in
  register s message id timeoutMs signal kind intent =
    match signal with
    | Some g => if bool_decide (g ∈ rq_aborted s) then settle (enter s id (new_pending s message kind intent None) delay) id None (Some aborted_error)
                else enter s id (new_pending s message kind intent (Some g)) delay
    | None => enter s id (new_pending s message kind intent None) delay
    end.
Proof.
  cbn zeta. unfold register, enter, schedule, new_pending. destruct signal as [g|]; cbn; rewrite ?app_nil_r; [|done]. case_bool_decide; [done|].
  unfold update_pending. cbn. rewrite map_get_set_eq. cbn. rewrite bool_decide_eq_true_2 by done.
  unfold set_entries, set_abort; cbn. by rewrite map_set_set.
Qed.

Lemma requests_register_ok s message id timeoutMs signal kind intent :
  requests_ok s -> map_get id (rq_entries s) = None -> map_size (rq_entries s) < rq_max s ->
  requests_ok (register s message id timeoutMs signal kind intent).
Proof.
  intros Hok Hid Hroom. rewrite register_enters. repeat case_match; try apply requests_settle_ok; apply enter_ok; try done; cbn.
  intros g' [= <-]. by case_bool_decide.
Qed.

(** Interruptions only take entries away. *)
Definition shrinks s s' : Prop := forall id p, map_get id (rq_entries s') = Some p -> map_get id (rq_entries s) = Some p.
Lemma shrinks_refl s : shrinks s s.
Proof. by intros id p. Qed.
Lemma shrinks_trans s1 s2 s3 : shrinks s1 s2 -> shrinks s2 s3 -> shrinks s1 s3.
Proof. unfold shrinks. eauto. Qed.
Lemma settle_shrinks s id r e : shrinks s (settle s id r e).
Proof. intros i q. rewrite settle_entries, get_delete_some. by intros [_ ?]. Qed.
Lemma settle_each_shrinks s ids how : shrinks s (settle_each s ids how).
Proof. intros i q [_ ?]%settle_each_get. done. Qed.
#[local] Hint Resolve shrinks_refl settle_shrinks settle_each_shrinks : omp.

Lemma response_shrinks s frame : shrinks s (fst (handleResponseFrame s frame)).
Proof.
  unfold handleResponseFrame, settle_aliases. repeat case_match; cbn [fst]; eauto with omp.
  all: eapply shrinks_trans; [apply settle_shrinks|]; auto with omp.
Qed.
Lemma interrupt_shrinks s i : shrinks s (interrupt s i).
Proof.
  destruct i as [t|g|frame|id r e| |e]; cbn [interrupt]; auto with omp.
  - unfold fire. repeat case_match; [|auto with omp]. apply (settle_shrinks (clear_timer s t)).
  - unfold abort. case_bool_decide; [auto with omp|]. intros i q [_ ?]%settle_each_get. done.
  - unfold handleResponse. pose proof (response_shrinks s frame) as Hf. destruct (handleResponseFrame s frame) as [s' out]. cbn [fst] in Hf.
    repeat case_match; try done. eapply shrinks_trans; [exact Hf|apply (settle_each_shrinks (clearAll s'))].
  - apply settle_each_shrinks.
  - apply (settle_each_shrinks (clearAll s)).
Qed.
Lemma interrupt_all_shrinks s l : shrinks s (interrupt_all s l).
Proof. revert s. induction l as [|i l IH]; intros s; [auto with omp|]. eapply shrinks_trans; [apply interrupt_shrinks|apply IH]. Qed.

(** Every request that waits was handed to the connection, but possibly that of [except]. *)
Definition handed_but (except : option jstr) s : Prop :=
  forall id p, map_get id (rq_entries s) = Some p -> Some id ≠ except -> pd_handedToTransport p = true.
Lemma handed_shrinks x s s' : shrinks s s' -> handed_but x s -> handed_but x s'.
Proof. unfold shrinks, handed_but. eauto. Qed.
Lemma handed_settle s id r e : handed_but (Some id) s -> handed_but None (settle s id r e).
Proof. intros Hh i q. rewrite settle_entries, get_delete_some. intros [Hne Hq] _. apply (Hh i q Hq). congruence. Qed.
Lemma handed_absent s id : map_get id (rq_entries s) = None -> handed_but (Some id) s -> handed_but None s.
Proof. intros Hn Hh i q Hq _. apply (Hh i q Hq). intros [= ->]. congruence. Qed.
Lemma handed_update s id n b : handed_but (Some id) s -> handed_but (Some id) (update_pending s id n (set_handed b)).
Proof.
  intros Hh i q. unfold update_pending. repeat case_match; [|by apply Hh..]. cbn [set_entries rq_entries]. rewrite map_get_set.
  destruct (decide (i = id)) as [->|]; [done|apply Hh].
Qed.
Lemma handed_now s id p : map_get id (rq_entries s) = Some p -> handed_but (Some id) s -> handed_but None (update_pending s id (pd_promise p) (set_handed true)).
Proof.
  intros Hp Hh i q. unfold update_pending. rewrite Hp, bool_decide_eq_true_2 by done. cbn [set_entries rq_entries]. rewrite map_get_set.
  case_decide; [intros [= <-]; done|]. intros Hq _. apply (Hh i q Hq). congruence.
Qed.
Lemma handed_weaken x s : handed_but None s -> handed_but x s.
Proof. intros Hh i q Hq _. by apply (Hh i q Hq). Qed.

Definition requests_inv s : Prop := requests_ok s /\ handed_but None s.

Lemma refuse_inv s error : requests_inv s -> requests_inv (record_settled (new_promise s) (rq_nextPromise s) (RejectedWith error)).
Proof.
  intros [Hok Hh]. split; [|exact Hh]. destruct Hok as [H1 H2 H3 H4 H5 H6 H7 H8 H9 H10 H11].
  assert (~ is_settled s (rq_nextPromise s) /\ ~ waits s (rq_nextPromise s)) as [Hs Hw].
  { split; intros H; assert (rq_nextPromise s < rq_nextPromise s)%nat by (apply H3; auto); lia. }
  split; try done; unfold is_settled in *; cbn [record_settled new_promise rq_settled rq_nextPromise]; rewrite ?map_app; cbn [map fst].
  - intros n. rewrite elem_of_app, list_elem_of_singleton. specialize (H3 n). unfold waits in *.
    cbn [record_settled new_promise rq_entries]. rewrite Nat.lt_succ_r, Nat.le_lteq. naive_solver.
  - apply NoDup_app; split_and!; [done| |apply NoDup_singleton]. by intros n Hn ->%list_elem_of_singleton.
  - intros n. rewrite elem_of_app, list_elem_of_singleton. intros [Hn| ->]; [by apply H5|done].
Qed.

Lemma interrupt_inv s i : requests_inv s -> requests_inv (interrupt s i).
Proof. intros [Hok Hh]. split; [by apply interrupt_ok|]. by apply (handed_shrinks _ s), Hh; apply interrupt_shrinks. Qed.
Lemma interrupt_all_inv s l : requests_inv s -> requests_inv (interrupt_all s l).
Proof. revert s. induction l as [|i l IH]; intros s Hok; [done|]. by apply IH, interrupt_inv. Qed.

Lemma update_handed_ok s id n b : requests_ok s -> requests_ok (update_pending s id n (set_handed b)).
Proof. by apply update_pending_ok. Qed.
Lemma unsend_inv s id n error : requests_ok s -> handed_but (Some id) s ->
  requests_inv (settle (update_pending s id n (set_handed false)) id None (Some error)).
Proof. intros Hok Hh. split; [by apply requests_settle_ok, update_handed_ok|by apply handed_settle, handed_update]. Qed.

Lemma register_handed s message id timeoutMs signal kind intent :
  handed_but None s -> handed_but (Some id) (register s message id timeoutMs signal kind intent).
Proof.
  intros Hh. assert (forall p delay, handed_but (Some id) (enter s id p delay)) as He.
  { intros p delay i q. cbn [enter rq_entries]. rewrite map_get_set. destruct (decide (i = id)) as [->|]; [done|]. intros Hq _. by apply (Hh i q Hq). }
  rewrite register_enters. repeat case_match; try apply He. by apply handed_weaken, handed_settle, He.
Qed.
Lemma register_promise s message id timeoutMs signal kind intent p :
  map_get id (rq_entries (register s message id timeoutMs signal kind intent)) = Some p -> pd_promise p = rq_nextPromise s.
Proof.
  rewrite register_enters. repeat case_match; rewrite ?settle_entries, ?map_get_delete_eq; cbn [enter rq_entries]; rewrite ?map_get_set_eq; by intros [= <-].
Qed.

Lemma send_request_inv s d : requests_inv s -> map_has (sd_requestText d) (rq_entries s) = false -> requests_inv (fst (send_request s d)).
Proof.
  intros [Hok Hh] Hid%map_has_false. apply map_get_none_keys in Hid. unfold send_request, sendPending, begin_.
  destruct (Z.leb_spec (rq_max s) (map_size (rq_entries s))) as [Hmax|Hmax]; cbn [fst]; [by apply refuse_inv|].
  destruct (wire_id _); cbn [fst]; [|done]. set (r := register s _ _ _ _ _ _).
  assert (requests_ok r) as Hr by by apply requests_register_ok. assert (handed_but (Some (sd_requestText d)) r) as Hrh by by apply register_handed.
  unfold map_has at 1. destruct (map_get (sd_requestText d) (rq_entries r)) as [p|] eqn:Hp; cbn [negb fst]; [|split; [done|by apply handed_absent in Hrh]].
  destruct (sd_encoded d); cbn [negb].
  - assert (requests_inv (interrupt_all (update_pending r (sd_requestText d) (rq_nextPromise s) (set_handed true)) (sd_during d))) as [Ht Hth].
    { apply interrupt_all_inv. split; [by apply update_handed_ok|]. rewrite <- (register_promise _ _ _ _ _ _ _ _ Hp). by apply handed_now. }
    set (u := interrupt_all _ _) in *. destruct (sd_thrown d) as [error|]; cbn [fst]; [|done].
    set (v := update_pending u _ _ _).
    assert (requests_ok v) as Hv by by apply update_handed_ok.
    assert (handed_but (Some (sd_requestText d)) v) as Hvh by by apply handed_update, handed_weaken.
    destruct (map_has _ (rq_entries v)) eqn:Hhas; cbn [fst]; [by apply unsend_inv|].
    split; [done|]. apply (handed_absent _ (sd_requestText d)), Hvh. by apply map_get_none_keys, map_has_false.
  - unfold map_has. rewrite Hp. cbn [fst]. by apply unsend_inv.
Qed.

Lemma run_requests_inv s evs s' : requests_inv s -> run_requests s evs = Some s' -> requests_inv s'.
Proof.
  revert s. induction evs as [|ev evs IH]; intros s Hinv; cbn [run_requests]; [by intros [= <-]|].
  destruct (request_event s ev) as [s1|] eqn:Hev; [|done]. apply IH. destruct ev as [d|i]; cbn [request_event] in Hev.
  - destruct (map_has _ _) eqn:Hhas; [done|]. injection Hev as <-. by apply send_request_inv.
  - injection Hev as <-. by apply interrupt_inv.
Qed.
Lemma reachable_requests (max d : Z) evs s : 0 <= max -> run_requests (new_requests max d) evs = Some s -> requests_inv s.
Proof. intros Hm. apply run_requests_inv. split; [by apply new_requests_ok|]. by intros id p. Qed.

(** ** What a response settles *)

(** The response is for the host and session the request was sent to. *)
Definition addressed (frame : OmpResponse) p : Prop :=
  pm_kind (pd_message p) ≠ MPairStart /\ pm_hostId (pd_message p) = Some (or_hostId frame) /\ pm_sessionId (pd_message p) = or_sessionId frame.
(** It answers the request it names, *)
Definition fits (frame : OmpResponse) p : Prop :=
  addressed frame p /\
  (forall i c, pd_intent p = Some i -> or_command frame = Some c -> c = ci_command i) /\
  (forall c, pd_commandId p = Some c -> text_or_undefined (or_commandId frame) = c).
(** or it ends the confirmation of a command. *)
Definition confirms (frame : OmpResponse) p : Prop :=
  addressed frame p /\ pd_kind p = PConfirm /\ pm_kind (pd_message p) = MConfirm /\
  text_or_undefined (pm_commandId (pd_message p)) = text_or_undefined (or_commandId frame) /\ or_errorCode frame ≠ Some (js "confirmation_invalid").
Definition answers s (frame : OmpResponse) id p : Prop :=
  match map_get (or_requestId frame) (rq_entries s) with
  | Some q => fits frame q /\ (id = or_requestId frame \/ confirms frame p /\ pd_kind q ≠ PConfirm)
  | None => confirms frame p
  end.

Lemma if_none {A} (b : bool) (x : A) (o : option A) : (if b then Some x else o) = None <-> b = false /\ o = None.
Proof. destruct b; naive_solver. Qed.
Lemma mismatch_none p frame : mismatch p frame = None <-> fits frame p.
Proof.
  unfold mismatch, fits, addressed. rewrite !if_none, orb_false_iff, !negb_false_iff, bool_decide_eq_false, !bool_decide_eq_true.
  assert (forall c, negb (jstr_eqb (text_or_undefined (or_commandId frame)) c) = false <-> text_or_undefined (or_commandId frame) = c) as H1
    by (intros c; by rewrite negb_false_iff, jstr_eqb_eq).
  assert (forall c i, negb (jstr_eqb c (ci_command i)) = false <-> c = ci_command i) as H2 by (intros c i; by rewrite negb_false_iff, jstr_eqb_eq).
  destruct (pd_intent p) as [i|], (or_command frame) as [c|], (pd_commandId p) as [c'|]; rewrite ?H1, ?H2; naive_solver.
Qed.

Lemma is_matching_confirm_spec frame p :
  isConfirmationDecisionConsumed frame = true -> (is_matching_confirm frame p = true <-> confirms frame p).
Proof.
  unfold isConfirmationDecisionConsumed, is_matching_confirm, confirms, addressed. rewrite negb_true_iff, bool_decide_eq_false.
  rewrite !andb_true_iff, !bool_decide_eq_true, jstr_eqb_eq. intros Hc. split; [|naive_solver].
  intros [[[[H1 H2] H3] H4] H5]. split_and!; try done. congruence.
Qed.

Lemma elem_of_matching (m : jsmap jstr Pending) frame id :
  map_wf m -> (id ∈ matchingConfirmRequests m frame <-> exists p, map_get id m = Some p /\ is_matching_confirm frame p = true).
Proof.
  intros Hwf. unfold matchingConfirmRequests. rewrite list_elem_of_In, in_map_iff. setoid_rewrite <- list_elem_of_In. setoid_rewrite elem_of_filter_list. split.
  - intros ([i p] & <- & Hin & Hm). exists p. split; [by apply map_in_get|done].
  - intros (p & Hp & Hm). exists (id, p). split_and!; [done|by apply map_get_some_in|done].
Qed.

Lemma matching_nodup (m : jsmap jstr Pending) frame : map_wf m -> NoDup (matchingConfirmRequests m frame).
Proof. intros Hwf. by apply (map_filter_wf (fun kv => is_matching_confirm frame (snd kv)) m). Qed.

(** The requests a response settles, in order. *)
Definition resolve_each s (ids : list jstr) (frame : OmpResponse) : Requests := settle_each s ids (fun _ => (Some (ResultResponse frame), None)).
Lemma response_resolves s frame : requests_ok s -> exists ids, NoDup ids /\
  fst (handleResponseFrame s frame) = resolve_each s ids frame /\
  (forall id p, map_get id (rq_entries s) = Some p -> (id ∈ ids <-> answers s frame id p)).
Proof.
  intros Hok. unfold handleResponseFrame, answers. destruct (map_get (or_requestId frame) (rq_entries s)) as [q|] eqn:Hq.
  - destruct (mismatch q frame) as [m|] eqn:Hm; cbn [fst].
    + exists []. split_and!; [constructor|done|]. intros id p Hp. rewrite <- mismatch_none, Hm. split; [by intros ?%elem_of_nil|by intros [? _]].
    + pose proof (proj1 (mismatch_none _ _) Hm) as Hfit. set (s1 := settle s _ _ _). assert (requests_ok s1) as Hok1 by by apply requests_settle_ok.
      case_match eqn:Hc.
      * apply andb_prop in Hc as [Hk%negb_true_iff%bool_decide_eq_false Hc].
        exists (or_requestId frame :: matchingConfirmRequests (rq_entries s1) frame).
        split_and!; [|done|].
        -- constructor; [|apply matching_nodup, Hok1]. rewrite elem_of_matching by apply Hok1. unfold s1. rewrite settle_entries.
           setoid_rewrite get_delete_some. naive_solver.
        -- intros id p Hp. rewrite elem_of_cons, elem_of_matching by apply Hok1. unfold s1. rewrite settle_entries. setoid_rewrite get_delete_some.
           rewrite <- is_matching_confirm_spec by done. destruct (decide (id = or_requestId frame)); naive_solver.
      * exists [or_requestId frame]. split_and!; [apply NoDup_singleton|done|]. intros id p Hp. rewrite list_elem_of_singleton.
        split; [by auto|]. intros [_ [->|[Hcf Hk]]]; [done|]. rewrite bool_decide_eq_false_2 in Hc by done. cbn in Hc.
        unfold isConfirmationDecisionConsumed in Hc. apply negb_false_iff, bool_decide_eq_true in Hc. by destruct Hcf as (_ & _ & _ & _ & []).
  - destruct (isConfirmationDecisionConsumed frame) eqn:Hc; cbn [fst].
    + exists (matchingConfirmRequests (rq_entries s) frame). split_and!; [apply matching_nodup, Hok|done|].
      intros id p Hp. rewrite elem_of_matching by apply Hok. rewrite <- is_matching_confirm_spec by done. naive_solver.
    + exists []. split_and!; [constructor|done|]. intros id p Hp. split; [by intros ?%elem_of_nil|]. intros (_ & _ & _ & _ & []).
      unfold isConfirmationDecisionConsumed in Hc. by apply negb_false_iff, bool_decide_eq_true in Hc.
Qed.

Lemma resolve_each_settled s ids frame : requests_ok s -> NoDup ids -> exists l,
  rq_settled (resolve_each s ids frame) = rq_settled s ++ map (fun n => (n, Resolved (ResultResponse frame))) l /\
  (forall n, n ∈ l <-> exists id p, map_get id (rq_entries s) = Some p /\ pd_promise p = n /\ id ∈ ids).
Proof.
  intros Hok Hnd. exists (omap (fun id => pd_promise <$> map_get id (rq_entries s)) ids). split.
  - unfold resolve_each. rewrite settle_each_settled by done. f_equal. clear Hnd. induction ids as [|id ids IH]; [done|]. cbn [omap list_omap].
    unfold settlement_of at 1. destruct (map_get id (rq_entries s)); cbn; [by f_equal|done].
  - intros n. rewrite list_elem_of_omap. split.
    + intros (id & Hin & Heq). apply fmap_Some in Heq as (p & Hp & ->). eauto.
    + intros (id & p & Hp & <- & Hin). exists id. by rewrite Hp.
Qed.

(** ** The theorems *)

(** C26: every promise a request returned is settled exactly once or still awaited, never both, whatever sequence of sends,
    timeouts, aborts, responses, lost connections and failures happens; no more than [max] requests wait, and exactly the waiting ones
    have a timer and, with a signal that is not aborted, a listener. *)
Theorem client_requests_settle_once (max d : Z) (evs : list RequestEvent) s :
  0 <= max -> run_requests (new_requests max d) evs = Some s ->
  NoDup (map fst (rq_settled s)) /\
  (forall n, (n < rq_nextPromise s)%nat <-> is_settled s n \/ waits s n) /\ (forall n, is_settled s n -> ~ waits s n) /\
  map_size (rq_entries s) <= rq_max s /\
  (forall id p, map_get id (rq_entries s) = Some p -> exists t, pd_timer p = Some t /\ fst <$> map_get t (rq_timers s) = Some id) /\
  (forall t x, map_get t (rq_timers s) = Some x -> exists p, map_get (fst x) (rq_entries s) = Some p /\ pd_timer p = Some t) /\
  (forall g n id, (g, (n, id)) ∈ rq_listeners s ->
     g ∉ rq_aborted s /\ exists p, map_get id (rq_entries s) = Some p /\ pd_promise p = n /\ pd_abort p = Some g).
Proof.
  intros Hm Hrun. destruct (reachable_requests _ _ _ _ Hm Hrun) as [Hok _]. split_and!.
  - apply Hok.
  - apply Hok.
  - apply Hok.
  - apply Hok.
  - intros id p Hp. destruct (ro_timed _ Hok _ _ Hp) as [t Ht]. exists t. split; [done|]. apply (ro_timers _ Hok). eauto.
  - intros t x Hx. by apply (timer_of s t _ x).
  - intros g n id Hin. split; [by apply (ro_quiet _ Hok _ _ _ Hin)|by apply (ro_listen _ Hok)].
Qed.

Lemma settle_all_settled s how : requests_ok s ->
  rq_settled (settle_each s (map_keys (rq_entries s)) how) =
    rq_settled s ++ map (fun kv => (pd_promise (snd kv), outcome (fst (how (fst kv))) (snd (how (fst kv))))) (rq_entries s).
Proof.
  intros Hok. rewrite settle_each_settled by apply Hok. f_equal.
  apply (omap_keys (rq_entries s) (fun id p => (pd_promise p, outcome (fst (how id)) (snd (how id))))), Hok.
Qed.

(** What a request learns when its outcome cannot be known. *)
Definition told_unknown p : Settlement :=
  RejectedWith (mkClientError e_outcome_unknown (js "request outcome is unknown; inspect server state before retrying") true (slice_first 256 <$> pd_commandId p)).

(** When the connection is lost every waiting request is told, in order, that its outcome is unknown, never that it was not sent;
    when the client fails, all are told the failure.  Nothing waits afterwards and no timer or listener is left. *)
Theorem lost_requests_told (max d : Z) (evs : list RequestEvent) s (error : OmpClientError) :
  0 <= max -> run_requests (new_requests max d) evs = Some s ->
  rq_settled (disconnect s) = rq_settled s ++ map (fun kv => (pd_promise (snd kv), told_unknown (snd kv))) (rq_entries s) /\
  rq_settled (fatal s error) = rq_settled s ++ map (fun kv => (pd_promise (snd kv), RejectedWith error)) (rq_entries s) /\
  (forall s', s' = disconnect s \/ s' = fatal s error -> rq_entries s' = [] /\ rq_timers s' = [] /\ rq_listeners s' = []).
Proof.
  intros Hm Hrun. destruct (reachable_requests _ _ _ _ Hm Hrun) as [Hok Hh]. split_and!.
  - unfold disconnect. rewrite settle_all_settled by done. f_equal. apply map_ext_in. intros [id p] Hin%list_elem_of_In. cbn [fst snd].
    pose proof (map_in_get _ _ _ (ro_wf _ Hok) Hin) as Hp. rewrite Hp. cbn. unfold lost_outcome. by rewrite (Hh id p Hp).
  - rewrite fatal_rejects by done. unfold rejectAll. by rewrite settle_all_settled.
  - intros s' Hs'. assert (requests_ok s' /\ rq_entries s' = []) as [Hok' He].
    { destruct Hs' as [->| ->]; [|rewrite fatal_rejects by done]; (split; [by apply settle_each_ok|apply settle_all_empty]). }
    destruct (requests_idle _ Hok' He) as [-> ->]. by rewrite He.
Qed.

(** A response resolves exactly the requests it answers: the one it names, when it comes from its host, session and command,
    and the confirmations of the same command; all others keep waiting.  A response that names a waiting request and does not fit it
    resolves nothing and fails the client, and any other response is published. *)
Theorem response_correlated (max d : Z) (evs : list RequestEvent) s (frame : OmpResponse) :
  0 <= max -> run_requests (new_requests max d) evs = Some s ->
  let s' := fst (handleResponseFrame s frame) in
  (exists l, rq_settled s' = rq_settled s ++ map (fun n => (n, Resolved (ResultResponse frame))) l /\
     forall n, n ∈ l <-> exists id p, map_get id (rq_entries s) = Some p /\ pd_promise p = n /\ answers s frame id p) /\
  (forall id p, map_get id (rq_entries s') = Some p <-> map_get id (rq_entries s) = Some p /\ ~ answers s frame id p) /\
  (forall p, map_get (or_requestId frame) (rq_entries s) = Some p -> ~ fits frame p ->
     s' = s /\ exists message, handleResponse s frame = fatal s (mkClientError e_protocol message false None)) /\
  ((forall p, map_get (or_requestId frame) (rq_entries s) = Some p -> fits frame p) ->
     handleResponse s frame = s' /\ OutPublish ∈ snd (handleResponseFrame s frame)).
Proof.
  intros Hm Hrun s'. destruct (reachable_requests _ _ _ _ Hm Hrun) as [Hok _].
  destruct (response_resolves s frame Hok) as (ids & Hnd & Hs' & Hids). split_and!.
  - unfold s'. rewrite Hs'. destruct (resolve_each_settled s ids frame Hok Hnd) as (l & Hl & Hin). exists l. split; [done|].
    intros n. rewrite Hin. split; intros (id & p & Hp & Hn & H); exists id, p; split_and!; try done; by apply (Hids id p Hp).
  - intros id p. unfold s'. rewrite Hs'. unfold resolve_each. rewrite settle_each_get.
    split; intros [H1 H2]; [rewrite <- (Hids id p H2)|rewrite (Hids id p H1)]; done.
  - intros p Hp Hnf. unfold s', handleResponse, handleResponseFrame. rewrite Hp. destruct (mismatch p frame) as [m|] eqn:Hmm; [by eauto|].
    by destruct Hnf; apply mismatch_none.
  - intros Hfit. unfold s', handleResponse. destruct (handleResponseFrame s frame) as [s1 out] eqn:Hout. cbn [fst snd].
    unfold handleResponseFrame in Hout. destruct (map_get (or_requestId frame) (rq_entries s)) as [p|] eqn:Hp.
    + rewrite (proj2 (mismatch_none p frame) (Hfit p eq_refl)) in Hout. injection Hout as <- <-.
      split; [|rewrite elem_of_app, list_elem_of_singleton; by right]. repeat case_match; try done; discriminate.
    + injection Hout as <- <-. split; [done|by left].
Qed.

(** *** A concrete client *)

(** A command and its confirmation are sent, another request is aborted by its signal while a fourth has been refused by the
    transport, and a fifth times out. *)
Definition sample_message (kind : MessageKind) (command : string) : PendingMessage := mkMessage kind (Some (js command)) (Some (js "host")) (Some (js "session")).
Definition sample_send (kind : PendingKind) (m : MessageKind) (request command : string) (signal : option nat) (thrown : option OmpClientError) : RequestEvent :=
  Sends (mkSending (sample_message m command) (js request) None signal kind (Some (mkIntent (js "host") (Some (js "session")) (js "prompt.send"))) true [] thrown).
Definition sample_events : list RequestEvent := [
  sample_send PCommand MCommand "r1" "c1" None None;
  sample_send PConfirm MConfirm "r2" "c1" None None;
  sample_send PCommand MCommand "r3" "c3" (Some 7%nat) None;
  sample_send PCommand MCommand "r4" "c4" None (Some (client_error e_transport "transport send failed" true));
  sample_send PCommand MCommand "r5" "c5" None None;
  sample_send PCommand MCommand "r6" "c6" None None;
  Interrupted (SignalAborts 7); Interrupted (TimerFires 4)].
Definition sample_requests : Requests := default (new_requests 0 0) (run_requests (new_requests MAX_PENDING 30000) sample_events).
Definition sample_response : OmpResponse :=
  mkResponse (js "r1") (Some (js "c1")) (js "host") (Some (js "session")) true JNull (Some (js "prompt.send")) None.

Lemma sample_runs : run_requests (new_requests MAX_PENDING 30000) sample_events = Some sample_requests.
Proof. vm_compute. reflexivity. Qed.

Lemma client_requests_settle_once_witness :
  0 <= MAX_PENDING /\ map fst (rq_settled sample_requests) = [3%nat; 2%nat; 4%nat] /\ NoDup (map fst (rq_settled sample_requests)) /\
  (is_settled sample_requests 5 \/ waits sample_requests 5).
Proof.
  split; [done|]. split; [vm_compute; reflexivity|].
  destruct (client_requests_settle_once MAX_PENDING 30000 sample_events sample_requests) as (Hnd & Hall & _); [done|apply sample_runs|].
  split; [exact Hnd|]. apply Hall. vm_compute. lia.
Defined.

Lemma lost_requests_told_witness :
  rq_settled (disconnect sample_requests) =
    rq_settled sample_requests ++ map (fun kv => (pd_promise (snd kv), told_unknown (snd kv))) (rq_entries sample_requests) /\
  map_keys (rq_entries sample_requests) = [js "r1"; js "r2"; js "r6"] /\ rq_timers (disconnect sample_requests) = [].
Proof.
  destruct (lost_requests_told MAX_PENDING 30000 sample_events sample_requests timeout_error) as (H & _ & He); [done|apply sample_runs|].
  split; [exact H|]. split; [vm_compute; reflexivity|]. apply (He (disconnect sample_requests)). by left.
Defined.

Lemma response_correlated_witness :
  (exists l, rq_settled (fst (handleResponseFrame sample_requests sample_response)) =
     rq_settled sample_requests ++ map (fun n => (n, Resolved (ResultResponse sample_response))) l /\ 0%nat ∈ l /\ 1%nat ∈ l) /\
  map_keys (rq_entries (fst (handleResponseFrame sample_requests sample_response))) = [js "r6"].
Proof.
  split; [|vm_compute; reflexivity].
  destruct (response_correlated MAX_PENDING 30000 sample_events sample_requests sample_response) as ((l & Hl & Hin) & Hkeep & _); [done|apply sample_runs|].
  exists l. split; [exact Hl|]. rewrite !Hin. clear Hin Hl Hkeep.
  assert (exists p, map_get (js "r1") (rq_entries sample_requests) = Some p /\ pd_promise p = 0%nat /\ mismatch p sample_response = None /\ pd_kind p = PCommand) as (p & Hp & Hn & Hm%mismatch_none & Hk).
  { eexists. split; [vm_compute; reflexivity|]. by_compute. }
  assert (exists q, map_get (js "r2") (rq_entries sample_requests) = Some q /\ pd_promise q = 1%nat /\ is_matching_confirm sample_response q = true) as (q & Hq & Hnq & Hc).
  { eexists. split; [vm_compute; reflexivity|]. by_compute. }
  apply is_matching_confirm_spec in Hc; [|vm_compute; reflexivity]. unfold answers. change (or_requestId sample_response) with (js "r1"). rewrite Hp.
  split.
  - exists (js "r1"), p. split; [exact Hp|]. split; [exact Hn|]. split; [exact Hm|left; reflexivity].
  - exists (js "r2"), q. split; [exact Hq|]. split; [exact Hnq|]. split; [exact Hm|right]. split; [exact Hc|]. rewrite Hk. discriminate.
Defined.
