(* ===== verification/ReconnectHealthSpec.v ===== *)
(** * ReconnectHealthSpec: when the reconnect budget is restored

    [OmpClientReconnectHealth] over the events of one connection, from its welcome: the budget is
    reset exactly when a heartbeat came back and every session attached before was caught up. *)
From stdpp Require Import base tactics option list numbers strings sets.
From S2P Require Import Prelude JsMap JsString JsValue Wire WireGuards ClientRequests.

Implicit Types (h : ReconnectHealth) (key : jstr).

(** ** The events of a connection *)

Inductive HealthEvent :=
| HPong
| HAttached (key : jstr) (frame : OmpResponse) (current : option Cursor)
| HProgress (key : jstr) (cursor : Cursor) (snapshot : bool).
Implicit Types (ev : HealthEvent) (evs : list HealthEvent).

Definition health_event (generation : Z) h ev : ReconnectHealth :=
  match ev with
  | HPong => acceptPong h generation
  | HAttached key frame current => acceptAttachResponse h generation key frame current
  | HProgress key cursor snapshot => acceptReplayProgress h generation key cursor snapshot
  end.
Definition health_run (generation : Z) h evs : ReconnectHealth := fold_left (health_event generation) evs h.

(** ** What the events say of a session *)

(** The session was answered with [frame]; a snapshot of it came; where it was when an event for it came. *)
Definition attached_with key ev : option OmpResponse :=
  match ev with HAttached k frame _ => if decide (k = key) then Some frame else None | _ => None end.
Definition snapshot_of key ev : bool :=
  match ev with HProgress k _ snapshot => bool_decide (k = key) && snapshot | _ => false end.
Definition position_of key ev : option (option Cursor) :=
  match ev with
  | HPong => None
  | HAttached k _ current => if decide (k = key) then Some current else None
  | HProgress k cursor _ => if decide (k = key) then Some (Some cursor) else None
  end.

Definition answered key evs : bool := existsb (fun ev => match attached_with key ev with Some _ => true | None => false end) evs.
Definition snapshotted key evs : bool := existsb (snapshot_of key) evs.
(** The cursor the last answer that had one asked for. *)
Definition target key evs : option Cursor := last (omap (fun ev => attached_with key ev ≫= response_cursor) evs).

(** At the last of [evs] the session is where its answer said, or without such a cursor has its snapshot. *)
Definition caught_up_now key evs (current : option Cursor) : Prop :=
  answered key evs = true /\
  match target key evs with
  | None => snapshotted key evs = true
  | Some c => exists now, current = Some now /\ epoch now = epoch c /\ seq c <= seq now
  end.
Definition caught_up key evs : Prop :=
  exists before ev after current, evs = before ++ ev :: after /\ position_of key ev = Some current /\ caught_up_now key (before ++ [ev]) current.

Lemma caught_up_snoc key evs ev :
  caught_up key (evs ++ [ev]) <-> caught_up key evs \/ exists current, position_of key ev = Some current /\ caught_up_now key (evs ++ [ev]) current.
Proof.
  split.
  - intros (before & e & after & current & Heq & Hpos & Hnow). destruct after as [|x after] using rev_ind.
    + apply app_inj_tail in Heq as [-> ->]. right. by exists current.
    + rewrite app_comm_cons, app_assoc in Heq. apply app_inj_tail in Heq as [-> ->]. left. by exists before, e, after, current.
  - intros [(before & e & after & current & -> & Hpos & Hnow)|(current & Hpos & Hnow)].
    + exists before, e, (after ++ [ev]), current. by rewrite app_comm_cons, app_assoc.
    + by exists evs, ev, [], current.
Qed.
Lemma caught_up_nil key : ~ caught_up key [].
Proof. intros (before & ? & ? & ? & Heq & _). by destruct before. Qed.

(** ** What a probe holds *)

Definition probe_of (generation : Z) key evs : ReplayProbe := mkProbe generation (answered key evs) (snapshotted key evs) (target key evs).

Lemma isComplete_iff generation key evs current : isComplete (probe_of generation key evs) current = true <-> caught_up_now key evs current.
Proof.
  unfold isComplete, caught_up_now. cbn. destruct (answered key evs); cbn [negb]; [|naive_solver]. destruct (target key evs) as [c|]; [|naive_solver].
  destruct current as [now|]; [|naive_solver]. rewrite andb_true_iff, jstr_eqb_eq, Z.leb_le. naive_solver.
Qed.

Lemma target_snoc key evs ev : target key (evs ++ [ev]) = match attached_with key ev ≫= response_cursor with Some c => Some c | None => target key evs end.
Proof.
  unfold target. rewrite omap_app. cbn [omap list_omap]. destruct (attached_with key ev ≫= response_cursor); [by rewrite last_snoc|by rewrite app_nil_r].
Qed.
Lemma probe_attached generation key evs frame current :
  probe_of generation key (evs ++ [HAttached key frame current]) =
    mkProbe generation true (snapshotted key evs) (match response_cursor frame with Some c => Some c | None => target key evs end).
Proof.
  unfold probe_of. rewrite target_snoc. unfold answered, snapshotted. rewrite !existsb_app. cbn. rewrite decide_True by done. cbn. by rewrite !orb_true_r, !orb_false_r.
Qed.
Lemma probe_progress generation key evs cursor snapshot :
  probe_of generation key (evs ++ [HProgress key cursor snapshot]) = mkProbe generation (answered key evs) (snapshotted key evs || snapshot) (target key evs).
Proof.
  unfold probe_of. rewrite target_snoc. unfold answered, snapshotted. rewrite !existsb_app. cbn. rewrite bool_decide_eq_true_2 by done. by rewrite !orb_false_r.
Qed.
Lemma probe_other generation key evs ev : position_of key ev = None -> probe_of generation key (evs ++ [ev]) = probe_of generation key evs.
Proof.
  intros Hpos. unfold probe_of. rewrite target_snoc. unfold answered, snapshotted. rewrite !existsb_app.
  destruct ev as [|k frame current|k cursor snapshot]; cbn in *; try case_decide; try done; cbn; rewrite ?bool_decide_eq_false_2 by done; by rewrite !orb_false_r.
Qed.

(** ** The invariant *)

Record health_ok (generation : Z) (resets : nat) (keys : list jstr) evs h : Prop := {
  ho_wf : map_wf (rh_replay h);
  ho_pong : rh_heartbeatGeneration h = Some generation <-> HPong ∈ evs;
  ho_probe : forall key p, map_get key (rh_replay h) = Some p <-> key ∈ keys /\ ~ caught_up key evs /\ p = probe_of generation key evs;
  ho_resets : (resets < rh_resets h)%nat <-> HPong ∈ evs /\ rh_replay h = [];
  ho_least : (resets <= rh_resets h)%nat;
}.

Lemma welcome_replay generation keys m :
  map_wf m -> map_wf (fold_left (fun m key => map_set key (mkProbe generation false false None) m) keys m) /\
  forall key p, map_get key (fold_left (fun m key => map_set key (mkProbe generation false false None) m) keys m) = Some p <->
    (key ∈ keys /\ p = mkProbe generation false false None) \/ (key ∉ keys /\ map_get key m = Some p).
Proof.
  revert m. induction keys as [|k keys IH]; intros m Hwf; cbn [fold_left].
  - split; [done|]. intros key p. rewrite elem_of_nil. naive_solver.
  - destruct (IH (map_set k (mkProbe generation false false None) m)) as [Hw Hg]; [by apply map_wf_set|]. split; [done|].
    intros key p. rewrite Hg, map_get_set, elem_of_cons. destruct (decide (key ∈ keys)), (decide (key = k)) as [->|]; naive_solver.
Qed.

Lemma welcome_ok generation h keys : health_ok generation (rh_resets h) keys [] (beginWelcome h generation keys).
Proof.
  destruct (welcome_replay generation keys []) as [Hwf Hg]; [constructor|]. split; cbn [beginWelcome rh_replay rh_heartbeatGeneration rh_resets]; [done| | | |done].
  - rewrite elem_of_nil. done.
  - intros key p. rewrite Hg. cbn [map_get]. pose proof (caught_up_nil key). unfold probe_of. cbn. naive_solver.
  - rewrite elem_of_nil. split; [lia|by intros [[] _]].
Qed.

Lemma size_zero_nil {V} (m : jsmap jstr V) : (map_size m =? 0) = true <-> m = [].
Proof. rewrite Z.eqb_eq. split; [apply len_zero_nil|by intros ->]. Qed.

(** [maybeReset] after [evs], when it had not reset before. *)
Lemma maybeReset_ok generation resets keys evs h :
  map_wf (rh_replay h) -> (rh_heartbeatGeneration h = Some generation <-> HPong ∈ evs) ->
  (forall key p, map_get key (rh_replay h) = Some p <-> key ∈ keys /\ ~ caught_up key evs /\ p = probe_of generation key evs) ->
  ((resets < rh_resets h)%nat -> HPong ∈ evs /\ rh_replay h = []) -> (resets <= rh_resets h)%nat ->
  health_ok generation resets keys evs (maybeReset h generation).
Proof.
  intros H1 H2 H3 H4 H5. unfold maybeReset.
  destruct (bool_decide (rh_heartbeatGeneration h = Some generation) && (map_size (rh_replay h) =? 0)) eqn:Hb.
  - apply andb_prop in Hb as [Hp%bool_decide_eq_true Hs%size_zero_nil]. split; cbn [rh_replay rh_heartbeatGeneration rh_resets]; try done; [|lia].
    split; [intros _; by rewrite <- H2|lia].
  - split; try done. split; [done|]. intros [Hp%H2 Hs]. rewrite bool_decide_eq_true_2 in Hb by done. by rewrite Hs in Hb.
Qed.

Lemma elem_of_snoc_other evs ev : ev ≠ HPong -> (HPong ∈ evs ++ [ev] <-> HPong ∈ evs).
Proof. intros Hne. rewrite elem_of_app, list_elem_of_singleton. naive_solver. Qed.

Lemma other_key generation key evs ev :
  position_of key ev = None -> (caught_up key (evs ++ [ev]) <-> caught_up key evs) /\ probe_of generation key (evs ++ [ev]) = probe_of generation key evs.
Proof. intros Hpos. split; [|by apply probe_other]. rewrite caught_up_snoc. naive_solver. Qed.

(** The event of a session without a probe changes nothing. *)
Lemma unprobed_ok generation resets keys evs h ev k :
  health_ok generation resets keys evs h -> ev ≠ HPong -> (forall key, key ≠ k -> position_of key ev = None) -> map_get k (rh_replay h) = None ->
  health_ok generation resets keys (evs ++ [ev]) h.
Proof.
  intros Hok Hne Hpos Hk. pose proof (elem_of_snoc_other evs ev Hne) as Hpong. split; try apply Hok; rewrite ?Hpong; try apply Hok.
  intros key p. destruct (decide (key = k)) as [->|Hkey].
  - rewrite Hk. split; [done|]. intros (Hin & Hnc & ->). rewrite caught_up_snoc in Hnc.
    assert (map_get k (rh_replay h) = Some (probe_of generation k evs)) as Hsome by (apply (ho_probe _ _ _ _ _ Hok); naive_solver). congruence.
  - destruct (other_key generation key evs ev (Hpos key Hkey)) as [Hcu Hpr]. rewrite Hcu, Hpr. apply Hok.
Qed.

Lemma probed_ok generation resets keys evs h ev k current p0 :
  health_ok generation resets keys evs h -> ev ≠ HPong -> (forall key, key ≠ k -> position_of key ev = None) -> position_of k ev = Some current ->
  map_get k (rh_replay h) = Some p0 ->
  health_ok generation resets keys (evs ++ [ev]) (probed h generation k (probe_of generation k (evs ++ [ev])) current).
Proof.
  intros Hok Hne Hpos Hcur Hk. pose proof (elem_of_snoc_other evs ev Hne) as Hpong.
  pose proof (proj1 (ho_probe _ _ _ _ _ Hok k p0) Hk) as (Hin & Hnc & Hp0).
  pose proof (isComplete_iff generation k (evs ++ [ev]) current) as Hcomplete.
  assert (caught_up k (evs ++ [ev]) <-> isComplete (probe_of generation k (evs ++ [ev])) current = true) as Hcu.
  { rewrite Hcomplete, caught_up_snoc. naive_solver. }
  assert (~ (resets < rh_resets h)%nat) as Hno. { rewrite (ho_resets _ _ _ _ _ Hok). intros [_ He]. by rewrite He in Hk. }
  unfold probed. destruct (isComplete _ current).
  - apply maybeReset_ok; cbn [rh_replay rh_heartbeatGeneration rh_resets]; [apply map_wf_delete, Hok|rewrite Hpong; apply Hok| |done|apply Hok].
    intros key p. destruct (decide (key = k)) as [->|Hkey]; [rewrite map_get_delete_eq; naive_solver|]. rewrite map_get_delete_ne by done.
    destruct (other_key generation key evs ev (Hpos key Hkey)) as [-> ->]. apply Hok.
  - split; cbn [rh_replay rh_heartbeatGeneration rh_resets]; [apply map_wf_set, Hok|rewrite Hpong; apply Hok| | |apply Hok].
    + intros key p. rewrite map_get_set. destruct (decide (key = k)) as [->|Hkey]; [naive_solver|].
      destruct (other_key generation key evs ev (Hpos key Hkey)) as [-> ->]. apply Hok.
    + split; [done|]. intros [_ He]. assert (map_get k (map_set k (probe_of generation k (evs ++ [ev])) (rh_replay h)) = None) as Hn by by rewrite He.
      by rewrite map_get_set_eq in Hn.
Qed.

Lemma current_probe generation resets keys evs h key :
  health_ok generation resets keys evs h -> currentProbe h generation key = map_get key (rh_replay h).
Proof.
  intros Hok. unfold currentProbe. destruct (map_get key (rh_replay h)) as [p|] eqn:Hp; [|done].
  apply (ho_probe _ _ _ _ _ Hok) in Hp as (_ & _ & ->). cbn. by rewrite Z.eqb_refl.
Qed.

Lemma health_event_ok generation resets keys evs h ev :
  health_ok generation resets keys evs h -> health_ok generation resets keys (evs ++ [ev]) (health_event generation h ev).
Proof.
  intros Hok. destruct ev as [|k frame current|k cursor snapshot]; cbn [health_event].
  - assert (HPong ∈ evs ++ [HPong]) as Hin by (rewrite elem_of_app; right; by left).
    unfold acceptPong. apply maybeReset_ok; cbn [rh_replay rh_heartbeatGeneration rh_resets]; [apply Hok|done| | |apply Hok].
    + intros key p. destruct (other_key generation key evs HPong eq_refl) as [-> ->]. apply Hok.
    + rewrite (ho_resets _ _ _ _ _ Hok). by intros [_ ?].
  - unfold acceptAttachResponse. rewrite (current_probe _ _ _ _ _ k Hok). destruct (map_get k (rh_replay h)) as [p|] eqn:Hk.
    + pose proof Hk as (_ & _ & ->)%(ho_probe _ _ _ _ _ Hok). cbn [probe_of rp_generation rp_sawSnapshot rp_targetCursor].
      rewrite <- (probe_attached generation k evs frame current). eapply probed_ok; try done; cbn; [|by rewrite decide_True].
      intros key Hne. by rewrite decide_False by congruence.
    + apply (unprobed_ok _ _ _ _ _ _ k); try done. intros key Hne. cbn. by rewrite decide_False by congruence.
  - unfold acceptReplayProgress. rewrite (current_probe _ _ _ _ _ k Hok). destruct (map_get k (rh_replay h)) as [p|] eqn:Hk.
    + pose proof Hk as (_ & _ & ->)%(ho_probe _ _ _ _ _ Hok). cbn [probe_of rp_generation rp_responseReceived rp_sawSnapshot rp_targetCursor].
      rewrite <- (probe_progress generation k evs cursor snapshot). eapply probed_ok; try done; cbn; [|by rewrite decide_True].
      intros key Hne. by rewrite decide_False by congruence.
    + apply (unprobed_ok _ _ _ _ _ _ k); try done. intros key Hne. cbn. by rewrite decide_False by congruence.
Qed.

Lemma health_run_ok generation h keys evs : health_ok generation (rh_resets h) keys evs (health_run generation (beginWelcome h generation keys) evs).
Proof.
  induction evs as [|ev evs IH] using rev_ind; [apply welcome_ok|]. unfold health_run. rewrite fold_left_app. by apply health_event_ok.
Qed.

Lemma caught_up_dec key evs : caught_up key evs \/ ~ caught_up key evs.
Proof.
  induction evs as [|ev evs IH] using rev_ind; [right; apply caught_up_nil|]. rewrite caught_up_snoc. destruct IH as [IH|IH]; [by auto|].
  destruct (position_of key ev) as [current|]; [|naive_solver]. pose proof (isComplete_iff 0 key (evs ++ [ev]) current) as Hc.
  destruct (isComplete _ current); naive_solver.
Qed.

(** C27: in a connection that begins with a welcome for the sessions attached before, the reconnect budget is reset exactly when a
    heartbeat came back and every one of those sessions was answered and reached the cursor of its answer, or without such a cursor
    its snapshot. *)
Theorem reconnect_budget_gated (generation : Z) h (keys : list jstr) evs :
  (rh_resets h < rh_resets (health_run generation (beginWelcome h generation keys) evs))%nat <->
    HPong ∈ evs /\ forall key, key ∈ keys -> caught_up key evs.
Proof.
  pose proof (health_run_ok generation h keys evs) as Hok. rewrite (ho_resets _ _ _ _ _ Hok). set (h' := health_run _ _ _) in *.
  split; intros [Hp H]; (split; [done|]).
  - intros key Hin. destruct (caught_up_dec key evs) as [|Hnc]; [done|].
    assert (map_get key (rh_replay h') = Some (probe_of generation key evs)) as Hg by by apply (ho_probe _ _ _ _ _ Hok). by rewrite H in Hg.
  - destruct (rh_replay h') as [|[k p] m] eqn:He; [done|].
    assert (map_get k (rh_replay h') = Some p) as Hg by (rewrite He; cbn; by rewrite decide_True).
    apply (ho_probe _ _ _ _ _ Hok) in Hg as (Hin & Hnc & _). by destruct Hnc; apply H.
Qed.
