(* ===== verification/InboundQueue.v ===== *)
(** * InboundQueue: frames wait their turn
    ([packages/client/src/omp-client-inbound.ts])

    [InboundFrameQueue] as a state machine: [drain] is suspended at the handler of a frame, which
    returns, returns a promise that settles later, or throws; meanwhile frames arrive, the
    generation moves on, the queue is cleared or the client closes. *)
From stdpp Require Import base tactics option list numbers strings sets.
From S2P Require Import Prelude JsMap JsString.

Definition MAX_INBOUND_FRAMES : Z := 128.
Definition MAX_INBOUND_BYTES : Z := 4 * 1024 * 1024.

(** A frame is a text or bytes; only its number and size matter here. *)
Inductive RawFrame := TextFrame (number : nat) (length : Z) | BinaryFrame (number : nat) (byteLength : Z).
#[export] Instance RawFrame_eq_dec : EqDecision RawFrame.
Proof. solve_decision. Defined.
Definition frame_bytes (raw : RawFrame) : Z := match raw with TextFrame _ length => length * 2 | BinaryFrame _ byteLength => byteLength end.
Record InboundItem := mkInboundItem { ii_generation : nat; ii_raw : RawFrame; ii_bytes : Z }.
#[export] Instance InboundItem_eq_dec : EqDecision InboundItem.
Proof. solve_decision. Defined.

(** Where [drain] is: not running, about to take the next frame, or inside a handler. *)
Inductive DrainPhase := DrainIdle | DrainLoop | DrainHandling.
#[export] Instance DrainPhase_eq_dec : EqDecision DrainPhase.
Proof. solve_decision. Defined.

(** The queue, with the generation and the closed flag of the client it asks for, and the frames handled so far. *)
Record Inbound := mkInbound {
  in_queue : list InboundItem;
  in_bytes : Z;
  in_phase : DrainPhase;
  in_generation : nat;
  in_closed : bool;
  in_overflows : nat;
  in_handled : list InboundItem;
}.
Implicit Types (q : Inbound) (raw : RawFrame) (item : InboundItem).

Definition new_inbound (generation : nat) : Inbound := mkInbound [] 0 DrainIdle generation false 0 [].
Definition set_queue q (queue : list InboundItem) (bytes : Z) : Inbound :=
  mkInbound queue bytes (in_phase q) (in_generation q) (in_closed q) (in_overflows q) (in_handled q).
Definition set_phase q (phase : DrainPhase) : Inbound :=
  mkInbound (in_queue q) (in_bytes q) phase (in_generation q) (in_closed q) (in_overflows q) (in_handled q).
Definition set_client q (generation : nat) (closed : bool) : Inbound :=
  mkInbound (in_queue q) (in_bytes q) (in_phase q) generation closed (in_overflows q) (in_handled q).

Definition clear_inbound q : Inbound := set_queue q [] 0.
Definition overflow q : Inbound :=
  mkInbound (in_queue q) (in_bytes q) (in_phase q) (in_generation q) (in_closed q) (S (in_overflows q)) (in_handled q).
Definition start_drain q : Inbound := match in_phase q with DrainIdle => set_phase q DrainLoop | _ => q end.

Definition is_stale q (generation : nat) : bool := negb (bool_decide (generation = in_generation q)) || in_closed q.
Definition is_full q (bytes : Z) : bool := (MAX_INBOUND_FRAMES <=? len (in_queue q)) || (MAX_INBOUND_BYTES <? in_bytes q + bytes).
Definition enqueue_frame q raw (generation : nat) : Inbound :=
  if is_stale q generation then q
  else if is_full q (frame_bytes raw) then overflow (clear_inbound q)
  else start_drain (set_queue q (in_queue q ++ [mkInboundItem generation raw (frame_bytes raw)]) (in_bytes q + frame_bytes raw)).

(** One turn of the loop of [drain]. *)
Definition handle_item q item : Inbound :=
  mkInbound (in_queue q) (in_bytes q) DrainHandling (in_generation q) (in_closed q) (in_overflows q) (in_handled q ++ [item]).
Definition drain_turn q : Inbound :=
  match in_queue q with
  | [] => set_phase q DrainIdle
  | item :: rest =>
      let q := set_queue q rest (in_bytes q - ii_bytes item) in
      if is_stale q (ii_generation item) then set_phase (clear_inbound q) DrainIdle else handle_item q item
  end.

Inductive InboundEvent :=
| FrameArrives (raw : RawFrame) (generation : nat)
| DrainTurns
| HandlerReturns
| HandlerThrows
| GenerationMoves
| ClientCloses
| QueueCleared.
(** A turn is taken in the loop and a handler ends in a handler; other events happen at any moment. *)
Definition inbound_event q (ev : InboundEvent) : Inbound :=
  match ev with
  | FrameArrives raw generation => enqueue_frame q raw generation
  | DrainTurns => match in_phase q with DrainLoop => drain_turn q | _ => q end
  | HandlerReturns => match in_phase q with DrainHandling => set_phase q DrainLoop | _ => q end
  | HandlerThrows => match in_phase q with DrainHandling => set_phase q DrainIdle | _ => q end
  | GenerationMoves => set_client q (S (in_generation q)) (in_closed q)
  | ClientCloses => set_client q (in_generation q) true
  | QueueCleared => clear_inbound q
  end.
Definition run_inbound q (evs : list InboundEvent) : Inbound := fold_left inbound_event evs q.

(** ** The frames that were accepted *)

Definition accepts q raw (generation : nat) : bool := negb (is_stale q generation) && negb (is_full q (frame_bytes raw)).
Definition accepted_by q (ev : InboundEvent) : list InboundItem :=
  match ev with
  | FrameArrives raw generation => if accepts q raw generation then [mkInboundItem generation raw (frame_bytes raw)] else []
  | _ => []
  end.
Fixpoint accepted q (evs : list InboundEvent) : list InboundItem :=
  match evs with
  | [] => []
  | ev :: evs => accepted_by q ev ++ accepted (inbound_event q ev) evs
  end.

(** ** Invariant *)

Definition queue_bytes (l : list InboundItem) : Z := sumZ (map ii_bytes l).
Record inbound_ok (all : list InboundItem) q : Prop := {
  io_bytes : in_bytes q = queue_bytes (in_queue q);
  io_sizes : Forall (fun item => 0 <= ii_bytes item) (in_queue q);
  io_limits : len (in_queue q) <= MAX_INBOUND_FRAMES /\ in_bytes q <= MAX_INBOUND_BYTES;
  io_order : (in_handled q ++ in_queue q) `sublist_of` all;
}.

#[local] Arguments queue_bytes : simpl never.
Lemma queue_bytes_app l l' : queue_bytes (l ++ l') = queue_bytes l + queue_bytes l'.
Proof. unfold queue_bytes. by rewrite map_app, sumZ_app. Qed.

Lemma sublist_drop_tail {A} (l l' all : list A) : (l ++ l') `sublist_of` all -> l `sublist_of` all.
Proof. intros H. etransitivity; [|exact H]. by apply sublist_inserts_r. Qed.

Lemma cleared_ok all q : inbound_ok all q -> inbound_ok all (clear_inbound q).
Proof.
  intros [H1 H2 H3 H4]. split; cbn; [done|apply Forall_nil_2|unfold MAX_INBOUND_FRAMES, MAX_INBOUND_BYTES; split; [len_lia|lia]|].
  rewrite app_nil_r. by apply (sublist_drop_tail _ (in_queue q)).
Qed.

Lemma sizes_nonneg q : Forall (fun item => 0 <= ii_bytes item) (in_queue q) -> 0 <= queue_bytes (in_queue q).
Proof. intros H. apply sumZ_nonneg. by apply Forall_map. Qed.

(** Sizes of frames are lengths. *)
Definition sized_event (ev : InboundEvent) : Prop := match ev with FrameArrives raw _ => 0 <= frame_bytes raw | _ => True end.

Lemma inbound_event_ok all q ev : sized_event ev -> inbound_ok all q -> inbound_ok (all ++ accepted_by q ev) (inbound_event q ev).
Proof.
  intros Hsz Hok. destruct ev as [raw g| | | | | |]; cbn [inbound_event accepted_by]; rewrite ?app_nil_r;
    try (by destruct Hok); try (by apply cleared_ok); try (case_match; by destruct Hok).
  - unfold enqueue_frame, accepts. destruct (is_stale q g); cbn [negb andb]; [by rewrite app_nil_r|].
    destruct (is_full q (frame_bytes raw)) eqn:Hf; cbn [negb]; [rewrite app_nil_r; pose proof (cleared_ok all q Hok) as []; by split|].
    unfold is_full in Hf. apply orb_false_iff in Hf as [Hn%Z.leb_gt Hb%Z.ltb_ge]. destruct Hok as [H1 H2 H3 H4].
    set (q' := set_queue _ _ _). assert (inbound_ok (all ++ [mkInboundItem g raw (frame_bytes raw)]) q') as Hok'.
    { split; cbn.
      - rewrite queue_bytes_app, H1. unfold queue_bytes. cbn. lia.
      - apply Forall_app. split; [done|]. by repeat constructor.
      - len_lia.
      - rewrite app_assoc. by apply sublist_app. }
    unfold start_drain. case_match; [|done..]. destruct Hok'. by split.
  - destruct (in_phase q); [by destruct Hok| |by destruct Hok]. unfold drain_turn. destruct (in_queue q) as [|item rest] eqn:Hq; [destruct Hok; split; cbn; rewrite ?Hq in *; done|].
    set (q1 := set_queue q rest _). assert (in_bytes q1 = queue_bytes rest /\ Forall (fun item => 0 <= ii_bytes item) rest /\ 0 <= ii_bytes item) as (H1 & H2 & H2').
    { destruct Hok as [Hb Hs _ _]. rewrite Hq in Hb, Hs. apply Forall_cons in Hs as [? ?]. split_and!; try done. cbn. rewrite Hb. unfold queue_bytes. cbn [map]. rewrite sumZ_cons. lia. }
    destruct Hok as [Hb Hs [Hl1 Hl2] Ho]. rewrite Hq in *. destruct (is_stale q1 (ii_generation item)).
    + split; cbn; [done|apply Forall_nil_2|unfold MAX_INBOUND_FRAMES, MAX_INBOUND_BYTES; split; [len_lia|lia]|].
      rewrite app_nil_r. by apply (sublist_drop_tail _ (item :: rest)).
    + split; cbn; [exact H1|exact H2| |by rewrite <- app_assoc]. cbn in H1. len_lia.
Qed.

Lemma accepted_app q evs ev : accepted q (evs ++ [ev]) = accepted q evs ++ accepted_by (run_inbound q evs) ev.
Proof. revert q. induction evs as [|e evs IH]; intros q; cbn; [by rewrite app_nil_r|]. by rewrite IH, app_assoc. Qed.

Lemma run_inbound_ok (generation : nat) evs : Forall sized_event evs -> inbound_ok (accepted (new_inbound generation) evs) (run_inbound (new_inbound generation) evs).
Proof.
  induction evs as [|ev evs IH] using rev_ind; intros Hs.
  - split; cbn; [done|apply Forall_nil_2|unfold MAX_INBOUND_FRAMES, MAX_INBOUND_BYTES; split; [len_lia|lia]|done].
  - apply Forall_app in Hs as [Hs Hev]. apply Forall_cons in Hev as [Hev _]. rewrite accepted_app. unfold run_inbound. rewrite fold_left_app. by apply inbound_event_ok; [|apply IH].
Qed.

(** ** Nothing is lost while the connection stays *)

Definition undisturbed (ev : InboundEvent) : Prop := match ev with GenerationMoves | ClientCloses | QueueCleared => False | _ => True end.

(** Frames of the current generation only, none of them dropped. *)
Record inbound_full (generation : nat) (all : list InboundItem) q : Prop := {
  if_current : in_generation q = generation /\ in_closed q = false;
  if_items : Forall (fun item => ii_generation item = generation) (in_queue q);
  if_all : in_overflows q = 0%nat -> in_handled q ++ in_queue q = all;
}.
Lemma inbound_event_full generation all q ev : undisturbed ev -> inbound_full generation all q ->
  inbound_full generation (all ++ accepted_by q ev) (inbound_event q ev).
Proof.
  intros Hu [[Hg Hc] Hi Ha]. destruct ev as [raw g| | | | | |]; try done; cbn [inbound_event accepted_by]; rewrite ?app_nil_r; try (case_match; by split).
  - unfold enqueue_frame, accepts. destruct (is_stale q g) eqn:Hst; cbn [negb andb]; [rewrite app_nil_r; by split|].
    destruct (is_full q (frame_bytes raw)); cbn [negb]; [rewrite app_nil_r; split; [done|apply Forall_nil_2|by cbn; intros ?]|].
    unfold is_stale in Hst. apply orb_false_iff in Hst as [->%negb_false_iff%bool_decide_eq_true _].
    unfold start_drain. case_match; (split; [done|apply Forall_app; split; [done|by repeat constructor]|]); cbn; intros Ho; rewrite app_assoc; by rewrite Ha.
  - destruct (in_phase q); [by split| |by split]. unfold drain_turn. destruct (in_queue q) as [|item rest] eqn:Hq; [split; cbn; by rewrite ?Hq in *|].
    apply Forall_cons in Hi as [Hit Hi]. assert (is_stale (set_queue q rest (in_bytes q - ii_bytes item)) (ii_generation item) = false) as ->.
    { unfold is_stale. cbn. rewrite Hit, Hc. by rewrite bool_decide_eq_true_2. }
    split; cbn; [done|done|]. intros Ho. rewrite <- app_assoc. cbn. by apply Ha.
Qed.
Lemma run_inbound_full (generation : nat) evs : Forall undisturbed evs ->
  inbound_full generation (accepted (new_inbound generation) evs) (run_inbound (new_inbound generation) evs).
Proof.
  induction evs as [|ev evs IH] using rev_ind; intros Hs; [split; cbn; [done|apply Forall_nil_2|done]|].
  apply Forall_app in Hs as [Hs Hev]. apply Forall_cons in Hev as [Hev _]. rewrite accepted_app. unfold run_inbound. rewrite fold_left_app. by apply inbound_event_full; [|apply IH].
Qed.


Definition sample_frames : list InboundEvent :=
  [FrameArrives (TextFrame 1 10) 4; FrameArrives (BinaryFrame 2 7) 4; DrainTurns; FrameArrives (TextFrame 3 1) 3; HandlerReturns; DrainTurns; FrameArrives (TextFrame 4 2) 4].

(** A stale frame at the head of the queue takes the frames behind it along, also those of the current generation: a frame that waits
    while a slow handler outlives its connection makes the drain drop the first frames of the next connection. *)
Example stale_head_drops_current :
  let evs := [FrameArrives (TextFrame 1 10) 4; DrainTurns; FrameArrives (TextFrame 2 10) 4; GenerationMoves; FrameArrives (TextFrame 3 10) 5; HandlerReturns; DrainTurns] in
  let q := run_inbound (new_inbound 4) evs in
  in_queue q = [] /\ in_generation q = 5%nat /\ in_closed q = false /\ in_overflows q = 0%nat /\
  map ii_generation (accepted (new_inbound 4) evs) = [4%nat; 4%nat; 5%nat] /\ map ii_generation (in_handled q) = [4%nat].
Proof. vm_compute. split_and!; reflexivity. Qed.
