(* ===== verification/ClientLifecycle.v ===== *)
(** * ClientLifecycle: the life of a connection
    ([packages/client/src/omp-client-connection.ts], [omp-client-state.ts], and of
    [omp-client-runtime.ts] connecting, the handshake, lost connections, failures and closing)

    The state joins the connection with what surrounds it: the factories that are still making a
    transport, the transports that are open, the timers that are active and the suspended parts of
    [connect] and [close].  Listeners and transports are foreign code that may call back into the
    client before they return: [outside] stands for what they do, wherever the source calls them. *)
From stdpp Require Import base tactics option list numbers strings sets.
From S2P Require Import Prelude JsMap JsString ClientRequests.

(** ** States *)

Inductive OmpClientState :=
| st_idle | st_connecting | st_handshaking | st_pairing | st_ready | st_reconnect_wait | st_closing | st_closed | st_fatal.
#[export] Instance OmpClientState_eq_dec : EqDecision OmpClientState.
Proof. solve_decision. Defined.

Definition LEGAL_TRANSITIONS (current : OmpClientState) : list OmpClientState :=
  match current with
  | st_idle => [st_connecting; st_closing; st_closed]
  | st_connecting => [st_handshaking; st_reconnect_wait; st_fatal; st_closing]
  | st_handshaking => [st_ready; st_pairing; st_reconnect_wait; st_fatal; st_closing]
  | st_pairing => [st_ready; st_reconnect_wait; st_fatal; st_closing]
  | st_ready => [st_pairing; st_reconnect_wait; st_fatal; st_closing]
  | st_reconnect_wait => [st_connecting; st_fatal; st_closing]
  | st_closing => [st_closed]
  | st_closed => []
  | st_fatal => [st_connecting; st_closing; st_closed]
  end.
Definition isLegalClientTransition (current next : OmpClientState) : bool :=
  negb (bool_decide (current = next)) && bool_decide (next ∈ LEGAL_TRANSITIONS current).
Definition isTerminalState (state : OmpClientState) : bool :=
  match state with st_closed | st_closing | st_fatal => true | _ => false end.

Inductive TimerKind := KReconnect | KHeartbeatTick | KHeartbeatTimeout | KHandshake.

(** The fields of [OmpClientConnection]. *)
Record Connection := mkConnection {
  cn_generation : nat;
  cn_attempt : Z;
  cn_transport : option nat;
  cn_reconnectTimer : option nat;
  cn_heartbeatTimer : option nat;
  cn_heartbeatTimeout : option nat;
}.
(** What surrounds it: active timers with their delays; generations whose factory runs; generations whose transport was connected;
    transports that are open. *)
Record Surroundings := mkSurroundings {
  su_timers : jsmap nat (TimerKind * Z);
  su_nextTimer : nat;
  su_making : list nat;
  su_connected : list nat;
  su_open : list nat;
  su_nextTransport : nat;
}.
(** The fields of the runtime that decide about its connection, with the calls of [connect] that wait for the cursors, and of
    [close] that wait for preview leases and for cursor saves. *)
Record Runtime := mkRuntime {
  rt_state : OmpClientState;
  rt_closedByUser : bool;
  rt_fatalError : option OmpClientError;
  rt_compatibilityFallbackUsed : bool;
  rt_handshakeTimer : option nat;
  rt_awaitsPong : bool;
  rt_loading : nat;
  rt_releasing : nat;
  rt_saving : nat;
}.
Record Client := mkClient { c_conn : Connection; c_around : Surroundings; c_run : Runtime }.
Implicit Types (c : Client) (n : Connection) (w : Surroundings) (r : Runtime) (t g : nat).

Definition new_client : Client :=
  mkClient (mkConnection 0 0 None None None None) (mkSurroundings [] 0 [] [] [] 0) (mkRuntime st_idle false None false None false 0 0 0).

Definition with_conn c n : Client := mkClient n (c_around c) (c_run c).
Definition with_around c w : Client := mkClient (c_conn c) w (c_run c).
Definition with_run c r : Client := mkClient (c_conn c) (c_around c) r.

Definition set_generation n g := mkConnection g (cn_attempt n) (cn_transport n) (cn_reconnectTimer n) (cn_heartbeatTimer n) (cn_heartbeatTimeout n).
Definition set_attempt n (a : Z) := mkConnection (cn_generation n) a (cn_transport n) (cn_reconnectTimer n) (cn_heartbeatTimer n) (cn_heartbeatTimeout n).
Definition set_transport n (x : option nat) := mkConnection (cn_generation n) (cn_attempt n) x (cn_reconnectTimer n) (cn_heartbeatTimer n) (cn_heartbeatTimeout n).
Definition set_reconnect n (x : option nat) := mkConnection (cn_generation n) (cn_attempt n) (cn_transport n) x (cn_heartbeatTimer n) (cn_heartbeatTimeout n).
Definition set_heartbeat n (tick timeout : option nat) := mkConnection (cn_generation n) (cn_attempt n) (cn_transport n) (cn_reconnectTimer n) tick timeout.

Definition set_active w (timers : jsmap nat (TimerKind * Z)) (next : nat) :=
  mkSurroundings timers next (su_making w) (su_connected w) (su_open w) (su_nextTransport w).
Definition set_making w (making : list nat) :=
  mkSurroundings (su_timers w) (su_nextTimer w) making (su_connected w) (su_open w) (su_nextTransport w).
Definition add_connected w g := mkSurroundings (su_timers w) (su_nextTimer w) (su_making w) (su_connected w ++ [g]) (su_open w) (su_nextTransport w).
Definition set_open w (open : list nat) (next : nat) :=
  mkSurroundings (su_timers w) (su_nextTimer w) (su_making w) (su_connected w) open next.

Definition set_state r (s : OmpClientState) :=
  mkRuntime s (rt_closedByUser r) (rt_fatalError r) (rt_compatibilityFallbackUsed r) (rt_handshakeTimer r) (rt_awaitsPong r) (rt_loading r) (rt_releasing r) (rt_saving r).
Definition set_closed r (b : bool) (e : option OmpClientError) :=
  mkRuntime (rt_state r) b e (rt_compatibilityFallbackUsed r) (rt_handshakeTimer r) (rt_awaitsPong r) (rt_loading r) (rt_releasing r) (rt_saving r).
Definition set_fallback r (b : bool) :=
  mkRuntime (rt_state r) (rt_closedByUser r) (rt_fatalError r) b (rt_handshakeTimer r) (rt_awaitsPong r) (rt_loading r) (rt_releasing r) (rt_saving r).
Definition set_handshake r (x : option nat) :=
  mkRuntime (rt_state r) (rt_closedByUser r) (rt_fatalError r) (rt_compatibilityFallbackUsed r) x (rt_awaitsPong r) (rt_loading r) (rt_releasing r) (rt_saving r).
Definition set_pong r (b : bool) :=
  mkRuntime (rt_state r) (rt_closedByUser r) (rt_fatalError r) (rt_compatibilityFallbackUsed r) (rt_handshakeTimer r) b (rt_loading r) (rt_releasing r) (rt_saving r).
Definition set_suspended r (loading releasing saving : nat) :=
  mkRuntime (rt_state r) (rt_closedByUser r) (rt_fatalError r) (rt_compatibilityFallbackUsed r) (rt_handshakeTimer r) (rt_awaitsPong r) loading releasing saving.

(** ** Timers *)

Definition schedule_timer c (kind : TimerKind) (delayMs : Z) : Client * nat :=
  let w := c_around c in
  (with_around c (set_active w (map_set (su_nextTimer w) (kind, Z.max 0 delayMs) (su_timers w)) (S (su_nextTimer w))), su_nextTimer w).
Definition clear_client_timer c t : Client :=
  let w := c_around c in with_around c (set_active w (map_delete t (su_timers w)) (su_nextTimer w)).
Definition clear_timer_of c (o : option nat) : Client := match o with Some t => clear_client_timer c t | None => c end.

(** ** The connection *)

Definition is_active c : bool := negb (rt_closedByUser (c_run c)) && negb (isTerminalState (rt_state (c_run c))).

Definition begin_connection c : Client :=
  if negb (is_active c) then c
  else
    let generation := S (cn_generation (c_conn c)) in
    with_around (with_conn c (set_generation (c_conn c) generation)) (set_making (c_around c) (su_making (c_around c) ++ [generation])).

Definition clearHeartbeatTimeout c : Client :=
  let n := c_conn c in
  let c := clear_timer_of c (cn_heartbeatTimeout n) in
  with_conn c (set_heartbeat (c_conn c) (cn_heartbeatTimer n) None).
Definition stopHeartbeat c : Client :=
  let n := c_conn c in
  let c := clear_timer_of (clear_timer_of c (cn_heartbeatTimer n)) (cn_heartbeatTimeout n) in
  with_conn c (set_heartbeat (c_conn c) None None).
Definition clearReconnect c : Client :=
  let c := clear_timer_of c (cn_reconnectTimer (c_conn c)) in with_conn c (set_reconnect (c_conn c) None).

Definition close_transport c t : Client :=
  let w := c_around c in with_around c (set_open w (List.filter (fun o => negb (bool_decide (o = t))) (su_open w)) (su_nextTransport w)).
Definition disconnect_transport c : Client :=
  let c := with_conn c (set_generation (c_conn c) (S (cn_generation (c_conn c)))) in
  let c := clearReconnect (stopHeartbeat c) in
  match cn_transport (c_conn c) with
  | Some t => close_transport (with_conn c (set_transport (c_conn c) None)) t
  | None => c
  end.
Definition resetAttempts c : Client := with_conn c (set_attempt (c_conn c) 0).

(** The delay of the next attempt; [num / den] is the random number. *)
Definition backoff (baseMs maxMs attempt num den : Z) : Z :=
  let random := (Z.max 0 (Z.min den num), den) in
  let ceiling := Z.min maxMs (baseMs * 2 ^ Z.max 0 (attempt - 1)) in
  let floor := ceiling / 2 in
  floor + fst random * (ceiling - floor) / snd random.

Section Lifecycle.
(** The options, the random number as a fraction, and what foreign code does when it is called. *)
Context (baseMs maxMs intervalMs timeoutMs handshakeTimeoutMs : Z) (hasCompatibilityFeatures : bool).
Context (random : Client -> Z * Z) (outside : Client -> Client).

Definition transition c (next : OmpClientState) : Client :=
  if isLegalClientTransition (rt_state (c_run c)) next then outside (with_run c (set_state (c_run c) next)) else c.
Definition emitError c : Client := outside c.

Definition scheduleReconnect c : Client :=
  if negb (is_active c) || match cn_reconnectTimer (c_conn c) with Some _ => true | None => false end then c
  else
    let attempt := cn_attempt (c_conn c) + 1 in
    let c := with_conn c (set_attempt (c_conn c) attempt) in
    let '(c, timer) := schedule_timer c KReconnect (backoff baseMs maxMs attempt (fst (random c)) (snd (random c))) in
    transition (with_conn c (set_reconnect (c_conn c) (Some timer))) st_reconnect_wait.

Definition beginReconnectNow c : Client :=
  match cn_reconnectTimer (c_conn c) with
  | Some _ => if negb (is_active c) then c else begin_connection (transition (clearReconnect c) st_connecting)
  | None => c
  end.

Definition beats c : bool := match rt_state (c_run c) with st_ready | st_pairing => true | _ => false end.
Definition has_transport c : bool := match cn_transport (c_conn c) with Some _ => true | None => false end.
Definition schedule_tick c : Client :=
  let '(c, timer) := schedule_timer c KHeartbeatTick intervalMs in
  with_conn c (set_heartbeat (c_conn c) (Some timer) (cn_heartbeatTimeout (c_conn c))).
Definition first_tick c : Client := if negb (beats c) || negb (has_transport c) then c else schedule_tick c.
Definition startHeartbeat c : Client := first_tick (stopHeartbeat (with_run c (set_pong (c_run c) false))).

(** ** Failures, lost connections and closing *)

Definition clear_handshake c : Client := let r := c_run c in with_run (clear_timer_of c (rt_handshakeTimer r)) (set_handshake r None).
Definition clearAllTimers c : Client :=
  let c := clearReconnect (stopHeartbeat (clear_handshake c)) in with_around c (set_active (c_around c) [] (su_nextTimer (c_around c))).

(** The connection and every timer are given up, with the reason. *)
Definition shut_down c (error : option OmpClientError) : Client :=
  disconnect_transport (clearAllTimers (with_run c (set_pong (set_closed (c_run c) true error) false))).
Definition enter_fatal c : Client := match rt_state (c_run c) with st_fatal | st_closed => c | _ => transition c st_fatal end.
Definition fatal_client c (error : OmpClientError) : Client := enter_fatal (shut_down (emitError c) (Some error)).

(** [scheduleReconnect] of the runtime. *)
Definition reconnect_later c : Client := if negb (rt_closedByUser (c_run c)) then scheduleReconnect c else c.
Definition forget_pong c : Client := with_run c (set_pong (c_run c) false).
Definition drop_connection c : Client := reconnect_later (disconnect_transport (forget_pong (clear_handshake c))).

(** [invalidFrame]: the reason of the closure is that of a rejected hello. *)
Definition handleDisconnect c (code : option Z) (invalidFrame : bool) : Client :=
  if rt_closedByUser (c_run c) || isTerminalState (rt_state (c_run c)) then c
  else if bool_decide (rt_state (c_run c) = st_handshaking) && bool_decide (code = Some 1008) && invalidFrame then
    if negb (rt_compatibilityFallbackUsed (c_run c)) && hasCompatibilityFeatures
    then drop_connection (emitError (with_run c (set_fallback (c_run c) true)))
    else fatal_client c (client_error e_protocol "Host rejected the protocol hello." false)
  else if bool_decide (code = Some 1008) then fatal_client c (client_error e_auth "Host rejected the protocol session." false)
  else if bool_decide (code = Some 1002) then fatal_client c (client_error e_protocol "Host rejected the protocol session." false)
  else drop_connection c.

Definition handleTransportError c : Client := handleDisconnect (emitError c) None false.

Definition reviveRetryableTransportFailure c : Client :=
  match rt_state (c_run c), rt_fatalError (c_run c) with
  | st_fatal, Some e =>
      if bool_decide (ce_code e = e_transport) && ce_retryable e
      then begin_connection (transition (with_run c (set_closed (c_run c) false None)) st_connecting) else c
  | _, _ => c
  end.
Definition reconnectNow c : Client :=
  match rt_state (c_run c) with
  | st_idle => with_run c (set_suspended (c_run c) (S (rt_loading (c_run c))) (rt_releasing (c_run c)) (rt_saving (c_run c)))
  | st_reconnect_wait => beginReconnectNow c
  | st_fatal => reviveRetryableTransportFailure c
  | st_closed | st_closing | st_connecting | st_handshaking => c
  | st_ready | st_pairing => beginReconnectNow (handleDisconnect c None false)
  end.
(** [stale]: nothing was received for too long. *)
Definition wake c (stale : bool) : Client :=
  match rt_state (c_run c) with
  | st_idle | st_reconnect_wait | st_fatal => reconnectNow c
  | st_ready | st_pairing => if stale then reconnectNow c else c
  | _ => c
  end.

(** [close], up to waiting for the cursor saves. *)
Definition await_saves c : Client :=
  with_run c (set_suspended (c_run c) (rt_loading (c_run c)) (rt_releasing (c_run c)) (S (rt_saving (c_run c)))).
Definition close_now c : Client :=
  await_saves (disconnect_transport (clearAllTimers (transition (with_run c (set_pong (set_closed (c_run c) true None) false)) st_closing))).
Definition close_client c : Client :=
  match rt_state (c_run c) with
  | st_closed => c
  | st_ready => with_run c (set_suspended (c_run c) (rt_loading (c_run c)) (S (rt_releasing (c_run c))) (rt_saving (c_run c)))
  | _ => close_now c
  end.

(** ** The handshake *)

Inductive HelloResult := HelloSent | HelloAuthFailed | HelloNotEncoded | HelloSendFailed.
Definition sendHello c (result : HelloResult) : Client :=
  let c := outside c in
  match result with
  | HelloSent => c
  | HelloAuthFailed => fatal_client c (client_error e_auth "authentication provider failed" false)
  | HelloNotEncoded => fatal_client c (client_error e_protocol "hello could not be encoded" false)
  | HelloSendFailed => handleTransportError c
  end.
Definition arm_handshake c : Client :=
  if bool_decide (rt_state (c_run c) = st_handshaking) then
    let '(c, timer) := schedule_timer c KHandshake handshakeTimeoutMs in
    with_run c (set_handshake (c_run c) (Some timer))
  else c.
Definition handleConnected c (hello : HelloResult) : Client :=
  let c := with_run c (set_closed (c_run c) (rt_closedByUser (c_run c)) None) in
  arm_handshake (sendHello (transition (transition c st_connecting) st_handshaking) hello).

(** The factory of generation [g] made a transport, or failed. *)
Definition made c g : Client :=
  let w := c_around c in with_around c (set_making w (List.filter (fun m => negb (bool_decide (m = g))) (su_making w))).
Definition adopt c g t : Client := with_around (with_conn c (set_transport (c_conn c) (Some t))) (add_connected (c_around c) g).
Definition new_transport c t : Client :=
  let w := c_around c in with_around c (set_open w (su_open w ++ [t]) (S t)).
Definition opened c g (hello : HelloResult) : Client :=
  let t := su_nextTransport (c_around c) in
  let c := new_transport (made c g) t in
  if negb (bool_decide (g = cn_generation (c_conn c))) || negb (is_active c) then close_transport c t
  else handleConnected (adopt c g t) hello.
Definition open_failed c g : Client :=
  let c := made c g in
  if bool_decide (g = cn_generation (c_conn c)) then handleTransportError c else c.

Inductive Welcome := WelcomeMismatch | WelcomePairing | WelcomeLacksFeature | WelcomeReady.
Definition handleWelcome c (frame : Welcome) : Client :=
  let c := clear_handshake c in
  match frame with
  | WelcomeMismatch => fatal_client c (client_error e_protocol "welcome host does not match target" false)
  | WelcomePairing => outside (startHeartbeat (transition c st_pairing))
  | WelcomeLacksFeature => fatal_client c (client_error e_capability "required feature was not granted" false)
  | WelcomeReady => outside (startHeartbeat (transition c st_ready))
  end.

(** ** Frames and timers *)

Inductive LifecycleFrame :=
| FWelcome (frame : Welcome)
| FPong
| FByeRetryable
| FPairStored
| FFailure (auth : bool)
| FOther.
(** A frame that was received on the transport of generation [g]. *)
Definition handle_frame c g (frame : LifecycleFrame) : Client :=
  if negb (bool_decide (g = cn_generation (c_conn c))) || rt_closedByUser (c_run c) then c
  else match frame with
  | FWelcome welcome => handleWelcome c welcome
  | FPong => if rt_awaitsPong (c_run c) then clearHeartbeatTimeout (forget_pong c) else c
  | FByeRetryable => handleDisconnect c None false
  | FPairStored =>
      reconnect_later (disconnect_transport (resetAttempts (forget_pong c)))
  | FFailure auth => fatal_client c (client_error (if auth then e_auth else e_protocol) "server closed the protocol session" false)
  | FOther => outside c
  end.

Definition await_pong c : Client :=
  let '(c, timer) := schedule_timer c KHeartbeatTimeout timeoutMs in
  with_run (with_conn c (set_heartbeat (c_conn c) (cn_heartbeatTimer (c_conn c)) (Some timer))) (set_pong (c_run c) true).
(** [sent]: a ping could be sent. *)
Definition after_ping c (sent : bool) : Client :=
  if sent then schedule_tick c else handleDisconnect (clearHeartbeatTimeout c) None false.
Definition heartbeatTick c (sent : bool) : Client :=
  if negb (beats c) || negb (has_transport c) then c else after_ping (outside (await_pong c)) sent.

Definition forget_reconnect c : Client := with_conn c (set_reconnect (c_conn c) None).
Definition expired c (kind : TimerKind) t (sent : bool) : Client :=
  match kind with
  | KReconnect =>
      if bool_decide (cn_reconnectTimer (c_conn c) = Some t) then begin_connection (transition (forget_reconnect c) st_connecting) else c
  | KHeartbeatTick => heartbeatTick c sent
  | KHeartbeatTimeout => handleDisconnect c None false
  | KHandshake => fatal_client c (client_error e_protocol "handshake timed out" false)
  end.
Definition fire_timer c t (sent : bool) : Client :=
  match map_get t (su_timers (c_around c)) with
  | None => c
  | Some (kind, _) => expired (clear_client_timer c t) kind t sent
  end.

(** ** Suspended calls *)

Definition connect_client c : Client :=
  if isTerminalState (rt_state (c_run c)) then c
  else with_run c (set_suspended (c_run c) (S (rt_loading (c_run c))) (rt_releasing (c_run c)) (rt_saving (c_run c))).
(** The cursors are loaded. *)
Definition connect_loaded c : Client :=
  let r := c_run c in
  match rt_loading r with
  | O => c
  | S loading =>
      let c := with_run c (set_suspended r loading (rt_releasing r) (rt_saving r)) in
      if bool_decide (rt_state r = st_ready) || isTerminalState (rt_state r) then c
      else
        let c := with_run c (set_closed (c_run c) false (rt_fatalError r)) in
        if bool_decide (rt_state r = st_idle) then begin_connection (transition c st_connecting) else c
  end.
(** The preview leases are released. *)
Definition close_released c : Client :=
  let r := c_run c in
  match rt_releasing r with O => c | S releasing => close_now (with_run c (set_suspended r (rt_loading r) releasing (rt_saving r))) end.
(** The cursors are saved. *)
Definition close_saved c : Client :=
  let r := c_run c in
  match rt_saving r with O => c | S saving => transition (with_run c (set_suspended r (rt_loading r) (rt_releasing r) saving)) st_closed end.
End Lifecycle.
