(* ===== verification/ClientLifecycleSpec.v ===== *)
(** * ClientLifecycleSpec: one transport, and never stuck

    Invariants of the client's connection over every sequence of events, with listeners and
    transports that call back into the client at every point where the source calls them. *)
From stdpp Require Import base tactics option list numbers strings sets.
From S2P Require Import Prelude JsMap JsString ClientRequests ClientLifecycle.

Implicit Types (c : Client) (t g : nat) (kind : TimerKind) (o : option nat).

Abbreviation state_of c := (rt_state (c_run c)).
Abbreviation timers_of c := (su_timers (c_around c)).
Abbreviation generation_of c := (cn_generation (c_conn c)).
Abbreviation transport_of c := (cn_transport (c_conn c)).
Abbreviation terminal c := (isTerminalState (rt_state (c_run c)) = true).

(** ** The invariant *)

(** A field that remembers a timer remembers one of its kind, and no other timer gets its number. *)
Definition tracks c o kind : Prop :=
  forall t, o = Some t -> (t < su_nextTimer (c_around c))%nat /\ forall x, map_get t (timers_of c) = Some x -> fst x = kind.
(** The timer a field remembers is active. *)
Definition runs c o kind : Prop := exists t delay, o = Some t /\ map_get t (timers_of c) = Some (kind, delay).

Record base_ok c : Prop := {
  b_open : su_open (c_around c) = option_list (transport_of c);
  b_fresh : forall t, transport_of c = Some t -> (t < su_nextTransport (c_around c))%nat;
  b_making : generation_of c ∈ su_making (c_around c) -> transport_of c = None;
  b_connected : generation_of c ∈ su_connected (c_around c) <-> is_Some (transport_of c);
  b_le : forall g, g ∈ su_making (c_around c) \/ g ∈ su_connected (c_around c) -> (g <= generation_of c)%nat;
  b_next : forall t, is_Some (map_get t (timers_of c)) -> (t < su_nextTimer (c_around c))%nat;
  b_reconnect : tracks c (cn_reconnectTimer (c_conn c)) KReconnect;
  b_tick : tracks c (cn_heartbeatTimer (c_conn c)) KHeartbeatTick;
  b_timeout : tracks c (cn_heartbeatTimeout (c_conn c)) KHeartbeatTimeout;
  b_handshake : tracks c (rt_handshakeTimer (c_run c)) KHandshake;
  b_fatal : forall e, rt_fatalError (c_run c) = Some e -> ce_code e ≠ e_transport;
}.

Definition state_ok c : Prop :=
  match state_of c with
  | st_idle => rt_closedByUser (c_run c) = false /\ su_making (c_around c) = [] /\ su_connected (c_around c) = [] /\ timers_of c = [] /\
      cn_reconnectTimer (c_conn c) = None /\ rt_saving (c_run c) = 0%nat
  | st_connecting => rt_closedByUser (c_run c) = false /\ transport_of c = None /\ cn_reconnectTimer (c_conn c) = None
  | st_handshaking | st_pairing | st_ready =>
      rt_closedByUser (c_run c) = false /\ is_Some (transport_of c) /\ cn_reconnectTimer (c_conn c) = None
  | st_reconnect_wait =>
      rt_closedByUser (c_run c) = false /\ transport_of c = None /\ generation_of c ∉ su_making (c_around c) /\
      runs c (cn_reconnectTimer (c_conn c)) KReconnect
  | st_closing | st_closed => rt_closedByUser (c_run c) = true
  | st_fatal => rt_closedByUser (c_run c) = true /\ cn_reconnectTimer (c_conn c) = None
  end.
Definition client_ok c : Prop := base_ok c /\ state_ok c.

(** What will move the client on in each state. *)
Definition progress c : Prop :=
  match state_of c with
  | st_idle | st_reconnect_wait => True
  | st_connecting => generation_of c ∈ su_making (c_around c)
  | st_handshaking => runs c (rt_handshakeTimer (c_run c)) KHandshake
  | st_pairing | st_ready => runs c (cn_heartbeatTimer (c_conn c)) KHeartbeatTick
  | st_closing => (0 < rt_saving (c_run c))%nat /\ transport_of c = None
  | st_closed | st_fatal => transport_of c = None
  end.
(** With the states of [X] exempt, while a handler is under way. *)
Definition moves (X : list OmpClientState) c : Prop := state_of c ∈ X \/ progress c.

(** What no call from outside changes. *)
Record keeps c c' : Prop := {
  kp_transport : transport_of c = None -> transport_of c' = None;
  kp_idle : state_of c ≠ st_idle -> state_of c' ≠ st_idle;
  kp_terminal : terminal c -> terminal c';
  kp_connecting : state_of c = st_connecting -> state_of c' = st_connecting \/ terminal c';
  kp_handshaking : state_of c' = st_handshaking -> state_of c = st_handshaking;
}.
Lemma keeps_refl c : keeps c c.
Proof. split; auto. Qed.
Lemma keeps_trans c1 c2 c3 : keeps c1 c2 -> keeps c2 c3 -> keeps c1 c3.
Proof. intros [] []. split; auto. intros H. destruct (kp_connecting0 H); auto. Qed.
Lemma keeps_same c c' : transport_of c' = transport_of c -> state_of c' = state_of c -> keeps c c'.
Proof. intros Ht Hs. split; rewrite ?Ht, ?Hs; auto. Qed.
#[local] Hint Resolve keeps_refl : omp.

(** A call that may happen at any moment. *)
Definition harmless (f : Client -> Client) : Prop :=
  forall c, client_ok c -> client_ok (f c) /\ keeps c (f c) /\ forall X, moves X c -> moves X (f c).

(** *** Timers *)

Lemma tracks_none c kind : tracks c None kind.
Proof. by intros t. Qed.
Lemma clear_around c o : c_conn (clear_timer_of c o) = c_conn c /\ c_run (clear_timer_of c o) = c_run c.
Proof. by destruct o. Qed.

(** Two clients with the same surroundings but for timers that are gone. *)
Record fewer_timers c c' : Prop := {
  fw_get : forall t x, map_get t (timers_of c') = Some x -> map_get t (timers_of c) = Some x;
  fw_next : su_nextTimer (c_around c') = su_nextTimer (c_around c);
  fw_making : su_making (c_around c') = su_making (c_around c);
  fw_connected : su_connected (c_around c') = su_connected (c_around c);
}.
Lemma fewer_refl c : fewer_timers c c.
Proof. by split. Qed.
Lemma fewer_trans c1 c2 c3 : fewer_timers c1 c2 -> fewer_timers c2 c3 -> fewer_timers c1 c3.
Proof. intros [] []. split; eauto; congruence. Qed.
Lemma tracks_fewer c c' o kind : fewer_timers c c' -> tracks c o kind -> tracks c' o kind.
Proof. intros [] Ht t Ho. rewrite fw_next0. destruct (Ht t Ho). split; eauto. Qed.
Lemma get_delete_nat {V} t t' (v : V) (m : jsmap nat V) : map_get t (map_delete t' m) = Some v <-> t ≠ t' /\ map_get t m = Some v.
Proof.
  destruct (decide (t = t')) as [->|Hne]; [rewrite map_get_delete_eq; naive_solver|rewrite map_get_delete_ne by done; naive_solver].
Qed.
Lemma clear_timer_fewer c o : fewer_timers c (clear_timer_of c o).
Proof. destruct o as [t|]; [|apply fewer_refl]. split; try done. cbn. intros t' x. rewrite get_delete_nat. by intros [_ ?]. Qed.

(** Clearing one kind of timer leaves the others. *)
Lemma runs_clear c o o' kind kind' : kind ≠ kind' -> tracks c o' kind' -> runs c o kind -> runs (clear_timer_of c o') o kind.
Proof.
  intros Hk Ht (t & delay & Ho & Hg). destruct o' as [t'|]; [|by exists t, delay]. exists t, delay. split; [done|]. cbn. rewrite get_delete_nat.
  split; [|done]. intros ->. destruct (Ht t' eq_refl) as [_ H]. by specialize (H _ Hg).
Qed.

(** *** Steps between calls to the outside *)

Definition forgets (o o' : option nat) : Prop := o' = o \/ o' = None.
(** The same connection, with fewer timers and possibly fewer of them remembered. *)
Record calmer c c' : Prop := {
  cm_timers : fewer_timers c c';
  cm_open : su_open (c_around c') = su_open (c_around c) /\ su_nextTransport (c_around c') = su_nextTransport (c_around c);
  cm_generation : generation_of c' = generation_of c /\ transport_of c' = transport_of c;
  cm_reconnect : forgets (cn_reconnectTimer (c_conn c)) (cn_reconnectTimer (c_conn c'));
  cm_tick : forgets (cn_heartbeatTimer (c_conn c)) (cn_heartbeatTimer (c_conn c'));
  cm_timeout : forgets (cn_heartbeatTimeout (c_conn c)) (cn_heartbeatTimeout (c_conn c'));
  cm_handshake : forgets (rt_handshakeTimer (c_run c)) (rt_handshakeTimer (c_run c'));
  cm_fatal : rt_fatalError (c_run c') = rt_fatalError (c_run c) \/ forall e, rt_fatalError (c_run c') = Some e -> ce_code e ≠ e_transport;
}.
Lemma forgets_trans o1 o2 o3 : forgets o1 o2 -> forgets o2 o3 -> forgets o1 o3.
Proof. unfold forgets. intros [->| ->] [->| ->]; auto. Qed.
Lemma calmer_trans c1 c2 c3 : calmer c1 c2 -> calmer c2 c3 -> calmer c1 c3.
Proof.
  intros [? [] [] ? ? ? ? ?] [? [] [] ? ? ? ? ?]. split; eauto using fewer_trans, forgets_trans; try (split; congruence).
  destruct cm_fatal1 as [->|]; [done|by right].
Qed.
Lemma tracks_forgets c o o' kind : forgets o o' -> tracks c o kind -> tracks c o' kind.
Proof. intros [->| ->]; [done|]. intros _. apply tracks_none. Qed.

Lemma calmer_ok c c' : calmer c c' -> base_ok c -> base_ok c'.
Proof.
  intros [Hw [Ho Hn] [Hg Ht] Hr Hti Hto Hh Hf] Hb. pose proof Hw as [Hget Hnext Hmk Hcn].
  split; rewrite ?Ho, ?Hg, ?Ht, ?Hmk, ?Hcn, ?Hn, ?Hnext; try apply Hb.
  - intros t [x Hx]. apply (b_next _ Hb). eauto.
  - eapply tracks_forgets, (tracks_fewer c), Hb; eassumption.
  - eapply tracks_forgets, (tracks_fewer c), Hb; eassumption.
  - eapply tracks_forgets, (tracks_fewer c), Hb; eassumption.
  - eapply tracks_forgets, (tracks_fewer c), Hb; eassumption.
  - destruct Hf as [->|Hf]; [apply Hb|done].
Qed.

Ltac calm := split; cbn; try (split; reflexivity); try (left; reflexivity); try (right; reflexivity); auto using fewer_refl.
Lemma calm_run c (r : Runtime) :
  forgets (rt_handshakeTimer (c_run c)) (rt_handshakeTimer r) ->
  (rt_fatalError r = rt_fatalError (c_run c) \/ forall e, rt_fatalError r = Some e -> ce_code e ≠ e_transport) -> calmer c (with_run c r).
Proof. intros Hh Hf. calm. by split. Qed.
Lemma calm_refl c : calmer c c.
Proof. calm. Qed.

Lemma calm_clear c o : calmer c (clear_timer_of c o).
Proof. destruct o as [t|]; [|apply calm_refl]. calm. apply (clear_timer_fewer c (Some t)). Qed.
Lemma calm_conn c (n : Connection) : cn_generation n = generation_of c -> cn_transport n = transport_of c ->
  forgets (cn_reconnectTimer (c_conn c)) (cn_reconnectTimer n) -> forgets (cn_heartbeatTimer (c_conn c)) (cn_heartbeatTimer n) ->
  forgets (cn_heartbeatTimeout (c_conn c)) (cn_heartbeatTimeout n) -> calmer c (with_conn c n).
Proof. intros. calm. by split. Qed.

Lemma calm_clearHeartbeatTimeout c : calmer c (clearHeartbeatTimeout c).
Proof.
  unfold clearHeartbeatTimeout. eapply calmer_trans; [apply (calm_clear c (cn_heartbeatTimeout (c_conn c)))|].
  destruct (clear_around c (cn_heartbeatTimeout (c_conn c))) as [-> _]. apply calm_conn; cbn;
    destruct (clear_around c (cn_heartbeatTimeout (c_conn c))) as [-> _]; try done; by (left + right).
Qed.
Lemma calm_stopHeartbeat c : calmer c (stopHeartbeat c).
Proof.
  unfold stopHeartbeat. set (c1 := clear_timer_of c _). set (c2 := clear_timer_of c1 _).
  assert (c_conn c2 = c_conn c) as E by (unfold c2, c1; by rewrite !(proj1 (clear_around _ _))).
  apply (calmer_trans _ c2); [eapply calmer_trans; apply calm_clear|]. apply calm_conn; try done; by (left + right).
Qed.
Lemma calm_clearReconnect c : calmer c (clearReconnect c).
Proof.
  unfold clearReconnect. eapply calmer_trans; [apply calm_clear|]. apply calm_conn; try done; by (left + right).
Qed.
Lemma calm_clear_handshake c : calmer c (clear_handshake c).
Proof.
  unfold clear_handshake. eapply calmer_trans; [apply (calm_clear c (rt_handshakeTimer (c_run c)))|].
  destruct (clear_around c (rt_handshakeTimer (c_run c))) as [_ E]. apply calm_run; [by right|rewrite E; by left].
Qed.
Lemma calm_clearAllTimers c : calmer c (clearAllTimers c).
Proof.
  unfold clearAllTimers. eapply calmer_trans; [apply calm_clear_handshake|]. eapply calmer_trans; [apply calm_stopHeartbeat|].
  eapply calmer_trans; [apply calm_clearReconnect|]. calm. by split.
Qed.

(** What these leave alone. *)
Lemma clear_handshake_conn c : c_conn (clear_handshake c) = c_conn c.
Proof. unfold clear_handshake. cbn. apply clear_around. Qed.
Lemma clear_handshake_run c : c_run (clear_handshake c) = set_handshake (c_run c) None.
Proof. reflexivity. Qed.
Lemma stopHeartbeat_run c : c_run (stopHeartbeat c) = c_run c.
Proof. unfold stopHeartbeat. cbn. by rewrite !(proj2 (clear_around _ _)). Qed.
Lemma stopHeartbeat_conn c : c_conn (stopHeartbeat c) = set_heartbeat (c_conn c) None None.
Proof. unfold stopHeartbeat. cbn. by rewrite !(proj1 (clear_around _ _)). Qed.
Lemma clearReconnect_run c : c_run (clearReconnect c) = c_run c.
Proof. unfold clearReconnect. cbn. apply clear_around. Qed.
Lemma clearReconnect_conn c : c_conn (clearReconnect c) = set_reconnect (c_conn c) None.
Proof. unfold clearReconnect. cbn. by rewrite (proj1 (clear_around _ _)). Qed.
Lemma clearHeartbeatTimeout_run c : c_run (clearHeartbeatTimeout c) = c_run c.
Proof. unfold clearHeartbeatTimeout. cbn. apply clear_around. Qed.
Lemma clearHeartbeatTimeout_conn c : c_conn (clearHeartbeatTimeout c) = set_heartbeat (c_conn c) (cn_heartbeatTimer (c_conn c)) None.
Proof. unfold clearHeartbeatTimeout. cbn. by rewrite (proj1 (clear_around _ _)). Qed.
Lemma clearAllTimers_run c : c_run (clearAllTimers c) = set_handshake (c_run c) None.
Proof. unfold clearAllTimers. cbn [c_run with_around]. by rewrite clearReconnect_run, stopHeartbeat_run. Qed.

(** Without a connection, without one being made and without a plan to make one. *)
Record detached c : Prop := {
  dt_base : base_ok c;
  dt_transport : transport_of c = None;
  dt_making : generation_of c ∉ su_making (c_around c);
  dt_reconnect : cn_reconnectTimer (c_conn c) = None;
}.

Lemma disconnect_detached c : base_ok c -> detached (disconnect_transport c) /\ c_run (disconnect_transport c) = c_run c.
Proof.
  intros Hb. unfold disconnect_transport. set (c1 := with_conn c _). set (c2 := clearReconnect (stopHeartbeat c1)).
  assert (calmer c1 c2) as [Hw [Ho Hn] _ _ _ _ _ _] by (eapply calmer_trans; [apply calm_stopHeartbeat|apply calm_clearReconnect]).
  assert (c_conn c2 = mkConnection (S (generation_of c)) (cn_attempt (c_conn c)) (transport_of c) None None None) as Ec
    by (unfold c2; by rewrite clearReconnect_conn, stopHeartbeat_conn).
  assert (c_run c2 = c_run c) as Er by (unfold c2; by rewrite clearReconnect_run, stopHeartbeat_run).
  destruct Hw as [Hget Hnext Hmk Hcn].
  assert (S (generation_of c) ∉ su_making (c_around c) /\ S (generation_of c) ∉ su_connected (c_around c)) as [Hnm Hnc].
  { split; intros H; [assert (S (generation_of c) <= generation_of c)%nat by (apply (b_le _ Hb); by left)|assert (S (generation_of c) <= generation_of c)%nat by (apply (b_le _ Hb); by right)]; lia. }
  assert (forall c', c_conn c' = mkConnection (S (generation_of c)) (cn_attempt (c_conn c)) None None None None -> c_run c' = c_run c ->
    su_timers (c_around c') = su_timers (c_around c2) -> su_nextTimer (c_around c') = su_nextTimer (c_around c2) -> su_making (c_around c') = su_making (c_around c) ->
    su_connected (c_around c') = su_connected (c_around c) -> su_open (c_around c') = [] -> detached c') as Hdet.
  { intros c' E1 E2 E3 E4 E5 E6 E7. split; rewrite ?E1, ?E5; try done. split; rewrite ?E1, ?E2, ?E5, ?E6, ?E7; cbn; try done.
    - intros g Hg. transitivity (generation_of c); [by apply (b_le _ Hb)|lia].
    - intros t [x Hx]. rewrite E4, Hnext. apply (b_next _ Hb). rewrite E3 in Hx. eauto.
    - intros t Ht. rewrite E3, E4, Hnext. destruct (b_handshake _ Hb t Ht). split; [done|]. eauto.
    - apply Hb. }
  change (su_open (c_around c1)) with (su_open (c_around c)) in Ho. clearbody c2.
  rewrite Ec. cbn [cn_transport]. pose proof (b_open _ Hb) as Hopen. destruct (transport_of c) as [t|] eqn:Ht; cbn [option_list] in Hopen.
  - split; [|exact Er]. apply Hdet; cbn; rewrite ?Ec; cbn; try done. rewrite Ho, Hopen. cbn. by rewrite bool_decide_eq_true_2.
  - split; [|exact Er]. apply Hdet; rewrite ?Ec; cbn; try done; by rewrite Ho, Hopen.
Qed.

(** A new timer that a field remembers. *)
Lemma schedule_fields c kind (delay : Z) :
  c_conn (fst (schedule_timer c kind delay)) = c_conn c /\ c_run (fst (schedule_timer c kind delay)) = c_run c /\
  su_making (c_around (fst (schedule_timer c kind delay))) = su_making (c_around c) /\
  su_connected (c_around (fst (schedule_timer c kind delay))) = su_connected (c_around c) /\
  su_open (c_around (fst (schedule_timer c kind delay))) = su_open (c_around c) /\
  su_nextTransport (c_around (fst (schedule_timer c kind delay))) = su_nextTransport (c_around c).
Proof. done. Qed.
Lemma schedule_old c kind (delay : Z) o kind' : tracks c o kind' -> tracks (fst (schedule_timer c kind delay)) o kind'.
Proof.
  intros Ht t Ho. destruct (Ht t Ho) as [Hlt Hk]. cbn. split; [lia|]. intros x. rewrite map_get_set_ne by lia. apply Hk.
Qed.
Lemma schedule_runs c kind (delay : Z) o kind' : tracks c o kind' -> runs c o kind' -> runs (fst (schedule_timer c kind delay)) o kind'.
Proof. intros Ht (t & d & Ho & Hg). exists t, d. split; [done|]. destruct (Ht t Ho) as [Hlt _]. cbn. by rewrite map_get_set_ne by lia. Qed.
Lemma schedule_new c kind (delay : Z) :
  tracks (fst (schedule_timer c kind delay)) (Some (snd (schedule_timer c kind delay))) kind /\
  runs (fst (schedule_timer c kind delay)) (Some (snd (schedule_timer c kind delay))) kind.
Proof.
  split; cbn.
  - intros t [= <-]. cbn. split; [lia|]. intros x. rewrite map_get_set_eq. by intros [= <-].
  - exists (su_nextTimer (c_around c)), (Z.max 0 delay). cbn. by rewrite map_get_set_eq.
Qed.
Lemma schedule_ok c kind (delay : Z) : base_ok c -> base_ok (fst (schedule_timer c kind delay)).
Proof.
  intros Hb. split; try apply Hb; try (apply schedule_old, Hb).
  cbn. intros t. rewrite map_get_set. destruct (decide (t = su_nextTimer (c_around c))) as [->|]; [lia|]. intros Ht%(b_next _ Hb). lia.
Qed.

(** Remembering a timer. *)
Lemma remember_ok c (n : Connection) : base_ok c -> cn_generation n = generation_of c -> cn_transport n = transport_of c ->
  tracks c (cn_reconnectTimer n) KReconnect -> tracks c (cn_heartbeatTimer n) KHeartbeatTick -> tracks c (cn_heartbeatTimeout n) KHeartbeatTimeout ->
  base_ok (with_conn c n).
Proof. intros Hb Hg Ht H1 H2 H3. split; cbn; rewrite ?Hg, ?Ht; try apply Hb; done. Qed.
Lemma remember_run_ok c (r : Runtime) : base_ok c -> tracks c (rt_handshakeTimer r) KHandshake ->
  (forall e, rt_fatalError r = Some e -> ce_code e ≠ e_transport) -> base_ok (with_run c r).
Proof. intros Hb H1 H2. split; cbn; try apply Hb; done. Qed.

Lemma begin_ok c : base_ok c -> is_active c = true -> transport_of c = None ->
  base_ok (begin_connection c) /\ generation_of (begin_connection c) ∈ su_making (c_around (begin_connection c)).
Proof.
  intros Hb Ha Ht. unfold begin_connection. rewrite Ha. cbn [negb]. split; [|cbn; rewrite elem_of_app; right; by left].
  split; cbn; try apply Hb; try done.
  - split; [|rewrite Ht; by intros []]. intros Hin. assert (S (generation_of c) <= generation_of c)%nat by (apply (b_le _ Hb); by right). lia.
  - intros g. rewrite elem_of_app, list_elem_of_singleton. intros [[Hg| ->]|Hg]; [|lia|].
    + transitivity (generation_of c); [apply (b_le _ Hb); by left|lia].
    + transitivity (generation_of c); [apply (b_le _ Hb); by right|lia].
Qed.

(** Which timers survive. *)
Lemma runs_stopHeartbeat c o kind : base_ok c -> kind ≠ KHeartbeatTick -> kind ≠ KHeartbeatTimeout -> runs c o kind -> runs (stopHeartbeat c) o kind.
Proof.
  intros Hb H1 H2 Hr. unfold stopHeartbeat. set (c1 := clear_timer_of c _). change (runs (clear_timer_of c1 (cn_heartbeatTimeout (c_conn c))) o kind).
  apply (runs_clear c1 _ _ kind KHeartbeatTimeout); [done| |].
  - eapply tracks_fewer, Hb. apply clear_timer_fewer.
  - by apply (runs_clear c _ _ kind KHeartbeatTick), Hr; [|apply Hb].
Qed.
Lemma runs_clearHeartbeatTimeout c o kind : base_ok c -> kind ≠ KHeartbeatTimeout -> runs c o kind -> runs (clearHeartbeatTimeout c) o kind.
Proof. intros Hb H1 Hr. by apply (runs_clear c _ _ kind KHeartbeatTimeout), Hr; [|apply Hb]. Qed.
Lemma runs_clear_handshake c o kind : base_ok c -> kind ≠ KHandshake -> runs c o kind -> runs (clear_handshake c) o kind.
Proof. intros Hb H1 Hr. by apply (runs_clear c _ _ kind KHandshake), Hr; [|apply Hb]. Qed.
Lemma runs_fired c t o kind kind' (d : Z) : map_get t (timers_of c) = Some (kind', d) -> kind ≠ kind' -> runs c o kind -> runs (clear_client_timer c t) o kind.
Proof.
  intros Ht Hk (t' & d' & Ho & Hg). exists t', d'. split; [done|]. cbn. apply get_delete_nat. split; [|done]. intros ->. congruence.
Qed.

Lemma no_timers_nil c c' : fewer_timers c c' -> timers_of c = [] -> timers_of c' = [].
Proof.
  intros [Hg _ _ _] H. destruct (timers_of c') as [|[t x] l] eqn:E; [done|]. specialize (Hg t x). rewrite H in Hg. cbn in Hg.
  rewrite decide_True in Hg by done. by specialize (Hg eq_refl).
Qed.
Lemma calmer_client c c' : calmer c c' -> client_ok c -> state_of c' = state_of c -> rt_closedByUser (c_run c') = rt_closedByUser (c_run c) ->
  rt_saving (c_run c') = rt_saving (c_run c) -> cn_reconnectTimer (c_conn c') = cn_reconnectTimer (c_conn c) ->
  (runs c (cn_reconnectTimer (c_conn c)) KReconnect -> runs c' (cn_reconnectTimer (c_conn c)) KReconnect) -> client_ok c' /\ keeps c c'.
Proof.
  intros Hc [Hb Hs] Es Ec Ev Er Hr. pose proof Hc as [Hw _ [Hg Ht] _ _ _ _ _]. split; [|by apply keeps_same]. split; [by apply (calmer_ok c)|].
  unfold state_ok in *. rewrite Es, Ec, Ev, Er, Ht, Hg, (fw_making _ _ Hw), (fw_connected _ _ Hw). destruct (state_of c); try done.
  - destruct Hs as (? & ? & ? & Hn & ? & ?). split_and!; try done. by apply (no_timers_nil c).
  - destruct Hs as (? & ? & ? & ?). split_and!; auto.
Qed.

(** ** Handlers, with any outside that is harmless *)

#[local] Opaque disconnect_transport clearAllTimers clear_handshake stopHeartbeat clearReconnect clearHeartbeatTimeout.

Lemma moves_nil c : moves [] c <-> progress c.
Proof. unfold moves. rewrite elem_of_nil. naive_solver. Qed.
Lemma moves_any X c : progress c -> moves X c.
Proof. by right. Qed.
Lemma moves_drop s X c : moves (s :: X) c -> state_of c ≠ s -> moves X c.
Proof. unfold moves. rewrite elem_of_cons. naive_solver. Qed.
Lemma moves_drop2 s s' X c : moves (s :: s' :: X) c -> state_of c ≠ s -> state_of c ≠ s' -> moves X c.
Proof. eauto using moves_drop. Qed.
Lemma moves_here X c : moves (state_of c :: X) c.
Proof. left. by left. Qed.
Lemma ok_closed c : client_ok c -> (rt_closedByUser (c_run c) = true <-> terminal c).
Proof. intros [_ Hs]. unfold state_ok in Hs. destruct (state_of c); cbn; naive_solver. Qed.
Lemma ok_active c : client_ok c -> (is_active c = true <-> ~ terminal c).
Proof.
  intros Hok. unfold is_active. pose proof (ok_closed c Hok) as Hc. destruct (rt_closedByUser (c_run c)), (isTerminalState (state_of c)); cbn; naive_solver.
Qed.

(** Only terminal states need to move on already. *)
Definition ends X c : Prop := terminal c -> moves X c.

(** After the connection was lost. *)
Record lost (X : list OmpClientState) c c' : Prop := {
  ls_ok : client_ok c';
  ls_moves : moves X c';
  ls_idle : state_of c' ≠ st_idle;
  ls_handshaking : state_of c' ≠ st_handshaking;
  ls_terminal : terminal c -> terminal c';
  ls_transport : transport_of c = None -> transport_of c' = None;
}.
Lemma lost_keeps X c c' : lost X c c' -> state_of c ≠ st_connecting -> keeps c c'.
Proof. intros [] Hne. by split. Qed.

Section Handlers.
Context (baseMs maxMs intervalMs timeoutMs handshakeTimeoutMs : Z) (hasCompatibilityFeatures : bool).
Context (random : Client -> Z * Z) (outside : Client -> Client).
Hypothesis Houtside : harmless outside.
Abbreviation to_state := (transition outside).
Abbreviation later := (scheduleReconnect baseMs maxMs random outside).
Abbreviation drop_it := (drop_connection baseMs maxMs random outside).
Abbreviation lose := (handleDisconnect baseMs maxMs hasCompatibilityFeatures random outside).

Lemma outside_ok c : client_ok c -> client_ok (outside c).
Proof. intros Hok. apply Houtside, Hok. Qed.
Lemma outside_keeps c : client_ok c -> keeps c (outside c).
Proof. intros Hok. apply Houtside, Hok. Qed.
Lemma outside_moves X c : client_ok c -> moves X c -> moves X (outside c).
Proof. intros Hok. apply Houtside, Hok. Qed.
#[local] Hint Resolve outside_ok outside_keeps outside_moves : omp.
Lemma outside_ends X c : client_ok c -> ends X c -> ends X (outside c).
Proof.
  intros Hok He Ht. destruct (isTerminalState (state_of c)) eqn:Hc; [by apply outside_moves, He|].
  apply (moves_drop (state_of c)); [apply outside_moves, moves_here; done|]. congruence.
Qed.

(** Planning to reconnect. *)
Lemma later_ok X c : detached c -> is_active c = true -> state_of c ≠ st_idle ->
  client_ok (later c) /\ moves X (later c) /\ state_of (later c) ≠ st_idle /\ state_of (later c) ≠ st_handshaking /\ transport_of (later c) = None.
Proof.
  intros [Hb Ht Hm Hr] Ha Hi. unfold scheduleReconnect. rewrite Ha, Hr. cbn [negb orb].
  set (c1 := with_conn c _). destruct (schedule_timer c1 KReconnect _) as [c2 timer] eqn:Hsch.
  assert (base_ok c1) as Hb1 by (apply remember_ok; try done; apply Hb).
  pose proof (schedule_ok c1 KReconnect (backoff baseMs maxMs (cn_attempt (c_conn c) + 1) (fst (random c1)) (snd (random c1))) Hb1) as Hb2.
  destruct (schedule_new c1 KReconnect (backoff baseMs maxMs (cn_attempt (c_conn c) + 1) (fst (random c1)) (snd (random c1)))) as [Htr Hrun].
  rewrite Hsch in Hb2, Htr, Hrun. cbn [fst snd] in *. injection Hsch as Hc2 Htimer.
  assert (c_run c2 = c_run c /\ c_conn c2 = c_conn c1 /\ su_making (c_around c2) = su_making (c_around c)) as (Er & Ec & Em) by (by rewrite <- Hc2).
  set (c3 := with_conn c2 _). assert (base_ok c3) as Hb3 by (apply remember_ok; try done; apply Hb2).
  assert (client_ok (with_run c3 (set_state (c_run c3) st_reconnect_wait))) as Hok.
  { split; [apply remember_run_ok; [done|apply Hb3|apply Hb3]|]. unfold state_ok. cbn. rewrite Er, Ec, Em. cbn.
    unfold is_active in Ha. apply andb_prop in Ha as [Ha%negb_true_iff _]. done. }
  assert (state_of c3 = state_of c) as Es by (cbn; by rewrite Er).
  unfold transition. destruct (isLegalClientTransition (state_of c3) st_reconnect_wait) eqn:Hl.
  - set (c4 := with_run c3 _) in *. pose proof (outside_keeps _ Hok) as Hk. split_and!; [auto with omp|by apply outside_moves; [|right]| | |].
    + by apply (kp_idle _ _ Hk).
    + by intros Hh%(kp_handshaking _ _ Hk).
    + apply (kp_transport _ _ Hk). cbn. by rewrite Ec.
  - assert (state_of c = st_reconnect_wait) as Hw.
    { rewrite Es in Hl. unfold is_active in Ha. destruct (state_of c); try done; exfalso; vm_compute in Hl; try discriminate.
      all: by apply andb_prop in Ha as [_ ?]. }
    assert (c_run c3 = set_state (c_run c3) st_reconnect_wait) as Heq by (cbn; rewrite Er, <- Hw; by destruct (c_run c)).
    assert (with_run c3 (set_state (c_run c3) st_reconnect_wait) = c3) as E3 by (rewrite <- Heq; by destruct c3).
    rewrite E3 in Hok. split_and!; [done|right; unfold progress; by rewrite Es, Hw|by rewrite Es|by rewrite Es, Hw|cbn; by rewrite Ec].
Qed.

(** A connection is dropped in a terminal state. *)
Lemma detached_terminal X c c' : client_ok c -> terminal c -> detached c' -> state_of c' = state_of c -> rt_closedByUser (c_run c') = true ->
  rt_saving (c_run c') = rt_saving (c_run c) -> moves X c -> client_ok c' /\ moves X c'.
Proof.
  intros [Hb Hs] Hterm [Hb' Ht Hm Hr] Es Ecl Esv Hmv. split; [split; [done|]|].
  - unfold state_ok. rewrite Es. destruct (state_of c); done.
  - destruct Hmv as [Hin|Hp]; [left; by rewrite Es|right]. unfold progress in *. rewrite Es, Ht, Esv. destruct (state_of c); try done. by destruct Hp.
Qed.

(** Reconnecting after the connection was dropped. *)
Lemma reconnect_later_ok X c c1 : client_ok c -> state_of c ≠ st_idle -> ends X c -> detached c1 -> state_of c1 = state_of c ->
  rt_closedByUser (c_run c1) = rt_closedByUser (c_run c) -> rt_saving (c_run c1) = rt_saving (c_run c) ->
  lost X c (reconnect_later baseMs maxMs random outside c1).
Proof.
  intros Hok Hi He Hd Es Ec Ev. unfold reconnect_later. rewrite Ec. destruct (rt_closedByUser (c_run c)) eqn:Hcl; cbn [negb].
  - assert (terminal c) as Ht by by apply ok_closed.
    destruct (detached_terminal X c c1 Hok Ht Hd Es Ec Ev (He Ht)) as [Hok2 Hm2].
    split; rewrite ?Es; try done; [by destruct (state_of c)|intros _; apply (dt_transport _ Hd)].
  - assert (is_active c1 = true) as Ha.
    { unfold is_active. rewrite Ec, Es. cbn. apply negb_true_iff, not_true_iff_false. intros Ht%ok_closed; [congruence|done]. }
    destruct (later_ok X c1) as (H1 & H2 & H3 & H4 & H5); [done|done|by rewrite Es|]. split; try done. intros Ht%ok_closed; [congruence|done].
Qed.

Lemma drop_ok X c : client_ok c -> state_of c ≠ st_idle -> ends X c -> lost X c (drop_it c).
Proof.
  intros Hok Hi He. unfold drop_connection. destruct (disconnect_detached (forget_pong (clear_handshake c))) as [Hd Er].
  { eapply calmer_ok, Hok. eapply calmer_trans; [apply calm_clear_handshake|apply calm_run; by left]. }
  set (c1 := disconnect_transport _) in *. clearbody c1. cbn in Er. rewrite clear_handshake_run in Er.
  apply reconnect_later_ok; [exact Hok|exact Hi|exact He|exact Hd|by rewrite Er..].
Qed.

Lemma shut_down_detached c (error : option OmpClientError) : base_ok c -> (forall e, error = Some e -> ce_code e ≠ e_transport) ->
  detached (shut_down c error) /\ c_run (shut_down c error) = set_handshake (set_pong (set_closed (c_run c) true error) false) None.
Proof.
  intros Hb Hcode. unfold shut_down. set (c2 := with_run c _). assert (base_ok (clearAllTimers c2)) as Hb2.
  { eapply calmer_ok, Hb. eapply calmer_trans; [|apply calm_clearAllTimers]. apply calm_run; [by left|right]. exact Hcode. }
  destruct (disconnect_detached _ Hb2) as [Hd ->]. split; [exact Hd|]. by rewrite clearAllTimers_run.
Qed.

Lemma detached_fatal c : detached c -> rt_closedByUser (c_run c) = true -> client_ok (with_run c (set_state (c_run c) st_fatal)).
Proof. intros [Hb Ht Hm Hr] Hc. split; [apply remember_run_ok; apply Hb|]. by split. Qed.

Lemma enter_fatal_terminal c : terminal c -> enter_fatal outside c = c.
Proof. unfold enter_fatal, transition. by destruct (state_of c). Qed.
Lemma enter_fatal_other c : isTerminalState (state_of c) = false -> state_of c ≠ st_idle ->
  enter_fatal outside c = outside (with_run c (set_state (c_run c) st_fatal)).
Proof. unfold enter_fatal, transition. by destruct (state_of c). Qed.

Lemma client_fatal_ok X c (error : OmpClientError) : client_ok c -> state_of c ≠ st_idle -> ends X c -> ce_code error ≠ e_transport ->
  lost X c (fatal_client outside c error) /\ terminal (fatal_client outside c error).
Proof.
  intros Hok Hi He Hcode. unfold fatal_client, emitError. pose proof (outside_ok c Hok) as Hok1. pose proof (outside_keeps c Hok) as Hk1.
  pose proof (outside_ends X c Hok He) as He1. set (c1 := outside c) in *.
  destruct (shut_down_detached c1 (Some error)) as [Hd Er]; [apply Hok1|by intros e [= <-]|]. set (c3 := shut_down c1 _) in *.
  assert (state_of c3 = state_of c1) as Es by by rewrite Er. assert (rt_closedByUser (c_run c3) = true) as Ec by by rewrite Er.
  assert (rt_saving (c_run c3) = rt_saving (c_run c1)) as Ev by by rewrite Er.
  pose proof (kp_idle _ _ Hk1 Hi) as Hi1. clearbody c3. clear Er.
  assert (forall c', terminal c' -> client_ok c' -> moves X c' -> transport_of c' = None -> lost X c c' /\ terminal c') as Hdone.
  { intros c' Ht' Hok' Hm' Htr'. split; [|done]. split; try done; intros Hst; by rewrite Hst in Ht'. }
  destruct (isTerminalState (state_of c1)) eqn:Ht1.
  - destruct (detached_terminal X c1 c3 Hok1 Ht1 Hd Es Ec Ev (He1 Ht1)) as [Hok3 Hm3].
    rewrite enter_fatal_terminal by congruence. apply Hdone; [congruence|exact Hok3|exact Hm3|apply (dt_transport _ Hd)].
  - rewrite enter_fatal_other by congruence. pose proof (detached_fatal c3 Hd Ec) as Hok4. set (c4 := with_run c3 _) in *.
    pose proof (outside_keeps _ Hok4) as Hk4. apply Hdone; [by apply (kp_terminal _ _ Hk4)|auto with omp| |apply (kp_transport _ _ Hk4), (dt_transport _ Hd)].
    apply outside_moves; [done|right]. apply (dt_transport _ Hd).
Qed.

Lemma lost_via X c c1 c2 : keeps c c1 -> lost X c1 c2 -> lost X c c2.
Proof. intros Hk []. split; try done; intros H; [by apply ls_terminal0, (kp_terminal _ _ Hk)|by apply ls_transport0, (kp_transport _ _ Hk)]. Qed.

Lemma lose_ok X c code invalid : client_ok c -> state_of c ≠ st_idle -> ends X c -> lost X c (lose c code invalid).
Proof.
  intros Hok Hi He. unfold handleDisconnect. destruct (rt_closedByUser (c_run c) || isTerminalState (state_of c)) eqn:Hend.
  { assert (terminal c) as Ht by (apply orb_prop in Hend as [H|H]; [by apply ok_closed|done]).
    split; try done; [by apply He|]. intros Hst. by rewrite Hst in Ht. }
  apply orb_false_iff in Hend as [Hcl Hnt].
  repeat case_match; try (apply drop_ok; done); try (eapply proj1, client_fatal_ok; done).
  set (c1 := with_run c _). assert (client_ok c1) as Hok1. { split; [apply remember_run_ok; apply Hok|apply Hok]. }
  pose proof (outside_keeps _ Hok1) as Hk. apply (lost_via X c (outside c1)).
  - apply (keeps_trans _ c1); [by apply keeps_same|done].
  - apply drop_ok; [auto with omp|by apply (kp_idle _ _ Hk)|]. apply outside_ends; [done|]. intros Ht. cbn in Ht. congruence.
Qed.

Lemma transport_error_ok X c : client_ok c -> state_of c ≠ st_idle -> ends X c ->
  lost X c (handleTransportError baseMs maxMs hasCompatibilityFeatures random outside c).
Proof.
  intros Hok Hi He. unfold handleTransportError, emitError. pose proof (outside_keeps _ Hok) as Hk. apply (lost_via X c (outside c)); [done|].
  apply lose_ok; [auto with omp|by apply (kp_idle _ _ Hk)|by apply outside_ends].
Qed.

(** Beginning a connection after the listeners heard of it. *)
Lemma start_ok X c : client_ok c -> state_of c = st_connecting ->
  let c' := begin_connection (outside c) in
  client_ok c' /\ moves X c' /\ (state_of c' = st_connecting \/ terminal c') /\ transport_of c' = None.
Proof.
  intros Hok Hs. pose proof (outside_ok _ Hok) as Hok1. pose proof (outside_keeps _ Hok) as Hk.
  pose proof (outside_moves _ _ Hok (moves_here X c)) as Hm. set (c1 := outside c) in *.
  assert (transport_of c1 = None) as Ht. { apply (kp_transport _ _ Hk). destruct Hok as [_ Hso]. unfold state_ok in Hso. rewrite Hs in Hso. apply Hso. }
  destruct (is_active c1) eqn:Ha.
  - destruct (begin_ok c1) as [Hb Hg]; [apply Hok1|done|done|]. pose proof (proj1 (ok_active _ Hok1) Ha) as Hnt.
    destruct (kp_connecting _ _ Hk Hs) as [Hs1|]; [|done]. assert (state_of (begin_connection c1) = st_connecting) as Hs2 by (unfold begin_connection; by rewrite Ha).
    cbn zeta. split_and!; [split; [done|]|right; unfold progress; by rewrite Hs2|by left|unfold begin_connection; by rewrite Ha].
    destruct Hok1 as [_ Hso]. unfold state_ok in *. rewrite Hs1 in Hso. rewrite Hs2. unfold begin_connection. rewrite Ha. cbn. done.
  - assert (terminal c1) as Hterm. { destruct (isTerminalState (state_of c1)) eqn:E; [done|]. assert (is_active c1 = true); [|congruence]. apply ok_active; congruence. }
    unfold begin_connection. rewrite Ha. cbn [negb]. cbn zeta. split_and!; [done| |by right|done].
    apply (moves_drop st_connecting); [by rewrite <- Hs|]. intros E. by rewrite E in Hterm.
Qed.

(** A harmless result for one client. *)
Definition fine c c' : Prop := client_ok c' /\ keeps c c' /\ forall X, moves X c -> moves X c'.
Lemma fine_refl c : client_ok c -> fine c c.
Proof. intros Hok. split_and!; auto with omp. Qed.
Lemma fine_trans c1 c2 c3 : fine c1 c2 -> fine c2 c3 -> fine c1 c3.
Proof. intros (? & Hk & ?) (? & Hk' & ?). split_and!; eauto using keeps_trans. Qed.

(** Changes the invariant does not look at. *)
Lemma fine_run c (r : Runtime) : client_ok c -> rt_state r = state_of c -> rt_closedByUser r = rt_closedByUser (c_run c) ->
  rt_handshakeTimer r = rt_handshakeTimer (c_run c) -> rt_saving r = rt_saving (c_run c) ->
  (forall e, rt_fatalError r = Some e -> ce_code e ≠ e_transport) -> fine c (with_run c r).
Proof.
  intros [Hb Hs] E1 E2 E3 E4 Hf. split_and!.
  - split; [apply remember_run_ok; [done|rewrite E3; apply Hb|done]|]. unfold state_ok in *. cbn. rewrite E1, E2, E4. exact Hs.
  - by apply keeps_same.
  - intros X [Hin|Hp]; [left; cbn; by rewrite E1|right]. unfold progress in *. cbn. rewrite E1, E3, E4. exact Hp.
Qed.

Lemma waiting_state c t : client_ok c -> is_active c = true -> cn_reconnectTimer (c_conn c) = Some t -> state_of c = st_reconnect_wait.
Proof.
  intros Hok Ha Hr. apply (ok_active c Hok) in Ha. destruct Hok as [_ Hs]. unfold state_ok in Hs. destruct (state_of c); cbn in Ha; naive_solver.
Qed.

Lemma detached_connecting c : base_ok c -> transport_of c = None -> cn_reconnectTimer (c_conn c) = None -> rt_closedByUser (c_run c) = false ->
  client_ok (with_run c (set_state (c_run c) st_connecting)).
Proof. intros Hb Ht Hr Hc. split; [apply remember_run_ok; apply Hb|]. by split_and!. Qed.

Lemma reconnect_begins X c : client_ok c -> state_of c = st_reconnect_wait ->
  let c' := begin_connection (to_state (clearReconnect c) st_connecting) in
  client_ok c' /\ moves X c' /\ (state_of c' = st_connecting \/ terminal c') /\ transport_of c' = None.
Proof.
  intros Hok Hs. pose proof Hok as [Hb Hso]. unfold state_ok in Hso. rewrite Hs in Hso. destruct Hso as (Hcl & Ht & _ & _).
  assert (client_ok (with_run (clearReconnect c) (set_state (c_run (clearReconnect c)) st_connecting))) as Hok1.
  { apply detached_connecting; [by apply (calmer_ok c), Hb; apply calm_clearReconnect| | |by rewrite clearReconnect_run]; by rewrite clearReconnect_conn. }
  unfold transition. rewrite clearReconnect_run, Hs. change (isLegalClientTransition st_reconnect_wait st_connecting) with true. cbn match.
  rewrite clearReconnect_run in Hok1. by apply start_ok.
Qed.

Lemma now_fine c : client_ok c -> fine c (beginReconnectNow outside c).
Proof.
  intros Hok. unfold beginReconnectNow. destruct (cn_reconnectTimer (c_conn c)) as [t|] eqn:Hr; [|by apply fine_refl].
  destruct (is_active c) eqn:Ha; cbn [negb]; [|by apply fine_refl]. pose proof (waiting_state c t Hok Ha Hr) as Hs.
  destruct (reconnect_begins [] c Hok Hs) as (Hok' & Hm & Hst & Htr). set (c' := begin_connection _) in *. clearbody c'. split_and!; [done| |].
  - split; rewrite ?Hs; try done.
    + intros _ E. rewrite E in Hst. by destruct Hst.
    + intros E. rewrite E in Hst. by destruct Hst.
  - intros X _. right. by apply moves_nil.
Qed.

Lemma lost_fine c c' : (forall X, ends X c -> lost X c c') -> state_of c ≠ st_connecting -> fine c c'.
Proof.
  intros Hl Hne. assert (lost [state_of c] c c') as H1. { apply Hl. intros _. apply moves_here. }
  split_and!; [apply H1|by apply (lost_keeps _ _ _ H1)|]. intros X Hm. apply (Hl X). by intros _.
Qed.

Lemma reconnectNow_fine c : client_ok c -> fine c (reconnectNow baseMs maxMs hasCompatibilityFeatures random outside c).
Proof.
  intros Hok. unfold reconnectNow. destruct (state_of c) eqn:Hs; try (by apply fine_refl); try (by apply now_fine).
  - apply fine_run; try done. apply Hok.
  - eapply fine_trans; [|apply now_fine]; [|apply (lose_ok [state_of c])]; try done; [|by rewrite Hs|intros _; apply moves_here].
    apply lost_fine; [|by rewrite Hs]. intros X He. apply lose_ok; [done|by rewrite Hs|done].
  - eapply fine_trans; [|apply now_fine]; [|apply (lose_ok [state_of c])]; try done; [|by rewrite Hs|intros _; apply moves_here].
    apply lost_fine; [|by rewrite Hs]. intros X He. apply lose_ok; [done|by rewrite Hs|done].
  - unfold reviveRetryableTransportFailure. rewrite Hs. destruct (rt_fatalError (c_run c)) as [e|] eqn:Hf; [|by apply fine_refl]. destruct Hok as [Hb Hso].
    rewrite bool_decide_eq_false_2 by (by apply (b_fatal _ Hb)). cbn. by apply fine_refl.
Qed.

Lemma wake_fine c stale : client_ok c -> fine c (wake baseMs maxMs hasCompatibilityFeatures random outside c stale).
Proof. intros Hok. unfold wake. repeat case_match; by (apply reconnectNow_fine || apply fine_refl). Qed.

(** Closing. *)
Lemma closing_ok c : base_ok c -> rt_closedByUser (c_run c) = true -> client_ok (with_run c (set_state (c_run c) st_closing)).
Proof. intros Hb Hc. split; [apply remember_run_ok; apply Hb|]. exact Hc. Qed.

Lemma to_closing c : client_ok c -> let c0 := with_run c (set_pong (set_closed (c_run c) true None) false) in
  client_ok (to_state c0 st_closing) /\ terminal (to_state c0 st_closing) /\
  (transport_of c = None -> transport_of (to_state c0 st_closing) = None).
Proof.
  intros Hok c0. assert (base_ok c0) as Hb0 by (apply remember_run_ok; [apply Hok|apply Hok|done]).
  unfold transition. destruct (isLegalClientTransition (state_of c0) st_closing) eqn:Hl.
  - pose proof (closing_ok c0 Hb0 eq_refl) as Hok1. pose proof (outside_keeps _ Hok1) as Hk. split_and!; [auto with omp|by apply (kp_terminal _ _ Hk)|].
    intros Ht. by apply (kp_transport _ _ Hk).
  - assert (terminal c) as Hterm by (change (state_of c0) with (state_of c) in Hl; by destruct (state_of c)).
    split_and!; [|exact Hterm|done]. split; [done|]. destruct Hok as [_ Hso]. unfold state_ok in *. cbn. destruct (state_of c); naive_solver.
Qed.

Lemma await_saves_ok c c1 : client_ok c1 -> terminal c1 -> detached c -> c_run c = set_handshake (c_run c1) None ->
  client_ok (await_saves c) /\ progress (await_saves c) /\ terminal (await_saves c) /\ transport_of (await_saves c) = None.
Proof.
  intros Hok1 Hterm [Hb Ht Hm Hr] Er. assert (rt_closedByUser (c_run c1) = true) as Hcl by by apply ok_closed.
  assert (state_of c = state_of c1 /\ rt_closedByUser (c_run c) = true) as [Es Ec] by by rewrite Er. split_and!.
  - split; [apply remember_run_ok; apply Hb|]. unfold state_ok. cbn. rewrite Es, Ec, Hr. by destruct (state_of c1).
  - unfold progress. cbn. rewrite Es, Ht. destruct (state_of c1); try done. split; [lia|done].
  - cbn. by rewrite Es.
  - exact Ht.
Qed.
Lemma close_now_ok c : client_ok c -> client_ok (close_now outside c) /\ progress (close_now outside c) /\ terminal (close_now outside c) /\
  transport_of (close_now outside c) = None.
Proof.
  intros Hok. unfold close_now. destruct (to_closing c Hok) as (Hok1 & Hterm & _). set (c1 := to_state _ st_closing) in *. clearbody c1.
  destruct (disconnect_detached (clearAllTimers c1)) as [Hd Er]; [eapply calmer_ok; [apply calm_clearAllTimers|apply Hok1]|].
  rewrite clearAllTimers_run in Er. by apply (await_saves_ok _ c1).
Qed.
Lemma close_now_fine c : client_ok c -> fine c (close_now outside c).
Proof.
  intros Hok. destruct (close_now_ok c Hok) as (H1 & H2 & H3 & H4). set (c' := close_now _ _) in *. clearbody c'. split_and!; [done| |by intros X _; right].
  split; try done; [intros _ E; by rewrite E in H3|by intros _; right|intros E; by rewrite E in H3].
Qed.
Lemma close_fine c : client_ok c -> fine c (close_client outside c).
Proof.
  intros Hok. unfold close_client. destruct (state_of c) eqn:Hs; try (by apply close_now_fine); [|by apply fine_refl].
  apply fine_run; try done. apply Hok.
Qed.

(** *** Frames *)

Definition joined c : Prop := match state_of c with st_handshaking | st_pairing | st_ready => True | _ => False end.
Lemma joined_transport c : client_ok c -> joined c -> is_Some (transport_of c) /\ ~ terminal c /\ state_of c ≠ st_connecting /\ state_of c ≠ st_idle.
Proof. intros [_ Hs] Hj. unfold state_ok, joined in *. destruct (state_of c); cbn; naive_solver. Qed.
Lemma connected_joined c : client_ok c -> generation_of c ∈ su_connected (c_around c) -> rt_closedByUser (c_run c) = false -> joined c.
Proof.
  intros [Hb Hs] [t Ht]%(b_connected _ Hb) Hcl. unfold state_ok, joined in *. destruct (state_of c); try naive_solver congruence.
  destruct Hs as (_ & _ & Hn & _). assert (generation_of c ∈ su_connected (c_around c)) as Hin by (apply (b_connected _ Hb); by exists t).
  rewrite Hn in Hin. by apply elem_of_nil in Hin.
Qed.
Lemma joined_keeps c c' : client_ok c -> joined c -> state_of c' ≠ st_idle -> state_of c' ≠ st_handshaking -> keeps c c'.
Proof. intros Hok Hj. destruct (joined_transport c Hok Hj) as ([t Ht] & Hnt & Hnc & Hni). split; try done. by rewrite Ht. Qed.

(** Scheduling a timer that no other state counts on. *)
Lemma schedule_client c kind (delay : Z) : client_ok c -> state_of c ≠ st_idle ->
  client_ok (fst (schedule_timer c kind delay)) /\ (forall X, moves X c -> moves X (fst (schedule_timer c kind delay))).
Proof.
  intros [Hb Hs] Hi. split.
  - split; [by apply schedule_ok|]. unfold state_ok in *. change (state_of (fst (schedule_timer c kind delay))) with (state_of c). destruct (state_of c); try done.
    destruct Hs as (? & ? & ? & ?). split_and!; try done. apply schedule_runs; [apply Hb|done].
  - intros X [Hin|Hp]; [by left|right]. unfold progress in *. change (state_of (fst (schedule_timer c kind delay))) with (state_of c).
    destruct (state_of c); try done; apply schedule_runs; done || apply Hb.
Qed.

Lemma tick_ok c : client_ok c -> state_of c ≠ st_idle -> client_ok (schedule_tick intervalMs c) /\ keeps c (schedule_tick intervalMs c) /\
  (forall X, moves (st_ready :: st_pairing :: X) c -> moves X (schedule_tick intervalMs c)).
Proof.
  intros Hok Hi. destruct (schedule_client c KHeartbeatTick intervalMs Hok Hi) as [[Hb1 Hs1] Hm1].
  destruct (schedule_new c KHeartbeatTick intervalMs) as [Htr Hrun].
  unfold schedule_tick. destruct (schedule_timer c KHeartbeatTick intervalMs) as [c1 t] eqn:E. cbn [fst snd] in *.
  assert (state_of c1 = state_of c /\ transport_of c1 = transport_of c) as [Es Et] by (by injection E as <- _). split_and!.
  - split; [apply remember_ok; try done; apply Hb1|]. exact Hs1.
  - by apply keeps_same.
  - intros X Hm. destruct (decide (state_of c1 = st_ready \/ state_of c1 = st_pairing)) as [Hbeat|Hno].
    + right. unfold progress. cbn. destruct Hbeat as [-> | ->]; exact Hrun.
    + assert (moves X c1) as Hm'. { apply (moves_drop2 st_ready st_pairing); [by apply Hm1|tauto|tauto]. }
      destruct Hm' as [Hin|Hp]; [by left|right]. unfold progress in *. cbn. destruct (state_of c1); try done; tauto.
Qed.

Lemma startHeartbeat_ok c : client_ok c -> client_ok (startHeartbeat intervalMs c) /\ keeps c (startHeartbeat intervalMs c) /\
  (forall X, moves (st_ready :: st_pairing :: X) c -> moves X (startHeartbeat intervalMs c)).
Proof.
  intros Hok. unfold startHeartbeat. set (c0 := with_run c _). assert (fine c c0) as (Hok0 & Hk0 & Hm0) by (apply fine_run; try done; apply Hok).
  assert (client_ok (stopHeartbeat c0) /\ keeps c0 (stopHeartbeat c0)) as [Hok1 Hk1].
  { apply calmer_client; [apply calm_stopHeartbeat|done|by rewrite stopHeartbeat_run..|by rewrite stopHeartbeat_conn|]. by apply runs_stopHeartbeat; [apply Hok0|..]. }
  assert (forall X, moves (st_ready :: st_pairing :: X) c0 -> moves (st_ready :: st_pairing :: X) (stopHeartbeat c0)) as Hm1.
  { intros X [Hin|Hp]; [left; by rewrite stopHeartbeat_run|]. unfold moves. rewrite stopHeartbeat_run.
    destruct (decide (state_of c0 = st_ready \/ state_of c0 = st_pairing)) as [[-> | ->]|Hno]; [left; by left|left; right; by left|right].
    unfold progress in *. rewrite stopHeartbeat_run, stopHeartbeat_conn. destruct (cm_timers _ _ (calm_stopHeartbeat c0)) as [_ _ Emk _].
    destruct (state_of c0); try done; try tauto; [cbn; by rewrite Emk|by apply runs_stopHeartbeat; [apply Hok0|..]]. }
  set (c1 := stopHeartbeat c0) in *. clearbody c1. unfold first_tick. destruct (negb (beats c1) || negb (has_transport c1)) eqn:Hb.
  - split_and!; [done|by apply (keeps_trans _ c0)|]. intros X Hm%Hm0%Hm1. apply (moves_drop2 st_ready st_pairing); [done| |].
    all: intros E; destruct Hok1 as [_ Hs]; unfold state_ok in Hs; rewrite E in Hs; destruct Hs as (_ & [t Ht] & _);
      unfold beats, has_transport in Hb; by rewrite E, Ht in Hb.
  - destruct (tick_ok c1 Hok1) as (H1 & H2 & H3). { intros E. unfold beats in Hb. by rewrite E in Hb. }
    split_and!; [done|by apply (keeps_trans _ c0), (keeps_trans _ c1)|]. auto.
Qed.

Lemma joined_to c s : client_ok c -> joined c -> s = st_ready \/ s = st_pairing -> client_ok (with_run c (set_state (c_run c) s)).
Proof.
  intros [Hb Hso] Hj Hs. split; [apply remember_run_ok; apply Hb|]. unfold state_ok, joined in *. cbn. destruct (state_of c), Hs as [-> | ->]; done.
Qed.

Lemma welcome_state c s : client_ok c -> joined c -> s = st_ready \/ s = st_pairing ->
  client_ok (to_state c s) /\ state_of (to_state c s) ≠ st_idle /\ state_of (to_state c s) ≠ st_handshaking /\
  forall X, moves (st_ready :: st_pairing :: X) (to_state c s).
Proof.
  intros Hok Hj Hs. unfold transition. destruct (isLegalClientTransition (state_of c) s) eqn:Hl.
  - pose proof (joined_to c s Hok Hj Hs) as Hok1. pose proof (outside_keeps _ Hok1) as Hk. split_and!; [auto with omp| | |].
    + apply (kp_idle _ _ Hk). cbn. by destruct Hs as [-> | ->].
    + intros E%(kp_handshaking _ _ Hk). cbn in E. by destruct Hs as [-> | ->].
    + intros X. apply outside_moves; [done|]. left. cbn. destruct Hs as [-> | ->]; [by left|right; by left].
  - assert (state_of c = s) as E. { unfold joined in Hj. destruct (state_of c), Hs as [-> | ->]; try done; by vm_compute in Hl. }
    rewrite E. split_and!; [done|by destruct Hs as [-> | ->]..|]. intros X. left. rewrite E. destruct Hs as [-> | ->]; [by left|right; by left].
Qed.

Lemma clear_handshake_ok c : client_ok c -> client_ok (clear_handshake c) /\ state_of (clear_handshake c) = state_of c.
Proof.
  intros Hok. split; [|by rewrite clear_handshake_run]. apply (calmer_client c); [apply calm_clear_handshake|done|by rewrite clear_handshake_run..|by rewrite clear_handshake_conn|].
  by apply runs_clear_handshake; [apply Hok|].
Qed.

Lemma all_lost_fine c c1 c' : client_ok c -> joined c -> (forall X, lost X c1 c') -> fine c c'.
Proof.
  intros Hok Hj Hl. destruct (Hl []) as [H1 _ H3 H4 _ _]. split_and!; [done|by apply joined_keeps|]. intros X _. apply (Hl X).
Qed.
Lemma joined_ends X c : client_ok c -> joined c -> ends X c.
Proof. intros Hok Hj Ht. by destruct (joined_transport c Hok Hj) as (_ & ? & _). Qed.

Lemma welcome_fine c w : client_ok c -> joined c -> fine c (handleWelcome intervalMs outside c w).
Proof.
  intros Hok Hj. unfold handleWelcome. destruct (clear_handshake_ok c Hok) as [Hok1 Es]. set (c1 := clear_handshake c) in *. clearbody c1.
  assert (joined c1) as Hj1 by (unfold joined in *; by rewrite Es). destruct (joined_transport c1 Hok1 Hj1) as (_ & _ & _ & Hi).
  assert (forall s, s = st_ready \/ s = st_pairing -> fine c (outside (startHeartbeat intervalMs (to_state c1 s)))) as Hgo.
  { intros s Hs. destruct (welcome_state c1 s Hok1 Hj1 Hs) as (Hok2 & Hi2 & Hh2 & Hm2). set (c2 := to_state c1 s) in *. clearbody c2.
    destruct (startHeartbeat_ok c2 Hok2) as (Hok3 & Hk3 & Hm3). set (c3 := startHeartbeat intervalMs c2) in *. clearbody c3.
    pose proof (outside_keeps _ Hok3) as Hk4. split_and!; [auto with omp| |].
    - apply joined_keeps; [done|done|by apply (kp_idle _ _ Hk4), (kp_idle _ _ Hk3)|]. by intros E%(kp_handshaking _ _ Hk4)%(kp_handshaking _ _ Hk3).
    - intros X _. apply outside_moves; [done|]. auto. }
  destruct w; try (apply Hgo; tauto).
  - apply (all_lost_fine c c1); [done|done|]. intros X. by apply client_fatal_ok; [| |apply joined_ends|].
  - apply (all_lost_fine c c1); [done|done|]. intros X. by apply client_fatal_ok; [| |apply joined_ends|].
Qed.

Lemma pong_fine c : client_ok c -> fine c (clearHeartbeatTimeout c).
Proof.
  intros Hok. destruct (calmer_client c (clearHeartbeatTimeout c)) as [H1 H2]; try done.
  - apply calm_clearHeartbeatTimeout.
  - by rewrite clearHeartbeatTimeout_run.
  - by rewrite clearHeartbeatTimeout_run.
  - by rewrite clearHeartbeatTimeout_run.
  - by rewrite clearHeartbeatTimeout_conn.
  - by apply runs_clearHeartbeatTimeout; [apply Hok|].
  - split_and!; [done|done|]. intros X [Hin|Hp]; [left; by rewrite clearHeartbeatTimeout_run|right].
    unfold progress in *. rewrite clearHeartbeatTimeout_run, clearHeartbeatTimeout_conn. destruct (cm_timers _ _ (calm_clearHeartbeatTimeout c)) as [_ _ Emk _].
    destruct (state_of c); try done; [cbn; by rewrite Emk|..]; by apply runs_clearHeartbeatTimeout; [apply Hok|..].
Qed.

Lemma pair_stored_lost X c : client_ok c -> joined c ->
  lost X c (reconnect_later baseMs maxMs random outside (disconnect_transport (resetAttempts (forget_pong c)))).
Proof.
  intros Hok Hj. destruct (joined_transport c Hok Hj) as (_ & _ & _ & Hi). destruct (disconnect_detached (resetAttempts (forget_pong c))) as [Hd Er].
  { apply remember_ok; try done; try apply remember_run_ok; apply Hok. }
  set (c1 := disconnect_transport _) in *. clearbody c1. apply reconnect_later_ok; [done|done|by apply joined_ends|exact Hd|by rewrite Er..].
Qed.

Lemma frame_fine c g frame : client_ok c -> g ∈ su_connected (c_around c) ->
  fine c (handle_frame baseMs maxMs intervalMs hasCompatibilityFeatures random outside c g frame).
Proof.
  intros Hok Hg. unfold handle_frame. destruct (negb (bool_decide (g = generation_of c)) || rt_closedByUser (c_run c)) eqn:Hb; [by apply fine_refl|].
  apply orb_false_iff in Hb as [->%negb_false_iff%bool_decide_eq_true Hcl]. pose proof (connected_joined c Hok Hg Hcl) as Hj.
  destruct (joined_transport c Hok Hj) as (_ & _ & Hnc & Hi). destruct frame as [w| | | |auth|].
  - by apply welcome_fine.
  - case_match; [|by apply fine_refl]. apply (fine_trans _ (forget_pong c)); [apply fine_run; try done; apply Hok|]. apply pong_fine.
    eapply proj1, fine_run; try done; apply Hok.
  - apply (all_lost_fine c c); [done|done|]. intros X. by apply lose_ok; [| |apply joined_ends].
  - apply (all_lost_fine c c); [done|done|]. intros X. by apply pair_stored_lost.
  - apply (all_lost_fine c c); [done|done|]. intros X. apply client_fatal_ok; [done|done|by apply joined_ends|by destruct auth].
  - split_and!; auto with omp.
Qed.

(** *** Events that do not come from foreign code *)

Lemma made_fields c g : c_conn (made c g) = c_conn c /\ c_run (made c g) = c_run c /\ timers_of (made c g) = timers_of c /\
  su_connected (c_around (made c g)) = su_connected (c_around c) /\
  (forall m, m ∈ su_making (c_around (made c g)) <-> m ∈ su_making (c_around c) /\ m ≠ g).
Proof.
  split_and!; try done. intros m. cbn. rewrite elem_of_filter_list, negb_true_iff, bool_decide_eq_false. done.
Qed.
Lemma made_ok c g : client_ok c -> client_ok (made c g).
Proof.
  intros [Hb Hs]. destruct (made_fields c g) as (_ & _ & _ & _ & Hm). split.
  - split; try apply Hb.
    + intros [Hin _]%Hm. by apply (b_making _ Hb).
    + intros m [[Hin _]%Hm|Hin]; apply (b_le _ Hb); tauto.
  - unfold state_ok in *. change (state_of (made c g)) with (state_of c). destruct (state_of c); try exact Hs.
    + destruct Hs as (? & E & ? & ? & ? & ?). split_and!; try done. cbn. by rewrite E.
    + destruct Hs as (? & ? & Hn & ?). split_and!; try done. by intros [? _]%Hm.
Qed.
Lemma made_progress c g : client_ok c -> progress c -> g ≠ generation_of c \/ terminal c -> progress (made c g).
Proof.
  intros Hok Hp Hor. unfold progress in *. change (state_of (made c g)) with (state_of c). destruct (state_of c); try exact Hp.
  apply made_fields. split; [exact Hp|]. destruct Hor as [Hne|Ht]; [by apply not_eq_sym|done].
Qed.
(** A transport that is closed at once. *)
Lemma reject_same c : client_ok c -> close_transport (new_transport c (su_nextTransport (c_around c))) (su_nextTransport (c_around c)) =
  with_around c (set_open (c_around c) (su_open (c_around c)) (S (su_nextTransport (c_around c)))).
Proof.
  intros [Hb _]. unfold close_transport, new_transport, with_around, set_open. cbn. do 2 f_equal.
  rewrite (b_open _ Hb). pose proof (b_fresh _ Hb) as Hf. destruct (transport_of c) as [t|]; cbn.
  - rewrite bool_decide_eq_false_2 by (specialize (Hf t eq_refl); lia). cbn. by rewrite bool_decide_eq_true_2.
  - by rewrite bool_decide_eq_true_2.
Qed.
Lemma reject_ok c : client_ok c -> progress c ->
  client_ok (with_around c (set_open (c_around c) (su_open (c_around c)) (S (su_nextTransport (c_around c))))) /\
  progress (with_around c (set_open (c_around c) (su_open (c_around c)) (S (su_nextTransport (c_around c))))).
Proof.
  intros [Hb Hs] Hp. split; [split; [|exact Hs]|exact Hp]. split; try apply Hb. cbn. intros t Ht. pose proof (b_fresh _ Hb t Ht). lia.
Qed.

Lemma adopt_ok c g : client_ok c -> generation_of c = g -> g ∉ su_making (c_around c) -> state_of c = st_connecting ->
  let t := su_nextTransport (c_around c) in let c1 := adopt (new_transport c t) g t in
  base_ok c1 /\ is_Some (transport_of c1) /\ cn_reconnectTimer (c_conn c1) = None /\ c_run c1 = c_run c /\ rt_closedByUser (c_run c1) = false.
Proof.
  intros [Hb Hs] Hg Hnm Est t c1. unfold state_ok in Hs. rewrite Est in Hs. destruct Hs as (Hcl & Ht & Hr). split_and!; try done.
  pose proof (b_open _ Hb) as Ho. rewrite Ht in Ho. cbn in Ho. split; try apply Hb.
  - cbn. by rewrite Ho.
  - cbn. intros t' [= <-]. unfold t. lia.
  - cbn. intros Hin. by rewrite Hg in Hin.
  - cbn. rewrite elem_of_app, list_elem_of_singleton. split; [by eauto|]. intros _. by right.
  - cbn. intros m. rewrite elem_of_app, list_elem_of_singleton. intros [Hm|[Hm| ->]]; [apply (b_le _ Hb); by left|apply (b_le _ Hb); by right|lia].
Qed.

Abbreviation hello_sent := (sendHello baseMs maxMs hasCompatibilityFeatures random outside).
Lemma sendHello_ok c hello : client_ok c -> moves [st_handshaking] c -> state_of c ≠ st_idle ->
  client_ok (hello_sent c hello) /\ moves [st_handshaking] (hello_sent c hello) /\ state_of (hello_sent c hello) ≠ st_idle.
Proof.
  intros Hok Hm0 Hi0. unfold sendHello. pose proof (outside_ok _ Hok) as Hok1. pose proof (outside_keeps _ Hok) as Hk.
  assert (moves [st_handshaking] (outside c)) as Hm by (apply outside_moves; done).
  assert (state_of (outside c) ≠ st_idle) as Hi by by apply (kp_idle _ _ Hk). set (c1 := outside c) in *. clearbody c1.
  assert (forall c', lost [st_handshaking] c1 c' -> client_ok c' /\ moves [st_handshaking] c' /\ state_of c' ≠ st_idle) as Hl by (intros c' []; done).
  destruct hello; [done|apply Hl..].
  - by apply client_fatal_ok; [| |intros _|].
  - by apply client_fatal_ok; [| |intros _|].
  - by apply transport_error_ok; [| |intros _].
Qed.

Lemma arm_ok c : client_ok c -> moves [st_handshaking] c -> client_ok (arm_handshake handshakeTimeoutMs c) /\ progress (arm_handshake handshakeTimeoutMs c).
Proof.
  intros Hok Hm. unfold arm_handshake. case_bool_decide as Hs; [|split; [done|]; by apply moves_nil, (moves_drop st_handshaking)].
  destruct (schedule_client c KHandshake handshakeTimeoutMs Hok) as [[Hb1 Hs1] _]; [by rewrite Hs|].
  destruct (schedule_new c KHandshake handshakeTimeoutMs) as [Htr Hrun].
  destruct (schedule_timer c KHandshake handshakeTimeoutMs) as [c1 t] eqn:E. cbn [fst snd] in *.
  assert (state_of c1 = st_handshaking) as Es by (by injection E as <- _). split.
  - split; [apply remember_run_ok; [done|done|apply Hb1]|exact Hs1].
  - unfold progress. cbn. by rewrite Es.
Qed.

Lemma connected_ok c hello : base_ok c -> is_Some (transport_of c) -> cn_reconnectTimer (c_conn c) = None -> rt_closedByUser (c_run c) = false ->
  state_of c = st_connecting ->
  client_ok (handleConnected baseMs maxMs handshakeTimeoutMs hasCompatibilityFeatures random outside c hello) /\
  progress (handleConnected baseMs maxMs handshakeTimeoutMs hasCompatibilityFeatures random outside c hello).
Proof.
  intros Hb Ht Hr Hcl Hs. unfold handleConnected. set (c0 := with_run c _).
  assert (to_state c0 st_connecting = c0) as -> by (unfold transition; change (state_of c0) with (state_of c); by rewrite Hs).
  set (c1 := with_run c0 (set_state (c_run c0) st_handshaking)).
  assert (to_state c0 st_handshaking = outside c1) as -> by (unfold transition; change (state_of c0) with (state_of c); by rewrite Hs).
  assert (client_ok c1) as Hok1. { split; [|by split_and!]. do 2 (apply remember_run_ok; try apply Hb; try done). }
  pose proof (outside_ok _ Hok1) as Hok2. pose proof (outside_keeps _ Hok1) as Hk.
  assert (moves [st_handshaking] (outside c1)) as Hm by (apply outside_moves; [done|left; by left]).
  assert (state_of (outside c1) ≠ st_idle) as Hi by by apply (kp_idle _ _ Hk).
  set (c2 := outside c1) in *. clearbody c2. destruct (sendHello_ok c2 hello Hok2 Hm Hi) as (H1 & H2 & _). by apply arm_ok.
Qed.

Lemma opened_ok c g hello : client_ok c -> progress c -> g ∈ su_making (c_around c) ->
  client_ok (opened baseMs maxMs handshakeTimeoutMs hasCompatibilityFeatures random outside c g hello) /\
  progress (opened baseMs maxMs handshakeTimeoutMs hasCompatibilityFeatures random outside c g hello).
Proof.
  intros Hok Hp Hg. pose proof (made_ok c g Hok) as Hok1. destruct (made_fields c g) as (Ec & Er & _ & _ & Hm). unfold opened.
  change (su_nextTransport (c_around c)) with (su_nextTransport (c_around (made c g))). set (t := su_nextTransport _).
  change (generation_of (new_transport (made c g) t)) with (generation_of c). change (is_active (new_transport (made c g) t)) with (is_active c).
  destruct (negb (bool_decide (g = generation_of c)) || negb (is_active c)) eqn:Hb.
  - assert (g ≠ generation_of c \/ terminal c) as Hor.
    { apply orb_prop in Hb as [Hb%negb_true_iff%bool_decide_eq_false|Hb%negb_true_iff]; [by left|right].
      destruct (isTerminalState (state_of c)) eqn:E; [done|]. assert (is_active c = true); [|congruence]. apply ok_active; [done|congruence]. }
    unfold t. rewrite reject_same by done. apply reject_ok; [done|]. by apply made_progress.
  - apply orb_false_iff in Hb as [->%negb_false_iff%bool_decide_eq_true Ha%negb_false_iff]. apply (ok_active c Hok) in Ha.
    assert (state_of c = st_connecting) as Hs.
    { destruct Hok as [Hbo Hso]. pose proof (b_making _ Hbo Hg) as Hn. unfold state_ok in Hso. destruct (state_of c); cbn in Ha; try done.
      - destruct Hso as (_ & E & _). rewrite E in Hg. by apply elem_of_nil in Hg.
      - destruct Hso as (_ & [? ?] & _). congruence.
      - destruct Hso as (_ & [? ?] & _). congruence.
      - destruct Hso as (_ & [? ?] & _). congruence.
      - by destruct Hso as (_ & _ & ? & _). }
    destruct (adopt_ok (made c (generation_of c)) (generation_of c) Hok1 eq_refl) as (H1 & H2 & H3 & H4 & H5); [by intros [_ ?]%Hm|done|].
    by apply connected_ok; [exact H1|exact H2|exact H3|exact H5|].
Qed.

Lemma open_failed_ok c g : client_ok c -> progress c -> g ∈ su_making (c_around c) ->
  client_ok (open_failed baseMs maxMs hasCompatibilityFeatures random outside c g) /\ progress (open_failed baseMs maxMs hasCompatibilityFeatures random outside c g).
Proof.
  intros Hok Hp Hg. pose proof (made_ok c g Hok) as Hok1. unfold open_failed. change (generation_of (made c g)) with (generation_of c).
  case_bool_decide as E; [|split; [done|]; by apply made_progress; [| |left]].
  assert (state_of (made c g) ≠ st_idle) as Hi.
  { change (state_of (made c g)) with (state_of c). intros Es. destruct Hok as [_ Hso]. unfold state_ok in Hso. rewrite Es in Hso.
    destruct Hso as (_ & En & _). rewrite En in Hg. by apply elem_of_nil in Hg. }
  destruct (transport_error_ok [] (made c g) Hok1 Hi) as [H1 H2 _ _ _ _]; [|by split; [|apply moves_nil]].
  intros Ht. apply moves_nil, made_progress; [done|done|by right].
Qed.

(** A timer that fires. *)
Lemma fired_calm c t : calmer c (clear_client_timer c t).
Proof. apply (calm_clear c (Some t)). Qed.
Lemma fired_ok c t kind (d : Z) : client_ok c -> map_get t (timers_of c) = Some (kind, d) -> kind ≠ KReconnect -> client_ok (clear_client_timer c t).
Proof.
  intros Hok Ht Hk. apply (calmer_client c); try done; [apply fired_calm|]. apply (runs_fired c t _ KReconnect kind d); [done|]. by apply not_eq_sym.
Qed.
Lemma fired_moves X c t kind (d : Z) : map_get t (timers_of c) = Some (kind, d) -> progress c ->
  (kind = KHandshake -> st_handshaking ∈ X) -> (kind = KHeartbeatTick -> st_ready ∈ X /\ st_pairing ∈ X) -> moves X (clear_client_timer c t).
Proof.
  intros Ht Hp H1 H2. unfold moves. change (state_of (clear_client_timer c t)) with (state_of c). unfold progress in *.
  change (state_of (clear_client_timer c t)) with (state_of c). destruct (state_of c); try (right; exact Hp).
  - destruct kind; try (right; by apply (runs_fired c t _ _ _ d Ht)). left. by apply H1.
  - destruct kind; try (right; by apply (runs_fired c t _ _ _ d Ht)). left. by apply H2.
  - destruct kind; try (right; by apply (runs_fired c t _ _ _ d Ht)). left. by apply H2.
Qed.
Lemma fired_not_idle c t kind (d : Z) : client_ok c -> map_get t (timers_of c) = Some (kind, d) -> state_of c ≠ st_idle.
Proof.
  intros [_ Hs] Ht E. unfold state_ok in Hs. rewrite E in Hs. destruct Hs as (_ & _ & _ & Hn & _). by rewrite Hn in Ht.
Qed.

Lemma await_pong_ok X c : client_ok c -> state_of c ≠ st_idle -> moves X c -> client_ok (await_pong timeoutMs c) /\ moves X (await_pong timeoutMs c) /\
  state_of (await_pong timeoutMs c) = state_of c.
Proof.
  intros Hok Hi Hm. destruct (schedule_client c KHeartbeatTimeout timeoutMs Hok Hi) as [[Hb1 Hs1] Hm1].
  destruct (schedule_new c KHeartbeatTimeout timeoutMs) as [Htr _]. unfold await_pong.
  destruct (schedule_timer c KHeartbeatTimeout timeoutMs) as [c1 t] eqn:E. cbn [fst snd] in *.
  assert (state_of c1 = state_of c) as Es by (by injection E as <- _). split_and!; [split|exact (Hm1 X Hm)|exact Es].
  - apply remember_run_ok; [apply remember_ok; try done; apply Hb1|apply Hb1|apply Hb1].
  - exact Hs1.
Qed.

Lemma after_ping_ok c (sent : bool) : client_ok c -> state_of c ≠ st_idle -> moves [st_ready; st_pairing] c ->
  client_ok (after_ping baseMs maxMs intervalMs hasCompatibilityFeatures random outside c sent) /\
  progress (after_ping baseMs maxMs intervalMs hasCompatibilityFeatures random outside c sent).
Proof.
  intros Hok Hi Hm. unfold after_ping. destruct sent.
  - destruct (tick_ok c Hok Hi) as (H1 & _ & H3). split; [done|]. by apply moves_nil, H3.
  - destruct (pong_fine c Hok) as (Hok1 & Hk1 & Hm1). destruct (lose_ok [] (clearHeartbeatTimeout c) None false Hok1) as [H1 H2 _ _ _ _].
    + by apply (kp_idle _ _ Hk1).
    + intros Ht. apply (moves_drop2 st_ready st_pairing); [by apply Hm1|intros E; by rewrite E in Ht..].
    + split; [done|]. by apply moves_nil.
Qed.

Lemma heartbeatTick_ok c (sent : bool) : client_ok c -> state_of c ≠ st_idle -> moves [st_ready; st_pairing] c ->
  client_ok (heartbeatTick baseMs maxMs intervalMs timeoutMs hasCompatibilityFeatures random outside c sent) /\
  progress (heartbeatTick baseMs maxMs intervalMs timeoutMs hasCompatibilityFeatures random outside c sent).
Proof.
  intros Hok Hi Hm. unfold heartbeatTick. destruct (negb (beats c) || negb (has_transport c)) eqn:Hb.
  - split; [done|]. apply moves_nil, (moves_drop2 st_ready st_pairing); [done|..].
    all: intros E; destruct Hok as [_ Hs]; unfold state_ok in Hs; rewrite E in Hs; destruct Hs as (_ & [t Ht] & _);
      unfold beats, has_transport in Hb; by rewrite E, Ht in Hb.
  - destruct (await_pong_ok _ c Hok Hi Hm) as (Hok1 & Hm1 & Es1). set (c1 := await_pong timeoutMs c) in *. clearbody c1.
    pose proof (outside_keeps _ Hok1) as Hk. apply after_ping_ok; [auto with omp|apply (kp_idle _ _ Hk); congruence|by apply outside_moves].
Qed.

Lemma no_restart c : rt_closedByUser (c_run c) = true -> state_of c = st_closing \/ state_of c = st_closed -> begin_connection (to_state c st_connecting) = c.
Proof.
  intros Hc Hs. assert (to_state c st_connecting = c) as -> by (unfold transition; by destruct Hs as [-> | ->]).
  unfold begin_connection, is_active. by rewrite Hc.
Qed.
Lemma shut_client c : base_ok c -> rt_closedByUser (c_run c) = true -> state_of c = st_closing \/ state_of c = st_closed -> client_ok c.
Proof. intros Hb Hc Hs. split; [done|]. unfold state_ok. by destruct Hs as [-> | ->]. Qed.

Lemma reconnect_expired c t (d : Z) : client_ok c -> progress c -> map_get t (timers_of c) = Some (KReconnect, d) ->
  let c' := expired baseMs maxMs intervalMs timeoutMs hasCompatibilityFeatures random outside (clear_client_timer c t) KReconnect t false in
  client_ok c' /\ progress c'.
Proof.
  intros Hok Hp Ht. cbn [expired]. set (c1 := clear_client_timer c t). change (cn_reconnectTimer (c_conn c1)) with (cn_reconnectTimer (c_conn c)).
  assert (progress c1) as Hp1 by (by apply moves_nil, (fired_moves [] c t KReconnect d)).
  pose proof (calmer_ok c c1 (fired_calm c t) (proj1 Hok)) as Hb1. pose proof Hok as [Hb Hs].
  case_bool_decide as Hr.
  - assert (base_ok (forget_reconnect c1)) as Hb2 by (apply (calmer_ok c1), Hb1; apply calm_conn; try done; by (left + right)).
    destruct (state_of c) eqn:Es; unfold state_ok in Hs; rewrite Es in Hs; try naive_solver congruence.
    + destruct Hs as (Hcl & Htr & _ & _). pose proof (detached_connecting (forget_reconnect c1) Hb2 Htr eq_refl Hcl) as Hok2.
      unfold transition. change (state_of (forget_reconnect c1)) with (state_of c). rewrite Es.
      change (isLegalClientTransition st_reconnect_wait st_connecting) with true. cbn match.
      destruct (start_ok [] _ Hok2 eq_refl) as (H1 & H2 & _). split; [exact H1|by apply moves_nil].
    + rewrite no_restart by (done || by left). split; [by apply shut_client; [| |left]|]. unfold progress in *.
      change (state_of c1) with (state_of c) in Hp1. change (state_of (forget_reconnect c1)) with (state_of c). by rewrite Es in *.
    + rewrite no_restart by (done || by right). split; [by apply shut_client; [| |right]|]. unfold progress in *.
      change (state_of c1) with (state_of c) in Hp1. change (state_of (forget_reconnect c1)) with (state_of c). by rewrite Es in *.
  - split; [|done]. apply (calmer_client c); try done; [apply fired_calm|]. intros (t' & d' & Ho & Hg). exists t', d'. split; [done|]. cbn.
    apply get_delete_nat. split; [|done]. intros ->. done.
Qed.

Lemma fire_timer_ok c t (sent : bool) : client_ok c -> progress c ->
  client_ok (fire_timer baseMs maxMs intervalMs timeoutMs hasCompatibilityFeatures random outside c t sent) /\
  progress (fire_timer baseMs maxMs intervalMs timeoutMs hasCompatibilityFeatures random outside c t sent).
Proof.
  intros Hok Hp. unfold fire_timer. destruct (map_get t (timers_of c)) as [[kind d]|] eqn:Ht; [|done].
  pose proof (fired_not_idle c t kind d Hok Ht) as Hi. destruct kind.
  - by apply (reconnect_expired c t d).
  - apply heartbeatTick_ok; [by apply (fired_ok c t _ d Hok Ht)|done|]. apply (fired_moves _ c t _ d Ht Hp); [done|]. intros _. split; [by left|right; by left].
  - destruct (lose_ok [] (clear_client_timer c t) None false) as [H1 H2 _ _ _ _]; [by apply (fired_ok c t _ d Hok Ht)|done| |by split; [|apply moves_nil]].
    intros _. by apply (fired_moves [] c t _ d Ht Hp).
  - destruct (client_fatal_ok [] (clear_client_timer c t) (client_error e_protocol "handshake timed out" false)) as [[H1 H2 _ _ _ _] _]; [by apply (fired_ok c t _ d Hok Ht)|done| |done|by split; [|apply moves_nil]].
    intros Hterm. apply (moves_drop st_handshaking); [apply (fired_moves _ c t _ d Ht Hp); [intros _; by left|done]|]. intros E. by rewrite E in Hterm.
Qed.
End Handlers.
