(* ===== verification/ClientLifecycleRuns.v ===== *)
(** * ClientLifecycleRuns: every run of a client

    Runs of the client's life cycle with listeners and transports that answer each call from the
    client by calling it again, to any depth, and what holds after every event. *)
From stdpp Require Import base tactics option list numbers strings sets.
From S2P Require Import Prelude JsMap JsString ClientRequests ClientLifecycle ClientLifecycleSpec.

Implicit Types (c : Client) (g t : nat).

(** The options of a client. *)
Record LifecycleOptions := mkLifecycleOptions {
  lo_baseMs : Z;
  lo_maxMs : Z;
  lo_intervalMs : Z;
  lo_timeoutMs : Z;
  lo_handshakeTimeoutMs : Z;
  lo_compatibilityFeatures : bool;
}.

(** What listeners and transports may do whenever they run. *)
Inductive ForeignCall :=
| CallConnect
| CallWake (stale : bool)
| CallReconnectNow
| CallClose
| TransportCloses (generation : nat) (code : option Z) (invalidFrame : bool)
| TransportErrors (generation : nat)
| TransportDelivers (generation : nat) (frame : LifecycleFrame).

Section Runs.
Context (o : LifecycleOptions) (random : Client -> Z * Z) (react : Client -> list ForeignCall).

Section Calls.
Context (outside : Client -> Client).
(** The handlers of a transport are installed when it is connected, and check its generation. *)
Definition from_transport c g (handle : Client -> Client) : Client :=
  if bool_decide (g ∈ su_connected (c_around c)) && bool_decide (g = cn_generation (c_conn c)) then handle c else c.
Definition foreign_call c (call : ForeignCall) : Client :=
  match call with
  | CallConnect => connect_client c
  | CallWake stale => wake (lo_baseMs o) (lo_maxMs o) (lo_compatibilityFeatures o) random outside c stale
  | CallReconnectNow => reconnectNow (lo_baseMs o) (lo_maxMs o) (lo_compatibilityFeatures o) random outside c
  | CallClose => close_client outside c
  | TransportCloses g code invalidFrame =>
      from_transport c g (fun c => handleDisconnect (lo_baseMs o) (lo_maxMs o) (lo_compatibilityFeatures o) random outside c code invalidFrame)
  | TransportErrors g => from_transport c g (handleTransportError (lo_baseMs o) (lo_maxMs o) (lo_compatibilityFeatures o) random outside)
  | TransportDelivers g frame =>
      if bool_decide (g ∈ su_connected (c_around c))
      then handle_frame (lo_baseMs o) (lo_maxMs o) (lo_intervalMs o) (lo_compatibilityFeatures o) random outside c g frame else c
  end.
End Calls.

(** Foreign code answers a call by the calls [react] chooses, which reach foreign code again, to a depth. *)
Fixpoint reacting (depth : nat) c : Client :=
  match depth with
  | O => c
  | S depth => fold_left (foreign_call (reacting depth)) (react c) c
  end.

Inductive LifecycleEvent :=
| Foreign (call : ForeignCall)
| Opened (generation : nat) (hello : HelloResult)
| OpenFailed (generation : nat)
| TimerExpires (timer : nat) (sent : bool)
| CursorsLoaded
| LeasesReleased
| CursorsSaved.
Definition lifecycle_event (depth : nat) c (ev : LifecycleEvent) : Client :=
  let outside := reacting depth in
  match ev with
  | Foreign call => foreign_call outside c call
  | Opened g hello =>
      if bool_decide (g ∈ su_making (c_around c))
      then opened (lo_baseMs o) (lo_maxMs o) (lo_handshakeTimeoutMs o) (lo_compatibilityFeatures o) random outside c g hello else c
  | OpenFailed g =>
      if bool_decide (g ∈ su_making (c_around c))
      then open_failed (lo_baseMs o) (lo_maxMs o) (lo_compatibilityFeatures o) random outside c g else c
  | TimerExpires t sent =>
      fire_timer (lo_baseMs o) (lo_maxMs o) (lo_intervalMs o) (lo_timeoutMs o) (lo_compatibilityFeatures o) random outside c t sent
  | CursorsLoaded => connect_loaded outside c
  | LeasesReleased => close_released outside c
  | CursorsSaved => close_saved outside c
  end.
Definition run_client (depth : nat) (evs : list LifecycleEvent) : Client := fold_left (lifecycle_event depth) evs new_client.

(** ** Every call is harmless *)

Lemma connect_fine c : client_ok c -> fine c (connect_client c).
Proof. intros Hok. unfold connect_client. case_match; [by apply fine_refl|]. apply fine_run; try done. apply Hok. Qed.

Lemma connected_states c : client_ok c -> cn_generation (c_conn c) ∈ su_connected (c_around c) -> state_of c ≠ st_idle /\ state_of c ≠ st_connecting.
Proof.
  intros [Hb Hs] Hg. pose proof (proj1 (b_connected _ Hb) Hg) as [t Ht]. unfold state_ok in Hs. split; intros E; rewrite E in Hs.
  - destruct Hs as (_ & _ & Hn & _). rewrite Hn in Hg. by apply elem_of_nil in Hg.
  - destruct Hs as (_ & Hn & _). congruence.
Qed.
Lemma from_transport_fine c g handle : client_ok c ->
  (forall X, state_of c ≠ st_idle -> ends X c -> lost X c (handle c)) -> fine c (from_transport c g handle).
Proof.
  intros Hok Hl. unfold from_transport. destruct (bool_decide _ && bool_decide _) eqn:Hb; [|by apply fine_refl].
  apply andb_prop in Hb as [Hg%bool_decide_eq_true ->%bool_decide_eq_true]. destruct (connected_states c Hok Hg) as [Hi Hc].
  apply lost_fine; [|done]. intros X. by apply Hl.
Qed.

Lemma foreign_call_fine outside c call : harmless outside -> client_ok c -> fine c (foreign_call outside c call).
Proof.
  intros Hout Hok. destruct call as [|stale| | |g code invalid|g|g frame]; cbn [foreign_call].
  - by apply connect_fine.
  - by apply wake_fine.
  - by apply reconnectNow_fine.
  - by apply close_fine.
  - apply from_transport_fine; [done|]. intros X Hi He. by apply lose_ok.
  - apply from_transport_fine; [done|]. intros X Hi He. by apply transport_error_ok.
  - case_bool_decide; [by apply frame_fine|by apply fine_refl].
Qed.

Lemma reacting_harmless depth : harmless (reacting depth).
Proof.
  induction depth as [|depth IH]; intros c Hok; [by apply fine_refl|]. cbn [reacting]. change (fine c (fold_left (foreign_call (reacting depth)) (react c) c)).
  generalize (react c) as calls. intros calls. revert c Hok. induction calls as [|call calls IHc]; intros c Hok; cbn [fold_left]; [by apply fine_refl|].
  pose proof (foreign_call_fine _ c call IH Hok) as Hf. eapply fine_trans; [exact Hf|]. apply IHc, Hf.
Qed.

(** ** Every event keeps the invariant *)

Lemma loaded_ok outside c : harmless outside -> client_ok c -> progress c -> client_ok (connect_loaded outside c) /\ progress (connect_loaded outside c).
Proof.
  intros Hout Hok Hp. unfold connect_loaded. destruct (rt_loading (c_run c)) as [|loading]; [done|]. set (c1 := with_run c _).
  assert (fine c c1) as (Hok1 & _ & Hm1) by (apply fine_run; try done; apply Hok).
  assert (progress c1) as Hp1 by (apply moves_nil, Hm1; by right).
  destruct (bool_decide _ || isTerminalState _) eqn:Hb; [done|]. apply orb_false_iff in Hb as [_ Hnt].
  assert (rt_closedByUser (c_run c) = false) as Hcl. { apply not_true_iff_false. rewrite ok_closed by done. by rewrite Hnt. }
  set (c2 := with_run c1 _). assert (fine c1 c2) as (Hok2 & _ & Hm2) by (apply fine_run; try done; apply Hok1).
  case_bool_decide as Hs; [|split; [done|]; apply moves_nil, Hm2; by right].
  assert (client_ok (with_run c2 (set_state (c_run c2) st_connecting))) as Hok3.
  { destruct Hok2 as [Hb2 Hs2]. unfold state_ok in Hs2. change (state_of c2) with (state_of c) in Hs2. rewrite Hs in Hs2.
    destruct Hs2 as (H1 & _ & Hn & _ & H5 & _). apply detached_connecting; try done.
    destruct (transport_of c2) eqn:Et; [|done]. assert (cn_generation (c_conn c2) ∈ su_connected (c_around c2)) as Hin by (apply (b_connected _ Hb2); by rewrite Et).
    rewrite Hn in Hin. by apply elem_of_nil in Hin. }
  unfold transition. change (state_of c2) with (state_of c). rewrite Hs. change (isLegalClientTransition st_idle st_connecting) with true. cbn match.
  destruct (start_ok outside Hout [] _ Hok3 eq_refl) as (H1 & H2 & _). split; [exact H1|by apply moves_nil].
Qed.

Lemma saved_ok outside c : harmless outside -> client_ok c -> progress c -> client_ok (close_saved outside c) /\ progress (close_saved outside c).
Proof.
  intros Hout Hok Hp. unfold close_saved. destruct (rt_saving (c_run c)) as [|saving] eqn:Hsv; [done|]. set (c1 := with_run c _).
  pose proof Hok as [Hb Hs]. assert (base_ok c1) as Hb1 by (apply remember_run_ok; apply Hb).
  unfold transition. change (state_of c1) with (state_of c). destruct (isLegalClientTransition (state_of c) st_closed) eqn:Hl.
  - assert (rt_closedByUser (c_run c) = true /\ transport_of c = None) as [Hcl Ht].
    { unfold state_ok, progress in *. destruct (state_of c); try (by vm_compute in Hl); [|by destruct Hp|by destruct Hs].
      destruct Hs as (_ & _ & _ & _ & _ & Hz). congruence. }
    assert (client_ok (with_run c1 (set_state (c_run c1) st_closed))) as Hok2 by (split; [apply remember_run_ok; apply Hb1|exact Hcl]).
    destruct (Hout _ Hok2) as (H1 & _ & H3). split; [done|]. apply moves_nil, H3. right. exact Ht.
  - split; [split; [done|]|]; unfold state_ok, progress in *; change (state_of c1) with (state_of c); destruct (state_of c); try done.
Qed.

Lemma lifecycle_event_ok depth c ev : client_ok c -> progress c -> client_ok (lifecycle_event depth c ev) /\ progress (lifecycle_event depth c ev).
Proof.
  intros Hok Hp. pose proof (reacting_harmless depth) as Hout. destruct ev as [call|g hello|g|t sent| | |]; cbn [lifecycle_event].
  - destruct (foreign_call_fine _ c call Hout Hok) as (H1 & _ & H3). split; [done|]. apply moves_nil, H3. by right.
  - case_bool_decide; [by apply opened_ok|done].
  - case_bool_decide; [by apply open_failed_ok|done].
  - by apply fire_timer_ok.
  - by apply loaded_ok.
  - unfold close_released. destruct (rt_releasing (c_run c)); [done|]. set (c1 := with_run c _).
    assert (client_ok c1) as Hok1 by (eapply proj1, fine_run; try done; apply Hok).
    destruct (close_now_ok random _ Hout c1 Hok1) as (H1 & H2 & _). exact (conj H1 H2).
  - by apply saved_ok.
Qed.

Lemma new_client_ok : client_ok new_client /\ progress new_client.
Proof.
  split; [|done]. split; [|done]. split; try done; cbn; try apply tracks_none.
  - split; [by intros ?%elem_of_nil|by intros []].
  - by intros g [H|H]; apply elem_of_nil in H.
  - by intros t [].
Qed.

Lemma run_client_ok depth evs : client_ok (run_client depth evs) /\ progress (run_client depth evs).
Proof.
  unfold run_client. assert (forall c, client_ok c /\ progress c -> client_ok (fold_left (lifecycle_event depth) evs c) /\ progress (fold_left (lifecycle_event depth) evs c)) as H;
    [|apply H, new_client_ok].
  induction evs as [|ev evs IH]; intros c Hc; [done|]. apply IH. apply lifecycle_event_ok; apply Hc.
Qed.

(** ** The theorems *)

(** C25: the client never has two transports open: whatever happens, in whatever order, and however listeners and transports call back
    into it, the open transports are exactly the current one, which exists from the handshake on and is closed when the client waits,
    fails or has closed; a transport that arrives late is closed at once. *)
Theorem client_one_transport depth evs :
  let c := run_client depth evs in
  su_open (c_around c) = option_list (cn_transport (c_conn c)) /\
  match rt_state (c_run c) with
  | st_handshaking | st_pairing | st_ready => exists t, su_open (c_around c) = [t]
  | _ => su_open (c_around c) = []
  end.
Proof.
  intros c. destruct (run_client_ok depth evs) as [[Hb Hs] Hp]. fold c in Hb, Hs, Hp. rewrite (b_open _ Hb). split; [done|].
  unfold state_ok, progress in *. destruct (state_of c) eqn:E.
  - destruct (cn_transport (c_conn c)) eqn:Et; [|done]. assert (cn_generation (c_conn c) ∈ su_connected (c_around c)) as Hin by (apply (b_connected _ Hb); by rewrite Et).
    destruct Hs as (_ & _ & Hn & _). rewrite Hn in Hin. by apply elem_of_nil in Hin.
  - by destruct Hs as (_ & -> & _).
  - destruct Hs as (_ & [t ->] & _). by exists t.
  - destruct Hs as (_ & [t ->] & _). by exists t.
  - destruct Hs as (_ & [t ->] & _). by exists t.
  - by destruct Hs as (_ & -> & _).
  - by destruct Hp as [_ ->].
  - by rewrite Hp.
  - by rewrite Hp.
Qed.

End Runs.

(** The delay before a reconnection lies between half its ceiling and its ceiling, and never above the maximum. *)
Lemma backoff_bounded (baseMs maxMs attempt num den : Z) : 0 <= baseMs -> 0 <= maxMs -> 0 < den ->
  let ceiling := Z.min maxMs (baseMs * 2 ^ Z.max 0 (attempt - 1)) in
  ceiling / 2 <= backoff baseMs maxMs attempt num den <= ceiling /\ ceiling <= maxMs.
Proof.
  intros Hb Hm Hd ceiling. assert (0 <= baseMs * 2 ^ Z.max 0 (attempt - 1)) by (apply Z.mul_nonneg_nonneg; [done|apply Z.pow_nonneg; lia]).
  assert (0 <= ceiling) as Hc by (unfold ceiling; lia). assert (0 <= ceiling / 2 <= ceiling) as Hf by (split; [apply Z.div_pos; lia|apply Z.div_le_upper_bound; lia]).
  unfold backoff. cbn [fst snd]. fold ceiling. set (r := Z.max 0 (Z.min den num)). assert (0 <= r <= den) as Hr by (unfold r; lia).
  assert (0 <= r * (ceiling - ceiling / 2) / den <= ceiling - ceiling / 2) as Hq.
  { split; [apply Z.div_pos; nia|]. apply Z.div_le_upper_bound; [done|nia]. }
  split; [lia|unfold ceiling; lia].
Qed.

(** *** A concrete client *)

(** Its listener asks for an immediate reconnection whenever the client starts to wait. *)
Definition sample_options : LifecycleOptions := mkLifecycleOptions 250 10000 15000 5000 10000 true.
Definition eager c : list ForeignCall := if bool_decide (rt_state (c_run c) = st_reconnect_wait) then [CallWake false] else [].
Definition sample_run (evs : list LifecycleEvent) : Client := run_client sample_options (fun _ => (1, 2)) eager 3 evs.
Definition sample_start : list LifecycleEvent := [Foreign CallConnect; CursorsLoaded; Opened 1 HelloSent; Foreign (TransportDelivers 1 (FWelcome WelcomeReady))].

(** It becomes ready; a lost transport is replaced at once, and the one that had been asked for before arrives late and is closed. *)
Example sample_reconnects :
  rt_state (c_run (sample_run sample_start)) = st_ready /\ su_open (c_around (sample_run sample_start)) = [0%nat] /\
  rt_state (c_run (sample_run (sample_start ++ [Foreign (TransportCloses 1 None false)]))) = st_connecting /\
  su_making (c_around (sample_run (sample_start ++ [Foreign (TransportCloses 1 None false)]))) = [3%nat] /\
  su_open (c_around (sample_run (sample_start ++ [Foreign (TransportCloses 1 None false); Foreign (TransportErrors 3); OpenFailed 3; Opened 5 HelloSent]))) = [1%nat].
Proof. vm_compute. split_and!; reflexivity. Qed.

(** A heartbeat whose timeout is still pending is forgotten when the next one begins: answering the second does not stop the first
    timeout, which then ends a connection that is alive. *)
Example overlapping_heartbeats_disconnect :
  let answered := sample_start ++ [TimerExpires 1 true; TimerExpires 3 true; Foreign (TransportDelivers 1 FPong)] in
  rt_state (c_run (sample_run answered)) = st_ready /\ cn_heartbeatTimeout (c_conn (sample_run answered)) = None /\
  map_keys (su_timers (c_around (sample_run answered))) = [2%nat; 5%nat] /\
  rt_state (c_run (sample_run (answered ++ [TimerExpires 2 true]))) ≠ st_ready.
Proof. vm_compute. split_and!; [reflexivity..|discriminate]. Qed.
