(* ===== verification/ClientCursors.v ===== *)
(** * ClientCursors: which session frames the client passes on
    ([packages/client/src/omp-client-runtime.ts])

    The runtime keeps a cursor per session in its journal and publishes a transcript frame only
    when it continues that cursor.  A session that missed frames is desynchronised, and waits for
    a snapshot.  [cl_published] is the log of what was published; [cl_errors] counts the "desync"
    errors. *)
From stdpp Require Import base tactics option list numbers strings sets.
From S2P Require Import Prelude JsMap JsString JsValue Wire WireGuards CursorJournal ClientRequests.

Inductive Publication :=
| PSnapshot (key : jstr) (cursor : Cursor)
| PDurable (key : jstr) (cursor : Cursor)
| PGap (key : jstr)
| PDelta.

Record CursorClient := mkCursorClient {
  cl_journal : CursorJournal;
  cl_desynced : list jstr;                             (* [desyncedSessions] *)
  cl_epoch : option jstr;
  cl_cursor : option Cursor;
  cl_recoveries : jsmap jstr (Z * bool);               (* generation and [awaitsSnapshot] *)
  cl_health : ReconnectHealth;
  cl_generation : Z;
  cl_closed : bool;                                    (* [closedByUser], also after a fatal error *)
  cl_published : list Publication;
  cl_errors : Z;
}.
Implicit Types (s : CursorClient) (record : CursorRecord).

Definition new_cursor_client (store : bool) : CursorClient := mkCursorClient (new_journal store) [] None None [] new_health 0 false [] 0.

Definition is_desynced s (key : jstr) : bool := existsb (jstr_eqb key) (cl_desynced s).
Definition with_journal s (j : CursorJournal) : CursorClient :=
  mkCursorClient j (cl_desynced s) (cl_epoch s) (cl_cursor s) (cl_recoveries s) (cl_health s) (cl_generation s) (cl_closed s) (cl_published s) (cl_errors s).
Definition with_desynced s (l : list jstr) : CursorClient :=
  mkCursorClient (cl_journal s) l (cl_epoch s) (cl_cursor s) (cl_recoveries s) (cl_health s) (cl_generation s) (cl_closed s) (cl_published s) (cl_errors s).
Definition publish s (p : Publication) : CursorClient :=
  mkCursorClient (cl_journal s) (cl_desynced s) (cl_epoch s) (cl_cursor s) (cl_recoveries s) (cl_health s) (cl_generation s) (cl_closed s)
    (cl_published s ++ [p]) (cl_errors s).
(** What [fatal] changes here: later frames are dropped. *)
Definition fatal_close s : CursorClient :=
  mkCursorClient (cl_journal s) (cl_desynced s) (cl_epoch s) (cl_cursor s) (cl_recoveries s) (clear_health (cl_health s)) (cl_generation s) true
    (cl_published s) (cl_errors s).

(** [markDesynced] *)
Definition markDesynced s (key : jstr) : CursorClient :=
  if is_desynced s key then s
  else mkCursorClient (cl_journal s) (cl_desynced s ++ [key]) (cl_epoch s) (cl_cursor s) (cl_recoveries s) (cl_health s) (cl_generation s) (cl_closed s)
    (cl_published s) (cl_errors s + 1).

(** The end of accepting a frame: its cursor becomes the client's, is remembered, and is progress of a replay.  [remember] throws
    on identifiers that are not ones. *)
Definition take_cursor s record (authoritative : bool) : CursorClient * attempt unit :=
  let cursor := cr_cursor record in
  let (j, result) := remember (cl_journal s) record authoritative in
  let health := match result with
                | Done _ => acceptReplayProgress (cl_health s) (cl_generation s) (record_key record) cursor authoritative
                | Threw _ => cl_health s
                end in
  (mkCursorClient j (cl_desynced s) (Some (epoch cursor)) (Some cursor) (cl_recoveries s) health (cl_generation s) (cl_closed s) (cl_published s) (cl_errors s),
   result).

(** [acceptSnapshot] *)
Definition snapshot_recovered s (key : jstr) : CursorClient :=
  match map_get key (cl_recoveries s) with
  | Some (generation, true) =>
      if generation =? cl_generation s then
        mkCursorClient (cl_journal s) (cl_desynced s) (cl_epoch s) (cl_cursor s) (map_delete key (cl_recoveries s)) (cl_health s) (cl_generation s)
          (cl_closed s) (cl_published s) (cl_errors s)
      else s
  | _ => s
  end.
Definition acceptSnapshot s record : CursorClient * attempt unit :=
  let key := record_key record in
  let s := snapshot_recovered s key in
  let s := with_desynced s (List.filter (fun k => negb (jstr_eqb k key)) (cl_desynced s)) in
  let (s, result) := take_cursor s record true in
  match result with Done _ => (publish s (PSnapshot key (cr_cursor record)), Done tt) | Threw m => (s, Threw m) end.

(** [acceptDurable]: whether the frame is to be published. *)
Definition accept_durable s record : CursorClient * attempt bool :=
  let key := record_key record in
  let cursor := cr_cursor record in
  let take s := let (s, result) := take_cursor s record false in
                (s, match result with Done _ => Done true | Threw m => Threw m end) in
  match map_get key (cj_bySession (cl_journal s)) with
  | None => if is_desynced s key then (s, Done false) else take s
  | Some previous =>
      if negb (jstr_eqb (epoch cursor) (epoch previous)) then (markDesynced s key, Done false)
      else if seq cursor <=? seq previous then (s, Done false)
      else if negb (seq cursor =? seq previous + 1) || is_desynced s key then (markDesynced s key, Done false)
      else take s
  end.

(** The epoch part of [handleWelcome]. *)
Definition welcome_epoch s (ep : jstr) : CursorClient :=
  let s := match cl_epoch s with
           | Some current =>
               if jstr_eqb current ep then s
               else mkCursorClient (resetForEpoch (cl_journal s) ep) [] (cl_epoch s) None (cl_recoveries s) (cl_health s) (cl_generation s) (cl_closed s)
                      (cl_published s) (cl_errors s)
           | None => s
           end in
  mkCursorClient (cl_journal s) (cl_desynced s) (Some ep) (cl_cursor s) (cl_recoveries s) (cl_health s) (cl_generation s) (cl_closed s) (cl_published s)
    (cl_errors s).

(** ** The frames, and what happens between them *)

Inductive CursorEvent :=
| CWelcome (ep : jstr)
| CSnapshot record
| CDurable record                                      (* an entry or event frame *)
| CDelta                                               (* a session.delta frame *)
| CGap (hostId sessionId : jstr)
| CReconnected (generation : Z)                        (* another transport *)
| CSaved (key : jstr) (saved : bool)                   (* a save of the journal settles *)
| CLoaded (records : list CursorRecord).

(** [handleRaw] drops frames after the client closed; an exception is a protocol failure. *)
Definition cursor_step s (ev : CursorEvent) : CursorClient :=
  match ev with
  | CSaved key saved => with_journal s (resume (cl_journal s) key saved)
  | CLoaded records => with_journal s (loaded (cl_journal s) records)
  | CReconnected generation =>
      mkCursorClient (cl_journal s) (cl_desynced s) (cl_epoch s) (cl_cursor s) (cl_recoveries s) (cl_health s) generation (cl_closed s) (cl_published s)
        (cl_errors s)
  | CWelcome ep => if cl_closed s then s else welcome_epoch s ep
  | CSnapshot record =>
      if cl_closed s then s
      else match acceptSnapshot s record with (s, Done _) => s | (s, Threw _) => fatal_close s end
  | CDurable record =>
      if cl_closed s then s
      else match accept_durable s record with
           | (s, Done true) => publish s (PDurable (record_key record) (cr_cursor record))
           | (s, Done false) => s
           | (s, Threw _) => fatal_close s
           end
  | CDelta => if cl_closed s then s else publish s PDelta
  | CGap host session => if cl_closed s then s else publish (markDesynced s (sessionKey host session)) (PGap (sessionKey host session))
  end.
Definition run_cursors s (evs : list CursorEvent) : CursorClient := fold_left cursor_step evs s.
