(* ===== verification/ClientCursorsSpec.v ===== *)
(** * ClientCursorsSpec: the frames of a session are passed on without gaps

    Seen from one session, the runtime with its bounded journal is a small automaton: where the
    session is, and whether it lost its place.  Every run follows it, whatever happens to the
    other sessions. *)
From stdpp Require Import base tactics option list numbers strings sets.
From S2P Require Import Prelude JsMap JsString JsValue Wire WireGuards CursorJournal ClientRequests ClientCursors.
Implicit Types (s : CursorClient) (record : CursorRecord) (j : CursorJournal) (k : jstr).

(** ** The memory of the journal *)

Record memory_ok j : Prop := {
  mo_wf : map_wf (cj_records j);
  mo_agree : forall k, map_get k (cj_bySession j) = cr_cursor <$> map_get k (cj_records j);
}.

Definition same_memory j j' : Prop := cj_records j' = cj_records j /\ cj_bySession j' = cj_bySession j.

Lemma same_memory_ok j j' : same_memory j j' -> memory_ok j -> memory_ok j'.
Proof. intros [E1 E2] [H1 H2]. constructor; [by rewrite E1|]. intros k. by rewrite E1, E2. Qed.

Lemma drain_loop_memory j k id q : same_memory j (fst (drain_loop j k id q)).
Proof. unfold drain_loop. repeat case_match; done. Qed.

Lemma drain_memory j k q : same_memory j (drain j k q).
Proof.
  unfold drain. pose proof (drain_loop_memory j k (cj_nextDrain j) q) as H. destruct (drain_loop _ _ _ _) as [j' []]; exact H.
Qed.

Lemma resume_memory j k saved : same_memory j (resume j k saved).
Proof.
  unfold resume. destruct (map_get k (cj_inflight j)) as [[id r]|]; [|done]. cbv zeta.
  match goal with |- context [drain_loop ?x k id ?q] => pose proof (drain_loop_memory x k id q) as H; destruct (drain_loop x k id q) as [j' []] end; exact H.
Qed.

(** A record as a decoded frame carries it. *)
Definition valid_record record : Prop := normalized record = Some (Done record).

Lemma remember_memory j record authoritative : valid_record record ->
  same_memory (remember_record j record) (fst (remember j record authoritative)) /\ snd (remember j record authoritative) = Done tt.
Proof.
  intros Hv. unfold remember. rewrite Hv. destruct (negb _); [done|]. cbv zeta. cbn [fst snd]. split; [|done].
  destruct (q_running _); [done|]. set (q := enqueue _ _ _). clearbody q. set (j' := remember_record j record).
  destruct (drain_memory (set_queue j' (record_key record) q) (record_key record) q) as [E1 E2]. split; [rewrite E1|rewrite E2]; done.
Qed.

(** The oldest session goes when there are too many, never the one remembered. *)
Lemma remember_record_get j record k : memory_ok j -> memory_ok (remember_record j record) /\
  map_get (record_key record) (cj_bySession (remember_record j record)) = Some (cr_cursor record) /\
  (k ≠ record_key record -> map_get k (cj_bySession (remember_record j record)) = map_get k (cj_bySession j) \/
    map_get k (cj_bySession (remember_record j record)) = None).
Proof.
  intros [Hwf Hag]. set (key := record_key record). unfold remember_record. fold key. cbv zeta.
  set (records := map_set key record (map_delete key (cj_records j))). set (bySession := map_set key (cr_cursor record) (cj_bySession j)).
  assert (map_wf records) as Hwr by (apply map_wf_set, map_wf_delete; done).
  assert (forall x, map_get x bySession = cr_cursor <$> map_get x records) as Hbr.
  { intros x. unfold bySession, records. destruct (decide (x = key)) as [->|Hne]; [by rewrite !map_get_set_eq|].
    rewrite !map_get_set_ne, map_get_delete_ne by done. apply Hag. }
  destruct (MAX_SAVED <? map_size records) eqn:Esize.
  2: { cbn [set_memory cj_bySession cj_records]. split_and!; [by constructor|by rewrite Hbr; unfold records; rewrite map_get_set_eq|].
    intros Hne. left. unfold bySession. by rewrite map_get_set_ne. }
  destruct records as [|[oldest r0] rest] eqn:Er; [done|]. assert (oldest ≠ key) as Hold.
  { intros ->. assert (key ∉ map_keys (map_delete key (cj_records j))) as Hno by (rewrite elem_of_keys_delete; tauto).
    unfold records in Er. rewrite map_set_notin in Er by done. destruct (map_delete key (cj_records j)) as [|[x r1] rest']; injection Er as <- <-.
    - by vm_compute in Esize.
    - destruct Hno. apply list_elem_of_here. }
  cbn [set_memory cj_bySession cj_records]. split_and!.
  - constructor; [by apply map_wf_delete|]. intros x. cbn [set_memory cj_bySession cj_records]. destruct (decide (x = oldest)) as [->|Hne]; [by rewrite !map_get_delete_eq|].
    by rewrite !map_get_delete_ne by done.
  - rewrite map_get_delete_ne by done. unfold bySession. by rewrite map_get_set_eq.
  - intros Hne. destruct (decide (k = oldest)) as [->|Hno]; [right; by rewrite map_get_delete_eq|left].
    rewrite map_get_delete_ne by done. unfold bySession. by rewrite map_get_set_ne.
Qed.

(** An epoch keeps the sessions whose record is of it. *)
Definition drop_other (ep : jstr) j (kv : jstr * CursorRecord) : CursorJournal :=
  if jstr_eqb (epoch (cr_cursor (snd kv))) ep then j
  else set_memory j (map_delete (fst kv) (cj_records j)) (map_delete (fst kv) (cj_bySession j)) (map_delete (fst kv) (cj_saved j)).

Lemma drop_others_ok ep l j : memory_ok j -> memory_ok (fold_left (drop_other ep) l j) /\
  forall k, map_get k (cj_bySession (fold_left (drop_other ep) l j)) = map_get k (cj_bySession j) \/
    map_get k (cj_bySession (fold_left (drop_other ep) l j)) = None.
Proof.
  revert j. induction l as [|[x r] l IH]; intros j Hj; cbn [fold_left]; [split; auto|].
  assert (memory_ok (drop_other ep j (x, r)) /\ forall k, map_get k (cj_bySession (drop_other ep j (x, r))) = map_get k (cj_bySession j) \/
    map_get k (cj_bySession (drop_other ep j (x, r))) = None) as [Hok Hk].
  { unfold drop_other. cbn [fst snd]. destruct (jstr_eqb _ _); [auto|]. destruct Hj as [Hwf Hag]. split.
    - constructor; cbn [set_memory cj_bySession cj_records]; [by apply map_wf_delete|]. intros k. destruct (decide (k = x)) as [->|Hne]; [by rewrite !map_get_delete_eq|].
      by rewrite !map_get_delete_ne by done.
    - intros k. cbn [set_memory cj_bySession]. destruct (decide (k = x)) as [->|Hne]; [right; by rewrite map_get_delete_eq|left]. by rewrite map_get_delete_ne. }
  destruct (IH _ Hok) as [H1 H2]. split; [done|]. intros k. destruct (H2 k) as [E|E]; [|by right]. rewrite E. apply Hk.
Qed.

Lemma reset_ok j ep : memory_ok j -> memory_ok (resetForEpoch j ep) /\
  forall k, map_get k (cj_bySession (resetForEpoch j ep)) = map_get k (cj_bySession j) \/ map_get k (cj_bySession (resetForEpoch j ep)) = None.
Proof. apply (drop_others_ok ep). Qed.

Lemma loaded_memory j records : memory_ok j -> memory_ok (loaded j records) /\
  forall k, map_get k (cj_bySession (loaded j records)) = map_get k (cj_bySession j) \/ is_Some (map_get k (cj_bySession (loaded j records))).
Proof.
  unfold loaded. generalize (slice_first MAX_SAVED records). intros l. revert j. induction l as [|r l IH]; intros j Hj; cbn [fold_left]; [split; auto|].
  destruct (normalized r) as [[r'|]|]; [|by apply IH..]. destruct Hj as [Hwf Hag].
  set (j' := set_memory j _ _ _). assert (memory_ok j') as Hj'.
  { constructor; [by apply map_wf_set|]. intros k. unfold j'. cbn [set_memory cj_bySession cj_records].
    destruct (decide (k = record_key r')) as [->|Hne]; [by rewrite !map_get_set_eq|]. by rewrite !map_get_set_ne. }
  destruct (IH j' Hj') as [H1 H2]. split; [done|]. intros k. destruct (H2 k) as [E|E]; [|by right]. rewrite E. unfold j'. cbn [set_memory cj_bySession].
  destruct (decide (k = record_key r')) as [->|Hne]; [right; rewrite map_get_set_eq; eauto|left; by rewrite map_get_set_ne].
Qed.

(** ** One session *)

(** What happens to a session: frames of it that are published, and changes of its place. *)
Inductive Mark :=
| MSnapshot (c : Cursor)
| MDurable (c : Cursor)
| MLost
| MForgot
| MReset
| MLoaded (c : Cursor).

(** Where the session is, if known, and whether it lost its place. *)
Definition SessionPlace : Type := option Cursor * bool.

Definition continues (place : option Cursor) (c : Cursor) : bool :=
  match place with Some c0 => jstr_eqb (epoch c) (epoch c0) && (seq c =? seq c0 + 1) | None => true end.

(** The automaton: a frame is published only in place, right after the one before it. *)
Definition follow_mark (p : SessionPlace) (m : Mark) : option SessionPlace :=
  match m with
  | MSnapshot c => Some (Some c, false)
  | MDurable c => if negb (snd p) && continues (fst p) c then Some (Some c, false) else None
  | MLost => Some (fst p, true)
  | MForgot => Some (None, snd p)
  | MReset => Some (fst p, false)
  | MLoaded c => Some (Some c, snd p)
  end.
Fixpoint follow (p : SessionPlace) (l : list Mark) : option SessionPlace :=
  match l with [] => Some p | m :: rest => match follow_mark p m with Some p' => follow p' rest | None => None end end.

Lemma follow_app p l l' : follow p (l ++ l') = match follow p l with Some p' => follow p' l' | None => None end.
Proof. revert p. induction l as [|m l IH]; intros p; cbn; [done|]. destruct (follow_mark p m); [apply IH|done]. Qed.

Definition place s k : SessionPlace := (map_get k (cj_bySession (cl_journal s)), is_desynced s k).

(** The marks of an event. *)
Definition mark_of k (p : Publication) : option Mark :=
  match p with
  | PSnapshot key c => if jstr_eqb key k then Some (MSnapshot c) else None
  | PDurable key c => if jstr_eqb key k then Some (MDurable c) else None
  | PGap _ | PDelta => None
  end.
Definition new_publications s s' : list Publication := drop (length (cl_published s)) (cl_published s').
Definition forgot k s s' : list Mark := match fst (place s k), fst (place s' k) with Some _, None => [MForgot] | _, _ => [] end.
Definition became_lost k s s' : list Mark := if negb (snd (place s k)) && snd (place s' k) then [MLost] else [].

Definition marks k s (ev : CursorEvent) : list Mark :=
  let s' := cursor_step s ev in
  match ev with
  | CWelcome ep => match cl_epoch s with Some current => if jstr_eqb current ep then [] else MReset :: forgot k s s' | None => [] end
  | CSnapshot record | CDurable record =>
      omap (mark_of k) (new_publications s s') ++ (if jstr_eqb (record_key record) k then became_lost k s s' else forgot k s s')
  | CGap host session => if jstr_eqb (sessionKey host session) k then became_lost k s s' else []
  | CLoaded _ => match fst (place s' k) with Some c => [MLoaded c] | None => [] end
  | CDelta | CSaved _ _ | CReconnected _ => []
  end.

Fixpoint session_marks k s (evs : list CursorEvent) : list Mark :=
  match evs with [] => [] | ev :: rest => marks k s ev ++ session_marks k (cursor_step s ev) rest end.

(** ** Every run follows the automaton *)

Definition valid_event (ev : CursorEvent) : Prop := match ev with CSnapshot record | CDurable record => valid_record record | _ => True end.
Definition live_client s : Prop := memory_ok (cl_journal s) /\ cl_closed s = false.

Lemma is_desynced_eq s k : is_desynced s k = true <-> k ∈ cl_desynced s.
Proof.
  unfold is_desynced. rewrite existsb_exists. setoid_rewrite <- list_elem_of_In. split; [by intros (x & Hx & ->%bool_decide_eq_true)|].
  intros Hk. exists k. split; [done|apply jstr_eqb_refl].
Qed.

Lemma markDesynced_place s key k : place (markDesynced s key) k = (fst (place s k), snd (place s k) || jstr_eqb k key) /\
  cl_journal (markDesynced s key) = cl_journal s /\ cl_published (markDesynced s key) = cl_published s /\ cl_closed (markDesynced s key) = cl_closed s.
Proof.
  unfold markDesynced. destruct (is_desynced s key) eqn:E.
  - split_and!; try done. unfold place. cbn [fst snd]. f_equal. destruct (jstr_eqb k key) eqn:Ek; [|by rewrite orb_false_r].
    apply bool_decide_eq_true in Ek as ->. by rewrite E.
  - split_and!; try done. unfold place, is_desynced. cbn. rewrite existsb_app. cbn. by rewrite orb_false_r.
Qed.

(** Accepting a valid record moves its session there; another one is kept, or forgotten. *)
Lemma take_cursor_spec s record authoritative : valid_record record -> memory_ok (cl_journal s) ->
  let s' := fst (take_cursor s record authoritative) in
  snd (take_cursor s record authoritative) = Done tt /\ memory_ok (cl_journal s') /\ cl_published s' = cl_published s /\ cl_closed s' = cl_closed s /\
  place s' (record_key record) = (Some (cr_cursor record), is_desynced s (record_key record)) /\
  forall k, k ≠ record_key record -> place s' k = place s k \/ place s' k = (None, is_desynced s k).
Proof.
  intros Hv Hj. unfold take_cursor. destruct (remember_memory (cl_journal s) record authoritative Hv) as [[E1 E2] Er].
  destruct (remember _ _ _) as [j' r']. cbn [fst snd] in *. rewrite Er. cbv zeta. cbn [fst snd].
  destruct (remember_record_get (cl_journal s) record [] Hj) as (Hok & Hkey & _).
  split_and!; try done.
  - by eapply same_memory_ok.
  - unfold place, is_desynced. cbn. by rewrite E2, Hkey.
  - intros k Hne. destruct (remember_record_get (cl_journal s) record k Hj) as (_ & _ & Hk). unfold place, is_desynced. cbn. rewrite E2.
    destruct (Hk Hne) as [->| ->]; auto.
Qed.

Lemma forgot_follows k s s' : (place s' k = place s k \/ place s' k = (None, snd (place s k))) -> follow (place s k) (forgot k s s') = Some (place s' k).
Proof.
  unfold forgot. intros [->| ->]; destruct (place s k) as [[c|] lost]; done.
Qed.

Lemma new_publications_same s s' : cl_published s' = cl_published s -> new_publications s s' = [].
Proof. intros E. unfold new_publications. rewrite E. apply drop_all. Qed.
Lemma new_publications_one s s' p : cl_published s' = cl_published s ++ [p] -> new_publications s s' = [p].
Proof. intros E. unfold new_publications. by rewrite E, drop_app_length. Qed.

Lemma became_lost_follows k s s' : fst (place s' k) = fst (place s k) -> (snd (place s k) = true -> snd (place s' k) = true) ->
  follow (place s k) (became_lost k s s') = Some (place s' k).
Proof.
  unfold became_lost. destruct (place s k) as [c []], (place s' k) as [c' []]; cbn; intros -> Hl; try done. by specialize (Hl eq_refl).
Qed.

Lemma jstr_eqb_sym (a b : jstr) : jstr_eqb a b = jstr_eqb b a.
Proof. unfold jstr_eqb. apply bool_decide_ext. done. Qed.

(** Marking a session as desynchronised. *)
Lemma desync_follows k s key : follow (place s k) (if jstr_eqb key k then became_lost k s (markDesynced s key) else forgot k s (markDesynced s key)) =
  Some (place (markDesynced s key) k).
Proof.
  destruct (markDesynced_place s key k) as (E & _). destruct (jstr_eqb key k) eqn:Ek.
  - apply bool_decide_eq_true in Ek as ->. apply became_lost_follows; rewrite E; [done|]. cbn. by intros ->.
  - apply forgot_follows. left. rewrite E. rewrite jstr_eqb_sym, Ek, orb_false_r. by destruct (place s k).
Qed.

(** A frame whose cursor is taken and published. *)
Lemma taken_follows k s s' record m (lost : bool) : cl_published s' = cl_published s ++ [m] ->
  mark_of k m = (if jstr_eqb (record_key record) k then Some (if lost then MSnapshot (cr_cursor record) else MDurable (cr_cursor record)) else None) ->
  (lost = false -> snd (place s (record_key record)) = false /\ continues (fst (place s (record_key record))) (cr_cursor record) = true) ->
  place s' (record_key record) = (Some (cr_cursor record), false) ->
  (forall x, x ≠ record_key record -> place s' x = place s x \/ place s' x = (None, snd (place s x))) ->
  follow (place s k) (omap (mark_of k) (new_publications s s') ++ (if jstr_eqb (record_key record) k then became_lost k s s' else forgot k s s')) =
    Some (place s' k).
Proof.
  intros Hp Hm Hc Hk Ho. rewrite (new_publications_one _ _ _ Hp). cbn [omap list_omap]. rewrite Hm. destruct (jstr_eqb (record_key record) k) eqn:Ek.
  - apply bool_decide_eq_true in Ek as <-. rewrite Hk. unfold became_lost. rewrite Hk. cbn [snd]. rewrite andb_false_r, app_nil_r.
    destruct lost; cbn [follow follow_mark]; [done|]. by destruct (Hc eq_refl) as [-> ->].
  - apply forgot_follows, Ho. intros ->. by rewrite jstr_eqb_refl in Ek.
Qed.

Lemma durable_follows s record : live_client s -> valid_record record ->
  live_client (cursor_step s (CDurable record)) /\
  (forall k, follow (place s k) (marks k s (CDurable record)) = Some (place (cursor_step s (CDurable record)) k)) /\
  (snd (place s (record_key record)) = false -> continues (fst (place s (record_key record))) (cr_cursor record) = true ->
    cl_published (cursor_step s (CDurable record)) = cl_published s ++ [PDurable (record_key record) (cr_cursor record)]).
Proof.
  intros [Hj Hc] Hv. set (key := record_key record). unfold marks. set (s' := cursor_step s (CDurable record)).
  assert (s' = s \/ s' = markDesynced s key \/
    s' = publish (fst (take_cursor s record false)) (PDurable key (cr_cursor record)) /\ snd (place s key) = false /\
      continues (fst (place s key)) (cr_cursor record) = true) as Hcases.
  { unfold s', cursor_step. rewrite Hc. unfold accept_durable. fold key. destruct (take_cursor_spec s record false Hv Hj) as (Ht & _).
    destruct (take_cursor s record false) as [st r]. cbn [fst snd] in *. subst r. cbn. unfold continues, key.
    destruct (map_get _ _) as [c0|]; destruct (is_desynced s _); cbn; rewrite ?orb_true_r, ?orb_false_r, ?andb_true_r; auto.
    all: destruct (jstr_eqb _ _); cbn; auto; destruct (seq _ <=? _); auto; destruct (_ =? _); cbn; auto. }
  assert ((forall k, follow (place s k) (omap (mark_of k) (new_publications s s') ++ (if jstr_eqb key k then became_lost k s s' else forgot k s s')) =
    Some (place s' k)) /\ live_client s') as [Hf Hl].
  { destruct Hcases as [->|[->|(-> & Hd & Hn)]].
    - split; [|done]. intros k. rewrite new_publications_same by done. cbn [omap list_omap app].
      destruct (jstr_eqb key k); [by apply became_lost_follows|apply forgot_follows; auto].
    - destruct (markDesynced_place s key key) as (_ & E1 & E2 & E3). split; [|split; congruence]. intros k. rewrite new_publications_same by done. apply desync_follows.
    - destruct (take_cursor_spec s record false Hv Hj) as (_ & H1 & H2 & H3 & H4 & H5). split; [|split; [done|by cbn; rewrite H3]]. intros k.
      apply (taken_follows k s _ record (PDurable key (cr_cursor record)) false); [by cbn; rewrite H2|done|done| |exact H5].
      transitivity (Some (cr_cursor record), is_desynced s (record_key record)); [exact H4|]. f_equal. exact Hd. }
  split_and!; [done|done|]. intros Hd Hn. unfold s', cursor_step. rewrite Hc. unfold accept_durable. fold key.
  destruct (take_cursor_spec s record false Hv Hj) as (Ht & _ & Hp & _). destruct (take_cursor s record false) as [st r]. cbn [fst snd] in *. subst r.
  cbn in Hd, Hn. rewrite Hd. unfold continues in Hn. destruct (map_get key _) as [c0|]; [|cbn; by rewrite Hp].
  apply andb_prop in Hn as [-> Hq]. cbn [negb]. apply Z.eqb_eq in Hq. rewrite Hq. rewrite Z.eqb_refl.
  destruct (Z.leb_spec (seq c0 + 1) (seq c0)); [lia|]. cbn. by rewrite Hp.
Qed.

Lemma snapshot_recovered_same s key : let s' := snapshot_recovered s key in
  cl_journal s' = cl_journal s /\ cl_desynced s' = cl_desynced s /\ cl_published s' = cl_published s /\ cl_closed s' = cl_closed s.
Proof. unfold snapshot_recovered. repeat case_match; done. Qed.

Lemma snapshot_follows s record : live_client s -> valid_record record ->
  live_client (cursor_step s (CSnapshot record)) /\
  (forall k, follow (place s k) (marks k s (CSnapshot record)) = Some (place (cursor_step s (CSnapshot record)) k)) /\
  place (cursor_step s (CSnapshot record)) (record_key record) = (Some (cr_cursor record), false).
Proof.
  intros [Hj Hc] Hv. set (key := record_key record). unfold marks. set (s' := cursor_step s (CSnapshot record)).
  destruct (snapshot_recovered_same s key) as (R1 & R2 & R3 & R4).
  set (s1 := with_desynced (snapshot_recovered s key) (List.filter (fun k => negb (jstr_eqb k key)) (cl_desynced (snapshot_recovered s key)))).
  assert (memory_ok (cl_journal s1)) as Hj1 by (cbn; by rewrite R1).
  destruct (take_cursor_spec s1 record true Hv Hj1) as (Ht & H1 & H2 & H3 & H4 & H5).
  assert (s' = publish (fst (take_cursor s1 record true)) (PSnapshot key (cr_cursor record))) as ->.
  { unfold s', cursor_step. rewrite Hc. unfold acceptSnapshot. cbv zeta. fold key. fold s1. destruct (take_cursor s1 record true) as [st r]. cbn [fst snd] in *. by subst r. }
  assert (forall x, is_desynced s1 x = negb (jstr_eqb x key) && is_desynced s x) as Hdes.
  { intros x. apply eq_true_iff_eq. rewrite andb_true_iff, !is_desynced_eq. unfold s1. cbn [with_desynced cl_desynced]. rewrite R2, elem_of_filter_list. tauto. }
  assert (place (publish (fst (take_cursor s1 record true)) (PSnapshot key (cr_cursor record))) key = (Some (cr_cursor record), false)) as Hkey.
  { transitivity (Some (cr_cursor record), is_desynced s1 key); [exact H4|]. by rewrite Hdes, jstr_eqb_refl. }
  split_and!; [split; [done|cbn; rewrite H3; cbn; congruence]| |done].
  intros k. apply (taken_follows k s _ record (PSnapshot key (cr_cursor record)) true); [cbn; by rewrite H2; cbn; rewrite R3|done|done|done|].
  intros x Hx. assert (place s1 x = place s x) as E.
  { unfold place. rewrite Hdes. unfold jstr_eqb. rewrite bool_decide_eq_false_2 by done. cbn. by rewrite R1. }
  rewrite <- E. exact (H5 x Hx).
Qed.

Lemma welcome_follows s ep : live_client s -> live_client (cursor_step s (CWelcome ep)) /\
  forall k, follow (place s k) (marks k s (CWelcome ep)) = Some (place (cursor_step s (CWelcome ep)) k).
Proof.
  intros [Hj Hc]. unfold marks, cursor_step. rewrite Hc. unfold welcome_epoch. destruct (cl_epoch s) as [current|]; [|by split].
  destruct (jstr_eqb current ep); [by split|]. destruct (reset_ok (cl_journal s) ep Hj) as [Hok Hk]. split; [by split|]. intros k.
  cbn [follow follow_mark]. set (s' := mkCursorClient _ _ _ _ _ _ _ _ _ _).
  pose proof (forgot_follows k (with_desynced s []) s') as Hf. apply Hf. destruct (Hk k) as [E|E]; [left|right]; unfold place; cbn; by rewrite E.
Qed.

Lemma cursor_step_follows s ev : live_client s -> valid_event ev -> live_client (cursor_step s ev) /\
  forall k, follow (place s k) (marks k s ev) = Some (place (cursor_step s ev) k).
Proof.
  intros Hl Hv. pose proof Hl as [Hj Hc]. destruct ev as [ep|record|record| |host session|generation|key saved|records].
  - by apply welcome_follows.
  - destruct (snapshot_follows s record Hl Hv) as (H1 & H2 & _). done.
  - destruct (durable_follows s record Hl Hv) as (H1 & H2 & _). done.
  - unfold marks, cursor_step. rewrite Hc. done.
  - unfold marks, cursor_step. rewrite Hc. set (key := sessionKey host session). destruct (markDesynced_place s key key) as (_ & E1 & _ & E3).
    split; [split; cbn; congruence|]. intros k. pose proof (desync_follows k s key) as Hd. destruct (jstr_eqb key k) eqn:Ek; [exact Hd|].
    destruct (markDesynced_place s key k) as (E & _). cbn [follow]. f_equal. symmetry. transitivity (place (markDesynced s key) k); [done|].
    rewrite E, jstr_eqb_sym, Ek, orb_false_r. by destruct (place s k).
  - by split.
  - unfold marks, cursor_step. destruct (resume_memory (cl_journal s) key saved) as [E1 E2]. split; [split; [|done]; by eapply same_memory_ok|].
    intros k. cbn [follow]. f_equal. unfold place. cbn. by rewrite E2.
  - unfold marks, cursor_step. destruct (loaded_memory (cl_journal s) records Hj) as [Hok Hk]. split; [by split|]. intros k. unfold place. cbn [fst with_journal cl_journal].
    destruct (Hk k) as [E|[c E]]; rewrite E; [|done]. clear Hk E. destruct (map_get k (cj_bySession (cl_journal s))); reflexivity.
Qed.

Lemma run_follows evs s k : live_client s -> Forall valid_event evs ->
  live_client (run_cursors s evs) /\ follow (place s k) (session_marks k s evs) = Some (place (run_cursors s evs) k).
Proof.
  intros Hl Hv. revert s Hl. induction Hv as [|ev evs Hev _ IH]; intros s Hl; [done|]. destruct (cursor_step_follows s ev Hl Hev) as [H1 H2].
  destruct (IH _ H1) as [H3 H4]. split; [done|]. cbn [session_marks]. by rewrite follow_app, H2.
Qed.

Lemma new_client_live store : live_client (new_cursor_client store).
Proof. split; [|done]. constructor; [apply NoDup_nil_2|done]. Qed.


(** ** Samples *)

Definition sample_seq (session : string) (n : Z) : CursorRecord := mkCursorRecord (js "h") (js session) (mkCursor (js "e") n).
Definition sample_cursor_events : list CursorEvent :=
  [CWelcome (js "e"); CSnapshot (sample_seq "a" 4); CDurable (sample_seq "a" 5); CDurable (sample_seq "b" 9); CDurable (sample_seq "a" 5);
   CDurable (sample_seq "a" 7); CDurable (sample_seq "a" 6); CDurable (sample_seq "b" 10); CSnapshot (sample_seq "a" 8); CDurable (sample_seq "a" 9)].


(** A session that skipped a frame stays lost through a reconnection that resumes from its journal cursor: the host replays exactly
    the missing frames, and every one of them is dropped. *)
Example replay_does_not_recover :
  let s := run_cursors (new_cursor_client false) [CWelcome (js "e"); CSnapshot (sample_seq "a" 4); CDurable (sample_seq "a" 6); CReconnected 2; CWelcome (js "e")] in
  let s' := run_cursors s [CDurable (sample_seq "a" 5); CDurable (sample_seq "a" 6); CDurable (sample_seq "a" 7)] in
  place s (sessionKey (js "h") (js "a")) = (Some (mkCursor (js "e") 4), true) /\ cl_published s' = cl_published s.
Proof. vm_compute. auto. Qed.
