(* ===== verification/WriterLease.v ===== *)
(** * WriterLease: one writing pod per runtime
    ([packages/cluster-server/src/session-writer-lease.ts])

    An operation of the authority is a small state machine: it sends a request, is suspended
    until the response arrives, and [resume] takes it on.  The response is what [api.request]
    returns or throws: a value, a [KubernetesApiError] with its status or another error.  Leases
    are the JSON objects the server sends; a [spec] that is present is an object. *)
From stdpp Require Import base tactics option list numbers strings sets.
From S2P Require Import Prelude JsMap JsString JsValue WireGuards WireFrames HostProjection.

Definition WRITER_LEASE_GENERATION_ANNOTATION : jstr := js "cluster.t4.dev/runtime-generation".
Definition MAX_CONFLICT_RETRIES : nat := 8.

Record WriterLeaseIdentity := mkLeaseIdentity {
  wi_namespace : jstr;
  wi_leaseName : jstr;
  wi_podUid : jstr;
  wi_generation : jstr;
}.

(** ** Validation *)

(** [/^[a-z0-9](?:[-a-z0-9]{0,251}[a-z0-9])?$/u] *)
Definition is_dns_label (value : jstr) : bool :=
  match value with
  | [] => false
  | c :: rest =>
      is_lower_alnum c && forallb (fun u => is_lower_alnum u || (u =? 0x2D)%N) rest && (len rest <=? 252) &&
      match last_of value with Some e => is_lower_alnum e | None => false end
  end.

Definition checked (ok : bool) (value name : jstr) : attempt jstr := if ok then Done value else Threw (name ++ js " is invalid").
Definition dns (value name : jstr) : attempt jstr := checked (is_dns_label value) value name.

(** [/^[A-Za-z0-9-]{8,128}$/u] *)
Definition is_pod_uid (value : jstr) : bool :=
  forallb (fun u => is_alnum u || (u =? 0x2D)%N) value && (8 <=? len value) && (len value <=? 128).
(** [/^gen_[A-Za-z0-9_-]{24}$/u] *)
Definition is_generation (value : jstr) : bool :=
  starts_with (js "gen_") value && forallb (fun u => is_alnum u || (u =? 0x5F)%N || (u =? 0x2D)%N) (drop 4 value) && (len value =? 28).

(** ** Leases *)

Definition nonempty_text (v : jv) : bool := match v with JStr s => negb (len s =? 0) | _ => false end.
Definition text_of (v : jv) : jstr := match v with JStr s => s | _ => [] end.

Definition lease_metadata (lease : json_object) : json_object := osub (js "metadata") lease.
Definition lease_uid (lease : json_object) : jv := prop (js "uid") (lease_metadata lease).
Definition lease_version (lease : json_object) : jv := prop (js "resourceVersion") (lease_metadata lease).
Definition lease_generation (lease : json_object) : jv :=
  prop WRITER_LEASE_GENERATION_ANNOTATION (osub (js "annotations") (lease_metadata lease)).
Definition lease_holder (lease : json_object) : jv := prop (js "holderIdentity") (osub (js "spec") lease).

Definition leaseResource (value : jv) (expectedName : jstr) : attempt json_object :=
  match value with
  | JObj lease =>
      if is_string (prop (js "apiVersion") lease) (js "coordination.k8s.io/v1") && is_string (prop (js "kind") lease) (js "Lease") &&
         is_string (prop (js "name") (lease_metadata lease)) expectedName && nonempty_text (lease_uid lease) &&
         nonempty_text (lease_version lease)
      then Done lease else Threw (js "writer Lease response identity is invalid")
  | _ => Threw (js "writer Lease response is invalid")
  end.

(** ** Requests and responses *)

Inductive LeaseRequest := GetLease | PutLease (lease : json_object).
Inductive LeaseFailure := KubernetesApiError (status : Z) | PlainError (message : jstr).
Inductive LeaseResponse := Answer (value : jv) | Failure (error : LeaseFailure).
Inductive LeaseOutcome := Acquired | Held (held : bool) | Released | Raised (error : LeaseFailure).

Definition is_status (error : LeaseFailure) (status : Z) : bool :=
  match error with KubernetesApiError s => s =? status | PlainError _ => false end.

(** [leaseResource(await this.#api.request(...), name)] *)
Definition received (response : LeaseResponse) (name : jstr) : json_object + LeaseFailure :=
  match response with
  | Answer value => match leaseResource value name with Done lease => inl lease | Threw m => inr (PlainError m) end
  | Failure error => inr error
  end.

(** ** The authority *)

(** Where an operation is suspended. *)
Inductive Operation :=
| Idle
| AcquireRead (tries : nat)
| AcquirePut (tries : nat) (current : json_object)
| VerifyRead (acquiredUid : jstr)
| ReleaseRead (tries : nat) (acquiredUid : jstr)
| ReleasePut (tries : nat) (acquiredUid : jstr).

Record Authority := mkAuthority {
  wa_identity : WriterLeaseIdentity;
  wa_acquiredLeaseUid : option jstr;
  wa_operation : Operation;
}.
Implicit Types (a : Authority) (error : LeaseFailure).

Definition new_authority (identity : WriterLeaseIdentity) : attempt Authority :=
  match dns (wi_namespace identity) (js "writer Lease namespace"), dns (wi_leaseName identity) (js "writer Lease name"),
        checked (is_pod_uid (wi_podUid identity)) (wi_podUid identity) (js "Pod UID"),
        checked (is_generation (wi_generation identity)) (wi_generation identity) (js "runtime generation") with
  | Threw m, _, _, _ | _, Threw m, _, _ | _, _, Threw m, _ | _, _, _, Threw m => Threw m
  | Done n, Done l, Done p, Done g => Done (mkAuthority (mkLeaseIdentity n l p g) None Idle)
  end.

(** Namespace and name hold no character that [encodeURIComponent] changes. *)
Definition lease_path (identity : WriterLeaseIdentity) : jstr :=
  js "/apis/coordination.k8s.io/v1/namespaces/" ++ wi_namespace identity ++ js "/leases/" ++ wi_leaseName identity.

Definition acquired a : bool := match wa_acquiredLeaseUid a with Some _ => true | None => false end.

Definition podUid a : jstr := wi_podUid (wa_identity a).
Definition set_operation a (op : Operation) : Authority := mkAuthority (wa_identity a) (wa_acquiredLeaseUid a) op.
Definition set_acquired a (uid : option jstr) : Authority := mkAuthority (wa_identity a) uid (wa_operation a).

(** A step of an operation: the next request, or how it ends. *)
Abbreviation lease_step := (Authority * (LeaseRequest + LeaseOutcome))%type.
Definition request a (op : Operation) (r : LeaseRequest) : lease_step := (set_operation a op, inl r).
Definition finish a (o : LeaseOutcome) : lease_step := (set_operation a Idle, inr o).
Definition raise a (m : jstr) : lease_step := finish a (Raised (PlainError m)).

Definition same_generation a (lease : json_object) : bool := is_string (lease_generation lease) (wi_generation (wa_identity a)).
Definition held_by a (uid : jstr) (lease : json_object) : bool :=
  is_string (lease_uid lease) uid && same_generation a lease && is_string (lease_holder lease) (podUid a).

(** [??]: a default for [undefined] and [null]. *)
Definition nullish (v default : jv) : jv := match v with JUndef | JNull => default | _ => v end.

(** ** Acquiring *)

Definition acquire_attempt a (tries : nat) : lease_step :=
  if (tries <? MAX_CONFLICT_RETRIES)%nat then request a (AcquireRead tries) GetLease
  else raise a (js "writer Lease acquisition conflicted repeatedly").
Definition acquire a : lease_step := acquire_attempt a 0.

Definition stale_error : jstr := js "writer Lease belongs to a stale runtime generation".

(** [{ ...current, metadata: ..., spec: { ...current.spec, ... } }] *)
Definition acquired_lease a (current : json_object) (now : jstr) : json_object :=
  let spec := osub (js "spec") current in
  let transitions := match prop (js "leaseTransitions") spec with
                     | JNum n => match num_safe_integer n with Some t => t + 1 | None => 1 end | _ => 1 end in
  oset (js "spec") (JObj (oset (js "leaseTransitions") (JNum (num_of_Z transitions)) (oset (js "renewTime") (JStr now)
    (oset (js "acquireTime") (JStr now) (oset (js "holderIdentity") (JStr (podUid a)) spec))))) current.

Definition acquire_read a (tries : nat) (response : LeaseResponse) (now : jstr) : lease_step :=
  match received response (wi_leaseName (wa_identity a)) with
  | inr error => finish a (Raised error)
  | inl current =>
      let holder := nullish (lease_holder current) (JStr []) in
      if negb (same_generation a current) then raise a stale_error
      else if truthy holder && negb (is_string holder (podUid a)) then raise a (js "writer Lease is held by another Pod")
      else if is_string holder (podUid a) then finish (set_acquired a (Some (text_of (lease_uid current)))) Acquired
      else request a (AcquirePut tries current) (PutLease (acquired_lease a current now))
  end.

Definition acquire_put a (tries : nat) (current : json_object) (response : LeaseResponse) : lease_step :=
  match received response (wi_leaseName (wa_identity a)) with
  | inr error => if is_status error 409 then acquire_attempt a (S tries) else finish a (Raised error)
  | inl lease =>
      if negb (same_generation a lease) then raise a stale_error
      else if negb (is_string (lease_uid lease) (text_of (lease_uid current)))
           then raise a (js "writer Lease identity changed during acquisition")
      else if negb (is_string (lease_holder lease) (podUid a)) then raise a (js "writer Lease acquisition was not persisted")
      else finish (set_acquired a (Some (text_of (lease_uid lease)))) Acquired
  end.

(** ** Verifying *)

Definition verifyHeld a : lease_step :=
  match wa_acquiredLeaseUid a with
  | Some uid => if len uid =? 0 then finish a (Held false) else request a (VerifyRead uid) GetLease
  | None => finish a (Held false)
  end.

Definition verify_read a (uid : jstr) (response : LeaseResponse) : lease_step :=
  match received response (wi_leaseName (wa_identity a)) with
  | inr error => if is_status error 404 then finish (set_acquired a None) (Held false) else finish a (Raised error)
  | inl current => if held_by a uid current then finish a (Held true) else finish (set_acquired a None) (Held false)
  end.

(** ** Releasing *)

(** Leaving the [try] block by whatever way: the [finally] block forgets the lease. *)
Definition finally a (o : LeaseOutcome) : lease_step := finish (set_acquired a None) o.

Definition release_attempt a (tries : nat) (uid : jstr) : lease_step :=
  if (tries <? MAX_CONFLICT_RETRIES)%nat then request a (ReleaseRead tries uid) GetLease
  else finally a (Raised (PlainError (js "writer Lease release conflicted repeatedly"))).
Definition release a : lease_step :=
  match wa_acquiredLeaseUid a with
  | Some uid => if len uid =? 0 then finish a Released else release_attempt a 0 uid
  | None => finish a Released
  end.

Definition released_lease (current : json_object) : json_object :=
  oset (js "spec") (JObj (oset (js "renewTime") JNull (oset (js "acquireTime") JNull (oset (js "holderIdentity") JNull
    (osub (js "spec") current))))) current.

Definition release_read a (tries : nat) (uid : jstr) (response : LeaseResponse) : lease_step :=
  match received response (wi_leaseName (wa_identity a)) with
  | inr error => if is_status error 404 then finally a Released else finally a (Raised error)
  | inl current =>
      if held_by a uid current then request a (ReleasePut tries uid) (PutLease (released_lease current)) else finally a Released
  end.

Definition release_put a (tries : nat) (uid : jstr) (response : LeaseResponse) : lease_step :=
  match received response (wi_leaseName (wa_identity a)) with
  | inr error => if is_status error 409 then release_attempt a (S tries) uid else finally a (Raised error)
  | inl lease =>
      if negb (is_string (lease_uid lease) uid) || negb (same_generation a lease) || truthy (lease_holder lease)
      then finally a (Raised (PlainError (js "writer Lease release was not persisted")))
      else finally a Released
  end.

(** ** Going on with a response *)

Definition resume a (response : LeaseResponse) (now : jstr) : option lease_step :=
  match wa_operation a with
  | Idle => None
  | AcquireRead tries => Some (acquire_read a tries response now)
  | AcquirePut tries current => Some (acquire_put a tries current response)
  | VerifyRead uid => Some (verify_read a uid response)
  | ReleaseRead tries uid => Some (release_read a tries uid response)
  | ReleasePut tries uid => Some (release_put a tries uid response)
  end.
