(* ===== verification/WriterLeaseSpec.v ===== *)
(** * WriterLeaseSpec: at most one writer, and operations that end

    The Kubernetes API server is the class [LeaseServer] with its documented optimistic
    concurrency as laws.  Any number of authorities, each running its operations one after the
    other, talk to it over a network that loses and delays messages. *)
From stdpp Require Import base tactics option list numbers strings sets relations.
From S2P Require Import Prelude JsMap JsString JsValue WireGuards WireFrames HostProjection JsObject WriterLease.

(** The holder as [acquire] reads it: absent and null are empty. *)
Definition holder (lease : json_object) : jv := nullish (lease_holder lease) (JStr []).

(** ** The server *)

Class LeaseServer (S : Type) := {
  ls_lease : S -> option json_object;
  ls_used : S -> jv -> Prop;
  ls_get : S -> LeaseResponse;
  ls_put : S -> json_object -> S * LeaseResponse;
}.

(** A write is refused unless it carries the current resource version; a write that changes the
    object gets a version never used before. *)
Class LeaseServerLaws (S : Type) `{LeaseServer S} : Prop := {
  used_current : forall s lease, ls_lease s = Some lease -> ls_used s (lease_version lease);
  get_current : forall s lease, ls_get s = Answer (JObj lease) -> ls_lease s = Some lease;
  put_cases : forall s lease,
    (exists error, ls_put s lease = (s, Failure error)) \/
    exists current, ls_lease s = Some current /\ lease_version lease = lease_version current /\
      ((holder lease = holder current /\ ls_put s lease = (s, Answer (JObj current))) \/
       exists s' stored, ls_put s lease = (s', Answer (JObj stored)) /\ ls_lease s' = Some stored /\ holder stored = holder lease /\
         ~ ls_used s (lease_version stored) /\ forall v, ls_used s v -> ls_used s' v);
}.

(** ** The system *)

Inductive Wire := Quiet | Sent (r : LeaseRequest) | Answered (r : LeaseResponse).

(** An authority, the message it waits for, and whether it was ever asked to release. *)
Record Node := mkNode { n_authority : Authority; n_wire : Wire; n_released : bool }.
Definition node_uid (n : Node) : jstr := podUid (n_authority n).

Definition node_after (st : lease_step) (released : bool) : Node :=
  mkNode (fst st) (match snd st with inl r => Sent r | inr _ => Quiet end) released.

Section System.
Context {S : Type} `{LeaseServerLaws S}.
Implicit Types (s : S) (n : Node) (lease current : json_object).

Record System := mkSystem { sys_server : S; sys_nodes : list Node; sys_late : list (nat * LeaseRequest) }.
Implicit Types (sys : System).

Definition serve s (r : LeaseRequest) : S * LeaseResponse :=
  match r with GetLease => (s, ls_get s) | PutLease lease => ls_put s lease end.

Definition set_node sys (i : nat) (n : Node) : System := mkSystem (sys_server sys) (<[i := n]> (sys_nodes sys)) (sys_late sys).

(** What others do to the lease: edit it without touching its holder, create it, or delete one
    that nobody holds. *)
Definition others s s' : Prop :=
  (forall v, ls_used s v -> ls_used s' v) /\
  match ls_lease s, ls_lease s' with
  | Some current, Some lease => lease = current \/ (holder lease = holder current /\ ~ ls_used s (lease_version lease))
  | Some current, None => truthy (holder current) = false
  | None, Some lease => ~ ls_used s (lease_version lease)
  | None, None => True
  end.

(** A request is served at any time after it is sent, or never; a waiting authority may get an
    error instead of its response, and the request may still be served later, even repeatedly.
    An authority is not asked to acquire again once it was asked to release. *)
Inductive lease_net : System -> System -> Prop :=
| net_acquire sys i n : sys_nodes sys !! i = Some n -> n_wire n = Quiet -> n_released n = false ->
    lease_net sys (set_node sys i (node_after (acquire (n_authority n)) false))
| net_verify sys i n : sys_nodes sys !! i = Some n -> n_wire n = Quiet ->
    lease_net sys (set_node sys i (node_after (verifyHeld (n_authority n)) (n_released n)))
| net_release sys i n : sys_nodes sys !! i = Some n -> n_wire n = Quiet ->
    lease_net sys (set_node sys i (node_after (release (n_authority n)) true))
| net_serve sys i n r : sys_nodes sys !! i = Some n -> n_wire n = Sent r ->
    lease_net sys (mkSystem (fst (serve (sys_server sys) r))
      (<[i := mkNode (n_authority n) (Answered (snd (serve (sys_server sys) r))) (n_released n)]> (sys_nodes sys)) (sys_late sys))
| net_deliver sys i n r now st : sys_nodes sys !! i = Some n -> n_wire n = Answered r ->
    resume (n_authority n) r now = Some st -> lease_net sys (set_node sys i (node_after st (n_released n)))
| net_lose sys i n r error now st : sys_nodes sys !! i = Some n -> n_wire n = Answered r ->
    resume (n_authority n) (Failure error) now = Some st -> lease_net sys (set_node sys i (node_after st (n_released n)))
| net_abandon sys i n r error now st : sys_nodes sys !! i = Some n -> n_wire n = Sent r ->
    resume (n_authority n) (Failure error) now = Some st ->
    lease_net sys (mkSystem (sys_server sys) (<[i := node_after st (n_released n)]> (sys_nodes sys)) ((i, r) :: sys_late sys))
| net_late sys i r : (i, r) ∈ sys_late sys ->
    lease_net sys (mkSystem (fst (serve (sys_server sys) r)) (sys_nodes sys) (sys_late sys))
| net_others sys s' : others (sys_server sys) s' -> lease_net sys (mkSystem s' (sys_nodes sys) (sys_late sys)).

(** The pods before they do anything. *)
Definition start_node (identity : WriterLeaseIdentity) : Node := mkNode (mkAuthority identity None Idle) Quiet false.
Definition start_system s (identities : list WriterLeaseIdentity) : System := mkSystem s (map start_node identities) [].

(** A pod writes while it believes it has the lease and has not begun to release it. *)
Definition writer sys (i : nat) (pod : jstr) : Prop :=
  exists n, sys_nodes sys !! i = Some n /\ node_uid n = pod /\ acquired (n_authority n) = true /\ n_released n = false.

(** ** The invariant *)

Definition holds s (pod : jstr) : Prop := exists lease, ls_lease s = Some lease /\ holder lease = JStr pod.

(** [lease] was read from the server: while its version is current its holder is. *)
Definition seen s lease : Prop := ls_used s (lease_version lease) /\
  forall current, ls_lease s = Some current -> lease_version current = lease_version lease -> holder current = holder lease.

Definition response_ok s (pod : jstr) (released : bool) (r : LeaseResponse) : Prop :=
  forall lease, r = Answer (JObj lease) -> seen s lease /\ (released = false -> holder lease = JStr pod -> holds s pod).

(** A write in flight takes a free lease, or gives up one that the pod holds. *)
Definition request_ok s (pod : jstr) (released : bool) (r : LeaseRequest) : Prop :=
  match r with
  | GetLease => True
  | PutLease lease => ls_used s (lease_version lease) /\
      ((holder lease = JStr pod /\
        forall current, ls_lease s = Some current -> lease_version current = lease_version lease -> truthy (holder current) = false) \/
       (released = true /\ holder lease = JStr [] /\
        forall current, ls_lease s = Some current -> lease_version current = lease_version lease -> holder current = JStr pod))
  end.

Definition wire_ok s n : Prop :=
  match n_wire n with
  | Quiet => True
  | Sent r => request_ok s (node_uid n) (n_released n) r
  | Answered r => response_ok s (node_uid n) (n_released n) r
  end.

Definition releasing (op : Operation) : bool := match op with ReleaseRead _ _ | ReleasePut _ _ => true | _ => false end.

Record authority_ok s (a : Authority) (released : bool) : Prop := {
  ao_writer : acquired a = true -> released = false -> holds s (podUid a);
  ao_releasing : releasing (wa_operation a) = true -> released = true;
}.
Definition node_ok s n : Prop := authority_ok s (n_authority n) (n_released n) /\ wire_ok s n.

Record lease_inv (pods : list jstr) sys : Prop := {
  li_pods : map node_uid (sys_nodes sys) = pods;
  li_nodes : forall i n, sys_nodes sys !! i = Some n -> node_ok (sys_server sys) n;
  li_late : forall i r, (i, r) ∈ sys_late sys ->
    exists n, sys_nodes sys !! i = Some n /\ request_ok (sys_server sys) (node_uid n) (n_released n) r;
}.

(** ** The bodies of the writes *)

Lemma is_string_spec v t : is_string v t = true <-> v = JStr t.
Proof. unfold is_string. destruct v; try done. unfold jstr_eqb. rewrite bool_decide_eq_true. split; congruence. Qed.

Lemma nullish_string v t d : v = JStr t -> nullish v d = JStr t.
Proof. by intros ->. Qed.

Lemma acquired_lease_holder a current now : holder (acquired_lease a current now) = JStr (podUid a).
Proof.
  unfold acquired_lease. apply nullish_string. unfold lease_holder, osub at 1. rewrite prop_set_eq. by rewrite !prop_set_ne, prop_set_eq by done.
Qed.

Lemma released_lease_holder current : holder (released_lease current) = JStr [].
Proof.
  unfold released_lease, holder, lease_holder, osub at 1. rewrite prop_set_eq. by rewrite !prop_set_ne, prop_set_eq by done.
Qed.

Lemma set_spec_version v current : lease_version (oset (js "spec") v current) = lease_version current.
Proof. unfold lease_version, lease_metadata, osub. by rewrite prop_set_ne by done. Qed.

Lemma received_lease response name lease : received response name = inl lease -> response = Answer (JObj lease).
Proof. unfold received, leaseResource. destruct response as [[]|]; try done. destruct (_ && _); [|done]. by intros [= ->]. Qed.

(** ** One step of an authority *)

(** What a step of an authority must leave behind. *)
Definition step_ok s (pod : jstr) (released : bool) (st : lease_step) : Prop :=
  podUid (fst st) = pod /\ authority_ok s (fst st) released /\ forall q, snd st = inl q -> request_ok s pod released q.

Lemma finish_step_ok s released a a' o : authority_ok s a released -> podUid a' = podUid a ->
  (acquired a' = true -> released = false -> acquired a = true \/ holds s (podUid a)) -> step_ok s (podUid a) released (finish a' o).
Proof.
  intros [Hw _] Hp Ha. split; [done|]. split; [|done]. constructor; [|done]. intros Hac Hr. cbn in *. change (podUid (set_operation a' Idle)) with (podUid a').
  rewrite Hp. destruct (Ha Hac Hr); auto.
Qed.

Lemma request_step_ok s released a op r : authority_ok s a released -> (releasing op = true -> released = true) ->
  request_ok s (podUid a) released r -> step_ok s (podUid a) released (request a op r).
Proof. intros [Hw _] Hop Hr. split_and!; [done|constructor; [exact Hw|done]|]. by intros q [= <-]. Qed.

Lemma acquire_attempt_ok s released a tries : authority_ok s a released -> step_ok s (podUid a) released (acquire_attempt a tries).
Proof. intros Ha. unfold acquire_attempt. destruct (_ <? _)%nat; [by apply request_step_ok|apply finish_step_ok; auto]. Qed.

Lemma finally_ok s released a o : authority_ok s a released -> step_ok s (podUid a) released (finally a o).
Proof. intros Ha. by apply finish_step_ok. Qed.

Lemma release_attempt_ok s a tries uid : authority_ok s a true -> step_ok s (podUid a) true (release_attempt a tries uid).
Proof. intros Ha. unfold release_attempt. destruct (_ <? _)%nat; [by apply request_step_ok|]. by apply finally_ok. Qed.

Lemma acquire_read_ok s released a tries r now : authority_ok s a released -> response_ok s (podUid a) released r ->
  step_ok s (podUid a) released (acquire_read a tries r now).
Proof.
  intros Ha Hr. unfold acquire_read, raise. destruct (received r _) as [current|] eqn:Er; [|apply finish_step_ok; auto].
  apply received_lease in Er. destruct (Hr current Er) as [[Hu Hs] Hh]. fold (holder current).
  repeat (case_match; [apply finish_step_ok; auto|]).
  - intros _ Hrel. right. apply Hh; [done|]. by apply is_string_spec.
  - apply request_step_ok; [done|done|]. split; [by unfold acquired_lease; rewrite set_spec_version|left].
    split; [apply acquired_lease_holder|]. intros c Hc Hv. unfold acquired_lease in Hv. rewrite set_spec_version in Hv. rewrite (Hs c Hc Hv).
    by destruct (truthy (holder current)).
Qed.

Lemma acquire_put_ok s released a tries current r : authority_ok s a released -> response_ok s (podUid a) released r ->
  step_ok s (podUid a) released (acquire_put a tries current r).
Proof.
  intros Ha Hr. unfold acquire_put, raise. destruct (received r _) as [lease|] eqn:Er.
  2: { case_match; [by apply acquire_attempt_ok|apply finish_step_ok; auto]. }
  apply received_lease in Er. destruct (Hr lease Er) as [_ Hh]. repeat (case_match; [apply finish_step_ok; auto|]).
  apply finish_step_ok; auto. intros _ Hrel. right. apply Hh; [done|]. apply nullish_string, is_string_spec. by apply negb_false_iff.
Qed.

Lemma verify_read_ok s released a uid r : authority_ok s a released -> step_ok s (podUid a) released (verify_read a uid r).
Proof. intros Ha. unfold verify_read. repeat case_match; apply finish_step_ok; auto; done. Qed.

Lemma release_read_ok s a tries uid r : authority_ok s a true -> response_ok s (podUid a) true r ->
  step_ok s (podUid a) true (release_read a tries uid r).
Proof.
  intros Ha Hr. unfold release_read. destruct (received r _) as [current|] eqn:Er; [|case_match; by apply finally_ok].
  apply received_lease in Er. destruct (Hr current Er) as [[Hu Hs] _]. destruct (held_by a uid current) eqn:Eh; [|by apply finally_ok].
  apply request_step_ok; [done|done|]. split; [by unfold released_lease; rewrite set_spec_version|right]. split; [done|].
  split; [apply released_lease_holder|]. intros c Hc Hv. unfold released_lease in Hv. rewrite set_spec_version in Hv. rewrite (Hs c Hc Hv).
  apply nullish_string, is_string_spec. unfold held_by in Eh. by apply andb_prop in Eh as [_ ?].
Qed.

Lemma release_put_ok s a tries uid r : authority_ok s a true -> step_ok s (podUid a) true (release_put a tries uid r).
Proof. intros Ha. unfold release_put. repeat case_match; first [by apply finally_ok|by apply release_attempt_ok]. Qed.

Lemma resume_ok s released a r now st : authority_ok s a released -> response_ok s (podUid a) released r -> resume a r now = Some st ->
  step_ok s (podUid a) released st.
Proof.
  intros Ha Hr. unfold resume. destruct (wa_operation a) eqn:Eop; try done; intros [= <-].
  - by apply acquire_read_ok.
  - by apply acquire_put_ok.
  - by apply verify_read_ok.
  - assert (released = true) as -> by (apply (ao_releasing _ _ _ Ha); by rewrite Eop). by apply release_read_ok.
  - assert (released = true) as -> by (apply (ao_releasing _ _ _ Ha); by rewrite Eop). by apply release_put_ok.
Qed.

(** ** One step of the server *)

(** A version that was used before still names what it named. *)
Record evolves s s' : Prop := {
  ev_used : forall v, ls_used s v -> ls_used s' v;
  ev_current : forall lease', ls_lease s' = Some lease' -> ls_used s (lease_version lease') ->
    exists lease, ls_lease s = Some lease /\ lease_version lease = lease_version lease' /\ holder lease = holder lease';
}.

Lemma evolves_refl s : evolves s s.
Proof. constructor; eauto. Qed.

Lemma seen_evolves s s' lease : evolves s s' -> seen s lease -> seen s' lease.
Proof.
  intros [Hu Hc] [Hl Hs]. split; [auto|]. intros c' Hc' Hv. destruct (Hc c' Hc') as (c & Hlc & Hvc & Hh); [by rewrite Hv|].
  rewrite <- Hh. apply Hs; [done|congruence].
Qed.

Lemma request_evolves s s' pod released r : evolves s s' -> request_ok s pod released r -> request_ok s' pod released r.
Proof.
  intros [Hu Hc]. destruct r as [|lease]; [done|]. intros [Hl Hr]. split; [auto|].
  assert (forall Q : jv -> Prop, (forall c, ls_lease s = Some c -> lease_version c = lease_version lease -> Q (holder c)) ->
    forall c', ls_lease s' = Some c' -> lease_version c' = lease_version lease -> Q (holder c')) as Hmove.
  { intros Q HQ c' Hc' Hv. destruct (Hc c' Hc') as (c & Hlc & Hvc & Hh); [by rewrite Hv|]. rewrite <- Hh. apply HQ; [done|congruence]. }
  destruct Hr as [[Hh Hf]|(Hrel & Hh & Hf)]; [left|right].
  - split; [done|]. exact (Hmove (fun v => truthy v = false) Hf).
  - split_and!; [done|done|]. exact (Hmove (fun v => v = JStr pod) Hf).
Qed.

Lemma request_released s pod r : request_ok s pod false r -> request_ok s pod true r.
Proof. destruct r as [|lease]; [done|]. intros [Hu [Hl|[? _]]]; [|done]. split; [done|by left]. Qed.

Lemma truthy_uid (pod : jstr) : pod ≠ [] -> truthy (JStr pod) = true.
Proof. intros Hp. cbn. destruct (Z.eqb_spec (len pod) 0) as [E|]; [by apply len_zero_nil in E|done]. Qed.

(** Serving a request moves the server on, answers with what is stored, and takes the lease from
    nobody but a pod that released it. *)
Lemma serve_ok s pod released r : pod ≠ [] -> request_ok s pod released r ->
  evolves s (fst (serve s r)) /\
  (forall lease, snd (serve s r) = Answer (JObj lease) -> ls_lease (fst (serve s r)) = Some lease) /\
  (forall p, p ≠ [] -> holds s p -> holds (fst (serve s r)) p \/ p = pod /\ released = true).
Proof.
  intros Hne Hr. destruct r as [|lease]; cbn [serve].
  { split_and!; [apply evolves_refl| |by left]. intros l Hl. by apply get_current. }
  destruct Hr as [Hu Hr]. destruct (put_cases s lease) as [(e & ->)|(c & Hc & Hv & [[Hh ->]|(s' & st & -> & Hst & Hh & Hf & Hm)])].
  - split_and!; [apply evolves_refl|done|by left].
  - split_and!; [apply evolves_refl|by intros l [= <-]|by left].
  - split_and!; cbn [fst snd]; [|by intros l [= <-]|].
    + constructor; [done|]. intros l Hl. rewrite Hst in Hl. by injection Hl as <-.
    + intros p Hp (cur & Hcur & Hhold). rewrite Hc in Hcur. injection Hcur as <-. destruct Hr as [[Hl Hfree]|(Hrel & Hl & Hown)].
      * specialize (Hfree c Hc ltac:(done)). rewrite Hhold, truthy_uid in Hfree; done.
      * right. split; [|done]. specialize (Hown c Hc ltac:(done)). congruence.
Qed.

Lemma others_ok s s' : others s s' -> evolves s s' /\ forall p, p ≠ [] -> holds s p -> holds s' p.
Proof.
  intros [Hu Ho]. split.
  - constructor; [done|]. intros l' Hl' Hused. rewrite Hl' in Ho. destruct (ls_lease s) as [c|]; [|done].
    destruct Ho as [->|[_ Hn]]; [eauto|done].
  - intros p Hp (c & Hc & Hh). rewrite Hc in Ho. destruct (ls_lease s') as [l'|] eqn:El.
    + exists l'. split; [done|]. destruct Ho as [->|[Hx _]]; [done|congruence].
    + rewrite Hh, truthy_uid in Ho; done.
Qed.

(** ** The invariant holds *)

Context (pods : list jstr) (Hpods : NoDup pods) (Hnonempty : forall pod, pod ∈ pods -> pod ≠ []).

Lemma inv_pod sys i n : lease_inv pods sys -> sys_nodes sys !! i = Some n -> pods !! i = Some (node_uid n) /\ node_uid n ≠ [].
Proof.
  intros Hinv Hn. assert (pods !! i = Some (node_uid n)) as Hi by (rewrite <- (li_pods _ _ Hinv); by rewrite list_lookup_fmap, Hn).
  split; [done|]. eapply Hnonempty, list_elem_of_lookup_2, Hi.
Qed.

(** Whatever moves the server on without taking the lease from a writer keeps the invariant. *)
Lemma node_evolves s s' n : evolves s s' -> (n_released n = false -> holds s (node_uid n) -> holds s' (node_uid n)) ->
  node_ok s n -> node_ok s' n.
Proof.
  intros Hev Hh [[Hw Hrel] Hwire]. split; [constructor; [|done]; intros; apply Hh; [done|by apply Hw]|].
  unfold wire_ok in *. destruct (n_wire n) as [|r|r]; [done|by eapply request_evolves|].
  intros lease Hl. destruct (Hwire lease Hl) as [Hs Hp]. split; [by eapply seen_evolves|auto].
Qed.

Lemma inv_server sys s' : lease_inv pods sys -> evolves (sys_server sys) s' ->
  (forall i n, sys_nodes sys !! i = Some n -> n_released n = false -> holds (sys_server sys) (node_uid n) -> holds s' (node_uid n)) ->
  lease_inv pods (mkSystem s' (sys_nodes sys) (sys_late sys)).
Proof.
  intros [Hp Hn Hl] Hev Hh. constructor; [done| |].
  - intros i n Hi. eapply node_evolves; [done|by apply (Hh i)|by apply (Hn i)].
  - intros i r (n & Hi & Hr)%Hl. exists n. split; [done|by eapply request_evolves].
Qed.

(** Replacing a node by one of the same pod that keeps its own part of the invariant. *)
Lemma inv_set_node sys i n n' : lease_inv pods sys -> sys_nodes sys !! i = Some n -> node_uid n' = node_uid n ->
  (n_released n = true -> n_released n' = true) -> node_ok (sys_server sys) n' -> lease_inv pods (set_node sys i n').
Proof.
  intros Hinv Hi Hu Hrel Hok. pose proof Hinv as [Hp Hn Hl]. constructor.
  - cbn. rewrite <- Hp. apply list_eq. intros j. rewrite !list_lookup_fmap. destruct (decide (i = j)) as [<-|Hne].
    + rewrite list_lookup_insert_eq by (by eapply lookup_lt_Some). rewrite Hi. cbn. by rewrite Hu.
    + by rewrite list_lookup_insert_ne.
  - intros j m. cbn. intros [(-> & -> & _)|[_ Hj]]%list_lookup_insert_Some; [done|by apply (Hn j)].
  - intros j r. cbn. intros (m & Hj & Hr)%Hl. destruct (decide (i = j)) as [<-|Hne].
    + exists n'. rewrite list_lookup_insert_eq by (by eapply lookup_lt_Some). split; [done|]. rewrite Hi in Hj. injection Hj as <-.
      rewrite Hu. destruct (n_released n); [by rewrite Hrel|]. destruct (n_released n'); [by apply request_released|done].
    + exists m. by rewrite list_lookup_insert_ne.
Qed.

Lemma node_step sys i n st released : lease_inv pods sys -> sys_nodes sys !! i = Some n -> (n_released n = true -> released = true) ->
  step_ok (sys_server sys) (node_uid n) released st -> lease_inv pods (set_node sys i (node_after st released)).
Proof.
  intros Hinv Hi Hrel (Hu & Ha & Hq). eapply inv_set_node; [done|done|done|done|]. split; [done|].
  unfold wire_ok, node_after. cbn. destruct (snd st) as [q|o]; [|done]. unfold node_uid. cbn. rewrite Hu. by apply Hq.
Qed.

(** Every node keeps the lease it holds when a request of pod [pod] is served. *)
Lemma serve_keeps sys i n r : lease_inv pods sys -> sys_nodes sys !! i = Some n ->
  request_ok (sys_server sys) (node_uid n) (n_released n) r ->
  forall j m, sys_nodes sys !! j = Some m -> n_released m = false -> holds (sys_server sys) (node_uid m) ->
    holds (fst (serve (sys_server sys) r)) (node_uid m).
Proof.
  intros Hinv Hi Hr j m Hj Hrel Hh. destruct (inv_pod sys i n Hinv Hi) as [Hpi Hni]. destruct (inv_pod sys j m Hinv Hj) as [Hpj Hnj].
  destruct (serve_ok _ _ _ _ Hni Hr) as (_ & _ & Hk). destruct (Hk _ Hnj Hh) as [?|[E Hn]]; [done|].
  rewrite E in Hpj. assert (i = j) as -> by (by eapply NoDup_lookup). rewrite Hi in Hj. injection Hj as <-. congruence.
Qed.

Lemma release_start_ok s a released : authority_ok s a released -> step_ok s (podUid a) true (release a).
Proof.
  intros Ha. assert (authority_ok s a true) by (constructor; [done|by intros]). unfold release.
  destruct (wa_acquiredLeaseUid a) as [uid|]; [destruct (len uid =? 0)|]; [|by apply release_attempt_ok|]; apply finish_step_ok; auto.
Qed.

Lemma verify_start_ok s a released : authority_ok s a released -> step_ok s (podUid a) released (verifyHeld a).
Proof.
  intros Ha. unfold verifyHeld. destruct (wa_acquiredLeaseUid a) as [uid|]; [destruct (len uid =? 0)|]; [|by apply request_step_ok|]; apply finish_step_ok; auto.
Qed.

Lemma failure_ok s pod released error : response_ok s pod released (Failure error).
Proof. by intros lease. Qed.

Lemma lease_net_ok sys sys' : lease_inv pods sys -> lease_net sys sys' -> lease_inv pods sys'.
Proof.
  intros Hinv Hstep. pose proof (li_nodes _ _ Hinv) as Hn. destruct Hstep as [sys i n Hi Hw Hr|sys i n Hi Hw|sys i n Hi Hw|sys i n r Hi Hw
    |sys i n r now st Hi Hw Hres|sys i n r error now st Hi Hw Hres|sys i n r error now st Hi Hw Hres|sys i r Hl|sys s' Ho].
  - eapply node_step; [done..|congruence|]. apply acquire_attempt_ok. rewrite <- Hr. by apply (Hn i).
  - eapply node_step; [done..|]. apply verify_start_ok. by apply (Hn i).
  - eapply node_step; [done..|]. eapply release_start_ok. by apply (Hn i).
  - destruct (Hn i n Hi) as [Ha Hwire]. unfold wire_ok in Hwire. rewrite Hw in Hwire. destruct (inv_pod sys i n Hinv Hi) as [_ Hne].
    destruct (serve_ok _ _ _ _ Hne Hwire) as (Hev & Hans & _). pose proof (serve_keeps sys i n r Hinv Hi Hwire) as Hk.
    pose proof (inv_server sys _ Hinv Hev Hk) as Hinv'. eapply (inv_set_node _ i n _ Hinv'); [done..|].
    split; [apply (li_nodes _ _ Hinv' i n Hi)|]. intros lease Hl. specialize (Hans lease Hl). cbn [sys_server]. split.
    + split; [by apply used_current|]. intros c Hc _. by simplify_eq.
    + intros _ Hh. by exists lease.
  - destruct (Hn i n Hi) as [Ha Hwire]. unfold wire_ok in Hwire. rewrite Hw in Hwire. eapply node_step; [done..|]. by eapply resume_ok.
  - eapply node_step; [done..|]. eapply resume_ok; [by apply (Hn i)|apply failure_ok|done].
  - destruct (Hn i n Hi) as [Ha Hwire]. unfold wire_ok in Hwire. rewrite Hw in Hwire.
    assert (step_ok (sys_server sys) (node_uid n) (n_released n) st) as Hst by (eapply resume_ok; [done|apply failure_ok|done]).
    pose proof (node_step sys i n st (n_released n) Hinv Hi id Hst) as [Hp' Hn' Hl']. constructor; [done|done|]. cbn in *.
    intros j q [[= -> ->]|Hq]%elem_of_cons; [|by apply Hl']. exists (node_after st (n_released n)).
    rewrite list_lookup_insert_eq by (by eapply lookup_lt_Some). split; [done|]. destruct Hst as (Hu & _). unfold node_uid, node_after in *. cbn in *. by rewrite Hu.
  - destruct (li_late _ _ Hinv i r Hl) as (n & Hi & Hr). destruct (inv_pod sys i n Hinv Hi) as [_ Hne].
    destruct (serve_ok _ _ _ _ Hne Hr) as (Hev & _ & _). by apply inv_server, (serve_keeps sys i n r).
  - destruct (others_ok _ _ Ho) as [Hev Hh]. apply inv_server; [done|done|]. intros i n Hi _. apply Hh. by eapply inv_pod.
Qed.
End System.
Arguments System S : clear implicits.

(** ** Exclusion *)

Lemma start_inv {S} `{LeaseServerLaws S} (s : S) identities : lease_inv (map wi_podUid identities) (start_system s identities).
Proof.
  constructor.
  - cbn. by rewrite map_map.
  - intros i n (identity & -> & _)%list_lookup_fmap_Some. split; [by constructor|done].
  - intros i r Hr. by apply not_elem_of_nil in Hr.
Qed.

Lemma accepted_uid identity a : new_authority identity = Done a -> wi_podUid identity ≠ [].
Proof.
  unfold new_authority, checked. intros Ha Hn. rewrite Hn in Ha. change (is_pod_uid []) with false in Ha.
  destruct (dns (wi_namespace identity) _); [|done]. by destruct (dns (wi_leaseName identity) _).
Qed.

(** C4: At most one pod writes.  Let any number of authorities with accepted identities and
    distinct pod UIDs share a Lease on a server with optimistic concurrency, whatever the
    network does: requests are delayed, responses lost, abandoned requests served later or
    several times, the Lease edited by others that do not touch its holder.  As long as no
    authority acquires again after it began to release, a pod that believes it has the Lease and
    has not begun to release it is the Lease's holder on the server, so no two pods do. *)
Theorem writers_exclusive {S} `{LeaseServerLaws S} (s : S) identities sys :
  Forall (fun identity => exists a, new_authority identity = Done a) identities -> NoDup (map wi_podUid identities) ->
  rtc lease_net (start_system s identities) sys ->
  (forall i pod, writer sys i pod -> holds (sys_server sys) pod) /\
  (forall i j p q, writer sys i p -> writer sys j q -> i = j /\ p = q).
Proof.
  intros Hids Hnd Hrun. assert (lease_inv (map wi_podUid identities) sys) as Hinv.
  { pose proof (start_inv s identities) as Hstart. revert Hstart. induction Hrun as [|x y z Hxy _ IH]; [done|]. intros Hx. apply IH.
    eapply lease_net_ok; [done| |done|done]. intros pod (identity & -> & Hin)%list_elem_of_fmap.
    rewrite Forall_forall in Hids. destruct (Hids identity Hin) as [a Ha]. by eapply accepted_uid. }
  assert (forall i pod, writer sys i pod -> holds (sys_server sys) pod) as Hw.
  { intros i pod (n & Hi & <- & Ha & Hr). by apply (ao_writer _ _ _ (proj1 (li_nodes _ _ Hinv i n Hi))). }
  split; [done|]. intros i j p q Hi Hj. destruct (Hw i p Hi) as (l1 & El1 & Hp), (Hw j q Hj) as (l2 & El2 & Hq).
  assert (p = q) as -> by congruence. destruct Hi as (n & Hi & <- & _), Hj as (m & Hj & Em & _). split; [|done].
  eapply (NoDup_lookup (map wi_podUid identities)); [done|..]; rewrite <- (li_pods _ _ Hinv), list_lookup_fmap; [by rewrite Hi|].
  by rewrite Hj; cbn; rewrite Em.
Qed.

(** ** Operations end *)

(** An operation fed with the responses to its requests. *)
Fixpoint run_operation (st : lease_step) (responses : list (LeaseResponse * jstr)) : option (Authority * LeaseOutcome) :=
  match snd st, responses with
  | inr o, _ => Some (fst st, o)
  | inl _, [] => None
  | inl _, (r, now) :: rest => match resume (fst st) r now with Some st' => run_operation st' rest | None => None end
  end.

(** Some response was a lease that names this pod and generation, under the uid remembered. *)
Definition shown_holder (a' : Authority) (responses : list (LeaseResponse * jstr)) : Prop :=
  exists lease now uid, (Answer (JObj lease), now) ∈ responses /\ wa_acquiredLeaseUid a' = Some uid /\ held_by a' uid lease = true.

Definition ends (st : lease_step) (responses : list (LeaseResponse * jstr)) (Q : Authority -> LeaseOutcome -> Prop) : Prop :=
  exists a' o, run_operation st responses = Some (a', o) /\ wa_operation a' = Idle /\ Q a' o.

Definition acquire_post (a : Authority) (responses : list (LeaseResponse * jstr)) (a' : Authority) (o : LeaseOutcome) : Prop :=
  wa_identity a' = wa_identity a /\
  ((o = Acquired /\ shown_holder a' responses) \/ ((exists error, o = Raised error) /\ wa_acquiredLeaseUid a' = wa_acquiredLeaseUid a)).
Definition verify_post (a : Authority) (responses : list (LeaseResponse * jstr)) (a' : Authority) (o : LeaseOutcome) : Prop :=
  wa_identity a' = wa_identity a /\
  ((o = Held true /\ wa_acquiredLeaseUid a' = wa_acquiredLeaseUid a /\ shown_holder a' responses) \/
   (o = Held false /\ wa_acquiredLeaseUid a' = None) \/ ((exists error, o = Raised error) /\ wa_acquiredLeaseUid a' = wa_acquiredLeaseUid a)).
Definition release_post (a : Authority) (a' : Authority) (o : LeaseOutcome) : Prop :=
  wa_identity a' = wa_identity a /\ wa_acquiredLeaseUid a' = None /\ (o = Released \/ exists error, o = Raised error).

Lemma ends_finish a o rs (Q : Authority -> LeaseOutcome -> Prop) : Q (set_operation a Idle) o -> ends (finish a o) rs Q.
Proof. intros HQ. exists (set_operation a Idle), o. by destruct rs as [|[]]. Qed.

Lemma ends_request a op q r now rest (Q : Authority -> LeaseOutcome -> Prop) st :
  resume (set_operation a op) r now = Some st -> ends st rest Q -> ends (request a op q) ((r, now) :: rest) Q.
Proof. intros Hr (a' & o & Hrun & ?). exists a', o. cbn. by rewrite Hr. Qed.

Lemma ends_mono st rs (Q Q' : Authority -> LeaseOutcome -> Prop) : ends st rs Q -> (forall a o, Q a o -> Q' a o) -> ends st rs Q'.
Proof. intros (a' & o & ? & ? & HQ) Himp. exists a', o. auto. Qed.

Lemma shown_holder_cons a' x rs : shown_holder a' rs -> shown_holder a' (x :: rs).
Proof. intros (l & now & uid & Hin & ?). exists l, now, uid. split; [by right|done]. Qed.

Lemma acquire_post_cons a op x rs a' o : acquire_post (set_operation a op) rs a' o -> acquire_post a (x :: rs) a' o.
Proof. intros [Hi [[-> Hs]|He]]; split; [done|left|done|right]; [split; [done|by apply shown_holder_cons]|done]. Qed.

(** The lease a response carried has the uid that is remembered. *)
Lemma received_uid r name lease : received r name = inl lease -> lease_uid lease = JStr (text_of (lease_uid lease)).
Proof.
  unfold received, leaseResource. destruct r as [[]|]; try done. destruct (_ && _) eqn:E; [|done]. intros [= ->].
  repeat (apply andb_prop in E as [E ?]). by destruct (lease_uid lease).
Qed.

Lemma acquired_post a op r now rest lease name : received r name = inl lease -> same_generation a lease = true ->
  is_string (lease_holder lease) (podUid a) = true ->
  acquire_post a ((r, now) :: rest) (set_operation (set_acquired (set_operation a op) (Some (text_of (lease_uid lease)))) Idle) Acquired.
Proof.
  intros Hr Hg Hh. split; [done|left; split; [done|]]. exists lease, now, (text_of (lease_uid lease)).
  split; [apply received_lease in Hr as ->; by left|]. split; [done|]. unfold held_by.
  change (same_generation (set_operation _ Idle) lease) with (same_generation a lease). change (podUid (set_operation _ Idle)) with (podUid a).
  rewrite Hg, Hh, (proj2 (is_string_spec _ _) (received_uid _ _ _ Hr)). done.
Qed.

Lemma raised_post a op rs error : acquire_post a rs (set_operation (set_operation a op) Idle) (Raised error).
Proof. split; [done|right; eauto]. Qed.

Lemma acquire_put_ends a tries current r now rest :
  (forall op, ends (acquire_attempt (set_operation a op) (S tries)) rest (acquire_post (set_operation a op) rest)) ->
  ends (acquire_put (set_operation a (AcquirePut tries current)) tries current r) rest (acquire_post a ((r, now) :: rest)).
Proof.
  intros IH. unfold acquire_put, raise. destruct (received r _) as [lease|error] eqn:Er.
  - repeat (case_match; [apply ends_finish, raised_post|]). apply ends_finish. rewrite ?negb_false_iff in *. by eapply acquired_post.
  - destruct (is_status error 409); [|apply ends_finish, raised_post]. eapply ends_mono; [apply IH|]. intros a' o. apply acquire_post_cons.
Qed.

Lemma acquire_attempt_ends k : forall a tries rs, podUid a ≠ [] -> (8 <= tries + k)%nat -> (2 * k <= length rs)%nat ->
  ends (acquire_attempt a tries) rs (acquire_post a rs).
Proof.
  induction k as [|k IH]; intros a tries rs Hne Ht Hrs; unfold acquire_attempt, raise, MAX_CONFLICT_RETRIES.
  { destruct (Nat.ltb_spec tries 8); [lia|]. apply ends_finish, (raised_post a (wa_operation a)). }
  destruct (Nat.ltb_spec tries 8); [|apply ends_finish, (raised_post a (wa_operation a))]. destruct rs as [|[r1 n1] [|[r2 n2] rest]]; cbn in Hrs; [lia..|].
  eapply ends_request; [done|]. unfold acquire_read, raise. destruct (received r1 _) as [lease|error] eqn:Er.
  2: { apply ends_finish, raised_post. }
  destruct (same_generation _ lease) eqn:Eg; [|apply ends_finish, raised_post]. cbn [negb].
  destruct (is_string (nullish _ _) _) eqn:Eh.
  - rewrite andb_false_r. apply ends_finish. eapply acquired_post; [done|done|]. apply is_string_spec. apply is_string_spec in Eh.
    destruct (lease_holder lease); cbn in Eh; try done; injection Eh as Eh; [by destruct Hne..|by f_equal].
  - destruct (_ && _); [apply ends_finish, raised_post|]. eapply ends_request; [done|].
    eapply ends_mono; [apply acquire_put_ends|intros a' o; apply (acquire_post_cons a (AcquireRead tries))].
    intros op. apply (IH (set_operation a op)); [done|lia..].
Qed.

Lemma finally_post a op o : o = Released \/ (exists error, o = Raised error) ->
  release_post a (set_operation (set_acquired (set_operation a op) None) Idle) o.
Proof. by split. Qed.

Lemma release_post_step a op a' o : release_post (set_operation a op) a' o -> release_post a a' o.
Proof. done. Qed.

Lemma release_attempt_ends k : forall a tries uid rs, (8 <= tries + k)%nat -> (2 * k <= length rs)%nat ->
  ends (release_attempt a tries uid) rs (release_post a).
Proof.
  induction k as [|k IH]; intros a tries uid rs Ht Hrs; unfold release_attempt, finally, MAX_CONFLICT_RETRIES.
  { destruct (Nat.ltb_spec tries 8); [lia|]. apply ends_finish, (finally_post a (wa_operation a)). eauto. }
  destruct (Nat.ltb_spec tries 8); [|apply ends_finish, (finally_post a (wa_operation a)); eauto].
  destruct rs as [|[r1 n1] [|[r2 n2] rest]]; cbn in Hrs; [lia..|].
  eapply ends_request; [done|]. unfold release_read, finally. destruct (received r1 _) as [lease|error].
  2: { destruct (is_status error 404); apply ends_finish, finally_post; eauto. }
  destruct (held_by _ _ _); [|apply ends_finish, finally_post; eauto]. eapply ends_request; [done|].
  unfold release_put, finally. destruct (received r2 _) as [lease'|error].
  - destruct (_ || _); apply ends_finish, (finally_post a (ReleasePut tries uid)); eauto.
  - destruct (is_status error 409); [|apply ends_finish, (finally_post a (ReleasePut tries uid)); eauto].
    eapply ends_mono; [apply IH; lia|]. intros a' o. by apply release_post_step.
Qed.

Lemma verify_ends a uid r now rest : wa_acquiredLeaseUid a = Some uid ->
  ends (verify_read (set_operation a (VerifyRead uid)) uid r) rest (verify_post a ((r, now) :: rest)).
Proof.
  intros Hu. unfold verify_read. destruct (received r _) as [lease|error] eqn:Er.
  - destruct (held_by _ uid lease) eqn:Eh; apply ends_finish; (split; [done|]); [left|right; by left].
    split_and!; [done|done|]. exists lease, now, uid. apply received_lease in Er as ->. split; [by left|done].
  - destruct (is_status error 404); apply ends_finish; (split; [done|]); [right; by left|right; right; eauto].
Qed.


(** ** A server in memory *)

Record MemoryServer := mkMemory { mem_lease : json_object; mem_count : nat }.
Definition version_text (n : nat) : jstr := repeat 0x31%N (S n).
Definition with_version (lease : json_object) (v : jstr) : json_object :=
  oset (js "metadata") (JObj (oset (js "resourceVersion") (JStr v) (lease_metadata lease))) lease.
Definition mem_current (m : MemoryServer) : json_object := with_version (mem_lease m) (version_text (mem_count m)).

Lemma with_version_version lease v : lease_version (with_version lease v) = JStr v.
Proof. unfold lease_version, lease_metadata, with_version, osub at 1. by rewrite prop_set_eq, prop_set_eq. Qed.

Lemma with_version_holder lease v : holder (with_version lease v) = holder lease.
Proof. unfold holder, lease_holder, with_version, osub. by rewrite prop_set_ne by done. Qed.

#[export] Instance memory_server : LeaseServer MemoryServer := {
  ls_lease m := Some (mem_current m);
  ls_used m v := exists k, (k <= mem_count m)%nat /\ v = JStr (version_text k);
  ls_get m := Answer (JObj (mem_current m));
  ls_put m lease :=
    if is_string (lease_version lease) (version_text (mem_count m))
    then (mkMemory lease (S (mem_count m)), Answer (JObj (mem_current (mkMemory lease (S (mem_count m))))))
    else (m, Failure (KubernetesApiError 409));
}.

#[export] Instance memory_server_laws : LeaseServerLaws MemoryServer.
Proof.
  constructor.
  - intros m lease [= <-]. exists (mem_count m). split; [done|apply with_version_version].
  - by intros m lease [= <-].
  - intros m lease. cbn. destruct (is_string _ _) eqn:E; [right|left; eauto]. exists (mem_current m). apply is_string_spec in E.
    split_and!; [done|rewrite E; symmetry; apply with_version_version|right]. eexists _, _. split_and!; [done|done|apply with_version_holder| |].
    + intros (k & Hk & Hv). unfold mem_current in Hv. cbn in Hv. rewrite with_version_version in Hv. injection Hv as Hv.
      apply (f_equal length) in Hv. cbn in Hv. rewrite !repeat_length in Hv. lia.
    + intros v (k & Hk & ->). exists k. split; [cbn; lia|done].
Qed.

(** ** Two pods *)

Definition pod_identity (pod : jstr) : WriterLeaseIdentity :=
  mkLeaseIdentity (js "ns") (js "lease") pod (js "gen_0123456789abcdefghijklmn").
Definition pod_a : jstr := js "pod-0000-a".
Definition pod_b : jstr := js "pod-0000-b".

Definition free_lease : json_object :=
  [(js "apiVersion", JStr (js "coordination.k8s.io/v1")); (js "kind", JStr (js "Lease"));
   (js "metadata", JObj [(js "name", JStr (js "lease")); (js "uid", JStr (js "u1"));
      (js "annotations", JObj [(WRITER_LEASE_GENERATION_ANNOTATION, JStr (js "gen_0123456789abcdefghijklmn"))])])].

Definition next_of (sys : System MemoryServer) (i : nat) : System MemoryServer :=
  match sys_nodes sys !! i with
  | Some n =>
      match n_wire n with
      | Quiet => set_node sys i (node_after (acquire (n_authority n)) false)
      | Sent r => mkSystem (fst (serve (sys_server sys) r))
          (<[i := mkNode (n_authority n) (Answered (snd (serve (sys_server sys) r))) (n_released n)]> (sys_nodes sys)) (sys_late sys)
      | Answered r => match resume (n_authority n) r (js "now") with Some st => set_node sys i (node_after st (n_released n)) | None => sys end
      end
  | None => sys
  end.

Lemma next_of_step sys i : (forall n, sys_nodes sys !! i = Some n -> n_wire n = Quiet -> n_released n = false) ->
  rtc lease_net sys (next_of sys i).
Proof.
  intros Hq. unfold next_of. destruct (sys_nodes sys !! i) as [n|] eqn:En; [|apply rtc_refl]. destruct (n_wire n) as [|r|r] eqn:Ew.
  - apply rtc_once, net_acquire; auto.
  - by apply rtc_once, net_serve.
  - destruct (resume _ _ _) as [st|] eqn:Er; [|apply rtc_refl]. by apply rtc_once, (net_deliver _ _ _ r (js "now")).
Qed.

Fixpoint schedule (sys : System MemoryServer) (l : list nat) : System MemoryServer :=
  match l with [] => sys | i :: rest => schedule (next_of sys i) rest end.

(** Both pods read the free lease; the first write wins and the second conflicts. *)
Definition contended : System MemoryServer :=
  schedule (start_system (mkMemory free_lease 0) [pod_identity pod_a; pod_identity pod_b]) [0; 1; 0; 1; 0; 1; 0; 1; 0; 1]%nat.

Lemma schedule_run l : forall sys, Forall (fun n => n_released n = false) (sys_nodes sys) -> rtc lease_net sys (schedule sys l).
Proof.
  induction l as [|i l IH]; intros sys Hall; [apply rtc_refl|]. cbn [schedule]. etransitivity; [apply next_of_step|apply IH].
  - intros n Hn _. by eapply Forall_lookup_1 in Hall.
  - unfold next_of. destruct (sys_nodes sys !! i) as [n|] eqn:En; [|done]. pose proof (Forall_lookup_1 _ _ _ _ Hall En) as Hn.
    destruct (n_wire n) as [|r|r]; [by apply Forall_insert|by apply Forall_insert|]. destruct (resume _ _ _); [by apply Forall_insert|done].
Qed.

Lemma writers_exclusive_witness : writer contended 0 pod_a /\ holds (sys_server contended) pod_a /\
  (forall i j p q, writer contended i p -> writer contended j q -> i = j /\ p = q).
Proof.
  assert (writer contended 0 pod_a) as Hw by (eexists; split; [vm_compute; reflexivity|vm_compute; done]).
  destruct (writers_exclusive (mkMemory free_lease 0) [pod_identity pod_a; pod_identity pod_b] contended) as [H1 H2].
  - repeat constructor; eexists; vm_compute; reflexivity.
  - apply (bool_decide_unpack (NoDup (map wi_podUid [pod_identity pod_a; pod_identity pod_b]))). vm_compute. exact I.
  - apply schedule_run. repeat constructor.
  - split_and!; [exact Hw|exact (H1 0%nat pod_a Hw)|exact H2].
Defined.

Definition losing_answers : list (LeaseResponse * jstr) :=
  repeat (Answer (JObj (with_version free_lease (js "1"))), js "t") 1 ++ repeat (Failure (KubernetesApiError 409), js "t") 15.

