(* ===== verification/LedgerState.v ===== *)
(** * LedgerState: the shared control ledger
    ([packages/portable-control-store/src/shared-control-store.ts])

    The ledger's state with its validation.  Times are whole milliseconds, numbers integers;
    SHA-256 is a parameter of what uses it.  States written by older versions, which lack some
    arrays, are not modelled. *)
From stdpp Require Import base tactics option list numbers strings sets.
From S2P Require Import Prelude JsMap JsString JsValue WireGuards WireFrames.

(** Values are equal or not. *)
#[export] Instance jnum_eq_dec : EqDecision jnum.
Proof. solve_decision. Defined.
#[export] Instance jv_eq_dec : EqDecision jv.
Proof.
  refine (fix go (a b : jv) {struct a} : Decision (a = b) :=
    match a, b with
    | JUndef, JUndef | JNull, JNull => left _
    | JBool x, JBool y => cast_if (decide (x = y))
    | JNum x, JNum y => cast_if (decide (x = y))
    | JStr x, JStr y => cast_if (decide (x = y))
    | JArr x, JArr y =>
        cast_if ((fix go_list (l m : list jv) {struct l} : Decision (l = m) :=
          match l, m with
          | [], [] => left _
          | u :: l', v :: m' => cast_if_and (go u v) (go_list l' m')
          | _, _ => right _
          end) x y)
    | JObj x, JObj y =>
        cast_if ((fix go_obj (l m : list (jstr * jv)) {struct l} : Decision (l = m) :=
          match l, m with
          | [], [] => left _
          | (j, u) :: l', (k, v) :: m' => cast_if_and3 (decide (j = k)) (go u v) (go_obj l' m')
          | _, _ => right _
          end) x y)
    | _, _ => right _
    end); clear go; congruence.
Defined.

Definition DAY_MS : Z := 86400000.
Definition MAX_TICKET_TTL_SECONDS : Z := 60.
Definition PROVIDER_CONNECTION_LEASE_MS : Z := 30000.
Definition MAX_LIST_LIMIT : Z := 200.

(** ** Patterns *)

Definition is_name_unit (u : N) : bool := is_alnum u || existsb (N.eqb u) (js "._~-").
Definition is_name (most : Z) (s : jstr) : bool :=
  match s with c :: rest => is_alnum c && forallb is_name_unit rest && (len rest <=? most) | [] => false end.

Definition OPAQUE : jstr -> bool := is_name 511.
Definition GENERATION : jstr -> bool := is_name 127.
Definition EVENT_ID : jstr -> bool := is_name 127.
Definition KID : jstr -> bool := is_name 63.
Definition DIGEST (s : jstr) : bool := forallb (fun u => is_digit u || ((0x61 <=? u) && (u <=? 0x66))%N) s && (len s =? 64).
Definition TICKET (s : jstr) : bool :=
  forallb (fun u => is_alnum u || (u =? 0x5F)%N || (u =? 0x2D)%N) s && (32 <=? len s) && (len s <=? 128).
(** [/^[A-Za-z][A-Za-z0-9._:-]{0,127}$/u] and the same without colons *)
Definition is_word (units : jstr) (s : jstr) : bool :=
  match s with c :: rest => is_letter c && forallb (fun u => is_alnum u || existsb (N.eqb u) units) rest && (len rest <=? 127) | [] => false end.
Definition AUDIENCE : jstr -> bool := is_word (js "._:-").
Definition PURPOSE : jstr -> bool := is_word (js "._-").

(** Two digests are equal; strings that are not digests never are. *)
Definition sameDigest (left right : jstr) : bool := DIGEST left && DIGEST right && jstr_eqb left right.

Definition bounded (value minimum maximum : Z) : bool := (minimum <=? value) && (value <=? maximum).
Definition safe (value : Z) : bool := bounded value (- MAX_SAFE_INTEGER) MAX_SAFE_INTEGER.

(** ** Records *)

Record TicketBinding := mkBinding {
  tb_principalId : jstr;
  tb_scopeId : jstr;
  tb_audience : jstr;
  tb_runtimeId : jstr;
  tb_runtimeGeneration : jstr;
  tb_providerControlGeneration : jstr;
  tb_purpose : jstr;
}.
#[export] Instance TicketBinding_eq_dec : EqDecision TicketBinding.
Proof. solve_decision. Defined.

Definition exactBinding (left right : TicketBinding) : bool := bool_decide (left = right).
Definition validateBinding (b : TicketBinding) : bool :=
  OPAQUE (tb_principalId b) && OPAQUE (tb_scopeId b) && AUDIENCE (tb_audience b) && OPAQUE (tb_runtimeId b) &&
  GENERATION (tb_runtimeGeneration b) && GENERATION (tb_providerControlGeneration b) && PURPOSE (tb_purpose b).

Record StoredTicket := mkTicket {
  tk_digest : jstr;
  tk_binding : TicketBinding;
  tk_mintedAt : Z;
  tk_expiresAt : Z;
  tk_consumedAt : option Z;
  tk_revokedAt : option Z;
}.

Record StoredIdempotency := mkStoredIdem {
  si_keyDigest : jstr;
  si_bindingDigest : jstr;
  si_reservationDigest : jstr;
  si_complete : bool;
  si_createdAt : Z;
  si_completedAt : option Z;
  si_expiresAt : Z;
  si_result : option jv;
}.

Inductive ScopeAdmissionTransition := TCreate | TActivate | TEnableBrowser.
Inductive ResourceKind := KScope | KWorkspace | KRuntime.
#[export] Instance ScopeAdmissionTransition_eq_dec : EqDecision ScopeAdmissionTransition.
Proof. solve_decision. Defined.
#[export] Instance ResourceKind_eq_dec : EqDecision ResourceKind.
Proof. solve_decision. Defined.

(** What a reservation demands, and what is in use. *)
Record Amounts := mkAmounts {
  am_activeRuntimes : Z;
  am_retainedRuntimes : Z;
  am_workspaceCapacityBytes : Z;
  am_cpuMillis : Z;
  am_memoryBytes : Z;
  am_gpuUnits : Z;
}.

Record StoredAdmissionReservation := mkReservation {
  ar_tokenDigest : jstr;
  ar_resourceDigest : jstr;
  ar_scopeId : jstr;
  ar_transition : ScopeAdmissionTransition;
  ar_resourceKind : ResourceKind;
  ar_amounts : Amounts;
  ar_createdAt : Z;
  ar_expiresAt : Z;
  ar_committed : bool;
}.

Record StoredAdmissionRateEvent := mkRateEvent { re_scopeId : jstr; re_createdAt : Z }.

Record StoredAdmissionRetirement := mkRetirement {
  rt_scopeId : jstr;
  rt_resourceKind : ResourceKind;
  rt_resourceKey : jstr;
  rt_createdAt : Z;
  rt_completedAt : option Z;
}.

Record StoredRuntimeIngressLease := mkIngressLease { il_leaseIdDigest : jstr; il_gatewayReplicaEpoch : jstr; il_expiresAt : Z }.
Record StoredRuntimeIngress := mkIngress {
  ri_runtimeId : jstr;
  ri_generation : jstr;
  ri_open : bool;
  ri_leases : list StoredRuntimeIngressLease;
}.

Record StoredProviderAssertionKeyring := mkKeyring {
  kr_revision : Z;
  kr_activeKid : jstr;
  kr_previous : option (jstr * Z);
}.
Record StoredProviderAssertionNonce := mkNonce { pn_digest : jstr; pn_expiresAt : Z }.

Record StoredProviderControlGeneration := mkProviderGeneration {
  pg_principalId : jstr;
  pg_generation : jstr;
  pg_ownerId : jstr;
  pg_updatedAt : Z;
}.

Inductive ConnectionState := CTicket | CActive | CClosed.
#[export] Instance ConnectionState_eq_dec : EqDecision ConnectionState.
Proof. solve_decision. Defined.

Record SharedProviderConnectionRecord := mkConnection {
  pc_binding : TicketBinding;
  pc_connectionId : jstr;
  pc_ticketDigest : jstr;
  pc_state : ConnectionState;
  pc_updatedAt : Z;
}.

Record StoredTombstone := mkTombstone {
  ts_scopeId : jstr;
  ts_resourceKind : ResourceKind;
  ts_resourceId : jstr;
  ts_deletedAt : jstr;
  ts_expiresAt : jstr;
  ts_createdAt : Z;
  ts_expiresAtMs : Z;
}.

Record Deletion := mkDeletion { dl_expectedRevision : jstr; dl_backendRevision : jstr; dl_requestedAt : jstr }.
Record Creation := mkCreation { cr_ownerToken : jstr; cr_leaseExpiresAt : Z }.
Record SharedIssuedIdentifier := mkIssued {
  id_scopeId : jstr;
  id_resourceKind : ResourceKind;
  id_resourceId : jstr;
  id_bindingDigest : jstr;
  id_incarnationUid : option jstr;
  id_deletedAt : option jstr;
  id_deletion : option Deletion;
  id_creation : option Creation;
}.

Record InfrastructureEvent := mkEvent {
  ev_eventId : jstr;
  ev_resourceKind : ResourceKind;
  ev_resourceId : jstr;
  ev_scopeId : jstr;
  ev_revision : jstr;
  ev_phase : jstr;
  ev_timestamp : jstr;
}.
Record StoredEvent := mkStoredEvent { se_sequence : Z; se_event : InfrastructureEvent; se_storedAt : Z }.
Record StoredEventHead := mkHead { eh_scopeId : jstr; eh_sequence : Z }.

Record SharedControlLedgerState := mkLedger {
  lg_eventHeads : list StoredEventHead;
  lg_tickets : list StoredTicket;
  lg_idempotency : list StoredIdempotency;
  lg_tombstones : list StoredTombstone;
  lg_issuedIdentifiers : list SharedIssuedIdentifier;
  lg_events : list StoredEvent;
  lg_admissionReservations : list StoredAdmissionReservation;
  lg_admissionRateEvents : list StoredAdmissionRateEvent;
  lg_runtimeIngress : list StoredRuntimeIngress;
  lg_admissionRetirements : list StoredAdmissionRetirement;
  lg_providerControlGenerations : list StoredProviderControlGeneration;
  lg_providerAssertionKeyring : option StoredProviderAssertionKeyring;
  lg_providerConnections : list SharedProviderConnectionRecord;
  lg_providerAssertionNonces : list StoredProviderAssertionNonce;
}.
Abbreviation Ledger := SharedControlLedgerState.
Implicit Types (state : Ledger).

(** Equality of states is decidable, as the comparison of their canonical texts. *)
#[export] Instance StoredTicket_eq_dec : EqDecision StoredTicket.
Proof. solve_decision. Defined.
#[export] Instance StoredIdempotency_eq_dec : EqDecision StoredIdempotency.
Proof. solve_decision. Defined.
#[export] Instance Amounts_eq_dec : EqDecision Amounts.
Proof. solve_decision. Defined.
#[export] Instance StoredAdmissionReservation_eq_dec : EqDecision StoredAdmissionReservation.
Proof. solve_decision. Defined.
#[export] Instance StoredAdmissionRateEvent_eq_dec : EqDecision StoredAdmissionRateEvent.
Proof. solve_decision. Defined.
#[export] Instance StoredAdmissionRetirement_eq_dec : EqDecision StoredAdmissionRetirement.
Proof. solve_decision. Defined.
#[export] Instance StoredRuntimeIngressLease_eq_dec : EqDecision StoredRuntimeIngressLease.
Proof. solve_decision. Defined.
#[export] Instance StoredRuntimeIngress_eq_dec : EqDecision StoredRuntimeIngress.
Proof. solve_decision. Defined.
#[export] Instance StoredProviderAssertionKeyring_eq_dec : EqDecision StoredProviderAssertionKeyring.
Proof. solve_decision. Defined.
#[export] Instance StoredProviderAssertionNonce_eq_dec : EqDecision StoredProviderAssertionNonce.
Proof. solve_decision. Defined.
#[export] Instance StoredProviderControlGeneration_eq_dec : EqDecision StoredProviderControlGeneration.
Proof. solve_decision. Defined.
#[export] Instance SharedProviderConnectionRecord_eq_dec : EqDecision SharedProviderConnectionRecord.
Proof. solve_decision. Defined.
#[export] Instance StoredTombstone_eq_dec : EqDecision StoredTombstone.
Proof. solve_decision. Defined.
#[export] Instance Deletion_eq_dec : EqDecision Deletion.
Proof. solve_decision. Defined.
#[export] Instance Creation_eq_dec : EqDecision Creation.
Proof. solve_decision. Defined.
#[export] Instance SharedIssuedIdentifier_eq_dec : EqDecision SharedIssuedIdentifier.
Proof. solve_decision. Defined.
#[export] Instance InfrastructureEvent_eq_dec : EqDecision InfrastructureEvent.
Proof. solve_decision. Defined.
#[export] Instance StoredEvent_eq_dec : EqDecision StoredEvent.
Proof. solve_decision. Defined.
#[export] Instance StoredEventHead_eq_dec : EqDecision StoredEventHead.
Proof. solve_decision. Defined.
#[export] Instance SharedControlLedgerState_eq_dec : EqDecision SharedControlLedgerState.
Proof. solve_decision. Defined.

Definition initialState : Ledger := mkLedger [] [] [] [] [] [] [] [] [] [] [] None [] [].

(** [{ ...state, field }] *)
Definition with_tickets state l : Ledger :=
  let '(mkLedger a _ c d e f g h i j k m n o) := state in mkLedger a l c d e f g h i j k m n o.
Definition with_idempotency state l : Ledger :=
  let '(mkLedger a b _ d e f g h i j k m n o) := state in mkLedger a b l d e f g h i j k m n o.
Definition with_tombstones state l : Ledger :=
  let '(mkLedger a b c _ e f g h i j k m n o) := state in mkLedger a b c l e f g h i j k m n o.
Definition with_issued state l : Ledger :=
  let '(mkLedger a b c d _ f g h i j k m n o) := state in mkLedger a b c d l f g h i j k m n o.
Definition with_events state heads l : Ledger :=
  let '(mkLedger _ b c d e _ g h i j k m n o) := state in mkLedger heads b c d e l g h i j k m n o.
Definition with_admission state reservations events : Ledger :=
  let '(mkLedger a b c d e f _ _ i j k m n o) := state in mkLedger a b c d e f reservations events i j k m n o.
Definition with_ingress state l : Ledger :=
  let '(mkLedger a b c d e f g h _ j k m n o) := state in mkLedger a b c d e f g h l j k m n o.
Definition with_retirements state l : Ledger :=
  let '(mkLedger a b c d e f g h i _ k m n o) := state in mkLedger a b c d e f g h i l k m n o.
Definition with_generations state l : Ledger :=
  let '(mkLedger a b c d e f g h i j _ m n o) := state in mkLedger a b c d e f g h i j l m n o.
Definition with_keyring state k' : Ledger :=
  let '(mkLedger a b c d e f g h i j k _ n o) := state in mkLedger a b c d e f g h i j k k' n o.
Definition with_connections state l : Ledger :=
  let '(mkLedger a b c d e f g h i j k m _ o) := state in mkLedger a b c d e f g h i j k m l o.
Definition with_nonces state l : Ledger :=
  let '(mkLedger a b c d e f g h i j k m n _) := state in mkLedger a b c d e f g h i j k m n l.

(** ** Dates *)

(** Digits of [n], at least [width] of them. *)
Definition padded (width : Z) (n : Z) : jstr := let d := N_digits (Z.to_N n) in zeros (width - len d) ++ d.

(** Year, month and day of a day number counted from 1970-01-01. *)
Definition civil_of_days (days : Z) : Z * Z * Z :=
  let z := days + 719468 in
  let era := z / 146097 in
  let doe := z mod 146097 in
  let yoe := (doe - doe / 1460 + doe / 36524 - doe / 146096) / 365 in
  let doy := doe - (365 * yoe + yoe / 4 - yoe / 100) in
  let mp := (5 * doy + 2) / 153 in
  let month := if mp <? 10 then mp + 3 else mp - 9 in
  (yoe + era * 400 + (if month <=? 2 then 1 else 0), month, doy - (153 * mp + 2) / 5 + 1).

(** [new Date(value).toISOString()]: [None] is the [RangeError] of an invalid date. *)
Definition iso (value : Z) : option jstr :=
  if bounded value (-8640000000000000) 8640000000000000 then
    let '(year, month, day) := civil_of_days (value / DAY_MS) in
    let ms := value mod DAY_MS in
    let y := if bounded year 0 9999 then padded 4 year else (if year <? 0 then js "-" else js "+") ++ padded 6 (Z.abs year) in
    Some (y ++ js "-" ++ padded 2 month ++ js "-" ++ padded 2 day ++ js "T" ++ padded 2 (ms / 3600000) ++ js ":" ++
          padded 2 (ms / 60000 mod 60) ++ js ":" ++ padded 2 (ms / 1000 mod 60) ++ js "." ++ padded 3 (ms mod 1000) ++ js "Z")
  else None.

(** ** The state as JSON *)

Definition int (z : Z) : jv := JNum (num_of_Z z).
(** An object literal; a property whose value is undefined is not printed. *)
Definition record (l : list (jstr * option jv)) : jv := JObj (omap (fun kv => match snd kv with Some v => Some (fst kv, v) | None => None end) l).
Definition text (s : jstr) : option jv := Some (JStr s).
Definition num (z : Z) : option jv := Some (int z).

Definition kind_text (k : ResourceKind) : jstr := match k with KScope => js "scope" | KWorkspace => js "workspace" | KRuntime => js "runtime" end.
Definition transition_text (t : ScopeAdmissionTransition) : jstr :=
  match t with TCreate => js "create" | TActivate => js "activate" | TEnableBrowser => js "enableBrowser" end.
Definition connection_text (c : ConnectionState) : jstr := match c with CTicket => js "ticket" | CActive => js "active" | CClosed => js "closed" end.

Definition binding_fields (b : TicketBinding) : list (jstr * option jv) :=
  [(js "principalId", text (tb_principalId b)); (js "scopeId", text (tb_scopeId b)); (js "audience", text (tb_audience b));
   (js "runtimeId", text (tb_runtimeId b)); (js "runtimeGeneration", text (tb_runtimeGeneration b));
   (js "providerControlGeneration", text (tb_providerControlGeneration b)); (js "purpose", text (tb_purpose b))].
Definition ticket_json (t : StoredTicket) : jv :=
  record [(js "digest", text (tk_digest t)); (js "binding", Some (record (binding_fields (tk_binding t)))); (js "mintedAt", num (tk_mintedAt t));
    (js "expiresAt", num (tk_expiresAt t)); (js "consumedAt", int <$> tk_consumedAt t); (js "revokedAt", int <$> tk_revokedAt t)].
Definition idempotency_json (i : StoredIdempotency) : jv :=
  record [(js "keyDigest", text (si_keyDigest i)); (js "bindingDigest", text (si_bindingDigest i));
    (js "reservationDigest", text (si_reservationDigest i)); (js "state", text (if si_complete i then js "complete" else js "pending"));
    (js "createdAt", num (si_createdAt i)); (js "expiresAt", num (si_expiresAt i)); (js "result", si_result i);
    (js "completedAt", int <$> si_completedAt i)].
Definition tombstone_json (t : StoredTombstone) : jv :=
  record [(js "scopeId", text (ts_scopeId t)); (js "resourceKind", text (kind_text (ts_resourceKind t))); (js "resourceId", text (ts_resourceId t));
    (js "deletedAt", text (ts_deletedAt t)); (js "createdAt", num (ts_createdAt t)); (js "expiresAt", text (ts_expiresAt t));
    (js "expiresAtMs", num (ts_expiresAtMs t))].
Definition deletion_json (d : Deletion) : jv :=
  record [(js "expectedRevision", text (dl_expectedRevision d)); (js "backendRevision", text (dl_backendRevision d));
    (js "requestedAt", text (dl_requestedAt d))].
Definition creation_json (c : Creation) : jv := record [(js "ownerToken", text (cr_ownerToken c)); (js "leaseExpiresAt", num (cr_leaseExpiresAt c))].
Definition issued_json (i : SharedIssuedIdentifier) : jv :=
  record [(js "scopeId", text (id_scopeId i)); (js "resourceKind", text (kind_text (id_resourceKind i))); (js "resourceId", text (id_resourceId i));
    (js "bindingDigest", text (id_bindingDigest i)); (js "incarnationUid", JStr <$> id_incarnationUid i); (js "deletedAt", JStr <$> id_deletedAt i);
    (js "deletion", deletion_json <$> id_deletion i); (js "creation", creation_json <$> id_creation i)].
Definition event_json (e : InfrastructureEvent) : jv :=
  record [(js "eventId", text (ev_eventId e)); (js "resourceKind", text (kind_text (ev_resourceKind e))); (js "resourceId", text (ev_resourceId e));
    (js "scopeId", text (ev_scopeId e)); (js "revision", text (ev_revision e)); (js "phase", text (ev_phase e)); (js "timestamp", text (ev_timestamp e))].
Definition reservation_json (r : StoredAdmissionReservation) : jv :=
  let a := ar_amounts r in
  record [(js "tokenDigest", text (ar_tokenDigest r)); (js "resourceDigest", text (ar_resourceDigest r)); (js "scopeId", text (ar_scopeId r));
    (js "resourceKind", text (kind_text (ar_resourceKind r))); (js "transition", text (transition_text (ar_transition r)));
    (js "activeRuntimes", num (am_activeRuntimes a)); (js "retainedRuntimes", num (am_retainedRuntimes a));
    (js "workspaceCapacityBytes", num (am_workspaceCapacityBytes a)); (js "cpuMillis", num (am_cpuMillis a));
    (js "memoryBytes", num (am_memoryBytes a)); (js "gpuUnits", num (am_gpuUnits a)); (js "createdAt", num (ar_createdAt r));
    (js "expiresAt", num (ar_expiresAt r)); (js "committed", Some (JBool (ar_committed r)))].
Definition retirement_json (r : StoredAdmissionRetirement) : jv :=
  record [(js "scopeId", text (rt_scopeId r)); (js "resourceKind", text (kind_text (rt_resourceKind r))); (js "resourceKey", text (rt_resourceKey r));
    (js "state", text (match rt_completedAt r with Some _ => js "complete" | None => js "pending" end)); (js "createdAt", num (rt_createdAt r));
    (js "completedAt", int <$> rt_completedAt r)].
Definition ingress_lease_json (l : StoredRuntimeIngressLease) : jv :=
  record [(js "leaseIdDigest", text (il_leaseIdDigest l)); (js "gatewayReplicaEpoch", text (il_gatewayReplicaEpoch l));
    (js "expiresAt", num (il_expiresAt l))].
Definition ingress_json (r : StoredRuntimeIngress) : jv :=
  record [(js "runtimeId", text (ri_runtimeId r)); (js "generation", text (ri_generation r)); (js "open", Some (JBool (ri_open r)));
    (js "leases", Some (JArr (map ingress_lease_json (ri_leases r))))].
Definition generation_json (g : StoredProviderControlGeneration) : jv :=
  record [(js "principalId", text (pg_principalId g)); (js "generation", text (pg_generation g)); (js "ownerId", text (pg_ownerId g));
    (js "updatedAt", num (pg_updatedAt g))].
Definition keyring_json (k : StoredProviderAssertionKeyring) : jv :=
  record [(js "revision", num (kr_revision k)); (js "activeKid", text (kr_activeKid k)); (js "previousKid", JStr ∘ fst <$> kr_previous k);
    (js "previousNotAfter", int ∘ snd <$> kr_previous k)].
Definition connection_json (c : SharedProviderConnectionRecord) : jv :=
  record (binding_fields (pc_binding c) ++ [(js "connectionId", text (pc_connectionId c)); (js "ticketDigest", text (pc_ticketDigest c));
    (js "state", text (connection_text (pc_state c))); (js "updatedAt", num (pc_updatedAt c))]).
Definition nonce_json (n : StoredProviderAssertionNonce) : jv := record [(js "digest", text (pn_digest n)); (js "expiresAt", num (pn_expiresAt n))].

Definition ledger_json state : jv :=
  record [(js "version", num 1);
    (js "eventHeads", Some (JArr (map (fun h => record [(js "scopeId", text (eh_scopeId h)); (js "sequence", num (eh_sequence h))]) (lg_eventHeads state))));
    (js "tickets", Some (JArr (map ticket_json (lg_tickets state)))); (js "idempotency", Some (JArr (map idempotency_json (lg_idempotency state))));
    (js "tombstones", Some (JArr (map tombstone_json (lg_tombstones state)))); (js "issuedIdentifiers", Some (JArr (map issued_json (lg_issuedIdentifiers state))));
    (js "events", Some (JArr (map (fun e => record [(js "sequence", num (se_sequence e)); (js "event", Some (event_json (se_event e)));
       (js "storedAt", num (se_storedAt e))]) (lg_events state))));
    (js "admissionReservations", Some (JArr (map reservation_json (lg_admissionReservations state))));
    (js "admissionRateEvents", Some (JArr (map (fun e => record [(js "scopeId", text (re_scopeId e)); (js "createdAt", num (re_createdAt e))])
       (lg_admissionRateEvents state))));
    (js "admissionRetirements", Some (JArr (map retirement_json (lg_admissionRetirements state))));
    (js "runtimeIngress", Some (JArr (map ingress_json (lg_runtimeIngress state))));
    (js "providerControlGenerations", Some (JArr (map generation_json (lg_providerControlGenerations state))));
    (js "providerAssertionKeyring", keyring_json <$> lg_providerAssertionKeyring state);
    (js "providerConnections", Some (JArr (map connection_json (lg_providerConnections state))));
    (js "providerAssertionNonces", Some (JArr (map nonce_json (lg_providerAssertionNonces state))))].

Example iso_epoch : iso 0 = Some (js "1970-01-01T00:00:00.000Z").
Proof. vm_compute. reflexivity. Qed.
Example iso_leap : iso 1709210096789 = Some (js "2024-02-29T12:34:56.789Z").
Proof. vm_compute. reflexivity. Qed.

(** ** Validation *)

Record LedgerConfig := mkConfig {
  cf_maximumStateBytes : Z;
  cf_maximumTickets : Z;
  cf_maximumIdempotencyRecords : Z;
  cf_maximumIssuedIdentifiers : Z;
  cf_maximumAdmissionReservations : Z;
  cf_tombstoneRetentionMs : Z;
  cf_maximumTombstonesPerScope : Z;
  cf_eventRetentionMs : Z;
  cf_maximumEvents : Z;
  cf_maximumContentionRetries : Z;
  cf_maximumProviderConnections : Z;
  cf_maximumProviderAssertionNonces : Z;
}.

(** The constructor's checks and defaults. *)
Definition config_ok (c : LedgerConfig) : bool :=
  bounded (cf_maximumStateBytes c) 1024 (768 * 1024) && bounded (cf_maximumTickets c) 1 100000 &&
  bounded (cf_maximumIdempotencyRecords c) 1 100000 && bounded (cf_maximumIssuedIdentifiers c) 1 100000 &&
  bounded (cf_maximumAdmissionReservations c) 1 100000 && bounded (cf_tombstoneRetentionMs c / 1000) 86400 604800 &&
  bounded (cf_maximumTombstonesPerScope c) 1 100000 && bounded (cf_eventRetentionMs c / 1000) 1 604800 &&
  bounded (cf_maximumEvents c) 1 100000 && bounded (cf_maximumContentionRetries c) 1 32 &&
  bounded (cf_maximumProviderConnections c) 1 100000 && bounded (cf_maximumProviderAssertionNonces c) 1 100000.
Definition default_config : LedgerConfig :=
  mkConfig (512 * 1024) 2048 2048 10000 4096 (86400 * 1000) 4096 (60 * 1000) 10000 8 4096 4096.

Definition PHASES : list jstr :=
  [js "Pending"; js "Provisioning"; js "Starting"; js "Ready"; js "Sleeping"; js "Stopped"; js "Deleting"; js "Unavailable"; js "Degraded"; js "Failed"].

(** No key twice. *)
Fixpoint distinct (keys : list jstr) : bool :=
  match keys with [] => true | k :: rest => negb (existsb (jstr_eqb k) rest) && distinct rest end.

Definition valid_json (v : jv) : bool := match v with JUndef => false | _ => json_bytes v <=? 65536 end.

Section Validation.
(** [Date.parse]: [None] for a text that is no date. *)
Context (parse_date : jstr -> option Z).

(** [timestamp(value, label)]: the date in canonical form. *)
Definition timestamp (value : jstr) : option jstr :=
  match parse_date value with Some ms => if len value <=? 64 then iso ms else None | None => None end.
Definition is_timestamp (value : jstr) : bool := match timestamp value with Some _ => true | None => false end.

Definition valid_ticket (t : StoredTicket) : bool :=
  let at_ (o : option Z) := match o with Some x => safe x && (tk_mintedAt t <=? x) && (x <? tk_expiresAt t) | None => true end in
  DIGEST (tk_digest t) && safe (tk_mintedAt t) && safe (tk_expiresAt t) && (tk_mintedAt t <? tk_expiresAt t) &&
  (tk_expiresAt t <=? tk_mintedAt t + MAX_TICKET_TTL_SECONDS * 1000) && at_ (tk_consumedAt t) && at_ (tk_revokedAt t) &&
  match tk_consumedAt t, tk_revokedAt t with Some _, Some _ => false | _, _ => true end && validateBinding (tk_binding t).

Definition valid_idempotency (i : StoredIdempotency) : bool :=
  let anchor := if si_complete i then si_completedAt i else Some (si_createdAt i) in
  DIGEST (si_keyDigest i) && DIGEST (si_bindingDigest i) && DIGEST (si_reservationDigest i) && safe (si_createdAt i) &&
  match anchor with Some a => safe a && (si_expiresAt i =? a + DAY_MS) | None => false end &&
  Bool.eqb (si_complete i) (bool_decide (is_Some (si_result i))) && Bool.eqb (si_complete i) (bool_decide (is_Some (si_completedAt i))) &&
  match si_result i with Some v => valid_json v | None => true end.

Definition amounts_list (a : Amounts) : list Z :=
  [am_activeRuntimes a; am_retainedRuntimes a; am_workspaceCapacityBytes a; am_cpuMillis a; am_memoryBytes a; am_gpuUnits a].
Definition amounts_ok (a : Amounts) : bool := forallb (fun z => bounded z 0 MAX_SAFE_INTEGER) (amounts_list a).

Definition workspace_or_runtime (k : ResourceKind) : bool := match k with KScope => false | _ => true end.

Definition valid_reservation (r : StoredAdmissionReservation) : bool :=
  OPAQUE (ar_scopeId r) && workspace_or_runtime (ar_resourceKind r) && DIGEST (ar_tokenDigest r) && DIGEST (ar_resourceDigest r) &&
  safe (ar_createdAt r) && safe (ar_expiresAt r) && (ar_createdAt r <? ar_expiresAt r) && amounts_ok (ar_amounts r).

Definition retirement_key (r : StoredAdmissionRetirement) : jstr :=
  rt_scopeId r ++ [0%N] ++ kind_text (rt_resourceKind r) ++ [0%N] ++ rt_resourceKey r.
Definition valid_retirement (r : StoredAdmissionRetirement) : bool :=
  OPAQUE (rt_scopeId r) && OPAQUE (rt_resourceKey r) && workspace_or_runtime (rt_resourceKind r) && safe (rt_createdAt r) &&
  match rt_completedAt r with Some c => safe c && (rt_createdAt r <=? c) | None => true end.

Definition ingress_key (r : StoredRuntimeIngress) : jstr := ri_runtimeId r ++ [0%N] ++ ri_generation r.
Definition valid_ingress_lease (l : StoredRuntimeIngressLease) : bool :=
  GENERATION (il_gatewayReplicaEpoch l) && DIGEST (il_leaseIdDigest l) && safe (il_expiresAt l) && (1 <=? il_expiresAt l).
Definition valid_ingress (r : StoredRuntimeIngress) : bool :=
  OPAQUE (ri_runtimeId r) && GENERATION (ri_generation r) && (len (ri_leases r) <=? 100000) &&
  forallb valid_ingress_lease (ri_leases r) && distinct (map il_leaseIdDigest (ri_leases r)).

Definition valid_keyring (k : StoredProviderAssertionKeyring) : bool :=
  bounded (kr_revision k) 1 MAX_SAFE_INTEGER && KID (kr_activeKid k) &&
  match kr_previous k with Some (kid, notAfter) => KID kid && bounded notAfter 1 MAX_SAFE_INTEGER | None => true end.
Definition valid_generation (g : StoredProviderControlGeneration) : bool :=
  OPAQUE (pg_principalId g) && GENERATION (pg_generation g) && OPAQUE (pg_ownerId g) && bounded (pg_updatedAt g) 0 MAX_SAFE_INTEGER.
Definition valid_connection (c : SharedProviderConnectionRecord) : bool :=
  validateBinding (pc_binding c) && OPAQUE (pc_connectionId c) && DIGEST (pc_ticketDigest c) && bounded (pc_updatedAt c) 0 MAX_SAFE_INTEGER.
Definition valid_nonce (n : StoredProviderAssertionNonce) : bool := DIGEST (pn_digest n) && bounded (pn_expiresAt n) 1 MAX_SAFE_INTEGER.

Definition tombstone_key (t : StoredTombstone) : jstr :=
  ts_scopeId t ++ [0%N] ++ kind_text (ts_resourceKind t) ++ [0%N] ++ ts_resourceId t.
Definition valid_tombstone (c : LedgerConfig) (t : StoredTombstone) : bool :=
  OPAQUE (ts_scopeId t) && OPAQUE (ts_resourceId t) && safe (ts_createdAt t) &&
  match timestamp (ts_deletedAt t) with
  | Some d => match parse_date d with Some ms => ms <=? ts_createdAt t | None => true end
  | None => false
  end && (ts_expiresAtMs t =? ts_createdAt t + cf_tombstoneRetentionMs c) && bool_decide (iso (ts_expiresAtMs t) = Some (ts_expiresAt t)).
Definition scope_count (scopeId : jstr) (l : list StoredTombstone) : Z := len (List.filter (fun t => jstr_eqb (ts_scopeId t) scopeId) l).

Definition issued_key (i : SharedIssuedIdentifier) : jstr := kind_text (id_resourceKind i) ++ [0%N] ++ id_resourceId i.
Definition valid_issued (i : SharedIssuedIdentifier) : bool :=
  let bound := bool_decide (is_Some (id_incarnationUid i)) in
  OPAQUE (id_scopeId i) && workspace_or_runtime (id_resourceKind i) && OPAQUE (id_resourceId i) && DIGEST (id_bindingDigest i) &&
  match id_incarnationUid i with Some u => OPAQUE u | None => true end &&
  match id_deletedAt i with Some d => is_timestamp d && bound | None => true end &&
  match id_deletion i with
  | Some d => OPAQUE (dl_expectedRevision d) && OPAQUE (dl_backendRevision d) && is_timestamp (dl_requestedAt d) && bound &&
      bool_decide (id_deletedAt i = None)
  | None => true
  end &&
  match id_creation i with
  | Some c => OPAQUE (cr_ownerToken c) && bounded (cr_leaseExpiresAt c) 1 MAX_SAFE_INTEGER && negb bound && bool_decide (id_deletedAt i = None)
  | None => true
  end.

(** [validateEvent]: the event with its timestamp in canonical form. *)
Definition validateEvent (e : InfrastructureEvent) : option InfrastructureEvent :=
  if existsb (jstr_eqb (ev_phase e)) PHASES && EVENT_ID (ev_eventId e) && OPAQUE (ev_resourceId e) && OPAQUE (ev_scopeId e) && GENERATION (ev_revision e)
  then match timestamp (ev_timestamp e) with
       | Some t => Some (mkEvent (ev_eventId e) (ev_resourceKind e) (ev_resourceId e) (ev_scopeId e) (ev_revision e) (ev_phase e) t)
       | None => None
       end
  else None.

Definition head_of (heads : list StoredEventHead) (scopeId : jstr) : option Z :=
  eh_sequence <$> List.find (fun h => jstr_eqb (eh_scopeId h) scopeId) heads.

(** The events in order: sequences of a scope increase up to its head. *)
Fixpoint valid_events (heads : list StoredEventHead) (prior : jsmap jstr Z) (events : list StoredEvent) : bool :=
  match events with
  | [] => true
  | e :: rest =>
      let scopeId := ev_scopeId (se_event e) in
      safe (se_sequence e) && (default 0 (map_get scopeId prior) <? se_sequence e) &&
      match head_of heads scopeId with Some h => se_sequence e <=? h | None => false end && safe (se_storedAt e) &&
      match validateEvent (se_event e) with Some _ => true | None => false end &&
      valid_events heads (map_set scopeId (se_sequence e) prior) rest
  end.

Definition validateState (c : LedgerConfig) state : bool :=
  (len (lg_eventHeads state) <=? cf_maximumEvents c) && (len (lg_tickets state) <=? cf_maximumTickets c) &&
  (len (lg_idempotency state) <=? cf_maximumIdempotencyRecords c) && (len (lg_issuedIdentifiers state) <=? cf_maximumIssuedIdentifiers c) &&
  (len (lg_events state) <=? cf_maximumEvents c) && (len (lg_admissionReservations state) <=? cf_maximumAdmissionReservations c) &&
  (len (lg_admissionRateEvents state) <=? cf_maximumAdmissionReservations c) &&
  (len (lg_admissionRetirements state) <=? cf_maximumAdmissionReservations c) &&
  (len (lg_runtimeIngress state) <=? cf_maximumIssuedIdentifiers c) &&
  (len (lg_providerControlGenerations state) <=? cf_maximumIssuedIdentifiers c) &&
  (len (lg_providerConnections state) <=? cf_maximumProviderConnections c) &&
  (len (lg_providerAssertionNonces state) <=? cf_maximumProviderAssertionNonces c) &&
  (json_bytes (ledger_json state) <=? cf_maximumStateBytes c) &&
  forallb valid_ticket (lg_tickets state) && distinct (map tk_digest (lg_tickets state)) &&
  forallb valid_idempotency (lg_idempotency state) && distinct (map si_keyDigest (lg_idempotency state)) &&
  forallb valid_reservation (lg_admissionReservations state) && distinct (map ar_tokenDigest (lg_admissionReservations state)) &&
  distinct (map ar_resourceDigest (lg_admissionReservations state)) &&
  forallb valid_retirement (lg_admissionRetirements state) && distinct (map retirement_key (lg_admissionRetirements state)) &&
  forallb (fun e => OPAQUE (re_scopeId e) && bounded (re_createdAt e) 0 MAX_SAFE_INTEGER) (lg_admissionRateEvents state) &&
  forallb valid_ingress (lg_runtimeIngress state) && distinct (map ingress_key (lg_runtimeIngress state)) &&
  match lg_providerAssertionKeyring state with Some k => valid_keyring k | None => true end &&
  forallb valid_generation (lg_providerControlGenerations state) && distinct (map pg_principalId (lg_providerControlGenerations state)) &&
  forallb valid_connection (lg_providerConnections state) && distinct (map pc_connectionId (lg_providerConnections state)) &&
  forallb valid_nonce (lg_providerAssertionNonces state) && distinct (map pn_digest (lg_providerAssertionNonces state)) &&
  forallb (valid_tombstone c) (lg_tombstones state) && distinct (map tombstone_key (lg_tombstones state)) &&
  forallb (fun t => scope_count (ts_scopeId t) (lg_tombstones state) <=? cf_maximumTombstonesPerScope c) (lg_tombstones state) &&
  forallb valid_issued (lg_issuedIdentifiers state) && distinct (map issued_key (lg_issuedIdentifiers state)) &&
  forallb (fun h => OPAQUE (eh_scopeId h) && safe (eh_sequence h) && (1 <=? eh_sequence h)) (lg_eventHeads state) &&
  distinct (map eh_scopeId (lg_eventHeads state)) && valid_events (lg_eventHeads state) [] (lg_events state) &&
  distinct (map (fun e => ev_eventId (se_event e)) (lg_events state)).
End Validation.
