(* ===== verification/LedgerTickets.v ===== *)
(** * LedgerTickets: tickets, idempotency keys and provider connections
    ([packages/portable-control-store/src/shared-control-store.ts])

    A method of the store checks its arguments, reads the clock, draws its random text and then
    hands [#mutate] an operation on the ledger.  Here it is a function to that operation; the
    clock reading and the random text are arguments. *)
From stdpp Require Import base tactics option list numbers strings sets.
From S2P Require Import Prelude JsMap JsString JsValue WireGuards WireFrames LedgerState.

(** What a method can throw; [RangeError] is the one of an invalid date. *)
Inductive LedgerError := TypeError | CapacityError | UnavailableError | RangeError.

(** An operation on the ledger, and a method that prepares one. *)
Abbreviation Op A := (Ledger -> (Ledger * A) + LedgerError).
Abbreviation Method A := (Op A + LedgerError)%type.
Implicit Types (state : Ledger).

Definition demand {A} (ok : bool) (k : Method A) : Method A := if ok then k else inr TypeError.
Definition clock_ok (now : Z) : bool := bounded now 0 MAX_SAFE_INTEGER.

Fixpoint find_index {A} (P : A -> bool) (l : list A) : option (nat * A) :=
  match l with
  | [] => None
  | x :: rest => if P x then Some (0%nat, x) else match find_index P rest with Some (i, y) => Some (S i, y) | None => None end
  end.

(** The items whose expiry lies ahead. *)
Definition live {A} (expiresAt : A -> Z) (now : Z) (l : list A) : list A := List.filter (fun x => now <? expiresAt x) l.

Definition is_set {A} (o : option A) : bool := match o with Some _ => true | None => false end.

Section Tickets.
Context (sha256_hex : jstr -> jstr) (config : LedgerConfig).

(** ** Tickets *)

Inductive TicketConsumeOutcome := Consumed (binding : TicketBinding) | Rejected.

Definition consume_at (now : Z) (t : StoredTicket) : StoredTicket :=
  mkTicket (tk_digest t) (tk_binding t) (tk_mintedAt t) (tk_expiresAt t) (Some now) (tk_revokedAt t).
Definition revoke_at (now : Z) (t : StoredTicket) : StoredTicket :=
  mkTicket (tk_digest t) (tk_binding t) (tk_mintedAt t) (tk_expiresAt t) (tk_consumedAt t) (Some now).
Definition is_spent (t : StoredTicket) : bool := is_set (tk_consumedAt t) || is_set (tk_revokedAt t).

Definition mintTicket (binding : TicketBinding) (ttlSeconds : Z) (ticket : jstr) (now : Z) : Method (jstr * jstr) :=
  demand (validateBinding binding && bounded ttlSeconds 1 MAX_TICKET_TTL_SECONDS && clock_ok now)
    (inl (fun state =>
      let digest := sha256_hex ticket in
      let expiresAt := now + ttlSeconds * 1000 in
      let retained := live tk_expiresAt now (lg_tickets state) in
      if (cf_maximumTickets config <=? len retained) || existsb (fun t => sameDigest (tk_digest t) digest) retained then inr CapacityError
      else match iso expiresAt with
           | Some text => inl (with_tickets state (retained ++ [mkTicket digest binding now expiresAt None None]), (ticket, text))
           | None => inr RangeError
           end)).

(** [#claim] *)
Definition claim (ticket : jstr) (matches : TicketBinding -> bool) (now : Z) : Method TicketConsumeOutcome :=
  demand (TICKET ticket && clock_ok now)
    (inl (fun state =>
      match find_index (fun t => sameDigest (tk_digest t) (sha256_hex ticket)) (lg_tickets state) with
      | None => inl (state, Rejected)
      | Some (i, current) =>
          if (tk_expiresAt current <=? now) || is_spent current || negb (matches (tk_binding current)) then inl (state, Rejected)
          else inl (with_tickets state (<[i := consume_at now current]> (lg_tickets state)), Consumed (tk_binding current))
      end)).

Definition map_op {A B} (f : A -> B) (m : Method A) : Method B :=
  match m with
  | inl op => inl (fun state => match op state with inl (state', a) => inl (state', f a) | inr e => inr e end)
  | inr e => inr e
  end.

Definition consumeTicket (binding : TicketBinding) (ticket : jstr) (now : Z) : Method bool :=
  demand (validateBinding binding)
    (map_op (fun o => match o with Consumed _ => true | Rejected => false end) (claim ticket (fun b => exactBinding b binding) now)).

Definition consumeTicketForTransport (ticket principalId audience providerControlGeneration purpose : jstr) (now : Z)
    : Method TicketConsumeOutcome :=
  demand (OPAQUE principalId && AUDIENCE audience && GENERATION providerControlGeneration && PURPOSE purpose)
    (claim ticket (fun b => jstr_eqb (tb_principalId b) principalId && jstr_eqb (tb_audience b) audience &&
       jstr_eqb (tb_providerControlGeneration b) providerControlGeneration && jstr_eqb (tb_purpose b) purpose) now).

Definition revokeTicket (ticket : jstr) (now : Z) : Method bool :=
  demand (TICKET ticket && clock_ok now)
    (inl (fun state =>
      let retained := live tk_expiresAt now (lg_tickets state) in
      match find_index (fun t => sameDigest (tk_digest t) (sha256_hex ticket)) retained with
      | None => inl (with_tickets state retained, false)
      | Some (i, current) =>
          if is_spent current then inl (with_tickets state retained, false)
          else inl (with_tickets state (<[i := revoke_at now current]> retained), true)
      end)).

Inductive RevocationCause :=
| ControlDisconnect (providerControlGeneration : jstr)
| ProviderControlGenerationReplacement (providerControlGeneration : jstr)
| RuntimeGenerationReplacement (runtimeGeneration : jstr)
| ExplicitCancellation (runtimeGeneration providerControlGeneration purpose : option jstr).
Record TicketRevocation := mkRevocation { tr_scopeId : jstr; tr_runtimeId : jstr; tr_cause : RevocationCause }.

Definition optional_eq (o : option jstr) (value : jstr) : bool := match o with Some s => jstr_eqb value s | None => true end.

(** [#revocationMatches] *)
Definition revocationMatches (b : TicketBinding) (request : TicketRevocation) : bool :=
  jstr_eqb (tb_scopeId b) (tr_scopeId request) && jstr_eqb (tb_runtimeId b) (tr_runtimeId request) &&
  match tr_cause request with
  | ControlDisconnect g | ProviderControlGenerationReplacement g => jstr_eqb (tb_providerControlGeneration b) g
  | RuntimeGenerationReplacement g => jstr_eqb (tb_runtimeGeneration b) g
  | ExplicitCancellation rg pg purpose =>
      optional_eq rg (tb_runtimeGeneration b) && optional_eq pg (tb_providerControlGeneration b) && optional_eq purpose (tb_purpose b)
  end.

Definition revokeTickets (request : TicketRevocation) (now : Z) : Method Z :=
  demand (clock_ok now && OPAQUE (tr_scopeId request) && OPAQUE (tr_runtimeId request))
    (inl (fun state =>
      let hit t := negb (is_spent t) && revocationMatches (tk_binding t) request in
      let retained := live tk_expiresAt now (lg_tickets state) in
      inl (with_tickets state (map (fun t => if hit t then revoke_at now t else t) retained), len (List.filter hit retained)))).

(** ** Idempotency keys *)

Record IdempotencyKey := mkIdempotencyKey {
  ik_principalId : jstr;
  ik_scopeId : jstr;
  ik_method : jstr;
  ik_canonicalPath : jstr;
  ik_idempotencyKey : jstr;
  ik_canonicalBodyDigest : jstr;
}.

(** [/^\/(?!\/)[\x21-\x7E]{0,2047}$/u] without question mark or hash *)
Definition is_canonical_path (s : jstr) : bool :=
  match s with
  | c :: rest =>
      (c =? 0x2F)%N && negb (starts_with (js "/") rest) && forallb (fun u => ((0x21 <=? u) && (u <=? 0x7E))%N) rest && (len rest <=? 2047) &&
      negb (existsb (fun u => (u =? 0x3F)%N || (u =? 0x23)%N) s)
  | [] => false
  end.
Definition is_method (s : jstr) : bool := forallb (fun u => ((0x41 <=? u) && (u <=? 0x5A))%N) s && (3 <=? len s) && (len s <=? 16).

Definition validateIdempotency (k : IdempotencyKey) : bool :=
  OPAQUE (ik_principalId k) && OPAQUE (ik_scopeId k) && is_method (ik_method k) && is_canonical_path (ik_canonicalPath k) &&
  (GENERATION (ik_idempotencyKey k) && (16 <=? len (ik_idempotencyKey k))) && DIGEST (ik_canonicalBodyDigest k).

(** [idempotencyDigests]: of the key and of the key with the body. *)
Definition key_text (k : IdempotencyKey) : jstr :=
  join [0%N] [ik_principalId k; ik_scopeId k; ik_method k; ik_canonicalPath k; ik_idempotencyKey k].
Definition keyDigest (k : IdempotencyKey) : jstr := sha256_hex (key_text k).
Definition bindingDigest (k : IdempotencyKey) : jstr := sha256_hex (key_text k ++ [0%N] ++ ik_canonicalBodyDigest k).

Inductive IdempotencyReservation := RNew (reservationToken : jstr) | RPending | RReplay (result : jv) | RConflict.
Inductive IdempotencyCompletion := CCompleted | CAlreadyCompleted (result : jv) | CReservationMismatch | CConflict | CNotFound.
Inductive IdempotencyRelease := LReleased | LReservationMismatch | LNotFound.

Definition stored_result (i : StoredIdempotency) : jv := default JUndef (si_result i).
Definition complete_at (now : Z) (result : jv) (i : StoredIdempotency) : StoredIdempotency :=
  mkStoredIdem (si_keyDigest i) (si_bindingDigest i) (si_reservationDigest i) true (si_createdAt i) (Some now) (now + DAY_MS) (Some result).

Definition reserveIdempotency (k : IdempotencyKey) (token : jstr) (now : Z) : Method IdempotencyReservation :=
  demand (validateIdempotency k && clock_ok now)
    (inl (fun state =>
      let records := live si_expiresAt now (lg_idempotency state) in
      match List.find (fun i => sameDigest (si_keyDigest i) (keyDigest k)) records with
      | Some retained =>
          inl (with_idempotency state records,
               if sameDigest (si_bindingDigest retained) (bindingDigest k)
               then if si_complete retained then RReplay (stored_result retained) else RPending
               else RConflict)
      | None =>
          if cf_maximumIdempotencyRecords config <=? len records then inr CapacityError
          else inl (with_idempotency state
                 (records ++ [mkStoredIdem (keyDigest k) (bindingDigest k) (sha256_hex token) false now None (now + DAY_MS) None]), RNew token)
      end)).

Definition completeIdempotency (k : IdempotencyKey) (token : jstr) (result : jv) (now : Z) : Method IdempotencyCompletion :=
  demand (validateIdempotency k && GENERATION token && valid_json result && clock_ok now)
    (inl (fun state =>
      let missing := inl (with_idempotency state (live si_expiresAt now (lg_idempotency state)), CNotFound) in
      match find_index (fun i => sameDigest (si_keyDigest i) (keyDigest k)) (lg_idempotency state) with
      | None => missing
      | Some (n, current) =>
          if si_expiresAt current <=? now then missing
          else if negb (sameDigest (si_bindingDigest current) (bindingDigest k)) ||
                  negb (sameDigest (si_reservationDigest current) (sha256_hex token)) then inl (state, CReservationMismatch)
          else if si_complete current then inl (state, CAlreadyCompleted (stored_result current))
          else inl (with_idempotency state (<[n := complete_at now result current]> (lg_idempotency state)), CCompleted)
      end)).

Definition releaseIdempotency (k : IdempotencyKey) (token : jstr) (now : Z) : Method IdempotencyRelease :=
  demand (validateIdempotency k && GENERATION token && clock_ok now)
    (inl (fun state =>
      let retained := live si_expiresAt now (lg_idempotency state) in
      match find_index (fun i => sameDigest (si_keyDigest i) (keyDigest k)) retained with
      | None => inl (with_idempotency state retained, LNotFound)
      | Some (n, current) =>
          if si_complete current || negb (sameDigest (si_bindingDigest current) (bindingDigest k)) ||
             negb (sameDigest (si_reservationDigest current) (sha256_hex token))
          then inl (with_idempotency state retained, LReservationMismatch)
          else inl (with_idempotency state (delete n retained), LReleased)
      end)).

Definition reconcileIdempotency (k : IdempotencyKey) (result : jv) (now : Z) : Method IdempotencyCompletion :=
  demand (validateIdempotency k && valid_json result && clock_ok now)
    (inl (fun state =>
      let missing := inl (with_idempotency state (live si_expiresAt now (lg_idempotency state)), CNotFound) in
      match find_index (fun i => sameDigest (si_keyDigest i) (keyDigest k)) (lg_idempotency state) with
      | None => missing
      | Some (n, current) =>
          if si_expiresAt current <=? now then missing
          else if negb (sameDigest (si_bindingDigest current) (bindingDigest k)) then inl (state, CConflict)
          else if si_complete current then inl (state, CAlreadyCompleted (stored_result current))
          else inl (with_idempotency state (<[n := complete_at now result current]> (lg_idempotency state)), CCompleted)
      end)).

Definition cleanupIdempotency (now : Z) : Method Z :=
  demand (clock_ok now)
    (inl (fun state =>
      let kept := live si_expiresAt now (lg_idempotency state) in
      inl (with_idempotency state kept, len (lg_idempotency state) - len kept))).

(** ** Provider connections *)

(** [#retainProviderConnections] *)
Definition retainProviderConnections (records : list SharedProviderConnectionRecord) (now : Z) : list SharedProviderConnectionRecord :=
  List.filter (fun c => now - (if bool_decide (pc_state c = CActive) then PROVIDER_CONNECTION_LEASE_MS else MAX_TICKET_TTL_SECONDS * 1000)
    <? pc_updatedAt c) records.

Definition of_generation (principalId generation : jstr) (c : SharedProviderConnectionRecord) : bool :=
  jstr_eqb (tb_principalId (pc_binding c)) principalId && jstr_eqb (tb_providerControlGeneration (pc_binding c)) generation &&
  negb (bool_decide (pc_state c = CClosed)).

(** [#providerGenerationBindings] *)
Definition providerGenerationBindings (records : list SharedProviderConnectionRecord) (principalId generation : jstr) : list TicketBinding :=
  map pc_binding (List.filter (of_generation principalId generation) records).

Definition set_connection (state : ConnectionState) (now : Z) (c : SharedProviderConnectionRecord) : SharedProviderConnectionRecord :=
  mkConnection (pc_binding c) (pc_connectionId c) (pc_ticketDigest c) state now.
Definition close_generation (principalId generation : jstr) (now : Z) (records : list SharedProviderConnectionRecord) :=
  map (fun c => if of_generation principalId generation c then set_connection CClosed now c else c) records.

Definition has_generation (l : list StoredProviderControlGeneration) (principalId generation : jstr) : bool :=
  existsb (fun g => jstr_eqb (pg_principalId g) principalId && jstr_eqb (pg_generation g) generation) l.
Definition owns_generation (l : list StoredProviderControlGeneration) (principalId generation ownerId : jstr) : bool :=
  existsb (fun g => jstr_eqb (pg_principalId g) principalId && jstr_eqb (pg_generation g) generation && jstr_eqb (pg_ownerId g) ownerId) l.

Definition owner_of (ownerId : option jstr) : jstr := default (js "legacy-owner") ownerId.

Inductive InstallOutcome := Installed (replaced : option (jstr * list TicketBinding)) | AlreadyActive.

Definition installProviderControlGeneration (principalId generation : jstr) (ownerId : option jstr) (now : Z) : Method InstallOutcome :=
  let owner := owner_of ownerId in
  demand (OPAQUE principalId && GENERATION generation && OPAQUE owner && clock_ok now)
    (inl (fun state =>
      let install tickets connections replaced :=
        let generations := List.filter (fun g => negb (jstr_eqb (pg_principalId g) principalId)) (lg_providerControlGenerations state)
                           ++ [mkProviderGeneration principalId generation owner now] in
        inl (with_connections (with_generations (with_tickets state tickets) generations) (retainProviderConnections connections now),
             Installed replaced) in
      match List.find (fun g => jstr_eqb (pg_principalId g) principalId) (lg_providerControlGenerations state) with
      | Some current =>
          if jstr_eqb (pg_generation current) generation
          then inl (state, if jstr_eqb (pg_ownerId current) owner then Installed None else AlreadyActive)
          else
            let revoke t := jstr_eqb (tb_principalId (tk_binding t)) principalId &&
              jstr_eqb (tb_providerControlGeneration (tk_binding t)) (pg_generation current) && negb (is_spent t) && (now <? tk_expiresAt t) in
            install (map (fun t => if revoke t then revoke_at now t else t) (lg_tickets state))
              (close_generation principalId (pg_generation current) now (lg_providerConnections state))
              (Some (pg_generation current, providerGenerationBindings (lg_providerConnections state) principalId (pg_generation current)))
      | None => install (lg_tickets state) (lg_providerConnections state) None
      end)).

(** Reads of the ledger, [isCurrentProviderControlGeneration] and [isProviderConnectionActive]. *)
Definition isCurrentProviderControlGeneration (principalId generation : jstr) (ownerId : option jstr) state : bool :=
  owns_generation (lg_providerControlGenerations state) principalId generation (owner_of ownerId).
Definition isProviderConnectionActive (connectionId : jstr) (now : Z) state : bool :=
  match List.find (fun c => jstr_eqb (pc_connectionId c) connectionId) (lg_providerConnections state) with
  | Some c => bool_decide (pc_state c = CActive) && (now - PROVIDER_CONNECTION_LEASE_MS <? pc_updatedAt c) &&
      has_generation (lg_providerControlGenerations state) (tb_principalId (pc_binding c)) (tb_providerControlGeneration (pc_binding c))
  | None => false
  end.

Inductive RegisterOutcome := Registered | RegisterConflict | StaleGeneration.

Definition registerProviderConnection (binding : TicketBinding) (connectionId ticket : jstr) (now : Z) : Method RegisterOutcome :=
  demand (validateBinding binding && OPAQUE connectionId && TICKET ticket && clock_ok now)
    (inl (fun state =>
      if negb (has_generation (lg_providerControlGenerations state) (tb_principalId binding) (tb_providerControlGeneration binding))
      then inl (state, StaleGeneration)
      else
        let retained := retainProviderConnections (lg_providerConnections state) now in
        if existsb (fun c => jstr_eqb (pc_connectionId c) connectionId) retained || (cf_maximumProviderConnections config <=? len retained)
        then inl (with_connections state retained, RegisterConflict)
        else inl (with_connections state (retained ++ [mkConnection binding connectionId (sha256_hex ticket) CTicket now]), Registered))).

Definition activateProviderConnection (binding : TicketBinding) (ticket : jstr) (now : Z) : Method (option jstr) :=
  demand (validateBinding binding && TICKET ticket && clock_ok now)
    (inl (fun state =>
      let retained := retainProviderConnections (lg_providerConnections state) now in
      match find_index (fun c => bool_decide (pc_state c = CTicket) && sameDigest (pc_ticketDigest c) (sha256_hex ticket) &&
                                 exactBinding (pc_binding c) binding) retained with
      | Some (i, current) =>
          if has_generation (lg_providerControlGenerations state) (tb_principalId binding) (tb_providerControlGeneration binding)
          then inl (with_connections state (<[i := set_connection CActive now current]> retained), Some (pc_connectionId current))
          else inl (with_connections state retained, None)
      | None => inl (with_connections state retained, None)
      end)).

Definition renewProviderConnection (connectionId : jstr) (now : Z) : Method bool :=
  demand (OPAQUE connectionId && clock_ok now)
    (inl (fun state =>
      let retained := retainProviderConnections (lg_providerConnections state) now in
      match find_index (fun c => jstr_eqb (pc_connectionId c) connectionId && bool_decide (pc_state c = CActive)) retained with
      | Some (i, current) =>
          if has_generation (lg_providerControlGenerations state) (tb_principalId (pc_binding current))
               (tb_providerControlGeneration (pc_binding current))
          then inl (with_connections state (<[i := set_connection (pc_state current) now current]> retained), true)
          else inl (with_connections state retained, false)
      | None => inl (with_connections state retained, false)
      end)).

Definition closeProviderConnection (connectionId : jstr) (now : Z) : Method bool :=
  demand (OPAQUE connectionId && clock_ok now)
    (inl (fun state =>
      match find_index (fun c => jstr_eqb (pc_connectionId c) connectionId) (lg_providerConnections state) with
      | None => inl (state, false)
      | Some (i, current) =>
          inl (with_connections state
                 (retainProviderConnections (<[i := set_connection CClosed now current]> (lg_providerConnections state)) now), true)
      end)).

Definition closeProviderControlGeneration (principalId generation : jstr) (now : Z) : Method Z :=
  demand (OPAQUE principalId && GENERATION generation && clock_ok now)
    (inl (fun state =>
      inl (with_connections state
             (retainProviderConnections (close_generation principalId generation now (lg_providerConnections state)) now),
           len (List.filter (of_generation principalId generation) (lg_providerConnections state))))).

Definition releaseProviderControlGeneration (principalId generation : jstr) (ownerId : option jstr) (now : Z)
    : Method (option (list TicketBinding)) :=
  let owner := owner_of ownerId in
  demand (OPAQUE principalId && GENERATION generation && OPAQUE owner && clock_ok now)
    (inl (fun state =>
      if negb (owns_generation (lg_providerControlGenerations state) principalId generation owner) then inl (state, None)
      else
        inl (with_connections
               (with_generations state (List.filter (fun g => negb (jstr_eqb (pg_principalId g) principalId)) (lg_providerControlGenerations state)))
               (retainProviderConnections (close_generation principalId generation now (lg_providerConnections state)) now),
             Some (providerGenerationBindings (lg_providerConnections state) principalId generation)))).

(** ** Provider assertions *)

Definition kidAccepted (assertionKid : jstr) (now : Z) (floor : StoredProviderAssertionKeyring) : bool :=
  jstr_eqb assertionKid (kr_activeKid floor) ||
  match kr_previous floor with Some (kid, notAfter) => jstr_eqb assertionKid kid && (now <=? notAfter) | None => false end.

(** [acceptProviderAssertionKeyring]: true is accepted, false is a rollback. *)
Definition acceptProviderAssertionKeyring (revision : Z) (activeKid assertionKid : jstr) (previous : option (jstr * Z)) (clock : Z) : Method bool :=
  demand (bounded revision 1 MAX_SAFE_INTEGER && KID activeKid && KID assertionKid &&
          match previous with Some (kid, notAfter) => KID kid && bounded notAfter 1 MAX_SAFE_INTEGER | None => true end && clock_ok clock)
    (let now := clock / 1000 in
     let next := mkKeyring revision activeKid previous in
     let install state := if kidAccepted assertionKid now next then inl (with_keyring state (Some next), true) else inl (state, false) in
     inl (fun state =>
      match lg_providerAssertionKeyring state with
      | None => install state
      | Some current =>
          if revision <? kr_revision current then
            inl (state, match kr_previous current with
                        | Some (kid, notAfter) => jstr_eqb kid activeKid && (now <=? notAfter) && jstr_eqb assertionKid activeKid
                        | None => false
                        end)
          else if kr_revision current =? revision then
            inl (state, jstr_eqb (kr_activeKid current) activeKid && bool_decide (kr_previous current = previous) && kidAccepted assertionKid now current)
          else match previous with
               | Some (kid, notAfter) => if negb (jstr_eqb kid (kr_activeKid current)) || (notAfter <? now) then inl (state, false) else install state
               | None => inl (state, false)
               end
      end)).

(** [claimProviderAssertionNonce]: true is claimed, false is a replay. *)
Definition claimProviderAssertionNonce (nonce : jstr) (expiresAt clock : Z) : Method bool :=
  let now := clock / 1000 in
  demand (forallb (fun u => is_alnum u || (u =? 0x5F)%N || (u =? 0x2D)%N) nonce && (len nonce =? 24) && bounded expiresAt 1 MAX_SAFE_INTEGER &&
          clock_ok clock && bounded expiresAt now (now + 30))
    (inl (fun state =>
      let retained := List.filter (fun n => now <=? pn_expiresAt n) (lg_providerAssertionNonces state) in
      if existsb (fun n => sameDigest (pn_digest n) (sha256_hex nonce)) retained then inl (with_nonces state retained, false)
      else if cf_maximumProviderAssertionNonces config <=? len retained then inr CapacityError
      else inl (with_nonces state (retained ++ [mkNonce (sha256_hex nonce) expiresAt]), true))).
End Tickets.
