(* ===== verification/LedgerAdmission.v ===== *)
(** * LedgerAdmission: runtime ingress and scope admission
    ([packages/portable-control-store/src/shared-control-store.ts])

    Leases of gateways on a runtime generation with their fence, and reservations against the
    limits of a scope. *)
From stdpp Require Import base tactics option list numbers strings sets.
From S2P Require Import Prelude JsMap JsString JsValue WireGuards WireFrames LedgerState LedgerTickets.
Implicit Types (state : Ledger).

(** ** The policy of a scope ([packages/portable-core/src/index.ts]) *)

Record RuntimeResourceDemand := mkDemand { rd_cpuMillis : Z; rd_memoryBytes : Z; rd_gpuUnits : Z }.
Record ScopeCreationRatePolicy := mkRate { cp_windowSeconds : Z; cp_burst : Z; cp_maximumRetryAfterSeconds : Z }.
Record ScopeAdmissionPolicy := mkPolicy {
  sp_limits : Amounts;
  sp_browserEnabled : bool;
  sp_runtimeResources : RuntimeResourceDemand;
  sp_creationRate : ScopeCreationRatePolicy;
}.

Definition decodeRuntimeResourceDemand (d : RuntimeResourceDemand) : bool :=
  bounded (rd_cpuMillis d) 0 1000000000 && bounded (rd_memoryBytes d) 0 MAX_SAFE_INTEGER && bounded (rd_gpuUnits d) 0 1000000.
Definition decodeScopeCreationRatePolicy (r : ScopeCreationRatePolicy) : bool :=
  bounded (cp_windowSeconds r) 1 86400 && bounded (cp_burst r) 1 100000 && bounded (cp_maximumRetryAfterSeconds r) 1 300.
(** The numeric checks of [decodeScopeAdmissionPolicy]; a record has no other keys. *)
Definition decodeScopeAdmissionPolicy (p : ScopeAdmissionPolicy) : bool :=
  let l := sp_limits p in
  bounded (am_activeRuntimes l) 0 100000 && bounded (am_retainedRuntimes l) 0 100000 && bounded (am_workspaceCapacityBytes l) 0 MAX_SAFE_INTEGER &&
  bounded (am_cpuMillis l) 0 1000000000 && bounded (am_memoryBytes l) 0 MAX_SAFE_INTEGER && bounded (am_gpuUnits l) 0 1000000 &&
  decodeRuntimeResourceDemand (sp_runtimeResources p) && decodeScopeCreationRatePolicy (sp_creationRate p).

Inductive AdmissionDenialReason :=
| active_runtime_limit | retained_runtime_limit | workspace_capacity_limit | cpu_limit | memory_limit | gpu_limit
| browser_disabled | creation_rate_limit | admission_unavailable.

Inductive ScopeAdmissionOutcome := Granted (reservationToken : jstr) | Denied (reason : AdmissionDenialReason) (retryAfterSeconds : option Z).

Section Admission.
Context (sha256_hex : jstr -> jstr) (config : LedgerConfig).

(** ** Runtime ingress *)

Definition ingress_identity_ok (runtimeId generation : jstr) : bool := OPAQUE runtimeId && GENERATION generation.
Definition is_ingress (runtimeId generation : jstr) (r : StoredRuntimeIngress) : bool :=
  jstr_eqb (ri_runtimeId r) runtimeId && jstr_eqb (ri_generation r) generation.
Definition set_leases (r : StoredRuntimeIngress) (leases : list StoredRuntimeIngressLease) : StoredRuntimeIngress :=
  mkIngress (ri_runtimeId r) (ri_generation r) (ri_open r) leases.
Definition set_open (r : StoredRuntimeIngress) (open : bool) : StoredRuntimeIngress :=
  mkIngress (ri_runtimeId r) (ri_generation r) open (ri_leases r).
Definition live_leases (now : Z) (r : StoredRuntimeIngress) : list StoredRuntimeIngressLease := live il_expiresAt now (ri_leases r).
Definition is_lease (gatewayReplicaEpoch leaseId : jstr) (l : StoredRuntimeIngressLease) : bool :=
  jstr_eqb (il_gatewayReplicaEpoch l) gatewayReplicaEpoch && sameDigest (il_leaseIdDigest l) (sha256_hex leaseId).

Inductive IngressOutcome := IngressAcquired (leaseId expiresAt : jstr) | IngressRenewed (expiresAt : jstr) | IngressFenced | IngressNotFound.

Definition with_iso {A} (value : Z) (k : jstr -> (Ledger * A) + LedgerError) : (Ledger * A) + LedgerError :=
  match iso value with Some text => k text | None => inr RangeError end.

(** Fenced records of other generations go once their leases have expired. *)
Definition retained_ingress (runtimeId generation : jstr) (now : Z) (l : list StoredRuntimeIngress) : list StoredRuntimeIngress :=
  List.filter (fun r => negb (jstr_eqb (ri_runtimeId r) runtimeId) || jstr_eqb (ri_generation r) generation || ri_open r ||
    existsb (fun lease => now <? il_expiresAt lease) (ri_leases r)) l.

Definition acquireRuntimeIngress (runtimeId generation gatewayReplicaEpoch : jstr) (ttlSeconds : Z) (leaseId : jstr) (now : Z)
    : Method IngressOutcome :=
  demand (ingress_identity_ok runtimeId generation && GENERATION gatewayReplicaEpoch && bounded ttlSeconds 1 60 && clock_ok now)
    (let expiresAt := now + ttlSeconds * 1000 in
     let lease := mkIngressLease (sha256_hex leaseId) gatewayReplicaEpoch expiresAt in
     inl (fun state =>
      let retained := retained_ingress runtimeId generation now (lg_runtimeIngress state) in
      match find_index (is_ingress runtimeId generation) retained with
      | Some (i, current) =>
          if negb (ri_open current) then inl (with_ingress state retained, IngressFenced)
          else with_iso expiresAt (fun text =>
            inl (with_ingress state (<[i := mkIngress runtimeId generation true (live_leases now current ++ [lease])]> retained),
                 IngressAcquired leaseId text))
      | None =>
          with_iso expiresAt (fun text =>
            inl (with_ingress state (retained ++ [mkIngress runtimeId generation true [lease]]), IngressAcquired leaseId text))
      end)).

Definition renewRuntimeIngress (runtimeId generation gatewayReplicaEpoch leaseId : jstr) (ttlSeconds now : Z) : Method IngressOutcome :=
  demand (ingress_identity_ok runtimeId generation && GENERATION gatewayReplicaEpoch && TICKET leaseId && bounded ttlSeconds 1 60 && clock_ok now)
    (let expiresAt := now + ttlSeconds * 1000 in
     inl (fun state =>
      match find_index (is_ingress runtimeId generation) (lg_runtimeIngress state) with
      | None => inl (state, IngressNotFound)
      | Some (i, current) =>
          let leases := live_leases now current in
          let keep leases := with_ingress state (<[i := set_leases current leases]> (lg_runtimeIngress state)) in
          if negb (ri_open current) then inl (keep leases, IngressFenced)
          else match find_index (is_lease gatewayReplicaEpoch leaseId) leases with
               | None => inl (keep leases, IngressNotFound)
               | Some (n, lease) =>
                   with_iso expiresAt (fun text =>
                     inl (keep (<[n := mkIngressLease (il_leaseIdDigest lease) (il_gatewayReplicaEpoch lease) expiresAt]> leases),
                          IngressRenewed text))
               end
      end)).

(** [releaseRuntimeIngress]: true is released, false not found. *)
Definition releaseRuntimeIngress (runtimeId generation gatewayReplicaEpoch leaseId : jstr) : Method bool :=
  demand (ingress_identity_ok runtimeId generation && GENERATION gatewayReplicaEpoch && TICKET leaseId)
    (inl (fun state =>
      match find_index (is_ingress runtimeId generation) (lg_runtimeIngress state) with
      | None => inl (state, false)
      | Some (i, current) =>
          match find_index (is_lease gatewayReplicaEpoch leaseId) (ri_leases current) with
          | None => inl (state, false)
          | Some (n, _) =>
              inl (with_ingress state (<[i := set_leases current (delete n (ri_leases current))]> (lg_runtimeIngress state)), true)
          end
      end)).

Inductive DrainMode := DrainIdle | DrainExplicit.
Inductive DrainOutcome := DrainFenced (activeLeases : Z) | DrainBusy (activeLeases : Z).

Definition beginRuntimeIngressDrain (runtimeId generation : jstr) (mode : DrainMode) (now : Z) : Method DrainOutcome :=
  demand (ingress_identity_ok runtimeId generation && clock_ok now)
    (inl (fun state =>
      let found := find_index (is_ingress runtimeId generation) (lg_runtimeIngress state) in
      let current := match found with Some (_, r) => r | None => mkIngress runtimeId generation true [] end in
      let leases := live_leases now current in
      let store r := match found with
                     | Some (i, _) => with_ingress state (<[i := r]> (lg_runtimeIngress state))
                     | None => with_ingress state (lg_runtimeIngress state ++ [r])
                     end in
      match mode, 0 <? len leases with
      | DrainIdle, true => inl (match found with Some _ => store (set_leases current leases) | None => state end, DrainBusy (len leases))
      | _, _ => inl (store (set_open (set_leases current leases) false), DrainFenced (len leases))
      end)).

(** [reopenRuntimeIngress]: true is reopened, false not found. *)
Definition reopenRuntimeIngress (runtimeId generation : jstr) : Method bool :=
  demand (ingress_identity_ok runtimeId generation)
    (inl (fun state =>
      match find_index (is_ingress runtimeId generation) (lg_runtimeIngress state) with
      | None => inl (state, false)
      | Some (i, current) => inl (with_ingress state (<[i := set_open current true]> (lg_runtimeIngress state)), true)
      end)).

(** [runtimeIngressState]: whether it is open, and its live leases. *)
Definition runtimeIngressState (runtimeId generation : jstr) (now : Z) : Method (bool * Z) :=
  demand (ingress_identity_ok runtimeId generation && clock_ok now)
    (inl (fun state =>
      match find_index (is_ingress runtimeId generation) (lg_runtimeIngress state) with
      | None => inl (state, (true, 0))
      | Some (i, current) =>
          inl (with_ingress state (<[i := set_leases current (live_leases now current)]> (lg_runtimeIngress state)),
               (ri_open current, len (live_leases now current)))
      end)).

(** ** Scope admission *)

Definition saturatedAdd (left right : Z) : Z := if MAX_SAFE_INTEGER - right <? left then MAX_SAFE_INTEGER else left + right.

Record ScopeAdmissionRequest := mkAdmission {
  aq_scopeId : jstr;
  aq_resourceKey : jstr;
  aq_resourceKind : ResourceKind;
  aq_transition : option ScopeAdmissionTransition;
  aq_workspaceCapacityBytes : option Z;
  aq_active : bool;
  aq_browserRequested : bool;
  aq_policy : ScopeAdmissionPolicy;
  aq_usage : Amounts;
  aq_observedResourceDigests : option (list jstr);
}.

Definition usage_ok (u : Amounts) : bool :=
  bounded (am_activeRuntimes u) 0 100000 && bounded (am_retainedRuntimes u) 0 100000 && bounded (am_workspaceCapacityBytes u) 0 MAX_SAFE_INTEGER &&
  bounded (am_cpuMillis u) 0 MAX_SAFE_INTEGER && bounded (am_memoryBytes u) 0 MAX_SAFE_INTEGER && bounded (am_gpuUnits u) 0 MAX_SAFE_INTEGER.

Definition request_transition (q : ScopeAdmissionRequest) : ScopeAdmissionTransition := default TCreate (aq_transition q).
Definition request_capacity (q : ScopeAdmissionRequest) : Z := default 0 (aq_workspaceCapacityBytes q).
Definition is_runtime (q : ScopeAdmissionRequest) : bool := bool_decide (aq_resourceKind q = KRuntime).

(** What the request adds to the usage of its scope. *)
Definition delta (q : ScopeAdmissionRequest) : Amounts :=
  let active := is_runtime q && aq_active q in
  let create := bool_decide (request_transition q = TCreate) in
  let r := sp_runtimeResources (aq_policy q) in
  mkAmounts (if active then 1 else 0) (if create && is_runtime q then 1 else 0)
    (if create && bool_decide (aq_resourceKind q = KWorkspace) then request_capacity q else 0)
    (if active then rd_cpuMillis r else 0) (if active then rd_memoryBytes r else 0) (if active then rd_gpuUnits r else 0).

Definition resource_digest (scopeId : jstr) (kind : ResourceKind) (resourceKey : jstr) (transition : ScopeAdmissionTransition) : jstr :=
  sha256_hex (scopeId ++ [0%N] ++ kind_text kind ++ [0%N] ++ resourceKey ++ [0%N] ++ transition_text transition).

(** The fields with the reason a full one is denied for, in the order they are checked. *)
Definition limits : list ((Amounts -> Z) * AdmissionDenialReason) :=
  [(am_activeRuntimes, active_runtime_limit); (am_retainedRuntimes, retained_runtime_limit);
   (am_workspaceCapacityBytes, workspace_capacity_limit); (am_cpuMillis, cpu_limit); (am_memoryBytes, memory_limit); (am_gpuUnits, gpu_limit)].

Definition total (scoped : list StoredAdmissionReservation) (field : Amounts -> Z) (q : ScopeAdmissionRequest) : Z :=
  fold_left (fun sum r => saturatedAdd sum (field (ar_amounts r))) scoped (saturatedAdd (field (aq_usage q)) (field (delta q))).

Definition exceeded (scoped : list StoredAdmissionReservation) (q : ScopeAdmissionRequest) : option AdmissionDenialReason :=
  snd <$> List.find (fun l => fst l (sp_limits (aq_policy q)) <? total scoped (fst l) q) limits.

Definition admission_request_ok (q : ScopeAdmissionRequest) : bool :=
  OPAQUE (aq_scopeId q) && OPAQUE (aq_resourceKey q) && workspace_or_runtime (aq_resourceKind q) && decodeScopeAdmissionPolicy (aq_policy q) &&
  usage_ok (aq_usage q) && match aq_observedResourceDigests q with Some l => forallb DIGEST l | None => true end &&
  bounded (request_capacity q) 0 MAX_SAFE_INTEGER.

Definition not_expired (now : Z) (r : StoredAdmissionReservation) : bool := ar_committed r || (now <? ar_expiresAt r).

(** [Math.ceil(a / 1000)] *)
Definition ceil_seconds (a : Z) : Z := - (- a / 1000).

Definition reserveAdmission (q : ScopeAdmissionRequest) (token : jstr) (now : Z) : Method ScopeAdmissionOutcome :=
  demand (admission_request_ok q && clock_ok now)
    (let policy := aq_policy q in
     let transition := request_transition q in
     let digest := resource_digest (aq_scopeId q) (aq_resourceKind q) (aq_resourceKey q) transition in
     inl (fun state =>
      let observed := default [] (aq_observedResourceDigests q) in
      let reservations := List.filter (fun r => not_expired now r && negb (ar_committed r && existsb (jstr_eqb (ar_resourceDigest r)) observed))
        (lg_admissionReservations state) in
      let deny reason retry := inl (with_admission state reservations (lg_admissionRateEvents state), Denied reason retry) in
      if existsb (fun r => jstr_eqb (ar_resourceDigest r) digest) reservations then deny admission_unavailable (Some 1)
      else if is_runtime q && aq_browserRequested q && negb (sp_browserEnabled policy) then deny browser_disabled None
      else
        let scoped := List.filter (fun r => jstr_eqb (ar_scopeId r) (aq_scopeId q)) reservations in
        match exceeded scoped q with
        | Some reason => deny reason None
        | None =>
            let windowMs := cp_windowSeconds (sp_creationRate policy) * 1000 in
            let rateEvents := List.filter (fun e => now - windowMs <? re_createdAt e) (lg_admissionRateEvents state) in
            let contributors :=
              if bool_decide (transition = TCreate)
              then map re_createdAt (List.filter (fun e => jstr_eqb (re_scopeId e) (aq_scopeId q)) rateEvents) ++
                   map ar_createdAt (List.filter (fun r => negb (ar_committed r) && bool_decide (ar_transition r = TCreate) &&
                     (now - windowMs <? ar_createdAt r)) scoped)
              else [] in
            if cp_burst (sp_creationRate policy) <=? len contributors then
              let oldest := fold_left Z.min contributors now in
              let retry := Z.max 1 (Z.min (cp_maximumRetryAfterSeconds (sp_creationRate policy)) (ceil_seconds (oldest + windowMs - now))) in
              inl (with_admission state reservations rateEvents, Denied creation_rate_limit (Some retry))
            else if cf_maximumAdmissionReservations config <=? len reservations then inr CapacityError
            else
              let item := mkReservation (sha256_hex token) digest (aq_scopeId q) transition (aq_resourceKind q) (delta q) now
                (now + Z.max windowMs 300000) false in
              inl (with_admission state (reservations ++ [item]) rateEvents, Granted token)
        end)).

Definition set_committed (r : StoredAdmissionReservation) : StoredAdmissionReservation :=
  mkReservation (ar_tokenDigest r) (ar_resourceDigest r) (ar_scopeId r) (ar_transition r) (ar_resourceKind r) (ar_amounts r) (ar_createdAt r)
    (ar_expiresAt r) true.

(** [commitAdmission]: true is committed, false not found. *)
Definition commitAdmission (token : jstr) (now : Z) : Method bool :=
  demand (OPAQUE token && clock_ok now)
    (inl (fun state =>
      let reservations := List.filter (not_expired now) (lg_admissionReservations state) in
      match find_index (fun r => sameDigest (ar_tokenDigest r) (sha256_hex token)) reservations with
      | None => inl (with_admission state reservations (lg_admissionRateEvents state), false)
      | Some (i, current) =>
          if ar_committed current then inl (with_admission state reservations (lg_admissionRateEvents state), true)
          else inl (with_admission state (<[i := set_committed current]> reservations)
                 (if bool_decide (ar_transition current = TCreate)
                  then lg_admissionRateEvents state ++ [mkRateEvent (ar_scopeId current) (ar_createdAt current)]
                  else lg_admissionRateEvents state), true)
      end)).

(** [releaseAdmission] and [reconcileAdmissionAbsence]: true is released, false not found. *)
Definition releaseAdmission (token : jstr) (now : Z) : Method bool :=
  demand (OPAQUE token && clock_ok now)
    (inl (fun state =>
      let reservations := List.filter (not_expired now) (lg_admissionReservations state) in
      let same r := sameDigest (ar_tokenDigest r) (sha256_hex token) in
      inl (with_admission state (List.filter (fun r => ar_committed r || negb (same r)) reservations) (lg_admissionRateEvents state),
           existsb (fun r => negb (ar_committed r) && same r) reservations))).

Definition reconcileAdmissionAbsence (scopeId : jstr) (kind : ResourceKind) (resourceKey : jstr) (transition : option ScopeAdmissionTransition)
    (now : Z) : Method bool :=
  demand (OPAQUE scopeId && OPAQUE resourceKey && workspace_or_runtime kind && clock_ok now)
    (inl (fun state =>
      let reservations := List.filter (not_expired now) (lg_admissionReservations state) in
      let hit r := ar_committed r && sameDigest (ar_resourceDigest r) (resource_digest scopeId kind resourceKey (default TCreate transition)) in
      inl (with_admission state (List.filter (fun r => negb (hit r)) reservations) (lg_admissionRateEvents state), existsb hit reservations))).

(** ** Retirement *)

Definition is_retirement (scopeId : jstr) (kind : ResourceKind) (resourceKey : jstr) (r : StoredAdmissionRetirement) : bool :=
  jstr_eqb (rt_scopeId r) scopeId && bool_decide (rt_resourceKind r = kind) && jstr_eqb (rt_resourceKey r) resourceKey.
Definition retirement_ok (scopeId : jstr) (kind : ResourceKind) (resourceKey : jstr) : bool :=
  OPAQUE scopeId && OPAQUE resourceKey && workspace_or_runtime kind.

(** [AdmissionRetirementIntent], through [#publicAdmissionRetirement]: completion and the dates. *)
Definition publicAdmissionRetirement (r : StoredAdmissionRetirement) : option (bool * jstr * option jstr) :=
  match iso (rt_createdAt r), rt_completedAt r with
  | Some created, None => Some (false, created, None)
  | Some created, Some c => match iso c with Some text => Some (true, created, Some text) | None => None end
  | None, _ => None
  end.

Definition beginAdmissionRetirement (scopeId : jstr) (kind : ResourceKind) (resourceKey : jstr) (now : Z)
    : Method (bool * jstr * option jstr) :=
  demand (retirement_ok scopeId kind resourceKey && clock_ok now)
    (inl (fun state =>
      let answer state r := match publicAdmissionRetirement r with Some p => inl (state, p) | None => inr RangeError end in
      match List.find (is_retirement scopeId kind resourceKey) (lg_admissionRetirements state) with
      | Some existing => answer state existing
      | None =>
          if cf_maximumAdmissionReservations config <=? len (lg_admissionRetirements state) then inr CapacityError
          else
            let created := mkRetirement scopeId kind resourceKey now None in
            answer (with_retirements state (lg_admissionRetirements state ++ [created])) created
      end)).

Definition getAdmissionRetirement (scopeId : jstr) (kind : ResourceKind) (resourceKey : jstr) state : option (bool * jstr * option jstr) :=
  match List.find (is_retirement scopeId kind resourceKey) (lg_admissionRetirements state) with
  | Some existing => publicAdmissionRetirement existing
  | None => None
  end.

Inductive RetirementOutcome := RetirementCompleted | RetirementAlreadyCompleted | RetirementNotFound.
Definition completeAdmissionRetirement (scopeId : jstr) (kind : ResourceKind) (resourceKey : jstr) (now : Z) : Method RetirementOutcome :=
  demand (retirement_ok scopeId kind resourceKey && clock_ok now)
    (inl (fun state =>
      match find_index (is_retirement scopeId kind resourceKey) (lg_admissionRetirements state) with
      | None => inl (state, RetirementNotFound)
      | Some (i, current) =>
          if is_set (rt_completedAt current) then inl (state, RetirementAlreadyCompleted)
          else inl (with_retirements state
                 (<[i := mkRetirement (rt_scopeId current) (rt_resourceKind current) (rt_resourceKey current) (rt_createdAt current) (Some now)]>
                    (lg_admissionRetirements state)), RetirementCompleted)
      end)).
End Admission.
