(* ===== verification/LedgerResources.v ===== *)
(** * LedgerResources: tombstones, issued identifiers and events
    ([packages/portable-control-store/src/shared-control-store.ts])

    [Date.parse] is the parameter [parse_date]. *)
From stdpp Require Import base tactics option list numbers strings sets.
From S2P Require Import Prelude JsMap JsString JsValue WireGuards WireFrames LedgerState LedgerTickets.
Implicit Types (state : Ledger).

Section Resources.
Context (sha256_hex : jstr -> jstr) (parse_date : jstr -> option Z) (config : LedgerConfig).
Abbreviation timestamp := (timestamp parse_date).
Abbreviation is_timestamp := (is_timestamp parse_date).

(** ** Tombstones *)

(** [#publicTombstone] *)
Record Tombstone := mkPublicTombstone {
  tm_scopeId : jstr;
  tm_resourceKind : ResourceKind;
  tm_resourceId : jstr;
  tm_deletedAt : jstr;
  tm_expiresAt : jstr;
}.
Definition publicTombstone (t : StoredTombstone) : Tombstone :=
  mkPublicTombstone (ts_scopeId t) (ts_resourceKind t) (ts_resourceId t) (ts_deletedAt t) (ts_expiresAt t).
Definition is_tombstone (scopeId : jstr) (kind : ResourceKind) (resourceId : jstr) (t : StoredTombstone) : bool :=
  jstr_eqb (ts_scopeId t) scopeId && bool_decide (ts_resourceKind t = kind) && jstr_eqb (ts_resourceId t) resourceId.

Inductive TombstonePutOutcome := TombstoneCreated (t : Tombstone) | TombstoneExisting (t : Tombstone) | TombstoneCapacityExceeded.

Definition putTombstone (scopeId : jstr) (kind : ResourceKind) (resourceId deletedAt : jstr) (now : Z) : Method TombstonePutOutcome :=
  demand (OPAQUE scopeId && OPAQUE resourceId && is_timestamp deletedAt && clock_ok now &&
          match timestamp deletedAt with Some d => match parse_date d with Some ms => ms <=? now | None => true end | None => false end)
    (inl (fun state =>
      let deletedAt := default [] (timestamp deletedAt) in
      let retained := live ts_expiresAtMs now (lg_tombstones state) in
      match List.find (is_tombstone scopeId kind resourceId) retained with
      | Some existing => inl (with_tombstones state retained, TombstoneExisting (publicTombstone existing))
      | None =>
          if cf_maximumTombstonesPerScope config <=? scope_count scopeId retained then inl (with_tombstones state retained, TombstoneCapacityExceeded)
          else
            let expiresAtMs := now + cf_tombstoneRetentionMs config in
            match iso expiresAtMs with
            | Some text =>
                let item := mkTombstone scopeId kind resourceId deletedAt text now expiresAtMs in
                inl (with_tombstones state (retained ++ [item]), TombstoneCreated (publicTombstone item))
            | None => inr RangeError
            end
      end)).

Definition getTombstone (scopeId : jstr) (kind : ResourceKind) (resourceId : jstr) (now : Z) : Method (option Tombstone) :=
  demand (OPAQUE scopeId && OPAQUE resourceId && clock_ok now)
    (inl (fun state =>
      let retained := live ts_expiresAtMs now (lg_tombstones state) in
      inl (with_tombstones state retained, publicTombstone <$> List.find (is_tombstone scopeId kind resourceId) retained))).

Definition cleanupTombstones (scopeId : jstr) (now : Z) : Method Z :=
  demand (OPAQUE scopeId && clock_ok now)
    (inl (fun state =>
      let kept := List.filter (fun t => negb (jstr_eqb (ts_scopeId t) scopeId) || (now <? ts_expiresAtMs t)) (lg_tombstones state) in
      inl (with_tombstones state kept, len (lg_tombstones state) - len kept))).

(** ** Issued identifiers *)

Definition is_issued (kind : ResourceKind) (resourceId : jstr) (i : SharedIssuedIdentifier) : bool :=
  bool_decide (id_resourceKind i = kind) && jstr_eqb (id_resourceId i) resourceId.
(** [#issuedRecord] *)
Definition issuedRecord_ok (scopeId : jstr) (kind : ResourceKind) (resourceId bindingDigest : jstr) : bool :=
  OPAQUE scopeId && workspace_or_runtime kind && OPAQUE resourceId && DIGEST bindingDigest.

Inductive IssuedOutcome :=
| IReserved | IExisting | IConflict | IBound | IClaimed | ITakenOver | IOwned | IInProgress | INotFound | IBegun | ICancelled | IAlreadyClear | IDeleted.
Abbreviation issued_result := (IssuedOutcome * option SharedIssuedIdentifier)%type.

Definition set_deletion (i : SharedIssuedIdentifier) (d : option Deletion) : SharedIssuedIdentifier :=
  mkIssued (id_scopeId i) (id_resourceKind i) (id_resourceId i) (id_bindingDigest i) (id_incarnationUid i) (id_deletedAt i) d (id_creation i).
Definition set_creation (i : SharedIssuedIdentifier) (c : Creation) : SharedIssuedIdentifier :=
  mkIssued (id_scopeId i) (id_resourceKind i) (id_resourceId i) (id_bindingDigest i) (id_incarnationUid i) (id_deletedAt i) (id_deletion i) (Some c).

Definition reserveIssuedIdentifier (scopeId : jstr) (kind : ResourceKind) (resourceId bindingDigest : jstr) : Method issued_result :=
  demand (issuedRecord_ok scopeId kind resourceId bindingDigest)
    (inl (fun state =>
      match List.find (is_issued kind resourceId) (lg_issuedIdentifiers state) with
      | Some existing =>
          inl (state, (if jstr_eqb (id_scopeId existing) scopeId && sameDigest (id_bindingDigest existing) bindingDigest then IExisting else IConflict,
                       Some existing))
      | None =>
          if cf_maximumIssuedIdentifiers config <=? len (lg_issuedIdentifiers state) then inr CapacityError
          else
            let record := mkIssued scopeId kind resourceId bindingDigest None None None None in
            inl (with_issued state (lg_issuedIdentifiers state ++ [record]), (IReserved, Some record))
      end)).

Definition bindIssuedIdentifier (scopeId : jstr) (kind : ResourceKind) (resourceId bindingDigest incarnationUid : jstr)
    (creationOwnerToken : option jstr) : Method issued_result :=
  demand (issuedRecord_ok scopeId kind resourceId bindingDigest && OPAQUE incarnationUid)
    (let requested := mkIssued scopeId kind resourceId bindingDigest (Some incarnationUid) None None None in
     inl (fun state =>
      match find_index (is_issued kind resourceId) (lg_issuedIdentifiers state) with
      | None => inl (state, (IConflict, Some requested))
      | Some (n, current) =>
          if match id_creation current with Some c => negb (bool_decide (Some (cr_ownerToken c) = creationOwnerToken)) | None => false end
          then inl (state, (IConflict, Some current))
          else if negb (jstr_eqb (id_scopeId current) scopeId) || negb (sameDigest (id_bindingDigest current) bindingDigest) ||
                  is_set (id_deletedAt current) ||
                  match id_incarnationUid current with Some u => negb (jstr_eqb u incarnationUid) | None => false end
          then inl (state, (IConflict, Some current))
          else if is_set (id_incarnationUid current) then inl (state, (IExisting, Some current))
          else inl (with_issued state (<[n := requested]> (lg_issuedIdentifiers state)), (IBound, Some requested))
      end)).

Definition claimIssuedIdentifierCreation (kind : ResourceKind) (resourceId bindingDigest ownerToken : jstr) (now leaseExpiresAt : Z)
    : Method issued_result :=
  demand (workspace_or_runtime kind && OPAQUE resourceId && DIGEST bindingDigest && OPAQUE ownerToken && bounded now 0 MAX_SAFE_INTEGER &&
          bounded leaseExpiresAt (now + 1) MAX_SAFE_INTEGER)
    (inl (fun state =>
      match find_index (is_issued kind resourceId) (lg_issuedIdentifiers state) with
      | None => inl (state, (INotFound, None))
      | Some (n, current) =>
          let store outcome c := let updated := set_creation current c in
            inl (with_issued state (<[n := updated]> (lg_issuedIdentifiers state)), (outcome, Some updated)) in
          if negb (sameDigest (id_bindingDigest current) bindingDigest) || is_set (id_deletedAt current) || is_set (id_incarnationUid current)
          then inl (state, (IConflict, Some current))
          else match id_creation current with
               | Some c =>
                   if jstr_eqb (cr_ownerToken c) ownerToken then store IOwned (mkCreation ownerToken (Z.max (cr_leaseExpiresAt c) leaseExpiresAt))
                   else if now <? cr_leaseExpiresAt c then inl (state, (IInProgress, Some current))
                   else store ITakenOver (mkCreation ownerToken leaseExpiresAt)
               | None => store IClaimed (mkCreation ownerToken leaseExpiresAt)
               end
      end)).

Definition beginIssuedIdentifierDeletion (kind : ResourceKind) (resourceId incarnationUid expectedRevision backendRevision requestedAt : jstr)
    : Method issued_result :=
  demand (workspace_or_runtime kind && OPAQUE resourceId && OPAQUE incarnationUid && OPAQUE expectedRevision && OPAQUE backendRevision &&
          is_timestamp requestedAt)
    (let deletion := mkDeletion expectedRevision backendRevision (default [] (timestamp requestedAt)) in
     inl (fun state =>
      match find_index (is_issued kind resourceId) (lg_issuedIdentifiers state) with
      | None => inl (state, (INotFound, None))
      | Some (n, current) =>
          if negb (bool_decide (id_incarnationUid current = Some incarnationUid)) || is_set (id_deletedAt current)
          then inl (state, (IConflict, Some current))
          else match id_deletion current with
               | Some d =>
                   inl (state, (if jstr_eqb (dl_expectedRevision d) expectedRevision && jstr_eqb (dl_backendRevision d) backendRevision
                                then IExisting else IConflict, Some current))
               | None =>
                   let updated := set_deletion current (Some deletion) in
                   inl (with_issued state (<[n := updated]> (lg_issuedIdentifiers state)), (IBegun, Some updated))
               end
      end)).

Definition cancelIssuedIdentifierDeletion (kind : ResourceKind) (resourceId incarnationUid expectedRevision backendRevision : jstr)
    : Method issued_result :=
  demand (workspace_or_runtime kind && OPAQUE resourceId && OPAQUE incarnationUid && OPAQUE expectedRevision && OPAQUE backendRevision)
    (inl (fun state =>
      match find_index (is_issued kind resourceId) (lg_issuedIdentifiers state) with
      | None => inl (state, (INotFound, None))
      | Some (n, current) =>
          if negb (bool_decide (id_incarnationUid current = Some incarnationUid)) || is_set (id_deletedAt current)
          then inl (state, (IConflict, Some current))
          else match id_deletion current with
               | None => inl (state, (IAlreadyClear, Some current))
               | Some d =>
                   if negb (jstr_eqb (dl_expectedRevision d) expectedRevision) || negb (jstr_eqb (dl_backendRevision d) backendRevision)
                   then inl (state, (IConflict, Some current))
                   else
                     let cleared := set_deletion current None in
                     inl (with_issued state (<[n := cleared]> (lg_issuedIdentifiers state)), (ICancelled, Some cleared))
               end
      end)).

Definition markIssuedIdentifierDeleted (kind : ResourceKind) (resourceId incarnationUid deletedAt : jstr) : Method issued_result :=
  demand (workspace_or_runtime kind && OPAQUE resourceId && OPAQUE incarnationUid && is_timestamp deletedAt)
    (inl (fun state =>
      match find_index (is_issued kind resourceId) (lg_issuedIdentifiers state) with
      | None => inl (state, (INotFound, None))
      | Some (n, current) =>
          if negb (bool_decide (id_incarnationUid current = Some incarnationUid)) then inl (state, (IConflict, Some current))
          else if is_set (id_deletedAt current) then inl (state, (IExisting, Some current))
          else
            let updated := mkIssued (id_scopeId current) (id_resourceKind current) (id_resourceId current) (id_bindingDigest current)
              (Some incarnationUid) (timestamp deletedAt) None None in
            inl (with_issued state (<[n := updated]> (lg_issuedIdentifiers state)), (IDeleted, Some updated))
      end)).

Definition getIssuedIdentifier (kind : ResourceKind) (resourceId : jstr) state : option SharedIssuedIdentifier :=
  List.find (is_issued kind resourceId) (lg_issuedIdentifiers state).

(** ** Events *)

(** [sequence.toString(36)] *)
Definition digit36 (d : Z) : N := if d <? 10 then (0x30 + Z.to_N d)%N else (0x57 + Z.to_N d)%N.
Fixpoint digits36 (fuel : nat) (n : Z) (rest : jstr) : jstr :=
  match fuel with
  | O => rest
  | S f => if n <? 36 then digit36 n :: rest else digits36 f (n / 36) (digit36 (n mod 36) :: rest)
  end.
Definition to36 (n : Z) : jstr := digits36 64 n [].

(** [#cursor] *)
Definition cursor_text (scopeId : jstr) (sequence : Z) : jstr := js "k1." ++ take 16 (sha256_hex scopeId) ++ js "." ++ to36 sequence.

(** [Number.parseInt(text, 36)] of lower-case digits *)
Definition value36 (u : N) : option Z :=
  if is_digit u then Some (Z.of_N u - 0x30) else if ((0x61 <=? u) && (u <=? 0x7A))%N then Some (Z.of_N u - 0x57) else None.
Fixpoint parse36 (acc : Z) (s : jstr) : option Z :=
  match s with [] => Some acc | u :: rest => match value36 u with Some d => parse36 (acc * 36 + d) rest | None => None end end.

(** [#decodeCursor]; [None] is the [TypeError]. *)
Definition is_hex (u : N) : bool := is_digit u || ((0x61 <=? u) && (u <=? 0x66))%N.
Definition decode_cursor (scopeId cursor : jstr) : option Z :=
  let digest := take 16 (drop 3 cursor) in
  let digits := drop 20 cursor in
  if starts_with (js "k1.") cursor && (len digest =? 16) && forallb is_hex digest && starts_with (js ".") (drop 19 cursor) &&
     negb (len digits =? 0) && jstr_eqb digest (take 16 (sha256_hex scopeId))
  then match parse36 0 digits with Some n => if bounded n 0 MAX_SAFE_INTEGER then Some n else None | None => None end
  else None.

Definition eventHeadCursor (scopeId : jstr) state : jstr := cursor_text scopeId (default 0 (head_of (lg_eventHeads state) scopeId)).

Definition appendEvent (value : InfrastructureEvent) (now : Z) : Method (InfrastructureEvent * jstr) :=
  match validateEvent parse_date value with
  | None => inr TypeError
  | Some event =>
      demand (clock_ok now)
        (inl (fun state =>
          let retained := List.filter (fun e => now - cf_eventRetentionMs config <? se_storedAt e) (lg_events state) in
          let scopeId := ev_scopeId event in
          match List.find (fun e => jstr_eqb (ev_eventId (se_event e)) (ev_eventId event)) retained with
          | Some duplicate =>
              let d := se_event duplicate in
              if bool_decide (ev_resourceKind d = ev_resourceKind event) && jstr_eqb (ev_resourceId d) (ev_resourceId event) &&
                 jstr_eqb (ev_scopeId d) scopeId && jstr_eqb (ev_revision d) (ev_revision event) && jstr_eqb (ev_phase d) (ev_phase event)
              then inl (with_events state (lg_eventHeads state) retained, (d, cursor_text scopeId (se_sequence duplicate)))
              else inr UnavailableError
          | None =>
              let found := find_index (fun h => jstr_eqb (eh_scopeId h) scopeId) (lg_eventHeads state) in
              if cf_maximumEvents config <=? len retained then inr CapacityError
              else if negb (is_set found) && (cf_maximumEvents config <=? len (lg_eventHeads state)) then inr CapacityError
              else
                let sequence := match found with Some (_, h) => eh_sequence h | None => 0 end + 1 in
                if negb (safe sequence) then inr CapacityError
                else
                  let heads := match found with
                               | Some (i, _) => <[i := mkHead scopeId sequence]> (lg_eventHeads state)
                               | None => lg_eventHeads state ++ [mkHead scopeId sequence]
                               end in
                  inl (with_events state heads (retained ++ [mkStoredEvent sequence event now]), (event, cursor_text scopeId sequence))
          end))
  end.

Inductive ReadOutcome := REvents (events : list InfrastructureEvent) (cursor : jstr) | RCursorExpired.

(** [readAfter] on the state it reads. *)
Definition readAfter (scopeId cursor : jstr) (limit : option Z) (now : Z) : (Ledger -> ReadOutcome + LedgerError) + LedgerError :=
  let limit := default MAX_LIST_LIMIT limit in
  match decode_cursor scopeId cursor with
  | None => inr TypeError
  | Some sequence =>
      if OPAQUE scopeId && bounded limit 1 MAX_LIST_LIMIT && clock_ok now then
        inl (fun state =>
          let scoped := List.filter (fun e => jstr_eqb (ev_scopeId (se_event e)) scopeId && (now - cf_eventRetentionMs config <? se_storedAt e))
            (lg_events state) in
          let head := default 0 (head_of (lg_eventHeads state) scopeId) in
          if head <? sequence then inr TypeError
          else if match scoped with e :: _ => sequence <? se_sequence e - 1 | [] => sequence <? head end then inl RCursorExpired
          else
            let selected := slice_first limit (List.filter (fun e => sequence <? se_sequence e) scoped) in
            inl (REvents (map se_event selected)
                   (cursor_text scopeId (match last_of selected with Some e => se_sequence e | None => sequence end))))
      else inr TypeError
  end.
End Resources.
