(* ===== verification/LedgerCalls.v ===== *)
(** * LedgerCalls: the requests a control store serves

    Every method of [SharedControlStore] that changes the ledger, as a request with its
    arguments, clock reading and random text; [perform] is the method's operation. *)
From stdpp Require Import base tactics option list numbers strings sets.
From S2P Require Import Prelude JsMap JsString JsValue WireGuards WireFrames LedgerState LedgerTickets LedgerAdmission LedgerResources.

Inductive LedgerRequest :=
| QInstallGeneration (principalId generation : jstr) (ownerId : option jstr) (now : Z)
| QRegisterConnection (binding : TicketBinding) (connectionId ticket : jstr) (now : Z)
| QActivateConnection (binding : TicketBinding) (ticket : jstr) (now : Z)
| QRenewConnection (connectionId : jstr) (now : Z)
| QCloseConnection (connectionId : jstr) (now : Z)
| QCloseGeneration (principalId generation : jstr) (now : Z)
| QReleaseGeneration (principalId generation : jstr) (ownerId : option jstr) (now : Z)
| QAcceptKeyring (revision : Z) (activeKid assertionKid : jstr) (previous : option (jstr * Z)) (clock : Z)
| QClaimNonce (nonce : jstr) (expiresAt clock : Z)
| QAcquireIngress (runtimeId generation gatewayReplicaEpoch : jstr) (ttlSeconds : Z) (leaseId : jstr) (now : Z)
| QRenewIngress (runtimeId generation gatewayReplicaEpoch leaseId : jstr) (ttlSeconds now : Z)
| QReleaseIngress (runtimeId generation gatewayReplicaEpoch leaseId : jstr)
| QDrainIngress (runtimeId generation : jstr) (mode : DrainMode) (now : Z)
| QReopenIngress (runtimeId generation : jstr)
| QIngressState (runtimeId generation : jstr) (now : Z)
| QReserveAdmission (q : ScopeAdmissionRequest) (token : jstr) (now : Z)
| QCommitAdmission (token : jstr) (now : Z)
| QReleaseAdmission (token : jstr) (now : Z)
| QReconcileAdmission (scopeId : jstr) (kind : ResourceKind) (resourceKey : jstr) (transition : option ScopeAdmissionTransition) (now : Z)
| QBeginRetirement (scopeId : jstr) (kind : ResourceKind) (resourceKey : jstr) (now : Z)
| QCompleteRetirement (scopeId : jstr) (kind : ResourceKind) (resourceKey : jstr) (now : Z)
| QReserveIdempotency (k : IdempotencyKey) (token : jstr) (now : Z)
| QCompleteIdempotency (k : IdempotencyKey) (token : jstr) (result : jv) (now : Z)
| QReleaseIdempotency (k : IdempotencyKey) (token : jstr) (now : Z)
| QReconcileIdempotency (k : IdempotencyKey) (result : jv) (now : Z)
| QCleanupIdempotency (now : Z)
| QMintTicket (binding : TicketBinding) (ttlSeconds : Z) (ticket : jstr) (now : Z)
| QConsumeTicket (binding : TicketBinding) (ticket : jstr) (now : Z)
| QConsumeForTransport (ticket principalId audience providerControlGeneration purpose : jstr) (now : Z)
| QRevokeTicket (ticket : jstr) (now : Z)
| QRevokeTickets (request : TicketRevocation) (now : Z)
| QPutTombstone (scopeId : jstr) (kind : ResourceKind) (resourceId deletedAt : jstr) (now : Z)
| QGetTombstone (scopeId : jstr) (kind : ResourceKind) (resourceId : jstr) (now : Z)
| QCleanupTombstones (scopeId : jstr) (now : Z)
| QReserveIssued (scopeId : jstr) (kind : ResourceKind) (resourceId bindingDigest : jstr)
| QBindIssued (scopeId : jstr) (kind : ResourceKind) (resourceId bindingDigest incarnationUid : jstr) (creationOwnerToken : option jstr)
| QClaimCreation (kind : ResourceKind) (resourceId bindingDigest ownerToken : jstr) (now leaseExpiresAt : Z)
| QBeginDeletion (kind : ResourceKind) (resourceId incarnationUid expectedRevision backendRevision requestedAt : jstr)
| QCancelDeletion (kind : ResourceKind) (resourceId incarnationUid expectedRevision backendRevision : jstr)
| QMarkDeleted (kind : ResourceKind) (resourceId incarnationUid deletedAt : jstr)
| QAppendEvent (value : InfrastructureEvent) (now : Z).

Inductive LedgerAnswer :=
| AInstall (o : InstallOutcome)
| ARegister (o : RegisterOutcome)
| ABool (b : bool)
| ACount (n : Z)
| AConnection (o : option jstr)
| ABindings (o : option (list TicketBinding))
| AIngress (o : IngressOutcome)
| ADrain (o : DrainOutcome)
| AIngressState (o : bool * Z)
| AAdmission (o : ScopeAdmissionOutcome)
| ARetirement (o : bool * jstr * option jstr)
| ARetired (o : RetirementOutcome)
| AReservation (o : IdempotencyReservation)
| ACompletion (o : IdempotencyCompletion)
| ARelease (o : IdempotencyRelease)
| ATicket (o : jstr * jstr)
| AConsume (o : TicketConsumeOutcome)
| APutTombstone (o : TombstonePutOutcome)
| ATombstone (o : option Tombstone)
| AIssued (o : IssuedOutcome * option SharedIssuedIdentifier)
| AEvent (o : InfrastructureEvent * jstr).

Section Perform.
Context (sha256_hex : jstr -> jstr) (parse_date : jstr -> option Z) (config : LedgerConfig).

Definition perform (q : LedgerRequest) : Method LedgerAnswer :=
  match q with
  | QInstallGeneration p g o now => map_op AInstall (installProviderControlGeneration p g o now)
  | QRegisterConnection b c t now => map_op ARegister (registerProviderConnection sha256_hex config b c t now)
  | QActivateConnection b t now => map_op AConnection (activateProviderConnection sha256_hex b t now)
  | QRenewConnection c now => map_op ABool (renewProviderConnection c now)
  | QCloseConnection c now => map_op ABool (closeProviderConnection c now)
  | QCloseGeneration p g now => map_op ACount (closeProviderControlGeneration p g now)
  | QReleaseGeneration p g o now => map_op ABindings (releaseProviderControlGeneration p g o now)
  | QAcceptKeyring r a k p now => map_op ABool (acceptProviderAssertionKeyring r a k p now)
  | QClaimNonce n e now => map_op ABool (claimProviderAssertionNonce sha256_hex config n e now)
  | QAcquireIngress r g e ttl l now => map_op AIngress (acquireRuntimeIngress sha256_hex r g e ttl l now)
  | QRenewIngress r g e l ttl now => map_op AIngress (renewRuntimeIngress sha256_hex r g e l ttl now)
  | QReleaseIngress r g e l => map_op ABool (releaseRuntimeIngress sha256_hex r g e l)
  | QDrainIngress r g m now => map_op ADrain (beginRuntimeIngressDrain r g m now)
  | QReopenIngress r g => map_op ABool (reopenRuntimeIngress r g)
  | QIngressState r g now => map_op AIngressState (runtimeIngressState r g now)
  | QReserveAdmission a t now => map_op AAdmission (reserveAdmission sha256_hex config a t now)
  | QCommitAdmission t now => map_op ABool (commitAdmission sha256_hex t now)
  | QReleaseAdmission t now => map_op ABool (releaseAdmission sha256_hex t now)
  | QReconcileAdmission s k r t now => map_op ABool (reconcileAdmissionAbsence sha256_hex s k r t now)
  | QBeginRetirement s k r now => map_op ARetirement (beginAdmissionRetirement config s k r now)
  | QCompleteRetirement s k r now => map_op ARetired (completeAdmissionRetirement s k r now)
  | QReserveIdempotency k t now => map_op AReservation (reserveIdempotency sha256_hex config k t now)
  | QCompleteIdempotency k t r now => map_op ACompletion (completeIdempotency sha256_hex k t r now)
  | QReleaseIdempotency k t now => map_op ARelease (releaseIdempotency sha256_hex k t now)
  | QReconcileIdempotency k r now => map_op ACompletion (reconcileIdempotency sha256_hex k r now)
  | QCleanupIdempotency now => map_op ACount (cleanupIdempotency now)
  | QMintTicket b ttl t now => map_op ATicket (mintTicket sha256_hex config b ttl t now)
  | QConsumeTicket b t now => map_op ABool (consumeTicket sha256_hex b t now)
  | QConsumeForTransport t p a g u now => map_op AConsume (consumeTicketForTransport sha256_hex t p a g u now)
  | QRevokeTicket t now => map_op ABool (revokeTicket sha256_hex t now)
  | QRevokeTickets r now => map_op ACount (revokeTickets r now)
  | QPutTombstone s k r d now => map_op APutTombstone (putTombstone parse_date config s k r d now)
  | QGetTombstone s k r now => map_op ATombstone (getTombstone s k r now)
  | QCleanupTombstones s now => map_op ACount (cleanupTombstones s now)
  | QReserveIssued s k r b => map_op AIssued (reserveIssuedIdentifier config s k r b)
  | QBindIssued s k r b i o => map_op AIssued (bindIssuedIdentifier s k r b i o)
  | QClaimCreation k r b o now l => map_op AIssued (claimIssuedIdentifierCreation k r b o now l)
  | QBeginDeletion k r i e b t => map_op AIssued (beginIssuedIdentifierDeletion parse_date k r i e b t)
  | QCancelDeletion k r i e b => map_op AIssued (cancelIssuedIdentifierDeletion k r i e b)
  | QMarkDeleted k r i d => map_op AIssued (markIssuedIdentifierDeleted parse_date k r i d)
  | QAppendEvent v now => map_op AEvent (appendEvent sha256_hex parse_date config v now)
  end.
End Perform.
