(* ===== verification/LedgerStore.v ===== *)
(** * LedgerStore: operations on a shared ledger
    ([packages/portable-control-store/src/shared-control-store.ts], the loop [#mutate], and
    [sqlite-shared-ledger-storage.ts])

    [#mutate] reads the ledger, applies its operation and writes the result back under the
    version it read; a conflict starts it again.  It is a state machine that is suspended while
    the storage answers. *)
From stdpp Require Import base tactics option list numbers strings sets.
From S2P Require Import Prelude JsMap JsString JsValue WireGuards WireFrames LedgerState LedgerTickets LedgerAdmission LedgerResources.
Implicit Types (state : Ledger).

(** ** The storage *)

Inductive StorageResponse :=
| SSnapshot (snapshot : option (jstr * Ledger))
| SStored
| SConflict
| SUnavailable.

(** [SharedControlLedgerStorage]; [create] is a write that expects nothing to be there. *)
Class LedgerStorage (S : Type) := {
  st_current : S -> option (jstr * Ledger);
  st_used : S -> jstr -> Prop;
  st_read : S -> StorageResponse;
  st_write : S -> option jstr -> Ledger -> S * StorageResponse;
}.

(** A write happens only when the ledger still has the expected version, and gives it a new one.  Nothing is promised of a write
    that would leave the ledger as it is: [#mutate] makes none. *)
Class LedgerStorageLaws (S : Type) `{LedgerStorage S} : Prop := {
  st_used_current : forall s v state, st_current s = Some (v, state) -> st_used s v;
  st_read_current : forall s snapshot, st_read s = SSnapshot snapshot -> st_current s = snapshot;
  st_write_cases : forall s expected state, (fst <$> st_current s = expected -> snd <$> st_current s ≠ Some state) ->
    (exists r, st_write s expected state = (s, r) /\ (r = SConflict \/ r = SUnavailable)) \/
    exists s' v, st_write s expected state = (s', SStored) /\ fst <$> st_current s = expected /\ st_current s' = Some (v, state) /\
      ~ st_used s v /\ forall w, st_used s w -> st_used s' w;
}.

(** ** [#mutate] *)

Inductive StorageRequest := SRead | SWrite (expected : option jstr) (next : Ledger).

Section Mutate.
Context {R : Type} (parse_date : jstr -> option Z) (config : LedgerConfig).

(** Where a call is: reading, writing what leads to [result], or settled. *)
Inductive Phase :=
| Reading (tries : Z)
| Writing (tries : Z) (result : R)
| Returned (result : R)
| Thrown (error : LedgerError).

Definition mutate_attempt (tries : Z) : Phase * option StorageRequest :=
  if tries <? cf_maximumContentionRetries config then (Reading tries, Some SRead) else (Thrown UnavailableError, None).
Definition mutate : Phase * option StorageRequest := mutate_attempt 0.

(** The errors that pass through the loop; any other becomes [SharedControlLedgerUnavailableError]. *)
Definition rethrown (error : LedgerError) : LedgerError := match error with RangeError => UnavailableError | _ => error end.

Definition snapshot_state (snapshot : option (jstr * Ledger)) : Ledger := match snapshot with Some (_, state) => state | None => initialState end.

Definition mutate_read (op : Op R) (tries : Z) (response : StorageResponse) : Phase * option StorageRequest :=
  match response with
  | SSnapshot snapshot =>
      let current := snapshot_state snapshot in
      if negb (validateState parse_date config current) then (Thrown UnavailableError, None)
      else match op current with
           | inr error => (Thrown (rethrown error), None)
           | inl (next, result) =>
               if negb (validateState parse_date config next) then (Thrown UnavailableError, None)
               else if bool_decide (next = current) then (Returned result, None)
               else (Writing tries result, Some (SWrite (fst <$> snapshot) next))
           end
  | SConflict => mutate_attempt (tries + 1)
  | SStored | SUnavailable => (Thrown UnavailableError, None)
  end.

Definition mutate_write (tries : Z) (result : R) (response : StorageResponse) : Phase * option StorageRequest :=
  match response with
  | SStored => (Returned result, None)
  | SConflict => mutate_attempt (tries + 1)
  | SSnapshot _ | SUnavailable => (Thrown UnavailableError, None)
  end.

Definition mutate_resume (op : Op R) (phase : Phase) (response : StorageResponse) : option (Phase * option StorageRequest) :=
  match phase with
  | Reading tries => Some (mutate_read op tries response)
  | Writing tries result => Some (mutate_write tries result response)
  | Returned _ | Thrown _ => None
  end.
End Mutate.
Arguments Phase R : clear implicits.

(** ** The storage in SQLite *)

(** The one row of [shared_control_ledger]: its version counts from 1. *)
Record SqliteLedgerStorage := mkSqlite { sq_row : option (positive * Ledger) }.
Definition sqlite_version (n : positive) : jstr := N_digits (Npos n).

Definition MAX_STATE_BYTES : Z := 768 * 1024.
(** [#serialized] and [#snapshot]: the text of a state in the row is not larger. *)
Definition fits_row state : bool := json_bytes (ledger_json state) <=? MAX_STATE_BYTES.

Definition sqlite_read (s : SqliteLedgerStorage) : StorageResponse :=
  match sq_row s with
  | Some (n, state) => if fits_row state && (Zpos n <=? MAX_SAFE_INTEGER) then SSnapshot (Some (sqlite_version n, state)) else SUnavailable
  | None => SSnapshot None
  end.

(** [INSERT], which a present row refuses. *)
Definition sqlite_create (s : SqliteLedgerStorage) state : SqliteLedgerStorage * StorageResponse :=
  if negb (fits_row state) then (s, SUnavailable)
  else match sq_row s with Some _ => (s, SConflict) | None => (mkSqlite (Some (1%positive, state)), SStored) end.

(** [/^[1-9][0-9]{0,15}$/u], and the number it denotes *)
Definition is_sqlite_version (v : jstr) : bool :=
  match v with c :: rest => is_digit c && negb (c =? 0x30)%N && forallb is_digit rest && (len rest <=? 15) | [] => false end.
Definition decimal (v : jstr) : Z := fold_left (fun acc u => acc * 10 + (Z.of_N u - 0x30)) v 0.

(** [UPDATE ... WHERE resource_version=?] *)
Definition sqlite_replace (s : SqliteLedgerStorage) (resourceVersion : jstr) state : SqliteLedgerStorage * StorageResponse :=
  if negb (is_sqlite_version resourceVersion) || (MAX_SAFE_INTEGER <=? decimal resourceVersion) || negb (fits_row state) then (s, SUnavailable)
  else match sq_row s with
       | Some (n, _) => if jstr_eqb resourceVersion (sqlite_version n) then (mkSqlite (Some (Pos.succ n, state)), SStored) else (s, SConflict)
       | None => (s, SConflict)
       end.
