(* ===== verification/LedgerStoreSpec.v ===== *)
(** * LedgerStoreSpec: concurrent calls on the ledger are atomic

    Any number of calls of [#mutate], from any number of replicas, share a storage that honours
    the versions of its writes.  Requests and responses may be delayed or lost.  A log records
    the writes that happened; it is a sequential history of the ledger. *)
From stdpp Require Import base tactics option list numbers strings sets relations.
From S2P Require Import Prelude JsMap JsString JsValue NumberText LedgerState LedgerTickets LedgerStore.

Inductive StoreWire := WQuiet | WSent (q : StorageRequest) | WAnswered (r : StorageResponse).

Section Calls.
Context {R S : Type} `{LedgerStorageLaws S} (parse_date : jstr -> option Z) (config : LedgerConfig).
Implicit Types (s : S) (state : Ledger) (log : list (nat * R)) (ops : list (Op R)).
Abbreviation valid := (validateState parse_date config).

(** A call with its operation, and the length of the log when it started. *)
Record Call := mkCall { c_op : Op R; c_phase : Phase R; c_wire : StoreWire; c_start : nat }.
Implicit Types (c : Call).

Record Replicas := mkReplicas {
  rp_storage : S;
  rp_calls : list Call;
  rp_late : list (nat * option jstr * Ledger * R);
  rp_log : list (nat * R);
}.
Implicit Types (w : Replicas).

Definition waits (st : Phase R * option StorageRequest) : StoreWire := match snd st with Some q => WSent q | None => WQuiet end.
Definition call_after c (st : Phase R * option StorageRequest) : Call := mkCall (c_op c) (fst st) (waits st) (c_start c).
Definition set_call w (i : nat) c : Replicas := mkReplicas (rp_storage w) (<[i := c]> (rp_calls w)) (rp_late w) (rp_log w).

Definition logged log (i : nat) (result : R) (r : StorageResponse) : list (nat * R) :=
  match r with SStored => log ++ [(i, result)] | _ => log end.

(** An abandoned write may still be served later, more than once. *)
Inductive replicas_step : Replicas -> Replicas -> Prop :=
| call_start w op :
    replicas_step w (mkReplicas (rp_storage w)
      (rp_calls w ++ [mkCall op (fst (mutate config)) (waits (mutate config)) (length (rp_log w))]) (rp_late w) (rp_log w))
| call_read w i c : rp_calls w !! i = Some c -> c_wire c = WSent SRead ->
    replicas_step w (set_call w i (mkCall (c_op c) (c_phase c) (WAnswered (st_read (rp_storage w))) (c_start c)))
| call_write w i c expected next tries result : rp_calls w !! i = Some c -> c_wire c = WSent (SWrite expected next) ->
    c_phase c = Writing tries result ->
    replicas_step w (mkReplicas (fst (st_write (rp_storage w) expected next))
      (<[i := mkCall (c_op c) (c_phase c) (WAnswered (snd (st_write (rp_storage w) expected next))) (c_start c)]> (rp_calls w)) (rp_late w)
      (logged (rp_log w) i result (snd (st_write (rp_storage w) expected next))))
| call_deliver w i c r st : rp_calls w !! i = Some c -> c_wire c = WAnswered r ->
    mutate_resume parse_date config (c_op c) (c_phase c) r = Some st -> replicas_step w (set_call w i (call_after c st))
| call_lose w i c r st : rp_calls w !! i = Some c -> c_wire c = WAnswered r ->
    mutate_resume parse_date config (c_op c) (c_phase c) SUnavailable = Some st -> replicas_step w (set_call w i (call_after c st))
| call_abandon_read w i c st : rp_calls w !! i = Some c -> c_wire c = WSent SRead ->
    mutate_resume parse_date config (c_op c) (c_phase c) SUnavailable = Some st -> replicas_step w (set_call w i (call_after c st))
| call_abandon_write w i c expected next tries result st : rp_calls w !! i = Some c -> c_wire c = WSent (SWrite expected next) ->
    c_phase c = Writing tries result -> mutate_resume parse_date config (c_op c) (c_phase c) SUnavailable = Some st ->
    replicas_step w (mkReplicas (rp_storage w) (<[i := call_after c st]> (rp_calls w)) ((i, expected, next, result) :: rp_late w) (rp_log w))
| call_late w i expected next result : (i, expected, next, result) ∈ rp_late w ->
    replicas_step w (mkReplicas (fst (st_write (rp_storage w) expected next)) (rp_calls w) (rp_late w)
      (logged (rp_log w) i result (snd (st_write (rp_storage w) expected next)))).

(** ** The sequential ledger *)

(** The history [log] of operations, applied one after the other to valid ledgers, ends in [state]. *)
Inductive sequential ops : list (nat * R) -> Ledger -> Prop :=
| seq_start : sequential ops [] initialState
| seq_apply log state i op result next : sequential ops log state -> ops !! i = Some op -> valid state = true ->
    op state = inl (next, result) -> valid next = true -> sequential ops (log ++ [(i, result)]) next.

(** Call [i] took effect at one point of the history after it started: it is the entry there, or
    it left the ledger at that point unchanged. *)
Definition took_effect ops log (i : nat) (start : nat) (result : R) : Prop :=
  exists n, (start <= n <= length log)%nat /\
    (log !! n = Some (i, result) \/
     exists op state, ops !! i = Some op /\ sequential ops (take n log) state /\ valid state = true /\ op state = inl (state, result)).

Definition ops_of w : list (Op R) := map c_op (rp_calls w).

(** ** The invariant *)

Definition known s (expected : option jstr) : Prop := match expected with Some v => st_used s v | None => True end.

Definition write_ok s ops log (i : nat) (expected : option jstr) (next : Ledger) (result : R) : Prop :=
  known s expected /\
  (fst <$> st_current s = expected -> i ∉ map fst log /\
   exists op, ops !! i = Some op /\ valid (snapshot_state (st_current s)) = true /\
     op (snapshot_state (st_current s)) = inl (next, result) /\ valid next = true /\ snd <$> st_current s ≠ Some next).

Definition snapshot_ok s ops log (start : nat) (snapshot : option (jstr * Ledger)) : Prop :=
  known s (fst <$> snapshot) /\ (fst <$> st_current s = fst <$> snapshot -> st_current s = snapshot) /\
  exists n, (start <= n <= length log)%nat /\ sequential ops (take n log) (snapshot_state snapshot).

Definition phase_ok s ops log (i : nat) c : Prop :=
  match c_phase c, c_wire c with
  | Reading _, WSent SRead => i ∉ map fst log
  | Reading _, WAnswered (SSnapshot snapshot) => i ∉ map fst log /\ snapshot_ok s ops log (c_start c) snapshot
  | Reading _, WAnswered _ => i ∉ map fst log
  | Writing _ result, WSent (SWrite expected next) => i ∉ map fst log /\ write_ok s ops log i expected next result
  | Writing _ result, WAnswered SStored => exists n, (c_start c <= n)%nat /\ log !! n = Some (i, result)
  | Writing _ _, WAnswered _ => i ∉ map fst log
  | Returned result, WQuiet => took_effect ops log i (c_start c) result
  | Thrown _, WQuiet => True
  | _, _ => False
  end.
Definition call_ok s ops log (i : nat) c : Prop := (c_start c <= length log)%nat /\ phase_ok s ops log i c.

Record replicas_ok w : Prop := {
  ro_sequential : sequential (ops_of w) (rp_log w) (snapshot_state (st_current (rp_storage w)));
  ro_calls : forall i c, rp_calls w !! i = Some c -> call_ok (rp_storage w) (ops_of w) (rp_log w) i c;
  ro_late : forall i expected next result, (i, expected, next, result) ∈ rp_late w ->
    write_ok (rp_storage w) (ops_of w) (rp_log w) i expected next result /\
    forall c, rp_calls w !! i = Some c -> exists error, c_phase c = Thrown error;
  ro_late_calls : forall i expected next result, (i, expected, next, result) ∈ rp_late w -> is_Some (rp_calls w !! i);
  ro_once : NoDup (map fst (rp_log w));
}.

(** ** What later steps keep *)

Record moves s s' : Prop := {
  mv_used : forall v, st_used s v -> st_used s' v;
  mv_current : st_current s' = st_current s \/ exists v state, st_current s' = Some (v, state) /\ ~ st_used s v;
}.

Lemma moves_refl s : moves s s.
Proof. constructor; auto. Qed.

Lemma sequential_more ops ops' log state : sequential ops log state -> sequential (ops ++ ops') log state.
Proof. induction 1; [constructor|]. econstructor; eauto. by apply lookup_app_l_Some. Qed.

(** A history determines its ledgers. *)
Lemma sequential_snoc ops log i a next : sequential ops (log ++ [(i, a)]) next ->
  exists op state, sequential ops log state /\ ops !! i = Some op /\ valid state = true /\ op state = inl (next, a) /\ valid next = true.
Proof.
  intros Hs. inversion Hs as [E|log' state i' op a' next' Hseq Hop Hv Happ Hv' E]; [by destruct log|].
  apply app_inj_tail in E as [-> [= -> ->]]. eauto 10.
Qed.

Lemma sequential_det ops log state state' : sequential ops log state -> sequential ops log state' -> state = state'.
Proof.
  intros Hs. revert state'. induction Hs as [|log state i op a next Hs IH Hop Hv Happ Hv']; intros state' Hs'.
  - inversion Hs' as [|log' ? ? ? ? ? ? ? ? ? ? E]; [done|by destruct log'].
  - apply sequential_snoc in Hs' as (op' & st & Hst & Hop' & _ & Happ' & _). rewrite <- (IH st Hst) in Happ'. simplify_eq. congruence.
Qed.

Lemma known_moves s s' e : moves s s' -> known s e -> known s' e.
Proof. intros [Hu _]. destruct e; [apply Hu|done]. Qed.

(** A version that was known is current after a move only if the ledger did not change. *)
Lemma moves_known s s' e : moves s s' -> known s e -> fst <$> st_current s' = e -> st_current s' = st_current s.
Proof. intros [_ [E|(v & state & E & Hn)]] Hk He; [done|]. rewrite E in He. cbn in He. subst e. by destruct Hn. Qed.

Lemma write_ok_moves s s' ops ops' log log' i e next r : moves s s' -> i ∉ map fst log' ->
  write_ok s ops log i e next r -> write_ok s' (ops ++ ops') (log ++ log') i e next r.
Proof.
  intros Hm Hi [Hk Hw]. split; [by eapply known_moves|]. intros He. pose proof (moves_known _ _ _ Hm Hk He) as E. rewrite E in He |- *.
  destruct (Hw He) as (Hn & op & Ho & ?). split; [rewrite map_app, not_elem_of_app; done|]. exists op. split; [by apply lookup_app_l_Some|done].
Qed.

Lemma snapshot_ok_moves s s' ops ops' log log' start x : moves s s' ->
  snapshot_ok s ops log start x -> snapshot_ok s' (ops ++ ops') (log ++ log') start x.
Proof.
  intros Hm (Hk & Hc & n & Hn & Hs). split; [by eapply known_moves|]. split.
  - intros He. pose proof (moves_known _ _ _ Hm Hk He) as E. rewrite E in He |- *. auto.
  - exists n. rewrite length_app, take_app_le by lia. split; [lia|by apply sequential_more].
Qed.

Lemma took_effect_more ops ops' log log' i start r : took_effect ops log i start r -> took_effect (ops ++ ops') (log ++ log') i start r.
Proof.
  intros (n & Hn & Hr). exists n. rewrite length_app. split; [lia|]. destruct Hr as [Hl|(op & state & Ho & Hs & ?)]; [left; by apply lookup_app_l_Some|right].
  exists op, state. rewrite take_app_le by lia. split_and!; [by apply lookup_app_l_Some|by apply sequential_more|tauto|tauto].
Qed.

Lemma call_ok_moves s s' ops ops' log log' i c : moves s s' -> i ∉ map fst log' ->
  call_ok s ops log i c -> call_ok s' (ops ++ ops') (log ++ log') i c.
Proof.
  intros Hm Hi [Hst Hp]. split; [rewrite length_app; lia|]. unfold phase_ok in *.
  assert (i ∉ map fst log -> i ∉ map fst (log ++ log')) as Happ by (rewrite map_app, not_elem_of_app; done).
  destruct (c_phase c) as [k|k r|r|e]; destruct (c_wire c) as [|[|e' n']|[x| | |]]; try done; try (by apply Happ).
  - destruct Hp as [? ?]. split; [auto|by eapply snapshot_ok_moves].
  - destruct Hp as [? ?]. split; [auto|by eapply write_ok_moves].
  - destruct Hp as (n & Hn & Hl). exists n. split; [done|by apply lookup_app_l_Some].
  - by apply took_effect_more.
Qed.

(** ** Serving a write *)

Lemma call_ok_same s s' ops log log' i c : moves s s' -> i ∉ map fst log' -> call_ok s ops log i c -> call_ok s' ops (log ++ log') i c.
Proof. intros Hm Hi Hc. rewrite <- (app_nil_r ops). by eapply call_ok_moves. Qed.

Lemma write_stale s s' ops log i e next r v state : (forall u, st_used s u -> st_used s' u) -> st_current s' = Some (v, state) -> ~ st_used s v ->
  known s e -> write_ok s' ops log i e next r.
Proof.
  intros Hu Hc Hn Hk. split; [destruct e; [by apply Hu|done]|]. rewrite Hc. cbn. intros <-. by destruct Hn.
Qed.

(** What serving a write that was prepared for call [i] leads to. *)
Record write_served w (i : nat) (result : R) (s' : S) (r : StorageResponse) : Prop := {
  ws_sequential : sequential (ops_of w) (logged (rp_log w) i result r) (snapshot_state (st_current s'));
  ws_calls : forall j c, j ≠ i -> rp_calls w !! j = Some c -> call_ok s' (ops_of w) (logged (rp_log w) i result r) j c;
  ws_late : forall j e next res, (j, e, next, res) ∈ rp_late w -> write_ok s' (ops_of w) (logged (rp_log w) i result r) j e next res;
  ws_once : NoDup (map fst (logged (rp_log w) i result r));
  ws_response : r = SStored \/ ((r = SConflict \/ r = SUnavailable) /\ s' = rp_storage w);
}.

Lemma serve_write w i e next result : replicas_ok w -> write_ok (rp_storage w) (ops_of w) (rp_log w) i e next result ->
  write_served w i result (fst (st_write (rp_storage w) e next)) (snd (st_write (rp_storage w) e next)).
Proof.
  intros [Hseq Hc Hl Hlc Ho] [Hk Hw]. destruct (st_write_cases (rp_storage w) e next) as [(r & -> & Hr)|(s' & v & -> & Hv & Hs' & Hn & Hu)]; [by intros Hv; destruct (Hw Hv) as (_ & ? & _ & _ & _ & _ & Hne)|cbn [fst snd]..].
  - assert (logged (rp_log w) i result r = rp_log w) as E by (by destruct Hr as [-> | ->]).
    constructor; rewrite ?E; eauto. intros j e' n' r' Hj. by apply (Hl j e' n' r').
  - destruct (Hw Hv) as (Hi & op & Hop & Hv1 & Happ & Hv2 & _). assert (moves (rp_storage w) s') as Hm by (constructor; [done|right; eauto]).
    constructor; cbn [logged]; eauto.
    + rewrite Hs'. cbn. by eapply seq_apply.
    + intros j c Hj Hcj. apply (call_ok_same (rp_storage w)); [done| |by apply Hc]. cbn. by rewrite list_elem_of_singleton.
    + intros j e' n' r' Hj. destruct (Hl j e' n' r' Hj) as [[Hk' _] _]. by eapply write_stale.
    + rewrite map_app. apply NoDup_app. split_and!; [done| |apply NoDup_singleton]. intros x Hx ->%list_elem_of_singleton. done.
Qed.

Lemma map_insert_op calls i c c' : calls !! i = Some c -> c_op c' = c_op c -> map c_op (<[i := c']> calls) = map c_op calls.
Proof.
  intros Hi E. apply list_eq. intros j. rewrite !list_lookup_fmap. destruct (decide (i = j)) as [<-|Hne]; [|by rewrite list_lookup_insert_ne].
  rewrite list_lookup_insert_eq by (by eapply lookup_lt_Some). rewrite Hi. cbn. by rewrite E.
Qed.

(** ** Steps of one call *)

Lemma attempt_ok s ops log i op start tries : (start <= length log)%nat -> i ∉ map fst log ->
  call_ok s ops log i (mkCall op (fst (mutate_attempt (R:=R) config tries)) (waits (mutate_attempt (R:=R) config tries)) start).
Proof. intros Hs Hi. split; [done|]. unfold mutate_attempt. by destruct (_ <? _). Qed.

Lemma thrown_ok s ops log i op start e : (start <= length log)%nat -> call_ok s ops log i (mkCall op (Thrown e) WQuiet start).
Proof. by split. Qed.

(** Delivering an answer, or an error in its place. *)
Lemma resume_call_ok s ops log i c r st : ops !! i = Some (c_op c) -> call_ok s ops log i c ->
  r = SUnavailable \/ c_wire c = WAnswered r ->
  mutate_resume parse_date config (c_op c) (c_phase c) r = Some st -> call_ok s ops log i (call_after c st).
Proof.
  intros Hop [Hst Hp] [->|Hw]; unfold call_after.
  { destruct (c_phase c) as [k|k res|res|e]; try done; intros [= <-]; by apply thrown_ok. }
  unfold phase_ok in Hp. rewrite Hw in Hp. destruct (c_phase c) as [k|k res|res|e]; try done; intros [= <-].
  - destruct r as [x| | |]; cbn [mutate_read]; [|by apply thrown_ok|by apply attempt_ok|by apply thrown_ok].
    destruct Hp as (Hi & Hk & Hcur & n & Hn & Hs). destruct (valid (snapshot_state x)) eqn:Ev; cbn [negb]; [|by apply thrown_ok].
    destruct (c_op c (snapshot_state x)) as [[next res]|e] eqn:Eop; [|by apply thrown_ok]. destruct (valid next) eqn:Ev'; cbn [negb]; [|by apply thrown_ok].
    case_bool_decide as Eq; (split; [done|]); cbn.
    + exists n. split; [done|]. right. exists (c_op c), (snapshot_state x). rewrite Eq in Eop. done.
    + split; [done|]. split; [done|]. intros He. specialize (Hcur He). rewrite Hcur. split; [done|]. exists (c_op c). split_and!; try done. destruct x as [[v cur]|]; cbn; [|done]. intros [= E]. by apply Eq.
  - destruct r as [x| | |]; cbn [mutate_write]; [by apply thrown_ok| |by apply attempt_ok|by apply thrown_ok].
    destruct Hp as (n & Hn & Hlog). split; [done|]. exists n. split; [|by left]. apply lookup_lt_Some in Hlog. cbn. lia.
Qed.

(** Replacing a call by a later state of it. *)
Lemma set_call_ok w i c c' : replicas_ok w -> rp_calls w !! i = Some c -> c_op c' = c_op c ->
  call_ok (rp_storage w) (ops_of w) (rp_log w) i c' -> (forall error, c_phase c = Thrown error -> c_phase c' = Thrown error) ->
  replicas_ok (set_call w i c').
Proof.
  intros [Hseq Hc Hl Hlc Ho] Hi Hop Hok Ht. assert (ops_of (set_call w i c') = ops_of w) as E by (by apply (map_insert_op _ _ c)).
  constructor; rewrite ?E; cbn [set_call rp_storage rp_calls rp_log rp_late]; try done.
  - intros j d [(-> & -> & _)|[_ Hj]]%list_lookup_insert_Some; [done|by apply Hc].
  - intros j e n r Hj. destruct (Hl j e n r Hj) as [Hw Hth]. split; [done|].
    intros d [(-> & -> & _)|[_ Hd]]%list_lookup_insert_Some; [|by apply Hth]. destruct (Hth c Hi) as [error He]. eauto.
  - intros j e n r Hj. destruct (Hlc j e n r Hj) as [d Hd]. destruct (decide (i = j)) as [<-|Hne].
    + exists c'. by rewrite list_lookup_insert_eq by (by eapply lookup_lt_Some).
    + exists d. by rewrite list_lookup_insert_ne.
Qed.

Lemma ops_lookup w i c : rp_calls w !! i = Some c -> ops_of w !! i = Some (c_op c).
Proof. intros Hi. unfold ops_of. by rewrite list_lookup_fmap, Hi. Qed.

(** A settled call has no response to go on with. *)
Lemma resume_running op phase r st : mutate_resume (R:=R) parse_date config op phase r = Some st -> forall error, phase ≠ Thrown error.
Proof. by destruct phase. Qed.

Lemma resume_step_ok w i c r st : replicas_ok w -> rp_calls w !! i = Some c -> r = SUnavailable \/ c_wire c = WAnswered r ->
  mutate_resume parse_date config (c_op c) (c_phase c) r = Some st -> replicas_ok (set_call w i (call_after c st)).
Proof.
  intros Hw Hi Hr Hst. eapply set_call_ok; [done|done|done| |].
  - eapply resume_call_ok; [by apply ops_lookup|by apply (ro_calls _ Hw)|done|done].
  - intros error He. by destruct (resume_running _ _ _ _ Hst error).
Qed.

Lemma start_step_ok w op : replicas_ok w ->
  replicas_ok (mkReplicas (rp_storage w) (rp_calls w ++ [mkCall op (fst (mutate config)) (waits (mutate config)) (length (rp_log w))]) (rp_late w) (rp_log w)).
Proof.
  intros [Hseq Hc Hl Hlc Ho]. assert (length (rp_calls w) ∉ map fst (rp_log w)) as Hfresh.
  { assert (forall i, i ∈ map fst (rp_log w) -> (i < length (rp_calls w))%nat) as Hlt; [|intros Hin%Hlt; lia].
    clear -Hseq. unfold ops_of in Hseq. induction Hseq as [|log state i op result next _ IH Hop]; intros j; [by intros ?%not_elem_of_nil|].
    rewrite map_app, elem_of_app. intros [Hj|Hj]; [auto|]. cbn in Hj. apply list_elem_of_singleton in Hj as ->.
    apply lookup_lt_Some in Hop. by rewrite length_map in Hop. }
  constructor; unfold ops_of; cbn [rp_storage rp_calls rp_log rp_late]; rewrite ?map_app.
  - by apply sequential_more.
  - intros i c Hi. apply lookup_app_Some in Hi as [Hi|[Hlen Hi]].
    + rewrite <- (app_nil_r (rp_log w)). apply (call_ok_moves (rp_storage w)); [apply moves_refl|apply not_elem_of_nil|by apply Hc].
    + destruct (i - length (rp_calls w))%nat as [|k] eqn:E; [|done]. injection Hi as <-. assert (i = length (rp_calls w)) as -> by lia. by apply attempt_ok.
  - intros i e n r Hin. destruct (Hl i e n r Hin) as [Hw Hth]. split.
    + rewrite <- (app_nil_r (rp_log w)). apply (write_ok_moves (rp_storage w)); [apply moves_refl|apply not_elem_of_nil|done].
    + intros c Hi. apply Hth. destruct (Hlc i e n r Hin) as [d Hd]. rewrite (lookup_app_l_Some _ _ _ _ Hd) in Hi. congruence.
  - intros i e n r Hin. destruct (Hlc i e n r Hin) as [d Hd]. exists d. by apply lookup_app_l_Some.
  - done.
Qed.

Lemma write_step_ok w i c e next tries result : replicas_ok w -> rp_calls w !! i = Some c -> c_wire c = WSent (SWrite e next) ->
  c_phase c = Writing tries result ->
  let s' := fst (st_write (rp_storage w) e next) in let r := snd (st_write (rp_storage w) e next) in
  replicas_ok (mkReplicas s' (<[i := mkCall (c_op c) (c_phase c) (WAnswered r) (c_start c)]> (rp_calls w)) (rp_late w) (logged (rp_log w) i result r)).
Proof.
  intros Hw Hi Hwire Hph. destruct (ro_calls _ Hw i c Hi) as [Hst Hp]. unfold phase_ok in Hp. rewrite Hwire, Hph in Hp. destruct Hp as [Hni Hwr].
  destruct (serve_write w i e next result Hw Hwr) as [H1 H2 H3 H4 H5]. cbv zeta. set (s' := fst _) in *. set (r := snd _) in *.
  set (c' := mkCall _ _ _ _). assert (map c_op (<[i := c']> (rp_calls w)) = ops_of w) as E by (by apply (map_insert_op _ _ c)).
  constructor; unfold ops_of; cbn [rp_storage rp_calls rp_log rp_late]; rewrite ?E; try done.
  - intros j d [(<- & <- & _)|[Hne Hj]]%list_lookup_insert_Some; [|by apply H2]. unfold call_ok, phase_ok, c'. cbn [c_phase c_wire c_start]. rewrite Hph.
    destruct H5 as [Er|[[Er|Er] _]]; rewrite Er; cbn [logged]; [|by split..]. rewrite length_app. split; [cbn; lia|].
    exists (length (rp_log w)). split; [done|]. by rewrite lookup_app_r, Nat.sub_diag by lia.
  - intros j e' n' r' Hj. split; [by apply H3|]. intros d [(<- & <- & _)|[_ Hd]]%list_lookup_insert_Some; [|by apply (ro_late _ Hw j e' n' r')].
    destruct (proj2 (ro_late _ Hw i e' n' r' Hj) c Hi) as [error He]. congruence.
  - intros j e' n' r' Hj. destruct (ro_late_calls _ Hw j e' n' r' Hj) as [d Hd]. apply lookup_lt_is_Some. rewrite length_insert.
    by eapply lookup_lt_Some.
Qed.

Lemma late_step_ok w i e next result : replicas_ok w -> (i, e, next, result) ∈ rp_late w ->
  let s' := fst (st_write (rp_storage w) e next) in let r := snd (st_write (rp_storage w) e next) in
  replicas_ok (mkReplicas s' (rp_calls w) (rp_late w) (logged (rp_log w) i result r)).
Proof.
  intros Hw Hin. destruct (ro_late _ Hw i e next result Hin) as [Hwr Hth]. destruct (serve_write w i e next result Hw Hwr) as [H1 H2 H3 H4 H5].
  cbv zeta. set (s' := fst _) in *. set (r := snd _) in *. constructor; cbn [rp_storage rp_calls rp_log rp_late]; try done; [| |apply Hw].
  - intros j c Hj. destruct (decide (j = i)) as [->|Hne]; [|by apply H2]. destruct (Hth c Hj) as [error He].
    destruct (ro_calls _ Hw i c Hj) as [Hst Hp]. split.
    + destruct r; cbn [logged]; rewrite ?length_app; lia.
    + unfold phase_ok in *. rewrite He in *. by destruct (c_wire c).
  - intros j e' n' r' Hj. split; [by apply H3|by apply (ro_late _ Hw j e' n' r')].
Qed.

Lemma replicas_step_ok w w' : replicas_ok w -> replicas_step w w' -> replicas_ok w'.
Proof.
  intros Hw Hstep. destruct Hstep as [w op|w i c Hi Hwire|w i c e next k res Hi Hwire Hph|w i c r st Hi Hwire Hst|w i c r st Hi Hwire Hst
    |w i c st Hi Hwire Hst|w i c e next k res st Hi Hwire Hph Hst|w i e next res Hin].
  - by apply start_step_ok.
  - destruct (ro_calls _ Hw i c Hi) as [Hs Hp]. eapply set_call_ok; [done|done|done| |done]. split; [done|]. unfold phase_ok in *. rewrite Hwire in Hp. cbn.
    destruct (c_phase c) as [k|k res|res|e]; try done. destruct (st_read (rp_storage w)) as [x| | |] eqn:Er; try done. split; [done|].
    apply st_read_current in Er. split_and!; [|congruence|].
    + destruct x as [[v state]|]; [|done]. by eapply st_used_current.
    + exists (length (rp_log w)). split; [lia|]. rewrite take_ge by done. rewrite <- Er. apply Hw.
  - by eapply write_step_ok.
  - eapply resume_step_ok; eauto.
  - apply (resume_step_ok w i c SUnavailable); auto.
  - apply (resume_step_ok w i c SUnavailable); auto.
  - pose proof (resume_step_ok w i c SUnavailable st Hw Hi ltac:(by left) Hst) as [H1 H2 H3 H4 H5].
    destruct (ro_calls _ Hw i c Hi) as [Hs Hp]. unfold phase_ok in Hp. rewrite Hwire, Hph in Hp. destruct Hp as [_ Hwr].
    assert (ops_of (set_call w i (call_after c st)) = ops_of w) as E by (by apply (map_insert_op _ _ c)).
    constructor; try done; cbn [rp_storage rp_calls rp_log rp_late] in *.
    + intros j e' n' r' [[= -> -> -> ->]|Hj]%elem_of_cons; [|by apply (H3 j e' n' r')]. split; [unfold ops_of in *; cbn [rp_calls set_call] in *; by rewrite E|].
      intros d Hd. rewrite list_lookup_insert_eq in Hd by (by eapply lookup_lt_Some). injection Hd as <-. rewrite Hph in Hst.
      injection Hst as <-. by exists UnavailableError.
    + intros j e' n' r' [[= -> -> -> ->]|Hj]%elem_of_cons; [|by apply (H4 j e' n' r')]. apply lookup_lt_is_Some. rewrite length_insert.
      by eapply lookup_lt_Some.
  - by apply late_step_ok.
Qed.
End Calls.
Arguments Replicas R S : clear implicits.

(** ** Atomicity *)

(** A storage whose ledger was not created yet, and no calls. *)
Definition no_calls {R S} (s : S) : Replicas R S := mkReplicas s [] [] [].

Lemma no_calls_ok {R S} `{LedgerStorageLaws S} parse_date config (s : S) : st_current s = None ->
  replicas_ok parse_date config (no_calls (R:=R) s).
Proof.
  intros Hs. constructor; cbn; [rewrite Hs; constructor|done| | |apply NoDup_nil_2]; intros i e n r Hin; by apply not_elem_of_nil in Hin.
Qed.

Lemma replicas_run_ok {R S} `{LedgerStorageLaws S} parse_date config (w w' : Replicas R S) :
  rtc (replicas_step parse_date config) w w' -> replicas_ok parse_date config w -> replicas_ok parse_date config w'.
Proof. induction 1 as [|x y z Hxy _ IH]; [done|]. intros Hx. apply IH. by eapply replicas_step_ok. Qed.

Lemma run_atomic {R S} `{LedgerStorageLaws S} parse_date config (s : S) (w : Replicas R S) :
  st_current s = None -> rtc (replicas_step parse_date config) (no_calls s) w ->
  sequential parse_date config (ops_of w) (rp_log w) (snapshot_state (st_current (rp_storage w))) /\
  NoDup (map fst (rp_log w)) /\
  forall i c result, rp_calls w !! i = Some c -> c_phase c = Returned result ->
    took_effect parse_date config (ops_of w) (rp_log w) i (c_start c) result.
Proof.
  intros Hs Hrun. pose proof (replicas_run_ok _ _ _ _ Hrun (no_calls_ok _ _ s Hs)) as [H1 H2 _ _ H3].
  split_and!; [done|done|]. intros i c result Hi Hph. destruct (H2 i c Hi) as [_ Hp]. unfold phase_ok in Hp. rewrite Hph in Hp.
  by destruct (c_wire c).
Qed.

(** C5: Operations on the shared ledger are atomic.  Let any number of calls of [#mutate] run
    concurrently on a ledger that did not exist before, on any storage that refuses writes under
    an old version, with requests delayed or abandoned and responses lost.  The writes that
    happened form a sequential history, one operation after the other on valid ledgers, that
    ends in the stored ledger; no call is in it twice, even one that retried after conflicts or
    was abandoned; and a call that returned took effect at one point between its start and its
    return: its result is what its operation gives on the ledger at that point. *)
Theorem ledger_calls_atomic {R S} `{LedgerStorageLaws S} parse_date config (s : S) (w : Replicas R S) :
  st_current s = None -> rtc (replicas_step parse_date config) (no_calls s) w ->
  sequential parse_date config (ops_of w) (rp_log w) (snapshot_state (st_current (rp_storage w))) /\
  NoDup (map fst (rp_log w)) /\
  forall i c result, rp_calls w !! i = Some c -> c_phase c = Returned result ->
    took_effect parse_date config (ops_of w) (rp_log w) i (c_start c) result.
Proof. apply run_atomic. Qed.

(** ** The storage in SQLite keeps the laws *)

Lemma sqlite_version_inj m n : sqlite_version m = sqlite_version n -> m = n.
Proof. unfold sqlite_version. intros E. apply (f_equal (dec_value 0)) in E. rewrite !dec_value_N in E. lia. Qed.

Definition sqlite_current (s : SqliteLedgerStorage) : option (jstr * Ledger) :=
  match sq_row s with Some (n, state) => Some (sqlite_version n, state) | None => None end.
Definition sqlite_used (s : SqliteLedgerStorage) (v : jstr) : Prop :=
  match sq_row s with Some (n, _) => exists k, (k <= n)%positive /\ v = sqlite_version k | None => False end.

#[export] Instance sqlite_storage : LedgerStorage SqliteLedgerStorage := {
  st_current := sqlite_current;
  st_used := sqlite_used;
  st_read := sqlite_read;
  st_write s expected state := match expected with Some v => sqlite_replace s v state | None => sqlite_create s state end;
}.

#[export] Instance sqlite_storage_laws : LedgerStorageLaws SqliteLedgerStorage.
Proof.
  constructor.
  - intros [[[n state']|]] v state; cbn; [|done]. intros [= <- <-]. by exists n.
  - intros [[[n state']|]] x; cbn [st_read st_current sqlite_storage sqlite_read sqlite_current sq_row]; [|by intros [= <-]].
    destruct (_ && _); [by intros [= <-]|done].
  - intros s [v|] state _; cbn [st_write st_current sqlite_storage]; unfold sqlite_replace, sqlite_create.
    + destruct (_ || _); [left; eauto|]. destruct s as [[[n state']|]]; cbn [sq_row]; [|left; eauto].
      destruct (jstr_eqb v (sqlite_version n)) eqn:E; [right|left; eauto].
      apply bool_decide_eq_true in E as ->. exists (mkSqlite (Some (Pos.succ n, state))), (sqlite_version (Pos.succ n)).
      split_and!; [reflexivity..| |].
      * intros (k & Hk & Hv%sqlite_version_inj). lia.
      * intros u (k & Hk & ->). exists k. split; [lia|done].
    + destruct (negb _); [left; eauto|]. destruct s as [[[n state']|]]; cbn [sq_row]; [left; eauto|].
      right. exists (mkSqlite (Some (1%positive, state))), (sqlite_version 1). split_and!; [reflexivity|reflexivity|reflexivity|by intros []|by intros u []].
Qed.

(** ** Running calls *)

Section Play.
Context {R S : Type} `{LedgerStorage S}.

(** The next step of call [i], with its request served at once. *)
Definition advance parse_date config (w : Replicas R S) (i : nat) : Replicas R S :=
  match rp_calls w !! i with
  | Some c =>
      match c_wire c, c_phase c with
      | WSent SRead, _ => set_call w i (mkCall (c_op c) (c_phase c) (WAnswered (st_read (rp_storage w))) (c_start c))
      | WSent (SWrite e n), Writing _ r =>
          mkReplicas (fst (st_write (rp_storage w) e n))
            (<[i := mkCall (c_op c) (c_phase c) (WAnswered (snd (st_write (rp_storage w) e n))) (c_start c)]> (rp_calls w)) (rp_late w)
            (logged (rp_log w) i r (snd (st_write (rp_storage w) e n)))
      | WAnswered r, _ =>
          match mutate_resume parse_date config (c_op c) (c_phase c) r with Some st => set_call w i (call_after c st) | None => w end
      | _, _ => w
      end
  | None => w
  end.

Definition begin_call config (w : Replicas R S) (op : Op R) : Replicas R S :=
  mkReplicas (rp_storage w) (rp_calls w ++ [mkCall op (fst (mutate config)) (waits (R:=R) (mutate config)) (length (rp_log w))]) (rp_late w) (rp_log w).

Lemma advance_step parse_date config (w : Replicas R S) i : rtc (replicas_step parse_date config) w (advance parse_date config w i).
Proof.
  unfold advance. destruct (rp_calls w !! i) as [c|] eqn:Ei; [|apply rtc_refl]. destruct (c_wire c) as [|[|e n]|r] eqn:Ew; [apply rtc_refl|..].
  - by apply rtc_once, call_read.
  - destruct (c_phase c) as [|k res| |] eqn:Ep; try apply rtc_refl. rewrite <- Ep. apply rtc_once. by eapply call_write.
  - destruct (mutate_resume _ _ _ _ r) as [st|] eqn:Er; [|apply rtc_refl]. apply rtc_once. by eapply call_deliver.
Qed.

Fixpoint play parse_date config (w : Replicas R S) (script : list (nat + Op R)) : Replicas R S :=
  match script with
  | [] => w
  | inl i :: rest => play parse_date config (advance parse_date config w i) rest
  | inr op :: rest => play parse_date config (begin_call config w op) rest
  end.

Lemma play_run parse_date config script : forall w : Replicas R S,
  rtc (replicas_step parse_date config) w (play parse_date config w script).
Proof.
  induction script as [|[i|op] rest IH]; intros w; cbn; [apply rtc_refl|etransitivity; [apply advance_step|apply IH]|].
  etransitivity; [apply rtc_once, call_start|apply IH].
Qed.

Lemma ops_advance parse_date config (w : Replicas R S) i : ops_of (advance parse_date config w i) = ops_of w.
Proof.
  unfold advance. destruct (rp_calls w !! i) as [c|] eqn:Ei; [|done]. unfold ops_of.
  repeat case_match; try done; cbn [set_call rp_calls]; by apply (map_insert_op _ _ c).
Qed.

(** The operations started by a script. *)
Lemma ops_play parse_date config script : forall w : Replicas R S,
  ops_of (play parse_date config w script) = ops_of w ++ omap (fun x => match x with inr op => Some op | inl _ => None end) script.
Proof.
  induction script as [|[i|op] rest IH]; intros w; cbn [play omap list_omap]; [by rewrite app_nil_r|by rewrite IH, ops_advance|].
  rewrite IH. unfold ops_of, begin_call. cbn [rp_calls]. rewrite map_app, <- app_assoc. done.
Qed.
End Play.

Definition empty_storage : SqliteLedgerStorage := mkSqlite None.
