(* ===== verification/LedgerHistory.v ===== *)
(** * LedgerHistory: following requests through a history of the ledger

    What an operation ensures on every branch, and the entries of a sequential history.  The
    theorems on tickets, idempotency keys, admission, ingress and events are inductions over the
    history of a concurrent run. *)
From stdpp Require Import base tactics option list numbers strings sets relations.
From S2P Require Import Prelude JsMap JsString JsValue LedgerState LedgerTickets LedgerAdmission LedgerResources LedgerCalls LedgerStore LedgerStoreSpec.
Implicit Types (state next : Ledger).

(** What every outcome of a method's operation satisfies. *)
Definition ensures {A} (m : Method A) (Q : Ledger -> Ledger -> A -> Prop) : Prop :=
  forall op state next a, m = inl op -> op state = inl (next, a) -> Q state next a.

Lemma ensures_map {A B} (f : A -> B) m (Q : Ledger -> Ledger -> B -> Prop) :
  ensures m (fun state next a => Q state next (f a)) -> ensures (map_op f m) Q.
Proof.
  intros Hm op state next b. destruct m as [op'|] eqn:E; [|done]. intros [= <-]. destruct (op' state) as [[state' a]|] eqn:Eo; [|done].
  intros [= -> <-]. by eapply Hm.
Qed.

Lemma ensures_demand {A} ok (k : Method A) Q : (ok = true -> ensures k Q) -> ensures (demand ok k) Q.
Proof. destruct ok; [auto|done]. Qed.

Lemma ensures_op {A} (op : Op A) (Q : Ledger -> Ledger -> A -> Prop) :
  (forall state next a, op state = inl (next, a) -> Q state next a) -> ensures (inl op) Q.
Proof. intros Hop op' state next a [= <-]. apply Hop. Qed.

(** Follow a method to the branches of its operation. *)
Ltac branches :=
  apply ensures_map || idtac; repeat (apply ensures_demand; intros _); apply ensures_op; intros state next a; cbv zeta;
  unfold with_iso; repeat (case_match; try done); intros; simplify_eq.

Lemma find_index_some {A} (P : A -> bool) l i x : find_index P l = Some (i, x) -> l !! i = Some x /\ P x = true.
Proof.
  revert i. induction l as [|y l IH]; intros i; cbn; [done|]. destruct (P y) eqn:E; [by intros [= <- <-]|].
  destruct (find_index P l) as [[j z]|]; [|done]. intros [= <- ->]. apply IH. done.
Qed.

Lemma distinct_spec l : distinct l = true <-> NoDup l.
Proof.
  induction l as [|x l IH]; cbn; [split; [constructor|done]|]. rewrite NoDup_cons, <- IH, andb_true_iff, negb_true_iff.
  assert (existsb (jstr_eqb x) l = false <-> x ∉ l) as ->; [|done]. rewrite <- not_true_iff_false, existsb_exists. apply not_iff_compat. split.
  - intros (y & Hy & ->%bool_decide_eq_true). by apply list_elem_of_In.
  - intros Hx%list_elem_of_In. exists x. split; [done|]. by apply bool_decide_eq_true.
Qed.

Lemma filter_sublist_mono {A} (P : A -> bool) l l' : l' `sublist_of` l -> List.filter P l' `sublist_of` List.filter P l.
Proof. induction 1 as [|x l1 l2 _ IH|x l1 l2 _ IH]; cbn; [done|destruct (P x); first [done|by constructor]..]. Qed.

(** ** Entries of a history *)

Lemma sequential_take {R} parse_date config (ops : list (Op R)) log state n : sequential parse_date config ops log state ->
  exists before, sequential parse_date config ops (take n log) before.
Proof.
  induction 1 as [|log state i op a next Hseq [b IH] Hop Hv Happ Hv']; [rewrite take_nil; eexists; constructor|].
  destruct (decide (n <= length log)%nat) as [Hn|Hn]; [rewrite take_app_le by done; eauto|].
  rewrite take_ge by (rewrite length_app; cbn; lia). exists next. by econstructor.
Qed.

(** The entry at [n] is its operation's step from the ledger before it to the one after it. *)
Lemma sequential_entry {R} parse_date config (ops : list (Op R)) log state n i a :
  sequential parse_date config ops log state -> log !! n = Some (i, a) ->
  exists op before after, sequential parse_date config ops (take n log) before /\ sequential parse_date config ops (take (S n) log) after /\
    ops !! i = Some op /\ validateState parse_date config before = true /\ op before = inl (after, a).
Proof.
  intros Hseq Hn. destruct (sequential_take _ _ _ _ _ (S n) Hseq) as [after Hafter]. pose proof Hafter as Hs.
  rewrite (take_S_r _ _ _ Hn) in Hs. apply sequential_snoc in Hs as (op & before & Hb & Hop & Hv & Ho & _). exists op, before, after. done.
Qed.

(** At most one entry of [log] satisfies [P]. *)
Definition at_most_one {A} (P : A -> bool) (log : list A) : Prop :=
  forall m n x y, log !! m = Some x -> log !! n = Some y -> P x = true -> P y = true -> m = n.

(** A new entry that is the first of its kind keeps it so. *)
Lemma once_snoc {A} (P : A -> bool) log e : at_most_one P log -> (P e = true -> existsb P log = false) -> at_most_one P (log ++ [e]).
Proof.
  intros Honce He. assert (forall k x, log !! k = Some x -> P x = true -> existsb P log = true) as Hin.
  { intros k x Hk Hx. apply existsb_exists. exists x. split; [by eapply list_elem_of_In, list_elem_of_lookup_2|done]. }
  intros m n x y [Hm|[Hm1 Hm]]%lookup_app_Some [Hn|[Hn1 Hn]]%lookup_app_Some Hx Hy.
  - by apply (Honce m n x y).
  - apply list_lookup_singleton_Some in Hn as [_ <-]. rewrite (Hin m x Hm Hx) in He. by discriminate He.
  - apply list_lookup_singleton_Some in Hm as [_ <-]. rewrite (Hin n y Hn Hy) in He. by discriminate He.
  - apply list_lookup_singleton_Some in Hm as [? _], Hn as [? _]. lia.
Qed.

Section Requests.
Context (sha256_hex : jstr -> jstr) (parse_date : jstr -> option Z) (config : LedgerConfig).
Context (requests : list LedgerRequest) (ops : list (Op LedgerAnswer)).
Context (Hops : Forall2 (fun q op => perform sha256_hex parse_date config q = inl op) requests ops).
Implicit Types (log : list (nat * LedgerAnswer)).

(** An invariant of histories: every request keeps it on valid ledgers. *)
Lemma history_induction (P : list (nat * LedgerAnswer) -> Ledger -> Prop) : P [] initialState ->
  (forall log state i q op a next, P log state -> requests !! i = Some q -> perform sha256_hex parse_date config q = inl op ->
    validateState parse_date config state = true -> op state = inl (next, a) -> P (log ++ [(i, a)]) next) ->
  forall log state, sequential parse_date config ops log state -> P log state.
Proof.
  intros Hstart Hstep log state. induction 1 as [|log state i op a next _ IH Hop Hv Happ _]; [done|].
  destruct (Forall2_lookup_r _ _ _ _ _ Hops Hop) as (q & Hq & Hp). by eapply Hstep.
Qed.

(** The request of an entry, with its answer, satisfies [P]. *)
Definition entry_is (P : LedgerRequest -> LedgerAnswer -> bool) (e : nat * LedgerAnswer) : bool :=
  match requests !! fst e with Some q => P q (snd e) | None => false end.

(** A call that took effect did so by its request, from a ledger of the history. *)
Lemma took_effect_request log i start a q : took_effect parse_date config ops log i start a -> requests !! i = Some q ->
  (exists final, sequential parse_date config ops log final) ->
  exists n op state next, (start <= n <= length log)%nat /\ perform sha256_hex parse_date config q = inl op /\
    sequential parse_date config ops (take n log) state /\ validateState parse_date config state = true /\ op state = inl (next, a) /\
    (log !! n = Some (i, a) \/ next = state).
Proof.
  intros (n & Hn & [Hl|(op & state & Hop & Hsq & Hv & Happ)]) Hq [final Hseq].
  - destruct (sequential_entry _ _ _ _ _ _ _ _ Hseq Hl) as (op & before & after & Hb & _ & Hop & Hv & Happ).
    exists n, op, before, after. split_and!; try (done || lia); [|by left]. by apply (Forall2_lookup_lr _ _ _ _ _ _ Hops Hq Hop).
  - exists n, op, state, state. split_and!; try (done || lia); [|by right]. by apply (Forall2_lookup_lr _ _ _ _ _ _ Hops Hq Hop).
Qed.
End Requests.

(** ** Concrete requests *)

Definition flat_digest (_ : jstr) : jstr := repeat 0x30%N 64.
Definition no_dates (_ : jstr) : option Z := None.
Definition performed (q : LedgerRequest) : Op LedgerAnswer :=
  match perform flat_digest no_dates default_config q with inl op => op | inr e => fun _ => inr e end.

Lemma performed_ok q : (match perform flat_digest no_dates default_config q with inl _ => true | inr _ => false end) = true ->
  perform flat_digest no_dates default_config q = inl (performed q).
Proof. unfold performed. by destruct (perform _ _ _ q). Qed.

