(* ===== verification/KubernetesLedger.v ===== *)
(** * KubernetesLedger: the ledger in a Kubernetes ConfigMap
    ([packages/cluster-server/src/kubernetes-control-store.ts])

    [KubernetesConfigMapControlLedgerStorage] keeps the control ledger as the text [data.state] of
    one ConfigMap, and leaves the comparison of versions to the API server.  The server is a
    parameter: [ConfigMapServer] is what it answers, [ConfigMapServerLaws] what its optimistic
    concurrency control promises.  From those the storage keeps the laws of [LedgerStorage]. *)
From stdpp Require Import base tactics option list numbers strings sets relations.
From S2P Require Import Prelude JsMap JsString JsValue NumberText WireGuards LedgerState LedgerTickets LedgerCalls LedgerStore LedgerStoreSpec LedgerHistory.
Implicit Types (state : Ledger).

(** ** The API *)

(** The fields of an answered object that the storage looks at; [cm_state] is the ledger whose text is [data.state],
    [None] when that is not a string or not JSON. *)
Record ConfigMap := mkConfigMap {
  cm_apiVersion : jv;
  cm_kind : jv;
  cm_resourceVersion : jv;
  cm_state : option Ledger;
}.

(** What [KubernetesApiClient.request] gives: a body, a [KubernetesApiError] with its status, or another error. *)
Inductive ApiResponse := ApiObject (o : ConfigMap) | ApiError (status : Z) | ApiFailed.

(** The object with [data.state] the text of [state], at the version [v]; a body to create has none. *)
Definition config_map (v : option jstr) state : ConfigMap :=
  mkConfigMap (JStr (js "v1")) (JStr (js "ConfigMap")) (match v with Some v => JStr v | None => JUndef end) (Some state).

(** ** The storage *)

Definition MAX_CONFIG_MAP_STATE_BYTES : Z := 768 * 1024.
Definition config_map_fits state : bool := json_bytes (ledger_json state) <=? MAX_CONFIG_MAP_STATE_BYTES.

(** [/\p{Cc}/u] *)
Definition is_Cc (u : N) : bool := ((u <? 0x20) || (0x7F <=? u) && (u <=? 0x9F))%N.
Definition version_ok (v : jstr) : bool := negb (bool_decide (v = [])) && (utf8Bytes v <=? 256) && negb (existsb is_Cc v).

(** [#snapshot] *)
Definition kube_snapshot (o : ConfigMap) : option (jstr * Ledger) :=
  match cm_apiVersion o, cm_kind o, cm_resourceVersion o, cm_state o with
  | JStr a, JStr k, JStr v, Some state =>
      if jstr_eqb a (js "v1") && jstr_eqb k (js "ConfigMap") && version_ok v && config_map_fits state then Some (v, state) else None
  | _, _, _, _ => None
  end.

(** [#body] *)
Definition kube_body state (resourceVersion : option jstr) : option ConfigMap :=
  if config_map_fits state then Some (config_map resourceVersion state) else None.

(** [#translate] *)
Definition kube_translate (status : Z) : StorageResponse := if status =? 409 then SConflict else SUnavailable.

(** The requests on the one object, with the server's state. *)
Class ConfigMapServer (S : Type) := {
  cs_stored : S -> option (jstr * Ledger);
  cs_issued : S -> jstr -> Prop;
  cs_get : S -> ApiResponse;
  cs_post : S -> ConfigMap -> S * ApiResponse;
  cs_put : S -> ConfigMap -> S * ApiResponse;
}.

Section Storage.
Context {S : Type} `{ConfigMapServer S}.
Implicit Types (s : S).

Definition kube_read s : StorageResponse :=
  match cs_get s with
  | ApiObject o => match kube_snapshot o with Some snapshot => SSnapshot (Some snapshot) | None => SUnavailable end
  | ApiError status => if status =? 404 then SSnapshot None else SUnavailable
  | ApiFailed => SUnavailable
  end.

Definition kube_written (answer : S * ApiResponse) : S * StorageResponse :=
  (fst answer,
   match snd answer with
   | ApiObject o => match kube_snapshot o with Some _ => SStored | None => SUnavailable end
   | ApiError status => kube_translate status
   | ApiFailed => SUnavailable
   end).

Definition kube_create s state : S * StorageResponse :=
  match kube_body state None with Some body => kube_written (cs_post s body) | None => (s, SUnavailable) end.

Definition kube_replace s (resourceVersion : jstr) state : S * StorageResponse :=
  if negb (version_ok resourceVersion) then (s, SUnavailable)
  else match kube_body state (Some resourceVersion) with Some body => kube_written (cs_put s body) | None => (s, SUnavailable) end.
End Storage.

(** ** What the server promises *)

(** A write stored [state] under a version that was not issued before, and answered with the object. *)
Definition object_stored {S} `{ConfigMapServer S} (s : S) state (answer : S * ApiResponse) : Prop :=
  exists v, snd answer = ApiObject (config_map (Some v) state) /\ cs_stored (fst answer) = Some (v, state) /\
    version_ok v = true /\ ~ cs_issued s v /\ forall w, cs_issued s w -> cs_issued (fst answer) w.

Definition refused {S} (s : S) (answer : S * ApiResponse) : Prop :=
  fst answer = s /\ match snd answer with ApiObject _ => False | _ => True end.

(** Optimistic concurrency: a [POST] stores only where there is no object, a [PUT] only over the version it names; a [PUT]
    of what is stored already may leave the object and its version. *)
Class ConfigMapServerLaws (S : Type) `{ConfigMapServer S} : Prop := {
  cs_issued_stored : forall s v state, cs_stored s = Some (v, state) -> cs_issued s v;
  cs_get_object : forall s o, cs_get s = ApiObject o -> exists v state, cs_stored s = Some (v, state) /\ o = config_map (Some v) state;
  cs_get_absent : forall s, cs_get s = ApiError 404 -> cs_stored s = None;
  cs_post_cases : forall s state, refused s (cs_post s (config_map None state)) \/
    cs_stored s = None /\ object_stored s state (cs_post s (config_map None state));
  cs_put_cases : forall s v state, refused s (cs_put s (config_map (Some v) state)) \/
    fst <$> cs_stored s = Some v /\ (object_stored s state (cs_put s (config_map (Some v) state)) \/
      cs_stored s = Some (v, state) /\ cs_put s (config_map (Some v) state) = (s, ApiObject (config_map (Some v) state)));
}.

(** ** The storage keeps the laws of the ledger *)

Lemma snapshot_config_map v state : version_ok v = true -> config_map_fits state = true ->
  kube_snapshot (config_map (Some v) state) = Some (v, state).
Proof. unfold kube_snapshot, config_map. cbn [cm_apiVersion cm_kind cm_resourceVersion cm_state]. by intros -> ->. Qed.

(** A server reached through the storage. *)
Record KubernetesLedgerStorage (S : Type) := mkKube { kube_server : S }.
Arguments mkKube {S}.
Arguments kube_server {S}.

Definition with_server {S} (answer : S * StorageResponse) : KubernetesLedgerStorage S * StorageResponse := (mkKube (fst answer), snd answer).

#[export] Instance kube_storage {S} `{ConfigMapServer S} : LedgerStorage (KubernetesLedgerStorage S) := {
  st_current k := cs_stored (kube_server k);
  st_used k := cs_issued (kube_server k);
  st_read k := kube_read (kube_server k);
  st_write k expected state :=
    with_server (match expected with Some v => kube_replace (kube_server k) v state | None => kube_create (kube_server k) state end);
}.

Section Laws.
Context {S : Type} `{ConfigMapServerLaws S}.
Implicit Types (s : S).

(** The two outcomes the ledger's laws allow of a write that expected [expected]. *)
Definition versioned_write s (expected : option jstr) state (answer : S * StorageResponse) : Prop :=
  fst answer = s /\ (snd answer = SConflict \/ snd answer = SUnavailable) \/
  snd answer = SStored /\ fst <$> cs_stored s = expected /\
    exists v, cs_stored (fst answer) = Some (v, state) /\ ~ cs_issued s v /\ forall w, cs_issued s w -> cs_issued (fst answer) w.

Lemma written_refused s expected state answer : refused s answer -> versioned_write s expected state (kube_written answer).
Proof.
  intros [Hs Hr]. left. split; [done|]. unfold kube_written. cbn [fst snd]. destruct (snd answer) as [o|status|]; [done| |by right].
  unfold kube_translate. destruct (_ =? _); auto.
Qed.

Lemma written_stored s expected state answer : config_map_fits state = true -> fst <$> cs_stored s = expected ->
  object_stored s state answer -> versioned_write s expected state (kube_written answer).
Proof.
  intros Hfit Hexp (v & Ha & Hst & Hok & Hnew & Hkeep). right. unfold kube_written. cbn [fst snd]. rewrite Ha, snapshot_config_map by done. eauto 6.
Qed.

Lemma create_versioned s state : versioned_write s None state (kube_create s state).
Proof.
  unfold kube_create, kube_body. destruct (config_map_fits state) eqn:Hfit; [|left; auto].
  destruct (cs_post_cases s state) as [Hr|[Hn Hs]]; [by apply written_refused|]. apply written_stored; [done|by rewrite Hn|done].
Qed.

Lemma replace_versioned s v state : (fst <$> cs_stored s = Some v -> snd <$> cs_stored s ≠ Some state) ->
  versioned_write s (Some v) state (kube_replace s v state).
Proof.
  intros Hnew. unfold kube_replace, kube_body. destruct (negb _); [left; auto|]. destruct (config_map_fits state) eqn:Hfit; [|left; auto].
  destruct (cs_put_cases s v state) as [Hr|[Hv [Hs|[Hs _]]]]; [by apply written_refused|by apply written_stored|].
  destruct Hnew; [done|]. by rewrite Hs.
Qed.

#[export] Instance kube_storage_laws : LedgerStorageLaws (KubernetesLedgerStorage S).
Proof.
  constructor.
  - intros [s] v state. apply cs_issued_stored.
  - intros [s] x. cbn [st_read st_current kube_storage kube_server]. unfold kube_read.
    destruct (cs_get s) as [o|status|] eqn:Eg; [|destruct (Z.eqb_spec status 404) as [->|]; [|done]|done].
    + destruct (cs_get_object s o Eg) as (v & state & Hs & ->). destruct (kube_snapshot _) as [y|] eqn:Ey; [|done]. intros [= <-]. rewrite Hs. f_equal.
      unfold kube_snapshot, config_map in Ey. cbn [cm_apiVersion cm_kind cm_resourceVersion cm_state] in Ey. by destruct (_ && _); simplify_eq.
    + intros [= <-]. by apply cs_get_absent.
  - intros [s] expected state Hnew. cbn [st_write st_current st_used kube_storage kube_server] in *.
    assert (versioned_write s expected state (match expected with Some v => kube_replace s v state | None => kube_create s state end)) as Hw
      by (destruct expected; [by apply replace_versioned|apply create_versioned]).
    revert Hw. generalize (match expected with Some v => kube_replace s v state | None => kube_create s state end).
    intros [s' r] [[Hs Hr]|(Hr & He & v & Hw)]; cbn [fst snd] in *; subst; [left; by exists r|right; by exists (mkKube s'), v].
Qed.
End Laws.

(** ** Atomicity on Kubernetes *)

(** C17: The control ledger in a ConfigMap is atomic, on any API server that compares versions.
    Let any number of replicas run calls of [#mutate] through
    [KubernetesConfigMapControlLedgerStorage], with requests delayed or abandoned and responses
    lost.  The writes the server accepted form a sequential history of operations on valid
    ledgers that ends in the stored one; no call is in it twice; and a call that returned has
    the result of its operation at one point of that history after the call started.  The
    [PUT] by which the server would silently keep the object, version included, never happens. *)
Theorem kubernetes_ledger_atomic {R S} `{ConfigMapServerLaws S} parse_date config (s : S) (w : Replicas R (KubernetesLedgerStorage S)) :
  cs_stored s = None -> rtc (replicas_step parse_date config) (no_calls (mkKube s)) w ->
  sequential parse_date config (ops_of w) (rp_log w) (snapshot_state (cs_stored (kube_server (rp_storage w)))) /\
  NoDup (map fst (rp_log w)) /\
  (forall i c result, rp_calls w !! i = Some c -> c_phase c = Returned result ->
     took_effect parse_date config (ops_of w) (rp_log w) i (c_start c) result) /\
  (forall i c v next, rp_calls w !! i = Some c -> c_wire c = WSent (SWrite (Some v) next) -> cs_stored (kube_server (rp_storage w)) ≠ Some (v, next)).
Proof.
  intros Hs Hrun. destruct (run_atomic (H:=kube_storage) parse_date config (mkKube s) w Hs Hrun) as (H1 & H2 & H3). split_and!; [done..|].
  intros i c v next Hi Hwire Hst. pose proof (replicas_run_ok (H:=kube_storage) _ _ _ _ Hrun (no_calls_ok (H:=kube_storage) _ _ (mkKube s) Hs)) as [_ Hcalls _ _ _].
  destruct (Hcalls i c Hi) as [_ Hp]. unfold phase_ok in Hp. rewrite Hwire in Hp. destruct (c_phase c); try done.
  destruct Hp as (_ & _ & Hw). cbn [st_current kube_storage] in Hw. rewrite Hst in Hw. by destruct (Hw eq_refl) as (_ & op & _ & _ & _ & _ & []).
Qed.

(** ** A server of one object *)

(** A revision counter, and the object, written at that revision. *)
Record OneObject := mkOneObject { oo_revision : N; oo_object : option Ledger }.

Definition oo_stored (s : OneObject) : option (jstr * Ledger) := pair (N_digits (oo_revision s)) <$> oo_object s.
Definition oo_issued (s : OneObject) (v : jstr) : Prop := exists n, v = N_digits n /\ (n <= oo_revision s)%N.
Definition oo_get (s : OneObject) : ApiResponse :=
  match oo_stored s with Some (v, state) => ApiObject (config_map (Some v) state) | None => ApiError 404 end.
Definition oo_write (s : OneObject) state : OneObject * ApiResponse :=
  let n := (oo_revision s + 1)%N in
  if version_ok (N_digits n) then (mkOneObject n (Some state), ApiObject (config_map (Some (N_digits n)) state)) else (s, ApiError 500).
Definition oo_post (s : OneObject) (body : ConfigMap) : OneObject * ApiResponse :=
  match oo_object s, cm_state body with
  | Some _, _ => (s, ApiError 409)
  | None, Some state => oo_write s state
  | None, None => (s, ApiError 422)
  end.
Definition oo_put (s : OneObject) (body : ConfigMap) : OneObject * ApiResponse :=
  match oo_stored s, cm_resourceVersion body, cm_state body with
  | None, _, _ => (s, ApiError 404)
  | Some (v, current), JStr w, Some state =>
      if negb (jstr_eqb w v) then (s, ApiError 409)
      else if bool_decide (state = current) then (s, ApiObject (config_map (Some v) current))
      else oo_write s state
  | _, _, _ => (s, ApiError 422)
  end.

#[export] Instance one_object_server : ConfigMapServer OneObject := {
  cs_stored := oo_stored; cs_issued := oo_issued; cs_get := oo_get; cs_post := oo_post; cs_put := oo_put;
}.

Lemma oo_write_cases (s : OneObject) state : refused s (oo_write s state) \/ object_stored s state (oo_write s state).
Proof.
  unfold oo_write. destruct (version_ok _) eqn:Hok; [right|by left]. exists (N_digits (oo_revision s + 1)). split_and!; [done..| |].
  - intros (n & Hn & Hle). apply (f_equal (dec_value 0)) in Hn. rewrite !dec_value_N in Hn. lia.
  - intros w (n & -> & Hle). exists n. split; [done|]. cbn [fst oo_revision]. lia.
Qed.

#[export] Instance one_object_laws : ConfigMapServerLaws OneObject.
Proof.
  constructor; cbn [cs_stored cs_issued cs_get cs_post cs_put one_object_server].
  - intros [n [state'|]] v state; [|done]. intros [= <- <-]. by exists n.
  - intros [n [state|]] o; [|done]. intros [= <-]. by exists (N_digits n), state.
  - by intros [n [state|]].
  - intros s state. unfold oo_post. destruct (oo_object s) eqn:E; [by left|]. cbn [cm_state config_map].
    destruct (oo_write_cases s state); [by left|right]. unfold oo_stored. by rewrite E.
  - intros s v state. unfold oo_put. destruct (oo_stored s) as [[v' current]|] eqn:E; [|by left]. cbn [cm_state cm_resourceVersion config_map].
    destruct (jstr_eqb v v') eqn:Ev; cbn [negb]; [|by left]. apply bool_decide_eq_true in Ev as <-.
    case_bool_decide as Hc; [subst; right; split; [done|by right]|].
    destruct (oo_write_cases s state); [by left|right]. split; [done|by left].
Qed.

(** Two replicas race to consume a ticket on the server. *)
Definition kube_binding : TicketBinding := mkBinding (js "p") (js "s") (js "aud") (js "r") (js "g1") (js "pg1") (js "attach").
Definition kube_ticket : jstr := js "0123456789abcdefghijklmnopqrstuv".
Definition kube_raced : Replicas LedgerAnswer (KubernetesLedgerStorage OneObject) :=
  play no_dates default_config (no_calls (mkKube (mkOneObject 41 None)))
    ([inr (performed (QMintTicket kube_binding 30 kube_ticket 1000)); inl 0; inl 0; inl 0; inl 0;
      inr (performed (QConsumeTicket kube_binding kube_ticket 2000)); inr (performed (QConsumeTicket kube_binding kube_ticket 2000));
      inl 1; inl 2; inl 1; inl 2; inl 1; inl 2; inl 1; inl 2; inl 2; inl 2]%nat).

Lemma kubernetes_ledger_atomic_witness :
  sequential no_dates default_config (ops_of kube_raced) (rp_log kube_raced) (snapshot_state (cs_stored (kube_server (rp_storage kube_raced)))) /\
  NoDup (map fst (rp_log kube_raced)) /\ oo_revision (kube_server (rp_storage kube_raced)) = 43%N /\
  map (fun c => match c_phase c with Returned a => Some a | _ => None end) (drop 1 (rp_calls kube_raced)) = [Some (ABool true); Some (ABool false)].
Proof.
  destruct (kubernetes_ledger_atomic (H:=one_object_server) no_dates default_config (mkOneObject 41 None) kube_raced ltac:(reflexivity) (play_run _ _ _ _)) as (H1 & H2 & _).
  split; [exact H1|split; [exact H2|split; vm_compute; reflexivity]].
Defined.
