(* ===== verification/LedgerTicketSpec.v ===== *)
(** * LedgerTicketSpec: a ticket is consumed at most once

    First what an operation does to the tickets of one digest, then the sequential history, and
    with it any concurrent use of the ledger. *)
From stdpp Require Import base tactics option list numbers strings sets relations.
From S2P Require Import Prelude JsMap JsString JsValue LedgerState LedgerTickets LedgerAdmission LedgerResources LedgerCalls LedgerStore LedgerStoreSpec.
From S2P Require Import LedgerHistory.
Implicit Types (state next : Ledger).

(** ** Fields and updates *)

Lemma tickets_of_with_tickets state l : lg_tickets (with_tickets state l) = l.
Proof. by destruct state. Qed.

(** Operations that do not concern tickets leave them alone. *)
Definition about_tickets (q : LedgerRequest) : bool :=
  match q with
  | QInstallGeneration _ _ _ _ | QMintTicket _ _ _ _ | QConsumeTicket _ _ _ | QConsumeForTransport _ _ _ _ _ _ | QRevokeTicket _ _
  | QRevokeTickets _ _ => true
  | _ => false
  end.

Section Spec.
Context (sha256_hex : jstr -> jstr) (parse_date : jstr -> option Z) (config : LedgerConfig).
Abbreviation perform := (perform sha256_hex parse_date config).

Lemma other_requests_keep_tickets q : about_tickets q = false ->
  ensures (perform q) (fun state next _ => lg_tickets next = lg_tickets state).
Proof.
  intros Hq. destruct q; try done; cbn [LedgerCalls.perform]; clear Hq.
  all: try (unfold appendEvent; apply ensures_map; case_match; [|done]).
  all: branches; first [reflexivity|by destruct state|by destruct next].
Qed.

(** ** Tickets follow one another *)

(** Every ticket of [l'] continues one of [l]: same digest, and spent if that was. *)
Definition follows (l l' : list StoredTicket) : Prop :=
  forall t', t' ∈ l' -> exists t, t ∈ l /\ tk_digest t = tk_digest t' /\ (is_spent t = true -> is_spent t' = true).

Lemma follows_refl l : follows l l.
Proof. intros t Ht. eauto. Qed.

Lemma follows_trans l1 l2 l3 : follows l1 l2 -> follows l2 l3 -> follows l1 l3.
Proof. intros H1 H2 t (t2 & (t1 & ? & E1 & ?)%H1 & E2 & ?)%H2. exists t1. split_and!; [done|congruence|auto]. Qed.

Lemma follows_filter (P : StoredTicket -> bool) l : follows l (List.filter P l).
Proof. intros t [Ht _]%elem_of_filter_list. eauto. Qed.

Lemma follows_map f l : (forall t, tk_digest (f t) = tk_digest t /\ (is_spent t = true -> is_spent (f t) = true)) -> follows l (map f l).
Proof. intros Hf t' (t & -> & Ht)%list_elem_of_fmap. destruct (Hf t). exists t. done. Qed.

Lemma follows_insert l i t t' : l !! i = Some t -> tk_digest t' = tk_digest t -> is_spent t' = true -> follows l (<[i := t']> l).
Proof.
  intros Hi Hd Hs x [j Hj]%list_elem_of_lookup. apply list_lookup_insert_Some in Hj as [(-> & <- & _)|[_ Hj]].
  - exists t. split_and!; [by eapply list_elem_of_lookup_2|done|done].
  - exists x. split_and!; [by eapply list_elem_of_lookup_2|done|done].
Qed.

Lemma spent_revoked now t : is_spent (revoke_at now t) = true.
Proof. unfold is_spent. cbn. by rewrite orb_true_r. Qed.

Lemma revoke_if_follows (hit : StoredTicket -> bool) now l : follows l (map (fun t => if hit t then revoke_at now t else t) l).
Proof. apply follows_map. intros t. destruct (hit t); [|done]. split; [done|intros _; apply spent_revoked]. Qed.

(** [q] mints a ticket of digest [d]; [q] answered with [a] that it consumed one. *)
Definition mints (q : LedgerRequest) (d : jstr) : bool := match q with QMintTicket _ _ t _ => jstr_eqb (sha256_hex t) d | _ => false end.
Definition consumed (q : LedgerRequest) (a : LedgerAnswer) (d : jstr) : bool :=
  match q, a with
  | QConsumeTicket _ t _, ABool true => jstr_eqb (sha256_hex t) d
  | QConsumeForTransport t _ _ _ _ _, AConsume (Consumed _) => jstr_eqb (sha256_hex t) d
  | _, _ => false
  end.

Lemma claim_spec ticket matches now : ensures (claim sha256_hex ticket matches now) (fun state next a =>
  (a = Rejected /\ next = state) \/
  (exists i t, lg_tickets state !! i = Some t /\ tk_digest t = sha256_hex ticket /\ is_spent t = false /\
    a = Consumed (tk_binding t) /\ lg_tickets next = <[i := consume_at now t]> (lg_tickets state))).
Proof.
  apply ensures_demand. intros _. apply ensures_op. intros state next a. destruct (find_index _ _) as [[i t]|] eqn:E; [|intros [= <- <-]; by left].
  destruct (_ || _) eqn:Eb; [intros [= <- <-]; by left|]. intros [= <- <-]. right. exists i, t. apply find_index_some in E as [Hi Hd].
  apply orb_false_iff in Eb as [[_ Hs]%orb_false_iff _]. unfold sameDigest in Hd. apply andb_prop in Hd as [_ Hd]. apply bool_decide_eq_true in Hd.
  split_and!; [done..|apply tickets_of_with_tickets].
Qed.

Lemma claim_follows ticket matches now : ensures (claim sha256_hex ticket matches now) (fun state next _ => follows (lg_tickets state) (lg_tickets next)).
Proof.
  intros op state next a Hm Ho. destruct (claim_spec ticket matches now op state next a Hm Ho) as [[_ ->]|(i & t & Hi & Hd & _ & _ & ->)]; [apply follows_refl|].
  by eapply follows_insert.
Qed.

(** The tickets of one digest. *)
Definition of_digest (d : jstr) state : list StoredTicket := List.filter (fun t => jstr_eqb (tk_digest t) d) (lg_tickets state).

Lemma requests_follow q d : mints q d = false ->
  ensures (perform q) (fun state next _ => follows (of_digest d state) (of_digest d next)).
Proof.
  intros Hm. unfold of_digest. assert (forall l l', follows l l' -> follows (List.filter (fun t => jstr_eqb (tk_digest t) d) l) (List.filter (fun t => jstr_eqb (tk_digest t) d) l')) as Hf.
  { intros l l' Hl t' [(t & Ht & Ed & ?)%Hl Hd]%elem_of_filter_list. exists t. split; [|done]. apply elem_of_filter_list. by rewrite Ed. }
  destruct (about_tickets q) eqn:Hq.
  2: { intros op state next a Hp Ho. apply Hf. rewrite (other_requests_keep_tickets q Hq op state next a Hp Ho). apply follows_refl. }
  destruct q; try done; cbn [LedgerCalls.perform]; apply ensures_map.
  - apply ensures_demand. intros _. apply ensures_op. intros state next a. cbv zeta. destruct (List.find _ _) as [g|].
    + destruct (jstr_eqb _ _); intros [= <- <-]; [apply Hf, follows_refl|]. apply Hf. destruct state. cbn. apply revoke_if_follows.
    + intros [= <- <-]. apply Hf. destruct state. apply follows_refl.
  - apply ensures_demand. intros _. apply ensures_op. intros state next a. cbv zeta. cbn in Hm. destruct (_ || _); [done|]. destruct (iso _); [|done].
    intros [= <- <-]. rewrite tickets_of_with_tickets, List.filter_app. cbn. rewrite Hm, app_nil_r. apply Hf, follows_filter.
  - apply ensures_demand. intros _. apply ensures_map. intros op state next a Hp Ho. apply Hf. by eapply claim_follows.
  - apply ensures_demand. intros _. intros op state next a Hp Ho. apply Hf. by eapply claim_follows.
  - apply ensures_demand. intros _. apply ensures_op. intros state next a. cbv zeta. destruct (find_index _ _) as [[i t]|] eqn:E.
    + apply find_index_some in E as [Hi _]. destruct (is_spent t); intros [= <- <-]; rewrite tickets_of_with_tickets; apply Hf; [apply follows_filter|].
      eapply follows_trans; [apply follows_filter|]. eapply follows_insert; [done|done|apply spent_revoked].
    + intros [= <- <-]. rewrite tickets_of_with_tickets. apply Hf, follows_filter.
  - apply ensures_demand. intros _. apply ensures_op. intros state next a. cbv zeta. intros [= <- <-]. rewrite tickets_of_with_tickets. apply Hf.
    eapply follows_trans; [apply follows_filter|apply revoke_if_follows].
Qed.

(** ** Consuming *)

Lemma of_digest_spec d state t : t ∈ of_digest d state <-> t ∈ lg_tickets state /\ tk_digest t = d.
Proof. unfold of_digest. rewrite elem_of_filter_list. unfold jstr_eqb. by rewrite bool_decide_eq_true. Qed.

(** A ticket that is consumed was unspent, and none of its digest is afterwards. *)
Lemma claim_consumes ticket matches now : ensures (claim sha256_hex ticket matches now) (fun state next a => forall b, a = Consumed b ->
  distinct (map tk_digest (lg_tickets state)) = true ->
  (exists t, t ∈ of_digest (sha256_hex ticket) state /\ is_spent t = false) /\
  (forall t, t ∈ of_digest (sha256_hex ticket) next -> is_spent t = true)).
Proof.
  intros op state next a Hm Ho b -> Hd%distinct_spec. destruct (claim_spec _ _ _ _ _ _ _ Hm Ho) as [[? _]|(i & t & Hi & Ht & Hs & _ & Hn)]; [done|]. split.
  - exists t. split; [|done]. apply of_digest_spec. split; [by eapply list_elem_of_lookup_2|done].
  - intros t' [Hin Hd']%of_digest_spec. rewrite Hn in Hin. apply list_elem_of_lookup in Hin as [j Hj].
    apply list_lookup_insert_Some in Hj as [(_ & <- & _)|[Hne Hj]]; [done|]. destruct Hne.
    eapply (NoDup_lookup _ i j (sha256_hex ticket) Hd); rewrite list_lookup_fmap; [by rewrite Hi; cbn; rewrite Ht|by rewrite Hj; cbn; rewrite Hd'].
Qed.

Lemma consumed_spec q d : ensures (perform q) (fun state next a => consumed q a d = true ->
  distinct (map tk_digest (lg_tickets state)) = true ->
  (exists t, t ∈ of_digest d state /\ is_spent t = false) /\ (forall t, t ∈ of_digest d next -> is_spent t = true)).
Proof.
  destruct q; try done; cbn [LedgerCalls.perform consumed]; apply ensures_map, ensures_demand; intros _.
  - apply ensures_map. intros op state next [b|] Hm Ho; [|done]. intros <-%bool_decide_eq_true. by eapply claim_consumes.
  - intros op state next [b|] Hm Ho; [|done]. intros <-%bool_decide_eq_true. by eapply claim_consumes.
Qed.

(** ** Histories *)

Context (requests : list LedgerRequest) (ops : list (Op LedgerAnswer)).
Context (Hops : Forall2 (fun q op => perform q = inl op) requests ops) (d : jstr).

Definition entry_mints (e : nat * LedgerAnswer) : bool := match requests !! fst e with Some q => mints q d | None => false end.
Definition entry_consumes (e : nat * LedgerAnswer) : bool := match requests !! fst e with Some q => consumed q (snd e) d | None => false end.

(** Only one request mints a ticket of this digest. *)
Context (Hmint : forall i j a b, entry_mints (i, a) = true -> entry_mints (j, b) = true -> i = j).

Record history_ok (log : list (nat * LedgerAnswer)) state : Prop := {
  ho_minted : existsb entry_mints log = false -> of_digest d state = [];
  ho_spent : existsb entry_consumes log = true -> existsb entry_mints log = true /\ forall t, t ∈ of_digest d state -> is_spent t = true;
  ho_once : forall m n e f, log !! m = Some e -> log !! n = Some f -> entry_consumes e = true -> entry_consumes f = true -> m = n;
}.

Lemma valid_distinct state : validateState parse_date config state = true -> distinct (map tk_digest (lg_tickets state)) = true.
Proof. unfold validateState. intros Hv. repeat (apply andb_prop in Hv as [Hv ?]). done. Qed.

Lemma history_step log state i op a next : NoDup (map fst (log ++ [(i, a)])) -> history_ok log state ->
  ops !! i = Some op -> validateState parse_date config state = true -> op state = inl (next, a) -> history_ok (log ++ [(i, a)]) next.
Proof.
  intros Hnd [Hm Hs Ho] Hop Hv Happ. destruct (Forall2_lookup_r _ _ _ _ _ Hops Hop) as (q & Hq & Hp).
  assert (entry_mints (i, a) = mints q d) as Em by (unfold entry_mints; cbn; by rewrite Hq).
  assert (entry_consumes (i, a) = consumed q a d) as Ec by (unfold entry_consumes; cbn; by rewrite Hq).
  assert (consumed q a d = true -> existsb entry_consumes log = false /\ existsb entry_mints log = true) as Hfirst.
  { intros Hc. destruct (consumed_spec q d op state next a Hp Happ Hc (valid_distinct _ Hv)) as [(t & Ht & Hu) _]. split.
    - destruct (existsb entry_consumes log) eqn:E; [|done]. destruct (Hs eq_refl) as [_ Hall]. rewrite (Hall t Ht) in Hu. done.
    - destruct (existsb entry_mints log) eqn:E; [done|]. rewrite Hm in Ht by done. by apply not_elem_of_nil in Ht. }
  assert (mints q d = true -> existsb entry_mints log = false) as Hfresh.
  { intros Hmq. destruct (existsb entry_mints log) eqn:E; [|done]. apply existsb_exists in E as ([j b] & Hin%list_elem_of_In & Hj).
    rewrite <- Em in Hmq. pose proof (Hmint i j a b Hmq Hj) as <-. rewrite map_app in Hnd. apply NoDup_app in Hnd as (_ & Hn & _).
    exfalso. apply (Hn i); [by apply (list_elem_of_fmap_2 fst _ (i, b))|by left]. }
  constructor.
  - rewrite existsb_app. cbn. rewrite orb_false_r, Em. intros [Hl Hmq]%orb_false_iff. specialize (Hm Hl).
    pose proof (requests_follow q d Hmq op state next a Hp Happ) as Hf. cbv beta in Hf. rewrite Hm in Hf.
    destruct (of_digest d next) as [|t l]; [done|]. destruct (Hf t) as (x & Hx & _); [by left|]. by apply not_elem_of_nil in Hx.
  - rewrite !existsb_app. cbn. rewrite !orb_false_r, Ec, Em. intros [Hl|Hc]%orb_prop.
    + destruct (Hs Hl) as [Hl' Hall]. split; [by rewrite Hl'|]. destruct (mints q d) eqn:Emq; [by rewrite Hfresh in Hl'|].
      intros t Ht. destruct (requests_follow q d Emq op state next a Hp Happ t Ht) as (x & Hx & _ & Hsp). apply Hsp, Hall, Hx.
    + destruct (Hfirst Hc) as [_ ->]. split; [done|]. by apply (consumed_spec q d op state next a Hp Happ Hc (valid_distinct _ Hv)).
  - apply once_snoc; [done|]. rewrite Ec. intros Hc. by apply Hfirst.
Qed.

Lemma history log state : sequential parse_date config ops log state -> NoDup (map fst log) -> history_ok log state.
Proof.
  induction 1 as [|log state i op a next Hseq IH Hop Hv Happ Hv']; intros Hnd.
  - constructor; [done|done|]. intros m n e f Hm. done.
  - eapply history_step; [done|apply IH|done|done|done]. rewrite map_app in Hnd. by apply NoDup_app in Hnd as [? _].
Qed.
End Spec.

(** C6: A ticket is consumed at most once, whatever the replicas do.  Let calls that serve any
    requests run concurrently on a new ledger, and let at most one of the requests mint a ticket
    of a given digest.  Then at most one call answers that it consumed a ticket of that digest:
    tickets cannot be replayed through another replica, a retry, an abandoned call, a revocation
    or their own expiry. *)
Theorem ticket_consumed_once {S} `{LedgerStorageLaws S} sha256_hex parse_date config (s : S) (w : Replicas LedgerAnswer S) requests d :
  st_current s = None -> rtc (replicas_step parse_date config) (no_calls s) w ->
  Forall2 (fun q op => perform sha256_hex parse_date config q = inl op) requests (ops_of w) ->
  (forall i j p q, requests !! i = Some p -> requests !! j = Some q -> mints sha256_hex p d = true -> mints sha256_hex q d = true -> i = j) ->
  forall i j p q c c' a b, requests !! i = Some p -> requests !! j = Some q ->
    rp_calls w !! i = Some c -> rp_calls w !! j = Some c' -> c_phase c = Returned a -> c_phase c' = Returned b ->
    consumed sha256_hex p a d = true -> consumed sha256_hex q b d = true -> i = j.
Proof.
  intros Hs Hrun Hops Hmint i j p q c c' a b Hp Hq Hi Hj Hra Hrb Hca Hcb.
  destruct (run_atomic parse_date config s w Hs Hrun) as (Hseq & Hnd & Hret).
  assert (history_ok sha256_hex requests d (rp_log w) (snapshot_state (st_current (rp_storage w)))) as [_ _ Honce].
  { apply (history sha256_hex parse_date config requests (ops_of w) Hops d); [|done|done]. intros k l x y. unfold entry_mints. cbn.
    destruct (requests !! k) as [qk|] eqn:Ek; [|done]. destruct (requests !! l) as [ql|] eqn:El; [|done]. by apply Hmint. }
  assert (forall k qk ck x, requests !! k = Some qk -> rp_calls w !! k = Some ck -> c_phase ck = Returned x -> consumed sha256_hex qk x d = true ->
    exists n, rp_log w !! n = Some (k, x)) as Hentry.
  { intros k qk ck x Hqk Hck Hph Hc. destruct (Hret k ck x Hck Hph) as (n & _ & [Hl|(op & state & Hop & Hsq & Hv & Happ)]); [eauto|].
    pose proof (Forall2_lookup_lr _ _ _ _ _ _ Hops Hqk Hop) as Hperf. cbv beta in Hperf.
    destruct (consumed_spec sha256_hex parse_date config qk d op state state x Hperf Happ Hc (valid_distinct _ _ _ Hv)) as [(t & Ht & Hu) Hall].
    rewrite (Hall t Ht) in Hu. done. }
  destruct (Hentry i p c a Hp Hi Hra Hca) as [m Hm], (Hentry j q c' b Hq Hj Hrb Hcb) as [n Hn].
  assert (m = n) as -> by (eapply (Honce m n (i, a) (j, b)); [done|done|..]; unfold entry_consumes; cbn; by rewrite ?Hp, ?Hq). congruence.
Qed.

(** ** Two gateways race for a ticket *)

Definition sample_binding : TicketBinding := mkBinding (js "p") (js "s") (js "aud") (js "r") (js "g1") (js "pg1") (js "attach").
Definition sample_ticket : jstr := js "0123456789abcdefghijklmnopqrstuv".
Definition sample_requests : list LedgerRequest :=
  [QMintTicket sample_binding 30 sample_ticket 1000; QConsumeTicket sample_binding sample_ticket 2000; QConsumeTicket sample_binding sample_ticket 2000].
(** Mint; then both read, both write, the second conflicts and reads again. *)
Definition raced : Replicas LedgerAnswer SqliteLedgerStorage :=
  play no_dates default_config (no_calls empty_storage)
    ([inr (performed (QMintTicket sample_binding 30 sample_ticket 1000)); inl 0; inl 0; inl 0; inl 0;
      inr (performed (QConsumeTicket sample_binding sample_ticket 2000)); inr (performed (QConsumeTicket sample_binding sample_ticket 2000));
      inl 1; inl 2; inl 1; inl 2; inl 1; inl 2; inl 1; inl 2; inl 2; inl 2]%nat).

Lemma sample_mint m p : sample_requests !! m = Some p -> mints flat_digest p (flat_digest sample_ticket) = true -> m = 0%nat.
Proof.
  destruct m as [|[|[|m]]]; [reflexivity|..]; intros Hp Hm; [injection Hp as <-; discriminate Hm|injection Hp as <-; discriminate Hm|discriminate Hp].
Qed.

Lemma ticket_consumed_once_witness :
  map (fun c => match c_phase c with Returned a => Some a | _ => None end) (drop 1 (rp_calls raced)) = [Some (ABool true); Some (ABool false)] /\
  forall j c, rp_calls raced !! j = Some c -> forall q, sample_requests !! j = Some q -> c_phase c = Returned (ABool true) ->
    consumed flat_digest q (ABool true) (flat_digest sample_ticket) = true -> j = 1%nat.
Proof.
  split; [vm_compute; reflexivity|]. intros j c Hj q Hq Hret Hc.
  assert (exists c1, rp_calls raced !! 1%nat = Some c1 /\ c_phase c1 = Returned (ABool true)) as (c1 & H1 & Hr1)
    by (eexists; split; [vm_compute; reflexivity|vm_compute; reflexivity]).
  symmetry. refine (ticket_consumed_once flat_digest no_dates default_config empty_storage raced sample_requests (flat_digest sample_ticket)
    eq_refl (play_run _ _ _ _) _ _ 1%nat j _ q c1 c (ABool true) (ABool true) eq_refl Hq H1 Hj Hr1 Hret ltac:(vm_compute; reflexivity) Hc).
  - unfold raced. rewrite ops_play. repeat constructor; apply performed_ok; vm_compute; reflexivity.
  - intros m n p p' Hp Hp' Hm Hn. by rewrite (sample_mint m p Hp Hm), (sample_mint n p' Hp' Hn).
Defined.

Lemma ledger_calls_atomic_witness :
  sequential no_dates default_config (ops_of raced) (rp_log raced) (snapshot_state (st_current (rp_storage raced))) /\
  NoDup (map fst (rp_log raced)) /\ map fst (rp_log raced) = [0; 1]%nat.
Proof.
  destruct (ledger_calls_atomic (H:=sqlite_storage) no_dates default_config empty_storage raced ltac:(reflexivity) (play_run _ _ _ _)) as (H1 & H2 & _).
  split; [exact H1|split; [exact H2|vm_compute; reflexivity]].
Defined.
