(* ===== verification/LedgerAdmissionSpec.v ===== *)
(** * LedgerAdmissionSpec: reservations stay within the limits of their scope *)
From stdpp Require Import base tactics option list numbers strings sets relations.
From S2P Require Import Prelude JsMap JsString JsValue LedgerState LedgerTickets LedgerAdmission LedgerResources LedgerCalls LedgerStore LedgerStoreSpec.
From S2P Require Import LedgerHistory.
Implicit Types (state next : Ledger).

(** What the reservations of a scope add up to in one field. *)
Definition scope_reservations (scopeId : jstr) state : list StoredAdmissionReservation :=
  List.filter (fun r => jstr_eqb (ar_scopeId r) scopeId) (lg_admissionReservations state).
Definition reserved (field : Amounts -> Z) (l : list StoredAdmissionReservation) : Z := sumZ (map (fun r => field (ar_amounts r)) l).

Lemma saturatedAdd_min a b : saturatedAdd a b = Z.min MAX_SAFE_INTEGER (a + b).
Proof. unfold saturatedAdd. destruct (Z.ltb_spec (MAX_SAFE_INTEGER - b) a); lia. Qed.

(** Saturating additions of amounts that are not negative saturate the exact sum. *)
Lemma saturated_sum (field : Amounts -> Z) l base : Forall (fun r => 0 <= field (ar_amounts r)) l ->
  fold_left (fun sum r => saturatedAdd sum (field (ar_amounts r))) l (Z.min MAX_SAFE_INTEGER base) = Z.min MAX_SAFE_INTEGER (base + reserved field l).
Proof.
  revert base. induction l as [|r l IH]; intros base Hl; cbn [fold_left]; [unfold reserved; cbn; by rewrite Z.add_0_r|]. inversion_clear Hl as [|? ? Hr Hl'].
  rewrite saturatedAdd_min. replace (Z.min MAX_SAFE_INTEGER (Z.min MAX_SAFE_INTEGER base + field (ar_amounts r)))
    with (Z.min MAX_SAFE_INTEGER (base + field (ar_amounts r))) by lia.
  rewrite IH by done. unfold reserved. cbn [map sumZ fold_right]. unfold sumZ. cbn [fold_right]. lia.
Qed.

Lemma total_exact scoped field q : 0 <= field (aq_usage q) + field (delta q) -> Forall (fun r => 0 <= field (ar_amounts r)) scoped ->
  total scoped field q = Z.min MAX_SAFE_INTEGER (field (aq_usage q) + field (delta q) + reserved field scoped).
Proof. intros _ Hs. unfold total. rewrite saturatedAdd_min. by rewrite saturated_sum. Qed.

(** The limited fields. *)
Definition limited (field : Amounts -> Z) : Prop := exists reason, (field, reason) ∈ limits.

Lemma limited_amounts field a : limited field -> amounts_ok a = true -> 0 <= field a <= MAX_SAFE_INTEGER.
Proof.
  intros [reason Hin] Ha. unfold amounts_ok, amounts_list in Ha. cbn [forallb] in Ha. unfold bounded in Ha.
  repeat (apply andb_prop in Ha as [? Ha]); rewrite ?andb_true_iff, ?Z.leb_le in *. unfold limits in Hin.
  repeat (apply elem_of_cons in Hin as [[= -> _]|Hin]; [lia|]). by apply not_elem_of_nil in Hin.
Qed.

Lemma usage_amounts u : usage_ok u = true -> amounts_ok u = true.
Proof.
  unfold usage_ok, amounts_ok, amounts_list, bounded. cbn [forallb]. rewrite !andb_true_iff, !Z.leb_le. unfold MAX_SAFE_INTEGER. lia.
Qed.

Lemma delta_amounts q : admission_request_ok q = true -> amounts_ok (delta q) = true.
Proof.
  unfold admission_request_ok, decodeScopeAdmissionPolicy, decodeRuntimeResourceDemand, amounts_ok, amounts_list, bounded, delta. cbn [forallb].
  rewrite !andb_true_iff, !Z.leb_le. cbn. unfold MAX_SAFE_INTEGER. intros.
  destruct (is_runtime q && aq_active q), (bool_decide (request_transition q = TCreate)), (is_runtime q), (bool_decide (aq_resourceKind q = KWorkspace));
    cbn; lia.
Qed.

Lemma valid_amounts parse_date config state : validateState parse_date config state = true ->
  Forall (fun r => amounts_ok (ar_amounts r) = true) (lg_admissionReservations state).
Proof.
  unfold validateState. intros Hv.
  assert (forallb valid_reservation (lg_admissionReservations state) = true) as Hr by (repeat (apply andb_prop in Hv as [Hv ?]); done).
  apply Forall_forall. intros r Hin%list_elem_of_In. rewrite forallb_forall in Hr. specialize (Hr r Hin). unfold valid_reservation in Hr.
  by apply andb_prop in Hr as [_ ?].
Qed.

Section Spec.
Context (sha256_hex : jstr -> jstr) (parse_date : jstr -> option Z) (config : LedgerConfig).

(** Within limits: the usage a request reports with everything reserved for its scope. *)
Definition within_limits (q : ScopeAdmissionRequest) state : Prop :=
  forall field, limited field -> field (sp_limits (aq_policy q)) < MAX_SAFE_INTEGER ->
    field (aq_usage q) + reserved field (scope_reservations (aq_scopeId q) state) <= field (sp_limits (aq_policy q)).

Lemma exceeded_none scoped q : exceeded scoped q = None -> forall field, limited field -> total scoped field q <= field (sp_limits (aq_policy q)).
Proof.
  unfold exceeded. intros Hx field [reason Hin]. destruct (List.find _ limits) as [l|] eqn:E; [done|].
  apply list_elem_of_In, (find_none _ _ E) in Hin. cbn in Hin. by apply Z.ltb_ge in Hin.
Qed.

Lemma reserved_app field l l' : reserved field (l ++ l') = reserved field l + reserved field l'.
Proof. unfold reserved. by rewrite map_app, sumZ_app. Qed.

Lemma scope_reservations_snoc scopeId state l r events : ar_scopeId r = scopeId ->
  scope_reservations scopeId (with_admission state (l ++ [r]) events) = List.filter (fun r => jstr_eqb (ar_scopeId r) scopeId) l ++ [r].
Proof. intros <-. unfold scope_reservations. destruct state. cbn. rewrite List.filter_app. cbn. by rewrite jstr_eqb_refl. Qed.

Lemma granted_spec q token now : ensures (reserveAdmission sha256_hex config q token now) (fun state next a =>
  forall t, a = Granted t -> validateState parse_date config state = true -> within_limits q next).
Proof.
  apply ensures_demand. intros Hok. apply andb_prop in Hok as [Hok _]. apply ensures_op. intros state next a. cbv zeta.
  set (reservations := List.filter _ (lg_admissionReservations state)). destruct (existsb _ reservations); [by intros [= <- <-]|].
  destruct (_ && _); [by intros [= <- <-]|]. destruct (exceeded _ q) eqn:Ex; [by intros [= <- <-]|]. destruct (_ <=? _); [by intros [= <- <-]|].
  destruct (_ <=? _); [done|]. intros [= <- <-] t _ Hv field Hf Hlt.
  pose proof (exceeded_none _ _ Ex field Hf) as Ht. set (scoped := List.filter _ reservations) in *.
  rewrite scope_reservations_snoc by done. fold scoped.
  assert (Forall (fun r => 0 <= field (ar_amounts r)) scoped) as Hs.
  { apply Forall_forall. intros r [[Hr _]%elem_of_filter_list _]%elem_of_filter_list. pose proof (valid_amounts _ _ _ Hv) as Hall.
    rewrite Forall_forall in Hall. apply (limited_amounts field _ Hf (Hall r Hr)). }
  pose proof (limited_amounts field _ Hf (delta_amounts q Hok)) as Hd.
  assert (usage_ok (aq_usage q) = true) as Hu by (unfold admission_request_ok in Hok; repeat (apply andb_prop in Hok as [Hok ?]); done).
  pose proof (limited_amounts field _ Hf (usage_amounts _ Hu)) as Huse.
  rewrite total_exact in Ht by (lia || done). rewrite reserved_app. unfold reserved at 2. cbn. unfold MAX_SAFE_INTEGER in *. lia.
Qed.

Lemma reserve_admits q token now requests ops i op state next t :
  Forall2 (fun q op => perform sha256_hex parse_date config q = inl op) requests ops -> requests !! i = Some (QReserveAdmission q token now) ->
  ops !! i = Some op -> validateState parse_date config state = true -> op state = inl (next, AAdmission (Granted t)) -> within_limits q next.
Proof.
  intros Hops Hq Hop Hv Happ. pose proof (Forall2_lookup_lr _ _ _ _ _ _ Hops Hq Hop) as Hp. cbn [LedgerCalls.perform] in Hp.
  refine (ensures_map AAdmission _ (fun state next a => forall t, a = AAdmission (Granted t) -> validateState parse_date config state = true ->
    within_limits q next) _ op state next _ Hp Happ t eq_refl Hv).
  intros op' st nx a Hm Ho u [= ->]. by eapply granted_spec.
Qed.

(** ** Nothing else adds to a scope *)

Lemma reserved_sublist field l l' : Forall (fun r => 0 <= field (ar_amounts r)) l -> l' `sublist_of` l -> reserved field l' <= reserved field l.
Proof.
  intros Hl Hs. induction Hs as [|r l1 l2 Hs IH|r l1 l2 Hs IH]; [done|..]; inversion_clear Hl as [|? ? Hr Hl2]; specialize (IH Hl2);
    unfold reserved, sumZ in *; cbn [map fold_right]; lia.
Qed.

(** A list of reservations that was only thinned out, or in which some were committed. *)
Definition same_demand (r r' : StoredAdmissionReservation) : Prop := ar_scopeId r' = ar_scopeId r /\ ar_amounts r' = ar_amounts r.
Definition thinned (l l' : list StoredAdmissionReservation) : Prop := exists l1, l1 `sublist_of` l /\ Forall2 same_demand l1 l'.

Lemma same_demand_refl l : Forall2 same_demand l l.
Proof. apply Forall2_same_length_lookup_2; [done|]. intros i x y Hx Hy. simplify_eq. done. Qed.

Lemma thinned_sublist l l' : l' `sublist_of` l -> thinned l l'.
Proof. intros Hs. exists l'. split; [done|apply same_demand_refl]. Qed.

Lemma thinned_reserved field scopeId l l' : Forall (fun r => 0 <= field (ar_amounts r)) l -> thinned l l' ->
  reserved field (List.filter (fun r => jstr_eqb (ar_scopeId r) scopeId) l') <= reserved field (List.filter (fun r => jstr_eqb (ar_scopeId r) scopeId) l).
Proof.
  intros Hl (l1 & Hs & Hd). assert (reserved field (List.filter (fun r => jstr_eqb (ar_scopeId r) scopeId) l') =
    reserved field (List.filter (fun r => jstr_eqb (ar_scopeId r) scopeId) l1)) as ->.
  { clear -Hd. induction Hd as [|r r' l l' [Es Ea] _ IH]; [done|]. cbn. rewrite Es. destruct (jstr_eqb _ _); [|done].
    unfold reserved, sumZ in *. cbn [map fold_right]. rewrite Ea. lia. }
  apply reserved_sublist; [|by apply filter_sublist_mono]. apply Forall_forall. intros r [Hr _]%elem_of_filter_list. by eapply Forall_forall in Hl.
Qed.

Definition admits (q : LedgerRequest) (a : LedgerAnswer) (scopeId : jstr) : Prop :=
  exists r token now t, q = QReserveAdmission r token now /\ aq_scopeId r = scopeId /\ a = AAdmission (Granted t).

Definition about_admission (q : LedgerRequest) : bool :=
  match q with QReserveAdmission _ _ _ | QCommitAdmission _ _ | QReleaseAdmission _ _ | QReconcileAdmission _ _ _ _ _ => true | _ => false end.

Lemma other_requests_keep_reservations q : about_admission q = false ->
  ensures (perform sha256_hex parse_date config q) (fun state next _ => lg_admissionReservations next = lg_admissionReservations state).
Proof.
  intros Hq. destruct q; try done; cbn [LedgerCalls.perform]; clear Hq.
  all: try (unfold appendEvent; apply ensures_map; case_match; [|done]).
  all: try (unfold consumeTicket, consumeTicketForTransport, claim; apply ensures_map; repeat (apply ensures_demand; intros _); apply ensures_map).
  all: branches; first [reflexivity|by destruct state|by destruct next].
Qed.

Lemma reservations_with_admission state l events : lg_admissionReservations (with_admission state l events) = l.
Proof. by destruct state. Qed.

Lemma committed_thinned now l i r : List.filter (not_expired now) l !! i = Some r -> thinned l (<[i := set_committed r]> (List.filter (not_expired now) l)).
Proof.
  intros Hi. exists (List.filter (not_expired now) l). split; [apply filter_sublist|].
  apply Forall2_same_length_lookup_2; [by rewrite length_insert|]. intros j x y Hx Hy.
  apply list_lookup_insert_Some in Hy as [(-> & <- & _)|[_ Hy]]; simplify_eq; done.
Qed.

(** [next] has a reservation of [q] more, which the answer [a] admits. *)
Definition reserves (q : ScopeAdmissionRequest) state next (a : ScopeAdmissionOutcome) : Prop :=
  exists t l r, a = Granted t /\ thinned (lg_admissionReservations state) l /\ lg_admissionReservations next = l ++ [r] /\ ar_scopeId r = aq_scopeId q.

Lemma reserve_thins q token now : ensures (reserveAdmission sha256_hex config q token now) (fun state next a =>
  thinned (lg_admissionReservations state) (lg_admissionReservations next) \/ reserves q state next a).
Proof.
  apply ensures_demand. intros _. apply ensures_op. intros state next a. cbv zeta. set (l := List.filter _ (lg_admissionReservations state)).
  assert (thinned (lg_admissionReservations state) l) as Hl by (apply thinned_sublist, filter_sublist).
  repeat (case_match; try done); intros [= <- <-]; first [left; by rewrite reservations_with_admission|right; eexists _, l, _; by rewrite reservations_with_admission].
Qed.

Lemma admission_thins q : ensures (perform sha256_hex parse_date config q) (fun state next a =>
  thinned (lg_admissionReservations state) (lg_admissionReservations next) \/
  exists r token now o, q = QReserveAdmission r token now /\ a = AAdmission o /\ reserves r state next o).
Proof.
  destruct (about_admission q) eqn:Hq.
  2: { intros op state next a Hp Ho. left. rewrite (other_requests_keep_reservations q Hq op state next a Hp Ho). by apply thinned_sublist. }
  destruct q; try done; cbn [LedgerCalls.perform]; apply ensures_map.
  - intros op state next a Hp Ho. destruct (reserve_thins _ _ _ op state next a Hp Ho) as [Hl|Hr]; [by left|right]. eauto 10.
  - apply ensures_demand. intros _. apply ensures_op. intros state next a. cbv zeta. intros Ho. left. revert Ho.
    destruct (find_index _ _) as [[i x]|] eqn:E; [|intros [= <- <-]; rewrite reservations_with_admission; apply thinned_sublist, filter_sublist].
    apply find_index_some in E as [Hi _]. destruct (ar_committed x); intros [= <- <-]; rewrite reservations_with_admission;
      [apply thinned_sublist, filter_sublist|by apply committed_thinned].
  - branches. left. rewrite reservations_with_admission. apply thinned_sublist. etransitivity; apply filter_sublist.
  - branches. left. rewrite reservations_with_admission. apply thinned_sublist. etransitivity; apply filter_sublist.
Qed.

Lemma only_admission_adds q scopeId field : limited field ->
  ensures (perform sha256_hex parse_date config q) (fun state next a => validateState parse_date config state = true ->
    reserved field (scope_reservations scopeId next) <= reserved field (scope_reservations scopeId state) \/ admits q a scopeId).
Proof.
  intros Hf op state next a Hp Ho Hv. assert (Forall (fun r => 0 <= field (ar_amounts r)) (lg_admissionReservations state)) as Hpos.
  { eapply Forall_impl; [by eapply valid_amounts|]. intros r Hr. apply (limited_amounts field _ Hf Hr). }
  destruct (admission_thins q op state next a Hp Ho) as [Hl|(r & token & now & o & -> & -> & t & l & x & -> & Hl & En & Es)].
  { left. by apply thinned_reserved. }
  destruct (decide (aq_scopeId r = scopeId)) as [E|Hne]; [right; exists r, token, now, t; done|left].
  unfold scope_reservations. rewrite En, List.filter_app. cbn. unfold jstr_eqb at 2. rewrite bool_decide_eq_false_2 by congruence. rewrite app_nil_r.
  by apply thinned_reserved.
Qed.
End Spec.

(** ** In a concurrent history *)


(** ** Two replicas race for the last place *)

Definition small_digest (text : jstr) : jstr := repeat 0x30%N 63 ++ [(0x30 + fold_left N.add text 0 mod 10)%N].
Definition one_runtime : ScopeAdmissionPolicy :=
  mkPolicy (mkAmounts 1 5 1000 1000 1000 0) false (mkDemand 100 100 0) (mkRate 60 10 30).
Definition runtime_request (key : jstr) : ScopeAdmissionRequest :=
  mkAdmission (js "team") key KRuntime None None true false one_runtime (mkAmounts 0 0 0 0 0 0) None.
Definition reserve_a : LedgerRequest := QReserveAdmission (runtime_request (js "a")) (js "token-a") 1000.
Definition reserve_b : LedgerRequest := QReserveAdmission (runtime_request (js "b")) (js "token-b") 1000.
Definition reserved_op (q : LedgerRequest) : Op LedgerAnswer :=
  match perform small_digest no_dates default_config q with inl op => op | inr e => fun _ => inr e end.
Definition last_place : Replicas LedgerAnswer SqliteLedgerStorage :=
  play no_dates default_config (no_calls empty_storage)
    ([inr (reserved_op reserve_a); inr (reserved_op reserve_b); inl 0; inl 1; inl 0; inl 1; inl 0; inl 1; inl 0; inl 1; inl 1; inl 1; inl 1; inl 1]%nat).

