(* ===== verification/LedgerIdempotencySpec.v ===== *)
(** * LedgerIdempotencySpec: a mutation is executed by one caller

    Replicas that receive the same idempotency key agree on who executes it, and everyone else
    is told to wait, to give up or what the outcome was. *)
From stdpp Require Import base tactics option list numbers strings sets relations.
From S2P Require Import Prelude JsMap JsString JsValue LedgerState LedgerTickets LedgerAdmission LedgerResources LedgerCalls LedgerStore LedgerStoreSpec.
From S2P Require Import LedgerHistory.
Implicit Types (state next : Ledger) (x : StoredIdempotency).

Lemma idempotency_of_with state l : lg_idempotency (with_idempotency state l) = l.
Proof. by destruct state. Qed.

Lemma same_digest left right : sameDigest left right = true <-> DIGEST left = true /\ left = right.
Proof.
  unfold sameDigest, jstr_eqb. rewrite !andb_true_iff, bool_decide_eq_true. split; [by intros [[? ?] ?]|intros [? ->]; auto].
Qed.

Section Spec.
Context (sha256_hex : jstr -> jstr) (parse_date : jstr -> option Z) (config : LedgerConfig).
Abbreviation perform := (perform sha256_hex parse_date config).

(** The clock reading of a request that concerns idempotency keys. *)
Definition idempotency_clock (q : LedgerRequest) : option Z :=
  match q with
  | QReserveIdempotency _ _ now | QCompleteIdempotency _ _ _ now | QReleaseIdempotency _ _ now | QReconcileIdempotency _ _ now
  | QCleanupIdempotency now => Some now
  | _ => None
  end.

Definition reserves_new (q : LedgerRequest) (a : LedgerAnswer) (d : jstr) : bool :=
  match q, a with QReserveIdempotency k _ _, AReservation (RNew _) => jstr_eqb (keyDigest sha256_hex k) d | _, _ => false end.
Definition releases_key (q : LedgerRequest) (a : LedgerAnswer) (d : jstr) : bool :=
  match q, a with QReleaseIdempotency k _ _, ARelease LReleased => jstr_eqb (keyDigest sha256_hex k) d | _, _ => false end.
(** [q] completed key [d] for the request body of binding [b] with [result]. *)
Definition completes_key (q : LedgerRequest) (a : LedgerAnswer) (d b : jstr) (result : jv) : Prop :=
  a = ACompletion CCompleted /\ exists k, keyDigest sha256_hex k = d /\ bindingDigest sha256_hex k = b /\
    ((exists token now, q = QCompleteIdempotency k token result now) \/ exists now, q = QReconcileIdempotency k result now).

Lemma other_requests_keep_idempotency q : idempotency_clock q = None ->
  ensures (perform q) (fun state next _ => lg_idempotency next = lg_idempotency state).
Proof.
  intros Hq. destruct q; try done; cbn [LedgerCalls.perform]; clear Hq.
  all: try (unfold appendEvent; apply ensures_map; case_match; [|done]).
  all: try (unfold consumeTicket, consumeTicketForTransport, claim; apply ensures_map; repeat (apply ensures_demand; intros _); apply ensures_map).
  all: branches; first [reflexivity|by destruct state|by destruct next].
Qed.

(** ** Records that outlast the clocks of a run *)

(** Key [d] has a record that does not expire before [t]. *)
Definition holds (d : jstr) (t : Z) (l : list StoredIdempotency) : Prop := exists x, x ∈ l /\ si_keyDigest x = d /\ t <= si_expiresAt x.

Lemma holds_live d t now l : now < t -> holds d t l -> holds d t (live si_expiresAt now l).
Proof. intros Hn (x & Hx & Hd & Ht). exists x. split; [|done]. apply elem_of_filter_list. split; [done|]. apply Z.ltb_lt. lia. Qed.

Lemma holds_insert d t l n x x' : l !! n = Some x -> si_keyDigest x' = si_keyDigest x -> t <= si_expiresAt x' -> holds d t l -> holds d t (<[n := x']> l).
Proof.
  intros Hn Hk Ht (y & [m Hm]%list_elem_of_lookup & Hd & Hy). destruct (decide (m = n)) as [->|Hne].
  - exists x'. split_and!; [|congruence|done]. eapply list_elem_of_lookup_2. apply list_lookup_insert_eq. by eapply lookup_lt_Some.
  - exists y. split; [|done]. eapply list_elem_of_lookup_2. by rewrite list_lookup_insert_ne.
Qed.

Lemma holds_delete d t l n x : l !! n = Some x -> si_keyDigest x ≠ d -> holds d t l -> holds d t (delete n l).
Proof.
  intros Hn Hk (y & Hy & Hd & Ht). exists y. split; [|done]. rewrite <- (take_drop_middle l n x Hn) in Hy.
  rewrite delete_take_drop. apply elem_of_app in Hy as [Hy|Hy]; [by apply elem_of_app; left|]. apply elem_of_cons in Hy as [->|Hy]; [done|].
  by apply elem_of_app; right.
Qed.

(** The operation only dropped expired records. *)
Ltac keep_live := intros [= <- <-] _ Hl; rewrite idempotency_of_with; apply holds_live; [lia|done].

Lemma request_holds q d t : (forall now, idempotency_clock q = Some now -> now < t <= now + DAY_MS) ->
  ensures (perform q) (fun state next a => releases_key q a d = false ->
    holds d t (lg_idempotency state) -> holds d t (lg_idempotency next)).
Proof.
  intros Hclock. destruct (idempotency_clock q) as [now|] eqn:Hq.
  2: { intros op state next a Hp Ho _. by rewrite (other_requests_keep_idempotency q Hq op state next a Hp Ho). }
  specialize (Hclock now eq_refl). destruct q; try done; injection Hq as ->; cbn [LedgerCalls.perform]; apply ensures_map, ensures_demand; intros _;
    apply ensures_op; intros state next a; cbv zeta.
  - destruct (List.find _ _); [intros [= <- <-]|destruct (_ <=? _); [done|]; intros [= <- <-]]; intros _ Hl; rewrite idempotency_of_with.
    + apply holds_live; [lia|done].
    + destruct (holds_live d t now _ ltac:(lia) Hl) as (x & Hx & Hd). exists x. split; [|done]. apply elem_of_app. by left.
  - destruct (find_index _ _) as [[n x]|] eqn:E; [|keep_live].
    apply find_index_some in E as [Hn _]. destruct (_ <=? _); [keep_live|].
    destruct (_ || _); [by intros [= <- <-]|]. destruct (si_complete x); [by intros [= <- <-]|]. intros [= <- <-] _. rewrite idempotency_of_with.
    apply (holds_insert d t _ n x); [done|done|cbn; lia].
  - destruct (find_index _ _) as [[n x]|] eqn:E; [|keep_live].
    apply find_index_some in E as [Hn Hd]. destruct (_ || _); intros [= <- <-] Hr Hl; rewrite idempotency_of_with; [apply holds_live; [lia|done]|].
    apply (holds_delete d t _ n x); [done| |apply holds_live; [lia|done]]. apply same_digest in Hd as [_ ->].
    cbn in Hr. unfold jstr_eqb in Hr. by apply bool_decide_eq_false in Hr.
  - destruct (find_index _ _) as [[n x]|] eqn:E; [|keep_live].
    apply find_index_some in E as [Hn _]. destruct (_ <=? _); [keep_live|].
    destruct (negb _); [by intros [= <- <-]|]. destruct (si_complete x); [by intros [= <- <-]|]. intros [= <- <-] _. rewrite idempotency_of_with.
    apply (holds_insert d t _ n x); [done|done|cbn; lia].
  - keep_live.
Qed.

(** ** What the answers mean *)

Lemma record_digest state x : validateState parse_date config state = true -> x ∈ lg_idempotency state -> valid_idempotency x = true.
Proof.
  intros Hv Hx. assert (forallb valid_idempotency (lg_idempotency state) = true) as Hr
    by (unfold validateState in Hv; repeat (apply andb_prop in Hv as [Hv ?]); done).
  rewrite forallb_forall in Hr. by apply Hr, list_elem_of_In.
Qed.

Lemma key_digest_ok x : valid_idempotency x = true -> DIGEST (si_keyDigest x) = true.
Proof. unfold valid_idempotency. cbv zeta. rewrite !andb_true_iff. tauto. Qed.

Lemma complete_has_result x : valid_idempotency x = true -> si_complete x = true -> exists r, si_result x = Some r.
Proof.
  unfold valid_idempotency. intros Hv Hc. cbv zeta in Hv. rewrite !andb_true_iff, Hc in Hv. destruct_and!.
  destruct (si_result x) as [r|]; [eauto|].
  match goal with He : Bool.eqb true (bool_decide (is_Some None)) = true |- _ => discriminate He end.
Qed.

(** A key is given out when no record of it is alive, and has one afterwards. *)
Lemma new_spec q d : ensures (perform q) (fun state next a => reserves_new q a d = true -> validateState parse_date config state = true ->
  exists now, idempotency_clock q = Some now /\ ~ holds d (now + 1) (lg_idempotency state) /\ holds d (now + DAY_MS) (lg_idempotency next)).
Proof.
  destruct q; try done; cbn [LedgerCalls.perform reserves_new]; apply ensures_map, ensures_demand; intros _. apply ensures_op.
  intros state next a. cbv zeta. destruct (List.find _ _) as [y|] eqn:E.
  { intros [= <- <-]. destruct (sameDigest _ _), (si_complete y); done. }
  destruct (_ <=? _); [done|]. intros [= <- <-] Hd%bool_decide_eq_true Hv. exists now. split_and!; [done| |].
  - intros (x & Hx & Hk & Ht). assert (x ∈ live si_expiresAt now (lg_idempotency state)) as Hlive.
    { apply elem_of_filter_list. split; [done|]. apply Z.ltb_lt. lia. }
    apply list_elem_of_In, (find_none _ _ E) in Hlive. cbv beta in Hlive. assert (sameDigest (si_keyDigest x) (keyDigest sha256_hex k) = true) as Hs.
    { apply same_digest. split; [by eapply key_digest_ok, record_digest|congruence]. }
    congruence.
  - eexists. rewrite idempotency_of_with. split; [apply elem_of_app; right; by left|]. split; [done|cbn; lia].
Qed.

(** A completed record was completed before, or by this request. *)
Lemma completed_origin q : ensures (perform q) (fun state next a => forall x, x ∈ lg_idempotency next -> si_complete x = true ->
  x ∈ lg_idempotency state \/ exists r, si_result x = Some r /\ completes_key q a (si_keyDigest x) (si_bindingDigest x) r).
Proof.
  assert (forall now l x, x ∈ live si_expiresAt now l -> x ∈ l) as Hlive by (intros now l x [Hx _]%elem_of_filter_list; exact Hx).
  destruct (idempotency_clock q) as [now|] eqn:Hq.
  2: { intros op state next a Hp Ho x Hx _. left. by rewrite <- (other_requests_keep_idempotency q Hq op state next a Hp Ho). }
  destruct q; try done; injection Hq as ->; cbn [LedgerCalls.perform]; apply ensures_map, ensures_demand; intros _;
    apply ensures_op; intros state next a; cbv zeta.
  - destruct (List.find _ _); [intros [= <- <-]|destruct (_ <=? _); [done|]; intros [= <- <-]]; intros x Hx Hc; rewrite idempotency_of_with in Hx; [eauto|].
    apply elem_of_app in Hx as [Hx|Hx]; [eauto|]. apply list_elem_of_singleton in Hx as ->. done.
  - destruct (find_index _ _) as [[n y]|] eqn:E; [|intros [= <- <-] x Hx _; rewrite idempotency_of_with in Hx; eauto].
    apply find_index_some in E as [Hn Hk%same_digest]. destruct (_ <=? _); [intros [= <- <-] x Hx _; rewrite idempotency_of_with in Hx; eauto|].
    destruct (_ || _) eqn:Eb; [intros [= <- <-]; auto|]. destruct (si_complete y); [intros [= <- <-]; auto|]. intros [= <- <-] x Hx _.
    apply orb_false_iff in Eb as [Hb%negb_false_iff%same_digest _]. rewrite idempotency_of_with in Hx. apply list_elem_of_lookup in Hx as [m Hm].
    apply list_lookup_insert_Some in Hm as [(_ & <- & _)|[_ Hm]]; [right|left; by eapply list_elem_of_lookup_2].
    exists result. split; [done|]. split; [done|]. exists k. split_and!; [exact (eq_sym (proj2 Hk))|exact (eq_sym (proj2 Hb))|left; eauto].
  - destruct (find_index _ _) as [[n y]|] eqn:E; [|intros [= <- <-] x Hx _; rewrite idempotency_of_with in Hx; eauto].
    destruct (_ || _); intros [= <- <-] x Hx _; rewrite idempotency_of_with in Hx; [eauto|]. left. eapply (Hlive now). eapply sublist_elem; [apply sublist_delete|done].
  - destruct (find_index _ _) as [[n y]|] eqn:E; [|intros [= <- <-] x Hx _; rewrite idempotency_of_with in Hx; eauto].
    apply find_index_some in E as [Hn Hk%same_digest]. destruct (_ <=? _); [intros [= <- <-] x Hx _; rewrite idempotency_of_with in Hx; eauto|].
    destruct (negb _) eqn:Eb; [intros [= <- <-]; auto|]. destruct (si_complete y); [intros [= <- <-]; auto|]. intros [= <- <-] x Hx _.
    apply negb_false_iff, same_digest in Eb. rewrite idempotency_of_with in Hx. apply list_elem_of_lookup in Hx as [m Hm].
    apply list_lookup_insert_Some in Hm as [(_ & <- & _)|[_ Hm]]; [right|left; by eapply list_elem_of_lookup_2].
    exists result. split; [done|]. split; [done|]. exists k. split_and!; [exact (eq_sym (proj2 Hk))|exact (eq_sym (proj2 Eb))|right; eauto].
  - intros [= <- <-] x Hx _. rewrite idempotency_of_with in Hx. eauto.
Qed.

(** A replayed result is the one of a completed record of the same key and body. *)
Lemma replay_spec k token now : ensures (perform (QReserveIdempotency k token now)) (fun state next a => forall r, a = AReservation (RReplay r) ->
  validateState parse_date config state = true -> exists x, x ∈ lg_idempotency state /\ si_complete x = true /\ si_result x = Some r /\
    si_keyDigest x = keyDigest sha256_hex k /\ si_bindingDigest x = bindingDigest sha256_hex k).
Proof.
  cbn [LedgerCalls.perform]. apply ensures_map, ensures_demand. intros _. apply ensures_op. intros state next a. cbv zeta.
  destruct (List.find _ _) as [y|] eqn:E; [|destruct (_ <=? _); [done|by intros [= <- <-]]]. intros [= <- <-] r.
  apply find_some in E as [[Hy _]%list_elem_of_In%elem_of_filter_list Hk%same_digest]. destruct (sameDigest (si_bindingDigest y) _) eqn:Eb; [|done].
  apply same_digest in Eb. destruct (si_complete y) eqn:Ec; [|done]. intros [= <-] Hv. exists y.
  destruct (complete_has_result y ltac:(by eapply record_digest) Ec) as [r Hr]. unfold stored_result. rewrite Hr.
  split_and!; [done|done|done|by rewrite (proj2 Hk)|by rewrite (proj2 Eb)].
Qed.

(** ** Histories *)

Context (requests : list LedgerRequest) (ops : list (Op LedgerAnswer)).
Context (Hops : Forall2 (fun q op => perform q = inl op) requests ops).
Implicit Types (log : list (nat * LedgerAnswer)).

(** Every completed record was completed by an entry. *)
Definition completions_ok log state : Prop := forall x, x ∈ lg_idempotency state -> si_complete x = true ->
  exists n i a q r, log !! n = Some (i, a) /\ requests !! i = Some q /\ si_result x = Some r /\
    completes_key q a (si_keyDigest x) (si_bindingDigest x) r.

Lemma completions_history log state : sequential parse_date config ops log state -> completions_ok log state.
Proof.
  apply (history_induction _ _ _ _ _ Hops); [by intros x ?%not_elem_of_nil|]. clear log state.
  intros log state i q op a next IH Hq Hp Hv Ho x Hx Hc. destruct (completed_origin q op state next a Hp Ho x Hx Hc) as [Hin|(r & Hr & Hk)].
  - destruct (IH x Hin Hc) as (n & j & b & p & r & Hn & H). exists n, j, b, p, r. split; [by apply lookup_app_l_Some|done].
  - exists (length log), i, a, q, r. split; [by apply list_lookup_middle|done].
Qed.

Context (d : jstr) (t0 : Z).
Context (Hclock : forall i q now, requests !! i = Some q -> idempotency_clock q = Some now -> t0 <= now < t0 + DAY_MS).
Abbreviation released := (entry_is requests (fun q a => releases_key q a d)).
Abbreviation new := (entry_is requests (fun q a => reserves_new q a d)).

Lemma key_history log state : sequential parse_date config ops log state -> existsb released log = false ->
  (existsb new log = true -> holds d (t0 + DAY_MS) (lg_idempotency state)) /\ at_most_one new log.
Proof.
  revert log state. apply (history_induction _ _ _ _ _ Hops (fun log state => existsb released log = false -> _)); [done|].
  intros log state i q op a next IH Hq Hp Hv Ho. rewrite !existsb_app. cbn [existsb]. rewrite !orb_false_r. intros [Hl Hr]%orb_false_iff.
  destruct (IH Hl) as [Hholds Hone]. unfold entry_is in Hr. cbn [fst snd] in Hr. rewrite Hq in Hr.
  assert (new (i, a) = reserves_new q a d) as En by (unfold entry_is; cbn [fst snd]; by rewrite Hq).
  assert (reserves_new q a d = true -> existsb new log = false /\ holds d (t0 + DAY_MS) (lg_idempotency next)) as Hnew.
  { intros Ha. destruct (new_spec q d op state next a Hp Ho Ha Hv) as (now & Hn & Hno & (x & Hx & Hk & Ht)). pose proof (Hclock i q now Hq Hn). split.
    - destruct (existsb new log); [|done]. destruct Hno. destruct (Hholds eq_refl) as (y & Hy & Hyk & Hyt). exists y. split_and!; [done|done|lia].
    - exists x. split_and!; [done|done|lia]. }
  split.
  - rewrite En. intros [Hold|Ha]%orb_prop; [|by apply Hnew]. eapply request_holds; [|exact Hp|exact Ho|done|auto].
    intros now Hn. pose proof (Hclock i q now Hq Hn). lia.
  - apply once_snoc; [done|]. rewrite En. intros Ha. by apply Hnew.
Qed.
End Spec.

(** C8: A mutation sent under one idempotency key is executed by one caller.  Let calls that
    serve any requests run concurrently on a new ledger.  Within one day, the time a key is
    retained, two calls that were both told the key is new are the same call, unless a release
    of that key took effect; and a call that is told to replay a result gets the result with
    which the key was completed, by a request with the same key and the same body. *)
Theorem idempotency_key_exclusive {S} `{LedgerStorageLaws S} sha256_hex parse_date config (s : S) (w : Replicas LedgerAnswer S) requests :
  st_current s = None -> rtc (replicas_step parse_date config) (no_calls s) w ->
  Forall2 (fun q op => perform sha256_hex parse_date config q = inl op) requests (ops_of w) ->
  (forall d t0, (forall i q now, requests !! i = Some q -> idempotency_clock q = Some now -> t0 <= now < t0 + DAY_MS) ->
    forall i j p q c c' a b, requests !! i = Some p -> requests !! j = Some q -> rp_calls w !! i = Some c -> rp_calls w !! j = Some c' ->
      c_phase c = Returned a -> c_phase c' = Returned b -> reserves_new sha256_hex p a d = true -> reserves_new sha256_hex q b d = true ->
      i = j \/ exists n k r e, rp_log w !! n = Some (k, e) /\ requests !! k = Some r /\ releases_key sha256_hex r e d = true) /\
  (forall i c k token now r, requests !! i = Some (QReserveIdempotency k token now) -> rp_calls w !! i = Some c ->
    c_phase c = Returned (AReservation (RReplay r)) ->
    exists n j a q, rp_log w !! n = Some (j, a) /\ requests !! j = Some q /\
      completes_key sha256_hex q a (keyDigest sha256_hex k) (bindingDigest sha256_hex k) r).
Proof.
  intros Hs Hrun Hops. destruct (run_atomic parse_date config s w Hs Hrun) as (Hseq & _ & Hret). split.
  - intros d t0 Hclock i j p q c c' a b Hp Hq Hi Hj Ha Hb Hna Hnb.
    destruct (existsb (entry_is requests (fun q a => releases_key sha256_hex q a d)) (rp_log w)) eqn:Er.
    { right. apply existsb_exists in Er as ([k x] & [n Hn]%list_elem_of_In%list_elem_of_lookup & Hx). unfold entry_is in Hx. cbn [fst snd] in Hx.
      destruct (requests !! k) as [r|] eqn:Hr; [|done]. eauto 10. }
    left. destruct (key_history sha256_hex parse_date config requests (ops_of w) Hops d t0 Hclock _ _ Hseq Er) as [_ Hone].
    assert (forall k qk ck e, requests !! k = Some qk -> rp_calls w !! k = Some ck -> c_phase ck = Returned e -> reserves_new sha256_hex qk e d = true ->
      exists n, rp_log w !! n = Some (k, e)) as Hentry.
    { intros k qk ck x Hqk Hck Hph Hx.
      destruct (took_effect_request sha256_hex parse_date config requests (ops_of w) Hops _ _ _ _ _ (Hret k ck x Hck Hph) Hqk ltac:(eauto))
        as (n & op & state & next & _ & Hperf & _ & Hv & Ho & [Hl|Hsame]); [eauto|subst next].
      destruct (new_spec sha256_hex parse_date config qk d op state state x Hperf Ho Hx Hv) as (now & _ & Hno & (y & Hy & Hk & Ht)).
      destruct Hno. exists y. split_and!; [done|done|]. unfold DAY_MS in *. lia. }
    destruct (Hentry i p c a Hp Hi Ha Hna) as [m Hm], (Hentry j q c' b Hq Hj Hb Hnb) as [n Hn].
    assert (m = n) as -> by (eapply (Hone m n (i, a) (j, b)); [done|done|..]; unfold entry_is; cbn [fst snd]; by rewrite ?Hp, ?Hq). congruence.
  - intros i c k token now r Hq Hi Hph.
    destruct (took_effect_request sha256_hex parse_date config requests (ops_of w) Hops _ _ _ _ _ (Hret i c _ Hi Hph) Hq ltac:(eauto))
      as (n & op & state & next & _ & Hperf & Hsq & Hv & Ho & _).
    destruct (replay_spec sha256_hex parse_date config k token now op state next _ Hperf Ho r eq_refl Hv) as (x & Hx & Hc & Hr & Hk & Hb).
    destruct (completions_history sha256_hex parse_date config requests (ops_of w) Hops _ _ Hsq x Hx Hc) as (m & j & a & q & r' & Hm & Hj & Hr' & Hcomp).
    rewrite Hr in Hr'. injection Hr' as <-. rewrite Hk, Hb in Hcomp. exists m, j, a, q. split; [|done]. by apply lookup_take_Some in Hm as [? _].
Qed.

(** ** Two gateways receive one mutation *)

Definition sample_key : IdempotencyKey :=
  mkIdempotencyKey (js "p") (js "s") (js "POST") (js "/v1/runtimes") (js "0123456789abcdef") (flat_digest []).
Definition sample_outcome : jv := JObj [(js "id", JStr (js "rt-1"))].
Definition mutation_requests : list LedgerRequest :=
  [QReserveIdempotency sample_key (js "tok-a") 1000; QReserveIdempotency sample_key (js "tok-b") 1000;
   QCompleteIdempotency sample_key (js "tok-a") sample_outcome 2000; QReserveIdempotency sample_key (js "tok-c") 3000].
Definition mutated : Replicas LedgerAnswer SqliteLedgerStorage :=
  play no_dates default_config (no_calls empty_storage)
    ([inr (performed (QReserveIdempotency sample_key (js "tok-a") 1000)); inr (performed (QReserveIdempotency sample_key (js "tok-b") 1000));
      inl 0; inl 1; inl 0; inl 1; inl 0; inl 1; inl 0; inl 1; inl 1; inl 1;
      inr (performed (QCompleteIdempotency sample_key (js "tok-a") sample_outcome 2000)); inl 2; inl 2; inl 2; inl 2;
      inr (performed (QReserveIdempotency sample_key (js "tok-c") 3000)); inl 3; inl 3]%nat).

Lemma idempotency_key_exclusive_witness :
  map (fun c => match c_phase c with Returned a => Some a | _ => None end) (rp_calls mutated) =
    [Some (AReservation (RNew (js "tok-a"))); Some (AReservation RPending); Some (ACompletion CCompleted); Some (AReservation (RReplay sample_outcome))] /\
  (exists n j a q, rp_log mutated !! n = Some (j, a) /\ mutation_requests !! j = Some q /\
    completes_key flat_digest q a (keyDigest flat_digest sample_key) (bindingDigest flat_digest sample_key) sample_outcome) /\
  forall j c q, mutation_requests !! j = Some q -> rp_calls mutated !! j = Some c -> forall b, c_phase c = Returned b ->
    reserves_new flat_digest q b (keyDigest flat_digest sample_key) = true -> 0%nat = j \/
    exists n k r e, rp_log mutated !! n = Some (k, e) /\ mutation_requests !! k = Some r /\
      releases_key flat_digest r e (keyDigest flat_digest sample_key) = true.
Proof.
  split; [vm_compute; reflexivity|].
  assert (Forall2 (fun q op => perform flat_digest no_dates default_config q = inl op) mutation_requests (ops_of mutated)) as Hops
    by (unfold mutated; rewrite ops_play; repeat constructor; apply performed_ok; vm_compute; reflexivity).
  destruct (idempotency_key_exclusive (H:=sqlite_storage) flat_digest no_dates default_config empty_storage mutated mutation_requests
    ltac:(reflexivity) (play_run _ _ _ _) Hops) as [Hnew Hreplay].
  assert (forall m a, c_phase <$> rp_calls mutated !! m = Some (Returned a) -> exists c, rp_calls mutated !! m = Some c /\ c_phase c = Returned a) as Hcall.
  { intros m a. destruct (rp_calls mutated !! m) as [c|]; [|done]. intros [= E]. eauto. }
  split.
  - destruct (Hcall 3%nat (AReservation (RReplay sample_outcome)) ltac:(vm_compute; reflexivity)) as (c & Hc & Hr).
    exact (Hreplay 3%nat c sample_key _ _ _ eq_refl Hc Hr).
  - intros j c q Hq Hc b Hb Hn. destruct (Hcall 0%nat (AReservation (RNew (js "tok-a"))) ltac:(vm_compute; reflexivity)) as (c0 & Hc0 & Hr0).
    refine (Hnew (keyDigest flat_digest sample_key) 0 _ 0%nat j _ q c0 c _ b eq_refl Hq Hc0 Hc Hr0 Hb ltac:(vm_compute; reflexivity) Hn).
    intros m r now Hm. destruct m as [|[|[|[|m]]]]; try discriminate Hm; injection Hm as <-; intros [= <-]; unfold DAY_MS; lia.
Defined.
