(* ===== verification/LedgerIngressSpec.v ===== *)
(** * LedgerIngressSpec: a fenced runtime generation admits no gateway

    Draining a generation closes its ingress record.  The record, and with it the fence, stays
    until the ingress is reopened or a gateway acquires another generation of the runtime, which
    drops closed records whose leases have expired. *)
From stdpp Require Import base tactics option list numbers strings sets relations.
From S2P Require Import Prelude JsMap JsString JsValue LedgerState LedgerTickets LedgerAdmission LedgerResources LedgerCalls LedgerStore LedgerStoreSpec.
From S2P Require Import LedgerHistory.
Implicit Types (state next : Ledger).

Lemma ingress_of_with state l : lg_runtimeIngress (with_ingress state l) = l.
Proof. by destruct state. Qed.

(** In a list whose keys differ, the first match is the only one. *)
Lemma find_index_unique {A} (P : A -> bool) (key : A -> jstr) l x : NoDup (map key l) -> (forall y, P y = true -> key y = key x) ->
  x ∈ l -> P x = true -> exists n, find_index P l = Some (n, x).
Proof.
  intros Hd Hkey. induction l as [|y l IH]; [by intros ?%not_elem_of_nil|]. cbn [map] in Hd. apply NoDup_cons in Hd as [Hy Hd].
  intros Hx HP. cbn. destruct (P y) eqn:Ey.
  - exists 0%nat. apply elem_of_cons in Hx as [->|Hx]; [done|]. destruct Hy. rewrite (Hkey y Ey). by apply list_elem_of_fmap_2.
  - apply elem_of_cons in Hx as [->|Hx]; [congruence|]. destruct (IH Hd Hx HP) as [n ->]. eauto.
Qed.

Lemma same_text a b : jstr_eqb a b = true <-> a = b.
Proof. unfold jstr_eqb. by rewrite bool_decide_eq_true. Qed.

Lemma is_ingress_spec r g x : is_ingress r g x = true <-> ri_runtimeId x = r /\ ri_generation x = g.
Proof. unfold is_ingress. by rewrite andb_true_iff, !same_text. Qed.

Section Spec.
Context (sha256_hex : jstr -> jstr) (parse_date : jstr -> option Z) (config : LedgerConfig) (runtimeId generation : jstr).
Abbreviation perform := (perform sha256_hex parse_date config).
Abbreviation here := (is_ingress runtimeId generation).

(** The request drained this generation, reopened it, may have dropped its record, or let a gateway in. *)
Definition fences (q : LedgerRequest) (a : LedgerAnswer) : bool :=
  match q, a with QDrainIngress r g _ _, ADrain (DrainFenced _) => jstr_eqb r runtimeId && jstr_eqb g generation | _, _ => false end.
Definition unfences (q : LedgerRequest) (a : LedgerAnswer) : bool :=
  match q, a with
  | QReopenIngress r g, ABool true => jstr_eqb r runtimeId && jstr_eqb g generation
  | QAcquireIngress r g _ _ _ _, _ => jstr_eqb r runtimeId && negb (jstr_eqb g generation)
  | _, _ => false
  end.
Definition lets_in (q : LedgerRequest) (a : LedgerAnswer) : bool :=
  match q, a with
  | QAcquireIngress r g _ _ _ _, AIngress (IngressAcquired _ _) | QRenewIngress r g _ _ _ _, AIngress (IngressRenewed _) =>
      jstr_eqb r runtimeId && jstr_eqb g generation
  | _, _ => false
  end.

(** The record of this generation is closed. *)
Definition closed (l : list StoredRuntimeIngress) : Prop := exists x, x ∈ l /\ here x = true /\ ri_open x = false.

Definition about_ingress (q : LedgerRequest) : bool :=
  match q with
  | QAcquireIngress _ _ _ _ _ _ | QRenewIngress _ _ _ _ _ _ | QReleaseIngress _ _ _ _ | QDrainIngress _ _ _ _ | QReopenIngress _ _
  | QIngressState _ _ _ => true
  | _ => false
  end.

Lemma other_requests_keep_ingress q : about_ingress q = false ->
  ensures (perform q) (fun state next _ => lg_runtimeIngress next = lg_runtimeIngress state).
Proof.
  intros Hq. destruct q; try done; cbn [LedgerCalls.perform]; clear Hq.
  all: try (unfold appendEvent; apply ensures_map; case_match; [|done]).
  all: try (unfold consumeTicket, consumeTicketForTransport, claim; apply ensures_map; repeat (apply ensures_demand; intros _); apply ensures_map).
  all: branches; first [reflexivity|by destruct state|by destruct next].
Qed.

Lemma closed_insert l n x x' : l !! n = Some x -> (here x = true -> ri_open x = false -> here x' = true /\ ri_open x' = false) ->
  closed l -> closed (<[n := x']> l).
Proof.
  intros Hn Hx' (y & [m Hm]%list_elem_of_lookup & Hh & Ho). destruct (decide (m = n)) as [->|Hne].
  - simplify_eq. exists x'. split; [|by apply Hx']. eapply list_elem_of_lookup_2, list_lookup_insert_eq. by eapply lookup_lt_Some.
  - exists y. split; [|done]. eapply list_elem_of_lookup_2. by rewrite list_lookup_insert_ne.
Qed.

Lemma closed_app l l' : closed l -> closed (l ++ l').
Proof. intros (x & Hx & H). exists x. split; [by apply elem_of_app; left|done]. Qed.

Lemma closed_retained r g now l : (r = runtimeId -> g = generation) -> closed l -> closed (retained_ingress r g now l).
Proof.
  intros Hg (x & Hx & [Er Eg]%is_ingress_spec & Ho). exists x. split; [|split; [by apply is_ingress_spec|done]]. apply elem_of_filter_list. split; [done|].
  rewrite Er, Eg. destruct (jstr_eqb runtimeId r) eqn:E; [|done]. apply same_text in E as <-. rewrite (Hg eq_refl).
  by rewrite (proj2 (same_text generation generation)).
Qed.

Lemma valid_ingress_keys state : validateState parse_date config state = true -> NoDup (map ingress_key (lg_runtimeIngress state)).
Proof.
  intros Hv. apply distinct_spec. unfold validateState in Hv. repeat match type of Hv with _ && _ = true => apply andb_prop in Hv as [Hv ?] end. done.
Qed.

Lemma here_keys x y : here x = true -> here y = true -> ingress_key x = ingress_key y.
Proof. intros [E1 E2]%is_ingress_spec [E3 E4]%is_ingress_spec. unfold ingress_key. congruence. Qed.

(** Among the records of a valid ledger, the closed one is what a search finds. *)
Lemma find_closed l : NoDup (map ingress_key l) -> closed l -> exists n x, find_index here l = Some (n, x) /\ ri_open x = false.
Proof.
  intros Hd (x & Hx & Hh & Ho). destruct (find_index_unique here ingress_key l x Hd) as [n Hn]; [|done|done|eauto].
  intros y Hy. by apply here_keys.
Qed.

(** ** A closed record stays, and refuses *)

Lemma request_closed q : ensures (perform q) (fun state next a => unfences q a = false -> closed (lg_runtimeIngress state) -> closed (lg_runtimeIngress next)).
Proof.
  destruct (about_ingress q) eqn:Hq.
  2: { intros op state next a Hp Ho _. by rewrite (other_requests_keep_ingress q Hq op state next a Hp Ho). }
  destruct q; try done; cbn [LedgerCalls.perform]; apply ensures_map, ensures_demand; intros _; apply ensures_op; intros state next a; cbv zeta; unfold with_iso.
  - intros Ho Hu Hc. assert (closed (retained_ingress runtimeId0 generation0 now (lg_runtimeIngress state))) as Hr.
    { apply closed_retained; [|done]. intros ->. cbn in Hu. rewrite (proj2 (same_text runtimeId runtimeId) eq_refl) in Hu. cbn in Hu.
      by apply negb_false_iff, same_text in Hu. }
    revert Ho. destruct (find_index _ _) as [[n x]|] eqn:E.
    + apply find_index_some in E as [Hn _]. destruct (negb (ri_open x)) eqn:Eo; [intros [= <- <-]; by rewrite ingress_of_with|].
      destruct (iso _); [|done]. intros [= <- <-]. rewrite ingress_of_with. apply (closed_insert _ n x); [done| |done].
      apply negb_false_iff in Eo. congruence.
    + destruct (iso _); [|done]. intros [= <- <-]. rewrite ingress_of_with. by apply closed_app.
  - destruct (find_index _ _) as [[n x]|] eqn:E; [|by intros [= <- <-]]. apply find_index_some in E as [Hn _].
    repeat case_match; try done; intros [= <- <-] _; rewrite ingress_of_with; by apply (closed_insert _ n x).
  - destruct (find_index _ _) as [[n x]|] eqn:E; [|by intros [= <- <-]]. apply find_index_some in E as [Hn _].
    repeat case_match; try done; intros [= <- <-] _; rewrite ?ingress_of_with; try done; by apply (closed_insert _ n x).
  - destruct (find_index _ _) as [[n x]|] eqn:E.
    + apply find_index_some in E as [Hn _]. repeat case_match; try done; intros [= <- <-] _; rewrite ingress_of_with; by apply (closed_insert _ n x).
    + repeat case_match; try done; intros [= <- <-] _; rewrite ?ingress_of_with; try done; by apply closed_app.
  - destruct (find_index _ _) as [[n x]|] eqn:E; [|by intros [= <- <-]]. apply find_index_some in E as [Hn [Er Eg]%is_ingress_spec].
    intros [= <- <-] Hu. rewrite ingress_of_with. apply (closed_insert _ n x); [done|]. intros [Er' Eg']%is_ingress_spec _.
    cbn in Hu. by rewrite <- Er, <- Eg, Er', Eg', !(proj2 (same_text _ _) eq_refl) in Hu.
  - destruct (find_index _ _) as [[n x]|] eqn:E; [|by intros [= <- <-]]. apply find_index_some in E as [Hn _].
    intros [= <- <-] _. rewrite ingress_of_with. by apply (closed_insert _ n x).
Qed.

Lemma request_fences q : ensures (perform q) (fun state next a => fences q a = true -> closed (lg_runtimeIngress next)).
Proof.
  destruct q; try done; cbn [LedgerCalls.perform fences]; apply ensures_map, ensures_demand; intros _; apply ensures_op. intros state next a. cbv zeta.
  intros Ho Hf. destruct a as [count|]; [|done]. apply andb_prop in Hf as [->%same_text ->%same_text]. revert Ho.
  destruct (find_index _ _) as [[n x]|] eqn:E.
  - apply find_index_some in E as [Hn Hx]. set (x' := set_open (set_leases x (live_leases now x)) false).
    assert (closed (<[n := x']> (lg_runtimeIngress state))) as Hc.
    { exists x'. split; [|done]. eapply list_elem_of_lookup_2, list_lookup_insert_eq. by eapply lookup_lt_Some. }
    destruct mode; [destruct (0 <? len _)|]; intros [= <-]; by rewrite ingress_of_with.
  - set (x' := set_open (set_leases (mkIngress runtimeId generation true []) (live_leases now (mkIngress runtimeId generation true []))) false).
    assert (closed (lg_runtimeIngress state ++ [x'])) as Hc.
    { exists x'. split; [apply elem_of_app; right; by left|]. split; [by apply is_ingress_spec|done]. }
    destruct mode; [destruct (0 <? len _)|]; intros [= <-]; by rewrite ingress_of_with.
Qed.

Lemma request_refuses q : ensures (perform q) (fun state next a => validateState parse_date config state = true ->
  closed (lg_runtimeIngress state) -> lets_in q a = false).
Proof.
  destruct q; try done; cbn [LedgerCalls.perform lets_in]; apply ensures_map, ensures_demand; intros _; apply ensures_op; intros state next a; cbv zeta; unfold with_iso.
  - intros Ho Hv Hc. destruct (jstr_eqb runtimeId0 runtimeId && jstr_eqb generation0 generation) eqn:E; [|by destruct a].
    apply andb_prop in E as [->%same_text ->%same_text]. revert Ho.
    destruct (find_closed (retained_ingress runtimeId generation now (lg_runtimeIngress state))) as (n & x & -> & ->); [|by apply closed_retained|by intros [= <- <-]].
    eapply sublist_NoDup; [by apply valid_ingress_keys|apply sublist_map, filter_sublist].
  - intros Ho Hv Hc. destruct (jstr_eqb runtimeId0 runtimeId && jstr_eqb generation0 generation) eqn:E; [|by destruct a].
    apply andb_prop in E as [->%same_text ->%same_text]. revert Ho.
    destruct (find_closed (lg_runtimeIngress state)) as (n & x & -> & ->); [by apply valid_ingress_keys|done|by intros [= <- <-]].
Qed.

(** ** Histories *)

Context (requests : list LedgerRequest) (ops : list (Op LedgerAnswer)).
Context (Hops : Forall2 (fun q op => perform q = inl op) requests ops).
Implicit Types (log : list (nat * LedgerAnswer)).

(** After a fencing entry at [m], an unfencing entry followed or the record is still closed. *)
Definition fence_kept (m : nat) log state : Prop :=
  (exists n e, (m < n)%nat /\ log !! n = Some e /\ entry_is requests unfences e = true) \/ closed (lg_runtimeIngress state).

Lemma fence_history log state : sequential parse_date config ops log state ->
  forall m e, log !! m = Some e -> entry_is requests fences e = true -> fence_kept m log state.
Proof.
  apply (history_induction _ _ _ _ _ Hops (fun log state => forall m e, log !! m = Some e -> entry_is requests fences e = true -> fence_kept m log state));
    [done|]. clear log state. intros log state i q op a next IH Hq Hp Hv Ho m e He Hf.
  assert (forall P, entry_is requests P (i, a) = P q a) as Hentry by (intros P; unfold entry_is; cbn [fst snd]; by rewrite Hq).
  apply lookup_app_Some in He as [He|[Hlen He]].
  - destruct (IH m e He Hf) as [(n & f & Hmn & Hn & Hu)|Hc]; [left; exists n, f; split_and!; [done|by apply lookup_app_l_Some|done]|].
    destruct (unfences q a) eqn:Eu.
    + left. exists (length log), (i, a). rewrite Hentry. split_and!; [by eapply lookup_lt_Some|by apply list_lookup_middle|done].
    + right. by eapply request_closed.
  - apply list_lookup_singleton_Some in He as [_ <-]. rewrite Hentry in Hf. right. by eapply request_fences.
Qed.
End Spec.

(** C10: A fenced runtime generation admits no gateway.  Let calls that serve any requests run
    concurrently on a new ledger, and let a drain of a runtime generation be answered "fenced".
    Then no call that starts after the drain took effect acquires or renews an ingress lease of
    that generation, unless after the drain the generation was reopened or some gateway asked
    for another generation of the runtime. *)
Theorem ingress_fence_holds {S} `{LedgerStorageLaws S} sha256_hex parse_date config (s : S) (w : Replicas LedgerAnswer S) requests runtimeId generation :
  st_current s = None -> rtc (replicas_step parse_date config) (no_calls s) w ->
  Forall2 (fun q op => perform sha256_hex parse_date config q = inl op) requests (ops_of w) ->
  forall m e, rp_log w !! m = Some e -> entry_is requests (fences runtimeId generation) e = true ->
  forall i c q a, requests !! i = Some q -> rp_calls w !! i = Some c -> (m < c_start c)%nat -> c_phase c = Returned a ->
    lets_in runtimeId generation q a = true ->
    exists n f, (m < n)%nat /\ rp_log w !! n = Some f /\ entry_is requests (unfences runtimeId generation) f = true.
Proof.
  intros Hs Hrun Hops m e He Hf i c q a Hq Hi Hm Hph Ha. destruct (run_atomic parse_date config s w Hs Hrun) as (Hseq & _ & Hret).
  destruct (took_effect_request sha256_hex parse_date config requests (ops_of w) Hops _ _ _ _ _ (Hret i c a Hi Hph) Hq ltac:(eauto))
    as (n & op & state & next & Hn & Hperf & Hsq & Hv & Ho & _).
  destruct (fence_history sha256_hex parse_date config runtimeId generation requests (ops_of w) Hops _ _ Hsq m e) as [(k & f & Hk & Hl & Hu)|Hc]; [|done|..].
  - apply lookup_take_Some. split; [done|lia].
  - apply lookup_take_Some in Hl as [Hl _]. eauto.
  - by rewrite (request_refuses sha256_hex parse_date config runtimeId generation q op state next a Hperf Ho Hv Hc) in Ha.
Qed.

(** ** A drained generation *)

Definition drain_requests : list LedgerRequest :=
  [QAcquireIngress (js "rt-1") (js "gen-1") (js "gw-1") 30 (js "lease-1") 1000; QDrainIngress (js "rt-1") (js "gen-1") DrainExplicit 2000;
   QAcquireIngress (js "rt-1") (js "gen-1") (js "gw-2") 30 (js "lease-2") 3000].
Definition drained : Replicas LedgerAnswer SqliteLedgerStorage :=
  play no_dates default_config (no_calls empty_storage)
    ([inr (performed (QAcquireIngress (js "rt-1") (js "gen-1") (js "gw-1") 30 (js "lease-1") 1000)); inl 0; inl 0; inl 0; inl 0;
      inr (performed (QDrainIngress (js "rt-1") (js "gen-1") DrainExplicit 2000)); inl 1; inl 1; inl 1; inl 1;
      inr (performed (QAcquireIngress (js "rt-1") (js "gen-1") (js "gw-2") 30 (js "lease-2") 3000)); inl 2; inl 2]%nat).

Lemma ingress_fence_holds_witness :
  map (fun c => match c_phase c with Returned a => Some a | _ => None end) (rp_calls drained) =
    [Some (AIngress (IngressAcquired (js "lease-1") (js "1970-01-01T00:00:31.000Z"))); Some (ADrain (DrainFenced 1)); Some (AIngress IngressFenced)] /\
  forall i c q a, drain_requests !! i = Some q -> rp_calls drained !! i = Some c -> (1 < c_start c)%nat -> c_phase c = Returned a ->
    lets_in (js "rt-1") (js "gen-1") q a = true ->
    exists n f, (1 < n)%nat /\ rp_log drained !! n = Some f /\ entry_is drain_requests (unfences (js "rt-1") (js "gen-1")) f = true.
Proof.
  split; [vm_compute; reflexivity|].
  assert (Forall2 (fun q op => perform flat_digest no_dates default_config q = inl op) drain_requests (ops_of drained)) as Hops
    by (unfold drained; rewrite ops_play; repeat constructor; apply performed_ok; vm_compute; reflexivity).
  assert (exists e, rp_log drained !! 1%nat = Some e /\ entry_is drain_requests (fences (js "rt-1") (js "gen-1")) e = true) as (e & He & Hf)
    by (eexists; split; vm_compute; reflexivity).
  exact (ingress_fence_holds (H:=sqlite_storage) flat_digest no_dates default_config empty_storage drained drain_requests (js "rt-1") (js "gen-1")
    ltac:(reflexivity) (play_run _ _ _ _) Hops 1%nat e He Hf).
Defined.
