(* ===== verification/LedgerEventSpec.v ===== *)
(** * LedgerEventSpec: readers of the event log miss nothing

    The journal of a scope is the list of all events ever appended to it.  The ledger retains a
    tail of it, and a cursor is a position in it. *)
From stdpp Require Import base tactics option list numbers strings sets relations.
From Stdlib Require Import Sorted.
From S2P Require Import Prelude JsMap JsString JsValue WireGuards LedgerState LedgerTickets LedgerAdmission LedgerResources LedgerCalls LedgerStore LedgerStoreSpec.
From S2P Require Import LedgerHistory.
Implicit Types (state next : Ledger).

(** ** Numbers in base 36 *)

Lemma value_digit36 d : 0 <= d < 36 -> value36 (digit36 d) = Some d.
Proof.
  intros Hd. unfold digit36, value36, is_digit. destruct (Z.ltb_spec d 10).
  - rewrite !(proj2 (N.leb_le _ _)) by lia. cbn [andb]. f_equal. lia.
  - rewrite (proj2 (N.leb_gt (0x57 + Z.to_N d) 0x39)) by lia. rewrite andb_false_r.
    rewrite !(proj2 (N.leb_le _ _)) by lia. cbn [andb]. f_equal. lia.
Qed.

(** The text of [n] in front of [rest] is read as [n] with [rest] after it. *)
Lemma parse_digits36 fuel n rest acc : 0 <= n < 36 ^ Z.of_nat fuel ->
  exists k, 0 <= k /\ parse36 acc (digits36 fuel n rest) = parse36 (acc * 36 ^ k + n) rest.
Proof.
  revert n rest acc. induction fuel as [|fuel IH]; intros n rest acc Hn.
  - change (36 ^ Z.of_nat 0) with 1 in Hn. assert (n = 0) as -> by lia. exists 0. split; [lia|]. rewrite Z.pow_0_r, Z.mul_1_r, Z.add_0_r. done.
  - cbn [digits36]. destruct (Z.ltb_spec n 36).
    + exists 1. split; [lia|]. cbn [parse36]. rewrite value_digit36 by lia. by rewrite Z.pow_1_r.
    + rewrite Nat2Z.inj_succ, Z.pow_succ_r in Hn by lia. destruct (IH (n / 36) (digit36 (n mod 36) :: rest) acc) as (k & Hk & ->).
      { split; [apply Z.div_pos; lia|]. apply Z.div_lt_upper_bound; lia. }
      exists (k + 1). split; [lia|]. cbn [parse36]. rewrite value_digit36 by (apply Z.mod_pos_bound; lia). f_equal.
      rewrite Z.pow_add_r, Z.pow_1_r by lia. pose proof (Z.div_mod n 36 ltac:(lia)). lia.
Qed.

Lemma parse_to36 n : 0 <= n < 36 ^ 64 -> parse36 0 (to36 n) = Some n.
Proof. intros Hn. destruct (parse_digits36 64 n [] 0 Hn) as (k & _ & E). unfold to36. rewrite E. cbn [parse36]. f_equal. Qed.

Lemma digits36_nonempty fuel n rest : rest ≠ [] -> digits36 fuel n rest ≠ [].
Proof. revert n rest. induction fuel as [|fuel IH]; intros n rest Hr; cbn; [done|]. destruct (n <? 36); [done|by apply IH]. Qed.

Lemma digits36_written fuel n rest : fuel ≠ 0%nat -> digits36 fuel n rest ≠ [].
Proof. destruct fuel as [|fuel]; [done|]. intros _. cbn [digits36]. destruct (n <? 36); [done|by apply digits36_nonempty]. Qed.

Lemma to36_nonempty n : to36 n ≠ [].
Proof. by apply digits36_written. Qed.

(** ** Cursors *)

Section Cursors.
Context (sha256_hex : jstr -> jstr) (Hsha : forall text, DIGEST (sha256_hex text) = true).

Lemma digest_prefix scopeId : length (take 16 (sha256_hex scopeId)) = 16%nat /\ forallb is_hex (take 16 (sha256_hex scopeId)) = true.
Proof.
  pose proof (Hsha scopeId) as [Hhex Hlen]%andb_prop. apply Z.eqb_eq in Hlen. unfold len in Hlen. split; [rewrite length_take; lia|].
  apply forallb_forall. intros u Hu. rewrite forallb_forall in Hhex. apply Hhex. rewrite <- (take_drop 16 (sha256_hex scopeId)). apply in_or_app. by left.
Qed.

Lemma cursor_parts scopeId n : let d := take 16 (sha256_hex scopeId) in
  take 16 (drop 3 (cursor_text sha256_hex scopeId n)) = d /\ drop 19 (cursor_text sha256_hex scopeId n) = js "." ++ to36 n /\
  drop 20 (cursor_text sha256_hex scopeId n) = to36 n.
Proof.
  cbv zeta. destruct (digest_prefix scopeId) as [Hlen _]. unfold cursor_text. set (d := take 16 (sha256_hex scopeId)) in *.
  assert (drop 3 (js "k1." ++ d ++ js "." ++ to36 n) = d ++ js "." ++ to36 n) as E3 by done. rewrite E3. split_and!.
  - rewrite take_app_le by lia. apply take_ge. lia.
  - change 19%nat with (3 + 16)%nat. rewrite <- drop_drop, E3, drop_app_le by lia. rewrite drop_ge by lia. done.
  - change 20%nat with (3 + 17)%nat. rewrite <- drop_drop, E3. rewrite drop_app_ge by lia. rewrite Hlen. done.
Qed.

Lemma cursor_round n scopeId : 0 <= n <= MAX_SAFE_INTEGER -> decode_cursor sha256_hex scopeId (cursor_text sha256_hex scopeId n) = Some n.
Proof.
  intros Hn. destruct (cursor_parts scopeId n) as (E1 & E2 & E3). destruct (digest_prefix scopeId) as [Hlen Hhex]. unfold decode_cursor. rewrite E1, E2, E3.
  assert (starts_with (js "k1.") (cursor_text sha256_hex scopeId n) = true) as -> by done.
  assert ((len (take 16 (sha256_hex scopeId)) =? 16) = true) as -> by (unfold len; rewrite Hlen; done). rewrite Hhex, jstr_eqb_refl.
  assert (starts_with (js ".") (js "." ++ to36 n) = true) as -> by done.
  assert (negb (len (to36 n) =? 0) = true) as ->.
  { apply negb_true_iff, Z.eqb_neq. unfold len. pose proof (to36_nonempty n). destruct (to36 n); [done|cbn; lia]. }
  cbn [andb]. rewrite parse_to36 by (unfold MAX_SAFE_INTEGER in Hn; lia). unfold bounded. by rewrite !(proj2 (Z.leb_le _ _)) by lia.
Qed.

Lemma cursor_inj scopeId m n : 0 <= m < 36 ^ 64 -> 0 <= n < 36 ^ 64 ->
  cursor_text sha256_hex scopeId m = cursor_text sha256_hex scopeId n -> m = n.
Proof.
  intros Hm Hn E. destruct (cursor_parts scopeId m) as (_ & _ & Em), (cursor_parts scopeId n) as (_ & _ & En). rewrite E, En in Em.
  apply (f_equal (parse36 0)) in Em. rewrite !parse_to36 in Em by done. congruence.
Qed.
End Cursors.

(** ** Numbered lists *)

Fixpoint numbered {A} (o : Z) (l : list A) : list (Z * A) := match l with [] => [] | x :: rest => (o + 1, x) :: numbered (o + 1) rest end.

Lemma numbered_app {A} o (l l' : list A) : numbered o (l ++ l') = numbered o l ++ numbered (o + len l) l'.
Proof. revert o. induction l as [|x l IH]; intros o; cbn [app numbered]; [by rewrite len_nil, Z.add_0_r|]. rewrite IH, len_cons. do 3 f_equal. lia. Qed.

Lemma numbered_drop {A} o n (l : list A) : drop n (numbered o l) = numbered (o + Z.of_nat n) (drop n l).
Proof.
  revert o n. induction l as [|x l IH]; intros o [|n]; cbn [drop numbered]; [done|done|by rewrite Z.add_0_r|].
  rewrite IH. f_equal. lia.
Qed.

Lemma numbered_snd {A} o (l : list A) : map snd (numbered o l) = l.
Proof. revert o. induction l as [|x l IH]; intros o; cbn; [done|by rewrite IH]. Qed.

Lemma numbered_after {A} c o (l : list A) : List.filter (fun p => c <? fst p) (numbered o l) = numbered (Z.max o c) (drop (Z.to_nat (c - o)) l).
Proof.
  revert o. induction l as [|x l IH]; intros o; cbn [numbered List.filter fst]; [by rewrite drop_nil|]. rewrite IH. destruct (Z.ltb_spec c (o + 1)).
  - replace (Z.to_nat (c - o)) with 0%nat by lia. replace (Z.to_nat (c - (o + 1))) with 0%nat by lia. cbn [drop numbered].
    replace (Z.max (o + 1) c) with (o + 1) by lia. replace (Z.max o c) with o by lia. done.
  - replace (Z.to_nat (c - o)) with (S (Z.to_nat (c - (o + 1)))) by lia. cbn [drop]. f_equal. lia.
Qed.

Lemma numbered_last {A} o (l : list A) : fst <$> last_of (numbered o l) = if bool_decide (l = []) then None else Some (o + len l).
Proof.
  induction l as [|x l _] using rev_ind; [done|]. rewrite numbered_app. cbn [numbered]. rewrite last_of_app. cbn.
  rewrite bool_decide_eq_false_2 by (by destruct l). rewrite len_app. f_equal. unfold len. cbn. lia.
Qed.

Lemma numbered_length {A} o (l : list A) : length (numbered o l) = length l.
Proof. revert o. induction l as [|x l IH]; intros o; cbn; [done|by rewrite IH]. Qed.

Lemma numbered_range {A} o (l : list A) p : p ∈ numbered o l -> o < fst p <= o + len l.
Proof.
  revert o. induction l as [|x l IH]; intros o; cbn [numbered]; [by intros ?%not_elem_of_nil|]. rewrite len_cons.
  pose proof (len_nonneg l). intros [->|Hp]%elem_of_cons; [cbn; lia|]. apply IH in Hp. lia.
Qed.

Lemma drop_within {A} n (l : list A) : exists k, (k <= length l)%nat /\ drop n l = drop k l.
Proof.
  destruct (decide (n <= length l)%nat) as [Hn|Hn]; [by exists n|]. exists (length l). split; [done|]. by rewrite !drop_ge by lia.
Qed.

(** ** Events grow old in order *)

(** A test that stays true once it is true selects a suffix. *)
Lemma filter_monotone {A} (P : A -> bool) l : StronglySorted (fun x y => P x = true -> P y = true) l -> exists k, List.filter P l = drop k l.
Proof.
  induction 1 as [|x l Hs [k IH] Hx]; [by exists 0%nat|]. cbn. destruct (P x) eqn:E.
  - exists 0%nat. cbn. f_equal. apply filter_all_true. intros y Hy. rewrite Forall_forall in Hx. by apply Hx.
  - by exists (S k).
Qed.

Lemma filter_drop {A} (P : A -> bool) k l : exists n, List.filter P (drop k l) = drop n (List.filter P l).
Proof.
  exists (length (List.filter P (take k l))). rewrite <- (take_drop k l) at 3. rewrite List.filter_app. by rewrite drop_app_length.
Qed.

Definition older (x y : StoredEvent) : Prop := se_storedAt x <= se_storedAt y.

Lemma fresh_suffix t l : StronglySorted older l -> exists k, List.filter (fun e => t <? se_storedAt e) l = drop k l.
Proof.
  intros Hs. apply filter_monotone. induction Hs as [|x l Hs IH Hx]; constructor; [done|]. eapply Forall_impl; [done|]. unfold older.
  intros y Hy Ht%Z.ltb_lt. apply Z.ltb_lt. lia.
Qed.

Lemma sorted_drop {A} (R : A -> A -> Prop) k l : StronglySorted R l -> StronglySorted R (drop k l).
Proof. intros Hs. revert k. induction Hs as [|x l Hs IH Hx]; intros [|k]; cbn; try constructor; auto. Qed.

Lemma sorted_snoc {A} (R : A -> A -> Prop) l x : StronglySorted R l -> (forall y, y ∈ l -> R y x) -> StronglySorted R (l ++ [x]).
Proof.
  intros Hs Hx. induction Hs as [|y l Hs IH Hy]; cbn; [repeat constructor|]. constructor; [apply IH; intros z Hz; apply Hx; by right|].
  apply Forall_app. split; [done|]. constructor; [apply Hx; by left|constructor].
Qed.

Lemma head_of_update s l h q t : find_index (fun h => jstr_eqb (eh_scopeId h) s) l = Some h ->
  head_of (<[fst h := mkHead s q]> l) t = if jstr_eqb s t then Some q else head_of l t.
Proof.
  unfold head_of. revert h. induction l as [|y l IH]; intros h; cbn [find_index]; [done|]. destruct (jstr_eqb (eh_scopeId y) s) eqn:E.
  - intros [= <-]. cbn. destruct (jstr_eqb s t) eqn:Et; [done|]. apply bool_decide_eq_true in E as ->. by rewrite Et.
  - destruct (find_index _ l) as [[i x]|] eqn:F; [|done]. intros [= <-]. cbn. specialize (IH (i, x) eq_refl). cbn in IH.
    destruct (jstr_eqb (eh_scopeId y) t) eqn:Ey; [|done]. destruct (jstr_eqb s t) eqn:Et; [|done].
    apply bool_decide_eq_true in Ey, Et. subst. by rewrite jstr_eqb_refl in E.
Qed.

Lemma head_of_append s l q t : find_index (fun h => jstr_eqb (eh_scopeId h) s) l = None ->
  head_of (l ++ [mkHead s q]) t = if jstr_eqb s t then Some q else head_of l t.
Proof.
  unfold head_of. induction l as [|y l IH]; cbn [find_index]; [intros _; cbn; by destruct (jstr_eqb s t)|].
  destruct (jstr_eqb (eh_scopeId y) s) eqn:E; [done|]. destruct (find_index _ l) as [[i x]|]; [done|]. intros _. specialize (IH eq_refl). cbn.
  destruct (jstr_eqb (eh_scopeId y) t) eqn:Ey; [|done]. destruct (jstr_eqb s t) eqn:Et; [|done].
  apply bool_decide_eq_true in Ey, Et. subst. by rewrite jstr_eqb_refl in E.
Qed.

Lemma find_index_head s l i h : find_index (fun h => jstr_eqb (eh_scopeId h) s) l = Some (i, h) -> head_of l s = Some (eh_sequence h).
Proof.
  unfold head_of. revert i. induction l as [|y l IH]; intros i; cbn; [done|]. destruct (jstr_eqb (eh_scopeId y) s); [by intros [= <- <-]|].
  destruct (find_index _ l) as [[j x]|]; [|done]. intros [= <- ->]. by eapply IH.
Qed.

Lemma find_index_no_head s l : find_index (fun h => jstr_eqb (eh_scopeId h) s) l = None -> head_of l s = None.
Proof.
  unfold head_of. induction l as [|y l IH]; cbn; [done|]. destruct (jstr_eqb (eh_scopeId y) s); [done|].
  destruct (find_index _ l) as [[j x]|]; [done|]. intros _. by apply IH.
Qed.

Section Journal.
Context (sha256_hex : jstr -> jstr) (parse_date : jstr -> option Z) (config : LedgerConfig) (Hsha : forall text, DIGEST (sha256_hex text) = true).
Context (requests : list LedgerRequest) (ops : list (Op LedgerAnswer)).
Context (Hops : Forall2 (fun q op => perform sha256_hex parse_date config q = inl op) requests ops).
Context (s : jstr).
Implicit Types (log : list (nat * LedgerAnswer)) (J : list InfrastructureEvent).
Abbreviation cursor_at := (cursor_text sha256_hex).

(** An answer whose cursor is the next one of the scope adds its event to the journal. *)
Definition record_event J (e : nat * LedgerAnswer) : list InfrastructureEvent :=
  match snd e with
  | AEvent (event, cursor) => if jstr_eqb (ev_scopeId event) s && jstr_eqb cursor (cursor_at s (len J + 1)) then J ++ [event] else J
  | _ => J
  end.
Definition journal log : list InfrastructureEvent := fold_left record_event log [].

Lemma journal_snoc log e : journal (log ++ [e]) = record_event (journal log) e.
Proof. unfold journal. by rewrite fold_left_app. Qed.

Lemma record_event_extends J e : J `prefix_of` record_event J e.
Proof. unfold record_event. destruct (snd e) as [| | | | | | | | | | | | | | | | | | | |[event cursor]]; try done. destruct (_ && _); [by eexists|done]. Qed.

Lemma journal_extends log log' : journal log `prefix_of` journal (log ++ log').
Proof.
  induction log' as [|e log' IH] using rev_ind; [by rewrite app_nil_r|]. rewrite app_assoc, journal_snoc.
  etransitivity; [exact IH|apply record_event_extends].
Qed.

(** The clock reading of an entry that appends an event. *)
Definition append_clock (e : nat * LedgerAnswer) : option Z :=
  match requests !! fst e with Some (QAppendEvent _ now) => Some now | _ => None end.
(** The clocks of the replicas agree with the order of their appends. *)
Definition clocks_agree log : Prop := forall m n e f t u, (m <= n)%nat -> log !! m = Some e -> log !! n = Some f ->
  append_clock e = Some t -> append_clock f = Some u -> t <= u.

Definition of_scope state : list StoredEvent := List.filter (fun e => jstr_eqb (ev_scopeId (se_event e)) s) (lg_events state).
Definition number (e : StoredEvent) : Z * InfrastructureEvent := (se_sequence e, se_event e).

Record journal_ok log state : Prop := {
  jo_head : default 0 (head_of (lg_eventHeads state) s) = len (journal log);
  jo_tail : exists k, (k <= length (journal log))%nat /\ map number (of_scope state) = drop k (numbered 0 (journal log));
  jo_sorted : StronglySorted older (lg_events state);
  jo_clocks : forall e, e ∈ lg_events state -> exists m f, log !! m = Some f /\ append_clock f = Some (se_storedAt e);
}.

Definition is_append (q : LedgerRequest) : bool := match q with QAppendEvent _ _ => true | _ => false end.

Lemma other_requests_keep_events q : is_append q = false ->
  ensures (perform sha256_hex parse_date config q) (fun state next a =>
    lg_events next = lg_events state /\ lg_eventHeads next = lg_eventHeads state /\ match a with AEvent _ => False | _ => True end).
Proof.
  intros Hq. destruct q; try done; cbn [LedgerCalls.perform]; clear Hq.
  all: try (unfold consumeTicket, consumeTicketForTransport, claim; apply ensures_map; repeat (apply ensures_demand; intros _); apply ensures_map).
  all: branches; (split; [|split; [|done]]); first [reflexivity|by destruct state|by destruct next].
Qed.

(** ** Appending *)

Definition retained_events state (now : Z) : list StoredEvent := List.filter (fun e => now - cf_eventRetentionMs config <? se_storedAt e) (lg_events state).

Definition append_repeats state next (now : Z) (a : LedgerAnswer) : Prop :=
  exists d, d ∈ retained_events state now /\ a = AEvent (se_event d, cursor_at (ev_scopeId (se_event d)) (se_sequence d)) /\
    lg_events next = retained_events state now /\ lg_eventHeads next = lg_eventHeads state.
Definition append_adds state next (now : Z) (a : LedgerAnswer) : Prop :=
  exists event, let q := default 0 (head_of (lg_eventHeads state) (ev_scopeId event)) + 1 in
    a = AEvent (event, cursor_at (ev_scopeId event) q) /\ lg_events next = retained_events state now ++ [mkStoredEvent q event now] /\
    forall t, head_of (lg_eventHeads next) t = if jstr_eqb (ev_scopeId event) t then Some q else head_of (lg_eventHeads state) t.

Lemma append_spec value now : ensures (perform sha256_hex parse_date config (QAppendEvent value now)) (fun state next a =>
  append_repeats state next now a \/ append_adds state next now a).
Proof.
  cbn [LedgerCalls.perform]. unfold appendEvent. apply ensures_map. destruct (validateEvent _ _) as [event|]; [|done]. apply ensures_demand. intros _.
  apply ensures_op. intros state next a. cbv zeta. destruct (List.find _ _) as [d|] eqn:Ed.
  - destruct (_ && _) eqn:Eb; [|done]. intros [= <- <-]. left. exists d. rewrite !andb_true_iff in Eb. destruct Eb as [[[_ Es] _] _].
    apply bool_decide_eq_true in Es. rewrite Es. apply find_some in Ed as [Hd _]. split_and!; [by apply list_elem_of_In|done|by destruct state..].
  - destruct (_ <=? _); [done|]. destruct (_ && _); [done|]. destruct (negb (safe _)) eqn:Es; [done|]. intros [= <- <-]. right. exists event. cbv zeta.
    destruct (find_index _ _) as [[i h]|] eqn:Ef.
    + rewrite (find_index_head _ _ _ _ Ef). split_and!; [done|by destruct state|]. intros t. rewrite <- (head_of_update _ _ _ _ _ Ef). by destruct state.
    + rewrite (find_index_no_head _ _ Ef). split_and!; [done|by destruct state|]. intros t. rewrite <- (head_of_append _ _ _ _ Ef). by destruct state.
Qed.

Lemma head_safe state : validateState parse_date config state = true -> 0 <= default 0 (head_of (lg_eventHeads state) s) <= MAX_SAFE_INTEGER.
Proof.
  intros Hv. assert (forallb (fun h => OPAQUE (eh_scopeId h) && safe (eh_sequence h) && (1 <=? eh_sequence h)) (lg_eventHeads state) = true) as Hh.
  { unfold validateState in Hv. repeat match type of Hv with _ && _ = true => apply andb_prop in Hv as [Hv ?] end. done. }
  unfold head_of. destruct (List.find _ _) as [h|] eqn:E; cbn; [|unfold MAX_SAFE_INTEGER; lia]. apply find_some in E as [Hin _]. rewrite forallb_forall in Hh.
  specialize (Hh h Hin). rewrite !andb_true_iff in Hh. destruct Hh as [[_ Hs] Hp%Z.leb_le].
  apply andb_prop in Hs as [_ Hs%Z.leb_le]. lia.
Qed.

(** Keeping only the recent events keeps a tail of the journal. *)
Lemma retained_tail log state now : journal_ok log state -> exists k, (k <= length (journal log))%nat /\
  map number (List.filter (fun e => jstr_eqb (ev_scopeId (se_event e)) s) (retained_events state now)) = drop k (numbered 0 (journal log)).
Proof.
  intros [_ (k & Hk & Ht) Hs _]. destruct (fresh_suffix (now - cf_eventRetentionMs config) _ Hs) as [n Hn]. unfold retained_events. rewrite Hn.
  destruct (filter_drop (fun e => jstr_eqb (ev_scopeId (se_event e)) s) n (lg_events state)) as [m ->]. fold (of_scope state).
  rewrite <- skipn_map, Ht, drop_drop. destruct (drop_within (k + m) (numbered 0 (journal log))) as (j & Hj & ->). rewrite numbered_length in Hj. eauto.
Qed.

Lemma retained_sorted state now : StronglySorted older (lg_events state) -> StronglySorted older (retained_events state now).
Proof.
  intros Hs. destruct (fresh_suffix (now - cf_eventRetentionMs config) _ Hs) as [n Hn]. unfold retained_events. rewrite Hn. by apply sorted_drop.
Qed.

(** A repeated append does not extend the journal. *)
Lemma repeat_recorded log state d i : journal_ok log state -> validateState parse_date config state = true -> d ∈ lg_events state ->
  record_event (journal log) (i, AEvent (se_event d, cursor_at (ev_scopeId (se_event d)) (se_sequence d))) = journal log.
Proof.
  intros [Hh (k & Hk & Ht) _ _] Hv Hd. unfold record_event. cbn [snd]. destruct (jstr_eqb (ev_scopeId (se_event d)) s) eqn:Es; [|done].
  apply bool_decide_eq_true in Es. rewrite Es. destruct (jstr_eqb _ _) eqn:Ec; [|done]. apply bool_decide_eq_true in Ec. exfalso.
  assert (number d ∈ numbered 0 (journal log)) as Hin.
  { rewrite <- (take_drop k (numbered 0 (journal log))), <- Ht. apply elem_of_app. right. apply list_elem_of_fmap_2, elem_of_filter_list. split; [done|].
    rewrite Es. apply jstr_eqb_refl. }
  apply numbered_range in Hin. cbn in Hin. pose proof (head_safe state Hv) as Hs. rewrite Hh in Hs.
  assert (MAX_SAFE_INTEGER + 1 < 36 ^ 64) as Hbig by done. apply (cursor_inj sha256_hex Hsha) in Ec; lia.
Qed.

Lemma append_keeps log state i q now a next : clocks_agree (log ++ [(i, a)]) -> journal_ok log state -> requests !! i = Some q ->
  append_clock (i, a) = Some now -> validateState parse_date config state = true ->
  append_repeats state next now a \/ append_adds state next now a -> journal_ok (log ++ [(i, a)]) next.
Proof.
  intros Hclk Hj Hq Hnow Hv Hcase. pose proof Hj as [Hh _ Hs Hc]. destruct (retained_tail log state now Hj) as (k & Hk & Ht).
  assert (forall e, e ∈ retained_events state now -> exists m f, (log ++ [(i, a)]) !! m = Some f /\ append_clock f = Some (se_storedAt e)) as Hc'.
  { intros e [He _]%elem_of_filter_list. destruct (Hc e He) as (m & f & Hm & Hf). exists m, f. split; [by apply lookup_app_l_Some|done]. }
  pose proof (retained_sorted state now Hs) as Hs'. destruct Hcase as [(d & Hd & -> & He & Hheads)|(event & Ha & He & Hheads)].
  - assert (d ∈ lg_events state) as Hd' by (by apply elem_of_filter_list in Hd as [? _]).
    constructor; rewrite ?journal_snoc, ?(repeat_recorded _ _ _ _ Hj Hv Hd'), ?He, ?Hheads; [done|exists k; split; [done|]; unfold of_scope; by rewrite He|done|done].
  - assert (StronglySorted older (lg_events next)) as Hsort.
    { rewrite He. apply sorted_snoc; [done|]. intros y [Hy _]%elem_of_filter_list. destruct (Hc y Hy) as (m & f & Hm & Hf). unfold older. cbn.
      apply (Hclk m (length log) f (i, a)); [|by apply lookup_app_l_Some|by apply list_lookup_middle|done|done]. apply lookup_lt_Some in Hm. lia. }
    assert (forall e, e ∈ lg_events next -> exists m f, (log ++ [(i, a)]) !! m = Some f /\ append_clock f = Some (se_storedAt e)) as Hclocks.
    { intros e. rewrite He, elem_of_app, list_elem_of_singleton. intros [Hin| ->]; [by apply Hc'|]. exists (length log), (i, a).
      split; [by apply list_lookup_middle|done]. }
    assert (journal (log ++ [(i, a)]) = if jstr_eqb (ev_scopeId event) s then journal log ++ [event] else journal log) as HJ.
    { rewrite journal_snoc, Ha. unfold record_event. cbn [snd]. destruct (jstr_eqb (ev_scopeId event) s) eqn:Es; [|done].
      apply bool_decide_eq_true in Es. rewrite Es, Hh, jstr_eqb_refl. done. }
    constructor; [| |done|done]; rewrite HJ.
    + rewrite Hheads. destruct (jstr_eqb (ev_scopeId event) s) eqn:Es; [|done]. apply bool_decide_eq_true in Es. rewrite Es, Hh, len_app. done.
    + unfold of_scope. rewrite He, List.filter_app, map_app, Ht. cbn [List.filter se_event]. destruct (jstr_eqb (ev_scopeId event) s) eqn:Es.
      * exists k. split; [rewrite length_app; lia|]. rewrite numbered_app, drop_app_le by (by rewrite numbered_length). cbn. apply bool_decide_eq_true in Es.
        by rewrite Es, Hh.
      * exists k. split; [done|]. by rewrite app_nil_r.
Qed.

Lemma clocks_agree_app log log' : clocks_agree (log ++ log') -> clocks_agree log.
Proof. intros Hc m n e f t u Hmn He Hf. apply (Hc m n e f t u Hmn); by apply lookup_app_l_Some. Qed.

Lemma journal_history log state : sequential parse_date config ops log state -> clocks_agree log -> journal_ok log state.
Proof.
  revert log state. apply (history_induction _ _ _ _ _ Hops (fun log state => clocks_agree log -> journal_ok log state)).
  { intros _. constructor; [done|by exists 0%nat|constructor|by intros e ?%not_elem_of_nil]. }
  intros log state i q op a next IH Hq Hp Hv Ho Hclk. specialize (IH (clocks_agree_app _ _ Hclk)). destruct (is_append q) eqn:Ea.
  - destruct q as [| | | | | | | | | | | | | | | | | | | | | | | | | | | | | | | | | | | | | | | |value now]; try done.
    eapply append_keeps; [done|done|exact Hq| |done|by apply (append_spec value now op state next a Hp Ho)]. unfold append_clock. cbn [fst]. by rewrite Hq.
  - destruct (other_requests_keep_events q Ea op state next a Hp Ho) as (Ee & Eh & Ha). destruct IH as [Hh Ht Hs Hc].
    assert (journal (log ++ [(i, a)]) = journal log) as HJ by (rewrite journal_snoc; unfold record_event; cbn [snd]; by destruct a).
    constructor; unfold of_scope in *; rewrite ?HJ, ?Ee, ?Eh; try done. intros e He. destruct (Hc e He) as (m & f & Hm & Hf). exists m, f.
    split; [by apply lookup_app_l_Some|done].
Qed.

(** ** Reading *)

Definition reads_journal J (limit : option Z) (c : Z) (r : ReadOutcome + LedgerError) : Prop :=
  match r with
  | inl (REvents events cursor) =>
      c <= len J /\ events = slice_first (default MAX_LIST_LIMIT limit) (drop (Z.to_nat c) J) /\ cursor = cursor_at s (c + len events) /\
      decode_cursor sha256_hex s cursor = Some (c + len events)
  | inl RCursorExpired => c < len J
  | inr _ => len J < c
  end.

(** A number is at position [k] when the journal is numbered from there on. *)
Lemma tail_first k J x l : (k <= length J)%nat -> x :: l = drop k (numbered 0 J) ->
  fst x = Z.of_nat k + 1 /\ (k < length J)%nat.
Proof.
  intros Hk E. rewrite numbered_drop in E. pose proof (length_drop J k) as Hl. destruct (drop k J); [done|]. injection E as -> _. cbn in *. lia.
Qed.

Lemma map_number_filter c (l : list StoredEvent) :
  map number (List.filter (fun e => c <? se_sequence e) l) = List.filter (fun p => c <? fst p) (map number l).
Proof. induction l as [|e l IH]; cbn; [done|]. destruct (c <? se_sequence e); cbn; by rewrite IH. Qed.

Lemma selected_events l c o J limit : 0 <= o <= c -> map number l = numbered o J ->
  let selected := slice_first limit (List.filter (fun e => c <? se_sequence e) l) in
  map se_event selected = slice_first limit (drop (Z.to_nat (c - o)) J) /\
  match last_of selected with Some e => se_sequence e | None => c end = c + len (map se_event selected).
Proof.
  intros Hc Hl selected. assert (map number selected = numbered c (slice_first limit (drop (Z.to_nat (c - o)) J))) as Hsel.
  { unfold selected, slice_first. rewrite <- firstn_map, map_number_filter, Hl, numbered_after. replace (Z.max o c) with c by lia.
    set (l' := drop _ J). clearbody l'. generalize (Z.to_nat limit) as m. clear. revert c. induction l' as [|x l' IH]; intros c [|m]; cbn; [done..|].
    by rewrite IH. }
  assert (map se_event selected = slice_first limit (drop (Z.to_nat (c - o)) J)) as He.
  { rewrite <- (numbered_snd c (slice_first _ _)), <- Hsel, map_map. done. }
  split; [done|]. rewrite He. pose proof (numbered_last c (slice_first limit (drop (Z.to_nat (c - o)) J))) as Hlast. rewrite <- Hsel in Hlast.
  clearbody selected. destruct (slice_first limit (drop (Z.to_nat (c - o)) J)) as [|x rest].
  - destruct selected; [cbn; rewrite len_nil; lia|done].
  - destruct selected as [|y sel] using rev_ind; [done|]. rewrite map_app in Hlast. cbn [map] in Hlast. rewrite last_of_app in Hlast. rewrite last_of_app.
    rewrite bool_decide_eq_false_2 in Hlast by done. cbn in Hlast. congruence.
Qed.

Lemma read_spec log state cursor c limit now read : journal_ok log state -> validateState parse_date config state = true ->
  readAfter sha256_hex config s cursor limit now = inl read -> decode_cursor sha256_hex s cursor = Some c -> reads_journal (journal log) limit c (read state).
Proof.
  intros Hj Hv Hread Hc. unfold readAfter in Hread. rewrite Hc in Hread. destruct (_ && _); [|done]. injection Hread as <-. cbv beta.
  pose proof (head_safe state Hv) as Hsafe. rewrite (jo_head _ _ Hj) in *. destruct (Z.ltb_spec (len (journal log)) c); [done|].
  assert (0 <= c) as Hc0.
  { unfold decode_cursor in Hc. destruct (_ && _); [|done]. destruct (parse36 _ _) as [n|]; [|done]. destruct (bounded n 0 _) eqn:Eb; [|done].
    injection Hc as ->. apply andb_prop in Eb as [Hn%Z.leb_le _]. lia. }
  destruct (retained_tail log state now Hj) as (k & Hk & Ht).
  assert (List.filter (fun e => jstr_eqb (ev_scopeId (se_event e)) s && (now - cf_eventRetentionMs config <? se_storedAt e)) (lg_events state) =
    List.filter (fun e => jstr_eqb (ev_scopeId (se_event e)) s) (retained_events state now)) as ->.
  { unfold retained_events. generalize (lg_events state) as l. induction l as [|e l IH]; cbn; [done|].
    destruct (now - _ <? _); cbn; [destruct (jstr_eqb _ s); cbn; by rewrite IH|]. rewrite andb_false_r. done. }
  set (scoped := List.filter _ (retained_events state now)) in *.
  assert (match scoped with e :: _ => c <? se_sequence e - 1 | [] => c <? len (journal log) end = true -> c < len (journal log)) as Hexp.
  { intros He. destruct scoped as [|e l]; [by apply Z.ltb_lt in He|]. apply Z.ltb_lt in He. pose proof (tail_first k _ (number e) _ Hk Ht) as [Hf Hlt].
    cbn in Hf. unfold len. lia. }
  destruct (match scoped with e :: _ => c <? se_sequence e - 1 | [] => c <? len (journal log) end) eqn:Ee; [by apply Hexp|].
  assert (Z.of_nat k <= c) as Hkc.
  { destruct scoped as [|e l]; [apply Z.ltb_ge in Ee; unfold len in Ee; lia|]. pose proof (tail_first k _ (number e) _ Hk Ht) as [Hf _]. cbn in Hf.
    apply Z.ltb_ge in Ee. lia. }
  rewrite numbered_drop in Ht. destruct (selected_events scoped c (0 + Z.of_nat k) _ (default MAX_LIST_LIMIT limit) ltac:(lia) Ht) as [He Hl].
  cbn [reads_journal]. rewrite drop_drop in He. replace (k + Z.to_nat (c - (0 + Z.of_nat k)))%nat with (Z.to_nat c) in He by lia.
  split_and!; [done|done|by rewrite Hl|]. rewrite Hl. apply cursor_round; [done|]. rewrite He. unfold slice_first, len in *. rewrite length_take, length_drop. lia.
Qed.

(** ** What an append answered is in the journal *)

Lemma appended_recorded log state i a next now : journal_ok log state -> validateState parse_date config state = true ->
  append_repeats state next now a \/ append_adds state next now a -> forall event cursor, a = AEvent (event, cursor) -> ev_scopeId event = s ->
  exists n, cursor = cursor_at s (Z.of_nat n + 1) /\ record_event (journal log) (i, a) !! n = Some event.
Proof.
  intros Hj Hv Hcase event cursor -> Hs. destruct Hcase as [(d & Hd & [= -> ->] & _)|(ev & [= -> ->] & _)]; rewrite Hs.
  - assert (d ∈ lg_events state) as Hd' by (by apply elem_of_filter_list in Hd as [? _]). pose proof (repeat_recorded log state d i Hj Hv Hd') as HJ.
    rewrite Hs in HJ. rewrite HJ. destruct Hj as [_ (k & Hk & Ht) _ _].
    assert (number d ∈ drop k (numbered 0 (journal log))) as Hin.
    { rewrite <- Ht. apply list_elem_of_fmap_2, elem_of_filter_list. split; [done|]. rewrite Hs. apply jstr_eqb_refl. }
    rewrite numbered_drop in Hin. apply list_elem_of_lookup in Hin as [m Hm]. exists (k + m)%nat.
    assert (forall l o (x : Z * InfrastructureEvent), numbered o l !! m = Some x -> fst x = o + Z.of_nat m + 1 /\ l !! m = Some (snd x)) as Hlook.
    { clear. induction m as [|m IH]; intros [|y l] o x; cbn; try done; [intros [= <-]; cbn; split; [lia|done]|].
      intros Hx. destruct (IH l (o + 1) x Hx) as [E1 E2]. split; [lia|done]. }
    destruct (Hlook _ _ _ Hm) as [Hf Hg]. cbn in Hf, Hg. rewrite lookup_drop in Hg. split; [|done]. f_equal. lia.
  - exists (length (journal log)). rewrite (jo_head _ _ Hj). split; [done|]. unfold record_event. cbn [snd].
    rewrite Hs, !jstr_eqb_refl. cbn [andb]. by apply list_lookup_middle.
Qed.
End Journal.


(** ** A reader follows a scope *)

Definition epoch (_ : jstr) : option Z := Some 0.
Definition sample_event (id scopeId : jstr) : InfrastructureEvent :=
  mkEvent id KRuntime (js "rt-1") scopeId (js "1") (js "Ready") (js "1970-01-01T00:00:00.000Z").
Definition event_requests : list LedgerRequest :=
  [QAppendEvent (sample_event (js "e1") (js "s")) 1000; QAppendEvent (sample_event (js "e2") (js "t")) 1000;
   QAppendEvent (sample_event (js "e3") (js "s")) 2000].
Definition append_op (q : LedgerRequest) : Op LedgerAnswer := match perform flat_digest epoch default_config q with inl op => op | inr e => fun _ => inr e end.
Definition appended : Replicas LedgerAnswer SqliteLedgerStorage :=
  play epoch default_config (no_calls empty_storage)
    ([inr (append_op (QAppendEvent (sample_event (js "e1") (js "s")) 1000)); inr (append_op (QAppendEvent (sample_event (js "e2") (js "t")) 1000));
      inl 0; inl 1; inl 0; inl 1; inl 0; inl 1; inl 0; inl 1; inl 1; inl 1; inl 1; inl 1;
      inr (append_op (QAppendEvent (sample_event (js "e3") (js "s")) 2000)); inl 2; inl 2; inl 2; inl 2]%nat).
Definition start_cursor : jstr := cursor_text flat_digest (js "s") 0.
Definition appended_state : Ledger := snapshot_state (st_current (rp_storage appended)).

Lemma appended_clocks : clocks_agree event_requests (rp_log appended).
Proof.
  assert (map (append_clock event_requests) (rp_log appended) = [Some 1000; Some 1000; Some 2000]) as E by (vm_compute; reflexivity).
  intros m n e f t u Hmn He Hf Ht Hu. assert (forall k g v, rp_log appended !! k = Some g -> append_clock event_requests g = Some v ->
    [Some 1000; Some 1000; Some 2000] !! k = Some (Some v)) as Hk by (intros k g v Hg Hv; rewrite <- E, list_lookup_fmap, Hg; cbn; by rewrite Hv).
  pose proof (Hk m e t He Ht) as Hm. pose proof (Hk n f u Hf Hu) as Hn. clear -Hmn Hm Hn.
  destruct m as [|[|[|m]]], n as [|[|[|n]]]; cbn in Hm, Hn; simplify_eq; lia.
Qed.


(** With a replica whose clock is behind by more than the retention time, an event is dropped
    from the middle of the log, and a reader steps over it without being told. *)
Definition skewed_requests : list LedgerRequest :=
  [QAppendEvent (sample_event (js "e1") (js "s")) 100000; QAppendEvent (sample_event (js "e2") (js "s")) 10;
   QAppendEvent (sample_event (js "e3") (js "s")) 100000].
Definition skewed_state : Ledger :=
  fold_left (fun state q => match append_op q state with inl (next, _) => next | inr _ => state end) skewed_requests initialState.

Lemma skewed_clock_skips : match readAfter flat_digest default_config (js "s") (cursor_text flat_digest (js "s") 1) None 100000 with
  | inl read => match read skewed_state with inl (REvents events _) => map ev_eventId events | _ => [] end | inr _ => [] end = [js "e3"].
Proof. vm_compute. reflexivity. Qed.
