(* ===== verification/ScopeAdmission.v ===== *)
(** * ScopeAdmission: admitting changes of a scope
    ([packages/cluster-server/src/scope-admission.ts])

    [ScopeAdmissionAuthority] reserves in the ledger what a change of workspaces or runtimes
    demands, lets the backend operation run, and settles the reservations by what came of it.
    Its methods are asynchronous code whose every call may fail: a [Script] is such code, up to
    its next call. *)
From stdpp Require Import base tactics option list numbers strings sets.
From S2P Require Import Prelude JsMap JsString JsValue WireGuards LedgerState LedgerTickets LedgerAdmission.

(** ** Asynchronous code *)

(** The calls on [ScopeAdmissionLedger & AdmissionRetirementLedger]. *)
Inductive AdmissionCall :=
| LReserve (q : ScopeAdmissionRequest)
| LCommit (token : jstr)
| LRelease (token : jstr)
| LReconcile (scopeId : jstr) (kind : ResourceKind) (resourceKey : jstr) (transition : ScopeAdmissionTransition)
| LBeginRetirement (scopeId : jstr) (kind : ResourceKind) (resourceKey : jstr)
| LGetRetirement (scopeId : jstr) (kind : ResourceKind) (resourceKey : jstr)
| LCompleteRetirement (scopeId : jstr) (kind : ResourceKind) (resourceKey : jstr).

(** What a call answers; [commit] true is "committed", a retirement intent true is completed. *)
Definition call_answer (c : AdmissionCall) : Type :=
  match c with
  | LReserve _ => ScopeAdmissionOutcome
  | LCommit _ | LRelease _ | LReconcile _ _ _ _ => bool
  | LBeginRetirement _ _ _ => unit
  | LGetRetirement _ _ _ => option bool
  | LCompleteRetirement _ _ _ => RetirementOutcome
  end.

(** [RestMutationResult]: whether the operation created its resource, and the rest of it. *)
Record RestMutationResult := mkMutation { mr_created : bool; mr_resource : jv }.
(** How the operation of the backend ends: a result, a [RestMutationError] or another error. *)
Inductive OperationOutcome := OpReturned (result : RestMutationResult) | OpRestError | OpOtherError.

(** What a method throws: a [ScopeAdmissionError], what the operation threw, or a failed call of the ledger. *)
Inductive AdmissionFailure :=
| FScope (reason : AdmissionDenialReason) (retryAfterSeconds : option Z)
| FRest
| FOther
| FLedger.
Definition unavailable : AdmissionFailure := FScope admission_unavailable (Some 1).

Inductive Script (A : Type) :=
| Finish (a : A)
| Throw (e : AdmissionFailure)
| Call (c : AdmissionCall) (k : option (call_answer c) -> Script A)
| Operate (k : OperationOutcome -> Script A).
Arguments Finish {A}.
Arguments Throw {A}.
Arguments Call {A}.
Arguments Operate {A}.

Fixpoint script_bind {A B} (s : Script A) (f : A -> Script B) : Script B :=
  match s with
  | Finish a => f a
  | Throw e => Throw e
  | Call c k => Call c (fun a => script_bind (k a) f)
  | Operate k => Operate (fun o => script_bind (k o) f)
  end.
(** [try { s } catch (e) { h }] *)
Fixpoint script_catch {A} (s : Script A) (h : AdmissionFailure -> Script A) : Script A :=
  match s with
  | Finish a => Finish a
  | Throw e => h e
  | Call c k => Call c (fun a => script_catch (k a) h)
  | Operate k => Operate (fun o => script_catch (k o) h)
  end.
Declare Scope script_scope.
Delimit Scope script_scope with script.
Bind Scope script_scope with Script.
Notation "x <~ s ; k" := (script_bind s (fun x => k%script)) (at level 100, s at next level, right associativity) : script_scope.
Notation "s ;~ k" := (script_bind s (fun _ => k%script)) (at level 100, right associativity) : script_scope.
Open Scope script_scope.

(** A call that must not fail. *)
Definition call (c : AdmissionCall) : Script (call_answer c) :=
  Call c (fun a => match a with Some a => Finish a | None => Throw FLedger end).

(** [Promise.all] of calls: all are made before any is answered, and it fails when one does. *)
Fixpoint call_all (cs : list AdmissionCall) (ok : bool) : Script unit :=
  match cs with
  | [] => if ok then Finish tt else Throw FLedger
  | c :: rest => Call c (fun a => call_all rest (ok && is_set a))
  end.
Definition release_all (tokens : list jstr) : Script unit := call_all (map LRelease tokens) true.
Definition commit_all (tokens : list jstr) : Script unit := call_all (map LCommit tokens) true.

(** ** The snapshot of a principal *)

Inductive DesiredState := DRunning | DSleeping | DStopped.
Inductive RuntimePhase := PhDeleting | PhFailed | PhOther.
Record WorkspaceView := mkWorkspaceView { wv_id : jstr; wv_capacityBytes : Z }.
(** A runtime of [restProjection], with whether [portableRuntimeObservation] has its browser allowed. *)
Record RuntimeView := mkRuntimeView { rv_id : jstr; rv_desiredState : DesiredState; rv_phase : RuntimePhase; rv_browserAllowed : bool }.
Record PrincipalView := mkPrincipalView { pv_workspaces : list WorkspaceView; pv_runtimes : list RuntimeView }.

Definition running (r : RuntimeView) : bool := match rv_desiredState r with DRunning => true | _ => false end.
Definition counted (r : RuntimeView) : bool := running r && match rv_phase r with PhOther => true | _ => false end.

Definition activeRuntimes (snapshot : PrincipalView) : Z := len (List.filter counted (pv_runtimes snapshot)).
Definition workspaceCapacityBytes (snapshot : PrincipalView) : Z :=
  fold_left (fun sum item => if MAX_SAFE_INTEGER - wv_capacityBytes item <? sum then MAX_SAFE_INTEGER else sum + wv_capacityBytes item)
    (pv_workspaces snapshot) 0.
Definition product (active value : Z) : Z :=
  if negb (value =? 0) && (MAX_SAFE_INTEGER / value <? active) then MAX_SAFE_INTEGER else value * active.

Record AdmissionDemand := mkAdmissionDemand {
  ad_transition : ScopeAdmissionTransition;
  ad_workspaceCapacityBytes : option Z;
  ad_active : bool;
  ad_browserRequested : bool;
}.

Section Authority.
Context (sha256_hex : jstr -> jstr) (policy : ScopeAdmissionPolicy).

Definition admission_usage (snapshot : PrincipalView) : Amounts :=
  let active := activeRuntimes snapshot in
  let r := sp_runtimeResources policy in
  mkAmounts active (len (pv_runtimes snapshot)) (workspaceCapacityBytes snapshot) (product active (rd_cpuMillis r)) (product active (rd_memoryBytes r))
    (product active (rd_gpuUnits r)).

Definition observed_digest (scopeId kind id transition : jstr) : jstr :=
  sha256_hex (scopeId ++ [0%N] ++ kind ++ [0%N] ++ id ++ [0%N] ++ transition).
Definition observedResourceDigests (scopeId : jstr) (snapshot : PrincipalView) : list jstr :=
  map (fun item => observed_digest scopeId (js "workspace") (wv_id item) (js "create")) (pv_workspaces snapshot) ++
  map (fun item => observed_digest scopeId (js "runtime") (rv_id item) (js "create")) (pv_runtimes snapshot) ++
  map (fun item => observed_digest scopeId (js "runtime") (rv_id item) (js "activate")) (List.filter running (pv_runtimes snapshot)) ++
  map (fun item => observed_digest scopeId (js "runtime") (rv_id item) (js "enableBrowser")) (List.filter rv_browserAllowed (pv_runtimes snapshot)).

Definition demand_request (scopeId : jstr) (kind : ResourceKind) (resourceKey : jstr) (snapshot : PrincipalView) (d : AdmissionDemand)
    : ScopeAdmissionRequest :=
  mkAdmission scopeId resourceKey kind (Some (ad_transition d)) (ad_workspaceCapacityBytes d) (ad_active d) (ad_browserRequested d) policy
    (admission_usage snapshot) (Some (observedResourceDigests scopeId snapshot)).

(** ** [#admit] *)

(** The reservations, one demand after the other; a denied one gives back those before it. *)
Fixpoint reserve_demands (request : AdmissionDemand -> ScopeAdmissionRequest) (demands : list AdmissionDemand) (admitted : list jstr)
    : Script (list jstr) :=
  match demands with
  | [] => Finish admitted
  | d :: rest =>
      Call (LReserve (request d)) (fun answer =>
        match default (Denied admission_unavailable (Some 1)) answer with
        | Denied reason retry => release_all admitted ;~ Throw (FScope reason retry)
        | Granted reservationToken => reserve_demands request rest (admitted ++ [reservationToken])
        end)
  end.

Fixpoint commit_each (tokens : list jstr) : Script unit :=
  match tokens with
  | [] => Finish tt
  | token :: rest => committed <~ call (LCommit token); if (committed : bool) then commit_each rest else Throw unavailable
  end.

Definition operate : Script RestMutationResult :=
  Operate (fun o => match o with OpReturned result => Finish result | OpRestError => Throw FRest | OpOtherError => Throw FOther end).

(** The backend was invoked by the time anything can be thrown. *)
Definition settle_failure (admitted : list jstr) (error : AdmissionFailure) : Script RestMutationResult :=
  (match error with FRest => release_all admitted | _ => commit_all admitted end) ;~ Throw error.

Definition admitted_operation (commitAccepted : bool) (admitted : list jstr) : Script RestMutationResult :=
  script_catch
    (result <~ operate;
     if negb commitAccepted && negb (mr_created result) then release_all admitted ;~ Finish result
     else commit_each admitted ;~ Finish result)
    (settle_failure admitted).

Definition admit_change (scopeId : jstr) (kind : ResourceKind) (resourceKey : jstr) (snapshot : PrincipalView) (demands : list AdmissionDemand)
    (commitAccepted : bool) : Script RestMutationResult :=
  admitted <~ reserve_demands (demand_request scopeId kind resourceKey snapshot) demands [];
  admitted_operation commitAccepted admitted.

(** ** The methods *)

Definition createWorkspace (scopeId resourceKey : jstr) (snapshot : PrincipalView) (capacityBytes : Z) : Script RestMutationResult :=
  admit_change scopeId KWorkspace resourceKey snapshot [mkAdmissionDemand TCreate (Some capacityBytes) false false] false.

Definition createRuntime (scopeId resourceKey : jstr) (snapshot : PrincipalView) (desiredRunning browserAllowed : bool) : Script RestMutationResult :=
  admit_change scopeId KRuntime resourceKey snapshot [mkAdmissionDemand TCreate None desiredRunning browserAllowed] false.

(** The desired state of the runtime is Running in the projection. *)
Definition runs_already (snapshot : PrincipalView) (resourceKey : jstr) : bool :=
  match List.find (fun r => jstr_eqb (rv_id r) resourceKey) (pv_runtimes snapshot) with Some r => running r | None => false end.

Definition wakeRuntime (scopeId resourceKey : jstr) (snapshot : PrincipalView) : Script RestMutationResult :=
  if runs_already snapshot resourceKey then operate
  else admit_change scopeId KRuntime resourceKey snapshot [mkAdmissionDemand TActivate None true false] true.

Definition patch_demands (snapshot : PrincipalView) (resourceKey : jstr) (desiredRunning browserAllowed : bool) : list AdmissionDemand :=
  (if desiredRunning && negb (runs_already snapshot resourceKey) then [mkAdmissionDemand TActivate None true false] else []) ++
  (if browserAllowed then [mkAdmissionDemand TEnableBrowser None false true] else []).
Definition patchRuntime (scopeId resourceKey : jstr) (snapshot : PrincipalView) (desiredRunning browserAllowed : bool) : Script RestMutationResult :=
  match patch_demands snapshot resourceKey desiredRunning browserAllowed with
  | [] => operate
  | demands => admit_change scopeId KRuntime resourceKey snapshot demands true
  end.

(** ** Deletion *)

(** [catch { throw new ScopeAdmissionError(unavailable) }] *)
Definition or_unavailable {A} (s : Script A) : Script A := script_catch s (fun _ => Throw unavailable).

Definition beginDeletion (scopeId : jstr) (kind : ResourceKind) (resourceKey : jstr) : Script unit :=
  or_unavailable (call (LBeginRetirement scopeId kind resourceKey)).

Fixpoint reconcile_each (scopeId : jstr) (kind : ResourceKind) (resourceKey : jstr) (transitions : list ScopeAdmissionTransition) : Script unit :=
  match transitions with
  | [] => Finish tt
  | transition :: rest => call (LReconcile scopeId kind resourceKey transition) ;~ reconcile_each scopeId kind resourceKey rest
  end.
Definition retire (scopeId : jstr) (kind : ResourceKind) (resourceKey : jstr) (transitions : list ScopeAdmissionTransition) : Script unit :=
  or_unavailable (reconcile_each scopeId kind resourceKey transitions).
Definition retireWorkspace (scopeId resourceKey : jstr) : Script unit := retire scopeId KWorkspace resourceKey [TCreate].
Definition retireRuntime (scopeId resourceKey : jstr) (transitions : list ScopeAdmissionTransition) : Script unit :=
  retire scopeId KRuntime resourceKey transitions.

(** The transitions a resource of the kind can have reserved. *)
Definition kind_transitions (kind : ResourceKind) : list ScopeAdmissionTransition :=
  match kind with KWorkspace => [TCreate] | _ => [TCreate; TActivate; TEnableBrowser] end.

Definition finishDeletion (scopeId : jstr) (kind : ResourceKind) (resourceKey : jstr) : Script unit :=
  retire scopeId kind resourceKey (kind_transitions kind) ;~
  or_unavailable (outcome <~ call (LCompleteRetirement scopeId kind resourceKey);
    match (outcome : RetirementOutcome) with RetirementNotFound => Throw FOther | _ => Finish tt end).

Definition resumeDeletion (scopeId : jstr) (kind : ResourceKind) (resourceKey : jstr) : Script bool :=
  script_catch
    (intent <~ call (LGetRetirement scopeId kind resourceKey);
     match (intent : option bool) with
     | None => Finish false
     | Some true => Finish true
     | Some false => finishDeletion scopeId kind resourceKey ;~ Finish true
     end)
    (fun error => match error with FScope _ _ => Throw error | _ => Throw unavailable end).
End Authority.
