(* ===== verification/ScopeAdmissionSpec.v ===== *)
(** * ScopeAdmissionSpec: reservations are settled by what came of the operation

    Every way a method of [ScopeAdmissionAuthority] can run, whatever the ledger and the backend
    answer: the calls it makes, in order, with their answers.  Deletion is followed on the ledger
    itself, with other replicas changing it in between. *)
From stdpp Require Import base tactics option list numbers strings sets relations.
From S2P Require Import Prelude JsMap JsString JsValue LedgerState LedgerTickets LedgerAdmission LedgerResources LedgerCalls LedgerHistory LedgerAdmissionSpec ScopeAdmission.

(** ** Runs *)

Inductive AdmissionEvent := ECall (c : AdmissionCall) (a : option (call_answer c)) | EOperate (o : OperationOutcome).
Implicit Types (tr pre post : list AdmissionEvent) (tokens : list jstr).

(** [s] may make the calls [tr] and end in [out]. *)
Fixpoint traces {A} (s : Script A) tr (out : A + AdmissionFailure) : Prop :=
  match s with
  | Finish a => tr = [] /\ out = inl a
  | Throw e => tr = [] /\ out = inr e
  | Call c k => exists a tr', tr = ECall c a :: tr' /\ traces (k a) tr' out
  | Operate k => exists o tr', tr = EOperate o :: tr' /\ traces (k o) tr' out
  end.

Lemma traces_bind {A B} (s : Script A) (f : A -> Script B) tr out : traces (script_bind s f) tr out ->
  (exists e, traces s tr (inr e) /\ out = inr e) \/ exists a tr1 tr2, tr = tr1 ++ tr2 /\ traces s tr1 (inl a) /\ traces (f a) tr2 out.
Proof.
  revert tr. induction s as [a|e|c k IH|k IH]; intros tr; cbn.
  - intros Hf. right. by exists a, [], tr.
  - intros [-> ->]. left. eauto.
  - intros (a & tr' & -> & Hk). destruct (IH a tr' Hk) as [(e & He & ->)|(b & tr1 & tr2 & -> & H1 & H2)]; [left; eauto 6|right].
    exists b, (ECall c a :: tr1), tr2. eauto 8.
  - intros (o & tr' & -> & Hk). destruct (IH o tr' Hk) as [(e & He & ->)|(b & tr1 & tr2 & -> & H1 & H2)]; [left; eauto 6|right].
    exists b, (EOperate o :: tr1), tr2. eauto 8.
Qed.

Lemma traces_catch {A} (s : Script A) h tr out : traces (script_catch s h) tr out ->
  (exists a, traces s tr (inl a) /\ out = inl a) \/ exists e tr1 tr2, tr = tr1 ++ tr2 /\ traces s tr1 (inr e) /\ traces (h e) tr2 out.
Proof.
  revert tr. induction s as [a|e|c k IH|k IH]; intros tr; cbn.
  - intros [-> ->]. left. eauto.
  - intros Hh. right. by exists e, [], tr.
  - intros (a & tr' & -> & Hk). destruct (IH a tr' Hk) as [(b & Hb & ->)|(e & tr1 & tr2 & -> & H1 & H2)]; [left; eauto 6|right].
    exists e, (ECall c a :: tr1), tr2. eauto 8.
  - intros (o & tr' & -> & Hk). destruct (IH o tr' Hk) as [(b & Hb & ->)|(e & tr1 & tr2 & -> & H1 & H2)]; [left; eauto 6|right].
    exists e, (EOperate o :: tr1), tr2. eauto 8.
Qed.

(** What an event is: a call made, a reservation granted, a token committed or released, an operation run. *)
Definition issued (e : AdmissionEvent) : option AdmissionCall := match e with ECall c _ => Some c | EOperate _ => None end.
Definition operated (e : AdmissionEvent) : option OperationOutcome := match e with EOperate o => Some o | ECall _ _ => None end.
Definition granted (e : AdmissionEvent) : option jstr :=
  match e with
  | ECall c a => match c return option (call_answer c) -> option jstr with
                 | LReserve _ => fun a => match a with Some (Granted token) => Some token | _ => None end
                 | _ => fun _ => None
                 end a
  | EOperate _ => None
  end.
(** The token of a commit answered "committed", or of a release that was answered. *)
Definition committed_token (e : AdmissionEvent) : option jstr :=
  match e with
  | ECall c a => match c return option (call_answer c) -> option jstr with
                 | LCommit token => fun a => if default false a then Some token else None
                 | _ => fun _ => None
                 end a
  | EOperate _ => None
  end.
Definition released_token (e : AdmissionEvent) : option jstr :=
  match e with
  | ECall c a => match c return option (call_answer c) -> option jstr with
                 | LRelease token => fun a => if is_set a then Some token else None
                 | _ => fun _ => None
                 end a
  | EOperate _ => None
  end.

(** ** The pieces of [#admit] *)

Lemma traces_all cs ok tr out : traces (call_all cs ok) tr out ->
  omap issued tr = cs /\ omap operated tr = [] /\ (out = inr FLedger \/ out = inl tt /\ ok = true) /\
  ((forall q, LReserve q ∉ cs) -> omap granted tr = []).
Proof.
  revert ok tr. induction cs as [|c cs IH]; intros ok tr; cbn.
  - destruct ok; intros [-> ->]; split_and!; auto.
  - intros (a & tr' & -> & Hk). destruct (IH _ _ Hk) as (H1 & H2 & H3 & H4). cbn. rewrite H1. split_and!; [done..| |].
    + destruct H3 as [->|[-> ?%andb_prop]]; [by left|right]. tauto.
    + intros Hc. rewrite H4 by (intros q Hq; by apply (Hc q), list_elem_of_further). destruct c; try done. by destruct (Hc q); apply list_elem_of_here.
Qed.

Lemma no_reserve_in {A} (f : A -> AdmissionCall) (l : list A) : (forall x q, f x ≠ LReserve q) -> forall q, LReserve q ∉ map f l.
Proof. intros Hf q (x & ? & _)%list_elem_of_In%in_map_iff. by eapply Hf. Qed.

(** All of the releases answered: every token is released. *)
Lemma traces_release tokens tr out : traces (release_all tokens) tr out ->
  omap issued tr = map LRelease tokens /\ omap operated tr = [] /\ omap granted tr = [] /\
  (out = inr FLedger \/ out = inl tt /\ omap released_token tr = tokens).
Proof.
  unfold release_all. intros Ht. destruct (traces_all _ _ _ _ Ht) as (H1 & H2 & H3 & H4).
  split_and!; [done|done|by apply H4, no_reserve_in|]. destruct H3 as [->|[-> _]]; [by left|right]. split; [done|].
  clear H1 H2 H4. revert tr Ht. generalize true. induction tokens as [|t tokens IH]; intros ok tr; cbn; [by destruct ok; intros [-> ?]|].
  intros (a & tr' & -> & Hk). cbn. destruct a as [b|]; cbn in *; [by rewrite (IH _ _ Hk)|].
  rewrite andb_false_r in Hk. destruct (traces_all _ _ _ _ Hk) as (_ & _ & [?|[_ ?]] & _); done.
Qed.

Lemma traces_commit_all tokens tr out : traces (commit_all tokens) tr out ->
  omap issued tr = map LCommit tokens /\ omap operated tr = [] /\ omap granted tr = [].
Proof.
  intros Ht. destruct (traces_all _ _ _ _ Ht) as (H1 & H2 & _ & H4). split_and!; [done|done|by apply H4, no_reserve_in].
Qed.

Lemma traces_commit_each tokens tr out : traces (commit_each tokens) tr out ->
  omap operated tr = [] /\ omap granted tr = [] /\
  ((out = inl tt /\ omap issued tr = map LCommit tokens /\ omap committed_token tr = tokens) \/
   exists e n, out = inr e /\ e ≠ FRest /\ omap issued tr = map LCommit (take n tokens)).
Proof.
  revert tr. induction tokens as [|t tokens IH]; intros tr; cbn; [intros [-> ->]; eauto 6|].
  intros ([[]|] & tr' & -> & Hk); cbn in Hk |- *.
  - destruct (IH tr' Hk) as (H1 & H2 & [(-> & H3 & H4)|(e & n & -> & He & H3)]); split_and!; try done; [left|right].
    + by rewrite H3, H4.
    + exists e, (1 + n)%nat. cbn. by rewrite H3.
  - destruct Hk as [-> ->]. split_and!; [done..|right]. by exists unavailable, 1%nat.
  - destruct Hk as [-> ->]. split_and!; [done..|right]. by exists FLedger, 1%nat.
Qed.

Lemma traces_reserve request demands admitted tr out : traces (reserve_demands request demands admitted) tr out ->
  omap operated tr = [] /\
  ((out = inl (admitted ++ omap granted tr) /\ length (omap granted tr) = length demands /\ omap issued tr = map (fun d => LReserve (request d)) demands) \/
   exists e n, out = inr e /\ omap issued tr = map (fun d => LReserve (request d)) (take n demands) ++ map LRelease (admitted ++ omap granted tr)).
Proof.
  revert admitted tr. induction demands as [|d demands IH]; intros admitted tr; cbn; [intros [-> ->]; rewrite app_nil_r; auto|].
  intros (a & tr' & -> & Hk). cbn. destruct (default _ a) as [token|reason retry] eqn:Ea.
  - destruct a as [[]|]; simplify_eq/=. destruct (IH _ _ Hk) as (H1 & [(-> & H2 & H3)|(e & n & -> & H2)]); (split; [done|]); [left|right].
    + rewrite <- app_assoc, H2, H3. done.
    + exists e, (1 + n)%nat. cbn. rewrite H2, <- app_assoc. done.
  - assert (match a with Some (Granted token) => Some token | _ => None end = None) as -> by (destruct a as [[]|]; by simplify_eq/=).
    apply traces_bind in Hk as [(e & Hr & ->)|([] & tr1 & tr2 & -> & Hr & -> & ->)]; destruct (traces_release _ _ _ Hr) as (H1 & H2 & H3 & _).
    all: rewrite ?app_nil_r, ?omap_app; cbn; rewrite ?app_nil_r, H1, H2, H3, ?app_nil_r; split; [done|right].
    + by exists e, 1%nat.
    + by exists (FScope reason retry), 1%nat.
Qed.

(** The operation may have changed what the reservations are for. *)
Definition keeps (commitAccepted : bool) (o : OperationOutcome) : bool :=
  match o with OpReturned result => commitAccepted || mr_created result | OpRestError => false | OpOtherError => true end.

(** How the tokens of an operation that ended in [o] are settled by the calls after it. *)
Record settlement (commitAccepted : bool) tokens (o : OperationOutcome) post (out : RestMutationResult + AdmissionFailure) : Prop := {
  sl_quiet : omap operated post = [] /\ omap granted post = [];
  sl_all : forall t, t ∈ tokens -> (if keeps commitAccepted o then LCommit t else LRelease t) ∈ omap issued post;
  sl_kept : keeps commitAccepted o = true -> forall t, LRelease t ∉ omap issued post;
  sl_refused : o = OpRestError -> forall t, LCommit t ∉ omap issued post;
  sl_result : forall result, out = inl result -> o = OpReturned result /\
    omap (if keeps commitAccepted o then committed_token else released_token) post = tokens;
}.

Lemma elem_of_map_call {A} (f : A -> AdmissionCall) x l : x ∈ l -> f x ∈ map f l.
Proof. intros Hx%list_elem_of_In. by apply list_elem_of_In, in_map. Qed.
Lemma not_in_map_call {A} (f : A -> AdmissionCall) y l : (forall x, f x ≠ y) -> y ∉ map f l.
Proof. intros Hf (x & ? & _)%list_elem_of_In%in_map_iff. by eapply Hf. Qed.
Create HintDb calls.
#[local] Hint Resolve elem_of_map_call : calls.
#[local] Hint Extern 1 (_ ∉ map _ _) => apply not_in_map_call; done : calls.

(** Failing after the operation: the tokens are settled all together. *)
Lemma traces_failure tokens e tr out : traces (settle_failure tokens e) tr out ->
  omap issued tr = map (match e with FRest => LRelease | _ => LCommit end) tokens /\ omap operated tr = [] /\ omap granted tr = [] /\
  exists e', out = inr e'.
Proof.
  unfold settle_failure. intros [(e' & Hs & ->)|([] & tr1 & tr2 & -> & Hs & -> & ->)]%traces_bind; rewrite ?app_nil_r.
  all: destruct e; first [apply traces_release in Hs|apply traces_commit_all in Hs]; destruct_and?; eauto 6.
Qed.

Lemma traces_operation commitAccepted tokens tr out : traces (admitted_operation commitAccepted tokens) tr out ->
  exists o post, tr = EOperate o :: post /\ settlement commitAccepted tokens o post out.
Proof.
  unfold admitted_operation. cbn. intros (o & post & -> & Hk). exists o, post. split; [done|]. destruct o as [result| |]; cbn in Hk.
  2: change (traces (settle_failure tokens FRest) post out) in Hk.
  3: change (traces (settle_failure tokens FOther) post out) in Hk.
  2-3: apply traces_failure in Hk as (H1 & H2 & H3 & e' & ->); constructor; cbn [keeps]; rewrite ?H1; auto with calls; done.
  destruct (negb commitAccepted && negb (mr_created result)) eqn:Eb.
  - assert (keeps commitAccepted (OpReturned result) = false) as Ek by (by destruct commitAccepted, result as [[]]).
    apply traces_catch in Hk as [(a & Hr & ->)|(e & tr1 & tr2 & -> & Hr & Hf)].
    + apply traces_bind in Hr as [(? & _ & ?)|([] & tr1 & tr2 & -> & Hr & -> & [= ->])]; [done|]. rewrite app_nil_r.
      destruct (traces_release _ _ _ Hr) as (H1 & H2 & H3 & [?|[_ H4]]); [done|]. constructor; rewrite ?Ek, ?H1; auto with calls; try done.
      by intros r [= ->].
    + apply traces_bind in Hr as [(? & Hr & [= <-])|([] & t1 & t2 & -> & Hr & _ & ?)]; [|done].
      destruct (traces_release _ _ _ Hr) as (H1 & H2 & H3 & [[= ->]|[? _]]); [|done].
      apply traces_failure in Hf as (G1 & G2 & G3 & e' & ->). constructor; rewrite ?Ek, ?omap_app, ?H1, ?H2, ?H3, ?G1, ?G2, ?G3; try done.
      intros t Ht. apply elem_of_app. auto with calls.
  - assert (keeps commitAccepted (OpReturned result) = true) as Ek by (by destruct commitAccepted, result as [[]]).
    apply traces_catch in Hk as [(a & Hr & ->)|(e & tr1 & tr2 & -> & Hr & Hf)].
    + apply traces_bind in Hr as [(? & _ & ?)|([] & tr1 & tr2 & -> & Hr & -> & [= ->])]; [done|]. rewrite app_nil_r.
      destruct (traces_commit_each _ _ _ Hr) as (H2 & H3 & [(_ & H1 & H4)|(? & ? & ? & _)]); [|done].
      constructor; rewrite ?Ek, ?H1; auto with calls; try done. by intros r [= ->].
    + apply traces_bind in Hr as [(? & Hr & [= <-])|([] & t1 & t2 & -> & Hr & _ & ?)]; [|done].
      destruct (traces_commit_each _ _ _ Hr) as (H2 & H3 & [(? & _)|(? & n & [= <-] & He & H1)]); [done|].
      apply traces_failure in Hf as (G1 & G2 & G3 & e' & ->). assert (match e with FRest => LRelease | _ => LCommit end = LCommit) as El by (by destruct e).
      rewrite El in G1. constructor; rewrite ?Ek, ?omap_app, ?H1, ?H2, ?H3, ?G1, ?G2, ?G3; try done.
      * intros t Ht. apply elem_of_app. auto with calls.
      * intros _ t [Ht|Ht]%elem_of_app; revert Ht; apply not_in_map_call; done.
Qed.

(** C11: Reservations are settled by what came of the operation.  In every run of [#admit],
    whatever the ledger and the backend answer: either a demand was not granted, the operation
    never runs, every reservation granted before is given back and none is committed; or all
    demands were granted before the operation ran, which it does once.  After it, when it may
    have changed something (it created its resource, or any outcome counts, or it failed in an
    unknown way), every reservation is committed and none is released; when it was refused, all
    are released and none is committed; and when it found its resource there already, all are
    released.  A method that returns a result returns that of the operation, and each of its
    reservations was answered committed, or released. *)
Theorem admission_settles sha256_hex policy scopeId kind resourceKey snapshot demands commitAccepted tr out :
  traces (admit_change sha256_hex policy scopeId kind resourceKey snapshot demands commitAccepted) tr out ->
  let tokens := omap granted tr in
  (omap operated tr = [] /\ (exists e, out = inr e) /\ (forall t, t ∈ tokens -> LRelease t ∈ omap issued tr) /\ forall t, LCommit t ∉ omap issued tr) \/
  exists pre o post, tr = pre ++ EOperate o :: post /\ omap operated pre = [] /\ omap granted pre = tokens /\ length tokens = length demands /\
    omap issued pre = map (fun d => LReserve (demand_request sha256_hex policy scopeId kind resourceKey snapshot d)) demands /\
    settlement commitAccepted tokens o post out.
Proof.
  intros [(e & Hr & ->)|(admitted & tr1 & tr2 & -> & Hr & Ho)]%traces_bind tokens.
  - left. destruct (traces_reserve _ _ _ _ _ Hr) as (H1 & [(? & _)|(? & n & _ & H2)]); [done|]. rewrite H2. split_and!; [done|eauto|..].
    + intros t Ht. apply elem_of_app. right. auto with calls.
    + intros t [Ht|Ht]%elem_of_app; revert Ht; apply not_in_map_call; done.
  - right. destruct (traces_reserve _ _ _ _ _ Hr) as (H1 & [([= ->] & H2 & H3)|(? & ? & ? & _)]); [|done].
    destruct (traces_operation _ _ _ _ Ho) as (o & post & -> & Hs). cbn in Hs. destruct (sl_quiet _ _ _ _ _ Hs) as [_ Hg].
    assert (tokens = omap granted tr1) as -> by (unfold tokens; rewrite omap_app; cbn; by rewrite Hg, app_nil_r).
    exists tr1, o, post. done.
Qed.

(** ** The usage reported to the ledger *)

Lemma product_exact active value : 0 <= active -> 0 <= value -> product active value = Z.min MAX_SAFE_INTEGER (value * active).
Proof.
  intros Ha Hv. unfold product. destruct (Z.eqb_spec value 0) as [->|Hne]; cbn [negb andb]; [unfold MAX_SAFE_INTEGER; lia|].
  destruct (Z.ltb_spec (MAX_SAFE_INTEGER / value) active) as [Hlt|Hge].
  - assert (MAX_SAFE_INTEGER < value * active); [|lia].
    pose proof (Z.mul_succ_div_gt MAX_SAFE_INTEGER value ltac:(lia)). nia.
  - pose proof (Z.mul_div_le MAX_SAFE_INTEGER value ltac:(lia)). nia.
Qed.

Lemma capacity_exact snapshot : Forall (fun w => 0 <= wv_capacityBytes w) (pv_workspaces snapshot) ->
  workspaceCapacityBytes snapshot = Z.min MAX_SAFE_INTEGER (sumZ (map wv_capacityBytes (pv_workspaces snapshot))).
Proof.
  unfold workspaceCapacityBytes. intros Hl. replace 0 with (Z.min MAX_SAFE_INTEGER 0) by done.
  rewrite <- (Z.add_0_l (sumZ _)). generalize 0. induction Hl as [|w l Hw Hl IH]; intros base; cbn [fold_left map]; [by rewrite Z.add_0_r|].
  rewrite sumZ_cons, Z.add_assoc, <- IH. f_equal. destruct (Z.ltb_spec (MAX_SAFE_INTEGER - wv_capacityBytes w) (Z.min MAX_SAFE_INTEGER base)); lia.
Qed.

Lemma observed_resource sha256_hex scopeId kind id transition :
  observed_digest sha256_hex scopeId (kind_text kind) id (transition_text transition) = resource_digest sha256_hex scopeId kind id transition.
Proof. done. Qed.

(** The snapshot has the resource of a kind in a state that [transition] leads to. *)
Definition observed (snapshot : PrincipalView) (kind : ResourceKind) (id : jstr) (transition : ScopeAdmissionTransition) : Prop :=
  match kind, transition with
  | KWorkspace, TCreate => exists w, w ∈ pv_workspaces snapshot /\ wv_id w = id
  | KRuntime, TCreate => exists r, r ∈ pv_runtimes snapshot /\ rv_id r = id
  | KRuntime, TActivate => exists r, r ∈ pv_runtimes snapshot /\ rv_id r = id /\ running r = true
  | KRuntime, TEnableBrowser => exists r, r ∈ pv_runtimes snapshot /\ rv_id r = id /\ rv_browserAllowed r = true
  | _, _ => False
  end.

Lemma observed_digests sha256_hex scopeId snapshot kind id transition : observed snapshot kind id transition ->
  resource_digest sha256_hex scopeId kind id transition ∈ observedResourceDigests sha256_hex scopeId snapshot.
Proof.
  unfold observedResourceDigests. rewrite <- observed_resource. intros Ho.
  rewrite !elem_of_app, !list_elem_of_In, !in_map_iff. setoid_rewrite <- list_elem_of_In. setoid_rewrite elem_of_filter_list.
  destruct kind, transition; try done; destruct Ho as (x & Hx & Ho); [left|right; left|right; right; left|right; right; right]; exists x.
  all: destruct_and?; subst; done.
Qed.

(** The usage with its saturating sums written out. *)
Definition exact_usage (policy : ScopeAdmissionPolicy) (snapshot : PrincipalView) : Amounts :=
  let active := activeRuntimes snapshot in
  let r := sp_runtimeResources policy in
  let saturate z := Z.min MAX_SAFE_INTEGER z in
  mkAmounts active (len (pv_runtimes snapshot)) (saturate (sumZ (map wv_capacityBytes (pv_workspaces snapshot))))
    (saturate (rd_cpuMillis r * active)) (saturate (rd_memoryBytes r * active)) (saturate (rd_gpuUnits r * active)).

Lemma usage_exact policy snapshot : decodeScopeAdmissionPolicy policy = true -> Forall (fun w => 0 <= wv_capacityBytes w) (pv_workspaces snapshot) ->
  admission_usage policy snapshot = exact_usage policy snapshot.
Proof.
  unfold decodeScopeAdmissionPolicy, decodeRuntimeResourceDemand, bounded. rewrite !andb_true_iff, !Z.leb_le. intros Hp Hw.
  assert (0 <= activeRuntimes snapshot) as Ha by (unfold activeRuntimes, len; lia).
  unfold admission_usage, exact_usage. cbv zeta. rewrite capacity_exact by done. rewrite !product_exact by lia. done.
Qed.

(** A resource counts once.  The usage a demand reports is what the principal's snapshot
    shows, exact up to saturation at the largest safe integer; and once the ledger has answered
    the demand, granted or not, no committed reservation is left for a resource in a state the
    snapshot shows: it is counted in the usage, not also as reserved. *)
Theorem admission_counts_once sha256_hex config policy scopeId kind resourceKey snapshot d token now op state next a :
  decodeScopeAdmissionPolicy policy = true -> Forall (fun w => 0 <= wv_capacityBytes w) (pv_workspaces snapshot) ->
  reserveAdmission sha256_hex config (demand_request sha256_hex policy scopeId kind resourceKey snapshot d) token now = inl op -> op state = inl (next, a) ->
  aq_usage (demand_request sha256_hex policy scopeId kind resourceKey snapshot d) = exact_usage policy snapshot /\
  forall kind' id transition r, observed snapshot kind' id transition -> r ∈ lg_admissionReservations next ->
    ar_resourceDigest r = resource_digest sha256_hex scopeId kind' id transition -> ar_committed r = false.
Proof.
  intros Hp Hw Hop Ho. split; [by apply usage_exact|]. intros kind' id transition r Hobs. revert op state next a Hop Ho.
  change (ensures (reserveAdmission sha256_hex config (demand_request sha256_hex policy scopeId kind resourceKey snapshot d) token now)
    (fun _ next _ => r ∈ lg_admissionReservations next -> ar_resourceDigest r = resource_digest sha256_hex scopeId kind' id transition -> ar_committed r = false)).
  apply ensures_demand. intros _. apply ensures_op. intros state next a. cbv zeta. set (l := List.filter _ (lg_admissionReservations state)).
  assert (r ∈ l -> ar_resourceDigest r = resource_digest sha256_hex scopeId kind' id transition -> ar_committed r = false) as Hl.
  { intros [_ [_ Hf]%andb_prop]%elem_of_filter_list Hd. destruct (ar_committed r); [|done]. rewrite Hd in Hf. cbn in Hf.
    apply negb_true_iff, not_true_iff_false in Hf. destruct Hf. apply existsb_exists.
    exists (resource_digest sha256_hex scopeId kind' id transition). split; [by apply list_elem_of_In, observed_digests|apply jstr_eqb_refl]. }
  repeat (case_match; try done); intros [= <- <-]; rewrite reservations_with_admission; try exact Hl.
  all: intros [?|Hr%list_elem_of_singleton]%elem_of_app; [auto|by rewrite Hr].
Qed.

(** ** On the ledger *)

Section OnLedger.
Context (sha256_hex : jstr -> jstr) (parse_date : jstr -> option Z) (config : LedgerConfig).
Implicit Types (state next : Ledger).

(** The request of the control store that serves a call at a clock reading, with a random token. *)
Definition call_request (c : AdmissionCall) (token : jstr) (now : Z) : option LedgerRequest :=
  match c with
  | LReserve q => Some (QReserveAdmission q token now)
  | LCommit t => Some (QCommitAdmission t now)
  | LRelease t => Some (QReleaseAdmission t now)
  | LReconcile scopeId kind resourceKey transition => Some (QReconcileAdmission scopeId kind resourceKey (Some transition) now)
  | LBeginRetirement scopeId kind resourceKey => Some (QBeginRetirement scopeId kind resourceKey now)
  | LGetRetirement _ _ _ => None
  | LCompleteRetirement scopeId kind resourceKey => Some (QCompleteRetirement scopeId kind resourceKey now)
  end.
Definition call_result (c : AdmissionCall) (a : LedgerAnswer) : option (call_answer c) :=
  match c, a with
  | LReserve _, AAdmission o => Some o
  | LCommit _, ABool b | LRelease _, ABool b | LReconcile _ _ _ _, ABool b => Some b
  | LBeginRetirement _ _ _, ARetirement _ => Some tt
  | LCompleteRetirement _ _ _, ARetired o => Some o
  | _, _ => None
  end.

Definition performs (q : LedgerRequest) state next (a : LedgerAnswer) : Prop :=
  exists op, perform sha256_hex parse_date config q = inl op /\ op state = inl (next, a).

(** A call on the ledger: it fails without effect, or takes effect, and then its answer may be lost. *)
Definition serves (c : AdmissionCall) state next (a : option (call_answer c)) : Prop :=
  (a = None /\ next = state) \/
  (exists token now q answer, call_request c token now = Some q /\ performs q state next answer /\ (a = None \/ a = call_result c answer)) \/
  match c return option (call_answer c) -> Prop with
  | LGetRetirement scopeId kind resourceKey => fun a =>
      a = Some ((fun p => fst (fst p)) <$> getAdmissionRetirement scopeId kind resourceKey state) /\ next = state
  | _ => fun _ => False
  end a.

(** [s] runs from [state] to [next] with outcome [out], [others] changing the ledger before each call and at the end. *)
Fixpoint runs_on {A} (others : Ledger -> Ledger -> Prop) (s : Script A) state (out : A + AdmissionFailure) next : Prop :=
  match s with
  | Finish a => others state next /\ out = inl a
  | Throw e => others state next /\ out = inr e
  | Call c k => exists s1 s2 a, others state s1 /\ serves c s1 s2 a /\ runs_on others (k a) s2 out next
  | Operate k => exists s1 o, others state s1 /\ runs_on others (k o) s1 out next
  end.

Section Deletion.
Context (scopeId : jstr) (kind : ResourceKind) (resourceKey : jstr).
Abbreviation digest := (resource_digest sha256_hex scopeId kind resourceKey).

(** Nothing is committed for the resource and the transition. *)
Definition freed (transition : ScopeAdmissionTransition) state : Prop :=
  forall r, r ∈ lg_admissionReservations state -> ar_committed r = true -> ar_resourceDigest r ≠ digest transition.
Definition retired state : Prop :=
  exists r, r ∈ lg_admissionRetirements state /\ is_retirement scopeId kind resourceKey r = true /\ is_set (rt_completedAt r) = true.

(** A commit of a reservation for the resource. *)
Definition commits_resource state (q : LedgerRequest) : Prop :=
  match q with
  | QCommitAdmission token _ => exists r transition, r ∈ lg_admissionReservations state /\ sameDigest (ar_tokenDigest r) (sha256_hex token) = true /\
      ar_resourceDigest r = digest transition
  | _ => False
  end.
(** Other replicas: any requests but commits for the resource that is deleted. *)
Definition other_step state next : Prop := exists q a, performs q state next a /\ ~ commits_resource state q.
Definition others : Ledger -> Ledger -> Prop := rtc other_step.

Lemma committed_grows q : ensures (perform sha256_hex parse_date config q) (fun state next _ => forall r, r ∈ lg_admissionReservations next ->
  ar_committed r = true -> r ∈ lg_admissionReservations state \/
  exists r0 token now, q = QCommitAdmission token now /\ r0 ∈ lg_admissionReservations state /\ r = set_committed r0 /\
    sameDigest (ar_tokenDigest r0) (sha256_hex token) = true).
Proof.
  destruct (about_admission q) eqn:Hq.
  2: { intros op state next a Hp Ho r Hr _. left. by rewrite <- (other_requests_keep_reservations _ _ _ q Hq op state next a Hp Ho). }
  destruct q; try done; cbn [LedgerCalls.perform]; apply ensures_map, ensures_demand; intros _; apply ensures_op; intros state next a; cbv zeta.
  - set (l := List.filter _ (lg_admissionReservations state)).
    repeat (case_match; try done); intros [= <- <-] r; rewrite reservations_with_admission; rewrite ?elem_of_app, ?list_elem_of_singleton.
    all: try (intros [Hr| ->]; [|done]); try intros Hr; intros _; left; by apply elem_of_filter_list in Hr as [? _].
  - destruct (find_index _ _) as [[i x]|] eqn:E.
    2: { intros [= <- <-] r. rewrite reservations_with_admission. intros [? _]%elem_of_filter_list. by left. }
    apply find_index_some in E as [Hi Hx]. assert (x ∈ lg_admissionReservations state) as Hin.
    { apply list_elem_of_lookup_2, elem_of_filter_list in Hi. tauto. }
    destruct (ar_committed x); intros [= <- <-] r; rewrite reservations_with_admission; [intros [? _]%elem_of_filter_list; by left|].
    intros (j & [(<- & <- & _)|[_ Hj]]%list_lookup_insert_Some)%list_elem_of_lookup_1 _; [right; eauto 8|left].
    apply list_elem_of_lookup_2, elem_of_filter_list in Hj. tauto.
  - intros [= <- <-] r. rewrite reservations_with_admission. intros [[? _]%elem_of_filter_list _]%elem_of_filter_list. by left.
  - intros [= <- <-] r. rewrite reservations_with_admission. intros [[? _]%elem_of_filter_list _]%elem_of_filter_list. by left.
Qed.

Definition about_retirement (q : LedgerRequest) : bool := match q with QBeginRetirement _ _ _ _ | QCompleteRetirement _ _ _ _ => true | _ => false end.

Lemma other_requests_keep_retirements q : about_retirement q = false ->
  ensures (perform sha256_hex parse_date config q) (fun state next _ => lg_admissionRetirements next = lg_admissionRetirements state).
Proof.
  intros Hq. destruct q; try done; cbn [LedgerCalls.perform]; clear Hq.
  all: try (unfold appendEvent; apply ensures_map; case_match; [|done]).
  all: try (unfold consumeTicket, consumeTicketForTransport, claim; apply ensures_map; repeat (apply ensures_demand; intros _); apply ensures_map).
  all: branches; first [reflexivity|by destruct state|by destruct next].
Qed.

Lemma retirements_with state l : lg_admissionRetirements (with_retirements state l) = l.
Proof. by destruct state. Qed.

(** A completed retirement is kept by every request. *)
Lemma completed_kept q : ensures (perform sha256_hex parse_date config q) (fun state next _ => forall r, r ∈ lg_admissionRetirements state ->
  is_set (rt_completedAt r) = true -> r ∈ lg_admissionRetirements next).
Proof.
  destruct (about_retirement q) eqn:Hq.
  2: { intros op state next a Hp Ho r Hr _. by rewrite (other_requests_keep_retirements q Hq op state next a Hp Ho). }
  destruct q; try done; cbn [LedgerCalls.perform]; apply ensures_map, ensures_demand; intros _; apply ensures_op; intros state next a; cbv zeta.
  - repeat (case_match; try done); intros [= <- <-] r Hr _; rewrite ?retirements_with, ?elem_of_app; auto.
  - destruct (find_index _ _) as [[i x]|] eqn:E; [|by intros [= <- <-]]. apply find_index_some in E as [Hi Hx].
    destruct (is_set _) eqn:Ec; [by intros [= <- <-]|]. intros [= <- <-] r (j & Hj)%list_elem_of_lookup_1 Hr. rewrite retirements_with.
    apply (list_elem_of_lookup_2 _ j). rewrite list_lookup_insert_ne; [done|]. intros ->. congruence.
Qed.

Lemma other_step_keeps state next : other_step state next ->
  (forall transition, freed transition state -> freed transition next) /\ (retired state -> retired next).
Proof.
  intros (q & a & (op & Hp & Ho) & Hq). split.
  - intros transition Hf r Hr Hc Hd. destruct (committed_grows q op state next a Hp Ho r Hr Hc) as [?|(r0 & token & now & -> & Hr0 & -> & Ht)]; [by eapply Hf|].
    apply Hq. exists r0, transition. done.
  - intros (r & Hr & Hk & Hc). exists r. split; [|done]. by eapply (completed_kept q).
Qed.

Lemma others_keep state next : others state next ->
  (forall transition, freed transition state -> freed transition next) /\ (retired state -> retired next).
Proof. induction 1 as [|x y z Hxy _ [H1 H2]]; [done|]. destruct (other_step_keeps x y Hxy). split; auto. Qed.

(** The calls of a deletion are not commits. *)
Lemma serves_keeps c state next a : serves c state next a -> (forall token, c ≠ LCommit token) ->
  (forall transition, freed transition state -> freed transition next) /\ (retired state -> retired next).
Proof.
  intros [[_ ->]|[(token & now & q & answer & Hq & Hp & _)|Hg]] Hc; [done|..].
  - apply other_step_keeps. exists q, answer. split; [done|]. destruct c; simplify_eq/=; try (intros []). by destruct (Hc token0).
  - destruct c; try done. destruct Hg as [_ ->]. done.
Qed.

Lemma runs_on_bind {A B} (s : Script A) (f : A -> Script B) state out next : runs_on others (script_bind s f) state (inl out) next ->
  exists a mid, runs_on others s state (inl a) mid /\ runs_on others (f a) mid (inl out) next.
Proof.
  revert state. induction s as [a|e|c k IH|k IH]; intros state; cbn.
  - intros Hf. exists a, state. split; [|done]. split; [apply rtc_refl|done].
  - by intros [_ ?].
  - intros (s1 & s2 & a & Ho & Hs & Hk). destruct (IH a s2 Hk) as (b & mid & H1 & H2). exists b, mid. eauto 8.
  - intros (s1 & o & Ho & Hk). destruct (IH o s1 Hk) as (b & mid & H1 & H2). exists b, mid. eauto 8.
Qed.

Lemma runs_on_unavailable {A} (s : Script A) state a next : runs_on others (or_unavailable s) state (inl a) next -> runs_on others s state (inl a) next.
Proof.
  revert state. induction s as [b|e|c k IH|k IH]; intros state; cbn; [done|by intros [_ ?]|..].
  - intros (s1 & s2 & x & Ho & Hs & Hk). eauto 8.
  - intros (s1 & o & Ho & Hk). eauto 8.
Qed.

(** A call that did not throw was served, and answered. *)
Lemma runs_on_call c state a next : runs_on others (call c) state (inl a) next ->
  exists s1 s2, others state s1 /\ serves c s1 s2 (Some a) /\ others s2 next.
Proof. cbn. intros (s1 & s2 & [b|] & Ho & Hs & Hn & [= ->]). eauto. Qed.

Context (Hsha : forall text, DIGEST (sha256_hex text) = true).

Lemma reconcile_frees transition state next b : serves (LReconcile scopeId kind resourceKey transition) state next (Some b) -> freed transition next.
Proof.
  intros [[? _]|[(token & now & q & answer & [= <-] & (op & Hp & Ho) & _)|[]]]; [done|]. revert op state next answer Hp Ho.
  change (ensures (perform sha256_hex parse_date config (QReconcileAdmission scopeId kind resourceKey (Some transition) now)) (fun _ next _ => freed transition next)).
  cbn [LedgerCalls.perform]. branches. intros r. rewrite reservations_with_admission. intros [_ Hr]%elem_of_filter_list Hc Hd. revert Hr.
  rewrite Hc, Hd. unfold sameDigest. cbn [default from_option id]. unfold resource_digest. rewrite Hsha, jstr_eqb_refl. done.
Qed.

Lemma complete_retires state next o : serves (LCompleteRetirement scopeId kind resourceKey) state next (Some o) -> o ≠ RetirementNotFound -> retired next.
Proof.
  intros [[? _]|[(token & now & q & answer & [= <-] & (op & Hp & Ho) & Ha)|[]]] Hne; [done|]. destruct Ha as [?|Ha]; [done|].
  assert (answer = ARetired o) as -> by (destruct answer; by simplify_eq/=). clear Ha. revert Hne. revert op state next o Hp Ho.
  cut (ensures (completeAdmissionRetirement scopeId kind resourceKey now) (fun _ next o => o ≠ RetirementNotFound -> retired next)).
  { intros He op state next o Hp Ho. refine (ensures_map ARetired _ (fun _ next a => forall o, a = ARetired o -> o ≠ RetirementNotFound -> retired next) _
      op state next _ Hp Ho o eq_refl). intros op' st nx o' Hm Ho' ? [= <-]. by eapply He. }
  apply ensures_demand. intros _. apply ensures_op. intros state next o. cbv zeta. destruct (find_index _ _) as [[i x]|] eqn:E; [|by intros [= <- <-]].
  apply find_index_some in E as [Hi Hx]. destruct (is_set _) eqn:Ec; intros [= <- <-] _.
  - exists x. split_and!; [by eapply list_elem_of_lookup_2|done..].
  - eexists. rewrite retirements_with. split; [apply (list_elem_of_lookup_2 _ i), list_lookup_insert_eq; by eapply lookup_lt_Some|done].
Qed.

Lemma reconcile_each_frees transitions state next : runs_on others (reconcile_each scopeId kind resourceKey transitions) state (inl tt) next ->
  forall transition, (transition ∈ transitions \/ freed transition state) -> freed transition next.
Proof.
  revert state. induction transitions as [|t rest IH]; intros state.
  - intros [Ho _] u [Hu%not_elem_of_nil|Hu]; [done|]. by apply (others_keep state next Ho).
  - intros (b & mid & (s1 & s2 & Ho1 & Hs & Ho2)%runs_on_call & Hk)%runs_on_bind u Hu. apply (IH mid Hk).
    destruct Hu as [[->|Hu]%elem_of_cons|Hu]; [right|by left|right].
    + by eapply others_keep, reconcile_frees.
    + apply (others_keep s2 mid Ho2), (serves_keeps _ _ _ _ Hs); [done|]. by apply (others_keep state s1 Ho1).
Qed.

Lemma finish_frees state next : runs_on others (finishDeletion scopeId kind resourceKey) state (inl tt) next ->
  (forall transition, transition ∈ kind_transitions kind -> freed transition next) /\ retired next.
Proof.
  intros ([] & mid & Hr%runs_on_unavailable & Hc%runs_on_unavailable)%runs_on_bind.
  apply runs_on_bind in Hc as (o & mid2 & (s1 & s2 & Ho1 & Hs & Ho2)%runs_on_call & Hd). cbn in o.
  assert (o ≠ RetirementNotFound /\ others mid2 next) as [Hne Ho3] by (destruct o; destruct Hd as [? ?]; done). split.
  - intros t Ht. apply (others_keep mid2 next Ho3), (others_keep s2 mid2 Ho2), (serves_keeps _ _ _ _ Hs); [done|]. apply (others_keep mid s1 Ho1).
    eapply reconcile_each_frees; [done|by left].
  - apply (others_keep mid2 next Ho3), (others_keep s2 mid2 Ho2). by eapply complete_retires.
Qed.
End Deletion.
End OnLedger.

Lemma all_transitions kind transition : (kind = KWorkspace -> transition = TCreate) -> transition ∈ kind_transitions kind.
Proof. intros Ht. destruct kind, transition; try (specialize (Ht eq_refl); discriminate Ht); cbn; set_solver. Qed.

(** C12: A finished deletion frees what its resource had reserved.  Let [finishDeletion] run on
    the ledger, with calls that fail or whose answers are lost, and with any requests of other
    replicas in between except commits for the same resource.  When it returns, no committed
    reservation for the resource is left, under any transition of a runtime or the creation of a
    workspace, and its retirement is recorded as completed. *)
Theorem deletion_frees_reservations sha256_hex parse_date config scopeId kind resourceKey state next :
  (forall text, DIGEST (sha256_hex text) = true) ->
  runs_on sha256_hex parse_date config (others sha256_hex parse_date config scopeId kind resourceKey) (finishDeletion scopeId kind resourceKey) state (inl tt) next ->
  (forall transition, (kind = KWorkspace -> transition = TCreate) -> freed sha256_hex scopeId kind resourceKey transition next) /\
  retired scopeId kind resourceKey next.
Proof. intros Hsha Hrun. destruct (finish_frees _ _ _ _ _ _ Hsha _ _ Hrun) as [Hf Hr]. split; [|done]. intros t Ht. by apply Hf, all_transitions. Qed.

(** ** Scripts served at once *)

Section Serve.
Context (sha256_hex : jstr -> jstr) (parse_date : jstr -> option Z) (config : LedgerConfig) (token : jstr) (now : Z).

Definition serve_call (c : AdmissionCall) (state : Ledger) : Ledger * option (call_answer c) :=
  match call_request c token now with
  | Some q =>
      match perform sha256_hex parse_date config q with
      | inl op => match op state with inl (next, a) => (next, call_result c a) | inr _ => (state, None) end
      | inr _ => (state, None)
      end
  | None => (state, None)
  end.

Fixpoint serve_script {A} (s : Script A) (state : Ledger) (o : OperationOutcome) : Ledger * list AdmissionEvent * (A + AdmissionFailure) :=
  match s with
  | Finish a => (state, [], inl a)
  | Throw e => (state, [], inr e)
  | Call c k => let '(next, a) := serve_call c state in let '(final, tr, out) := serve_script (k a) next o in (final, ECall c a :: tr, out)
  | Operate k => let '(final, tr, out) := serve_script (k o) state o in (final, EOperate o :: tr, out)
  end.

Lemma serve_call_serves c state : serves sha256_hex parse_date config c state (fst (serve_call c state)) (snd (serve_call c state)).
Proof.
  unfold serve_call. destruct (call_request c token now) as [q|] eqn:Eq; [|by left]. destruct (perform _ _ _ q) as [op|] eqn:Ep; [|by left].
  destruct (op state) as [[next a]|] eqn:Eo; [|by left]. right; left. exists token, now, q, a. split_and!; [done|by exists op|by right].
Qed.

Lemma serve_script_traces {A} (s : Script A) state o : traces s (snd (fst (serve_script s state o))) (snd (serve_script s state o)).
Proof.
  revert state. induction s as [a|e|c k IH|k IH]; intros state; cbn; [done..| |].
  - destruct (serve_call c state) as [next a]. specialize (IH a next). destruct (serve_script (k a) next o) as [[final tr] out]. by exists a, tr.
  - specialize (IH o state). destruct (serve_script (k o) state o) as [[final tr] out]. by exists o, tr.
Qed.

Lemma serve_script_runs {A} R `{Reflexive _ R} (s : Script A) state o :
  runs_on sha256_hex parse_date config R s state (snd (serve_script s state o)) (fst (fst (serve_script s state o))).
Proof.
  revert state. induction s as [a|e|c k IH|k IH]; intros state; cbn; [done..| |].
  - pose proof (serve_call_serves c state) as Hs. destruct (serve_call c state) as [next a]. specialize (IH a next).
    destruct (serve_script (k a) next o) as [[final tr] out]. by exists state, next, a.
  - specialize (IH o state). destruct (serve_script (k o) state o) as [[final tr] out]. by exists state, o.
Qed.
End Serve.

(** ** Sample runs *)

Definition team_policy : ScopeAdmissionPolicy := mkPolicy (mkAmounts 2 5 1000 1000 1000 0) true (mkDemand 100 100 0) (mkRate 60 10 30).
Definition team_view : PrincipalView :=
  mkPrincipalView [mkWorkspaceView (js "ws") 400] [mkRuntimeView (js "a") DRunning PhOther false; mkRuntimeView (js "b") DStopped PhOther false].
Definition created_result : RestMutationResult := mkMutation true JNull.
Definition served {A} (s : Script A) (state : Ledger) (o : OperationOutcome) : Ledger * list AdmissionEvent * (A + AdmissionFailure) :=
  serve_script small_digest no_dates default_config (js "token") 1000 s state o.

(** Runtime [c] is created: one reservation, committed after the operation. *)
Definition create_c : Ledger * list AdmissionEvent * (RestMutationResult + AdmissionFailure) :=
  served (createRuntime small_digest team_policy (js "team") (js "c") team_view true false) initialState (OpReturned created_result).

Example create_c_run : snd create_c = inl created_result /\ omap committed_token (snd (fst create_c)) = [js "token"] /\
  map ar_committed (lg_admissionReservations (fst (fst create_c))) = [true].
Proof. vm_compute. auto. Qed.

(** The operation is refused: the reservation is given back. *)
Example refused_run :
  let '(state, tr, out) := served (createRuntime small_digest team_policy (js "team") (js "c") team_view true false) initialState OpRestError in
  out = inr FRest /\ omap released_token tr = [js "token"] /\ lg_admissionReservations state = [].
Proof. vm_compute. auto. Qed.

Lemma admission_settles_witness :
  exists pre o post, snd (fst create_c) = pre ++ EOperate o :: post /\ settlement false [js "token"] o post (inl created_result).
Proof.
  destruct (admission_settles small_digest team_policy (js "team") KRuntime (js "c") team_view [mkAdmissionDemand TCreate None true false] false
    (snd (fst create_c)) (snd create_c) (serve_script_traces _ _ _ _ _ _ _ _)) as [(Hno & _)|(pre & o & post & E & _ & _ & _ & _ & Hs)];
    [exfalso; revert Hno; vm_compute; discriminate|].
  exists pre, o, post. split; [exact E|exact Hs].
Defined.

Definition view_c : PrincipalView := mkPrincipalView [] [mkRuntimeView (js "c") DRunning PhOther false].
Definition reserve_d : Method ScopeAdmissionOutcome :=
  reserveAdmission small_digest default_config
    (demand_request small_digest team_policy (js "team") KRuntime (js "d") view_c (mkAdmissionDemand TCreate None true false)) (js "other") 2000.
Definition reserved_d : (Ledger * ScopeAdmissionOutcome) + LedgerError :=
  match reserve_d with inl op => op (fst (fst create_c)) | inr e => inr e end.

(** With runtime [c] observed, its committed reservation goes and that of [d] is the only one. *)
Lemma admission_counts_once_witness :
  exists next a, reserved_d = inl (next, a) /\ length (lg_admissionReservations next) = 1%nat /\
    forall r, r ∈ lg_admissionReservations next -> ar_resourceDigest r = resource_digest small_digest (js "team") KRuntime (js "c") TCreate ->
      ar_committed r = false.
Proof.
  assert (match reserved_d with inl (next, _) => length (lg_admissionReservations next) | inr _ => O end = 1%nat) as Hlen by (vm_compute; reflexivity).
  destruct reserve_d as [op|e] eqn:Hop; [|exfalso; unfold reserved_d in Hlen; rewrite Hop in Hlen; discriminate Hlen].
  unfold reserved_d in *. rewrite Hop in *. destruct (op (fst (fst create_c))) as [[next a]|e] eqn:Ho; [|discriminate Hlen].
  exists next, a. split; [reflexivity|]. split; [exact Hlen|]. intros r Hr Hd.
  refine (proj2 (admission_counts_once small_digest default_config team_policy (js "team") KRuntime (js "d") view_c (mkAdmissionDemand TCreate None true false)
    (js "other") 2000 op (fst (fst create_c)) next a ltac:(vm_compute; reflexivity) (Forall_nil_2 _) Hop Ho) KRuntime (js "c") TCreate r _ Hr Hd).
  eexists. split; [apply list_elem_of_here|reflexivity].
Defined.

(** Runtime [c] is deleted again. *)
Definition retiring : Ledger := fst (fst (served (beginDeletion (js "team") KRuntime (js "c")) (fst (fst create_c)) OpOtherError)).
Definition deleted_c : Ledger * list AdmissionEvent * (unit + AdmissionFailure) :=
  served (finishDeletion (js "team") KRuntime (js "c")) retiring OpOtherError.

Lemma small_digest_ok text : DIGEST (small_digest text) = true.
Proof.
  unfold small_digest. assert (fold_left N.add text 0 mod 10 < 10)%N as H by (by apply N.mod_lt).
  destruct (fold_left N.add text 0 mod 10)%N as [|p]; [reflexivity|]. do 4 (destruct p as [p|p|]; try (reflexivity || lia)).
Qed.

Lemma deletion_frees_reservations_witness :
  length (lg_admissionReservations retiring) = 1%nat /\ lg_admissionReservations (fst (fst deleted_c)) = [] /\
  retired (js "team") KRuntime (js "c") (fst (fst deleted_c)).
Proof.
  split; [vm_compute; reflexivity|]. split; [vm_compute; reflexivity|].
  assert (snd deleted_c = inl tt) as E by (vm_compute; reflexivity).
  refine (proj2 (deletion_frees_reservations small_digest no_dates default_config (js "team") KRuntime (js "c") retiring (fst (fst deleted_c))
    small_digest_ok _)).
  rewrite <- E. exact (serve_script_runs _ _ _ _ _ _ _ _ _).
Defined.
