(* ===== verification/RpcChildRegistry.v ===== *)
(** * RpcChildRegistry: which child processes a host may kill
    ([packages/host-service/src/rpc-child-registry.ts])

    A host records the process groups it starts in a file, so that the next host can kill what a
    dead one left behind.  The processes of the machine are a list; [ps] may fail for some of
    them, and [kill] may be denied.  The file has the JSON value it was written with. *)
From stdpp Require Import base tactics option list numbers strings sets.
From S2P Require Import Prelude JsMap JsString JsValue LedgerState.

Record RpcChildIdentity := mkIdentity { id_pid : Z; id_pgid : Z; id_startedAt : jstr; id_commandSha256 : jstr }.
#[export] Instance RpcChildIdentity_eq_dec : EqDecision RpcChildIdentity.
Proof. solve_decision. Defined.
Implicit Types (i owner child : RpcChildIdentity).

(** ** The machine *)

(** A process has a serial of its own, which no observation shows. *)
Record Process := mkProcess { p_serial : nat; p_identity : RpcChildIdentity }.
#[export] Instance Process_eq_dec : EqDecision Process.
Proof. solve_decision. Defined.
Record Machine := mkMachine {
  m_procs : list Process;
  m_blind : list Z;                       (* pids for which [ps] fails *)
  m_denied : list Z;                      (* groups that may not be signalled *)
}.
Implicit Types (m : Machine).

Definition find_process m (pid : Z) : option Process := List.find (fun p => id_pid (p_identity p) =? pid) (m_procs m).
Definition inspect m (pid : Z) : option RpcChildIdentity :=
  if existsb (Z.eqb pid) (m_blind m) then None else p_identity <$> find_process m pid.

Inductive KillResult := Killed | NoSuchProcess | KillDenied.
Definition in_group (pgid : Z) (p : Process) : bool := id_pgid (p_identity p) =? pgid.
(** [process.kill(-pgid, "SIGKILL")] *)
Definition killGroup m (pgid : Z) : Machine * KillResult :=
  if existsb (Z.eqb pgid) (m_denied m) then (m, KillDenied)
  else if existsb (in_group pgid) (m_procs m)
  then (mkMachine (List.filter (fun p => negb (in_group pgid p)) (m_procs m)) (m_blind m) (m_denied m), Killed)
  else (m, NoSuchProcess).

(** ** The file *)

Definition REGISTRY_VERSION : Z := 1.
Definition MAX_REGISTRY_BYTES : Z := 64 * 1024.

(** A file that is not private is unsafe; another has a size and, if it is JSON, a value. *)
Inductive RegistryFile := NoFile | UnsafeFile | TextFile (bytes : Z) (parsed : option jv).
Record RegistryState := mkRegistry { rs_owner : RpcChildIdentity; rs_children : list RpcChildIdentity }.

Definition compare_units (a b : jstr) : comparison := if jstr_lt a b then Lt else if jstr_eqb a b then Eq else Gt.
Fixpoint join_comma (l : list jstr) : jstr :=
  match l with [] => [] | [x] => x | x :: rest => x ++ js "," ++ join_comma rest end.
(** [Object.keys(record).sort().join(",")] *)
Definition sorted_keys (o : list (jstr * jv)) : jstr := join_comma (sort compare_units (map_keys o)).

Definition positive_integer (v : jv) : option Z :=
  match v with JNum n => match num_safe_integer n with Some z => if 0 <? z then Some z else None | None => None end | _ => None end.

(** [decodeIdentity]; [None] is thrown. *)
Definition decodeIdentity (value : jv) : option RpcChildIdentity :=
  match value with
  | JObj record =>
      if negb (jstr_eqb (sorted_keys record) (js "commandSha256,pgid,pid,startedAt")) then None
      else match positive_integer (prop (js "pid") record), positive_integer (prop (js "pgid") record),
                 prop (js "startedAt") record, prop (js "commandSha256") record with
           | Some pid, Some pgid, JStr startedAt, JStr commandSha256 =>
               if (len startedAt =? 0) || (128 <? len startedAt) || negb (DIGEST commandSha256) then None
               else Some (mkIdentity pid pgid startedAt commandSha256)
           | _, _, _, _ => None
           end
  | _ => None
  end.

Fixpoint decode_children (l : list jv) : option (list RpcChildIdentity) :=
  match l with
  | [] => Some []
  | v :: rest => match decodeIdentity v, decode_children rest with Some i, Some l => Some (i :: l) | _, _ => None end
  end.

Definition is_version (v : jv) : bool :=
  match v with JNum n => match num_to_Z n with Some z => z =? REGISTRY_VERSION | None => false end | _ => false end.

(** [#read]: [None] is thrown, [Some None] is no file. *)
Definition registry_read (file : RegistryFile) : option (option RegistryState) :=
  match file with
  | NoFile => Some None
  | UnsafeFile => None
  | TextFile bytes parsed =>
      if MAX_REGISTRY_BYTES <? bytes then None
      else match parsed with
           | Some (JObj record) =>
               if negb (jstr_eqb (sorted_keys record) (js "children,owner,version")) || negb (is_version (prop (js "version") record)) then None
               else match prop (js "children") record with
                    | JArr children =>
                        if 256 <? len children then None
                        else match decodeIdentity (prop (js "owner") record), decode_children children with
                             | Some owner, Some children => Some (Some (mkRegistry owner children))
                             | _, _ => None
                             end
                    | _ => None
                    end
           | _ => None
           end
  end.

Definition identity_json i : jv :=
  JObj [(js "pid", JNum (num_of_Z (id_pid i))); (js "pgid", JNum (num_of_Z (id_pgid i)));
        (js "startedAt", JStr (id_startedAt i)); (js "commandSha256", JStr (id_commandSha256 i))].
Definition registry_json owner (children : list RpcChildIdentity) : jv :=
  JObj [(js "version", JNum (num_of_Z REGISTRY_VERSION)); (js "owner", identity_json owner); (js "children", JArr (map identity_json children))].

(** [#write]: the text ends in a newline; an empty registry is removed. *)
Definition registry_write owner (children : list RpcChildIdentity) : RegistryFile :=
  match children with
  | [] => NoFile
  | _ => TextFile (json_bytes (registry_json owner children) + 1) (Some (registry_json owner children))
  end.

(** ** The operations of a host *)

Definition sameIdentity (left right : RpcChildIdentity) : bool :=
  (id_pid left =? id_pid right) && (id_pgid left =? id_pgid right) && jstr_eqb (id_startedAt left) (id_startedAt right) &&
  jstr_eqb (id_commandSha256 left) (id_commandSha256 right).

(** [register]: the file afterwards, and the identity unless it throws. *)
Definition register_child owner m (file : RegistryFile) (pid : Z) : RegistryFile * option RpcChildIdentity :=
  match inspect m pid with
  | Some identity =>
      if negb (id_pid identity =? pid) || negb (id_pgid identity =? pid) then (file, None)
      else match registry_read file with
           | None => (file, None)
           | Some state =>
               let children := match state with Some s => rs_children s | None => [] end in
               let foreign := match state with Some s => negb (sameIdentity (rs_owner s) owner) && (0 <? len (rs_children s)) | None => false end in
               if foreign then (file, None)
               else (registry_write owner (List.filter (fun child => negb (id_pid child =? pid)) children ++ [identity]), Some identity)
           end
  | None => (file, None)
  end.

(** [unregister]: the file afterwards, or [None] when it throws. *)
Definition unregister_child owner (file : RegistryFile) i : option RegistryFile :=
  match registry_read file with
  | None => None
  | Some None => Some file
  | Some (Some state) =>
      if negb (sameIdentity (rs_owner state) owner) then Some file
      else Some (registry_write (rs_owner state) (List.filter (fun child => negb (sameIdentity child i)) (rs_children state)))
  end.

(** The loop of [reap]: the machine, and the pids killed and the identities retained. *)
Fixpoint reap_each m (children : list RpcChildIdentity) : Machine * list Z * list Z * list RpcChildIdentity :=
  match children with
  | [] => (m, [], [], [])
  | recorded :: rest =>
      let skip m := let '(m, killed, skipped, retained) := reap_each m rest in (m, killed, id_pid recorded :: skipped, recorded :: retained) in
      match inspect m (id_pid recorded) with
      | None => reap_each m rest
      | Some current =>
          if negb (sameIdentity recorded current) || negb (id_pgid current =? id_pid current) then skip m
          else match killGroup m (id_pgid current) with
               | (m, Killed) => let '(m, killed, skipped, retained) := reap_each m rest in (m, id_pid current :: killed, skipped, retained)
               | (m, NoSuchProcess) => reap_each m rest
               | (m, KillDenied) => skip m
               end
      end
  end.

Record Reaped := mkReaped { rd_machine : Machine; rd_file : RegistryFile; rd_killed : list Z; rd_skipped : list Z }.

(** [reap]; [None] when it throws. *)
Definition reap m (file : RegistryFile) : option Reaped :=
  match registry_read file with
  | None => None
  | Some None => Some (mkReaped m file [] [])
  | Some (Some state) =>
      let alive := match inspect m (id_pid (rs_owner state)) with Some live => sameIdentity (rs_owner state) live | None => false end in
      if alive then Some (mkReaped m file [] (map id_pid (rs_children state)))
      else let '(m, killed, skipped, retained) := reap_each m (rs_children state) in
           Some (mkReaped m (registry_write (rs_owner state) retained) killed skipped)
  end.
