(* ===== verification/RpcChildRegistrySpec.v ===== *)
(** * RpcChildRegistrySpec: only orphans are killed

    Hosts and other processes come and go on a machine and share one registry file. *)
From stdpp Require Import base tactics option list numbers strings sets relations.
From S2P Require Import Prelude JsMap JsString JsValue WireSpec LedgerState LedgerHistory RpcChildRegistry.
Implicit Types (i owner child : RpcChildIdentity) (m : Machine) (p q : Process) (l : list RpcChildIdentity).

Lemma sameIdentity_eq a b : sameIdentity a b = true <-> a = b.
Proof.
  unfold sameIdentity, jstr_eqb. rewrite !andb_true_iff, !Z.eqb_eq, !bool_decide_eq_true. destruct a, b. cbn. split; [by intros [[[-> ->] ->] ->]|by intros [= -> -> -> ->]].
Qed.

(** ** What is written is read back *)

(** An identity as [inspectProcess] gives it, with a start time that fits. *)
Definition valid_identity i : bool :=
  (0 <? id_pid i) && (id_pid i <=? MAX_SAFE_INTEGER) && (0 <? id_pgid i) && (id_pgid i <=? MAX_SAFE_INTEGER) &&
  negb ((len (id_startedAt i) =? 0) || (128 <? len (id_startedAt i)) || negb (DIGEST (id_commandSha256 i))).

Lemma positive_integer_of_Z z : positive_integer (JNum (num_of_Z z)) = if (0 <? z) && (z <=? MAX_SAFE_INTEGER) then Some z else None.
Proof.
  unfold positive_integer, num_safe_integer. rewrite num_to_Z_of_Z. destruct (Z.ltb_spec 0 z), (Z.leb_spec (Z.abs z) MAX_SAFE_INTEGER), (Z.leb_spec z MAX_SAFE_INTEGER);
    cbn [andb]; try done; unfold MAX_SAFE_INTEGER in *; try lia; try (by rewrite (proj2 (Z.ltb_lt 0 z))); by rewrite (proj2 (Z.ltb_ge 0 z)).
Qed.

Lemma decode_identity_json i : decodeIdentity (identity_json i) = if valid_identity i then Some i else None.
Proof.
  unfold decodeIdentity, identity_json.
  match goal with |- context [sorted_keys ?o] => replace (jstr_eqb (sorted_keys o) _) with true by (vm_compute; reflexivity);
    change (prop (js "pid") o) with (JNum (num_of_Z (id_pid i))); change (prop (js "pgid") o) with (JNum (num_of_Z (id_pgid i)));
    change (prop (js "startedAt") o) with (JStr (id_startedAt i)); change (prop (js "commandSha256") o) with (JStr (id_commandSha256 i)) end.
  cbn [negb]. rewrite !positive_integer_of_Z. unfold valid_identity.
  destruct (_ && (id_pid i <=? _)); [|done]. cbn [andb].
  destruct (0 <? id_pgid i), (id_pgid i <=? MAX_SAFE_INTEGER); cbn [andb]; try done. destruct (_ || _); [done|]. by destruct i.
Qed.

Lemma decode_children_json l : decode_children (map identity_json l) = if forallb valid_identity l then Some l else None.
Proof.
  induction l as [|i l IH]; cbn [map decode_children forallb]; [done|]. rewrite decode_identity_json, IH. by destruct (valid_identity i), (forallb _ l).
Qed.

Definition registry_bytes owner l : Z := json_bytes (registry_json owner l) + 1.

Lemma read_written owner l : l ≠ [] -> registry_read (registry_write owner l) =
  if (registry_bytes owner l <=? MAX_REGISTRY_BYTES) && (len l <=? 256) && valid_identity owner && forallb valid_identity l
  then Some (Some (mkRegistry owner l)) else None.
Proof.
  intros Hl. assert (registry_write owner l = TextFile (registry_bytes owner l) (Some (registry_json owner l))) as -> by (by destruct l). unfold registry_read.
  destruct (Z.ltb_spec MAX_REGISTRY_BYTES (registry_bytes owner l)), (Z.leb_spec (registry_bytes owner l) MAX_REGISTRY_BYTES); try lia; [done|].
  unfold registry_json. match goal with |- context [sorted_keys ?o] => replace (jstr_eqb (sorted_keys o) _) with true by (vm_compute; reflexivity);
    change (prop (js "version") o) with (JNum (num_of_Z REGISTRY_VERSION)); change (prop (js "owner") o) with (identity_json owner);
    change (prop (js "children") o) with (JArr (map identity_json l)) end.
  unfold is_version. rewrite num_to_Z_of_Z, Z.eqb_refl. cbn [negb orb andb]. rewrite len_map.
  destruct (Z.ltb_spec 256 (len l)), (Z.leb_spec (len l) 256); try lia; [done|]. cbn [andb].
  rewrite decode_identity_json, decode_children_json. by destruct (valid_identity owner), (forallb valid_identity l).
Qed.

(** C31: The registry survives its file, up to 256 children.  What a host writes is read back as
    it was exactly when every identity is well formed, the text fits in 64 KiB and there are at
    most 256 children; otherwise every later operation on the file throws.  An empty registry
    has no file. *)
Theorem registry_roundtrip owner l : registry_read (registry_write owner l) =
  match l with
  | [] => Some None
  | _ => if (registry_bytes owner l <=? MAX_REGISTRY_BYTES) && (len l <=? 256) && valid_identity owner && forallb valid_identity l
         then Some (Some (mkRegistry owner l)) else None
  end.
Proof. destruct l as [|i l]; [done|]. by apply read_written. Qed.

Lemma read_write_inv owner l state : registry_read (registry_write owner l) = Some (Some state) -> state = mkRegistry owner l.
Proof. destruct l as [|i l]; [done|]. rewrite read_written by done. destruct (_ && _); [by intros [= <-]|done]. Qed.

(** ** A machine with hosts *)

(** [h_history] are all processes that ever ran, [h_registered] the registrations, both ghosts. *)
Record Hosts := mkHosts {
  h_machine : Machine;
  h_file : RegistryFile;
  h_history : list Process;
  h_registered : list (RpcChildIdentity * Process);
}.
Implicit Types (w : Hosts).

Definition runs m i : Prop := exists p, p ∈ m_procs m /\ p_identity p = i.
Definition set_machine w m : Hosts := mkHosts m (h_file w) (h_history w) (h_registered w).
Definition set_file w (file : RegistryFile) : Hosts := mkHosts (h_machine w) file (h_history w) (h_registered w).

(** [ps] tells whether the owner that the file names still runs. *)
Definition owner_visible w : Prop :=
  forall state, registry_read (h_file w) = Some (Some state) -> existsb (Z.eqb (id_pid (rs_owner state))) (m_blind (h_machine w)) = false.

(** No two processes have the same pid at a time, or the same pid, start time and command ever. *)
Inductive hosts_step : Hosts -> Hosts -> Prop :=
| process_starts w i : (forall p, p ∈ m_procs (h_machine w) -> id_pid (p_identity p) ≠ id_pid i) -> (forall p, p ∈ h_history w -> p_identity p ≠ i) ->
    let p := mkProcess (length (h_history w)) i in
    hosts_step w (mkHosts (mkMachine (m_procs (h_machine w) ++ [p]) (m_blind (h_machine w)) (m_denied (h_machine w))) (h_file w) (h_history w ++ [p]) (h_registered w))
| process_exits w p : hosts_step w (set_machine w (mkMachine (List.filter (fun q => negb (Nat.eqb (p_serial q) (p_serial p))) (m_procs (h_machine w)))
    (m_blind (h_machine w)) (m_denied (h_machine w))))
| machine_changes w blind denied : hosts_step w (set_machine w (mkMachine (m_procs (h_machine w)) blind denied))
| host_registers w owner pid file i p : runs (h_machine w) owner -> register_child owner (h_machine w) (h_file w) pid = (file, Some i) ->
    find_process (h_machine w) pid = Some p ->
    hosts_step w (mkHosts (h_machine w) file (h_history w) (h_registered w ++ [(owner, p)]))
| host_unregisters w owner i file : unregister_child owner (h_file w) i = Some file -> hosts_step w (set_file w file)
| host_reaps w r : reap (h_machine w) (h_file w) = Some r ->
    hosts_step w (mkHosts (rd_machine r) (rd_file r) (h_history w) (h_registered w)).

Definition no_hosts : Hosts := mkHosts (mkMachine [] [] []) NoFile [] [].

Record hosts_ok w : Prop := {
  ho_running : forall p, p ∈ m_procs (h_machine w) -> p ∈ h_history w;
  ho_pids : NoDup (map (fun p => id_pid (p_identity p)) (m_procs (h_machine w)));
  ho_identities : forall p q, p ∈ h_history w -> q ∈ h_history w -> p_identity p = p_identity q -> p = q;
  ho_registered : forall owner p, (owner, p) ∈ h_registered w -> p ∈ h_history w;
  ho_file : exists owner l, h_file w = registry_write owner l /\
    forall child, child ∈ l -> exists p, (owner, p) ∈ h_registered w /\ p_identity p = child;
}.

Lemma find_process_some m pid p : find_process m pid = Some p -> p ∈ m_procs m /\ id_pid (p_identity p) = pid.
Proof. intros [Hin ?%Z.eqb_eq]%find_some. split; [by apply list_elem_of_In|done]. Qed.

Lemma inspect_some m pid i : inspect m pid = Some i -> exists p, find_process m pid = Some p /\ p_identity p = i.
Proof. unfold inspect. destruct (existsb _ _); [done|]. destruct (find_process m pid) as [p|]; [|done]. intros [= <-]. eauto. Qed.

(** A running process is found, unless [ps] fails for it. *)
Lemma inspect_running m p : NoDup (map (fun p => id_pid (p_identity p)) (m_procs m)) -> p ∈ m_procs m ->
  existsb (Z.eqb (id_pid (p_identity p))) (m_blind m) = false -> inspect m (id_pid (p_identity p)) = Some (p_identity p).
Proof.
  intros Hnd Hp Hb. unfold inspect. rewrite Hb. unfold find_process. induction (m_procs m) as [|q l IH]; [by apply not_elem_of_nil in Hp|]. cbn in *.
  apply NoDup_cons in Hnd as [Hq Hnd]. apply elem_of_cons in Hp as [->|Hp]; [by rewrite Z.eqb_refl|].
  destruct (Z.eqb_spec (id_pid (p_identity q)) (id_pid (p_identity p))) as [E|_]; [|by apply IH]. destruct Hq. rewrite E.
  apply list_elem_of_In, in_map_iff. exists p. split; [done|by apply list_elem_of_In].
Qed.

Lemma nodup_filter_pids (P : Process -> bool) (l : list Process) : NoDup (map (fun p => id_pid (p_identity p)) l) ->
  NoDup (map (fun p => id_pid (p_identity p)) (List.filter P l)).
Proof.
  induction l as [|p l IH]; cbn; [done|]. intros [Hp Hl]%NoDup_cons. destruct (P p); [|by apply IH]. cbn. apply NoDup_cons. split; [|by apply IH].
  intros (q & Eq & Hq)%list_elem_of_In%in_map_iff. apply Hp. apply list_elem_of_In, in_map_iff. exists q. split; [done|].
  by apply filter_In in Hq as [? _].
Qed.

(** The machine only loses processes of a group whose leader is recorded. *)
Definition in_recorded_group m l p : Prop :=
  exists q, q ∈ m_procs m /\ p_identity q ∈ l /\ id_pgid (p_identity q) = id_pid (p_identity q) /\ in_group (id_pid (p_identity q)) p = true.

Record reap_effect m l m' (retained : list RpcChildIdentity) : Prop := {
  re_procs : exists P, m_procs m' = List.filter P (m_procs m);
  re_blind : m_blind m' = m_blind m /\ m_denied m' = m_denied m;
  re_killed : forall p, p ∈ m_procs m -> p ∉ m_procs m' -> in_recorded_group m l p;
  re_retained : retained `sublist_of` l;
}.

Lemma reap_effect_later m m1 m' child l retained retained' P : m_procs m1 = List.filter P (m_procs m) -> m_blind m1 = m_blind m -> m_denied m1 = m_denied m ->
  (forall p, p ∈ m_procs m -> p ∉ m_procs m1 -> in_recorded_group m (child :: l) p) -> retained' `sublist_of` child :: l ->
  reap_effect m1 l m' retained -> reap_effect m (child :: l) m' retained'.
Proof.
  intros Hp Hb Hd Hk Hr [[Q HQ] [Hb' Hd'] Hk' _]. constructor; [|split; congruence| |done].
  - exists (fun p => P p && Q p). rewrite HQ, Hp. clear. induction (m_procs m) as [|p l IH]; [done|]. cbn. destruct (P p); cbn; [destruct (Q p)|]; by rewrite ?IH.
  - intros p Hin Hout. destruct (decide (p ∈ m_procs m1)) as [H1|H1]; [|by apply Hk]. destruct (Hk' p H1 Hout) as (q & Hq & Hl & Hrest).
    exists q. split_and!; [|by apply list_elem_of_further|apply Hrest..]. rewrite Hp in Hq. by apply elem_of_filter_list in Hq as [? _].
Qed.

Lemma reap_each_effect l m : let '(m', _, _, retained) := reap_each m l in reap_effect m l m' retained.
Proof.
  revert m. induction l as [|recorded l IH]; intros m; cbn.
  { constructor; [exists (fun _ => true); by rewrite filter_true|done|done|constructor]. }
  assert (forall m1 P (keep : bool), m_procs m1 = List.filter P (m_procs m) -> m_blind m1 = m_blind m -> m_denied m1 = m_denied m ->
    (forall p, p ∈ m_procs m -> p ∉ m_procs m1 -> in_recorded_group m (recorded :: l) p) ->
    let '(m', _, _, retained) := reap_each m1 l in reap_effect m (recorded :: l) m' (if keep then recorded :: retained else retained)) as Hgo.
  { intros m1 P keep Hp Hb Hd Hk. specialize (IH m1). destruct (reap_each m1 l) as [[[m' killed] skipped] retained].
    refine (reap_effect_later m m1 m' recorded l retained _ P Hp Hb Hd Hk _ IH). destruct IH as [_ _ _ Hr]. destruct keep; by constructor. }
  assert (m_procs m = List.filter (fun _ => true) (m_procs m)) as Hid by (by rewrite filter_true).
  pose proof (Hgo m _ false Hid eq_refl eq_refl ltac:(done)) as Hnone. pose proof (Hgo m _ true Hid eq_refl eq_refl ltac:(done)) as Hskip.
  destruct (inspect m (id_pid recorded)) as [current|] eqn:Ei; [|exact Hnone].
  destruct (sameIdentity recorded current) eqn:Es; cbn [negb orb]; [|by destruct (reap_each m l) as [[[? ?] ?] ?]].
  apply sameIdentity_eq in Es as <-. destruct (Z.eqb_spec (id_pgid recorded) (id_pid recorded)) as [Eg|]; cbn [negb]; [|by destruct (reap_each m l) as [[[? ?] ?] ?]].
  unfold killGroup. destruct (existsb _ (m_denied m)); [by destruct (reap_each m l) as [[[? ?] ?] ?]|]. destruct (existsb _ (m_procs m)); [|exact Hnone].
  set (m1 := mkMachine _ _ _). specialize (Hgo m1 (fun p => negb (in_group (id_pgid recorded) p)) false eq_refl eq_refl eq_refl).
  destruct (reap_each m1 l) as [[[m' killed] skipped] retained]. apply Hgo. intros p Hp Hout.
  apply inspect_some in Ei as (q & Hq & Eq). apply find_process_some in Hq as [Hq _]. exists q. rewrite Eq. split_and!; [done|apply list_elem_of_here|done|].
  rewrite <- Eg. destruct (in_group (id_pgid recorded) p) eqn:Eing; [done|]. destruct Hout. apply elem_of_filter_list. by rewrite Eing.
Qed.

Lemma reap_cases m file r : reap m file = Some r ->
  (rd_machine r = m /\ rd_file r = file) \/
  exists state retained, registry_read file = Some (Some state) /\ rd_file r = registry_write (rs_owner state) retained /\
    reap_effect m (rs_children state) (rd_machine r) retained /\
    match inspect m (id_pid (rs_owner state)) with Some live => live ≠ rs_owner state | None => True end.
Proof.
  unfold reap. destruct (registry_read file) as [[state|]|]; [|intros [= <-]; by left|done]. cbv zeta.
  destruct (match inspect m _ with Some live => _ | None => _ end) eqn:Ea; [intros [= <-]; by left|].
  pose proof (reap_each_effect (rs_children state) m) as He. destruct (reap_each m (rs_children state)) as [[[m' killed] skipped] retained].
  intros [= <-]. right. exists state, retained. split_and!; [done|done|done|]. destruct (inspect m _); [|done]. intros ->. by rewrite (proj2 (sameIdentity_eq _ _)) in Ea.
Qed.

Lemma written_state w state : hosts_ok w -> registry_read (h_file w) = Some (Some state) ->
  forall child, child ∈ rs_children state -> exists p, (rs_owner state, p) ∈ h_registered w /\ p_identity p = child.
Proof. intros [_ _ _ _ (owner & l & E & Hl)]. rewrite E. intros ->%read_write_inv. done. Qed.

(** The file after an operation that keeps recorded children of the same owner. *)
Lemma hosts_ok_file w file owner l : hosts_ok w -> file = registry_write owner l ->
  (forall child, child ∈ l -> exists p, (owner, p) ∈ h_registered w /\ p_identity p = child) -> hosts_ok (set_file w file).
Proof. intros [H1 H2 H3 H4 _] -> Hl. constructor; try done. by exists owner, l. Qed.

Lemma hosts_ok_machine w m P : hosts_ok w -> m_procs m = List.filter P (m_procs (h_machine w)) -> hosts_ok (set_machine w m).
Proof.
  intros [H1 H2 H3 H4 H5] Hm. constructor; try done; cbn; rewrite Hm.
  - intros p [Hp _]%elem_of_filter_list. by apply H1.
  - by apply nodup_filter_pids.
Qed.

Lemma register_ok_file w owner pid file i p : hosts_ok w -> register_child owner (h_machine w) (h_file w) pid = (file, Some i) ->
  find_process (h_machine w) pid = Some p -> hosts_ok (mkHosts (h_machine w) file (h_history w) (h_registered w ++ [(owner, p)])).
Proof.
  intros Hw Hr Hp. pose proof Hw as [H1 H2 H3 H4 _]. apply find_process_some in Hp as Hin. destruct Hin as [Hin _].
  constructor; cbn; try done.
  { intros o q [Hq|[= -> ->]%list_elem_of_singleton]%elem_of_app; [by eapply H4|by apply H1]. }
  unfold register_child in Hr. destruct (inspect (h_machine w) pid) as [i'|] eqn:Ei; [|done]. destruct (_ || _); [done|].
  destruct (registry_read (h_file w)) as [state|] eqn:Er; [|done]. cbv zeta in Hr.
  destruct (match state with Some s => _ | None => _ end) eqn:Ef; [done|]. injection Hr as <- <-. eexists _, _. split; [done|].
  apply inspect_some in Ei as (p' & Hp' & <-). rewrite Hp in Hp'. injection Hp' as <-.
  intros child [[Hc _]%elem_of_filter_list| ->%list_elem_of_singleton]%elem_of_app; [|exists p; split; [apply elem_of_app; right; by apply list_elem_of_singleton|done]].
  destruct state as [state|]; [|by apply not_elem_of_nil in Hc]. destruct (written_state w state Hw Er child Hc) as (q & Hq & Eq).
  exists q. split; [|done]. apply elem_of_app. left. apply andb_false_iff in Ef as [Es|Es].
  - apply negb_false_iff, sameIdentity_eq in Es as <-. done.
  - apply Z.ltb_ge in Es. destruct (rs_children state); [by apply not_elem_of_nil in Hc|rewrite len_cons in Es; pose proof (len_nonneg l); lia].
Qed.

Lemma hosts_step_ok w w' : hosts_ok w -> hosts_step w w' -> hosts_ok w'.
Proof.
  intros Hw Hs. pose proof Hw as [H1 H2 H3 H4 (owner0 & l0 & E0 & Hl0)].
  destruct Hs as [w i Hpid Hnew p|w p|w blind denied|w owner pid file i p Hrun Hr Hp|w owner i file Hu|w r Hr].
  - constructor; cbn.
    + intros q [Hq| ->%list_elem_of_singleton]%elem_of_app; apply elem_of_app; [left; by apply H1|right; by apply list_elem_of_singleton].
    + rewrite map_app. apply NoDup_app. split_and!; [done| |apply NoDup_singleton]. cbn. intros x (q & <- & Hq)%list_elem_of_In%in_map_iff Hx%list_elem_of_singleton.
      apply list_elem_of_In in Hq. by apply (Hpid q Hq).
    + intros a b [Ha| ->%list_elem_of_singleton]%elem_of_app [Hb| ->%list_elem_of_singleton]%elem_of_app E; [by apply H3|..|done].
      * by destruct (Hnew a Ha).
      * by destruct (Hnew b Hb).
    + intros o q Hq. apply elem_of_app. left. by eapply H4.
    + by exists owner0, l0.
  - by eapply hosts_ok_machine.
  - apply (hosts_ok_machine w _ (fun _ => true)); [done|]. by rewrite filter_true.
  - by eapply register_ok_file.
  - unfold unregister_child in Hu. destruct (registry_read (h_file w)) as [[state|]|] eqn:Er; [|injection Hu as <-; by destruct w|done].
    destruct (negb _); injection Hu as <-; [by destruct w|]. eapply hosts_ok_file; [done|done|].
    intros child [Hc _]%elem_of_filter_list. by apply (written_state w state).
  - destruct (reap_cases _ _ _ Hr) as [[-> ->]|(state & retained & Er & -> & [[P HP] _ _ Hsub] & _)]; [by destruct w|].
    pose proof (hosts_ok_machine w (rd_machine r) P Hw HP) as Hm. apply (hosts_ok_file _ _ (rs_owner state) retained Hm eq_refl).
    intros child Hc. apply (written_state w state Hw Er). by eapply sublist_subseteq.
Qed.

Lemma hosts_run_ok w : rtc hosts_step no_hosts w -> hosts_ok w.
Proof.
  intros Hrun. assert (hosts_ok no_hosts) as Hno.
  { constructor; cbn; [by intros p ?%not_elem_of_nil|apply NoDup_nil_2|by intros p q ?%not_elem_of_nil|by intros o p ?%not_elem_of_nil|].
    exists (mkIdentity 0 0 [] []), []. split; [done|by intros c ?%not_elem_of_nil]. }
  revert Hno. induction Hrun as [|x y z Hxy _ IH]; [done|]. intros Hx. apply IH. by eapply hosts_step_ok.
Qed.


(** ** Samples *)

Definition sample_sha : jstr := repeat 0x61%N 64.
Definition sample_process (pid : Z) (startedAt : string) : RpcChildIdentity := mkIdentity pid pid (js startedAt) sample_sha.
Definition old_host : RpcChildIdentity := sample_process 10 "Mon".
Definition new_host : RpcChildIdentity := sample_process 11 "Tue".
Definition machine_of (l : list RpcChildIdentity) : Machine := mkMachine (map (mkProcess 0) l) [] [].

(** The pid of a dead host's dead child was given to another process.  Its entry is retained in the name of the dead host, and every
    registration of the new host is refused. *)
Example reused_pid_blocks_registration :
  let m := machine_of [new_host; sample_process 20 "Tue"; sample_process 30 "Tue"] in
  let file := registry_write old_host [sample_process 20 "Mon"] in
  rd_skipped <$> reap m file = Some [20] /\ rd_killed <$> reap m file = Some [] /\
  (r ← reap m file; snd (register_child new_host m (rd_file r) 30)) = None /\ snd (register_child new_host m NoFile 30) = Some (sample_process 30 "Tue").
Proof. vm_compute. auto. Qed.

(** The 257th child is registered, and from then on the file cannot be read. *)
Example full_registry_unreadable :
  let children := map (fun n => sample_process (100 + Z.of_nat n) "Mon") (seq 0 256) in
  let m := machine_of [old_host; sample_process 30 "Mon"] in
  registry_read (registry_write old_host children) = Some (Some (mkRegistry old_host children)) /\
  let (file, registered) := register_child old_host m (registry_write old_host children) 30 in
  registered = Some (sample_process 30 "Mon") /\ registry_read file = None /\ unregister_child old_host file (sample_process 30 "Mon") = None.
Proof. vm_compute. auto. Qed.

(** When [ps] fails for a host that runs, its children are killed. *)
Example blind_reap_kills_live_children :
  let m := mkMachine (map (mkProcess 0) [old_host; sample_process 20 "Mon"]) [10] [] in
  rd_killed <$> reap m (registry_write old_host [sample_process 20 "Mon"]) = Some [20].
Proof. vm_compute. auto. Qed.

(** A host starts a child, registers it and exits. *)
Definition started w i : Hosts :=
  let p := mkProcess (length (h_history w)) i in
  mkHosts (mkMachine (m_procs (h_machine w) ++ [p]) (m_blind (h_machine w)) (m_denied (h_machine w))) (h_file w) (h_history w ++ [p]) (h_registered w).
Definition both : Hosts := started (started no_hosts old_host) (sample_process 20 "Mon").
Definition recorded_child : Hosts :=
  mkHosts (h_machine both) (fst (register_child old_host (h_machine both) (h_file both) 20)) (h_history both)
    (h_registered both ++ [(old_host, mkProcess 1 (sample_process 20 "Mon"))]).
Definition orphaned : Hosts :=
  set_machine recorded_child (mkMachine (List.filter (fun q => negb (Nat.eqb (p_serial q) 0)) (m_procs (h_machine recorded_child))) [] []).
Definition reaped_child : Reaped := default (mkReaped (machine_of []) NoFile [] []) (reap (h_machine orphaned) (h_file orphaned)).

Lemma orphaned_run : rtc hosts_step no_hosts orphaned.
Proof.
  eapply rtc_l; [apply (process_starts no_hosts old_host); intros p Hp; by apply not_elem_of_nil in Hp|].
  eapply rtc_l; [apply (process_starts (started no_hosts old_host) (sample_process 20 "Mon"))|].
  1-2: intros p ->%list_elem_of_singleton; discriminate.
  eapply rtc_l; [apply (host_registers both old_host 20 (fst (register_child old_host (h_machine both) (h_file both) 20)) (sample_process 20 "Mon")
    (mkProcess 1 (sample_process 20 "Mon")))|].
  - exists (mkProcess 0 old_host). split; [apply list_elem_of_here|done].
  - vm_compute. reflexivity.
  - reflexivity.
  - eapply rtc_l; [apply (process_exits recorded_child (mkProcess 0 old_host))|]. apply rtc_refl.
Qed.

