(* ===== verification/ImageUpload.v ===== *)
(** * ImageUpload: images uploaded for prompts
    ([packages/host-service/src/image-upload-store.ts])

    Every method runs its body in [#run], one after the other, so a method is one step on the
    store.  A record keeps the bytes of its file.  The file system answers through arguments:
    [rm] tells for which uploads removing the file succeeds. *)
From stdpp Require Import base tactics option list numbers strings sets.
From S2P Require Import Prelude JsMap JsString JsValue.

Definition IMAGE_UPLOAD_MAX_BYTES : Z := 20 * 1024 * 1024.
Definition PROMPT_IMAGE_MAX_COUNT : Z := 8.

Inductive PromptImageMimeType := Png | Jpeg | Gif | Webp.
#[export] Instance PromptImageMimeType_eq_dec : EqDecision PromptImageMimeType.
Proof. solve_decision. Defined.

Inductive ImageUploadError := image_conflict | image_incomplete | image_invalid | image_not_found | image_quota_exceeded | io_error.

(** [ManagedRpcImageRef] *)
Record ManagedRpcImageRef := mkImageRef { mi_imageId : jstr; mi_mimeType : PromptImageMimeType; mi_size : Z; mi_sha256 : jstr }.

Record UploadRecord := mkUpload {
  up_ref : ManagedRpcImageRef;
  up_connectionId : jstr;
  up_sessionId : jstr;
  up_file : list N;                       (* the bytes of the file *)
  up_hashed : list N;                     (* the bytes given to [hasher] *)
  up_received : Z;
  up_updatedAt : Z;
  up_prefix : list N;
  up_complete : bool;
  up_consumed : bool;
  up_cleanupPending : bool;
}.
Record Reservation := mkUploadReservation { rv_bytes : Z; rv_uploads : Z }.

Record ImageUploadStore := mkImageStore {
  is_uploads : jsmap jstr UploadRecord;
  is_reservations : jsmap jstr Reservation;
  is_globalBytes : Z;
  is_started : bool;
}.
Record ImageUploadLimits := mkImageLimits {
  il_ttlMs : Z;
  il_maxConnectionBytes : Z;
  il_maxConnectionUploads : Z;
  il_maxGlobalBytes : Z;
  il_maxGlobalUploads : Z;
}.
(** The defaults of the constructor. *)
Definition default_image_limits : ImageUploadLimits :=
  mkImageLimits (10 * 60000) (PROMPT_IMAGE_MAX_COUNT * IMAGE_UPLOAD_MAX_BYTES) PROMPT_IMAGE_MAX_COUNT (512 * 1024 * 1024) 64.
Definition new_image_store : ImageUploadStore := mkImageStore [] [] 0 false.
Implicit Types (s : ImageUploadStore) (u : UploadRecord) (rm : jstr -> bool).

Definition up_id u : jstr := mi_imageId (up_ref u).
Definition up_size u : Z := mi_size (up_ref u).

Definition set_upload s u : ImageUploadStore := mkImageStore (map_set (up_id u) u (is_uploads s)) (is_reservations s) (is_globalBytes s) (is_started s).

(** [sniffMimeType] *)
Definition sniffMimeType (prefix : list N) : option PromptImageMimeType :=
  if starts_with [0x89; 0x50; 0x4E; 0x47; 0x0D; 0x0A; 0x1A; 0x0A]%N prefix then Some Png
  else if starts_with [0xFF; 0xD8; 0xFF]%N prefix then Some Jpeg
  else
    let signature := utf8_decode prefix in
    if starts_with (js "GIF87a") signature || starts_with (js "GIF89a") signature then Some Gif
    else if starts_with (js "RIFF") signature && jstr_eqb (take 4 (drop 8 signature)) (js "WEBP") then Some Webp
    else None.

(** ** Removing *)

(** [#detach] *)
Definition detach s u : ImageUploadStore :=
  mkImageStore (map_delete (up_id u) (is_uploads s))
    (match map_get (up_connectionId u) (is_reservations s) with
     | Some r =>
         if rv_uploads r - 1 =? 0 then map_delete (up_connectionId u) (is_reservations s)
         else map_set (up_connectionId u) (mkUploadReservation (rv_bytes r - up_size u) (rv_uploads r - 1)) (is_reservations s)
     | None => is_reservations s
     end)
    (is_globalBytes s - up_size u) (is_started s).

Definition pending_cleanup u : UploadRecord :=
  mkUpload (up_ref u) (up_connectionId u) (up_sessionId u) (up_file u) (up_hashed u) (up_received u) (up_updatedAt u) (up_prefix u) (up_complete u)
    (up_consumed u) true.
Definition set_consumed u : UploadRecord :=
  mkUpload (up_ref u) (up_connectionId u) (up_sessionId u) (up_file u) (up_hashed u) (up_received u) (up_updatedAt u) (up_prefix u) (up_complete u)
    true (up_cleanupPending u).

(** [#remove] of the record under an id: whether it succeeded. *)
Definition remove_upload s rm (id : jstr) : ImageUploadStore * bool :=
  match map_get id (is_uploads s) with
  | None => (s, true)
  | Some u => if rm id then (detach s u, true) else (set_upload s (pending_cleanup u), false)
  end.

(** A loop over the records that removes those that satisfy [P]. *)
Definition remove_where s rm (P : UploadRecord -> bool) : ImageUploadStore :=
  fold_left (fun s kv => if P (snd kv) then fst (remove_upload s rm (fst kv)) else s) (is_uploads s) s.

Section Store.
Context (sha256_hex : list N -> jstr) (limits : ImageUploadLimits).

(** [#sweepExpiredLocked] *)
Definition sweepExpired s rm (now : Z) : ImageUploadStore :=
  remove_where s rm (fun u => up_cleanupPending u || (negb (up_consumed u) && (up_updatedAt u <=? now - il_ttlMs limits))).

(** ** Uploading *)

Definition reserved_of s (connectionId : jstr) : Reservation := default (mkUploadReservation 0 0) (map_get connectionId (is_reservations s)).

(** [begin]; [id] is the new random identifier, [rootOk] and [openOk] tell whether the root
    is in order and the new file could be created. *)
Definition begin_upload s rm (now : Z) (id connectionId sessionId : jstr) (mimeType : PromptImageMimeType) (size : Z) (sha256 : jstr) (rootOk openOk : bool)
    : ImageUploadStore * (jstr + ImageUploadError) :=
  if negb (is_started s) || negb rootOk then (s, inr io_error)
  else
    let s := sweepExpired s rm now in
    let reserved := reserved_of s connectionId in
    if (il_maxConnectionUploads limits <=? rv_uploads reserved) || (il_maxConnectionBytes limits <? rv_bytes reserved + size) ||
       (il_maxGlobalUploads limits <=? map_size (is_uploads s)) || (il_maxGlobalBytes limits <? is_globalBytes s + size)
    then (s, inr image_quota_exceeded)
    else if negb openOk then (s, inr io_error)
    else
      let u := mkUpload (mkImageRef id mimeType size sha256) connectionId sessionId [] [] 0 now [] false false false in
      (mkImageStore (map_set id u (is_uploads s)) (map_set connectionId (mkUploadReservation (rv_bytes reserved + size) (rv_uploads reserved + 1)) (is_reservations s))
         (is_globalBytes s + size) (is_started s), inl id).

(** [#owned] *)
Definition owned s (connectionId sessionId id : jstr) : option UploadRecord :=
  match map_get id (is_uploads s) with
  | Some u => if up_consumed u || up_cleanupPending u || negb (jstr_eqb (up_connectionId u) connectionId) || negb (jstr_eqb (up_sessionId u) sessionId)
              then None else Some u
  | None => None
  end.

(** [handle.write(data, 0, n, offset)] of which [n] bytes were written. *)
Definition file_write (file : list N) (offset : Z) (data : list N) : list N :=
  take (Z.to_nat offset) file ++ data ++ drop (Z.to_nat offset + length data) file.
Definition file_read (file : list N) (offset n : Z) : list N := take (Z.to_nat n) (drop (Z.to_nat offset) file).

Definition grown_prefix (prefix data : list N) : list N :=
  if len prefix <? 12 then prefix ++ take (Z.to_nat (Z.min 12 (len prefix + len data) - len prefix)) data else prefix.

Definition with_file u (file : list N) : UploadRecord :=
  mkUpload (up_ref u) (up_connectionId u) (up_sessionId u) file (up_hashed u) (up_received u) (up_updatedAt u) (up_prefix u) (up_complete u) (up_consumed u)
    (up_cleanupPending u).
Definition touched u (now : Z) : UploadRecord :=
  mkUpload (up_ref u) (up_connectionId u) (up_sessionId u) (up_file u) (up_hashed u) (up_received u) now (up_prefix u) (up_complete u) (up_consumed u)
    (up_cleanupPending u).
Definition appended_chunk u (now : Z) (data : list N) : UploadRecord :=
  mkUpload (up_ref u) (up_connectionId u) (up_sessionId u) (file_write (up_file u) (up_received u) data) (up_hashed u ++ data) (up_received u + len data) now
    (grown_prefix (up_prefix u) data) (up_complete u) (up_consumed u) (up_cleanupPending u).
Definition completed u : UploadRecord :=
  mkUpload (up_ref u) (up_connectionId u) (up_sessionId u) (up_file u) (up_hashed u) (up_received u) (up_updatedAt u) (up_prefix u) true (up_consumed u)
    (up_cleanupPending u).

Definition matches u : bool := jstr_eqb (sha256_hex (up_hashed u)) (mi_sha256 (up_ref u)) && bool_decide (sniffMimeType (up_prefix u) = Some (mi_mimeType (up_ref u))).

(** The end of an upload. *)
Definition finish_upload s rm u (syncOk : bool) : ImageUploadStore * (Z * bool + ImageUploadError) :=
  if negb (up_received u =? up_size u) then (set_upload s u, inl (up_received u, up_complete u))
  else if negb syncOk then (set_upload s u, inr io_error)
  else if negb (matches u) then (fst (remove_upload (set_upload s u) rm (up_id u)), inr image_invalid)
  else (set_upload s (completed u), inl (up_received u, true)).

(** [chunk]: [ioOk] tells whether the read or the write of the file returned, [written] the number of bytes the write wrote. *)
Definition upload_chunk s rm (now : Z) (connectionId sessionId id : jstr) (offset : Z) (data : list N) (written : Z) (ioOk syncOk : bool)
    : ImageUploadStore * (Z * bool + ImageUploadError) :=
  if negb (is_started s) then (s, inr io_error)
  else
    let s := sweepExpired s rm now in
    match owned s connectionId sessionId id with
    | None => (s, inr image_not_found)
    | Some u =>
        let end_ := offset + len data in
        if up_size u <? end_ then (s, inr image_invalid)
        else if up_received u <? offset then (s, inr image_conflict)
        else if offset <? up_received u then
          if up_received u <? end_ then (s, inr image_conflict)
          else if negb ioOk then (s, inr io_error)
          else if negb (bool_decide (file_read (up_file u) offset (len data) = data)) then (s, inr image_conflict)
          else (set_upload s (touched u now), inl (up_received u, up_complete u))
        else if up_complete u then (s, inr image_conflict)
        else if negb ioOk || negb (written =? len data) then
          (set_upload s (with_file u (file_write (up_file u) offset (take (Z.to_nat written) data))), inr (if ioOk then image_invalid else io_error))
        else finish_upload s rm (appended_chunk u now data) syncOk
    end.

(** ** Using *)

(** The records of the references, or the first error. *)
Fixpoint resolve_refs s (connectionId sessionId : jstr) (seen refs : list jstr) : list UploadRecord + ImageUploadError :=
  match refs with
  | [] => inl []
  | id :: rest =>
      if existsb (jstr_eqb id) seen then inr image_conflict
      else match owned s connectionId sessionId id with
           | None => inr image_not_found
           | Some u => if negb (up_complete u) then inr image_incomplete
                       else match resolve_refs s connectionId sessionId (seen ++ [id]) rest with inl l => inl (u :: l) | inr e => inr e end
           end
  end.

Definition consume s rm (now : Z) (connectionId sessionId : jstr) (refs : list jstr) : ImageUploadStore * (list ManagedRpcImageRef + ImageUploadError) :=
  if negb (is_started s) then (s, inr io_error)
  else
    let s := sweepExpired s rm now in
    if (len refs =? 0) || (PROMPT_IMAGE_MAX_COUNT <? len refs) then (s, inr image_invalid)
    else match resolve_refs s connectionId sessionId [] refs with
         | inr e => (s, inr e)
         | inl records => (fold_left (fun s u => set_upload s (set_consumed u)) records s, inl (map up_ref records))
         end.

Definition discard s rm (now : Z) (connectionId sessionId id : jstr) : ImageUploadStore * (bool + ImageUploadError) :=
  if negb (is_started s) then (s, inr io_error)
  else
    let s := sweepExpired s rm now in
    match map_get id (is_uploads s) with
    | Some u =>
        if up_consumed u || negb (jstr_eqb (up_connectionId u) connectionId) || negb (jstr_eqb (up_sessionId u) sessionId) then (s, inl false)
        else let (s, ok) := remove_upload s rm id in (s, if ok then inl true else inr io_error)
    | None => (s, inl false)
    end.

Definition release_image s rm (id : jstr) : ImageUploadStore :=
  match map_get id (is_uploads s) with
  | Some u => if up_consumed u then fst (remove_upload (set_upload s (pending_cleanup u)) rm id) else s
  | None => s
  end.
Definition release s rm (refs : list jstr) : ImageUploadStore := fold_left (fun s id => release_image s rm id) refs s.
Definition cleanupConnection s rm (connectionId : jstr) : ImageUploadStore :=
  remove_where s rm (fun u => jstr_eqb (up_connectionId u) connectionId && negb (up_consumed u)).
Definition cleanupSession s rm (sessionId : jstr) : ImageUploadStore :=
  remove_where s rm (fun u => jstr_eqb (up_sessionId u) sessionId && negb (up_consumed u)).
(** [start], when the root is prepared, and [stop], whatever fails. *)
Definition start_store s : ImageUploadStore := mkImageStore (is_uploads s) (is_reservations s) (is_globalBytes s) true.
Definition stop_store s : ImageUploadStore := new_image_store.
End Store.
