(* ===== verification/ImageUploadSpec.v ===== *)
(** * ImageUploadSpec: quotas are kept and consumed images are what was declared *)
From stdpp Require Import base tactics option list numbers strings sets relations.
From S2P Require Import Prelude JsMap JsString JsValue ImageUpload.
Implicit Types (s : ImageUploadStore) (u : UploadRecord) (rm : jstr -> bool).

Section Spec.
Context (sha256_hex : list N -> jstr) (limits : ImageUploadLimits).
Context (Hlimits : 0 <= il_maxConnectionBytes limits /\ 0 <= il_maxConnectionUploads limits /\ 0 <= il_maxGlobalBytes limits /\ 0 <= il_maxGlobalUploads limits).
Abbreviation matches := (matches sha256_hex).

(** ** One upload *)

(** What was received is at the start of the file and was hashed; a complete upload is as declared. *)
Record upload_ok u : Prop := {
  uo_range : 0 <= up_received u <= up_size u;
  uo_hashed : len (up_hashed u) = up_received u;
  uo_file : take (length (up_hashed u)) (up_file u) = up_hashed u;
  uo_short : len (up_file u) <= up_size u;
  uo_prefix : up_prefix u = take 12 (up_hashed u);
  uo_complete : up_complete u = true -> up_received u = up_size u /\ matches u = true;
  uo_consumed : up_consumed u = true -> up_complete u = true;
}.

Lemma grown_prefix_eq (hashed data : list N) : grown_prefix (take 12 hashed) data = take 12 (hashed ++ data).
Proof.
  unfold grown_prefix. destruct (Z.ltb_spec (len (take 12 hashed)) 12) as [Hl|Hl].
  - assert (length hashed < 12)%nat as Hh by (unfold len in Hl; rewrite length_take in Hl; lia).
    rewrite (take_ge hashed) by lia. rewrite take_app_ge by lia. f_equal. unfold len.
    destruct (Z.min_spec 12 (Z.of_nat (length hashed) + Z.of_nat (length data))) as [[? ->]|[? ->]]; [f_equal; lia|].
    rewrite !take_ge by lia. done.
  - assert (12 <= length hashed)%nat as Hh by (unfold len in Hl; rewrite length_take in Hl; lia). by rewrite take_app_le.
Qed.

Lemma length_file_write (file : list N) offset data : 0 <= offset <= len file ->
  len (file_write file offset data) = Z.max (len file) (offset + len data).
Proof. intros Ho. unfold file_write, len in *. rewrite !length_app, length_take, length_drop. lia. Qed.

Lemma take_file_write (file : list N) offset data : 0 <= offset <= len file ->
  take (Z.to_nat offset + length data) (file_write file offset data) = take (Z.to_nat offset) file ++ data.
Proof.
  intros Ho. unfold file_write. rewrite app_assoc, take_app_le by (rewrite length_app, length_take; unfold len in Ho; lia).
  apply take_ge. rewrite length_app, length_take. lia.
Qed.

Lemma received_in_file u : upload_ok u -> up_received u = len (up_hashed u) /\ 0 <= up_received u <= len (up_file u).
Proof.
  intros [H1 H2 H3 H4 _ _ _]. split; [done|]. split; [lia|]. rewrite <- H2. unfold len. rewrite <- H3. rewrite length_take. lia.
Qed.

(** Bytes written at the received position leave what is before it. *)
Lemma write_keeps_received u data : upload_ok u -> take (length (up_hashed u)) (file_write (up_file u) (up_received u) data) = up_hashed u.
Proof.
  intros Hu. destruct (received_in_file u Hu) as [Er Hr]. unfold file_write. rewrite Er. unfold len. rewrite Nat2Z.id.
  rewrite take_app_le; [rewrite take_take, Nat.min_id; apply Hu|]. rewrite length_take. unfold len in *. lia.
Qed.

Lemma partial_write_ok u data : upload_ok u -> up_received u + len data <= up_size u -> up_complete u = false ->
  upload_ok (with_file u (file_write (up_file u) (up_received u) data)).
Proof.
  intros Hu Hend Hc. destruct (received_in_file u Hu) as [Er Hr]. pose proof Hu as [H1 H2 H3 H4 H5 H6 H7].
  constructor; try done; [exact (write_keeps_received u data Hu)|]. cbn. rewrite length_file_write by done. unfold up_size in *. cbn. lia.
Qed.

Lemma appended_ok u now data : upload_ok u -> up_received u + len data <= up_size u -> up_complete u = false -> upload_ok (appended_chunk u now data).
Proof.
  intros Hu Hend Hc. destruct (received_in_file u Hu) as [Er Hr]. pose proof Hu as [H1 H2 H3 H4 H5 H6 H7].
  constructor; cbn.
  - pose proof (len_nonneg data). unfold up_size in *. cbn. lia.
  - rewrite len_app. lia.
  - rewrite length_app. replace (length (up_hashed u)) with (Z.to_nat (up_received u)) by (rewrite Er; unfold len; lia).
    rewrite take_file_write by done. f_equal. rewrite Er. unfold len. rewrite Nat2Z.id. done.
  - rewrite length_file_write by done. unfold up_size in *. cbn. lia.
  - rewrite H5. apply grown_prefix_eq.
  - by rewrite Hc.
  - intros E. by rewrite (H7 E) in Hc.
Qed.

Lemma completed_ok u : upload_ok u -> up_received u = up_size u -> matches u = true -> upload_ok (completed u).
Proof. intros [H1 H2 H3 H4 H5 H6 H7] E M. by constructor. Qed.
Lemma touched_ok u now : upload_ok u -> upload_ok (touched u now).
Proof. intros [H1 H2 H3 H4 H5 H6 H7]. by constructor. Qed.
Lemma pending_ok u : upload_ok u -> upload_ok (pending_cleanup u).
Proof. intros [H1 H2 H3 H4 H5 H6 H7]. by constructor. Qed.
Lemma set_consumed_ok u : upload_ok u -> up_complete u = true -> upload_ok (set_consumed u).
Proof. intros [H1 H2 H3 H4 H5 H6 H7] Hc. by constructor. Qed.

(** ** The accounts *)

Definition of_connection (c : jstr) u : bool := jstr_eqb (up_connectionId u) c.
Definition bytes_of (c : jstr) (m : jsmap jstr UploadRecord) : Z := map_sum (fun u => if of_connection c u then up_size u else 0) m.
Definition count_of (c : jstr) (m : jsmap jstr UploadRecord) : Z := map_sum (fun u => if of_connection c u then 1 else 0) m.
Definition total_bytes (m : jsmap jstr UploadRecord) : Z := map_sum up_size m.

Record store_ok s : Prop := {
  so_wf : map_wf (is_uploads s);
  so_upload : forall k u, map_get k (is_uploads s) = Some u -> up_id u = k /\ upload_ok u;
  so_global : is_globalBytes s = total_bytes (is_uploads s);
  so_reserved : forall c, map_get c (is_reservations s) =
    if count_of c (is_uploads s) =? 0 then None else Some (mkUploadReservation (bytes_of c (is_uploads s)) (count_of c (is_uploads s)));
  so_quota : map_size (is_uploads s) <= il_maxGlobalUploads limits /\ total_bytes (is_uploads s) <= il_maxGlobalBytes limits;
  so_connection : forall c, count_of c (is_uploads s) <= il_maxConnectionUploads limits /\ bytes_of c (is_uploads s) <= il_maxConnectionBytes limits;
}.

Lemma count_nonneg c m : 0 <= count_of c m.
Proof. apply map_sum_nonneg. intros u. by destruct (of_connection c u). Qed.

(** No uploads of a connection, no bytes. *)
Lemma no_count_no_bytes c m : count_of c m = 0 -> bytes_of c m = 0.
Proof.
  unfold count_of, bytes_of, map_sum. induction m as [|[k u] m IH]; [done|]. cbn [map]. rewrite !sumZ_cons. cbn [snd].
  assert (0 <= sumZ (map (fun kv => if of_connection c (snd kv) then 1 else 0) m)) as H by apply (count_nonneg c m). destruct (of_connection c u); lia.
Qed.

(** Replacing a record by one of the same upload. *)
Lemma set_upload_ok s u u' : store_ok s -> map_get (up_id u) (is_uploads s) = Some u -> up_ref u' = up_ref u -> up_connectionId u' = up_connectionId u ->
  upload_ok u' -> store_ok (set_upload s u').
Proof.
  intros [H1 H2 H3 H4 H5 H6] Hu Er Ec Hok. assert (up_id u' = up_id u) as Ei by (unfold up_id; by rewrite Er).
  assert (forall w : UploadRecord -> Z, w u' = w u -> map_sum w (map_set (up_id u') u' (is_uploads s)) = map_sum w (is_uploads s)) as Hsum.
  { intros w Ew. rewrite Ei, (map_sum_set_eq w _ u) by done. lia. }
  assert (forall c, of_connection c u' = of_connection c u) as Eo by (intros c; unfold of_connection; by rewrite Ec).
  assert (up_size u' = up_size u) as Es by (unfold up_size; by rewrite Er).
  constructor; cbn [set_upload is_uploads is_reservations is_globalBytes]; unfold bytes_of, count_of, total_bytes.
  - by apply map_wf_set.
  - intros k v. rewrite map_get_set. destruct (decide (k = up_id u')) as [->|]; [by intros [= <-]|apply H2].
  - by rewrite Hsum.
  - intros c. rewrite !Hsum by (by rewrite ?Eo, ?Es). apply H4.
  - rewrite Hsum by done. rewrite map_size_set. rewrite Ei. unfold map_has. rewrite Hu. done.
  - intros c. rewrite !Hsum by (by rewrite ?Eo, ?Es). apply H6.
Qed.

Lemma detach_ok s u : store_ok s -> map_get (up_id u) (is_uploads s) = Some u -> store_ok (detach s u).
Proof.
  intros [H1 H2 H3 H4 H5 H6] Hu. assert (forall w : UploadRecord -> Z, map_sum w (map_delete (up_id u) (is_uploads s)) = map_sum w (is_uploads s) - w u) as Hsum
    by (intros w; by apply map_sum_delete).
  destruct (H2 _ _ Hu) as [_ [[Hr1 Hr2] _ _ _ _ _ _]].
  assert (forall c, count_of c (map_delete (up_id u) (is_uploads s)) = count_of c (is_uploads s) - (if of_connection c u then 1 else 0)) as Hc
    by (intros c; unfold count_of; by rewrite Hsum).
  assert (forall c, bytes_of c (map_delete (up_id u) (is_uploads s)) = bytes_of c (is_uploads s) - (if of_connection c u then up_size u else 0)) as Hb
    by (intros c; unfold bytes_of; by rewrite Hsum).
  constructor; cbn [detach is_uploads is_reservations is_globalBytes].
  - by apply map_wf_delete.
  - intros k v. rewrite map_get_delete. destruct (decide _); [done|apply H2].
  - unfold total_bytes. rewrite Hsum, H3. done.
  - set (c0 := up_connectionId u). assert (of_connection c0 u = true) as E0 by apply jstr_eqb_refl.
    pose proof (count_nonneg c0 (map_delete (up_id u) (is_uploads s))) as Hpos. rewrite Hc, E0 in Hpos.
    rewrite (H4 c0). destruct (Z.eqb_spec (count_of c0 (is_uploads s)) 0) as [|Hn]; [lia|]. cbn [rv_uploads rv_bytes].
    intros c. rewrite Hc, Hb. destruct (decide (c = c0)) as [->|Hne].
    + rewrite E0. destruct (_ =? 0); [by rewrite map_get_delete_eq|by rewrite map_get_set_eq].
    + assert (of_connection c u = false) as -> by (apply bool_decide_eq_false; intros E; by apply Hne). rewrite !Z.sub_0_r.
      destruct (_ =? 0); [rewrite map_get_delete_ne by done|rewrite map_get_set_ne by done]; apply H4.
  - pose proof (map_size_delete_le (up_id u) (is_uploads s)). unfold total_bytes in *. rewrite Hsum. lia.
  - intros c. destruct (H6 c). rewrite Hc, Hb. destruct (of_connection c u); lia.
Qed.

Lemma remove_upload_ok s rm id : store_ok s -> store_ok (fst (remove_upload s rm id)).
Proof.
  intros Hs. unfold remove_upload. destruct (map_get id (is_uploads s)) as [u|] eqn:E; [|done]. destruct (so_upload _ Hs _ _ E) as [Ei Hu]. rewrite <- Ei in E.
  destruct (rm id); cbn [fst]; [by apply detach_ok|]. eapply set_upload_ok; [done|exact E|done|done|by apply pending_ok].
Qed.

Lemma remove_where_ok s rm P : store_ok s -> store_ok (remove_where s rm P).
Proof.
  unfold remove_where. generalize (is_uploads s). intros l. revert s. induction l as [|kv l IH]; intros s Hs; cbn [fold_left]; [done|].
  apply IH. destruct (P _); [by apply remove_upload_ok|done].
Qed.

(** A new upload within the quotas. *)
Lemma begin_upload_ok s rm now id c session mime size sha rootOk openOk : store_ok s -> 0 <= size -> map_get id (is_uploads (sweepExpired limits s rm now)) = None ->
  store_ok (fst (begin_upload limits s rm now id c session mime size sha rootOk openOk)).
Proof.
  intros Hs Hsize Hid. unfold begin_upload. destruct (_ || _); [done|]. cbv zeta. set (t := sweepExpired limits s rm now) in *.
  assert (store_ok t) as Ht by (by apply remove_where_ok). clearbody t. clear s Hs. destruct (_ || _) eqn:Eq; [done|]. destruct (negb openOk); [done|]. cbn [fst].
  rewrite !orb_false_iff, !Z.ltb_ge, !Z.leb_gt in Eq. destruct Eq as [[[Q1 Q2] Q3] Q4]. destruct Ht as [H1 H2 H3 H4 H5 H6].
  set (u := mkUpload _ _ _ _ _ _ _ _ _ _ _). apply map_get_none_keys in Hid as Hk.
  assert (reserved_of t c = mkUploadReservation (bytes_of c (is_uploads t)) (count_of c (is_uploads t))) as Er.
  { unfold reserved_of. rewrite H4. destruct (Z.eqb_spec (count_of c (is_uploads t)) 0) as [E|]; [|done]. cbn. by rewrite E, (no_count_no_bytes c _ E). }
  rewrite Er in *. cbn [rv_bytes rv_uploads] in *. assert (of_connection c u = true) as E0 by apply jstr_eqb_refl.
  constructor; cbn [is_uploads is_reservations is_globalBytes]; unfold bytes_of, count_of, total_bytes in *.
  - by apply map_wf_set.
  - intros k v. rewrite map_get_set. destruct (decide (k = id)) as [->|]; [|apply H2]. intros [= <-]. split; [done|]. constructor; cbn; try done; unfold len; cbn; lia.
  - rewrite map_sum_set_fresh by done. by rewrite H3.
  - intros x. rewrite !map_sum_set_fresh by done. destruct (decide (x = c)) as [->|Hne].
    + rewrite E0, map_get_set_eq. pose proof (count_nonneg c (is_uploads t)) as Hpos. unfold count_of in Hpos. destruct (Z.eqb_spec (map_sum (fun u0 => if of_connection c u0 then 1 else 0) (is_uploads t) + 1) 0); [lia|done].
    + assert (of_connection x u = false) as -> by (apply bool_decide_eq_false; intros E; by apply Hne). rewrite !Z.add_0_r, map_get_set_ne by done. apply H4.
  - rewrite map_size_set. unfold map_has. rewrite Hid. rewrite map_sum_set_fresh by done. unfold up_size at 2. cbn. lia.
  - intros x. destruct (H6 x). rewrite !map_sum_set_fresh by done. destruct (decide (x = c)) as [->|Hne].
    + rewrite E0. unfold up_size at 2. cbn. lia.
    + assert (of_connection x u = false) as -> by (apply bool_decide_eq_false; intros E; by apply Hne). lia.
Qed.

(** ** The operations *)

(** Uploads only go, and stay consumed. *)
Definition older s s' : Prop := forall k u', map_get k (is_uploads s') = Some u' ->
  exists u, map_get k (is_uploads s) = Some u /\ (up_consumed u = true -> up_consumed u' = true).

Lemma older_refl s : older s s.
Proof. intros k u Hu. eauto. Qed.
Lemma older_trans s1 s2 s3 : older s1 s2 -> older s2 s3 -> older s1 s3.
Proof. intros H12 H23 k u3 H3. destruct (H23 k u3 H3) as (u2 & H2 & C2). destruct (H12 k u2 H2) as (u1 & H1 & C1). eauto. Qed.
Lemma older_set s u u' : map_get (up_id u') (is_uploads s) = Some u -> (up_consumed u = true -> up_consumed u' = true) -> older s (set_upload s u').
Proof. intros Hu Hc k v. cbn [set_upload is_uploads]. rewrite map_get_set. destruct (decide _) as [->|]; [intros [= <-]|]; eauto. Qed.
Lemma older_remove s rm id : store_ok s -> older s (fst (remove_upload s rm id)).
Proof.
  intros Hs. unfold remove_upload. destruct (map_get id (is_uploads s)) as [u|] eqn:E; [|apply older_refl]. destruct (so_upload _ Hs _ _ E) as [Ei _].
  destruct (rm id); cbn [fst].
  - intros k v. cbn [detach is_uploads]. rewrite map_get_delete. destruct (decide _); [done|eauto].
  - rewrite <- Ei in E. by eapply older_set.
Qed.

(** A store in order, that came from [s]. *)
Definition store_after s s' : Prop := store_ok s' /\ older s s'.
Lemma store_after_refl s : store_ok s -> store_after s s.
Proof. intros Hs. split; [done|apply older_refl]. Qed.
Lemma store_after_trans s1 s2 s3 : store_after s1 s2 -> store_after s2 s3 -> store_after s1 s3.
Proof. intros [_ H1] [H2 H3]. split; [done|by eapply older_trans]. Qed.
Lemma after_set s u u' : store_ok s -> map_get (up_id u) (is_uploads s) = Some u -> up_ref u' = up_ref u -> up_connectionId u' = up_connectionId u ->
  (up_consumed u = true -> up_consumed u' = true) -> upload_ok u' -> store_after s (set_upload s u').
Proof.
  intros Hs Hu Er Ec Hc Hok. split; [by eapply set_upload_ok|]. eapply older_set; [|done]. unfold up_id in *. by rewrite Er.
Qed.
Lemma after_remove s rm id : store_ok s -> store_after s (fst (remove_upload s rm id)).
Proof. intros Hs. split; [by apply remove_upload_ok|by apply older_remove]. Qed.
Lemma after_remove_where s rm P : store_ok s -> store_after s (remove_where s rm P).
Proof.
  unfold remove_where. generalize (is_uploads s). intros l. revert s. induction l as [|kv l IH]; intros s Hs; cbn [fold_left]; [by apply store_after_refl|].
  destruct (P _); [|by apply IH]. pose proof (after_remove s rm (fst kv) Hs) as Ha. eapply store_after_trans; [done|]. apply IH, Ha.
Qed.
#[local] Hint Resolve store_after_refl after_remove after_remove_where : core.

Lemma owned_some s c session id u : store_ok s -> owned s c session id = Some u ->
  map_get (up_id u) (is_uploads s) = Some u /\ up_id u = id /\ upload_ok u /\ up_consumed u = false /\ up_connectionId u = c /\ up_sessionId u = session /\
  up_cleanupPending u = false.
Proof.
  intros Hs. unfold owned. destruct (map_get id (is_uploads s)) as [v|] eqn:E; [|done]. destruct (_ || _) eqn:Eb; [done|]. intros [= <-].
  destruct (so_upload _ Hs _ _ E) as [Ei Hv]. rewrite !orb_false_iff, !negb_false_iff in Eb. destruct Eb as [[[E1 E2] E3%bool_decide_eq_true] E4%bool_decide_eq_true].
  rewrite Ei. done.
Qed.

Lemma finish_after s rm u0 u syncOk : store_ok s -> map_get (up_id u0) (is_uploads s) = Some u0 -> up_ref u = up_ref u0 -> up_connectionId u = up_connectionId u0 ->
  up_consumed u0 = false -> upload_ok u -> store_after s (fst (finish_upload sha256_hex s rm u syncOk)).
Proof.
  intros Hs Hg Er Ec Hc Hu. assert (store_after s (set_upload s u)) as Ha by (eapply after_set; try done; by rewrite Hc).
  unfold finish_upload. destruct (Z.eqb_spec (up_received u) (up_size u)) as [E|]; cbn [negb]; [|exact Ha]. destruct (negb syncOk); [exact Ha|].
  destruct (matches u) eqn:Em; cbn [negb fst].
  - eapply after_set; try done; [by rewrite Hc|by apply completed_ok].
  - eapply store_after_trans; [exact Ha|]. apply after_remove, Ha.
Qed.

Lemma chunk_after s rm now c session id offset data written ioOk syncOk : store_ok s -> 0 <= written <= len data ->
  store_after s (fst (upload_chunk sha256_hex limits s rm now c session id offset data written ioOk syncOk)).
Proof.
  intros Hs Hw. unfold upload_chunk. destruct (negb _); [by apply store_after_refl|]. cbv zeta.
  pose proof (after_remove_where s rm (fun u => up_cleanupPending u || (negb (up_consumed u) && (up_updatedAt u <=? now - il_ttlMs limits))) Hs) as Ha.
  fold (sweepExpired limits s rm now) in Ha. set (t := sweepExpired limits s rm now) in *. clearbody t. eapply store_after_trans; [exact Ha|]. destruct Ha as [Ht _]. clear s Hs.
  destruct (owned t c session id) as [u|] eqn:Eo; [|by apply store_after_refl]. destruct (owned_some _ _ _ _ _ Ht Eo) as (Hg & Ei & Hu & Hc & _ & _).
  destruct (Z.ltb_spec (up_size u) (offset + len data)); [by apply store_after_refl|]. destruct (Z.ltb_spec (up_received u) offset); [by apply store_after_refl|].
  destruct (Z.ltb_spec offset (up_received u)).
  { destruct (_ <? _); [by apply store_after_refl|]. do 2 (destruct (negb _); [by apply store_after_refl|]). eapply after_set; try done. by apply touched_ok. }
  assert (offset = up_received u) as -> by lia. destruct (up_complete u) eqn:Ec; [by apply store_after_refl|]. destruct (_ || _).
  - eapply after_set; try done. apply partial_write_ok; [done| |done]. unfold len in *. rewrite length_take. lia.
  - eapply finish_after; try done. by apply appended_ok.
Qed.

Lemma resolve_spec s c session seen refs records : store_ok s -> resolve_refs s c session seen refs = inl records ->
  map up_id records = refs /\ NoDup refs /\ (forall id, id ∈ refs -> id ∉ seen) /\
  forall u, u ∈ records -> owned s c session (up_id u) = Some u /\ up_complete u = true.
Proof.
  intros Hs. revert seen records. induction refs as [|id refs IH]; intros seen records; cbn.
  { intros [= <-]. split_and!; [done|apply NoDup_nil_2|by intros x ?%not_elem_of_nil|by intros x ?%not_elem_of_nil]. }
  destruct (existsb (jstr_eqb id) seen) eqn:Es; [done|]. destruct (owned s c session id) as [u|] eqn:Eo; [|done].
  destruct (up_complete u) eqn:Ec; [|done]. cbn [negb]. destruct (resolve_refs _ _ _ _ refs) as [l|] eqn:Er; [|done]. intros [= <-].
  destruct (IH _ _ Er) as (H1 & H2 & H3 & H4). destruct (owned_some _ _ _ _ _ Hs Eo) as (_ & Ei & _). split_and!.
  - cbn. by rewrite H1, Ei.
  - apply NoDup_cons. split; [|done]. intros Hin. apply (H3 id Hin), elem_of_app. right. by apply list_elem_of_singleton.
  - intros x [->|Hx]%elem_of_cons Hseen; [|apply (H3 x Hx), elem_of_app; by left]. apply not_true_iff_false in Es. apply Es, existsb_exists.
    exists id. split; [by apply list_elem_of_In|apply jstr_eqb_refl].
  - intros v [->|Hv]%elem_of_cons; [by rewrite Ei|by apply H4].
Qed.

(** Marking complete uploads of the store as consumed. *)
Definition consume_all s (records : list UploadRecord) : ImageUploadStore := fold_left (fun s u => set_upload s (set_consumed u)) records s.

Lemma consume_all_get s records k : NoDup (map up_id records) ->
  (forall u, u ∈ records -> up_id u = k -> map_get k (is_uploads (consume_all s records)) = Some (set_consumed u)) /\
  (k ∉ map up_id records -> map_get k (is_uploads (consume_all s records)) = map_get k (is_uploads s)).
Proof.
  unfold consume_all. revert s. induction records as [|v l IH]; intros s Hn; cbn [fold_left map] in *; [split; [by intros u ?%not_elem_of_nil|done]|].
  apply NoDup_cons in Hn as [Hv Hn]. destruct (IH (set_upload s (set_consumed v)) Hn) as [I1 I2]. split.
  - intros u [->|Hu]%elem_of_cons Ek; [|by apply I1]. rewrite I2 by (by rewrite <- Ek). rewrite <- Ek. apply map_get_set_eq.
  - intros [Hk Hkl]%not_elem_of_cons. rewrite I2 by done. by apply map_get_set_ne.
Qed.

Lemma consume_all_after s records : store_ok s -> NoDup (map up_id records) ->
  (forall u, u ∈ records -> map_get (up_id u) (is_uploads s) = Some u /\ upload_ok u /\ up_complete u = true) -> store_after s (consume_all s records).
Proof.
  unfold consume_all. revert s. induction records as [|v l IH]; intros s Hs Hn Hl; cbn [fold_left]; [by apply store_after_refl|].
  cbn [map] in Hn. apply NoDup_cons in Hn as [Hv Hn]. destruct (Hl v (list_elem_of_here _ _)) as (Hg & Hok & Hc).
  assert (store_after s (set_upload s (set_consumed v))) as Ha by (eapply after_set; try done; by apply set_consumed_ok).
  eapply store_after_trans; [exact Ha|]. apply IH; [apply Ha|done|]. intros u Hu. destruct (Hl u (list_elem_of_further _ _ _ Hu)) as (G & O & C). split_and!; try done.
  cbn [set_upload is_uploads]. rewrite map_get_set_ne; [done|]. intros E. apply Hv. change (up_id (set_consumed v)) with (up_id v) in E. rewrite <- E.
  by apply list_elem_of_fmap_2.
Qed.

(** A successful [consume] marks the uploads of its references, which were unused uploads of that connection and session. *)
Lemma consume_spec s rm now c session refs s' out : store_ok s -> consume limits s rm now c session refs = (s', inl out) ->
  let t := sweepExpired limits s rm now in exists records,
  out = map up_ref records /\ map up_id records = refs /\ NoDup refs /\ s' = consume_all t records /\ store_after s s' /\
  forall u, u ∈ records -> owned t c session (up_id u) = Some u /\ up_complete u = true.
Proof.
  intros Hs. unfold consume. destruct (negb _); [done|]. cbv zeta.
  assert (store_after s (sweepExpired limits s rm now)) as Ha by (by apply after_remove_where). set (t := sweepExpired limits s rm now) in *. clearbody t.
  destruct (_ || _); [done|]. destruct (resolve_refs t c session [] refs) as [records|] eqn:Er; [|done]. intros [= <- <-].
  destruct (resolve_spec _ _ _ _ _ _ (proj1 Ha) Er) as (H1 & H2 & _ & H4). exists records. split_and!; try done.
  eapply store_after_trans; [exact Ha|]. apply consume_all_after; [apply Ha|by rewrite H1|]. intros u Hu. destruct (H4 u Hu) as [Ho Hc].
  by destruct (owned_some _ _ _ _ _ (proj1 Ha) Ho) as (? & _ & ? & _).
Qed.
Lemma consume_after s rm now c session refs : store_ok s -> store_after s (fst (consume limits s rm now c session refs)).
Proof.
  intros Hs. destruct (consume limits s rm now c session refs) as [s' [out|e]] eqn:E; cbn [fst]; [by destruct (consume_spec _ _ _ _ _ _ _ _ Hs E) as (? & _ & _ & _ & _ & ? & _)|].
  revert E. unfold consume. destruct (negb _); [intros [= <- _]; by apply store_after_refl|]. cbv zeta.
  assert (store_after s (sweepExpired limits s rm now)) as Ha by (by apply after_remove_where). destruct (_ || _); [by intros [= <- _]|].
  destruct (resolve_refs _ _ _ _ _); [done|]. by intros [= <- _].
Qed.

Lemma discard_after s rm now c session id : store_ok s -> store_after s (fst (discard limits s rm now c session id)).
Proof.
  intros Hs. unfold discard. destruct (negb _); [by apply store_after_refl|]. cbv zeta.
  assert (store_after s (sweepExpired limits s rm now)) as Ha by (by apply after_remove_where). set (t := sweepExpired limits s rm now) in *. clearbody t.
  eapply store_after_trans; [exact Ha|]. destruct Ha as [Ht _]. destruct (map_get id (is_uploads t)) as [u|]; [|by apply store_after_refl].
  destruct (_ || _); [by apply store_after_refl|]. pose proof (after_remove t rm id Ht) as Hr. by destruct (remove_upload t rm id).
Qed.

Lemma release_image_after s rm id : store_ok s -> store_after s (release_image s rm id).
Proof.
  intros Hs. unfold release_image. destruct (map_get id (is_uploads s)) as [u|] eqn:E; [|by apply store_after_refl]. destruct (up_consumed u); [|by apply store_after_refl].
  destruct (so_upload _ Hs _ _ E) as [<- Hu]. assert (store_after s (set_upload s (pending_cleanup u))) as Ha by (eapply after_set; try done; by apply pending_ok).
  eapply store_after_trans; [exact Ha|]. apply after_remove, Ha.
Qed.
Lemma release_after s rm refs : store_ok s -> store_after s (release s rm refs).
Proof.
  unfold release. revert s. induction refs as [|id refs IH]; intros s Hs; cbn [fold_left]; [by apply store_after_refl|].
  eapply store_after_trans; [by apply release_image_after|]. by apply IH, release_image_after.
Qed.

Lemma new_store_ok : store_ok new_image_store.
Proof. constructor; try done; [apply map_wf_nil|split; cbn; unfold map_size, len; cbn; lia|intros c; split; cbn; lia]. Qed.
Lemma start_store_ok s : store_ok s -> store_ok (start_store s).
Proof. intros [H1 H2 H3 H4 H5 H6]. by constructor. Qed.

(** ** Runs *)

(** The calls of the store, with what the file system, the clock and the random generator answer. *)
Inductive ImageOp :=
| OpStart | OpStop
| OpBegin (rm : jstr -> bool) (now : Z) (id connectionId sessionId : jstr) (mimeType : PromptImageMimeType) (size : Z) (sha256 : jstr) (rootOk openOk : bool)
| OpChunk (rm : jstr -> bool) (now : Z) (connectionId sessionId id : jstr) (offset : Z) (data : list N) (written : Z) (ioOk syncOk : bool)
| OpConsume (rm : jstr -> bool) (now : Z) (connectionId sessionId : jstr) (refs : list jstr)
| OpDiscard (rm : jstr -> bool) (now : Z) (connectionId sessionId id : jstr)
| OpRelease (rm : jstr -> bool) (refs : list jstr)
| OpCleanupConnection (rm : jstr -> bool) (connectionId : jstr)
| OpCleanupSession (rm : jstr -> bool) (sessionId : jstr)
| OpSweep (rm : jstr -> bool) (now : Z).

(** The store after a call. *)
Definition image_step s (op : ImageOp) : ImageUploadStore :=
  match op with
  | OpStart => start_store s
  | OpStop => stop_store s
  | OpBegin rm now id c session mime size sha rootOk openOk => fst (begin_upload limits s rm now id c session mime size sha rootOk openOk)
  | OpChunk rm now c session id offset data written ioOk syncOk => fst (upload_chunk sha256_hex limits s rm now c session id offset data written ioOk syncOk)
  | OpConsume rm now c session refs => fst (consume limits s rm now c session refs)
  | OpDiscard rm now c session id => fst (discard limits s rm now c session id)
  | OpRelease rm refs => release s rm refs
  | OpCleanupConnection rm c => cleanupConnection s rm c
  | OpCleanupSession rm session => cleanupSession s rm session
  | OpSweep rm now => sweepExpired limits s rm now
  end.
(** The images it handed to a prompt. *)
Definition handed_out s (op : ImageOp) : list jstr :=
  match op with
  | OpConsume rm now c session refs => match snd (consume limits s rm now c session refs) with inl out => map mi_imageId out | inr _ => [] end
  | _ => []
  end.
Definition image_run (ops : list ImageOp) : ImageUploadStore * list jstr :=
  fold_left (fun st op => (image_step (fst st) op, snd st ++ handed_out (fst st) op)) ops (new_image_store, []).

(** Identifiers are not drawn twice, declared sizes are not negative and a write does not write more than it was given. *)
Definition drawn (ops : list ImageOp) : list jstr := omap (fun op => match op with OpBegin _ _ id _ _ _ _ _ _ _ => Some id | _ => None end) ops.
Definition sane_op (op : ImageOp) : Prop :=
  match op with
  | OpBegin _ _ _ _ _ _ size _ _ _ => 0 <= size
  | OpChunk _ _ _ _ _ _ data written _ _ => 0 <= written <= len data
  | _ => True
  end.
Definition sane_run (ops : list ImageOp) : Prop := NoDup (drawn ops) /\ Forall sane_op ops.

Lemma image_run_snoc ops op : image_run (ops ++ [op]) = (image_step (fst (image_run ops)) op, snd (image_run ops) ++ handed_out (fst (image_run ops)) op).
Proof. unfold image_run. by rewrite fold_left_app. Qed.

(** An upload in the store was drawn, and is consumed if it was handed out. *)
Record run_ok (ids : list jstr) (st : ImageUploadStore * list jstr) : Prop := {
  ro_store : store_ok (fst st);
  ro_drawn : forall k u, map_get k (is_uploads (fst st)) = Some u -> k ∈ ids;
  ro_handed : forall k, k ∈ snd st -> k ∈ ids;
  ro_consumed : forall k u, map_get k (is_uploads (fst st)) = Some u -> k ∈ snd st -> up_consumed u = true;
  ro_once : NoDup (snd st);
}.

(** Any call that only ages the store and hands nothing out. *)
Lemma run_ok_after ids s out s' : run_ok ids (s, out) -> store_after s s' -> run_ok ids (s', out ++ []).
Proof.
  intros [H1 H2 H3 H4 H5] [Hs Ho]. rewrite app_nil_r. constructor; try done; cbn [fst snd] in *.
  - intros k u Hu. destruct (Ho k u Hu) as (v & Hv & _). by eapply H2.
  - intros k u Hu Hk. destruct (Ho k u Hu) as (v & Hv & Hc). apply Hc. by eapply H4.
Qed.

Lemma run_ok_begin ids s out rm now id c session mime size sha rootOk openOk : run_ok ids (s, out) -> id ∉ ids -> 0 <= size ->
  run_ok (ids ++ [id]) (fst (begin_upload limits s rm now id c session mime size sha rootOk openOk), out ++ []).
Proof.
  intros Hr Hid Hsize. assert (store_after s (sweepExpired limits s rm now)) as Ha by (apply after_remove_where, (ro_store _ _ Hr)).
  pose proof (run_ok_after _ _ _ _ Hr Ha) as Ht. assert (map_get id (is_uploads (sweepExpired limits s rm now)) = None) as Hn.
  { destruct (map_get id _) eqn:E; [|done]. exfalso. by eapply Hid, (ro_drawn _ _ Ht). }
  pose proof (begin_upload_ok s rm now id c session mime size sha rootOk openOk (ro_store _ _ Hr) Hsize Hn) as Hok. rewrite app_nil_r in *. revert Hok.
  assert (forall st, run_ok ids st -> run_ok (ids ++ [id]) st) as Hweak.
  { intros st [H1 H2 H3 H4 H5]. constructor; try done; intros; apply elem_of_app; left; eauto. }
  unfold begin_upload. destruct (_ || _); [intros _; by apply Hweak|]. cbv zeta. set (t := sweepExpired limits s rm now) in *. clearbody t.
  destruct (_ || _); [intros _; by apply Hweak|]. destruct (negb openOk); [intros _; by apply Hweak|]. cbn [fst]. intros Hok.
  destruct Ht as [H1 H2 H3 H4 H5]. constructor; cbn [fst snd is_uploads] in *; try done.
  - intros k u. rewrite map_get_set. destruct (decide _) as [->|]; intros Hu; apply elem_of_app; [right; by apply list_elem_of_singleton|left; by eapply H2].
  - intros k Hk. apply elem_of_app. left. by apply H3.
  - intros k u. rewrite map_get_set. destruct (decide _) as [->|]; [|by apply H4]. intros _ Hk. destruct Hid. by apply H3.
Qed.

(** The uploads a [consume] takes were not handed out before. *)
Lemma consume_fresh ids s out rm now c session refs s' l : run_ok ids (s, out) -> consume limits s rm now c session refs = (s', inl l) ->
  map mi_imageId l = refs /\ NoDup refs /\ forall id, id ∈ refs -> id ∉ out /\ id ∈ ids.
Proof.
  intros Hr E. destruct (consume_spec _ _ _ _ _ _ _ _ (ro_store _ _ Hr) E) as (records & -> & <- & Hn & _ & _ & Ho). split; [by rewrite map_map|]. split; [done|].
  assert (store_after s (sweepExpired limits s rm now)) as Ha by (apply after_remove_where, (ro_store _ _ Hr)). pose proof (run_ok_after _ _ _ _ Hr Ha) as Ht.
  rewrite app_nil_r in Ht. intros id (u & -> & Hu)%list_elem_of_fmap. destruct (Ho u Hu) as [Hown _]. destruct (owned_some _ _ _ _ _ (proj1 Ha) Hown) as (Hg & _ & _ & Hc & _).
  split; [|by eapply (ro_drawn _ _ Ht)]. intros Hin. pose proof (ro_consumed _ _ Ht _ _ Hg Hin) as H. by rewrite Hc in H.
Qed.

Lemma run_ok_consume ids s out rm now c session refs : run_ok ids (s, out) ->
  run_ok ids (fst (consume limits s rm now c session refs), out ++ handed_out s (OpConsume rm now c session refs)).
Proof.
  intros Hr. pose proof (consume_after s rm now c session refs (ro_store _ _ Hr)) as Ha. cbn [handed_out]. destruct (consume limits s rm now c session refs) as [s' [l|e]] eqn:E;
    cbn [fst snd] in *; [|by eapply run_ok_after]. destruct (consume_fresh _ _ _ _ _ _ _ _ _ _ Hr E) as (-> & Hn & Hf).
  destruct (run_ok_after _ _ _ _ Hr Ha) as [H1 H2 H3 H4 H5]. rewrite app_nil_r in *. cbn [fst snd] in *. constructor; cbn [fst snd]; try done.
  - intros k [Hk|Hk]%elem_of_app; [by apply H3|by apply Hf].
  - intros k u Hu [Hk|Hk]%elem_of_app; [by eapply H4|].
    destruct (consume_spec _ _ _ _ _ _ _ _ (ro_store _ _ Hr) E) as (records & _ & Eids & _ & -> & _ & _). rewrite <- Eids in Hk, Hn.
    apply list_elem_of_fmap in Hk as (v & -> & Hv). destruct (consume_all_get (sweepExpired limits s rm now) records (up_id v) Hn) as [G _].
    assert (Some (set_consumed v) = Some u) as [= <-] by (by rewrite <- (G v Hv eq_refl)). done.
  - apply NoDup_app. split_and!; [done| |done]. intros k Hk Hkr. by apply (Hf k Hkr).
Qed.

Lemma run_reachable ops : sane_run ops -> run_ok (drawn ops) (image_run ops).
Proof.
  induction ops as [|op ops IH] using rev_ind; intros [Hn Hs].
  { constructor; try done; [apply new_store_ok]. }
  apply Forall_app in Hs as [Hs Hop]. inversion_clear Hop as [|? ? Hop1 _]. unfold drawn in *. rewrite omap_app in *. apply NoDup_app in Hn as (Hn & Hd & _).
  specialize (IH (conj Hn Hs)). rewrite image_run_snoc. destruct (image_run ops) as [s out]. cbn [fst snd]. pose proof (ro_store _ _ IH) as Hok. cbn [fst] in Hok.
  destruct op; cbn [omap list_omap image_step handed_out sane_op] in *; try rewrite app_nil_r with (l := omap _ ops).
  - destruct IH as [H1 H2 H3 H4 H5]. rewrite app_nil_r. constructor; try done. by apply start_store_ok.
  - destruct IH as [H1 H2 H3 H4 H5]. rewrite app_nil_r. constructor; try done; apply new_store_ok.
  - apply run_ok_begin; [done| |lia]. intros Hin. apply (Hd _ Hin). by apply list_elem_of_singleton.
  - eapply run_ok_after; [done|]. by apply chunk_after.
  - by apply run_ok_consume.
  - eapply run_ok_after; [done|]. by apply discard_after.
  - eapply run_ok_after; [done|]. by apply release_after.
  - eapply run_ok_after; [done|]. by apply after_remove_where.
  - eapply run_ok_after; [done|]. by apply after_remove_where.
  - eapply run_ok_after; [done|]. by apply after_remove_where.
Qed.

(** ** What is handed out *)

(** The file of a complete upload is what was declared. *)
Lemma complete_file u : upload_ok u -> up_complete u = true ->
  len (up_file u) = up_size u /\ sha256_hex (up_file u) = mi_sha256 (up_ref u) /\ sniffMimeType (take 12 (up_file u)) = Some (mi_mimeType (up_ref u)).
Proof.
  intros [[_ _] H2 H3 H4 H5 H6 _] Hc. destruct (H6 Hc) as [Er Em]. assert (up_file u = up_hashed u) as ->.
  { rewrite <- H3. symmetry. apply take_ge. unfold len in *. lia. }
  unfold ImageUpload.matches in Em. apply andb_prop in Em as [Eh%bool_decide_eq_true Es%bool_decide_eq_true]. rewrite H5 in Es. split_and!; [lia|done|done].
Qed.

(** ** Consumed images stay until they are released *)

Definition held s (k : jstr) u : Prop := map_get k (is_uploads s) = Some u /\ up_consumed u = true /\ up_cleanupPending u = false.

Lemma remove_other s rm id k u : store_ok s -> held s k u -> id ≠ k -> held (fst (remove_upload s rm id)) k u.
Proof.
  intros Hs (Hg & Hc & Hp) Hne. split; [|done]. unfold remove_upload. destruct (map_get id (is_uploads s)) as [v|] eqn:E; [|done]. destruct (so_upload _ Hs _ _ E) as [<- _].
  destruct (rm _); cbn [fst detach set_upload is_uploads]; [rewrite map_get_delete_ne by done|rewrite map_get_set_ne by done]; done.
Qed.
Lemma set_other s v k u : up_id v ≠ k -> held s k u -> held (set_upload s v) k u.
Proof. intros Hne (Hg & Hc & Hp). split; [|done]. cbn [set_upload is_uploads]. by rewrite map_get_set_ne. Qed.
Lemma owned_other s c session id v k u : store_ok s -> owned s c session id = Some v -> held s k u -> up_id v ≠ k.
Proof.
  intros Hs Ho (Hg & Hc & _) E. destruct (owned_some _ _ _ _ _ Hs Ho) as (Hv & _ & _ & Hnc & _). rewrite E, Hg in Hv. injection Hv as ->. by rewrite Hc in Hnc.
Qed.

Lemma remove_where_held s rm P k u : store_ok s -> held s k u -> P u = false -> held (remove_where s rm P) k u.
Proof.
  intros Hs Hh HP. unfold remove_where. assert (forall kv, kv ∈ is_uploads s -> fst kv = k -> P (snd kv) = false) as Hall.
  { intros [k' v] Hin Ek. cbn in *. subst k'. apply map_in_get in Hin; [|apply (so_wf _ Hs)]. destruct Hh as [Hg _]. rewrite Hg in Hin. by injection Hin as ->. }
  revert Hall. generalize (is_uploads s) as l. intros l. revert s Hs Hh. induction l as [|kv l IH]; intros s Hs Hh Hall; cbn [fold_left]; [done|].
  assert (forall kv, kv ∈ l -> fst kv = k -> P (snd kv) = false) as Hl by (intros x Hx; apply Hall; by right).
  destruct (P (snd kv)) eqn:E; [|by apply IH]. apply IH; [by apply remove_upload_ok| |done]. apply remove_other; [done|done|]. intros Ek.
  rewrite (Hall kv (list_elem_of_here _ _) Ek) in E. done.
Qed.
Lemma sweep_held s rm now k u : store_ok s -> held s k u -> held (sweepExpired limits s rm now) k u.
Proof. intros Hs Hh. apply remove_where_held; [done|done|]. destruct Hh as (_ & -> & ->). done. Qed.

Lemma chunk_held s rm now c session id offset data written ioOk syncOk k u : store_ok s -> held s k u ->
  held (fst (upload_chunk sha256_hex limits s rm now c session id offset data written ioOk syncOk)) k u.
Proof.
  intros Hs Hh. unfold upload_chunk. destruct (negb _); [done|]. cbv zeta. apply (sweep_held s rm now) in Hh; [|done].
  assert (store_ok (sweepExpired limits s rm now)) as Ht by (by apply remove_where_ok). set (t := sweepExpired limits s rm now) in *. clearbody t.
  destruct (owned t c session id) as [v|] eqn:Eo; [|done]. pose proof (owned_other _ _ _ _ _ _ _ Ht Eo Hh) as Hne.
  repeat (case_match; [done|]). case_match; [repeat (case_match; [done|]); by apply set_other|]. case_match; [done|]. case_match; [by apply set_other|].
  set (w := appended_chunk v now data). assert (up_id w ≠ k) as Hw by done. clearbody w. unfold finish_upload. case_match; [by apply set_other|]. case_match; [by apply set_other|].
  case_match; cbn [fst]; [|by apply set_other]. unfold remove_upload. cbn [set_upload is_uploads]. rewrite map_get_set_eq. destruct (rm _); cbn [fst]; [|apply set_other; [done|by apply set_other]].
  destruct Hh as (Hg & Hc & Hp). split; [|done]. cbn [detach set_upload is_uploads]. by rewrite map_get_delete_ne, map_get_set_ne.
Qed.

Lemma consume_held s rm now c session refs k u : store_ok s -> held s k u -> held (fst (consume limits s rm now c session refs)) k u.
Proof.
  intros Hs Hh. pose proof (sweep_held s rm now k u Hs Hh) as Ht. destruct (consume limits s rm now c session refs) as [s' [out|e]] eqn:E; cbn [fst].
  - destruct (consume_spec _ _ _ _ _ _ _ _ Hs E) as (records & _ & Eids & Hn & -> & _ & Ho). split; [|apply Hh]. rewrite <- Eids in Hn.
    destruct (consume_all_get (sweepExpired limits s rm now) records k Hn) as [_ ->]; [apply Ht|]. intros (v & Ek & Hv)%list_elem_of_fmap. destruct (Ho v Hv) as [Hown _].
    eapply owned_other; [|exact Hown|exact Ht|done]. by apply remove_where_ok.
  - revert E. unfold consume. destruct (negb _); [by intros [= <- _]|]. cbv zeta. destruct (_ || _); [by intros [= <- _]|]. destruct (resolve_refs _ _ _ _ _); [done|].
    by intros [= <- _].
Qed.

Lemma discard_held s rm now c session id k u : store_ok s -> held s k u -> held (fst (discard limits s rm now c session id)) k u.
Proof.
  intros Hs Hh. pose proof (sweep_held s rm now k u Hs Hh) as Ht. unfold discard. destruct (negb _); [done|]. cbv zeta.
  destruct (map_get id _) as [v|] eqn:E; [|done]. destruct (_ || _) eqn:Eb; [done|]. rewrite !orb_false_iff in Eb. destruct Eb as [[Ec _] _].
  assert (id ≠ k) as Hne. { intros ->. destruct Ht as (Hg & Hc & _). rewrite Hg in E. injection E as ->. by rewrite Hc in Ec. }
  assert (store_ok (sweepExpired limits s rm now)) as Hok by (by apply remove_where_ok). pose proof (remove_other _ rm id k u Hok Ht Hne) as Hr. by destruct (remove_upload _ rm id).
Qed.

Lemma release_held s rm refs k u : store_ok s -> held s k u -> k ∉ refs -> held (release s rm refs) k u.
Proof.
  unfold release. revert s. induction refs as [|id refs IH]; intros s Hs Hh Hk; cbn [fold_left]; [done|]. apply not_elem_of_cons in Hk as [Hne Hk].
  apply IH; [by apply release_image_after| |done]. unfold release_image. destruct (map_get id (is_uploads s)) as [v|] eqn:E; [|done]. destruct (up_consumed v); [|done].
  destruct (so_upload _ Hs _ _ E) as [<- Hv]. apply remove_other; [|by apply set_other|done]. eapply set_upload_ok; try done. by apply pending_ok.
Qed.

(** The calls that may remove a consumed image. *)
Definition may_remove (k : jstr) (op : ImageOp) : bool := match op with OpStop => true | OpRelease _ refs => existsb (jstr_eqb k) refs | _ => false end.

Lemma step_held s op k u : store_ok s -> sane_op op -> drawn [op] ≠ [k] -> may_remove k op = false -> held s k u ->
  held (image_step s op) k u.
Proof.
  intros Hs Hop Hd Hm Hh. destruct op; cbn [image_step may_remove] in *; try done.
  - unfold begin_upload in *. apply (sweep_held s rm now) in Hh as Ht; [|done]. destruct (_ || _); [done|]. cbv zeta in *.
    destruct (_ || _); [done|]. destruct (negb openOk); [done|]. cbn [fst] in *. split; [|apply Hh].
    cbn [is_uploads]. rewrite map_get_set_ne; [apply Ht|]. intros ->. by apply Hd.
  - by apply chunk_held.
  - by apply consume_held.
  - by apply discard_held.
  - apply release_held; [done|done|]. intros Hin%list_elem_of_In. apply not_true_iff_false in Hm. apply Hm, existsb_exists. eexists. split; [done|apply jstr_eqb_refl].
  - apply remove_where_held; [done|done|]. destruct Hh as (_ & -> & _). apply andb_false_r.
  - apply remove_where_held; [done|done|]. destruct Hh as (_ & -> & _). apply andb_false_r.
  - by apply sweep_held.
Qed.

Lemma files_fit m : (forall k u, (k, u) ∈ m -> upload_ok u) -> map_sum (fun u => len (up_file u)) m <= total_bytes m.
Proof.
  unfold total_bytes, map_sum. induction m as [|[k u] m IH]; intros Hm; [done|]. cbn [map]. rewrite !sumZ_cons. cbn [snd].
  pose proof (uo_short _ (Hm k u (list_elem_of_here _ _))). assert (forall k u, (k, u) ∈ m -> upload_ok u) as Hm' by (intros k' u' H'; eapply Hm; by right).
  specialize (IH Hm'). lia.
Qed.

(** C33: through any calls the reservations of a connection are exactly the declared sizes and the number of its uploads, the global count is
    their sum, no quota is exceeded and the files of the uploads together take no more than the global quota, also when chunks are cut
    short, content does not match, or files cannot be removed. *)
Theorem image_quotas_kept ops : sane_run ops ->
  let s := fst (image_run ops) in
  is_globalBytes s = total_bytes (is_uploads s) /\ map_sum (fun u => len (up_file u)) (is_uploads s) <= is_globalBytes s <= il_maxGlobalBytes limits /\
  map_size (is_uploads s) <= il_maxGlobalUploads limits /\
  forall c, let r := reserved_of s c in
    rv_bytes r = bytes_of c (is_uploads s) /\ rv_uploads r = count_of c (is_uploads s) /\
    rv_bytes r <= il_maxConnectionBytes limits /\ rv_uploads r <= il_maxConnectionUploads limits.
Proof.
  intros Hs. pose proof (ro_store _ _ (run_reachable ops Hs)) as [H1 H2 H3 H4 H5 H6]. cbv zeta. split_and!; [done| |lia|lia|].
  - rewrite H3. apply files_fit. intros k u Hu. by eapply H2, map_in_get.
  - intros c. destruct (H6 c) as [Q1 Q2]. unfold reserved_of. rewrite H4. destruct (Z.eqb_spec (count_of c (is_uploads (fst (image_run ops)))) 0) as [E|]; cbn; [|done].
    rewrite E, (no_count_no_bytes c _ E). lia.
Qed.

(** C32: a successful [consume], after any calls, answers the references it was asked for, each once and none that was handed out before;
    each is an upload of that connection and session whose file has exactly the declared size, hash and signature. *)
Theorem consumed_images_intact ops rm now c session refs s' l : sane_run ops -> consume limits (fst (image_run ops)) rm now c session refs = (s', inl l) ->
  map mi_imageId l = refs /\ NoDup refs /\ (forall id, id ∈ refs -> id ∉ snd (image_run ops)) /\
  forall r, r ∈ l -> exists u, held s' (mi_imageId r) u /\ up_ref u = r /\ up_connectionId u = c /\ up_sessionId u = session /\
    len (up_file u) = mi_size r /\ sha256_hex (up_file u) = mi_sha256 r /\ sniffMimeType (take 12 (up_file u)) = Some (mi_mimeType r).
Proof.
  intros Hs E. pose proof (run_reachable ops Hs) as Hr. destruct (image_run ops) as [s out] eqn:Erun. cbn [fst snd] in *.
  destruct (consume_fresh _ _ _ _ _ _ _ _ _ _ Hr E) as (E1 & Hn & Hf). split_and!; [done|done|intros id Hid; by apply Hf|].
  pose proof (ro_store _ _ Hr) as Hok. cbn [fst] in Hok. destruct (consume_spec _ _ _ _ _ _ _ _ Hok E) as (records & -> & Eids & _ & -> & _ & Ho).
  intros r (u & -> & Hu)%list_elem_of_fmap. destruct (Ho u Hu) as [Hown Hc]. assert (store_ok (sweepExpired limits s rm now)) as Ht by (by apply remove_where_ok).
  destruct (owned_some _ _ _ _ _ Ht Hown) as (_ & _ & Huok & _ & Hc1 & Hc2 & Hp). exists (set_consumed u). rewrite <- Eids in Hn.
  destruct (consume_all_get (sweepExpired limits s rm now) records (up_id u) Hn) as [G _]. split; [split; [by apply G|done]|].
  destruct (complete_file u Huok Hc) as (? & ? & ?). done.
Qed.

(** A consumed image stays as it is, whatever chunks, cleanups, expiries or prompts come, until its prompt is released or the store stops. *)
Theorem consumed_images_kept ops op k u : sane_run (ops ++ [op]) -> held (fst (image_run ops)) k u -> may_remove k op = false ->
  held (fst (image_run (ops ++ [op]))) k u.
Proof.
  intros [Hn Hs] Hh Hm. unfold drawn in Hn. rewrite omap_app in Hn. apply NoDup_app in Hn as (Hn & Hd & _). apply Forall_app in Hs as [Hs Hop].
  pose proof (run_reachable ops (conj Hn Hs)) as Hr. rewrite image_run_snoc. cbn [fst]. apply step_held; [apply (ro_store _ _ Hr)|by inversion Hop| |done|done].
  intros Ed. apply (Hd k); [apply (ro_drawn _ _ Hr k u), Hh|]. unfold drawn in Ed. rewrite Ed. by apply list_elem_of_singleton.
Qed.
End Spec.

(** ** Concrete stores *)

(** A hash that keeps the bytes; one image, in two chunks. *)
Definition plain_hash (bytes : list N) : jstr := bytes.
Definition gif : list N := js "GIF89a!".
Definition uploading : list ImageOp :=
  [OpStart; OpBegin (fun _ => true) 0 (js "i") (js "c") (js "s") Gif 7 gif true true;
   OpChunk (fun _ => true) 1 (js "c") (js "s") (js "i") 0 (js "GIF8") 4 true true;
   OpChunk (fun _ => true) 2 (js "c") (js "s") (js "i") 4 (js "9a!") 3 true true].

Lemma default_limits_ok : 0 <= il_maxConnectionBytes default_image_limits /\ 0 <= il_maxConnectionUploads default_image_limits /\
  0 <= il_maxGlobalBytes default_image_limits /\ 0 <= il_maxGlobalUploads default_image_limits.
Proof. done. Qed.
Lemma uploading_sane : sane_run uploading.
Proof. split; [apply (bool_decide_unpack _); by vm_compute|]. repeat constructor; cbn; unfold len; cbn; lia. Qed.

Lemma image_quotas_kept_witness : map_size (is_uploads (fst (image_run plain_hash default_image_limits uploading))) = 1 /\
  map_size (is_uploads (fst (image_run plain_hash default_image_limits uploading))) <= 64.
Proof. split; [by vm_compute|]. apply (image_quotas_kept plain_hash default_image_limits default_limits_ok uploading uploading_sane). Defined.

Lemma consumed_images_intact_witness : exists s' l,
  consume default_image_limits (fst (image_run plain_hash default_image_limits uploading)) (fun _ => true) 3 (js "c") (js "s") [js "i"] = (s', inl l) /\
  exists u, held s' (js "i") u /\ up_file u = gif.
Proof.
  eexists _, _. split; [by vm_compute|]. destruct (consumed_images_intact plain_hash default_image_limits default_limits_ok uploading (fun _ => true) 3 (js "c") (js "s") [js "i"] _ _
    uploading_sane ltac:(by vm_compute)) as (_ & _ & _ & H). destruct (H _ (list_elem_of_here _ _)) as (u & Hu & _ & _ & _ & _ & Hf & _). exists u. split; [exact Hu|exact Hf].
Defined.

Lemma consumed_images_kept_witness :
  exists u, held (fst (image_run plain_hash default_image_limits ((uploading ++ [OpConsume (fun _ => true) 3 (js "c") (js "s") [js "i"]]) ++ [OpCleanupConnection (fun _ => true) (js "c")])))
    (js "i") u.
Proof.
  eexists. apply (consumed_images_kept plain_hash default_image_limits default_limits_ok (uploading ++ [OpConsume (fun _ => true) 3 (js "c") (js "s") [js "i"]])).
  - split; [apply (bool_decide_unpack _); by vm_compute|]. repeat constructor; cbn; unfold len; cbn; lia.
  - split; [by vm_compute|]. split; by vm_compute.
  - done.
Defined.

(** A WebP file whose length field holds the bytes C2 A8 is not recognised, since the signature is compared after decoding the prefix as UTF-8. *)
Definition webp_prefix (b0 b1 b2 b3 : N) : list N := ([0x52; 0x49; 0x46; 0x46; b0; b1; b2; b3; 0x57; 0x45; 0x42; 0x50]%N).
Example webp_sniffed : sniffMimeType (webp_prefix 0x24 0x10 0 0) = Some Webp /\ sniffMimeType (webp_prefix 0xC2 0xA8 0 0) = None.
Proof. by vm_compute. Qed.
