(* ===== verification/Commands.v ===== *)
(** * Commands: capabilities and the descriptors of commands
    ([packages/host-wire/src/capabilities.ts], [command-descriptors/]) *)
From stdpp Require Import base tactics option list numbers strings sets.
From S2P Require Import Prelude JsMap JsString JsValue.

(** ** Capabilities *)

Definition DEVICE_CAPABILITIES : list jstr :=
  [js "sessions.read"; js "sessions.prompt"; js "sessions.control"; js "sessions.manage"; js "bash.run"; js "term.open"; js "term.input";
   js "term.resize"; js "files.read"; js "files.write"; js "files.list"; js "files.diff"; js "agents.control"; js "audit.read"; js "config.read";
   js "catalog.read"; js "config.write"; js "broker.read"; js "usage.read"; js "preview.read"; js "preview.control"; js "preview.input";
   js "ci.trigger"].
Definition REMOTE_DEFAULT_CAPABILITIES : list jstr :=
  [js "sessions.read"; js "sessions.prompt"; js "sessions.control"; js "sessions.manage"; js "agents.control"].
Definition in_strings (s : jstr) (l : list jstr) : bool := existsb (jstr_eqb s) l.
Definition isCapability (value : jstr) : bool := in_strings value DEVICE_CAPABILITIES.

(** [[...new Set(values)]] *)
Definition distinct (l : list jstr) : list jstr := fold_left (fun acc x => if in_strings x acc then acc else acc ++ [x]) l [].

(** ** Descriptors *)

Inductive CommandScope := SHost | SSession.
Inductive CommandRevision := RNone | ROptional | RRequired.
Inductive RevisionOwner := ONone | OSession | OAuthority.
Inductive CommandConfirmation := CNone | CChallenge.
Record CommandDescriptor := mkDescriptor {
  cd_capability : jstr;
  cd_scope : CommandScope;
  cd_revision : CommandRevision;
  cd_revisionOwner : RevisionOwner;
  cd_confirmation : CommandConfirmation;
  cd_desktopCatalog : bool;
}.
(** [descriptor], with its default *)
Definition descriptor (capability : jstr) (scope : CommandScope) (revision : CommandRevision) (owner : RevisionOwner) (confirmation : CommandConfirmation)
    (desktopCatalog : bool) : CommandDescriptor := mkDescriptor capability scope revision owner confirmation desktopCatalog.
Abbreviation CommandDescriptorGroup := (list (jstr * CommandDescriptor)).

Definition RUNTIME_WORKSPACE_COMMAND_DESCRIPTORS : CommandDescriptorGroup :=
  [(js "runtime.list", descriptor (js "sessions.read") SHost RNone ONone CNone false);
   (js "workspace.list", descriptor (js "sessions.read") SHost RNone ONone CNone false);
   (js "workspace.create", descriptor (js "sessions.manage") SHost RNone ONone CNone false);
   (js "workspace.import", descriptor (js "sessions.manage") SHost RNone ONone CNone false);
   (js "workspace.archive", descriptor (js "sessions.manage") SHost RNone ONone CChallenge false);
   (js "workspace.recover", descriptor (js "sessions.manage") SHost RNone ONone CNone false);
   (js "host.list", descriptor (js "sessions.read") SHost RNone ONone CNone false);
   (js "session.list", descriptor (js "sessions.read") SHost RNone ONone CNone false);
   (js "transcript.search", descriptor (js "sessions.read") SHost RNone ONone CNone false);
   (js "transcript.context", descriptor (js "sessions.read") SSession RNone ONone CNone false);
   (js "transcript.page", descriptor (js "sessions.read") SSession RNone ONone CNone false);
   (js "project.reveal", descriptor (js "sessions.manage") SHost RNone ONone CNone true);
   (js "audit.read", descriptor (js "audit.read") SHost RNone ONone CNone false);
   (js "audit.tail", descriptor (js "audit.read") SHost RNone ONone CNone false);
   (js "config.write", descriptor (js "config.write") SHost RRequired OAuthority CChallenge false);
   (js "settings.read", descriptor (js "config.read") SHost RNone ONone CNone false);
   (js "settings.write", descriptor (js "config.write") SHost RRequired OAuthority CChallenge false);
   (js "catalog.get", descriptor (js "catalog.read") SHost RNone ONone CNone false);
   (js "broker.status", descriptor (js "broker.read") SHost RNone ONone CNone true);
   (js "usage.read", descriptor (js "usage.read") SHost RNone ONone CNone true);
   (js "host.watch", descriptor (js "sessions.read") SHost RNone ONone CNone false);
   (js "session.watch", descriptor (js "sessions.read") SSession RNone ONone CNone false);
   (js "controller.lease.acquire", descriptor (js "sessions.control") SSession RRequired OSession CNone false);
   (js "controller.lease.renew", descriptor (js "sessions.control") SSession RRequired OSession CNone false);
   (js "controller.lease.release", descriptor (js "sessions.control") SSession RRequired OSession CNone false);
   (js "prompt.lease.acquire", descriptor (js "sessions.prompt") SSession RRequired OSession CNone false);
   (js "prompt.lease.renew", descriptor (js "sessions.prompt") SSession RRequired OSession CNone false);
   (js "prompt.lease.release", descriptor (js "sessions.prompt") SSession RRequired OSession CNone false)].

Definition SESSION_COMMAND_DESCRIPTORS : CommandDescriptorGroup :=
  [(js "session.create", descriptor (js "sessions.manage") SHost RNone ONone CNone true);
   (js "session.fork", descriptor (js "sessions.manage") SSession RNone ONone CNone false);
   (js "session.attach", descriptor (js "sessions.read") SSession RNone ONone CNone false);
   (js "session.state.get", descriptor (js "sessions.read") SSession RNone ONone CNone false);
   (js "session.rename", descriptor (js "sessions.manage") SSession RRequired OSession CNone true);
   (js "session.retry", descriptor (js "sessions.control") SSession RRequired OSession CNone false);
   (js "session.compact", descriptor (js "sessions.control") SSession RRequired OSession CNone false);
   (js "session.pause", descriptor (js "sessions.control") SSession RRequired OSession CNone false);
   (js "session.resume", descriptor (js "sessions.control") SSession RRequired OSession CNone false);
   (js "session.archive", descriptor (js "sessions.manage") SSession RRequired OSession CNone true);
   (js "session.restore", descriptor (js "sessions.manage") SSession RRequired OSession CNone true);
   (js "session.delete", descriptor (js "sessions.manage") SSession RRequired OSession CChallenge true);
   (js "session.model.set", descriptor (js "sessions.manage") SSession RRequired OSession CNone true);
   (js "session.thinking.set", descriptor (js "sessions.manage") SSession RRequired OSession CNone true);
   (js "session.fast.set", descriptor (js "sessions.manage") SSession RRequired OSession CNone true);
   (js "session.mode.set", descriptor (js "sessions.manage") SSession ROptional OSession CNone true);
   (js "session.cancel", descriptor (js "sessions.control") SSession ROptional OSession CChallenge true);
   (js "session.close", descriptor (js "sessions.manage") SSession RRequired OSession CChallenge true);
   (js "session.release", descriptor (js "sessions.manage") SSession RRequired OSession CChallenge true);
   (js "session.reclaim", descriptor (js "sessions.manage") SSession RRequired OSession CNone true)].

Definition PROMPT_MEDIA_COMMAND_DESCRIPTORS : CommandDescriptorGroup :=
  [(js "session.prompt", descriptor (js "sessions.prompt") SSession ROptional OSession CNone false);
   (js "session.steer", descriptor (js "sessions.prompt") SSession ROptional OSession CNone false);
   (js "session.followUp", descriptor (js "sessions.prompt") SSession ROptional OSession CNone false);
   (js "session.ui.respond", descriptor (js "sessions.prompt") SSession ROptional OSession CNone false);
   (js "session.image.begin", descriptor (js "sessions.prompt") SSession RNone ONone CNone false);
   (js "session.image.chunk", descriptor (js "sessions.prompt") SSession RNone ONone CNone false);
   (js "session.image.discard", descriptor (js "sessions.prompt") SSession RNone ONone CNone false);
   (js "session.image.read", descriptor (js "sessions.read") SSession RNone ONone CNone false);
   (js "artifact.read", descriptor (js "sessions.read") SSession RNone ONone CNone false)].

Definition OPERATION_COMMAND_DESCRIPTORS : CommandDescriptorGroup :=
  [(js "files.read", descriptor (js "files.read") SSession ROptional OAuthority CNone false);
   (js "files.write", descriptor (js "files.write") SSession RRequired OAuthority CChallenge false);
   (js "files.patch", descriptor (js "files.write") SSession RRequired OAuthority CChallenge false);
   (js "files.list", descriptor (js "files.list") SSession ROptional OAuthority CNone false);
   (js "files.search", descriptor (js "files.list") SSession ROptional OAuthority CNone false);
   (js "files.diff", descriptor (js "files.diff") SSession ROptional OAuthority CNone false);
   (js "review.read", descriptor (js "files.read") SSession ROptional OAuthority CNone false);
   (js "review.apply", descriptor (js "files.write") SSession RRequired OAuthority CChallenge false);
   (js "agent.cancel", descriptor (js "agents.control") SSession ROptional OSession CChallenge false);
   (js "bash.run", descriptor (js "bash.run") SSession ROptional OSession CChallenge false);
   (js "term.open", descriptor (js "term.open") SSession ROptional OSession CChallenge false)].

Definition PREVIEW_COMMAND_DESCRIPTORS : CommandDescriptorGroup :=
  [(js "preview.launch", descriptor (js "preview.control") SSession ROptional OSession CChallenge false);
   (js "preview.state", descriptor (js "preview.read") SSession ROptional OSession CNone false);
   (js "preview.activate", descriptor (js "preview.control") SSession ROptional OSession CNone false);
   (js "preview.navigate", descriptor (js "preview.control") SSession ROptional OSession CChallenge false);
   (js "preview.back", descriptor (js "preview.control") SSession ROptional OSession CNone false);
   (js "preview.forward", descriptor (js "preview.control") SSession ROptional OSession CNone false);
   (js "preview.reload", descriptor (js "preview.control") SSession ROptional OSession CNone false);
   (js "preview.close", descriptor (js "preview.control") SSession ROptional OSession CNone false);
   (js "preview.capture", descriptor (js "preview.read") SSession ROptional OSession CNone false);
   (js "preview.capture.read", descriptor (js "preview.read") SSession RNone ONone CNone false);
   (js "preview.click", descriptor (js "preview.input") SSession ROptional OSession CNone false);
   (js "preview.fill", descriptor (js "preview.input") SSession ROptional OSession CNone false);
   (js "preview.scroll", descriptor (js "preview.input") SSession ROptional OSession CNone false);
   (js "preview.type", descriptor (js "preview.input") SSession ROptional OSession CNone false);
   (js "preview.select", descriptor (js "preview.input") SSession ROptional OSession CNone false);
   (js "preview.press", descriptor (js "preview.input") SSession ROptional OSession CNone false);
   (js "preview.upload", descriptor (js "preview.input") SSession ROptional OSession CChallenge false);
   (js "preview.policy.check", descriptor (js "preview.read") SSession RNone ONone CNone false);
   (js "preview.lease.acquire", descriptor (js "preview.control") SSession ROptional OSession CNone false);
   (js "preview.lease.renew", descriptor (js "preview.control") SSession ROptional OSession CNone false);
   (js "preview.lease.release", descriptor (js "preview.control") SSession ROptional OSession CNone false);
   (js "preview.handoff", descriptor (js "preview.control") SSession ROptional OSession CNone false)].

Definition CI_COMMAND_DESCRIPTORS : CommandDescriptorGroup :=
  [(js "ci.run", descriptor (js "ci.trigger") SSession RRequired OSession CNone false)].

(** [mergeCommandDescriptorGroups]: [None] when it throws because of a duplicate. *)
Definition mergeCommandDescriptorGroups (groups : list CommandDescriptorGroup) : option CommandDescriptorGroup :=
  fold_left (fun merged kv =>
    match merged with
    | Some m => if map_has (fst kv) m then None else Some (m ++ [kv])
    | None => None
    end) (concat groups) (Some []).
Definition descriptor_groups : list CommandDescriptorGroup :=
  [RUNTIME_WORKSPACE_COMMAND_DESCRIPTORS; SESSION_COMMAND_DESCRIPTORS; PROMPT_MEDIA_COMMAND_DESCRIPTORS; OPERATION_COMMAND_DESCRIPTORS;
   PREVIEW_COMMAND_DESCRIPTORS; CI_COMMAND_DESCRIPTORS].
Definition COMMAND_DESCRIPTORS : CommandDescriptorGroup := default [] (mergeCommandDescriptorGroups descriptor_groups).

(** [COMMAND_DESCRIPTORS[command]] *)
Definition descriptor_of (command : jstr) : option CommandDescriptor := map_get command COMMAND_DESCRIPTORS.

(** ** Facts of the tables *)

Lemma in_strings_spec s l : in_strings s l = true <-> s ∈ l.
Proof.
  unfold in_strings. rewrite existsb_exists, list_elem_of_In. split; [intros (x & Hx & ->%jstr_eqb_eq); done|intros H; exists s; split; [done|apply jstr_eqb_refl]].
Qed.

Lemma elem_of_distinct s l : s ∈ distinct l <-> s ∈ l.
Proof.
  assert (forall acc, s ∈ fold_left (fun acc x => if in_strings x acc then acc else acc ++ [x]) l acc <-> s ∈ acc \/ s ∈ l) as H.
  { induction l as [|x l IH]; intros acc; cbn [fold_left]; [rewrite elem_of_nil; tauto|]. rewrite IH, elem_of_cons.
    destruct (in_strings x acc) eqn:E; [apply in_strings_spec in E|rewrite elem_of_app, list_elem_of_singleton]; split; naive_solver. }
  unfold distinct. rewrite H, elem_of_nil. tauto.
Qed.

(** The groups have no command in common, and every command asks for a capability that devices can have. *)
Lemma descriptors_merge : mergeCommandDescriptorGroups descriptor_groups = Some (concat descriptor_groups).
Proof. by vm_compute. Qed.
Lemma descriptor_capabilities : forallb (fun kv => isCapability (cd_capability (snd kv))) COMMAND_DESCRIPTORS = true.
Proof. by vm_compute. Qed.
