(* ===== verification/DeviceRegistry.v ===== *)
(** * DeviceRegistry: paired devices and their sign-in
    ([packages/host-service/src/security/index.ts], [SqliteDeviceRegistry])

    The table of devices is a map from the primary key; the JSON texts of a row are kept as the
    values they hold and printed where the code measures them.  Clock readings and random bytes are
    arguments.  Listeners of invalidations run as the last thing a method does before it returns or
    throws, so a method returns the device it invalidated, if any, and its caller runs them. *)
From stdpp Require Import base tactics option list numbers strings sets.
From S2P Require Import Prelude JsMap JsString JsValue WireGuards NumberText Commands.

(** ** Values *)

Record RemotePeerIdentity := mkPeer { pe_nodeId : jstr; pe_login : jstr; pe_hostId : jstr; pe_tailnetIp : jstr }.
Record DeviceMetadata := mkMetadata { md_label : jstr; md_platform : option jstr }.
Record DeviceRecord := mkDevice {
  dv_deviceId : jstr;
  dv_identityKey : jstr;
  dv_capabilities : list jstr;
  dv_metadata : DeviceMetadata;
  dv_createdAt : Z;
  dv_lastSeenAt : option Z;
  dv_tokenExpiresAt : Z;
  dv_revokedAt : option Z;
  dv_epoch : Z;
  dv_revision : option jstr;
}.
Record AuthenticatedPrincipal := mkPrincipal { pr_device : DeviceRecord; pr_authenticatedAt : Z; pr_connectionId : jstr }.

(** [safe] of a string *)
Definition safe (max : Z) (value : jstr) : bool := (0 <? len value) && (len value <=? max) && negb (existsb is_control value).

(** [/^\d+$/] and a number of at most 255 *)
Definition ip_octet (part : jstr) : bool := negb (bool_decide (part = [])) && forallb is_digit part && (dec_value 0 part <=? 255).

Definition ascii_lower (u : N) : N := if (0x41 <=? u)%N && (u <=? 0x5A)%N then (u + 0x20)%N else u.

(** The texts of a row *)
Definition metadata_text (m : DeviceMetadata) : jstr :=
  serialize (JObj ((js "label", JStr (md_label m)) :: match md_platform m with Some p => [(js "platform", JStr p)] | None => [] end)).
Definition capabilities_text (l : list jstr) : jstr := serialize (JArr (map JStr l)).

(** [caps] *)
Definition caps (value : list jstr) : list jstr := distinct (List.filter isCapability value).

(** [/^[A-Za-z0-9_-]{43}$/] *)
Definition base64url_char (u : N) : bool := is_letter u || is_digit u || (u =? 0x5F)%N || (u =? 0x2D)%N.
Definition token_text (token : jstr) : bool := (len token =? 43) && forallb base64url_char token.

Definition NINETY_DAYS : Z := 90 * 24 * 60 * 60 * 1000.

(** ** The registry *)

Record DeviceRow := mkRow { rw_device : DeviceRecord; rw_salt : list N; rw_digest : list N }.
Record DeviceRegistry := mkRegistry {
  rg_devices : jsmap jstr DeviceRow;
  rg_active : jsmap jstr AuthenticatedPrincipal;
  rg_lastNow : option Z;                        (* [None] is minus infinity *)
}.
Implicit Types (r : DeviceRegistry) (d : DeviceRecord).

(** [this.lastNow = Math.max(this.lastNow, rawNow)] *)
Definition later (last : option Z) (now : Z) : Z := match last with Some l => Z.max l now | None => now end.
Definition tick r (now : Z) : DeviceRegistry := mkRegistry (rg_devices r) (rg_active r) (Some (later (rg_lastNow r) now)).
Definition set_row r (row : DeviceRow) : DeviceRegistry := mkRegistry (map_set (dv_deviceId (rw_device row)) row (rg_devices r)) (rg_active r) (rg_lastNow r).
Definition set_active r (active : jsmap jstr AuthenticatedPrincipal) : DeviceRegistry := mkRegistry (rg_devices r) active (rg_lastNow r).

(** [read] of a row *)
Definition read_row (row : DeviceRow) : attempt DeviceRecord :=
  let d := rw_device row in
  if negb (safe 4096 (capabilities_text (dv_capabilities d))) then Threw (js "invalid persisted row")
  else if negb (forallb isCapability (dv_capabilities d)) then Threw (js "invalid persisted capability")
  else if negb (safe 4096 (metadata_text (dv_metadata d))) then Threw (js "invalid persisted row")
  else if negb (safe 256 (dv_deviceId d)) || negb (safe 256 (dv_identityKey d)) then Threw (js "invalid persisted row")
  else Done (mkDevice (dv_deviceId d) (dv_identityKey d) (dv_capabilities d) (dv_metadata d) (dv_createdAt d) (dv_lastSeenAt d) (dv_tokenExpiresAt d)
               (dv_revokedAt d) (dv_epoch d) (match dv_revision d with Some v => if safe 256 v then Some v else None | None => None end)).

Definition get_device r (deviceId : jstr) : attempt (option DeviceRecord) :=
  match map_get deviceId (rg_devices r) with
  | None => Done None
  | Some row => match read_row row with Done d => Done (Some d) | Threw e => Threw e end
  end.

(** [`${connectionId}:${deviceId}`] *)
Definition active_key (connectionId deviceId : jstr) : jstr := connectionId ++ js ":" ++ deviceId.
Definition ends_with (s text : jstr) : bool := starts_with (rev s) (rev text).
(** [for (const key of this.active.keys()) if (key.endsWith(`:${deviceId}`)) this.active.delete(key)] *)
Definition forget_device (active : jsmap jstr AuthenticatedPrincipal) (deviceId : jstr) : jsmap jstr AuthenticatedPrincipal :=
  List.filter (fun kv => negb (ends_with (js ":" ++ deviceId) (fst kv))) active.

Definition revoked d (now : Z) : DeviceRecord :=
  mkDevice (dv_deviceId d) (dv_identityKey d) (dv_capabilities d) (dv_metadata d) (dv_createdAt d) (dv_lastSeenAt d) (dv_tokenExpiresAt d) (Some now)
    (dv_epoch d + 1) (dv_revision d).
Definition seen_at d (now : Z) : DeviceRecord :=
  mkDevice (dv_deviceId d) (dv_identityKey d) (dv_capabilities d) (dv_metadata d) (dv_createdAt d) (Some now) (dv_tokenExpiresAt d) (dv_revokedAt d)
    (dv_epoch d) (dv_revision d).
Definition described d (metadata : DeviceMetadata) (capabilities : list jstr) (epoch : Z) : DeviceRecord :=
  mkDevice (dv_deviceId d) (dv_identityKey d) capabilities metadata (dv_createdAt d) (dv_lastSeenAt d) (dv_tokenExpiresAt d) (dv_revokedAt d)
    epoch (dv_revision d).

(** [revoke]; the listeners run for [deviceId] afterwards. *)
Definition revoke_device r (deviceId : jstr) (now : Z) : DeviceRegistry :=
  let r := match map_get deviceId (rg_devices r) with Some row => set_row r (mkRow (revoked (rw_device row) now) (rw_salt row) (rw_digest row)) | None => r end in
  set_active r (forget_device (rg_active r) deviceId).

Definition updateMetadata r (deviceId : jstr) (metadata : DeviceMetadata) (capabilities : list jstr) : DeviceRegistry * option jstr * attempt unit :=
  match get_device r deviceId with
  | Threw e => (r, None, Threw e)
  | Done None => (r, None, Threw (js "metadata denied"))
  | Done (Some d) =>
      let next := caps capabilities in
      if negb (safe 256 (md_label metadata)) || existsb (fun c => negb (isCapability c)) capabilities ||
         existsb (fun c => negb (in_strings c (dv_capabilities d))) next
      then (r, None, Threw (js "metadata denied"))
      else
        let changed := negb (len next =? len (dv_capabilities d)) || existsb (fun c => negb (in_strings c (dv_capabilities d))) next in
        let epoch := if changed then dv_epoch d + 1 else dv_epoch d in
        let r := match map_get deviceId (rg_devices r) with
                 | Some row => set_row r (mkRow (described (rw_device row) metadata next epoch) (rw_salt row) (rw_digest row))
                 | None => r
                 end in
        if changed then (set_active r (forget_device (rg_active r) deviceId), Some deviceId, Done tt) else (r, None, Done tt)
  end.

Definition compare_created (a b : DeviceRow) : comparison := Z.compare (dv_createdAt (rw_device a)) (dv_createdAt (rw_device b)).
Fixpoint read_rows (rows : list DeviceRow) : attempt (list DeviceRecord) :=
  match rows with
  | [] => Done []
  | row :: rest => match read_row row with
                   | Done d => match read_rows rest with Done l => Done (d :: l) | Threw e => Threw e end
                   | Threw e => Threw e
                   end
  end.
Definition list_devices r : attempt (list DeviceRecord) := read_rows (sort compare_created (map_values (rg_devices r))).

Definition getAuthenticatedPrincipal r (now : Z) (connectionId deviceId : jstr) : DeviceRegistry * attempt (option AuthenticatedPrincipal) :=
  match map_get (active_key connectionId deviceId) (rg_active r) with
  | None => (r, Done None)
  | Some principal =>
      let r := tick r now in
      match get_device r deviceId with
      | Threw e => (r, Threw e)
      | Done current =>
          match current with
          | Some d =>
              if negb (dv_epoch d =? dv_epoch (pr_device principal)) || bool_decide (dv_revokedAt d ≠ None) || (dv_tokenExpiresAt d <=? later (rg_lastNow r) now)
              then (set_active r (map_delete (active_key connectionId deviceId) (rg_active r)), Done None)
              else (r, Done (Some (mkPrincipal
                     (mkDevice (dv_deviceId d) (dv_identityKey d) (dv_capabilities d) (dv_metadata d) (dv_createdAt d) (dv_lastSeenAt d) (dv_tokenExpiresAt d)
                        (dv_revokedAt d) (dv_epoch d) (match dv_revision d with Some v => Some v | None => dv_revision (pr_device principal) end))
                     (pr_authenticatedAt principal) connectionId)))
          | None => (set_active r (map_delete (active_key connectionId deviceId) (rg_active r)), Done None)
          end
      end
  end.

Section Registry.
Context (sha256 : list N -> list N) (isIP : jstr -> Z).

(** [hash] *)
Definition token_hash (salt : list N) (token : jstr) : list N := sha256 (salt ++ utf8_encode token).

Definition isTailnetIp (value : jstr) : bool :=
  if existsb (N.eqb 0x3A) value then (isIP value =? 6) && starts_with (js "fd7a:115c:a1e0:") (map ascii_lower value)
  else match split_on 0x2E value with
       | [p0; p1; p2; p3] =>
           forallb ip_octet [p0; p1; p2; p3] && jstr_eqb p0 (js "100") && (64 <=? dec_value 0 p1) && (dec_value 0 p1 <=? 127)
       | _ => false
       end.

Definition identity_text (identity : RemotePeerIdentity) : jstr :=
  serialize (JArr [JStr (pe_nodeId identity); JStr (pe_login identity); JStr (pe_hostId identity); JStr (pe_tailnetIp identity)]).

(** [canonicalIdentity]: [None] when it throws. *)
Definition canonicalIdentity (identity : RemotePeerIdentity) : option jstr :=
  if negb (safe 256 (pe_nodeId identity)) || negb (safe 256 (pe_login identity)) || negb (safe 256 (pe_hostId identity)) ||
     negb (safe 256 (pe_tailnetIp identity)) || negb (isTailnetIp (pe_tailnetIp identity))
  then None else Some (identity_text identity).

Definition create_device r (now : Z) (salt : list N) d (token : jstr) : DeviceRegistry * attempt unit :=
  let r := tick r now in
  let now := later (rg_lastNow r) now in
  if negb (safe 4096 token) || negb (token_text token) || (now <? dv_createdAt d) || (dv_tokenExpiresAt d <=? now) || (now + NINETY_DAYS <? dv_tokenExpiresAt d) ||
     match dv_revision d with Some v => negb (safe 256 v) | None => false end
  then (r, Threw (js "token invalid"))
  else if map_has (dv_deviceId d) (rg_devices r) then (r, Threw (js "UNIQUE constraint failed"))
  else (set_row r (mkRow d salt (token_hash salt token)), Done tt).

Definition authenticate r (now : Z) (deviceId token : jstr) (identity : RemotePeerIdentity) (connectionId : jstr)
    : DeviceRegistry * option jstr * attempt AuthenticatedPrincipal :=
  let denied := js "authentication denied" in
  match get_device r deviceId with
  | Threw e => (r, None, Threw e)
  | Done found =>
      let r := tick r now in
      let now := later (rg_lastNow r) now in
      match found, map_get deviceId (rg_devices r) with
      | Some d, Some row =>
          if bool_decide (dv_revokedAt d ≠ None) then (r, None, Threw denied)
          else if dv_tokenExpiresAt d <=? now then (revoke_device r deviceId now, Some deviceId, Threw denied)
          else match canonicalIdentity identity with
               | None => (r, None, Threw (js "invalid tailscale identity"))
               | Some key =>
                   if negb (jstr_eqb (dv_identityKey d) key) then (r, None, Threw denied)
                   else if negb (len (rw_digest row) =? 32) || negb (safe 4096 token) then (r, None, Threw denied)
                   else if negb (bool_decide (rw_digest row = token_hash (rw_salt row) token)) then (r, None, Threw denied)
                   else
                     let principal := mkPrincipal (seen_at d now) now connectionId in
                     let r := set_row r (mkRow (seen_at (rw_device row) now) (rw_salt row) (rw_digest row)) in
                     (set_active r (map_set (active_key connectionId deviceId) principal (rg_active r)), None, Done principal)
               end
      | _, _ => (r, None, Threw denied)
      end
  end.
End Registry.
