(* ===== verification/RemoteLeases.v ===== *)
(** * RemoteLeases: leases on sessions and tickets for pairing
    ([packages/host-service/src/security/index.ts], [LeaseRegistry] and [LocalPairingTicketIssuer])

    Clock readings, random identifiers, codes and tokens are arguments. *)
From stdpp Require Import base tactics option list numbers strings sets.
From S2P Require Import Prelude JsMap JsString JsValue WireGuards NumberText Commands DeviceRegistry.

(** ** Leases *)

Inductive LeaseKind := Controller | Prompt.
#[export] Instance LeaseKind_eq_dec : EqDecision LeaseKind.
Proof. solve_decision. Defined.

Record Lease := mkLease {
  le_leaseId : jstr;
  le_owner : jstr;
  le_deviceId : jstr;
  le_connectionId : jstr;
  le_sessionId : jstr;
  le_kind : LeaseKind;
  le_expiresAt : Z;
  le_epoch : Z;
  le_revision : option jstr;
}.
Record LeaseRegistry := mkLeases { lr_leases : jsmap jstr Lease; lr_lastNow : option Z }.
Definition new_leases : LeaseRegistry := mkLeases [] None.
Implicit Types (ls : LeaseRegistry) (l : Lease).

(** [commandAllowed] *)
Definition controller_commands : list jstr :=
  [js "session.fast.set"; js "controller.lease.renew"; js "controller.lease.release"; js "session.prompt"; js "session.steer"; js "session.followUp";
   js "session.ui.respond"; js "session.close"; js "session.cancel"; js "session.rename"; js "session.retry"; js "session.compact"; js "session.pause";
   js "session.resume"; js "session.model.set"; js "session.thinking.set"; js "session.mode.set"; js "files.write"; js "files.patch"; js "review.apply";
   js "bash.run"; js "agent.cancel"; js "preview.launch"; js "preview.navigate"].
Definition prompt_commands : list jstr :=
  [js "prompt.lease.renew"; js "prompt.lease.release"; js "session.prompt"; js "session.steer"; js "session.followUp"; js "session.ui.respond"].
Definition commandAllowed (kind : LeaseKind) (command : jstr) : bool :=
  in_strings command match kind with Controller => controller_commands | Prompt => prompt_commands end.

(** [expire] *)
Definition expire ls (now : Z) : LeaseRegistry :=
  let now := later (lr_lastNow ls) now in
  mkLeases (List.filter (fun kv => negb (le_expiresAt (snd kv) <=? now)) (lr_leases ls)) (Some now).

Definition acquire_lease ls (now : Z) (leaseId deviceId connectionId sessionId : jstr) (kind : LeaseKind) (ttlMs epoch : Z) (revision : option jstr)
    : LeaseRegistry * attempt Lease :=
  let ls := expire ls now in
  if negb (safe 256 deviceId) || negb (safe 256 connectionId) || negb (safe 256 sessionId) || (ttlMs <=? 0) || (300000 <? ttlMs) ||
     existsb (fun kv => jstr_eqb (le_sessionId (snd kv)) sessionId && bool_decide (le_kind (snd kv) = kind)) (lr_leases ls)
  then (ls, Threw (js "lease held"))
  else
    let l := mkLease leaseId (deviceId ++ js ":" ++ connectionId) deviceId connectionId sessionId kind (later (lr_lastNow ls) now + ttlMs) epoch
               (match revision with Some [] => None | _ => revision end) in
    (mkLeases (map_set leaseId l (lr_leases ls)) (lr_lastNow ls), Done l).

(** [epoch !== undefined && old.epoch !== epoch], and the same of the revision *)
Definition lease_bound l (deviceId connectionId : jstr) (epoch : option Z) (revision : option jstr) (command : jstr) : bool :=
  jstr_eqb (le_deviceId l) deviceId && jstr_eqb (le_connectionId l) connectionId && commandAllowed (le_kind l) command &&
  match epoch with Some e => le_epoch l =? e | None => true end &&
  match revision with Some v => bool_decide (le_revision l = Some v) | None => true end.

Definition renew_lease ls (now : Z) (leaseId deviceId connectionId : jstr) (ttlMs : Z) (epoch : option Z) (revision : option jstr) (command : jstr)
    : LeaseRegistry * attempt Lease :=
  let ls := expire ls now in
  match map_get leaseId (lr_leases ls) with
  | Some old =>
      if negb (lease_bound old deviceId connectionId epoch revision command) || (ttlMs <=? 0) || (300000 <? ttlMs) then (ls, Threw (js "lease denied"))
      else
        let next := mkLease (le_leaseId old) (le_owner old) (le_deviceId old) (le_connectionId old) (le_sessionId old) (le_kind old)
                      (later (lr_lastNow ls) now + ttlMs) (le_epoch old) (le_revision old) in
        (mkLeases (map_set leaseId next (lr_leases ls)) (lr_lastNow ls), Done next)
  | None => (ls, Threw (js "lease denied"))
  end.

Definition verify_lease ls (now : Z) (leaseId deviceId connectionId sessionId command : jstr) (epoch : option Z) (revision : option jstr)
    : LeaseRegistry * bool :=
  let ls := expire ls now in
  (ls, match map_get leaseId (lr_leases ls) with
       | Some l => jstr_eqb (le_sessionId l) sessionId && lease_bound l deviceId connectionId epoch revision command
       | None => false
       end).

Definition release_lease ls (leaseId deviceId connectionId : jstr) (epoch : option Z) (revision : option jstr) (command : jstr) : LeaseRegistry :=
  match map_get leaseId (lr_leases ls) with
  | Some old => if lease_bound old deviceId connectionId epoch revision command then mkLeases (map_delete leaseId (lr_leases ls)) (lr_lastNow ls) else ls
  | None => ls
  end.

(** [disconnect]; without a connection it is [invalidateDevice]. *)
Definition disconnect_leases ls (deviceId : jstr) (connectionId : option jstr) : LeaseRegistry :=
  mkLeases (List.filter (fun kv => negb (jstr_eqb (le_deviceId (snd kv)) deviceId &&
                                         match connectionId with Some c => jstr_eqb (le_connectionId (snd kv)) c | None => true end)) (lr_leases ls))
    (lr_lastNow ls).

(** ** Random codes *)

(** [digits]: [None] while more random bytes are needed. *)
Fixpoint digits_of (bytes : list N) (count : nat) : option jstr :=
  match count with
  | O => Some []
  | S rest => match bytes with
              | [] => None
              | b :: bytes => if (250 <=? b)%N then digits_of bytes count
                              else match digits_of bytes rest with Some s => Some ((0x30 + b mod 10)%N :: s) | None => None end
              end
  end.

(** ** Tickets for pairing *)

Record LocalTicket := mkTicket { lt_digest : list N; lt_expiresAt : Z; lt_nodeId : option jstr; lt_allowed : list jstr; lt_attempts : Z }.
Record PairFailure := mkFailure { pf_count : Z; pf_blockedUntil : Z }.
(** [pending] is keyed by the digest, of which the code keeps the hexadecimal text. *)
Record LocalPairing := mkPairing { lp_pending : jsmap (list N) LocalTicket; lp_failures : jsmap jstr PairFailure; lp_lastNow : option Z }.
Definition new_pairing : LocalPairing := mkPairing [] [] None.
Implicit Types (li : LocalPairing).

Record LocalPairingResult := mkPairResult { lq_deviceId : jstr; lq_token : jstr; lq_tokenExpiresAt : Z; lq_capabilities : list jstr }.

Definition PAIR_MAX_TTL : Z := 600000.
Definition set_pending li pending : LocalPairing := mkPairing pending (lp_failures li) (lp_lastNow li).

Section Pairing.
Context (sha256 : list N -> list N) (isIP : jstr -> Z) (hmac : jstr -> list N).  (* [hmac] is that of the code under the issuer's key *)

(** [issue] of a ticket with the random [code] *)
Definition issue_ticket li (now : Z) (code : jstr) (allowedCapabilities : list jstr) (ttlMs : Z) (nodeId : option jstr) : LocalPairing * attempt (jstr * Z) :=
  let allowed := caps allowedCapabilities in
  if (len allowed =? 0) || (ttlMs <=? 0) || (PAIR_MAX_TTL <? ttlMs) || match nodeId with Some n => negb (safe 256 n) | None => false end
  then (li, Threw (js "local pairing ticket invalid"))
  else
    let now := later (lp_lastNow li) now in
    (mkPairing (map_set (hmac code) (mkTicket (hmac code) (now + ttlMs) nodeId allowed 0) (lp_pending li)) (lp_failures li) (Some now), Done (code, now + ttlMs)).

(** [denied] *)
Definition pair_denied li (now : Z) (nodeId : jstr) : LocalPairing :=
  let count := match map_get nodeId (lp_failures li) with Some f => pf_count f | None => 0 end + 1 in
  mkPairing (lp_pending li) (map_set nodeId (mkFailure count (if 5 <=? count then now + 30000 else now)) (lp_failures li)) (lp_lastNow li).

Definition ticket_refused (now : Z) (nodeId : jstr) (t : LocalTicket) : bool :=
  (lt_expiresAt t <=? now) || match lt_nodeId t with Some n => negb (jstr_eqb n nodeId) | None => false end || (5 <=? lt_attempts t).

Definition pairing_code (code : jstr) : bool := (len code =? 6) && forallb is_digit code.
Definition blocked li (now : Z) (nodeId : jstr) : bool := match map_get nodeId (lp_failures li) with Some f => now <? pf_blockedUntil f | None => false end.

(** [consume], with the random [token] and [salt] *)
Definition consume_ticket li (reg : DeviceRegistry) (now0 : Z) (token : jstr) (salt : list N) (code : jstr) (identity : RemotePeerIdentity) (deviceId : jstr)
    (metadata : DeviceMetadata) (requestedCapabilities : list jstr) : LocalPairing * DeviceRegistry * attempt LocalPairingResult :=
  let refused := Threw (js "pairing denied") in
  if negb (pairing_code code) || negb (safe 256 deviceId) || negb (safe 256 (md_label metadata)) then (li, reg, refused)
  else
    let now := later (lp_lastNow li) now0 in
    let li := mkPairing (lp_pending li) (lp_failures li) (Some now) in
    if blocked li now (pe_nodeId identity) then (li, reg, refused)
    else match map_get (hmac code) (lp_pending li) with
    | None => (pair_denied li now (pe_nodeId identity), reg, refused)
    | Some t =>
        if ticket_refused now (pe_nodeId identity) t then (pair_denied li now (pe_nodeId identity), reg, refused)
        else
          let li := set_pending li (map_set (hmac code) (mkTicket (lt_digest t) (lt_expiresAt t) (lt_nodeId t) (lt_allowed t) (lt_attempts t + 1)) (lp_pending li)) in
          let granted := List.filter (fun c => in_strings c (lt_allowed t)) (caps requestedCapabilities) in
          if len granted =? 0 then (pair_denied li now (pe_nodeId identity), reg, refused)
          else match get_device reg deviceId with
               | Threw e => (li, reg, Threw e)
               | Done (Some _) => (pair_denied li now (pe_nodeId identity), reg, refused)
               | Done None =>
                   let d := mkDevice deviceId (identity_text identity) granted metadata now (Some now) (now + NINETY_DAYS) None 0 None in
                   match create_device sha256 reg now0 salt d token with
                   | (reg, Threw e) => (li, reg, Threw e)
                   | (reg, Done _) =>
                       (mkPairing (map_delete (hmac code) (lp_pending li)) (map_delete (pe_nodeId identity) (lp_failures li)) (lp_lastNow li), reg,
                        Done (mkPairResult deviceId token (now + NINETY_DAYS) granted))
                   end
               end
    end.
End Pairing.
