(* ===== verification/RemotePolicy.v ===== *)
(** * RemotePolicy: what remote connections may do
    ([packages/host-service/src/remote/policy.ts], [TailscaleRemotePolicy])

    The policy as [createRemoteAppserver] builds it: with a device registry, tickets for pairing and
    leases, without the optional guard, confirmations and rate limiter.  Every method is synchronous,
    so a method is one step; the clock reading, the random identifiers and tokens are arguments, and
    the connection whose object a method is given is its identifier and its peer.  A method that lets
    an error of the registry escape is [Threw]. *)
From stdpp Require Import base tactics option list numbers strings sets.
From S2P Require Import Prelude JsMap JsString JsValue Wire WireGuards Commands DeviceRegistry RemoteLeases.

(** ** Frames *)

(** [remote/types.ts]: the peer of a connection *)
Record ConnectionPeer := mkConnPeer { cp_nodeId : jstr; cp_hostname : option jstr; cp_user : option jstr; cp_addresses : list jstr }.
Record RemoteConnection := mkConnection { rc_connectionId : jstr; rc_peer : ConnectionPeer }.

Record HelloFrame := mkHello {
  he_authentication : option (jstr * jstr);     (* device and token *)
  he_capabilities : option (list jstr);         (* [capabilities.client] *)
  he_requestedFeatures : list jstr;
}.
Record PairStartFrame := mkPairStart {
  ps_code : jstr;
  ps_deviceId : jstr;
  ps_deviceName : jstr;
  ps_platform : jstr;
  ps_requestedCapabilities : list jstr;
}.
Record CommandFrame := mkCommand {
  cf_requestId : jstr;
  cf_commandId : jstr;
  cf_command : jstr;
  cf_hostId : jstr;
  cf_sessionId : option jstr;
  cf_expectedRevision : option jstr;
  cf_confirmationId : option jstr;
  cf_args : list (jstr * jv);
}.
Inductive ClientFrame :=
| FPing
| FCommand (frame : CommandFrame)
| FConfirm (commandId : jstr)
| FTerminalInput | FTerminalResize | FTerminalClose
| FOther.

(** ** Policy tables *)

Definition mutation_commands : list jstr :=
  [js "session.prompt"; js "session.steer"; js "session.followUp"; js "session.ui.respond"; js "session.rename"; js "session.retry"; js "session.compact";
   js "session.pause"; js "session.resume"; js "session.model.set"; js "session.thinking.set"; js "session.fast.set"; js "session.mode.set";
   js "session.close"; js "session.release"; js "session.reclaim"; js "session.cancel"; js "files.write"; js "files.patch"; js "review.apply"; js "bash.run";
   js "agent.cancel"; js "preview.launch"; js "preview.navigate"].
Definition mutation (command : jstr) : bool := in_strings command mutation_commands.

Definition commandFeature (command : jstr) : option jstr :=
  if starts_with (js "controller.lease.") command then Some (js "controller.lease")
  else if starts_with (js "prompt.lease.") command then Some (js "prompt.lease")
  else if jstr_eqb command (js "files.list") then Some (js "files.list")
  else if jstr_eqb command (js "files.search") then Some (js "files.search")
  else if jstr_eqb command (js "files.diff") then Some (js "files.diff")
  else if jstr_eqb command (js "transcript.search") || jstr_eqb command (js "transcript.context") then Some (js "transcript.search")
  else if jstr_eqb command (js "transcript.page") then Some (js "transcript.page")
  else if jstr_eqb command (js "session.release") || jstr_eqb command (js "session.reclaim") then Some (js "session.transfer")
  else if starts_with (js "preview.") command then Some (js "preview.control")
  else None.
Definition serverLeaseCommand (command : jstr) : bool := starts_with (js "controller.lease.") command || starts_with (js "prompt.lease.") command.

Definition frameFeature (frame : ClientFrame) : option jstr :=
  match frame with
  | FCommand f => commandFeature (cf_command f)
  | FTerminalInput | FTerminalResize | FTerminalClose => Some (js "terminal.io")
  | _ => None
  end.
Definition frameCapability (frame : ClientFrame) : option jstr :=
  match frame with
  | FCommand f => match descriptor_of (cf_command f) with Some d => Some (cd_capability d) | None => None end
  | FTerminalInput => Some (js "term.input")
  | FTerminalResize => Some (js "term.resize")
  | FTerminalClose => Some (js "term.open")
  | _ => None
  end.

Definition requestedCapabilities (hello : HelloFrame) : list jstr :=
  List.filter isCapability (match he_capabilities hello with None => REMOTE_DEFAULT_CAPABILITIES | Some l => l end).
Definition capIntersection (granted requested supported : list jstr) : list jstr :=
  List.filter (fun c => in_strings c requested && in_strings c granted && isCapability c) supported.
Definition featureIntersection (granted requested supported : list jstr) : list jstr :=
  List.filter (fun f => in_strings f requested && in_strings f granted) supported.

(** [securityIdentity]: [None] when it throws. *)
Definition securityIdentity (peer : ConnectionPeer) : option RemotePeerIdentity :=
  match cp_addresses peer with
  | address :: _ => if bool_decide (address = []) then None
                    else Some (mkPeer (cp_nodeId peer) (default (cp_nodeId peer) (cp_user peer)) (default (cp_nodeId peer) (cp_hostname peer)) address)
  | [] => None
  end.

(** [leaseId] *)
Definition leaseId_of (args : list (jstr * jv)) : option jstr :=
  match prop (js "leaseId") args with
  | JUndef => None
  | value => match wire_id value with Ok id => Some id | Fail _ => None end
  end.

(** ** State *)

Record CommandContext := mkContext {
  cx_capability : jstr;
  cx_sessionId : option jstr;
  cx_leaseId : option jstr;
  cx_lease : option Lease;
  cx_released : bool;
}.
(** The response kept for a command: what its [result] or [error] says. *)
Inductive LeaseOutcome := LeaseHeld (lease : Lease) | LeaseGiven (leaseId : option jstr) (released : bool) | LeaseError (code : jstr).
Record ServerResponse := mkResponse {
  sv_requestId : jstr;
  sv_commandId : jstr;
  sv_command : jstr;
  sv_hostId : jstr;
  sv_sessionId : option jstr;
  sv_outcome : LeaseOutcome;
}.
Record CachedCommand := mkCached { cc_fingerprint : jstr; cc_response : ServerResponse; cc_expiresAt : Z }.
Record ConnectionState := mkConnState {
  cs_principal : option AuthenticatedPrincipal;
  cs_capabilities : list jstr;
  cs_features : list jstr;
  cs_paired : bool;
  cs_justPaired : bool;
  cs_ready : bool;
  cs_closeIssued : bool;
  cs_contexts : jsmap jstr CommandContext;
  cs_idempotency : jsmap jstr CachedCommand;
}.
Record RemotePolicy := mkPolicy {
  po_registry : DeviceRegistry;
  po_pairing : LocalPairing;
  po_leases : LeaseRegistry;
  po_states : jsmap jstr ConnectionState;
}.
Implicit Types (p : RemotePolicy) (st : ConnectionState) (conn : RemoteConnection).

Definition fresh_state : ConnectionState := mkConnState None [] [] false false false false [] [].
Definition with_registry p registry : RemotePolicy := mkPolicy registry (po_pairing p) (po_leases p) (po_states p).
Definition with_pairing p pairing registry : RemotePolicy := mkPolicy registry pairing (po_leases p) (po_states p).
Definition with_leases p leases : RemotePolicy := mkPolicy (po_registry p) (po_pairing p) leases (po_states p).
Definition set_state p (connectionId : jstr) st : RemotePolicy := mkPolicy (po_registry p) (po_pairing p) (po_leases p) (map_set connectionId st (po_states p)).

(** ** Invalidation *)

Definition invalidated_state st : ConnectionState := mkConnState (cs_principal st) [] [] false false false true [] [].
Definition principal_is (deviceId : jstr) st : bool :=
  match cs_principal st with Some pr => jstr_eqb (dv_deviceId (pr_device pr)) deviceId | None => false end.

(** [#invalidateDevice] *)
Definition invalidateDevice p (deviceId : jstr) : RemotePolicy :=
  mkPolicy (po_registry p) (po_pairing p) (disconnect_leases (po_leases p) deviceId None)
    (map (fun kv => (fst kv, if principal_is deviceId (snd kv) then invalidated_state (snd kv) else snd kv)) (po_states p)).
(** The listeners after a method of the registry. *)
Definition notified p (invalidated : option jstr) : RemotePolicy := match invalidated with Some d => invalidateDevice p d | None => p end.

(** [revokeDevice] *)
Definition safeString (max : Z) (value : jstr) : bool := safe max value.
Definition revokeDevice p (now : Z) (deviceId : jstr) : RemotePolicy * attempt unit :=
  if negb (safeString 512 deviceId) then (p, Threw (js "device id invalid"))
  else (invalidateDevice (notified (with_registry p (revoke_device (po_registry p) deviceId now)) (Some deviceId)) deviceId, Done tt).

(** [#livePrincipal] of the state of a connection *)
Definition livePrincipal p (now : Z) (connectionId : jstr) st : RemotePolicy * attempt (option AuthenticatedPrincipal) :=
  match cs_principal st with
  | Some known =>
      if negb (cs_paired st) || negb (cs_ready st) then (p, Done None)
      else match getAuthenticatedPrincipal (po_registry p) now connectionId (dv_deviceId (pr_device known)) with
           | (registry, Threw e) => (with_registry p registry, Threw e)
           | (registry, Done None) => (invalidateDevice (with_registry p registry) (dv_deviceId (pr_device known)), Done None)
           | (registry, Done (Some principal)) =>
               (set_state (with_registry p registry) connectionId
                  (mkConnState (Some principal) (cs_capabilities st) (cs_features st) (cs_paired st) (cs_justPaired st) (cs_ready st) (cs_closeIssued st)
                     (cs_contexts st) (cs_idempotency st)), Done (Some principal))
           end
  | None => (p, Done None)
  end.

(** ** Idempotent responses *)

(** [canonicalValue]; object keys are ordered by the engine's collation. *)
Fixpoint canonicalValue (localeCompare : jstr -> jstr -> comparison) (value : jv) : jstr :=
  match value with
  | JStr _ | JBool _ => serialize value
  | JNum n => if num_finite n then serialize value else js "null"
  | JArr items => js "[" ++ join (js ",") (map (canonicalValue localeCompare) items) ++ js "]"
  | JObj props =>
      js "{" ++ join (js ",") (map snd (sort (fun a b => localeCompare (fst a) (fst b))
                                  (map (fun kv => (fst kv, quote (fst kv) ++ js ":" ++ canonicalValue localeCompare (snd kv))) props))) ++ js "}"
  | _ => js "null"
  end.
Definition optional_text (s : option jstr) : jv := match s with Some s => JStr s | None => JUndef end.
Definition commandFingerprint (localeCompare : jstr -> jstr -> comparison) (frame : CommandFrame) : jstr :=
  canonicalValue localeCompare
    (JObj [(js "command", JStr (cf_command frame)); (js "hostId", JStr (cf_hostId frame)); (js "sessionId", optional_text (cf_sessionId frame));
           (js "expectedRevision", optional_text (cf_expectedRevision frame)); (js "confirmationId", optional_text (cf_confirmationId frame));
           (js "args", JObj (cf_args frame))]).

Definition response_to (frame : CommandFrame) (outcome : LeaseOutcome) : ServerResponse :=
  mkResponse (cf_requestId frame) (cf_commandId frame) (cf_command frame) (cf_hostId frame) (cf_sessionId frame) outcome.
(** [leaseResponse] *)
Definition leaseResponse (frame : CommandFrame) (context : CommandContext) : ServerResponse :=
  response_to frame (match cx_lease context with Some lease => LeaseHeld lease | None => LeaseGiven (cx_leaseId context) (cx_released context) end).

(** [state.idempotency.set(...)] and the deletion of the oldest beyond 128 *)
Definition remember_response (m : jsmap jstr CachedCommand) (commandId : jstr) (entry : CachedCommand) : jsmap jstr CachedCommand :=
  let m := map_set commandId entry m in drop (length m - 128) m.

Definition with_idempotency st m : ConnectionState :=
  mkConnState (cs_principal st) (cs_capabilities st) (cs_features st) (cs_paired st) (cs_justPaired st) (cs_ready st) (cs_closeIssued st) (cs_contexts st) m.
Definition with_context st (commandId : jstr) (context : CommandContext) (entry : CachedCommand) : ConnectionState :=
  mkConnState (cs_principal st) (cs_capabilities st) (cs_features st) (cs_paired st) (cs_justPaired st) (cs_ready st) (cs_closeIssued st)
    (map_set commandId context (cs_contexts st)) (remember_response (cs_idempotency st) commandId entry).

Definition truthy_text (s : option jstr) : option jstr := match s with Some [] => None | _ => s end.

(** ** Methods *)

Record RemoteHelloDecision := mkDecision { hd_authentication : jstr; hd_capabilities : list jstr; hd_features : list jstr; hd_deviceId : option jstr }.

(** How the lease part of [authorize] ends. *)
Inductive LeaseStage := Refused | Answered (code : jstr) | Proceed (lease : option Lease) (releasePending : bool).

Definition is_acquire (command : jstr) : bool := jstr_eqb command (js "controller.lease.acquire") || jstr_eqb command (js "prompt.lease.acquire").
Definition is_renew (command : jstr) : bool := jstr_eqb command (js "controller.lease.renew") || jstr_eqb command (js "prompt.lease.renew").
Definition is_release (command : jstr) : bool := jstr_eqb command (js "controller.lease.release") || jstr_eqb command (js "prompt.lease.release").

Section Policy.
Context (sha256 : list N -> list N) (isIP : jstr -> Z) (hmac : jstr -> list N) (localeCompare : jstr -> jstr -> comparison).
Context (supportedCapabilities supportedFeatures : list jstr).

(** [issuePairingTicket] *)
Definition issuePairingTicket p (now : Z) (code : jstr) (allowedCapabilities : list jstr) (ttlMs : Z) (nodeId : option jstr) : RemotePolicy * attempt (jstr * Z) :=
  if (len allowedCapabilities =? 0) || existsb (fun c => negb (isCapability c)) allowedCapabilities then (p, Threw (js "local pairing capabilities invalid"))
  else let (pairing, result) := issue_ticket hmac (po_pairing p) now code allowedCapabilities ttlMs nodeId in
       (with_pairing p pairing (po_registry p), result).

(** [authenticate] *)
Definition hello p (now : Z) conn (frame : HelloFrame) : RemotePolicy * RemoteHelloDecision :=
  let p := set_state p (rc_connectionId conn) fresh_state in
  let denied := mkDecision (js "denied") [] [] None in
  match he_authentication frame with
  | None => (p, mkDecision (js "pairing-required") [] [] None)
  | Some (deviceId, token) =>
      match securityIdentity (rc_peer conn) with
      | None => (p, denied)
      | Some identity =>
          let '(registry, invalidated, result) := authenticate sha256 isIP (po_registry p) now deviceId token identity (rc_connectionId conn) in
          let p := notified (with_registry p registry) invalidated in
          match result with
          | Threw _ => (p, denied)
          | Done principal =>
              let capabilities := capIntersection (dv_capabilities (pr_device principal)) (requestedCapabilities frame) supportedCapabilities in
              let features := featureIntersection supportedFeatures (he_requestedFeatures frame) supportedFeatures in
              (set_state p (rc_connectionId conn) (mkConnState (Some principal) capabilities features true false true false [] []),
               mkDecision (js "paired") capabilities features (Some (dv_deviceId (pr_device principal))))
          end
      end
  end.

Definition paired_state st : ConnectionState :=
  mkConnState (cs_principal st) (cs_capabilities st) (cs_features st) true true true (cs_closeIssued st) (cs_contexts st) (cs_idempotency st).

(** [pairStart]: the device and the token it answers with *)
Definition pairStart p (now : Z) (token : jstr) (salt : list N) conn (frame : PairStartFrame) : RemotePolicy * option (LocalPairingResult * list jstr) :=
  match map_get (rc_connectionId conn) (po_states p) with
  | None => (p, None)
  | Some st =>
      if cs_paired st then (p, None)
      else match securityIdentity (rc_peer conn) with
           | None => (p, None)
           | Some identity =>
               let '(pairing, registry, result) := consume_ticket sha256 hmac (po_pairing p) (po_registry p) now token salt (ps_code frame) identity (ps_deviceId frame)
                 (mkMetadata (ps_deviceName frame) (Some (ps_platform frame))) (ps_requestedCapabilities frame) in
               let p := with_pairing p pairing registry in
               match result with
               | Threw _ => (p, None)
               | Done paired =>
                   let p := set_state p (rc_connectionId conn) (paired_state st) in
                   let '(registry, invalidated, result) :=
                     authenticate sha256 isIP (po_registry p) now (lq_deviceId paired) (lq_token paired) identity (rc_connectionId conn) in
                   let p := notified (with_registry p registry) invalidated in
                   match result with
                   | Threw _ => (p, None)
                   | Done principal =>
                       let capabilities := capIntersection (lq_capabilities paired) (lq_capabilities paired) supportedCapabilities in
                       let st := paired_state st in
                       (set_state p (rc_connectionId conn)
                          (mkConnState (Some principal) capabilities [] true true true (cs_closeIssued st) (cs_contexts st) (cs_idempotency st)),
                        Some (paired, capabilities))
                   end
               end
           end
  end.

(** The lease of a frame, when [verify] accepts it for the frame's session and command. *)
Definition verified_lease p (now : Z) (connectionId : jstr) (principal : AuthenticatedPrincipal) (frame : CommandFrame) : RemotePolicy * option jstr :=
  let device := pr_device principal in
  match truthy_text (cf_sessionId frame), truthy_text (leaseId_of (cf_args frame)) with
  | Some session, Some lease =>
      let (leases, ok) := verify_lease (po_leases p) now lease (dv_deviceId device) connectionId session (cf_command frame) (Some (dv_epoch device))
                            (cf_expectedRevision frame) in
      (with_leases p leases, if ok then Some lease else None)
  | _, _ => (p, None)
  end.

(** The part of [authorize] that concerns leases. *)
Definition lease_stage p (now : Z) (newLeaseId : jstr) (connectionId : jstr) (principal : AuthenticatedPrincipal) (frame : CommandFrame) (sessionRevision : option jstr)
    : RemotePolicy * LeaseStage :=
  let device := pr_device principal in
  let command := cf_command frame in
  if is_acquire command then
    match truthy_text (cf_sessionId frame), sessionRevision with
    | Some session, Some revision =>
        if negb (bool_decide (cf_expectedRevision frame = Some revision)) then (p, Answered (js "stale_revision"))
        else
          let kind := if starts_with (js "prompt.") command then Prompt else Controller in
          match acquire_lease (po_leases p) now newLeaseId (dv_deviceId device) connectionId session kind 30000 (dv_epoch device) (cf_expectedRevision frame) with
          | (leases, Done lease) => (with_leases p leases, Proceed (Some lease) false)
          | (leases, Threw _) => (with_leases p leases, Refused)
          end
    | _, _ => (p, Answered (js "unknown_session"))
    end
  else if is_renew command || is_release command || mutation command then
    match verified_lease p now connectionId principal frame with
    | (p, None) => (p, Refused)
    | (p, Some lease) =>
        if is_renew command then
          match renew_lease (po_leases p) now lease (dv_deviceId device) connectionId 30000 (Some (dv_epoch device)) (cf_expectedRevision frame) command with
          | (leases, Done lease) => (with_leases p leases, Proceed (Some lease) false)
          | (leases, Threw _) => (with_leases p leases, Refused)
          end
        else (p, Proceed None (is_release command))
    end
  else (p, Proceed None false).

(** [authorize] of a command whose capability was checked *)
Definition authorize_command p (now : Z) (newLeaseId connectionId : jstr) (principal : AuthenticatedPrincipal) st (capability : jstr) (frame : CommandFrame)
    (sessionRevision : option jstr) : RemotePolicy * bool :=
  let fingerprint := commandFingerprint localeCompare frame in
  let key := cf_commandId frame in
  let fresh st := 
    let '(p, stage) := lease_stage (set_state p connectionId st) now newLeaseId connectionId principal frame sessionRevision in
    match stage with
    | Refused => (p, false)
    | Answered code =>
        (set_state p connectionId (with_idempotency st (remember_response (cs_idempotency st) key
           (mkCached fingerprint (response_to frame (LeaseError code)) (now + 300000)))), true)
    | Proceed lease releasePending =>
        let id := truthy_text (leaseId_of (cf_args frame)) in
        let p := match releasePending, id with
                 | true, Some id => with_leases p (release_lease (po_leases p) id (dv_deviceId (pr_device principal)) connectionId
                                      (Some (dv_epoch (pr_device principal))) (cf_expectedRevision frame) (cf_command frame))
                 | _, _ => p
                 end in
        let context := mkContext capability (truthy_text (cf_sessionId frame)) id lease releasePending in
        (set_state p connectionId (with_context st key context (mkCached fingerprint (leaseResponse frame context) (now + 300000))), true)
    end in
  match map_get key (cs_idempotency st) with
  | Some cached => if cc_expiresAt cached <=? now then fresh (with_idempotency st (map_delete key (cs_idempotency st)))
                   else (p, jstr_eqb (cc_fingerprint cached) fingerprint)
  | None => fresh st
  end.

(** [#authorizeConfirm] *)
Definition authorizeConfirm p (now : Z) (connectionId : jstr) (principal : AuthenticatedPrincipal) st (commandId : jstr) : RemotePolicy * bool :=
  match map_get commandId (cs_contexts st) with
  | None => (p, false)
  | Some context =>
      if negb (in_strings (cx_capability context) (cs_capabilities st)) then (p, false)
      else match cx_leaseId context, cx_sessionId context with
           | Some lease, Some session =>
               let (leases, ok) := verify_lease (po_leases p) now lease (dv_deviceId (pr_device principal)) connectionId session (js "session.prompt")
                                     (Some (dv_epoch (pr_device principal))) None in
               (with_leases p leases, ok)
           | _, _ => (p, true)
           end
  end.

(** The features a frame needs were granted. *)
Definition feature_missing st (frame : ClientFrame) : bool :=
  match frameFeature frame with Some f => negb (in_strings f (cs_features st)) | None => false end.

(** [authorize] once the principal is live *)
Definition authorize_live p (now : Z) (newLeaseId connectionId : jstr) (principal : AuthenticatedPrincipal) st (frame : ClientFrame) (sessionRevision : option jstr)
    : RemotePolicy * bool :=
  if cs_justPaired st || feature_missing st frame then (p, false)
  else match frame with
       | FConfirm commandId => authorizeConfirm p now connectionId principal st commandId
       | _ =>
           match frameCapability frame with
           | None => (p, false)
           | Some capability =>
               if negb (in_strings capability (cs_capabilities st)) then (p, false)
               else match frame with
                    | FCommand f => authorize_command p now newLeaseId connectionId principal st capability f sessionRevision
                    | _ => (p, true)
                    end
           end
       end.

(** [authorize] *)
Definition authorize p (now : Z) (newLeaseId : jstr) conn (frame : ClientFrame) (sessionRevision : option jstr) : RemotePolicy * attempt bool :=
  let c := rc_connectionId conn in
  match map_get c (po_states p), frame with
  | None, _ => (p, Done false)
  | Some _, FPing => (p, Done true)
  | Some st, _ =>
      match livePrincipal p now c st with
      | (p, Threw e) => (p, Threw e)
      | (p, Done None) => (p, Done false)
      | (p, Done (Some principal)) =>
          let (p, ok) := authorize_live p now newLeaseId c principal (default fresh_state (map_get c (po_states p))) frame sessionRevision in (p, Done ok)
      end
  end.

(** [handleCommand]: the response to a lease command *)
Definition handleCommand p (now : Z) conn (frame : CommandFrame) : RemotePolicy * attempt (option ServerResponse) :=
  let c := rc_connectionId conn in
  match map_get c (po_states p) with
  | None => (p, Done None)
  | Some st =>
      match livePrincipal p now c st with
      | (p, Threw e) => (p, Threw e)
      | (p, Done None) => (p, Done None)
      | (p, Done (Some _)) =>
          let st := default fresh_state (map_get c (po_states p)) in
          if cs_justPaired st || match commandFeature (cf_command frame) with Some f => negb (in_strings f (cs_features st)) | None => true end ||
             negb (serverLeaseCommand (cf_command frame))
          then (p, Done None)
          else match map_get (cf_commandId frame) (cs_idempotency st) with
               | None => (p, Done None)
               | Some cached =>
                   if cc_expiresAt cached <=? now then (set_state p c (with_idempotency st (map_delete (cf_commandId frame) (cs_idempotency st))), Done None)
                   else if negb (jstr_eqb (cc_fingerprint cached) (commandFingerprint localeCompare frame)) then (p, Done None)
                   else let r := cc_response cached in
                        (p, Done (Some (mkResponse (cf_requestId frame) (cf_commandId frame) (sv_command r) (sv_hostId r) (sv_sessionId r) (sv_outcome r))))
               end
      end
  end.

(** [transformOutbound] of the frame that completes a pairing: whether it is sent *)
Definition outbound_pair_ok p conn : RemotePolicy * bool :=
  match map_get (rc_connectionId conn) (po_states p) with
  | Some st =>
      if cs_closeIssued st || negb (cs_justPaired st) then (p, false)
      else (set_state p (rc_connectionId conn)
              (mkConnState (cs_principal st) (cs_capabilities st) (cs_features st) (cs_paired st) false (cs_ready st) (cs_closeIssued st) (cs_contexts st)
                 (cs_idempotency st)), true)
  | None => (p, false)
  end.

(** [disconnected] *)
Definition disconnected p conn : RemotePolicy :=
  let c := rc_connectionId conn in
  let device := match map_get c (po_states p) with
                | Some st => match cs_principal st with Some pr => dv_deviceId (pr_device pr) | None => [] end
                | None => []
                end in
  mkPolicy (po_registry p) (po_pairing p) (disconnect_leases (po_leases p) device (Some c)) (map_delete c (po_states p)).
End Policy.
