(* ===== verification/RemotePolicySpec.v ===== *)
(** * RemotePolicySpec: what a remote connection is allowed goes back to a ticket and a sign-in *)
From stdpp Require Import base tactics option list numbers strings sets.
From S2P Require Import Prelude JsMap JsString JsValue Wire WireGuards Commands DeviceRegistry RemoteLeases RemotePolicy.
Implicit Types (r : DeviceRegistry) (p : RemotePolicy) (st : ConnectionState) (conn : RemoteConnection) (row : DeviceRow).

(** ** The table of devices *)

(** A row keeps its identity, token and capabilities, and stays revoked. *)
Record row_le row row' : Prop := {
  rl_id : dv_deviceId (rw_device row') = dv_deviceId (rw_device row);
  rl_key : dv_identityKey (rw_device row') = dv_identityKey (rw_device row);
  rl_caps : dv_capabilities (rw_device row') = dv_capabilities (rw_device row);
  rl_salt : rw_salt row' = rw_salt row;
  rl_digest : rw_digest row' = rw_digest row;
  rl_revoked : dv_revokedAt (rw_device row) ≠ None -> dv_revokedAt (rw_device row') ≠ None;
}.
Lemma row_le_refl row : row_le row row.
Proof. by constructor. Qed.

(** The same devices, with rows that may have been revoked or seen. *)
Definition devices_le (m m' : jsmap jstr DeviceRow) : Prop :=
  forall k, match map_get k m, map_get k m' with
            | Some row, Some row' => row_le row row'
            | None, None => True
            | _, _ => False
            end.
Lemma devices_le_refl m : devices_le m m.
Proof. intros k. destruct (map_get k m); [apply row_le_refl|done]. Qed.
Lemma devices_le_set m k row row' : map_get k m = Some row -> row_le row row' -> devices_le m (map_set k row' m).
Proof.
  intros Hk Hle x. rewrite map_get_set. destruct (decide (x = k)) as [->|]; [by rewrite Hk|]. destruct (map_get x m); [apply row_le_refl|done].
Qed.
Lemma devices_le_get m m' k row : devices_le m m' -> map_get k m = Some row -> exists row', map_get k m' = Some row' /\ row_le row row'.
Proof. intros H Hk. specialize (H k). rewrite Hk in H. destruct (map_get k m') as [row'|]; [by eexists|done]. Qed.
Lemma devices_le_back m m' k row' : devices_le m m' -> map_get k m' = Some row' -> exists row, map_get k m = Some row /\ row_le row row'.
Proof. intros H Hk. specialize (H k). rewrite Hk in H. destruct (map_get k m) as [row|]; [by eexists|done]. Qed.

(** Rows are kept under their device. *)
Definition rows_keyed (m : jsmap jstr DeviceRow) : Prop := forall k row, map_get k m = Some row -> dv_deviceId (rw_device row) = k.

Lemma read_row_spec row d : read_row row = Done d ->
  dv_deviceId d = dv_deviceId (rw_device row) /\ dv_identityKey d = dv_identityKey (rw_device row) /\ dv_capabilities d = dv_capabilities (rw_device row) /\
  dv_revokedAt d = dv_revokedAt (rw_device row) /\ dv_tokenExpiresAt d = dv_tokenExpiresAt (rw_device row) /\ dv_epoch d = dv_epoch (rw_device row).
Proof. unfold read_row. repeat (case_match; [done|]). by intros [= <-]. Qed.
Lemma get_device_spec r k d : get_device r k = Done (Some d) -> exists row, map_get k (rg_devices r) = Some row /\ read_row row = Done d.
Proof. unfold get_device. destruct (map_get k _) as [row|]; [|done]. destruct (read_row row) eqn:E; [|done]. intros [= ->]. eauto. Qed.

Lemma revoke_devices r k now : rows_keyed (rg_devices r) -> devices_le (rg_devices r) (rg_devices (revoke_device r k now)).
Proof.
  intros Hk. unfold revoke_device. destruct (map_get k (rg_devices r)) as [row|] eqn:E; cbn [set_active set_row rg_devices rw_device revoked dv_deviceId]; [|apply devices_le_refl].
  rewrite (Hk _ _ E). eapply devices_le_set; [done|]. by constructor.
Qed.
Lemma revoke_revokes r k now row : rows_keyed (rg_devices r) -> map_get k (rg_devices r) = Some row ->
  exists row', map_get k (rg_devices (revoke_device r k now)) = Some row' /\ dv_revokedAt (rw_device row') ≠ None.
Proof.
  intros Hk E. unfold revoke_device. rewrite E. cbn [set_active set_row rg_devices rw_device revoked dv_deviceId]. rewrite (Hk _ _ E), map_get_set_eq. by eexists.
Qed.

Lemma authenticate_spec sha256 isIP r now k token identity c r' inv result : rows_keyed (rg_devices r) -> authenticate sha256 isIP r now k token identity c = (r', inv, result) ->
  devices_le (rg_devices r) (rg_devices r') /\
  match result with
  | Threw _ => True
  | Done pr => dv_deviceId (pr_device pr) = k /\ inv = None /\ exists row, map_get k (rg_devices r') = Some row /\
      dv_capabilities (pr_device pr) = dv_capabilities (rw_device row) /\ dv_identityKey (rw_device row) = identity_text identity /\
      rw_digest row = token_hash sha256 (rw_salt row) token
  end.
Proof.
  intros Hk. unfold authenticate. destruct (get_device r k) as [found|] eqn:Eg; [|intros [= <- <- <-]; split; [apply devices_le_refl|done]]. cbv zeta.
  change (rg_devices (tick r now)) with (rg_devices r). destruct found as [d|]; [|intros [= <- <- <-]; split; [apply devices_le_refl|done]].
  destruct (get_device_spec _ _ _ Eg) as (row & Er & Ed). rewrite Er. case_match; [intros [= <- <- <-]; split; [apply devices_le_refl|done]|].
  case_match; [intros [= <- <- <-]; split; [by apply (revoke_devices (tick r now))|done]|].
  destruct (canonicalIdentity isIP identity) as [key|] eqn:Ei; [|intros [= <- <- <-]; split; [apply devices_le_refl|done]].
  destruct (jstr_eqb _ key) eqn:Ek; cbn [negb]; [|intros [= <- <- <-]; split; [apply devices_le_refl|done]].
  case_match; [intros [= <- <- <-]; split; [apply devices_le_refl|done]|].
  destruct (bool_decide (rw_digest row = _)) eqn:Eh; cbn [negb]; [|intros [= <- <- <-]; split; [apply devices_le_refl|done]].
  intros [= <- <- <-]. cbn [set_active set_row rg_devices rw_device seen_at dv_deviceId tick]. destruct (read_row_spec _ _ Ed) as (E1 & E2 & E3 & _).
  rewrite (Hk _ _ Er). split; [eapply devices_le_set; [done|by constructor]|]. cbn [pr_device dv_deviceId seen_at dv_capabilities]. rewrite E1, (Hk _ _ Er). split; [done|]. split; [done|].
  eexists. rewrite map_get_set_eq. split; [done|]. cbn. split; [done|]. apply jstr_eqb_eq in Ek. apply bool_decide_eq_true in Eh. rewrite <- E2, Ek. split; [|done].
  unfold canonicalIdentity in Ei. case_match; [done|]. by injection Ei as <-.
Qed.

(** The principal that counts is a device that is neither revoked nor expired. *)
Lemma principal_spec r now c k r' result : rows_keyed (rg_devices r) -> getAuthenticatedPrincipal r now c k = (r', result) ->
  rg_devices r' = rg_devices r /\
  match result with
  | Done (Some pr) => exists row, map_get k (rg_devices r) = Some row /\ dv_deviceId (pr_device pr) = k /\ dv_revokedAt (rw_device row) = None /\
      now < dv_tokenExpiresAt (rw_device row) /\ dv_epoch (pr_device pr) = dv_epoch (rw_device row)
  | _ => True
  end.
Proof.
  intros Hk. unfold getAuthenticatedPrincipal. destruct (map_get (active_key c k) _) as [pr|]; [|by intros [= <- <-]]. cbv zeta.
  destruct (get_device (tick r now) k) as [[d|]|] eqn:Eg; [|by intros [= <- <-]|by intros [= <- <-]].
  destruct (get_device_spec _ _ _ Eg) as (row & Er & Ed). destruct (read_row_spec _ _ Ed) as (E1 & E2 & E3 & E4 & E5 & E6).
  destruct (_ || _) eqn:Eb; [by intros [= <- <-]|]. intros [= <- <-]. split; [done|]. rewrite !orb_false_iff in Eb. destruct Eb as [[B1 B2] B3].
  exists row. split; [done|]. cbn [pr_device dv_deviceId dv_epoch]. rewrite E1, (Hk _ _ Er). split_and!; try done.
  - apply bool_decide_eq_false in B2. rewrite <- E4. destruct (dv_revokedAt d); [|done]. exfalso. by apply B2.
  - rewrite <- E5. apply Z.leb_gt in B3. cbn [tick rg_lastNow] in B3. unfold later in B3. destruct (rg_lastNow r); lia.
Qed.

(** ** Tickets *)

(** Tickets leave, or are tried once more. *)
Definition pending_le (m m' : jsmap (list N) LocalTicket) : Prop := forall k t', map_get k m' = Some t' ->
  exists t, map_get k m = Some t /\ lt_allowed t' = lt_allowed t /\ lt_nodeId t' = lt_nodeId t.
Lemma pending_le_refl m : pending_le m m.
Proof. intros k t Ht. eauto. Qed.
Lemma pending_le_try m k t : map_get k m = Some t ->
  pending_le m (map_set k (mkTicket (lt_digest t) (lt_expiresAt t) (lt_nodeId t) (lt_allowed t) (lt_attempts t + 1)) m).
Proof. intros Hk x t'. rewrite map_get_set. destruct (decide (x = k)) as [->|]; [intros [= <-]|]; eauto. Qed.

(** What a successful pairing did. *)
Record paired_by hmac sha256 (li li' : LocalPairing) r r' (now : Z) (token : jstr) (salt : list N) (code : jstr) (identity : RemotePeerIdentity)
    (deviceId : jstr) (result : LocalPairingResult) : Prop := {
  pb_device : lq_deviceId result = deviceId /\ lq_token result = token;
  pb_new : map_get deviceId (rg_devices r) = None;
  pb_ticket : exists t, map_get (hmac code) (lp_pending li) = Some t /\ now < lt_expiresAt t /\ (forall n, lt_nodeId t = Some n -> n = pe_nodeId identity) /\
    (forall c, c ∈ lq_capabilities result -> c ∈ lt_allowed t);
  pb_gone : map_get (hmac code) (lp_pending li') = None;
  pb_row : exists row, rg_devices r' = map_set deviceId row (rg_devices r) /\ dv_deviceId (rw_device row) = deviceId /\
    dv_capabilities (rw_device row) = lq_capabilities result /\ dv_identityKey (rw_device row) = identity_text identity /\
    dv_revokedAt (rw_device row) = None /\ rw_digest row = token_hash sha256 (rw_salt row) token;
}.

Lemma consume_ticket_spec sha256 hmac li r now token salt code identity deviceId metadata requested li' r' result :
  consume_ticket sha256 hmac li r now token salt code identity deviceId metadata requested = (li', r', result) ->
  pending_le (lp_pending li) (lp_pending li') /\
  match result with
  | Threw _ => rg_devices r' = rg_devices r
  | Done q => paired_by hmac sha256 li li' r r' now token salt code identity deviceId q
  end.
Proof.
  unfold consume_ticket. cbv zeta. destruct (_ || _) eqn:Ev; [intros [= <- <- <-]; split; [apply pending_le_refl|done]|].
  destruct (blocked _ _ _); [intros [= <- <- <-]; split; [apply pending_le_refl|done]|]. cbn [lp_pending].
  destruct (map_get (hmac code) (lp_pending li)) as [t|] eqn:Et; [|intros [= <- <- <-]; split; [apply pending_le_refl|done]].
  destruct (ticket_refused _ _ t) eqn:Er; [intros [= <- <- <-]; split; [apply pending_le_refl|done]|].
  set (granted := List.filter _ _). destruct (len granted =? 0); [intros [= <- <- <-]; split; [by apply pending_le_try|done]|].
  destruct (get_device r deviceId) as [[d|]|] eqn:Eg; [intros [= <- <- <-]; split; [by apply pending_le_try|done]| |intros [= <- <- <-]; split; [by apply pending_le_try|done]].
  set (d := mkDevice _ _ _ _ _ _ _ _ _ _). destruct (create_device _ _ _ _ d _) as [r1 [[]|e]] eqn:Ec; intros [= <- <- <-].
  - split.
    { cbn [lp_pending set_pending]. intros k t'. rewrite map_get_delete. destruct (decide _); [done|]. apply (pending_le_try _ _ _ Et k t'). }
    unfold create_device in Ec. cbv zeta in Ec. case_match; [done|]. destruct (map_has _ _) eqn:Eh; [done|]. injection Ec as <-.
    unfold ticket_refused in Er. rewrite !orb_false_iff in Er. destruct Er as [[R1 R2] _]. constructor; cbn [lq_deviceId lq_token lq_capabilities]; try done.
    + apply map_get_none_keys. by apply map_has_false in Eh.
    + exists t. split_and!; [done| | |].
      * apply Z.leb_gt in R1. unfold later in R1. destruct (lp_lastNow li); lia.
      * intros n Hn. rewrite Hn in R2. apply negb_false_iff, jstr_eqb_eq in R2. done.
      * intros c [_ Hc]%elem_of_filter_list. by apply in_strings_spec.
    + cbn [lp_pending set_pending]. apply map_get_delete_eq.
    + eexists. split; [done|]. done.
  - split; [by apply pending_le_try|]. unfold create_device in Ec. cbv zeta in Ec. case_match; [by injection Ec as <-|]. case_match; [by injection Ec as <-|done].
Qed.

(** ** Runs *)

(** Calls of the policy with what the clock and the random generator answer; a restart keeps the table of devices only. *)
Inductive PolicyOp :=
| PIssue (now : Z) (code : jstr) (allowed : list jstr) (ttlMs : Z) (nodeId : option jstr)
| PRevoke (now : Z) (deviceId : jstr)
| PHello (now : Z) (conn : RemoteConnection) (frame : HelloFrame)
| PPair (now : Z) (token : jstr) (salt : list N) (conn : RemoteConnection) (frame : PairStartFrame)
| PAuthorize (now : Z) (leaseId : jstr) (conn : RemoteConnection) (frame : ClientFrame) (sessionRevision : option jstr)
| PHandle (now : Z) (conn : RemoteConnection) (frame : CommandFrame)
| POutbound (conn : RemoteConnection)
| PDisconnected (conn : RemoteConnection)
| PRestart.

Record IssuedTicket := mkIssued { it_digest : list N; it_allowed : list jstr; it_nodeId : option jstr }.
Record PairedDevice := mkPairedDevice { pd_deviceId : jstr; pd_ticket : nat; pd_identity : RemotePeerIdentity }.
Record SignIn := mkSignIn { sg_conn : RemoteConnection; sg_deviceId : jstr; sg_token : jstr }.
(** What happened: the tickets issued, the devices paired and with which of the tickets, the devices revoked, and the sign-in that each
    connection now stands on. *)
Record History := mkHistory {
  h_tickets : list IssuedTicket;
  h_paired : list PairedDevice;
  h_revoked : list jstr;
  h_signed : list SignIn;
}.

(** The last ticket issued with a digest. *)
Definition last_ticket (digest : list N) (tickets : list IssuedTicket) : option nat :=
  snd (fold_left (fun acc t => (S (fst acc), if bool_decide (it_digest t = digest) then Some (fst acc) else snd acc)) tickets (0%nat, None)).
Definition sign_out (connectionId : jstr) (l : list SignIn) : list SignIn := List.filter (fun s => negb (jstr_eqb (rc_connectionId (sg_conn s)) connectionId)) l.

Lemma last_ticket_snoc digest tickets t : last_ticket digest (tickets ++ [t]) = if bool_decide (it_digest t = digest) then Some (length tickets) else last_ticket digest tickets.
Proof.
  unfold last_ticket. rewrite fold_left_app. cbn [fold_left snd fst].
  assert (forall l acc, fst (fold_left (fun acc t => (S (fst acc), if bool_decide (it_digest t = digest) then Some (fst acc) else snd acc)) l acc) = (length l + fst acc)%nat) as H.
  { induction l as [|x l IH]; intros acc; cbn [fold_left length]; [done|]. rewrite IH. cbn. lia. }
  rewrite H. cbn. by rewrite Nat.add_0_r.
Qed.

Section Runs.
Context (sha256 : list N -> list N) (isIP : jstr -> Z) (hmac : jstr -> list N) (localeCompare : jstr -> jstr -> comparison).
Context (supportedCapabilities supportedFeatures : list jstr).
Abbreviation authorize := (authorize localeCompare).

(** The tickets, devices and sign-ins a pairing adds. *)
Definition pair_history (h : History) p p' conn (frame : PairStartFrame) (token : jstr) (signed : bool) : History :=
  let created := negb (map_has (ps_deviceId frame) (rg_devices (po_registry p))) && map_has (ps_deviceId frame) (rg_devices (po_registry p')) in
  mkHistory (h_tickets h)
    (h_paired h ++ match created, last_ticket (hmac (ps_code frame)) (h_tickets h), securityIdentity (rc_peer conn) with
                   | true, Some i, Some identity => [mkPairedDevice (ps_deviceId frame) i identity]
                   | _, _, _ => []
                   end)
    (h_revoked h)
    (if signed then mkSignIn conn (ps_deviceId frame) token :: h_signed h else h_signed h).

Definition policy_step (s : RemotePolicy * History) (op : PolicyOp) : RemotePolicy * History :=
  let (p, h) := s in
  match op with
  | PIssue now code allowed ttl nodeId =>
      match issuePairingTicket hmac p now code allowed ttl nodeId with
      | (p, Done _) => (p, mkHistory (h_tickets h ++ [mkIssued (hmac code) allowed nodeId]) (h_paired h) (h_revoked h) (h_signed h))
      | (p, Threw _) => (p, h)
      end
  | PRevoke now d =>
      match revokeDevice p now d with
      | (p', Done _) => (p', mkHistory (h_tickets h) (h_paired h) (if map_has d (rg_devices (po_registry p)) then d :: h_revoked h else h_revoked h) (h_signed h))
      | (p', Threw _) => (p', h)
      end
  | PHello now conn frame =>
      let (p, decision) := hello sha256 isIP supportedCapabilities supportedFeatures p now conn frame in
      let out := sign_out (rc_connectionId conn) (h_signed h) in
      (p, mkHistory (h_tickets h) (h_paired h) (h_revoked h)
            (match hd_deviceId decision, he_authentication frame with Some d, Some (_, token) => mkSignIn conn d token :: out | _, _ => out end))
  | PPair now token salt conn frame =>
      let (p', result) := pairStart sha256 isIP hmac supportedCapabilities p now token salt conn frame in
      (p', pair_history h p p' conn frame token (match result with Some _ => true | None => false end))
  | PAuthorize now lease conn frame rev => (fst (authorize p now lease conn frame rev), h)
  | PHandle now conn frame => (fst (handleCommand localeCompare p now conn frame), h)
  | POutbound conn => (fst (outbound_pair_ok p conn), h)
  | PDisconnected conn => (disconnected p conn, mkHistory (h_tickets h) (h_paired h) (h_revoked h) (sign_out (rc_connectionId conn) (h_signed h)))
  | PRestart => (mkPolicy (mkRegistry (rg_devices (po_registry p)) [] None) new_pairing new_leases [], mkHistory (h_tickets h) (h_paired h) (h_revoked h) [])
  end.
Definition new_policy : RemotePolicy := mkPolicy (mkRegistry [] [] None) new_pairing new_leases [].
Definition policy_run (ops : list PolicyOp) : RemotePolicy * History := fold_left policy_step ops (new_policy, mkHistory [] [] [] []).

(** ** Steps that change nothing that was granted *)

Definition devices p : jsmap jstr DeviceRow := rg_devices (po_registry p).
Definition states_le (m m' : jsmap jstr ConnectionState) : Prop := forall c st' pr', map_get c m' = Some st' -> cs_principal st' = Some pr' ->
  exists st pr, map_get c m = Some st /\ cs_principal st = Some pr /\ dv_deviceId (pr_device pr') = dv_deviceId (pr_device pr) /\
    (forall x, x ∈ cs_capabilities st' -> x ∈ cs_capabilities st).
Record quiet p p' : Prop := {
  qu_devices : devices_le (devices p) (devices p');
  qu_pending : pending_le (lp_pending (po_pairing p)) (lp_pending (po_pairing p'));
  qu_states : states_le (po_states p) (po_states p');
}.

Lemma states_le_refl m : states_le m m.
Proof. intros c st pr H1 H2. eauto 10. Qed.
Lemma states_le_trans m1 m2 m3 : states_le m1 m2 -> states_le m2 m3 -> states_le m1 m3.
Proof.
  intros H12 H23 c st3 pr3 G P. destruct (H23 _ _ _ G P) as (st2 & pr2 & G2 & P2 & E2 & C2). destruct (H12 _ _ _ G2 P2) as (st1 & pr1 & G1 & P1 & E1 & C1).
  exists st1, pr1. split_and!; [done|done|by rewrite E2|auto].
Qed.
Lemma row_le_trans row1 row2 row3 : row_le row1 row2 -> row_le row2 row3 -> row_le row1 row3.
Proof. intros [] []. constructor; by (etrans; eauto) || auto. Qed.
Lemma devices_le_trans m1 m2 m3 : devices_le m1 m2 -> devices_le m2 m3 -> devices_le m1 m3.
Proof.
  intros H12 H23 k. specialize (H12 k). specialize (H23 k). destruct (map_get k m1), (map_get k m2), (map_get k m3); try done. by eapply row_le_trans.
Qed.
Lemma pending_le_trans m1 m2 m3 : pending_le m1 m2 -> pending_le m2 m3 -> pending_le m1 m3.
Proof.
  intros H12 H23 k t3 H3. destruct (H23 _ _ H3) as (t2 & H2 & A2 & N2). destruct (H12 _ _ H2) as (t1 & H1 & A1 & N1). exists t1. split_and!; [done|by rewrite A2|by rewrite N2].
Qed.
Lemma quiet_refl p : quiet p p.
Proof. constructor; [apply devices_le_refl|apply pending_le_refl|apply states_le_refl]. Qed.
Lemma quiet_trans p1 p2 p3 : quiet p1 p2 -> quiet p2 p3 -> quiet p1 p3.
Proof. intros [] []. constructor; [by eapply devices_le_trans|by eapply pending_le_trans|by eapply states_le_trans]. Qed.

Lemma quiet_registry p r : devices_le (devices p) (rg_devices r) -> quiet p (with_registry p r).
Proof. intros H. constructor; [done|apply pending_le_refl|apply states_le_refl]. Qed.
Lemma quiet_leases p ls : quiet p (with_leases p ls).
Proof. constructor; [apply devices_le_refl|apply pending_le_refl|apply states_le_refl]. Qed.
Lemma quiet_set_state p c st st' : map_get c (po_states p) = Some st -> cs_principal st' = cs_principal st -> (forall x, x ∈ cs_capabilities st' -> x ∈ cs_capabilities st) ->
  quiet p (set_state p c st').
Proof.
  intros Hst Hp Hc. constructor; [apply devices_le_refl|apply pending_le_refl|]. intros x s pr. cbn [set_state po_states]. rewrite map_get_set. destruct (decide _) as [->|].
  - intros [= <-] Hpr. rewrite Hp in Hpr. exists st, pr. split_and!; done.
  - intros H1 H2. apply (states_le_refl _ _ _ _ H1 H2).
Qed.

Lemma map_get_map_snd {V} (f : jstr * V -> V) (m : jsmap jstr V) k :
  map_get k (map (fun kv => (fst kv, f kv)) m) = match map_get k m with Some v => Some (f (k, v)) | None => None end.
Proof. induction m as [|[x v] m IH]; [done|]. cbn. destruct (decide _) as [->|]; [done|]. apply IH. Qed.

Lemma quiet_invalidate p d : quiet p (invalidateDevice p d).
Proof.
  constructor; [apply devices_le_refl|apply pending_le_refl|]. intros c st' pr'. cbn [invalidateDevice po_states].
  rewrite (map_get_map_snd (fun kv => if principal_is d (snd kv) then invalidated_state (snd kv) else snd kv)). destruct (map_get c (po_states p)) as [st|] eqn:E; [|done].
  cbn [snd]. intros [= <-]. destruct (principal_is d st); cbn [invalidated_state cs_principal cs_capabilities]; intros Hp; exists st, pr'; split_and!; try done.
  by intros x ?%not_elem_of_nil.
Qed.
Lemma quiet_notified p d : quiet p (notified p d).
Proof. destruct d; [apply quiet_invalidate|apply quiet_refl]. Qed.

Lemma live_quiet p now c st p' result : rows_keyed (devices p) -> map_get c (po_states p) = Some st -> livePrincipal p now c st = (p', result) -> quiet p p'.
Proof.
  intros Hk Hst. unfold livePrincipal. destruct (cs_principal st) as [known|] eqn:Ep; [|intros [= <- _]; apply quiet_refl].
  destruct (_ || _); [intros [= <- _]; apply quiet_refl|].
  destruct (getAuthenticatedPrincipal _ _ _ _) as [r' res] eqn:Eg. destruct (principal_spec _ _ _ _ _ _ Hk Eg) as [Er Hres].
  assert (quiet p (with_registry p r')) as Hq by (apply quiet_registry; rewrite Er; apply devices_le_refl). destruct res as [[pr|]|]; intros [= <- _].
  - eapply quiet_trans; [exact Hq|]. constructor; [apply devices_le_refl|apply pending_le_refl|].
    intros x s q. cbn [set_state po_states with_registry]. rewrite map_get_set. destruct (decide _) as [->|]; [|apply states_le_refl].
    intros [= <-] [= <-]. cbn [cs_capabilities]. destruct Hres as (row & _ & E & _). exists st, known. split_and!; [done|done|by rewrite E|done].
  - eapply quiet_trans; [exact Hq|apply quiet_invalidate].
  - done.
Qed.

(** A connection that is live: its device is neither revoked nor expired. *)
Lemma live_spec p now c st p' pr : rows_keyed (devices p) -> livePrincipal p now c st = (p', Done (Some pr)) ->
  exists known row st', cs_principal st = Some known /\ dv_deviceId (pr_device pr) = dv_deviceId (pr_device known) /\ devices p' = devices p /\ po_leases p' = po_leases p /\
    map_get (dv_deviceId (pr_device known)) (devices p) = Some row /\ dv_revokedAt (rw_device row) = None /\ now < dv_tokenExpiresAt (rw_device row) /\
    dv_epoch (pr_device pr) = dv_epoch (rw_device row) /\ map_get c (po_states p') = Some st' /\ cs_principal st' = Some pr /\
    cs_capabilities st' = cs_capabilities st /\ cs_idempotency st' = cs_idempotency st.
Proof.
  intros Hk. unfold livePrincipal. destruct (cs_principal st) as [known|]; [|done]. destruct (_ || _); [done|].
  destruct (getAuthenticatedPrincipal _ _ _ _) as [r' res] eqn:Eg. destruct (principal_spec _ _ _ _ _ _ Hk Eg) as [Er Hres]. destruct res as [[q|]|]; [|done|done].
  intros [= <- <-]. destruct Hres as (row & H1 & H2 & H3 & H4 & H5). exists known, row. eexists. cbn [set_state po_states with_registry devices po_registry po_leases].
  rewrite map_get_set_eq. split_and!; done.
Qed.

Lemma verified_lease_leases p now c pr f : exists ls, fst (verified_lease p now c pr f) = with_leases p ls.
Proof.
  unfold verified_lease. destruct (truthy_text (cf_sessionId f)); [|exists (po_leases p); by destruct p]. destruct (truthy_text (leaseId_of _)); [|exists (po_leases p); by destruct p].
  destruct (verify_lease _ _ _ _ _ _ _ _ _). by eexists.
Qed.
Lemma lease_stage_leases p now id c pr f rev : exists ls, fst (lease_stage p now id c pr f rev) = with_leases p ls.
Proof.
  unfold lease_stage. cbv zeta. assert (exists ls, p = with_leases p ls) as Hsame by (exists (po_leases p); by destruct p). destruct (is_acquire _).
  { destruct (truthy_text _); [|done]. destruct rev; [|done]. destruct (negb _); [done|]. destruct (acquire_lease _ _ _ _ _ _ _ _ _ _) as [ls [?|?]]; by exists ls. }
  destruct (_ || _); [|done]. destruct (verified_lease_leases p now c pr f) as [ls E]. destruct (verified_lease p now c pr f) as [p1 [lease|]]; cbn [fst] in E; subst p1; [|by exists ls].
  destruct (is_renew _); [|by exists ls]. destruct (renew_lease _ _ _ _ _ _ _ _ _) as [ls' [?|?]]; by exists ls'.
Qed.
Lemma with_leases_states p ls : po_states (with_leases p ls) = po_states p.
Proof. done. Qed.

Lemma authorize_command_quiet p now id c pr st cap f rev : map_get c (po_states p) = Some st ->
  quiet p (fst (authorize_command localeCompare p now id c pr st cap f rev)).
Proof.
  intros Hst. unfold authorize_command. cbv zeta.
  assert (forall st1, cs_principal st1 = cs_principal st -> cs_capabilities st1 = cs_capabilities st ->
    quiet p (fst (let '(p, stage) := lease_stage (set_state p c st1) now id c pr f rev in
      match stage with
      | Refused => (p, false)
      | Answered code => (set_state p c (with_idempotency st1 (remember_response (cs_idempotency st1) (cf_commandId f)
           (mkCached (commandFingerprint localeCompare f) (response_to f (LeaseError code)) (now + 300000)))), true)
      | Proceed lease releasePending =>
          let lid := truthy_text (leaseId_of (cf_args f)) in
          let p := match releasePending, lid with
                 | true, Some id => with_leases p (release_lease (po_leases p) id (dv_deviceId (pr_device pr)) c
                                      (Some (dv_epoch (pr_device pr))) (cf_expectedRevision f) (cf_command f))
                 | _, _ => p
                 end in
          let context := mkContext cap (truthy_text (cf_sessionId f)) lid lease releasePending in
          (set_state p c (with_context st1 (cf_commandId f) context (mkCached (commandFingerprint localeCompare f) (leaseResponse f context) (now + 300000))), true)
      end))) as Hfresh.
  { intros st1 Hp Hc. assert (quiet p (set_state p c st1)) as Hq by (eapply quiet_set_state; [done|done|by rewrite Hc]).
    destruct (lease_stage_leases (set_state p c st1) now id c pr f rev) as [ls Els]. destruct (lease_stage _ _ _ _ _ _ _) as [p1 stage]. cbn [fst] in Els. subst p1.
    assert (quiet p (with_leases (set_state p c st1) ls)) as Hq1 by (eapply quiet_trans; [exact Hq|apply quiet_leases]).
    assert (map_get c (po_states (set_state p c st1)) = Some st1) as Hget by (cbn [set_state po_states]; apply map_get_set_eq).
    destruct stage; cbn [fst]; [done| |].
    - eapply quiet_trans; [exact Hq1|]. by eapply quiet_set_state.
    - cbv zeta. eapply quiet_trans; [exact Hq1|]. destruct releasePending, (truthy_text _); cbn [fst]; try (by eapply quiet_set_state).
      eapply quiet_trans; [apply quiet_leases|]. by eapply quiet_set_state. }
  destruct (map_get (cf_commandId f) (cs_idempotency st)); [|by apply Hfresh]. case_match; [|apply quiet_refl]. by apply Hfresh.
Qed.

Lemma confirm_quiet p now c pr st id : quiet p (fst (authorizeConfirm p now c pr st id)).
Proof.
  unfold authorizeConfirm. destruct (map_get id _) as [context|]; [|apply quiet_refl]. destruct (negb _); [apply quiet_refl|].
  destruct (cx_leaseId context); [|apply quiet_refl]. destruct (cx_sessionId context); [|apply quiet_refl]. destruct (verify_lease _ _ _ _ _ _ _ _ _). apply quiet_leases.
Qed.

Lemma authorize_live_quiet p now id c pr st frame rev : map_get c (po_states p) = Some st -> quiet p (fst (authorize_live localeCompare p now id c pr st frame rev)).
Proof.
  intros Hst. unfold authorize_live. destruct (_ || _); [apply quiet_refl|]. destruct frame as [|f|cid| | | |]; [..|apply quiet_refl];
    try (destruct (frameCapability _); [destruct (negb _)|]; first [apply quiet_refl|by apply authorize_command_quiet]). apply confirm_quiet.
Qed.

Lemma authorize_cases p now id conn frame rev p' result : frame ≠ FPing -> authorize p now id conn frame rev = (p', result) ->
  p' = p /\ result = Done false \/
  exists st p1 res, map_get (rc_connectionId conn) (po_states p) = Some st /\ livePrincipal p now (rc_connectionId conn) st = (p1, res) /\
    match res with
    | Done (Some pr) => exists ok, result = Done ok /\
        authorize_live localeCompare p1 now id (rc_connectionId conn) pr (default fresh_state (map_get (rc_connectionId conn) (po_states p1))) frame rev = (p', ok)
    | Done None => p' = p1 /\ result = Done false
    | Threw e => p' = p1 /\ result = Threw e
    end.
Proof.
  intros Hf. unfold RemotePolicy.authorize. destruct (map_get _ (po_states p)) as [st|]; [|intros [= <- <-]; by left]. cbv zeta.
  destruct (livePrincipal p now (rc_connectionId conn) st) as [p1 res] eqn:El. intros H. right. exists st, p1, res. split; [done|]. split; [done|].
  destruct res as [[pr|]|]; [|by destruct frame; try done; injection H as <- <-|by destruct frame; try done; injection H as <- <-].
  assert ((let (p, ok) := authorize_live localeCompare p1 now id (rc_connectionId conn) pr (default fresh_state (map_get (rc_connectionId conn) (po_states p1))) frame rev in
    (p, Done ok)) = (p', result)) as E by (by destruct frame). destruct (authorize_live _ _ _ _ _ _ _ _ _) as [p2 ok]. injection E as <- <-. by exists ok.
Qed.

Lemma authorize_quiet p now id conn frame rev : rows_keyed (devices p) -> quiet p (fst (authorize p now id conn frame rev)).
Proof.
  intros Hk. destruct (authorize p now id conn frame rev) as [p' result] eqn:E. cbn [fst]. assert (frame = FPing \/ frame ≠ FPing) as [-> |Hf] by (destruct frame; first [by left|by right]).
  { unfold RemotePolicy.authorize in E. destruct (map_get _ _); injection E as <- _; apply quiet_refl. }
  destruct (authorize_cases _ _ _ _ _ _ _ _ Hf E) as [[-> _]|(st & p1 & res & Hst & El & H)]; [apply quiet_refl|]. assert (quiet p p1) as Hq by (by eapply live_quiet).
  destruct res as [[pr|]|]; [|by destruct H as [-> _]|by destruct H as [-> _]]. destruct H as (ok & _ & Ea). eapply quiet_trans; [exact Hq|].
  apply (f_equal fst) in Ea. cbn [fst] in Ea. rewrite <- Ea. apply authorize_live_quiet.
  destruct (live_spec _ _ _ _ _ _ Hk El) as (? & ? & st' & _ & _ & _ & _ & _ & _ & _ & _ & -> & _). done.
Qed.

Lemma handle_quiet p now conn f : rows_keyed (devices p) -> quiet p (fst (handleCommand localeCompare p now conn f)).
Proof.
  intros Hk. unfold handleCommand. cbv zeta. destruct (map_get _ (po_states p)) as [st|] eqn:Est; [|apply quiet_refl].
  destruct (livePrincipal p now (rc_connectionId conn) st) as [p1 res] eqn:El. assert (quiet p p1) as Hq by (by eapply live_quiet).
  destruct res as [[pr|]|]; [|done|done]. destruct (live_spec _ _ _ _ _ _ Hk El) as (? & ? & st' & _ & _ & _ & _ & _ & _ & _ & _ & E & _). rewrite E. cbn [default].
  destruct (_ || _); [done|]. destruct (map_get (cf_commandId f) _) as [cached|]; [|done]. destruct (_ <=? _); [|by destruct (negb _)].
  eapply quiet_trans; [exact Hq|]. by eapply quiet_set_state.
Qed.

Lemma outbound_quiet p conn : quiet p (fst (outbound_pair_ok p conn)).
Proof.
  unfold outbound_pair_ok. destruct (map_get _ (po_states p)) as [st|] eqn:E; [|apply quiet_refl]. case_match; cbn [fst]; [apply quiet_refl|]. by eapply quiet_set_state.
Qed.

(** ** Where grants come from *)

(** The device of a row was paired with a ticket that allowed its capabilities, by the peer whose identity the row keeps. *)
Definition row_traced (h : History) (k : jstr) row : Prop :=
  dv_deviceId (rw_device row) = k /\ exists pd t, pd ∈ h_paired h /\ pd_deviceId pd = k /\ h_tickets h !! pd_ticket pd = Some t /\
    dv_identityKey (rw_device row) = identity_text (pd_identity pd) /\ (forall c, c ∈ dv_capabilities (rw_device row) -> c ∈ it_allowed t) /\
    (forall n, it_nodeId t = Some n -> n = pe_nodeId (pd_identity pd)).

(** A connection signed in as a device: with its token, from a peer of its identity. *)
Definition signed_in (m : jsmap jstr DeviceRow) (signed : list SignIn) (c d : jstr) (capabilities : list jstr) : Prop :=
  exists sg row identity, sg ∈ signed /\ rc_connectionId (sg_conn sg) = c /\ sg_deviceId sg = d /\ map_get d m = Some row /\
    securityIdentity (rc_peer (sg_conn sg)) = Some identity /\ dv_identityKey (rw_device row) = identity_text identity /\
    rw_digest row = token_hash sha256 (rw_salt row) (sg_token sg) /\ (forall x, x ∈ capabilities -> x ∈ dv_capabilities (rw_device row)).

(** A ticket that waits is the last one issued with its digest, and paired nothing yet. *)
Definition ticket_traced (h : History) (digest : list N) (t : LocalTicket) : Prop :=
  exists i it, last_ticket digest (h_tickets h) = Some i /\ h_tickets h !! i = Some it /\ (forall c, c ∈ lt_allowed t -> c ∈ it_allowed it) /\
    lt_nodeId t = it_nodeId it /\ i ∉ map pd_ticket (h_paired h).

Record policy_ok p (h : History) : Prop := {
  ok_rows : forall k row, map_get k (devices p) = Some row -> row_traced h k row;
  ok_revoked : forall k, k ∈ h_revoked h -> exists row, map_get k (devices p) = Some row /\ dv_revokedAt (rw_device row) ≠ None;
  ok_states : forall c st pr, map_get c (po_states p) = Some st -> cs_principal st = Some pr ->
    signed_in (devices p) (h_signed h) c (dv_deviceId (pr_device pr)) (cs_capabilities st);
  ok_pending : forall k t, map_get k (lp_pending (po_pairing p)) = Some t -> ticket_traced h k t;
  ok_once : NoDup (map pd_ticket (h_paired h));
  ok_known : forall pd, pd ∈ h_paired h -> (pd_ticket pd < length (h_tickets h))%nat;
}.

Lemma ok_keyed p h : policy_ok p h -> rows_keyed (devices p).
Proof. intros Hok k row Hk. by destruct (ok_rows _ _ Hok _ _ Hk). Qed.

Lemma signed_in_le m m' signed c d l l' : signed_in m signed c d l -> devices_le m m' -> (forall x, x ∈ l' -> x ∈ l) -> signed_in m' signed c d l'.
Proof.
  intros (sg & row & identity & H1 & H2 & H3 & H4 & H5 & H6 & H7 & H8) Hle Hl. destruct (devices_le_get _ _ _ _ Hle H4) as (row' & G & [E1 E2 E3 E4 E5 E6]).
  exists sg, row', identity. rewrite E2, E3, E4, E5. split_and!; try done. auto.
Qed.
Lemma row_traced_le h k row row' : row_traced h k row -> row_le row row' -> row_traced h k row'.
Proof. intros [Hk H] [E1 E2 E3 E4 E5 E6]. split; [by rewrite E1|]. destruct H as (pd & t & H). exists pd, t. by rewrite E2, E3. Qed.

(** The tables of a policy after devices were seen or revoked and tickets left. *)
Lemma ok_change p h p' signed : policy_ok p h -> devices_le (devices p) (devices p') -> pending_le (lp_pending (po_pairing p)) (lp_pending (po_pairing p')) ->
  (forall c st pr, map_get c (po_states p') = Some st -> cs_principal st = Some pr -> signed_in (devices p') signed c (dv_deviceId (pr_device pr)) (cs_capabilities st)) ->
  policy_ok p' (mkHistory (h_tickets h) (h_paired h) (h_revoked h) signed).
Proof.
  intros [H1 H2 H3 H4 H5 H6] Hd Hp Hs. constructor; try done.
  - intros k row Hk. destruct (devices_le_back _ _ _ _ Hd Hk) as (row0 & G & Hle). eapply row_traced_le; [|exact Hle]. exact (H1 k row0 G).
  - intros k Hk. destruct (H2 k Hk) as (row & G & Hr). destruct (devices_le_get _ _ _ _ Hd G) as (row' & G' & Hle). exists row'. split; [done|]. by apply (rl_revoked _ _ Hle).
  - intros k t' Ht. destruct (Hp k t' Ht) as (t & G & Ea & En). destruct (H4 k t G) as (i & it & A & B & C & D & E). exists i, it. rewrite Ea, En. done.
Qed.
Lemma ok_quiet p h p' : policy_ok p h -> quiet p p' -> policy_ok p' h.
Proof.
  intros Hok [Q1 Q2 Q3]. destruct h as [ts ps rs ss]. apply (ok_change p (mkHistory ts ps rs ss) p' ss); try done. intros c st' pr' G P.
  destruct (Q3 _ _ _ G P) as (st & pr & G0 & P0 & -> & Hc). eapply signed_in_le; [exact (ok_states _ _ Hok _ _ _ G0 P0)|done|done].
Qed.

(** The sign-ins of other connections stay. *)
Lemma sign_out_other c (l : list SignIn) sg : sg ∈ l -> rc_connectionId (sg_conn sg) ≠ c -> sg ∈ sign_out c l.
Proof. intros Hin Hne. apply elem_of_filter_list. split; [done|]. apply negb_true_iff, jstr_eqb_neq. done. Qed.
Lemma signed_in_more m (l l' : list SignIn) c d caps : (forall sg, sg ∈ l -> rc_connectionId (sg_conn sg) = c -> sg ∈ l') -> signed_in m l c d caps -> signed_in m l' c d caps.
Proof. intros Hl (sg & row & identity & H1 & H2 & H). exists sg, row, identity. split; [by apply Hl|done]. Qed.

Lemma issue_ok p h now code allowed ttl nodeId : policy_ok p h ->
  let s' := policy_step (p, h) (PIssue now code allowed ttl nodeId) in policy_ok (fst s') (snd s').
Proof.
  intros Hok. cbv zeta. cbn [policy_step]. unfold issuePairingTicket. destruct (_ || _); [done|]. unfold issue_ticket. cbv zeta. destruct (_ || _); [by destruct p|].
  cbn [fst snd]. destruct Hok as [H1 H2 H3 H4 H5 H6]. constructor; cbn [h_tickets h_paired h_revoked h_signed with_pairing po_pairing lp_pending]; try done.
  - intros k row Hk. destruct (H1 k row Hk) as (E & pd & t & A & B & C & D). split; [done|]. exists pd, t. cbn [h_tickets h_paired]. split_and!; try done; [|apply D..].
    rewrite lookup_app_l; [done|]. by eapply lookup_lt_Some.
  - intros k t. rewrite map_get_set. destruct (decide (k = hmac code)) as [->|Hne].
    + intros [= <-]. exists (length (h_tickets h)). eexists. cbn [h_tickets h_paired]. rewrite last_ticket_snoc, bool_decide_eq_true_2 by done.
      rewrite list_lookup_middle by done. split_and!; try done; cbn [it_allowed lt_allowed].
      * intros c Hc. unfold caps in Hc. apply elem_of_distinct, elem_of_filter_list in Hc. by destruct Hc.
      * intros (pd & Ei & Hpd)%list_elem_of_fmap. specialize (H6 pd Hpd). lia.
    + intros Hk. destruct (H4 k t Hk) as (i & it & A & B & C & D & E). exists i, it. cbn [h_tickets h_paired]. rewrite last_ticket_snoc, bool_decide_eq_false_2 by done.
      split_and!; try done. rewrite lookup_app_l; [done|]. by eapply lookup_lt_Some.
  - intros pd Hpd. rewrite length_app. specialize (H6 pd Hpd). lia.
Qed.

Lemma revoke_ok p h now d : policy_ok p h -> let s' := policy_step (p, h) (PRevoke now d) in policy_ok (fst s') (snd s').
Proof.
  intros Hok. cbv zeta. cbn [policy_step]. unfold revokeDevice. destruct (negb _); [done|]. cbn [fst snd notified].
  set (p1 := with_registry p (revoke_device (po_registry p) d now)).
  assert (quiet p p1) as Hq by (apply quiet_registry, revoke_devices; by eapply ok_keyed).
  assert (quiet p (invalidateDevice (invalidateDevice p1 d) d)) as Hq2 by (eapply quiet_trans; [exact Hq|]; eapply quiet_trans; apply quiet_invalidate).
  pose proof (ok_quiet _ _ _ Hok Hq2) as [H1 H2 H3 H4 H5 H6]. destruct (map_has d (rg_devices (po_registry p))) eqn:Eh; [|by constructor]. constructor; try done.
  cbn [h_revoked]. intros k [->|Hk]%elem_of_cons; [|by apply H2]. apply map_has_keys, map_get_keys in Eh as [row Er].
  destruct (revoke_revokes (po_registry p) d now row (ok_keyed _ _ Hok) Er) as (row' & G & R). by exists row'.
Qed.

Lemma signed_set m (signed : list SignIn) sg d row identity caps : sg_deviceId sg = d -> map_get d m = Some row -> securityIdentity (rc_peer (sg_conn sg)) = Some identity ->
  dv_identityKey (rw_device row) = identity_text identity -> rw_digest row = token_hash sha256 (rw_salt row) (sg_token sg) ->
  (forall x, x ∈ caps -> x ∈ dv_capabilities (rw_device row)) -> signed_in m (sg :: signed) (rc_connectionId (sg_conn sg)) d caps.
Proof. intros. exists sg, row, identity. split_and!; try done. apply list_elem_of_here. Qed.

Lemma capIntersection_granted granted requested supported x : x ∈ capIntersection granted requested supported -> x ∈ granted.
Proof. unfold capIntersection. rewrite elem_of_filter_list, !andb_true_iff. intros (_ & (_ & H) & _). by apply in_strings_spec. Qed.

(** The states of the other connections after a connection starts over. *)
Lemma states_reset p h c st' p' : policy_ok p h -> devices_le (devices p) (devices p') -> states_le (map_set c st' (po_states p)) (po_states p') -> cs_principal st' = None ->
  forall x st pr, map_get x (po_states p') = Some st -> cs_principal st = Some pr ->
  x ≠ c /\ signed_in (devices p') (sign_out c (h_signed h)) x (dv_deviceId (pr_device pr)) (cs_capabilities st).
Proof.
  intros Hok Hd Hs Hn x st pr G P. destruct (Hs x st pr G P) as (st0 & pr0 & G0 & P0 & -> & Hc). rewrite map_get_set in G0. destruct (decide (x = c)) as [->|Hne].
  - injection G0 as <-. by rewrite Hn in P0.
  - split; [done|]. eapply signed_in_le; [|exact Hd|exact Hc]. eapply signed_in_more; [|exact (ok_states _ _ Hok _ _ _ G0 P0)].
    intros sg Hsg Ec. apply sign_out_other; [done|]. by rewrite Ec.
Qed.

Lemma hello_ok p h now conn frame : policy_ok p h -> let s' := policy_step (p, h) (PHello now conn frame) in policy_ok (fst s') (snd s').
Proof.
  intros Hok. cbv zeta. cbn [policy_step]. set (c := rc_connectionId conn). set (p0 := set_state p c fresh_state).
  assert (forall p', devices_le (devices p) (devices p') -> pending_le (lp_pending (po_pairing p)) (lp_pending (po_pairing p')) ->
    states_le (po_states p0) (po_states p') -> policy_ok p' (mkHistory (h_tickets h) (h_paired h) (h_revoked h) (sign_out c (h_signed h)))) as Hout.
  { intros p' Hd Hp Hs. apply (ok_change p h p'); try done. intros x st pr G P. by eapply (states_reset p h c fresh_state p'). }
  unfold hello. cbv zeta. fold c. fold p0. destruct (he_authentication frame) as [[d token]|] eqn:Ea.
  2:{ cbn [fst snd hd_deviceId]. apply Hout; [apply devices_le_refl|apply pending_le_refl|apply states_le_refl]. }
  destruct (securityIdentity (rc_peer conn)) as [identity|] eqn:Ei.
  2:{ cbn [fst snd hd_deviceId]. apply Hout; [apply devices_le_refl|apply pending_le_refl|apply states_le_refl]. }
  destruct (authenticate sha256 isIP (po_registry p0) now d token identity c) as [[r' inv] result] eqn:Eu.
  destruct (authenticate_spec _ _ _ _ _ _ _ _ _ _ _ (ok_keyed _ _ Hok) Eu) as [Hd Hres].
  pose proof (quiet_notified (with_registry p0 r') inv) as [Q1 Q2 Q3]. destruct result as [pr|e].
  2:{ cbn [fst snd hd_deviceId]. apply Hout; [by eapply devices_le_trans|done|done]. }
  destruct Hres as (Ed & -> & row & Gr & Ec & Ek & Eh). cbn [notified fst snd hd_deviceId]. apply (ok_change p h); try done.
  intros x st q. cbn [set_state po_states with_registry po_registry devices]. rewrite map_get_set. destruct (decide (x = c)) as [->|Hne].
  - intros [= <-] [= <-]. cbn [cs_capabilities]. rewrite Ed. eapply (signed_set _ _ (mkSignIn conn d token)); try done. intros y Hy%capIntersection_granted. by rewrite Ec in Hy.
  - intros G P. eapply signed_in_more; [|by eapply (states_reset p h c fresh_state (with_registry p0 r'))]. intros sg Hsg _. by apply list_elem_of_further.
Qed.

Lemma disconnected_ok p h conn : policy_ok p h -> let s' := policy_step (p, h) (PDisconnected conn) in policy_ok (fst s') (snd s').
Proof.
  intros Hok. cbv zeta. cbn [policy_step fst snd]. apply (ok_change p h); [done|apply devices_le_refl|apply pending_le_refl|].
  intros c st pr. cbn [disconnected po_states]. rewrite map_get_delete. destruct (decide _) as [|Hne]; [done|]. intros G P.
  eapply signed_in_more; [|exact (ok_states _ _ Hok _ _ _ G P)]. intros sg Hsg Ec. apply sign_out_other; [done|]. by rewrite Ec.
Qed.

Lemma restart_ok p h : policy_ok p h -> let s' := policy_step (p, h) PRestart in policy_ok (fst s') (snd s').
Proof. intros [H1 H2 H3 H4 H5 H6]. by constructor. Qed.

Lemma last_ticket_spec digest tickets i : last_ticket digest tickets = Some i -> exists t, tickets !! i = Some t /\ it_digest t = digest.
Proof.
  induction tickets as [|t tickets IH] using rev_ind; [done|]. rewrite last_ticket_snoc. case_bool_decide as E.
  - intros [= <-]. exists t. by rewrite list_lookup_middle.
  - intros H. destruct (IH H) as (t' & Ht & Ed). exists t'. split; [|done]. rewrite lookup_app_l; [done|]. by eapply lookup_lt_Some.
Qed.

(** The tables after a ticket paired a device. *)
Lemma paired_ok p h li' r' now token salt code identity d q : policy_ok p h -> paired_by hmac sha256 (po_pairing p) li' (po_registry p) r' now token salt code identity d q ->
  pending_le (lp_pending (po_pairing p)) (lp_pending li') ->
  exists i, last_ticket (hmac code) (h_tickets h) = Some i /\
    policy_ok (with_pairing p li' r') (mkHistory (h_tickets h) (h_paired h ++ [mkPairedDevice d i identity]) (h_revoked h) (h_signed h)).
Proof.
  intros [H1 H2 H3 H4 H5 H6] [[Ed Et] Hnew (t & Gt & Hexp & Hnode & Hcaps) Hgone (row & Er & R1 & R2 & R3 & R4 & R5)] Hp.
  destruct (H4 _ _ Gt) as (i & it & L & Gi & Ca & Cn & Hi). exists i. split; [done|].
  assert (forall k row0, map_get k (devices p) = Some row0 -> map_get k (rg_devices r') = Some row0) as Hkeep.
  { intros k row0 Hk. rewrite Er, map_get_set_ne; [done|]. intros ->. unfold devices in Hk. congruence. }
  constructor; try change (devices (with_pairing p li' r')) with (rg_devices r'); cbn [with_pairing po_pairing po_states h_tickets h_paired h_revoked h_signed].
  - intros k row0. rewrite Er, map_get_set. destruct (decide (k = d)) as [->|].
    + intros [= <-]. split; [done|]. exists (mkPairedDevice d i identity), it. cbn [h_tickets h_paired pd_deviceId pd_ticket pd_identity]. split_and!; try done.
      * apply elem_of_app. right. by apply list_elem_of_singleton.
      * intros c Hc. rewrite R2 in Hc. by apply Ca, Hcaps.
      * intros n Hn. apply Hnode. by rewrite Cn.
    + intros Hk. destruct (H1 k row0 Hk) as (E & pd & t0 & A & B). split; [done|]. exists pd, t0. split; [|done]. apply elem_of_app. by left.
  - intros k Hk. destruct (H2 k Hk) as (row0 & G & R). exists row0. split; [by apply Hkeep|done].
  - intros c st pr G P. destruct (H3 _ _ _ G P) as (sg & row0 & id0 & A & B & C & D & E). exists sg, row0, id0. split_and!; try done; [by apply Hkeep|apply E..].
  - intros k t' Ht'. destruct (Hp k t' Ht') as (t0 & G0 & Ea & En). destruct (H4 _ _ G0) as (j & jt & Lj & Gj & Cj & Nj & Hj). exists j, jt.
    cbn [h_tickets h_paired]. rewrite map_app. split_and!; try done; [by rewrite Ea|by rewrite En|]. rewrite elem_of_app. intros [?|Hin]; [done|].
    cbn in Hin. apply list_elem_of_singleton in Hin as ->. destruct (last_ticket_spec _ _ _ L) as (x & X1 & X2). destruct (last_ticket_spec _ _ _ Lj) as (y & Y1 & Y2).
    rewrite X1 in Y1. injection Y1 as <-. rewrite X2 in Y2. rewrite <- Y2, Hgone in Ht'. done.
  - rewrite map_app. apply NoDup_app. split_and!; [done| |apply NoDup_singleton]. cbn. intros x Hx ->%list_elem_of_singleton. done.
  - intros pd [Hpd| ->%list_elem_of_singleton]%elem_of_app; [by apply H6|]. cbn [pd_ticket]. by eapply lookup_lt_Some.
Qed.

Lemma pair_ok p h now token salt conn frame : policy_ok p h -> let s' := policy_step (p, h) (PPair now token salt conn frame) in policy_ok (fst s') (snd s').
Proof.
  intros Hok. cbv zeta. cbn [policy_step]. set (c := rc_connectionId conn). set (d := ps_deviceId frame).
  assert (forall p', quiet p p' -> policy_ok p' (pair_history h p p' conn frame token false)) as Hsame.
  { intros p' Hq. unfold pair_history. assert (map_has d (rg_devices (po_registry p')) = map_has d (rg_devices (po_registry p))) as Eh.
    { destruct Hq as [Hd _ _]. specialize (Hd d). unfold map_has, devices in *. destruct (map_get d _), (map_get d _); done. }
    cbv zeta. fold d. rewrite Eh, andb_negb_l, app_nil_r. destruct h. by apply (ok_quiet p). }
  unfold pairStart. fold c. destruct (map_get c (po_states p)) as [st|] eqn:Est; [|apply Hsame, quiet_refl]. destruct (cs_paired st); [apply Hsame, quiet_refl|].
  destruct (securityIdentity (rc_peer conn)) as [identity|] eqn:Ei; [|apply Hsame, quiet_refl].
  fold d. destruct (consume_ticket _ _ _ _ _ _ _ _ _ _ _ _) as [[li' r'] result] eqn:Ec. destruct (consume_ticket_spec _ _ _ _ _ _ _ _ _ _ _ _ _ _ _ Ec) as [Hp Hres].
  cbv zeta. destruct result as [q|e].
  2:{ apply (Hsame (with_pairing p li' r')). constructor; [|done|apply states_le_refl]. change (devices (with_pairing p li' r')) with (rg_devices r'). rewrite Hres. apply devices_le_refl. }
  destruct (paired_ok _ _ _ _ _ _ _ _ _ _ _ Hok Hres Hp) as (i & Li & Hok1). destruct Hres as [[Ed Et] Hnew _ _ (row & Er & R1 & R2 & R3 & R4 & R5)].
  set (p1 := with_pairing p li' r') in *. set (p2 := set_state p1 c (paired_state st)).
  assert (quiet p1 p2) as Hq2 by (by eapply quiet_set_state). rewrite Ed, Et. change (po_registry p2) with r'.
  assert (rows_keyed (rg_devices r')) as Hk by exact (ok_keyed _ _ Hok1).
  destruct (authenticate sha256 isIP r' now d token identity c) as [[r2 inv] result] eqn:Eu. destruct (authenticate_spec _ _ _ _ _ _ _ _ _ _ _ Hk Eu) as [Hd Hauth].
  assert (quiet p1 (with_registry p2 r2)) as Hq3 by (eapply quiet_trans; [exact Hq2|]; by apply quiet_registry).
  assert (quiet p1 (notified (with_registry p2 r2) inv)) as Hq4 by (eapply quiet_trans; [exact Hq3|apply quiet_notified]).
  assert (map_get d (devices p1) = Some row) as Gd by (change (devices p1) with (rg_devices r'); by rewrite Er, map_get_set_eq).
  assert (forall p', devices_le (devices p1) (devices p') -> map_has d (rg_devices (po_registry p')) = true) as Hhas.
  { intros p' Hle. destruct (devices_le_get _ _ _ _ Hle Gd) as (row' & G & _). apply map_has_keys, map_get_keys. by exists row'. }
  assert (map_has d (rg_devices (po_registry p)) = false) as Hnone by (apply map_has_false; by apply map_get_none_keys).
  destruct result as [pr|e]; cbn [fst snd]; unfold pair_history; fold d; rewrite Hnone, Hhas, Li, Ei; cbn [negb andb].
  - destruct Hauth as (Edev & -> & row2 & G2 & C2 & K2 & D2). cbn [notified] in *. apply (ok_change _ _ _ _ Hok1); [apply Hq4|apply Hq4|].
    intros x s q'. cbn [set_state po_states]. rewrite map_get_set. destruct (decide (x = c)) as [->|Hne].
    + intros [= <-] [= <-]. cbn [cs_capabilities]. rewrite Edev. eapply (signed_set _ _ (mkSignIn conn d token)); try done.
      intros y Hy%capIntersection_granted. destruct (devices_le_get _ _ _ _ Hd Gd) as (row3 & G3 & [_ _ E3 _ _ _]).
      rewrite G3 in G2. injection G2 as <-. by rewrite E3, R2.
    + intros G P. destruct (qu_states _ _ Hq3 x s q' G P) as (st0 & pr0 & G0 & P0 & -> & Hc).
      eapply signed_in_le; [|apply Hq3|exact Hc]. eapply signed_in_more; [|exact (ok_states _ _ Hok1 _ _ _ G0 P0)]. intros sg Hsg _. by apply list_elem_of_further.
  - apply Hq4.
  - by apply (ok_quiet p1).
  - apply Hq4.
Qed.

Lemma policy_reachable ops : policy_ok (fst (policy_run ops)) (snd (policy_run ops)).
Proof.
  unfold policy_run. induction ops as [|op ops IH] using rev_ind.
  { constructor; cbn [fst snd h_revoked h_paired new_policy]; try done; [by intros k ?%not_elem_of_nil|apply NoDup_nil_2|by intros pd ?%not_elem_of_nil]. }
  rewrite fold_left_app. cbn [fold_left]. destruct (fold_left _ ops _) as [p h]. cbn [fst snd] in IH. pose proof (ok_keyed _ _ IH) as Hk.
  destruct op; [by apply issue_ok|by apply revoke_ok|by apply hello_ok|by apply pair_ok|..]; cbn [policy_step fst snd].
  - eapply ok_quiet; [exact IH|by apply authorize_quiet].
  - eapply ok_quiet; [exact IH|by apply handle_quiet].
  - eapply ok_quiet; [exact IH|apply outbound_quiet].
  - by apply (disconnected_ok p h conn).
  - by apply (restart_ok p h).
Qed.

Lemma authorize_live_capability p now id c pr st frame rev p' cap : authorize_live localeCompare p now id c pr st frame rev = (p', true) -> frameCapability frame = Some cap ->
  cap ∈ cs_capabilities st.
Proof.
  intros E Hc. unfold authorize_live in E. rewrite Hc in E. destruct (_ || _); [done|].
  destruct (in_strings cap (cs_capabilities st)) eqn:Ec; [by apply in_strings_spec|]. cbn [negb] in E. destruct frame; try done.
Qed.

(** An allowed frame: the connection is live and its state holds the capability. *)
Lemma authorize_spec p now id conn frame rev p' : rows_keyed (devices p) -> frame ≠ FPing -> authorize p now id conn frame rev = (p', Done true) ->
  exists st known row, map_get (rc_connectionId conn) (po_states p) = Some st /\ cs_principal st = Some known /\
    map_get (dv_deviceId (pr_device known)) (devices p) = Some row /\ dv_revokedAt (rw_device row) = None /\ now < dv_tokenExpiresAt (rw_device row) /\
    forall cap, frameCapability frame = Some cap -> cap ∈ cs_capabilities st.
Proof.
  intros Hk Hf E. destruct (authorize_cases _ _ _ _ _ _ _ _ Hf E) as [[_ ?]|(st & p1 & res & Hst & El & H)]; [done|].
  destruct res as [[pr|]|]; [|by destruct H|by destruct H]. destruct H as (ok & [= <-] & Ea).
  destruct (live_spec _ _ _ _ _ _ Hk El) as (known & row & st' & K1 & K2 & K3 & K4 & K5 & K6 & K7 & K8 & K9 & K10 & K11 & K12).
  exists st, known, row. split_and!; try done. intros cap Hcap. rewrite K9 in Ea. rewrite <- K11. by eapply authorize_live_capability.
Qed.

(** C13: whatever tickets, pairings, sign-ins, revocations, disconnections and restarts came before, a frame other than a ping is allowed
    on a connection only if the connection now stands on a sign-in with the token of a device, from a peer of the device's identity; the
    device is neither expired nor was it ever revoked; it was paired by that identity with a ticket, and the capability the frame needs
    is one the ticket allowed.  No two devices were paired with the same ticket. *)
Theorem authorized_frames_traced ops now lease conn frame rev p' : frame ≠ FPing ->
  authorize (fst (policy_run ops)) now lease conn frame rev = (p', Done true) ->
  let h := snd (policy_run ops) in
  NoDup (map pd_ticket (h_paired h)) /\
  exists sg identity row pd t, 
    (sg ∈ h_signed h /\ rc_connectionId (sg_conn sg) = rc_connectionId conn /\ securityIdentity (rc_peer (sg_conn sg)) = Some identity /\
     map_get (sg_deviceId sg) (devices (fst (policy_run ops))) = Some row /\ dv_identityKey (rw_device row) = identity_text identity /\
     rw_digest row = token_hash sha256 (rw_salt row) (sg_token sg)) /\
    (now < dv_tokenExpiresAt (rw_device row) /\ sg_deviceId sg ∉ h_revoked h) /\
    (pd ∈ h_paired h /\ pd_deviceId pd = sg_deviceId sg /\ identity_text (pd_identity pd) = identity_text identity /\ h_tickets h !! pd_ticket pd = Some t /\
     (forall n, it_nodeId t = Some n -> n = pe_nodeId (pd_identity pd)) /\
     forall capability, frameCapability frame = Some capability -> capability ∈ dv_capabilities (rw_device row) /\ capability ∈ it_allowed t).
Proof.
  intros Hf E h. pose proof (policy_reachable ops) as Hok. fold h in Hok. split; [apply (ok_once _ _ Hok)|].
  destruct (authorize_spec _ _ _ _ _ _ _ (ok_keyed _ _ Hok) Hf E) as (st & known & row & Hst & Hp & Hrow & Hrev & Hexp & Hcap).
  destruct (ok_states _ _ Hok _ _ _ Hst Hp) as (sg & row' & identity & S1 & S2 & S3 & S4 & S5 & S6 & S7 & S8). rewrite Hrow in S4. injection S4 as <-.
  destruct (ok_rows _ _ Hok _ _ Hrow) as (_ & pd & t & T1 & T2 & T3 & T4 & T5 & T6). exists sg, identity, row, pd, t. rewrite S3. split_and!; try done.
  - intros Hr. destruct (ok_revoked _ _ Hok _ Hr) as (row' & G & R). rewrite Hrow in G. injection G as <-. done.
  - by rewrite <- T4.
  - intros cap Hc. specialize (S8 cap (Hcap cap Hc)). split; [done|by apply T5].
Qed.
End Runs.
