(* ===== verification/RemoteLeaseSpec.v ===== *)
(** * RemoteLeaseSpec: who may change a session, and how often codes may be guessed *)
From stdpp Require Import base tactics option list numbers strings sets.
From S2P Require Import Prelude JsMap JsString JsValue Wire WireGuards Commands DeviceRegistry RemoteLeases RemotePolicy RemotePolicySpec.
Implicit Types (ls : LeaseRegistry) (l : Lease) (p : RemotePolicy) (st : ConnectionState) (conn : RemoteConnection).

(** ** One lease of a kind for a session *)

Record leases_ok ls : Prop := {
  lk_wf : map_wf (lr_leases ls);
  lk_id : forall k l, map_get k (lr_leases ls) = Some l -> le_leaseId l = k;
  lk_one : forall k1 k2 l1 l2, map_get k1 (lr_leases ls) = Some l1 -> map_get k2 (lr_leases ls) = Some l2 ->
    le_sessionId l1 = le_sessionId l2 -> le_kind l1 = le_kind l2 -> k1 = k2;
}.

Lemma leases_ok_filter ls (P : jstr * Lease -> bool) last : leases_ok ls -> leases_ok (mkLeases (List.filter P (lr_leases ls)) last).
Proof.
  intros [H1 H2 H3].
  assert (forall k l, map_get k (List.filter P (lr_leases ls)) = Some l -> map_get k (lr_leases ls) = Some l) as Hg.
  { intros k l Hk%map_get_some_in. apply elem_of_filter_list in Hk as [Hk _]. by apply map_in_get. }
  constructor; cbn [lr_leases]; [by apply map_filter_wf|intros k l Hk; by apply H2, Hg|]. intros k1 k2 l1 l2 G1%Hg G2%Hg. by apply H3.
Qed.
Lemma expire_ok ls now : leases_ok ls -> leases_ok (expire ls now).
Proof. apply leases_ok_filter. Qed.
Lemma disconnect_leases_ok ls d c : leases_ok ls -> leases_ok (disconnect_leases ls d c).
Proof. apply leases_ok_filter. Qed.

(** After expiry only leases that run are left. *)
Lemma expire_live ls now k l : map_get k (lr_leases (expire ls now)) = Some l -> now < le_expiresAt l.
Proof.
  intros Hk%map_get_some_in. cbn [expire lr_leases] in Hk. apply elem_of_filter_list in Hk as [_ Hl]. cbn [snd] in Hl. apply negb_true_iff, Z.leb_gt in Hl.
  unfold later in Hl. destruct (lr_lastNow ls); lia.
Qed.

Lemma leases_ok_set ls k l : leases_ok ls -> le_leaseId l = k ->
  (forall k' l', map_get k' (lr_leases ls) = Some l' -> le_sessionId l' = le_sessionId l -> le_kind l' = le_kind l -> k' = k) ->
  leases_ok (mkLeases (map_set k l (lr_leases ls)) (lr_lastNow ls)).
Proof.
  intros [H1 H2 H3] Ek Hu. constructor; cbn [lr_leases].
  - by apply map_wf_set.
  - intros x y. rewrite map_get_set. destruct (decide (x = k)) as [->|]; [by intros [= <-]|apply H2].
  - intros k1 k2 l1 l2. rewrite !map_get_set. destruct (decide (k1 = k)) as [->|], (decide (k2 = k)) as [->|]; [done|..].
    + intros [= <-] G2 Es Et. symmetry. by eapply Hu.
    + intros G1 [= <-] Es Et. by eapply Hu.
    + apply H3.
Qed.
Lemma acquire_ok ls now id d c s kind ttl epoch rev : leases_ok ls -> leases_ok (fst (acquire_lease ls now id d c s kind ttl epoch rev)).
Proof.
  intros Hok. unfold acquire_lease. cbv zeta. destruct (_ || _) eqn:E; [by apply expire_ok|]. cbn [fst]. apply (leases_ok_set (expire ls now)); [by apply expire_ok|done|].
  cbn [le_sessionId le_kind]. intros k' l' G Es Et. exfalso. rewrite !orb_false_iff in E. destruct E as [_ E]. apply not_true_iff_false in E. apply E, existsb_exists.
  exists (k', l'). split; [by apply list_elem_of_In, map_get_some_in|]. cbn [snd]. rewrite Es, jstr_eqb_refl. by apply bool_decide_eq_true_2.
Qed.
Lemma renew_ok ls now id d c ttl epoch rev cmd : leases_ok ls -> leases_ok (fst (renew_lease ls now id d c ttl epoch rev cmd)).
Proof.
  intros Hok. unfold renew_lease. cbv zeta. pose proof (expire_ok ls now Hok) as He. destruct (map_get id _) as [old|] eqn:E; [|done]. destruct (_ || _); [done|]. cbn [fst].
  apply (leases_ok_set (expire ls now)); [done|exact (lk_id _ He _ _ E)|]. cbn [le_sessionId le_kind]. intros k' l' G. by apply (lk_one _ He _ _ _ _ G E).
Qed.
Lemma release_lease_ok ls id d c epoch rev cmd : leases_ok ls -> leases_ok (release_lease ls id d c epoch rev cmd).
Proof.
  intros Hok. unfold release_lease. destruct (map_get id _); [|done]. case_match; [|done]. destruct Hok as [H1 H2 H3]. constructor; cbn [lr_leases].
  - by apply map_wf_delete.
  - intros x y. rewrite map_get_delete. destruct (decide _); [done|apply H2].
  - intros k1 k2 l1 l2. rewrite !map_get_delete. destruct (decide _), (decide _); try done. apply H3.
Qed.

(** ** Leases through the policy *)

Lemma live_leases p now c st p' result : leases_ok (po_leases p) -> livePrincipal p now c st = (p', result) -> leases_ok (po_leases p').
Proof.
  intros Hok. unfold livePrincipal. destruct (cs_principal st); [|by intros [= <- _]]. destruct (_ || _); [by intros [= <- _]|].
  destruct (getAuthenticatedPrincipal _ _ _ _) as [r' [[pr|]|]]; intros [= <- _]; try done. by apply disconnect_leases_ok.
Qed.
Lemma notified_leases p d : leases_ok (po_leases p) -> leases_ok (po_leases (notified p d)).
Proof. intros Hok. destruct d; [by apply disconnect_leases_ok|done]. Qed.

Section Leases.
Context (sha256 : list N -> list N) (isIP : jstr -> Z) (hmac : jstr -> list N) (localeCompare : jstr -> jstr -> comparison).
Context (supportedCapabilities supportedFeatures : list jstr).
Abbreviation policy_run := (policy_run sha256 isIP hmac localeCompare supportedCapabilities supportedFeatures).
Abbreviation authorize := (authorize localeCompare).

Lemma verified_lease_ok p now c pr f : leases_ok (po_leases p) -> leases_ok (po_leases (fst (verified_lease p now c pr f))).
Proof.
  intros Hok. unfold verified_lease. destruct (truthy_text (cf_sessionId f)); [|done]. destruct (truthy_text (leaseId_of _)); [|done]. cbn [verify_lease fst with_leases po_leases].
  by apply expire_ok.
Qed.
Lemma lease_stage_ok p now id c pr f rev : leases_ok (po_leases p) -> leases_ok (po_leases (fst (lease_stage p now id c pr f rev))).
Proof.
  intros Hok. unfold lease_stage. cbv zeta. destruct (is_acquire (cf_command f)).
  { destruct (truthy_text _) as [session|]; [|done]. destruct rev; [|done]. destruct (negb _); [done|]. pose proof (acquire_ok (po_leases p) now id (dv_deviceId (pr_device pr)) c
      session (if starts_with (js "prompt.") (cf_command f) then Prompt else Controller) 30000 (dv_epoch (pr_device pr)) (cf_expectedRevision f) Hok) as Ha.
    destruct (acquire_lease _ _ _ _ _ _ _ _ _ _) as [ls [?|?]]; exact Ha. }
  destruct (_ || _); [|done]. pose proof (verified_lease_ok p now c pr f Hok) as Hv. destruct (verified_lease p now c pr f) as [p1 [lease|]]; cbn [fst] in Hv; [|done].
  destruct (is_renew _); [|done].
  pose proof (renew_ok (po_leases p1) now lease (dv_deviceId (pr_device pr)) c 30000 (Some (dv_epoch (pr_device pr))) (cf_expectedRevision f) (cf_command f) Hv) as Hr.
  destruct (renew_lease _ _ _ _ _ _ _ _ _) as [ls [?|?]]; exact Hr.
Qed.

Lemma authorize_command_leases p now id c pr st cap f rev : leases_ok (po_leases p) ->
  leases_ok (po_leases (fst (authorize_command localeCompare p now id c pr st cap f rev))).
Proof.
  intros Hok. unfold authorize_command. cbv zeta.
  assert (forall st1 p1 stage, lease_stage (set_state p c st1) now id c pr f rev = (p1, stage) -> leases_ok (po_leases p1)) as Hs.
  { intros st1 p1 stage E. apply (f_equal fst) in E. cbn [fst] in E. rewrite <- E. by apply lease_stage_ok. }
  destruct (map_get (cf_commandId f) _) as [cached|]; [destruct (_ <=? _); [|done]|];
    (match goal with |- context [lease_stage ?q ?n ?i ?cc ?pp ?ff ?rr] => destruct (lease_stage q n i cc pp ff rr) as [p1 stage] eqn:El end);
    apply Hs in El; (destruct stage as [|code|lease rel]; cbn [fst set_state po_leases]; [done|done|]);
    (destruct rel; [destruct (truthy_text (leaseId_of (cf_args f)))|]; try done; by apply release_lease_ok).
Qed.

Lemma authorize_live_leases p now id c pr st frame rev : leases_ok (po_leases p) -> leases_ok (po_leases (fst (authorize_live localeCompare p now id c pr st frame rev))).
Proof.
  intros Hok. unfold authorize_live. destruct (_ || _); [done|]. destruct frame as [|f|cid| | | |]; [..|done];
    try (destruct (frameCapability _); [destruct (negb _)|]; first [done|by apply authorize_command_leases]).
  unfold authorizeConfirm. destruct (map_get cid _) as [context|]; [|done]. destruct (negb _); [done|]. destruct (cx_leaseId context); [|done]. destruct (cx_sessionId context); [|done].
  cbn [verify_lease fst]. by apply expire_ok.
Qed.

Lemma leases_reachable ops : leases_ok (po_leases (fst (policy_run ops))).
Proof.
  unfold RemotePolicySpec.policy_run. induction ops as [|op ops IH] using rev_ind. { constructor; try done. apply map_wf_nil. }
  rewrite fold_left_app. cbn [fold_left]. destruct (fold_left _ ops _) as [p h]. cbn [fst] in IH. destruct op; cbn [policy_step].
  - unfold issuePairingTicket. destruct (_ || _); [done|]. by destruct (issue_ticket _ _ _ _ _ _ _) as [? [?|?]].
  - unfold revokeDevice. destruct (negb _); [done|]. cbn [fst notified]. do 2 apply disconnect_leases_ok. done.
  - unfold hello. destruct (he_authentication frame) as [[d token]|]; [|done]. destruct (securityIdentity _); [|done].
    destruct (authenticate _ _ _ _ _ _ _ _) as [[r' inv] [pr|e]]; cbn [fst set_state po_leases]; by apply notified_leases.
  - unfold pairStart. destruct (map_get _ (po_states p)) as [st|]; [|done]. destruct (cs_paired st); [done|]. destruct (securityIdentity _); [|done].
    destruct (consume_ticket _ _ _ _ _ _ _ _ _ _ _ _) as [[li' r'] [q|e]]; [|done]. cbv zeta.
    destruct (authenticate _ _ _ _ _ _ _ _) as [[r2 inv] [pr|e]]; cbn [fst set_state po_leases]; by apply notified_leases.
  - cbn [fst]. destruct (RemotePolicy.authorize localeCompare p now leaseId conn frame sessionRevision) as [p' result] eqn:E. cbn [fst].
    assert (frame = FPing \/ frame ≠ FPing) as [-> |Hf] by (destruct frame; first [by left|by right]).
    { unfold RemotePolicy.authorize in E. destruct (map_get _ _); by injection E as <- _. }
    destruct (authorize_cases _ _ _ _ _ _ _ _ _ Hf E) as [[-> _]|(st & p1 & res & Hst & El & H)]; [done|]. pose proof (live_leases _ _ _ _ _ _ IH El) as Hl.
    destruct res as [[pr|]|]; [|by destruct H as [-> _]|by destruct H as [-> _]]. destruct H as (ok & _ & Ea). apply (f_equal fst) in Ea. cbn [fst] in Ea. rewrite <- Ea.
    by apply authorize_live_leases.
  - cbn [fst]. unfold handleCommand. cbv zeta. destruct (map_get _ (po_states p)) as [st|]; [|done]. destruct (livePrincipal p now (rc_connectionId conn) st) as [p1 res] eqn:El.
    pose proof (live_leases _ _ _ _ _ _ IH El) as Hl. destruct res as [[pr|]|]; [|done|done]. destruct (_ || _); [done|]. destruct (map_get (cf_commandId frame) _); [|done].
    destruct (_ <=? _); [done|]. by destruct (negb _).
  - cbn [fst]. unfold outbound_pair_ok. destruct (map_get _ (po_states p)); [|done]. by case_match.
  - cbn [fst]. by apply disconnect_leases_ok.
  - constructor; try done. apply map_wf_nil.
Qed.

(** ** Commands that change a session *)

Lemma mutation_plain command : mutation command = true -> is_acquire command = false /\ is_renew command = false /\ is_release command = false.
Proof. unfold mutation. intros H%in_strings_spec. repeat (apply elem_of_cons in H as [->|H]; [by vm_compute|]). by apply not_elem_of_nil in H. Qed.

(** A response to the same frame that is still kept. *)
Definition answered_before st (now : Z) (f : CommandFrame) : Prop :=
  exists cached, map_get (cf_commandId f) (cs_idempotency st) = Some cached /\ now < cc_expiresAt cached /\ cc_fingerprint cached = commandFingerprint localeCompare f.

(** A lease that runs, of this device and connection, for the session and command of a frame. *)
Definition holds_lease ls (now : Z) (d c : jstr) (f : CommandFrame) : Prop :=
  exists id session l, leaseId_of (cf_args f) = Some id /\ cf_sessionId f = Some session /\ map_get id (lr_leases ls) = Some l /\
    le_deviceId l = d /\ le_connectionId l = c /\ le_sessionId l = session /\ commandAllowed (le_kind l) (cf_command f) = true /\ now < le_expiresAt l /\
    (forall v, cf_expectedRevision f = Some v -> le_revision l = Some v).

Lemma truthy_text_some s x : truthy_text s = Some x -> s = Some x.
Proof. by destruct s as [[|]|]. Qed.

Lemma verified_lease_holds p now c pr f p' id : verified_lease p now c pr f = (p', Some id) -> holds_lease (po_leases p') now (dv_deviceId (pr_device pr)) c f.
Proof.
  unfold verified_lease. destruct (truthy_text (cf_sessionId f)) as [session|] eqn:Es; [|done]. destruct (truthy_text (leaseId_of _)) as [lease|] eqn:El; [|done].
  cbn [verify_lease]. destruct (match map_get _ _ with Some _ => _ | None => _ end) eqn:Ev; [|done]. intros [= <- <-]. apply truthy_text_some in Es, El.
  destruct (map_get lease _) as [l|] eqn:G; [|done]. unfold lease_bound in Ev. rewrite !andb_true_iff in Ev. destruct Ev as (E1 & (((E2 & E3) & E4) & _) & E6).
  exists lease, session, l. apply jstr_eqb_eq in E1, E2, E3. split_and!; try done; [by eapply expire_live|]. intros v Hv. rewrite Hv in E6. by apply bool_decide_eq_true in E6.
Qed.

Lemma mutation_stage p now id c pr f rev p' lease rel : mutation (cf_command f) = true -> lease_stage p now id c pr f rev = (p', Proceed lease rel) ->
  rel = false /\ holds_lease (po_leases p') now (dv_deviceId (pr_device pr)) c f.
Proof.
  intros Hm. destruct (mutation_plain _ Hm) as (E1 & E2 & E3). unfold lease_stage. cbv zeta. rewrite E1, E2, E3, Hm. cbn [orb].
  destruct (verified_lease p now c pr f) as [p1 [l|]] eqn:Ev; [|done]. intros [= <- _ <-]. split; [done|by eapply verified_lease_holds].
Qed.
Lemma mutation_answered p now id c pr f rev p' code : mutation (cf_command f) = true -> lease_stage p now id c pr f rev ≠ (p', Answered code).
Proof.
  intros Hm. destruct (mutation_plain _ Hm) as (E1 & E2 & E3). unfold lease_stage. cbv zeta. rewrite E1, E2, E3, Hm. cbn [orb].
  by destruct (verified_lease p now c pr f) as [p1 [l|]].
Qed.

Lemma authorize_mutation p now id c pr st cap f rev p' : mutation (cf_command f) = true ->
  authorize_command localeCompare p now id c pr st cap f rev = (p', true) -> answered_before st now f \/ holds_lease (po_leases p') now (dv_deviceId (pr_device pr)) c f.
Proof.
  intros Hm. unfold authorize_command. cbv zeta. intros E.
  assert (forall st1, (let '(p, stage) := lease_stage (set_state p c st1) now id c pr f rev in
      match stage with
      | Refused => (p, false)
      | Answered code => (set_state p c (with_idempotency st1 (remember_response (cs_idempotency st1) (cf_commandId f)
           (mkCached (commandFingerprint localeCompare f) (response_to f (LeaseError code)) (now + 300000)))), true)
      | Proceed lease rel =>
          let lid := truthy_text (leaseId_of (cf_args f)) in
          let p := match rel, lid with
                 | true, Some id => with_leases p (release_lease (po_leases p) id (dv_deviceId (pr_device pr)) c
                                      (Some (dv_epoch (pr_device pr))) (cf_expectedRevision f) (cf_command f))
                 | _, _ => p
                 end in
          let context := mkContext cap (truthy_text (cf_sessionId f)) lid lease rel in
          (set_state p c (with_context st1 (cf_commandId f) context (mkCached (commandFingerprint localeCompare f) (leaseResponse f context) (now + 300000))), true)
      end) = (p', true) -> holds_lease (po_leases p') now (dv_deviceId (pr_device pr)) c f) as Hfresh.
  { intros st1. destruct (lease_stage (set_state p c st1) now id c pr f rev) as [p1 [|code|lease rel]] eqn:El; [done| |].
    - by apply mutation_answered in El.
    - destruct (mutation_stage _ _ _ _ _ _ _ _ _ _ Hm El) as [-> Hh]. by intros [= <-]. }
  destruct (map_get (cf_commandId f) (cs_idempotency st)) as [cached|] eqn:Ec; [|right; by eapply Hfresh].
  destruct (Z.leb_spec (cc_expiresAt cached) now); [right; by eapply Hfresh|]. injection E as _ Ef. left. exists cached. apply jstr_eqb_eq in Ef. done.
Qed.

Lemma authorize_command_frame p now id conn f rev p' : rows_keyed (devices p) -> authorize p now id conn (FCommand f) rev = (p', Done true) ->
  exists st known p1 pr st1 cap, map_get (rc_connectionId conn) (po_states p) = Some st /\ cs_principal st = Some known /\
    dv_deviceId (pr_device pr) = dv_deviceId (pr_device known) /\ cs_idempotency st1 = cs_idempotency st /\
    authorize_command localeCompare p1 now id (rc_connectionId conn) pr st1 cap f rev = (p', true).
Proof.
  intros Hk E. assert (FCommand f ≠ FPing) as Hf by done. destruct (authorize_cases _ _ _ _ _ _ _ _ _ Hf E) as [[_ ?]|(st & p1 & res & Hst & El & H)]; [done|].
  destruct res as [[pr|]|]; [|by destruct H|by destruct H]. destruct H as (ok & [= <-] & Ea).
  destruct (live_spec _ _ _ _ _ _ Hk El) as (known & row & st' & K1 & K2 & K3 & K4 & K5 & K6 & K7 & K8 & K9 & K10 & K11 & K12). rewrite K9 in Ea. change (default fresh_state (Some st')) with st' in Ea.
  unfold authorize_live in Ea. destruct (cs_justPaired st' || feature_missing st' (FCommand f)); [done|].
  destruct (frameCapability (FCommand f)) as [cap|]; [|done]. destruct (negb (in_strings cap (cs_capabilities st'))); [done|].
  by exists st, known, p1, pr, st', cap.
Qed.

(** C14: a command that changes a session is allowed only if the same frame was answered on this connection less than five minutes ago, or
    the frame names a lease that runs, on that session, of a kind that allows the command, held by the device and connection that sent it
    and bound to the revision it expects; and there is no other lease of that kind on the session. *)
Theorem mutations_hold_lease ops now id conn f rev p' : mutation (cf_command f) = true ->
  authorize (fst (policy_run ops)) now id conn (FCommand f) rev = (p', Done true) ->
  exists st known, map_get (rc_connectionId conn) (po_states (fst (policy_run ops))) = Some st /\ cs_principal st = Some known /\
  (answered_before st now f \/
   holds_lease (po_leases p') now (dv_deviceId (pr_device known)) (rc_connectionId conn) f /\
   forall k1 k2 l1 l2, map_get k1 (lr_leases (po_leases p')) = Some l1 -> map_get k2 (lr_leases (po_leases p')) = Some l2 ->
     le_sessionId l1 = le_sessionId l2 -> le_kind l1 = le_kind l2 -> k1 = k2).
Proof.
  intros Hm E. pose proof (ok_keyed _ _ _ (policy_reachable sha256 isIP hmac localeCompare supportedCapabilities supportedFeatures ops)) as Hk.
  destruct (authorize_command_frame _ _ _ _ _ _ _ Hk E) as (st & known & p1 & pr & st1 & cap & H1 & H2 & H3 & H4 & H5). exists st, known. split; [done|]. split; [done|].
  destruct (authorize_mutation _ _ _ _ _ _ _ _ _ _ Hm H5) as [(cached & A1 & A2 & A3)|Hh]; [left; exists cached; by rewrite <- H4|]. right. rewrite <- H3. split; [done|].
  pose proof (leases_reachable (ops ++ [PAuthorize now id conn (FCommand f) rev])) as Hl. unfold RemotePolicySpec.policy_run in Hl, E. rewrite fold_left_app in Hl.
  cbn [fold_left] in Hl. destruct (fold_left _ ops _) as [p h]. cbn [policy_step fst] in Hl, E. rewrite E in Hl. apply (lk_one _ Hl).
Qed.

(** No kind of lease covers the release or the reclaim of a session. *)
Lemma transfer_uncovered kind command : command ∈ [js "session.release"; js "session.reclaim"] -> mutation command = true /\ commandAllowed kind command = false.
Proof. intros H. repeat (apply elem_of_cons in H as [->|H]; [by destruct kind; vm_compute|]). by apply not_elem_of_nil in H. Qed.
Lemma transfer_refused p now id conn f rev p' : rows_keyed (devices p) -> cf_command f ∈ [js "session.release"; js "session.reclaim"] ->
  authorize p now id conn (FCommand f) rev = (p', Done true) -> exists st, map_get (rc_connectionId conn) (po_states p) = Some st /\ answered_before st now f.
Proof.
  intros Hk Hc E. destruct (authorize_command_frame _ _ _ _ _ _ _ Hk E) as (st & known & p1 & pr & st1 & cap & H1 & H2 & H3 & H4 & H5). exists st. split; [done|].
  destruct (transfer_uncovered Prompt _ Hc) as [Hm _].
  destruct (authorize_mutation _ _ _ _ _ _ _ _ _ _ Hm H5) as [(cached & A1 & A2 & A3)|(x & s & l & _ & _ & _ & _ & _ & _ & Ha & _)]; [exists cached; by rewrite <- H4|].
  destruct (transfer_uncovered (le_kind l) _ Hc) as [_ Hn]. by rewrite Hn in Ha.
Qed.
End Leases.

(** ** Guessing codes *)

Section Guesses.
Context (sha256 : list N -> list N) (hmac : jstr -> list N) (n : jstr).

Inductive GuessOp :=
| GIssue (now : Z) (code : jstr) (allowed : list jstr) (ttlMs : Z) (nodeId : option jstr)
| GConsume (reg : DeviceRegistry) (now : Z) (token : jstr) (salt : list N) (code : jstr) (identity : RemotePeerIdentity) (deviceId : jstr)
    (metadata : DeviceMetadata) (requested : list jstr).

(** An attempt that was neither malformed nor blocked, so that its code was compared. *)
Definition attempted (li : LocalPairing) (now : Z) (code deviceId : jstr) (metadata : DeviceMetadata) : bool :=
  pairing_code code && safe 256 deviceId && safe 256 (md_label metadata) && negb (blocked li (later (lp_lastNow li) now) n).
Definition denied_result {A} (result : attempt A) : bool := match result with Threw e => jstr_eqb e (js "pairing denied") | Done _ => false end.

(** The pairing with the times of the refused attempts of node [n] since it last paired. *)
Definition guess_step (s : LocalPairing * list Z) (op : GuessOp) : LocalPairing * list Z :=
  let (li, times) := s in
  match op with
  | GIssue now code allowed ttl nodeId => (fst (issue_ticket hmac li now code allowed ttl nodeId), times)
  | GConsume reg now token salt code identity d metadata requested =>
      let '(li', _, result) := consume_ticket sha256 hmac li reg now token salt code identity d metadata requested in
      (li', if negb (jstr_eqb (pe_nodeId identity) n) then times
            else match result with
                 | Done _ => []
                 | Threw _ => if attempted li now code d metadata && denied_result result then times ++ [later (lp_lastNow li) now] else times
                 end)
  end.
Definition guess_run (ops : list GuessOp) : LocalPairing * list Z := fold_left guess_step ops (new_pairing, []).

(** The failures kept for the node tell its refused attempts, and from the fifth on each blocks the next for thirty seconds. *)
Definition guesses_ok (s : LocalPairing * list Z) : Prop :=
  match snd s with
  | [] => map_get n (lp_failures (fst s)) = None
  | first :: _ => exists last L, last_of (snd s) = Some last /\ lp_lastNow (fst s) = Some L /\ first <= last <= L /\ 30000 * (len (snd s) - 5) <= last - first /\
      map_get n (lp_failures (fst s)) = Some (mkFailure (len (snd s)) (if 5 <=? len (snd s) then last + 30000 else last))
  end.

(** Nothing happened to the node but time. *)
Lemma guesses_quiet li li' times : guesses_ok (li, times) -> map_get n (lp_failures li') = map_get n (lp_failures li) ->
  (lp_lastNow li' = lp_lastNow li \/ exists now, lp_lastNow li' = Some (later (lp_lastNow li) now)) -> guesses_ok (li', times).
Proof.
  unfold guesses_ok. cbn [fst snd]. destruct times as [|first rest]; [by intros H ->|]. intros (last & L & H1 & H2 & H3 & H4 & H5) -> Hl. exists last.
  destruct Hl as [->|[now ->]]; [by exists L|]. rewrite H2. exists (Z.max L now). split_and!; try done; lia.
Qed.

Lemma guesses_denied li times now code d metadata : guesses_ok (li, times) -> attempted li now code d metadata = true ->
  forall pending, guesses_ok (pair_denied (mkPairing pending (lp_failures li) (Some (later (lp_lastNow li) now))) (later (lp_lastNow li) now) n,
    times ++ [later (lp_lastNow li) now]).
Proof.
  intros Hok Ha pending. set (t := later (lp_lastNow li) now) in *. unfold attempted in Ha. rewrite andb_true_iff, negb_true_iff in Ha. destruct Ha as [_ Hb]. fold t in Hb.
  unfold guesses_ok in *. cbn [fst snd] in *. unfold pair_denied. cbn [lp_failures lp_lastNow lp_pending]. rewrite map_get_set_eq. unfold blocked in Hb.
  destruct times as [|first rest]; cbn [app].
  - rewrite Hok. exists t, t. change (len [t]) with 1. split_and!; first [done|lia].
  - destruct Hok as (last & L & H1 & H2 & H3 & H4 & H5). rewrite H5 in Hb |- *. cbn [pf_count pf_blockedUntil] in *. apply Z.ltb_ge in Hb.
    assert (last <= t) as Ht by (unfold t; rewrite H2; cbn; lia). rewrite app_comm_cons. exists t, t. rewrite last_of_app, len_app. change (len [t]) with 1.
    split_and!; try done; [lia..|]. revert Hb. destruct (Z.leb_spec 5 (len (first :: rest))); lia.
Qed.

Lemma read_row_threw row e : read_row row = Threw e -> jstr_eqb e (js "pairing denied") = false.
Proof. unfold read_row. cbv zeta. repeat (destruct (negb _) || destruct (_ || _)); intros [= <-]; by vm_compute. Qed.
Lemma create_threw r now salt d token r' e : create_device sha256 r now salt d token = (r', Threw e) -> jstr_eqb e (js "pairing denied") = false.
Proof. unfold create_device. cbv zeta. destruct (_ || _); [intros [= _ <-]; by vm_compute|]. destruct (map_has _ _); intros [= _ <-]. by vm_compute. Qed.

Lemma consume_failures li reg now token salt code identity d metadata requested li' r' result :
  consume_ticket sha256 hmac li reg now token salt code identity d metadata requested = (li', r', result) ->
  let t := later (lp_lastNow li) now in
  match result with
  | Done _ => lp_failures li' = map_delete (pe_nodeId identity) (lp_failures li) /\ lp_lastNow li' = Some t
  | Threw e =>
      (exists pending, li' = pair_denied (mkPairing pending (lp_failures li) (Some t)) t (pe_nodeId identity)) /\ e = js "pairing denied" /\
        (pe_nodeId identity = n -> attempted li now code d metadata = true) \/
      lp_failures li' = lp_failures li /\ (lp_lastNow li' = lp_lastNow li \/ lp_lastNow li' = Some t) /\
      (pe_nodeId identity = n -> attempted li now code d metadata && denied_result (Threw (A := unit) e) = false)
  end.
Proof.
  intros E t. unfold consume_ticket in E. cbv zeta in E. fold t in E. destruct (_ || _) eqn:Ev in E.
  { injection E as <- _ <-. right. split; [done|]. split; [by left|]. intros _. unfold attempted. rewrite !orb_true_iff, !negb_true_iff in Ev.
    destruct Ev as [[-> | ->]| ->]; rewrite ?andb_false_r; done. }
  destruct (blocked _ t _) eqn:Eb in E.
  { injection E as <- _ <-. right. split; [done|]. split; [by right|]. intros En. unfold attempted. fold t. rewrite <- En. unfold blocked in *. cbn [lp_failures] in Eb.
    rewrite Eb. by rewrite andb_false_r. }
  assert (pe_nodeId identity = n -> attempted li now code d metadata = true) as Ha.
  { intros En. unfold attempted. fold t. rewrite <- En. unfold blocked in *. cbn [lp_failures] in Eb. rewrite Eb. rewrite !orb_false_iff, !negb_false_iff in Ev.
    destruct Ev as [[-> ->] ->]. done. }
  cbn [lp_pending set_pending lp_failures lp_lastNow] in E. destruct (map_get (hmac code) (lp_pending li)) as [tk|] eqn:Et in E.
  2:{ injection E as <- _ <-. left. split; [by eexists|]. by split. }
  destruct (ticket_refused _ _ _) in E. { injection E as <- _ <-. left. split; [by eexists|]. by split. }
  destruct (len _ =? 0) in E. { injection E as <- _ <-. left. split; [by eexists|]. by split. }
  destruct (get_device reg d) as [[dv|]|e] eqn:Eg in E.
  { injection E as <- _ <-. left. split; [by eexists|]. by split. }
  2:{ injection E as <- _ <-. right. split; [done|]. split; [by right|]. intros _. assert (jstr_eqb e (js "pairing denied") = false) as He.
      { unfold get_device in Eg. destruct (map_get d _) as [row|]; [|done]. destruct (read_row row) eqn:Er; [done|]. injection Eg as <-. by eapply read_row_threw. }
      cbn [denied_result]. by rewrite He, andb_false_r. }
  destruct (create_device _ _ _ _ _ _) as [r1 [[]|e]] eqn:Ec in E; injection E as <- _ <-; [done|]. right. split; [done|]. split; [by right|]. intros _.
  cbn [denied_result]. by rewrite (create_threw _ _ _ _ _ _ _ Ec), andb_false_r.
Qed.

Lemma guess_reachable ops : guesses_ok (guess_run ops).
Proof.
  unfold guess_run. induction ops as [|op ops IH] using rev_ind; [done|]. rewrite fold_left_app. cbn [fold_left]. destruct (fold_left _ ops _) as [li times].
  destruct op as [now code allowed ttl nodeId|reg now token salt code identity d metadata requested]; cbn [guess_step].
  - unfold issue_ticket. destruct (_ || _); cbn [fst]; [done|]. eapply guesses_quiet; [exact IH|done|]. right. by eexists.
  - destruct (consume_ticket _ _ _ _ _ _ _ _ _ _ _ _) as [[li' r'] result] eqn:E. pose proof (consume_failures _ _ _ _ _ _ _ _ _ _ _ _ _ E) as Hf. cbv zeta in Hf.
    destruct (jstr_eqb (pe_nodeId identity) n) eqn:En; cbn [negb].
    + apply jstr_eqb_eq in En. destruct result as [q|e].
      * destruct Hf as [Hf _]. unfold guesses_ok. cbn [fst snd]. rewrite Hf, En. apply map_get_delete_eq.
      * destruct Hf as [([pending ->] & -> & Ha)|(Hf & Hl & Hd)].
        { cbn [denied_result]. rewrite jstr_eqb_refl, (Ha En), En. by eapply guesses_denied, Ha. }
        change (denied_result (Threw e)) with (denied_result (Threw (A := unit) e)). rewrite (Hd En).
        eapply guesses_quiet; [exact IH|by rewrite Hf|]. destruct Hl as [->| ->]; [by left|right; by eexists].
    + apply jstr_eqb_neq in En. destruct result as [q|e].
      * destruct Hf as [Hf Hl]. eapply guesses_quiet; [exact IH|rewrite Hf; by apply map_get_delete_ne|]. right. by eexists.
      * destruct Hf as [([pending ->] & -> & _)|(Hf & Hl & _)].
        { eapply guesses_quiet; [exact IH|cbn [pair_denied lp_failures]; by apply map_get_set_ne|right; by eexists]. }
        eapply guesses_quiet; [exact IH|by rewrite Hf|]. destruct Hl as [->| ->]; [by left|right; by eexists].
Qed.

End Guesses.

(** ** A concrete host *)

Definition hash32 (bytes : list N) : list N := take 32 (bytes ++ repeat 0%N 32).
Definition code_order (a b : jstr) : comparison := if jstr_lt a b then Lt else if jstr_lt b a then Gt else Eq.
Definition laptop : RemoteConnection := mkConnection (js "c1") (mkConnPeer (js "node") None None [js "100.64.0.1"]).
Definition laptop_token : jstr := repeat 0x41%N 43.
Definition sample_run : list PolicyOp -> RemotePolicy * History :=
  policy_run hash32 (fun _ => 4) (fun code => code) code_order DEVICE_CAPABILITIES [js "controller.lease"].
Definition command_frame (id command : string) (session revision : option jstr) (args : list (jstr * jv)) : CommandFrame :=
  mkCommand (js "r") (js id) (js command) (js "host") session revision None args.

(** A laptop pairs for reading and controlling sessions, signs in again and takes a lease. *)
Definition laptop_pairs : list PolicyOp :=
  [PIssue 0 (js "123456") [js "sessions.read"; js "sessions.control"; js "sessions.prompt"] 120000 None;
   PHello 1 laptop (mkHello None None []);
   PPair 2 laptop_token (repeat 7%N 16) laptop (mkPairStart (js "123456") (js "d") (js "Laptop") (js "linux") [js "sessions.read"; js "sessions.control"; js "sessions.prompt"]);
   POutbound laptop].
Definition laptop_leases : list PolicyOp :=
  laptop_pairs ++
  [PHello 3 laptop (mkHello (Some (js "d", laptop_token)) None [js "controller.lease"]);
   PAuthorize 4 (js "lease1") laptop (FCommand (command_frame "1" "controller.lease.acquire" (Some (js "s")) (Some (js "v1")) [])) (Some (js "v1"))].

Lemma authorized_frames_traced_witness : exists p',
  authorize code_order (fst (sample_run laptop_pairs)) 5 (js "x") laptop (FCommand (command_frame "2" "session.list" None None [])) None = (p', Done true) /\
  exists t, h_tickets (snd (sample_run laptop_pairs)) !! 0%nat = Some t /\ js "sessions.read" ∈ it_allowed t.
Proof.
  eexists. split; [by vm_compute|].
  destruct (authorized_frames_traced hash32 (fun _ => 4) (fun code => code) code_order DEVICE_CAPABILITIES [js "controller.lease"] laptop_pairs 5 (js "x") laptop
    (FCommand (command_frame "2" "session.list" None None [])) None _ ltac:(done) ltac:(by vm_compute)) as (_ & sg & identity & row & pd & t & _ & _ & Hpd & _ & _ & Ht & _ & Hc).
  exists t. split; [|apply Hc; by vm_compute]. rewrite <- Ht. f_equal. apply list_elem_of_In in Hpd. vm_compute in Hpd. by destruct Hpd as [<-|[]].
Defined.

Lemma mutations_hold_lease_witness : exists p',
  authorize code_order (fst (sample_run laptop_leases)) 5 (js "x") laptop
    (FCommand (command_frame "2" "session.prompt" (Some (js "s")) (Some (js "v1")) [(js "leaseId", JStr (js "lease1"))])) None = (p', Done true) /\
  holds_lease (po_leases p') 5 (js "d") (js "c1")
    (command_frame "2" "session.prompt" (Some (js "s")) (Some (js "v1")) [(js "leaseId", JStr (js "lease1"))]).
Proof.
  eexists. split; [by vm_compute|].
  destruct (mutations_hold_lease hash32 (fun _ => 4) (fun code => code) code_order DEVICE_CAPABILITIES [js "controller.lease"] laptop_leases 5 (js "x") laptop
    (command_frame "2" "session.prompt" (Some (js "s")) (Some (js "v1")) [(js "leaseId", JStr (js "lease1"))]) None _ ltac:(by vm_compute) ltac:(by vm_compute))
    as (st & known & Hst & Hk & H). vm_compute in Hst. injection Hst as <-. vm_compute in Hk. injection Hk as <-. destruct H as [(cached & Hc & _)|[H _]]; [|exact H].
  exfalso. vm_compute in Hc. done.
Defined.

Definition wrong_guess (now : Z) : GuessOp :=
  GConsume (mkRegistry [] [] None) now laptop_token [] (js "000000") (mkPeer (js "node") (js "u") (js "h") (js "100.64.0.1")) (js "d") (mkMetadata (js "Laptop") None)
    [js "sessions.read"].

(** A device paired for releasing sessions, with a lease on the session, is refused the release. *)
Definition releasing : list PolicyOp :=
  [PIssue 0 (js "123456") [js "sessions.manage"; js "sessions.control"] 120000 None; PHello 1 laptop (mkHello None None []);
   PPair 2 laptop_token (repeat 7%N 16) laptop (mkPairStart (js "123456") (js "d") (js "Laptop") (js "linux") [js "sessions.manage"; js "sessions.control"]);
   POutbound laptop; PHello 3 laptop (mkHello (Some (js "d", laptop_token)) None [js "controller.lease"; js "session.transfer"]);
   PAuthorize 4 (js "lease1") laptop (FCommand (command_frame "1" "controller.lease.acquire" (Some (js "s")) (Some (js "v1")) [])) (Some (js "v1"))].
Example session_release_refused :
  let p := fst (policy_run hash32 (fun _ => 4) (fun code => code) code_order DEVICE_CAPABILITIES [js "controller.lease"; js "session.transfer"] releasing) in
  let lease := [(js "leaseId", JStr (js "lease1"))] in
  snd (authorize code_order p 5 (js "x") laptop (FCommand (command_frame "2" "session.close" (Some (js "s")) (Some (js "v1")) lease)) None) = Done true /\
  snd (authorize code_order p 5 (js "x") laptop (FCommand (command_frame "2" "session.release" (Some (js "s")) (Some (js "v1")) lease)) None) = Done false.
Proof. by vm_compute. Qed.

(** A peer whose identity prints to more than 256 characters can pair, but its row cannot be read, and no device can be listed any more. *)
Definition long_peer : RemoteConnection := mkConnection (js "c2") (mkConnPeer (js "node2") (Some (repeat 0x68%N 150)) (Some (repeat 0x75%N 100)) [js "100.64.0.2"]).
Example long_identity_breaks_listing :
  let ops := laptop_pairs ++
    [PIssue 10 (js "654321") [js "sessions.read"] 120000 None; PHello 11 long_peer (mkHello None None []);
     PPair 12 laptop_token (repeat 7%N 16) long_peer (mkPairStart (js "654321") (js "e") (js "Desktop") (js "linux") [js "sessions.read"])] in
  (exists found : list DeviceRecord, list_devices (po_registry (fst (sample_run laptop_pairs))) = Done found) /\
  list_devices (po_registry (fst (sample_run ops))) = Threw (js "invalid persisted row").
Proof. vm_compute. split; [by eexists|done]. Qed.

(** Revoking a device signs out a device whose identifier ends with a colon and the revoked one. *)
Example revocation_reaches_suffixes :
  let ops := [PIssue 0 (js "123456") [js "sessions.read"] 120000 None; PHello 1 laptop (mkHello None None []);
              PPair 2 laptop_token (repeat 7%N 16) laptop (mkPairStart (js "123456") (js "a:b") (js "Laptop") (js "linux") [js "sessions.read"]); POutbound laptop] in
  let list_sessions p := snd (authorize code_order p 5 (js "x") laptop (FCommand (command_frame "2" "session.list" None None [])) None) in
  list_sessions (fst (sample_run ops)) = Done true /\ list_sessions (fst (sample_run (ops ++ [PRevoke 4 (js "b")]))) = Done false.
Proof. by vm_compute. Qed.
