(* ===== verification/RemoteOutbound.v ===== *)
(** * RemoteOutbound: frames to remote connections are stripped of secrets and paths
    ([packages/host-service/src/remote/policy.ts], [sanitizeRemoteFrame])

    Keys are compared after Unicode normalisation, lower-casing and the removal of everything but
    letters and digits, which is the engine's: the parameter [normalized]. *)
From stdpp Require Import base tactics option list numbers strings sets.
From S2P Require Import Prelude JsMap JsString JsValue Wire WireGuards Retention HostProjection DeviceRegistry RemotePolicy.

(** ** What is stripped *)

(** [Math.ceil(bytes / 3) * 4] *)
Definition base64_bytes (bytes : Z) : Z := (bytes + 2) / 3 * 4.
Definition TRANSCRIPT_IMAGE_CHUNK_BYTES : Z := 256 * 1024.
Definition ARTIFACT_CHUNK_BYTES : Z := 256 * 1024.
Definition PREVIEW_CAPTURE_CHUNK_BYTES : Z := 256 * 1024.

(** [[A-Za-z0-9_-]+\.[A-Za-z0-9_-]+\.[A-Za-z0-9_-]+] on the whole string *)
Definition three_segments (s : jstr) : bool :=
  match split_on 0x2E s with
  | [a; b; c] => forallb (fun part => negb (bool_decide (part = [])) && forallb base64url_char part) [a; b; c]
  | _ => false
  end.
Fixpoint drop_while (P : N -> bool) (s : jstr) : jstr := match s with c :: rest => if P c then drop_while P rest else s | [] => [] end.
(** ... after an optional word and white space *)
Definition token_like (s : jstr) : bool :=
  three_segments s ||
  let rest := drop_while is_letter s in
  let body := drop_while is_space rest in
  (len rest <? len s) && (len body <? len rest) && three_segments body.
(** [/^Bearer\s+/i] *)
Definition bearer_like (s : jstr) : bool := starts_with (js "bearer") (map ascii_lower s) && match drop 6 s with c :: _ => is_space c | [] => false end.
Definition path_like (s : jstr) : bool :=
  starts_with (js "/") s || starts_with [0x5C; 0x5C]%N s || match s with c :: colon :: slash :: _ => is_letter c && (colon =? 0x3A)%N && ((slash =? 0x5C)%N || (slash =? 0x2F)%N) | _ => false end.

Definition secret_markers : list jstr :=
  [js "password"; js "passwd"; js "secret"; js "token"; js "credential"; js "apikey"; js "privatekey"; js "cookie"; js "auth"; js "sessionkey"].
Definition REDACTED : jstr := js "[redacted]".
Definition PATH_REDACTED : jstr := js "[relative-path-redacted]".

Definition largeContentLimit (frame : list (jstr * jv)) : option Z :=
  match prop (js "type") frame, prop (js "command") frame with
  | JStr kind, JStr command =>
      if negb (jstr_eqb kind (js "response")) then None
      else if jstr_eqb command (js "files.read") then Some (base64_bytes MAX_FILE_BYTES)
      else if jstr_eqb command (js "session.image.read") then Some (base64_bytes TRANSCRIPT_IMAGE_CHUNK_BYTES)
      else if jstr_eqb command (js "artifact.read") then Some (base64_bytes ARTIFACT_CHUNK_BYTES)
      else if jstr_eqb command (js "preview.capture.read") then Some (base64_bytes PREVIEW_CAPTURE_CHUNK_BYTES)
      else None
  | _, _ => None
  end.

Section Sanitize.
Context (normalized : jstr -> jstr).

Definition isSecretLikeKey (key : jstr) : bool := existsb (fun marker => contains marker (normalized key)) secret_markers.
Definition secret_key (key : jstr) : bool := jstr_eqb key (js "deviceToken") || isSecretLikeKey key.

(** The two properties that are sent as they are. *)
Definition exempt (frame : list (jstr * jv)) (depth : nat) (key : jstr) : bool :=
  match depth, prop (js "type") frame with
  | O, JStr kind => jstr_eqb kind (js "welcome") && jstr_eqb key (js "authentication") || jstr_eqb kind (js "response") && jstr_eqb key (js "command")
  | _, _ => false
  end.
Definition settings_child (frame : list (jstr * jv)) (depth : nat) (key : jstr) : bool :=
  match depth, prop (js "type") frame, prop (js "command") frame with
  | 1%nat, JStr kind, JStr command => jstr_eqb kind (js "response") && jstr_eqb command (js "settings.read") && jstr_eqb key (js "settings")
  | _, _, _ => false
  end.
Definition large_child (frame : list (jstr * jv)) (depth : nat) (key : jstr) : bool :=
  match depth, largeContentLimit frame with
  | 1%nat, Some _ => jstr_eqb key (js "content") || jstr_eqb key (js "data")
  | _, _ => false
  end.
Definition string_limit (frame : list (jstr * jv)) (largeContent : bool) : Z :=
  match largeContent, largeContentLimit frame with true, Some limit => limit | _, _ => 65536 end.

Definition walk_string (frame : list (jstr * jv)) (largeContent : bool) (s : jstr) : option jstr :=
  if string_limit frame largeContent <? len s then None
  else if largeContent then Some s
  else if token_like s || bearer_like s then Some REDACTED
  else if path_like s then Some PATH_REDACTED
  else Some s.

(** [walk]: [None] when it throws. *)
Fixpoint walk (frame : list (jstr * jv)) (depth : nat) (settingsMap largeContent : bool) (value : jv) : option jv :=
  if Nat.ltb 12 depth then None
  else match value with
       | JStr s => match walk_string frame largeContent s with Some s => Some (JStr s) | None => None end
       | JArr items =>
           if MAX_ARRAY_ITEMS <? len items then None
           else match (fix go (l : list jv) : option (list jv) :=
                         match l with
                         | [] => Some []
                         | x :: rest => match walk frame (S depth) false false x with
                                        | Some y => match go rest with Some r => Some (y :: r) | None => None end
                                        | None => None
                                        end
                         end) items with Some l => Some (JArr l) | None => None end
       | JObj props =>
           if MAX_MAP_KEYS <? len props then None
           else match (fix go (l : list (jstr * jv)) : option (list (jstr * jv)) :=
                         match l with
                         | [] => Some []
                         | (key, child) :: rest =>
                             match (if exempt frame depth key then Some child
                                    else if negb settingsMap && secret_key key then Some (JStr REDACTED)
                                    else walk frame (S depth) (settings_child frame depth key) (large_child frame depth key) child) with
                             | Some y => match go rest with Some r => Some ((key, y) :: r) | None => None end
                             | None => None
                             end
                         end) props with Some l => Some (JObj l) | None => None end
       | _ => Some value
       end.

(** [sanitizeRemoteFrame] of a frame, which is an object *)
Definition sanitizeRemoteFrame (frame : list (jstr * jv)) : option (list (jstr * jv)) :=
  match walk frame 0 false false (JObj frame) with Some (JObj out) => Some out | _ => None end.

(** [transformOutbound] *)
Definition transformOutbound (p : RemotePolicy) (conn : RemoteConnection) (frame : list (jstr * jv)) : RemotePolicy * option (list (jstr * jv)) :=
  match map_get (rc_connectionId conn) (po_states p) with
  | None => (p, None)
  | Some st =>
      if cs_closeIssued st then (p, None)
      else if jstr_eqb (match prop (js "type") frame with JStr kind => kind | _ => [] end) (js "pair.ok") then
        let (p, sent) := outbound_pair_ok p conn in (p, if sent then Some frame else None)
      else (p, sanitizeRemoteFrame frame)
  end.

(** ** What the other side sees *)

Definition plain_string (s : jstr) : bool := negb (token_like s) && negb (bearer_like s) && negb (path_like s).

(** A value in which no string is a token or a path and no secret property has content, except in the places meant for them. *)
Fixpoint clean (frame : list (jstr * jv)) (depth : nat) (settingsMap largeContent : bool) (value : jv) : bool :=
  Nat.leb depth 12 &&
  match value with
  | JStr s => (len s <=? Z.max 65536 (string_limit frame largeContent)) && (largeContent || plain_string s)
  | JArr items => (len items <=? MAX_ARRAY_ITEMS) && forallb (clean frame (S depth) false false) items
  | JObj props =>
      (len props <=? MAX_MAP_KEYS) &&
      forallb (fun kv => exempt frame depth (fst kv) ||
                 (if negb settingsMap && secret_key (fst kv) then match snd kv with JStr s => jstr_eqb s REDACTED | _ => false end
                  else clean frame (S depth) (settings_child frame depth (fst kv)) (large_child frame depth (fst kv)) (snd kv))) props
  | _ => true
  end.

(** The same value up to replaced strings and secret properties. *)
Fixpoint redacts (v v' : jv) : Prop :=
  match v, v' with
  | JStr s, JStr s' => s' = s \/ s' = REDACTED \/ s' = PATH_REDACTED
  | JArr l, JArr l' => (fix go l l' := match l, l' with [] , [] => True | x :: l, y :: l' => redacts x y /\ go l l' | _, _ => False end) l l'
  | JObj l, JObj l' =>
      (fix go (l l' : list (jstr * jv)) := match l, l' with
                       | [], [] => True
                       | (k, x) :: l, (k', y) :: l' => k' = k /\ (redacts x y \/ secret_key k = true /\ y = JStr REDACTED) /\ go l l'
                       | _, _ => False
                       end) l l'
  | JStr _, _ | JArr _, _ | JObj _, _ => False
  | _, _ => v' = v
  end.

Lemma walk_string_spec frame lc s s' : walk_string frame lc s = Some s' ->
  (len s' <= Z.max 65536 (string_limit frame lc)) /\ (lc || plain_string s' = true) /\ (s' = s \/ s' = REDACTED \/ s' = PATH_REDACTED).
Proof.
  unfold walk_string. destruct (Z.ltb_spec (string_limit frame lc) (len s)); [done|]. destruct lc; [intros [= <-]; split; [lia|split; [done|by left]]|].
  destruct (_ || _) eqn:E1; [intros [= <-]; split; [change (len REDACTED) with 10; lia|split; [by vm_compute|by right; left]]|].
  destruct (path_like s) eqn:E2; intros [= <-]; [split; [change (len PATH_REDACTED) with 24; lia|split; [by vm_compute|by right; right]]|].
  split; [lia|]. split; [|by left]. unfold plain_string. rewrite orb_false_iff in E1. destruct E1 as [-> ->]. by rewrite E2.
Qed.

Lemma redacts_refl v : redacts v v.
Proof.
  induction v as [| |b|n|s|items IH|props IH] using jv_ind'; try done; [by left|..]; cbn [redacts].
  - induction IH as [|x l Hx _ IHl]; [done|]. by split.
  - induction IH as [|[k x] l Hx _ IHl]; [done|]. split; [done|]. split; [by left|done].
Qed.

Lemma walk_clean frame v : forall depth sm lc v', walk frame depth sm lc v = Some v' -> clean frame depth sm lc v' = true /\ redacts v v'.
Proof.
  induction v as [| |b|n|s|items IH|props IH] using jv_ind'; intros depth sm lc v'; cbn [walk];
    (destruct (Nat.ltb_spec 12 depth) as [|Hd]; [done|]; apply Nat.leb_le in Hd).
  1-4: intros [= <-]; cbn [clean redacts]; by rewrite Hd.
  - destruct (walk_string frame lc s) as [s'|] eqn:E; [|done]. intros [= <-]. destruct (walk_string_spec _ _ _ _ E) as (H1 & H2 & H3). cbn [clean redacts].
    rewrite Hd, H2. apply Z.leb_le in H1. by rewrite H1.
  - destruct (Z.ltb_spec MAX_ARRAY_ITEMS (len items)) as [|Hl]; [done|]. match goal with |- match ?f items with _ => _ end = _ -> _ => set (go := f) end.
    destruct (go items) as [l|] eqn:Eg; [|done]. intros [= <-].
    assert (forall l0 l', Forall (fun x => forall depth sm lc v', walk frame depth sm lc x = Some v' -> clean frame depth sm lc v' = true /\ redacts x v') l0 -> go l0 = Some l' ->
      len l' = len l0 /\ forallb (clean frame (S depth) false false) l' = true /\ redacts (JArr l0) (JArr l')) as Hgo.
    { induction l0 as [|x l0 IHl]; intros l' HF; cbn [go]; [by intros [= <-]|]. apply Forall_cons in HF as [Hx HF].
      destruct (walk frame (S depth) false false x) as [y|] eqn:Ex; [|done]. destruct (go l0) as [r|] eqn:Er; [|done]. intros [= <-].
      destruct (IHl r HF eq_refl) as (L & C & R). destruct (Hx _ _ _ _ Ex) as [Cx Rx]. rewrite !len_cons, L. cbn [forallb]. by rewrite Cx, C. }
    destruct (Hgo items l IH Eg) as (L & C & R). split; [|done]. cbn [clean]. rewrite Hd, C, L. apply Z.leb_le in Hl. by rewrite Hl.
  - destruct (Z.ltb_spec MAX_MAP_KEYS (len props)) as [|Hl]; [done|]. match goal with |- match ?f props with _ => _ end = _ -> _ => set (go := f) end.
    destruct (go props) as [l|] eqn:Eg; [|done]. intros [= <-].
    set (P := fun kv : jstr * jv => exempt frame depth (fst kv) || (if negb sm && secret_key (fst kv) then match snd kv with JStr s => jstr_eqb s REDACTED | _ => false end
                  else clean frame (S depth) (settings_child frame depth (fst kv)) (large_child frame depth (fst kv)) (snd kv))).
    assert (forall l0 l', Forall (fun kv => forall depth sm lc v', walk frame depth sm lc (snd kv) = Some v' -> clean frame depth sm lc v' = true /\ redacts (snd kv) v') l0 ->
      go l0 = Some l' -> len l' = len l0 /\ forallb P l' = true /\ redacts (JObj l0) (JObj l')) as Hgo.
    { induction l0 as [|[k x] l0 IHl]; intros l' HF; cbn [go]; [by intros [= <-]|]. apply Forall_cons in HF as [Hx HF]. cbn [snd] in Hx.
      destruct (if exempt frame depth k then _ else _) as [y|] eqn:Ey; [|done]. destruct (go l0) as [r|] eqn:Er; [|done]. intros [= <-].
      destruct (IHl r HF eq_refl) as (L & C & R). rewrite !len_cons, L. cbn [forallb]. rewrite C.
      assert (P (k, y) = true /\ (redacts x y \/ secret_key k = true /\ y = JStr REDACTED)) as [HP HR]; [|by rewrite HP].
      unfold P. cbn [fst snd]. destruct (exempt frame depth k); [injection Ey as <-; split; [done|left; apply redacts_refl]|].
      destruct (negb sm && secret_key k) eqn:Es.
      - injection Ey as <-. rewrite jstr_eqb_refl. split; [done|]. right. apply andb_true_iff in Es. by destruct Es.
      - destruct (Hx _ _ _ _ Ey) as [Cx Rx]. rewrite Cx. split; [done|by left]. }
    destruct (Hgo props l IH Eg) as (L & C & R). split; [|done]. cbn [clean]. fold P. rewrite Hd, C, L. apply Z.leb_le in Hl. by rewrite Hl.
Qed.

(** C15: a frame sent to a remote connection is one of two things.  The frame that answers a pairing with the device's token goes out unchanged,
    only on a connection that has just paired, and once.  Any other frame goes out with no string that looks like a token or an absolute
    path and no property with a secret name that has content, in bounded depth, width and length, except the place of the sign-in state
    and of the command name and the contents of files that were asked for; and it differs from the host's frame in those strings only. *)
Theorem outbound_frames_clean p conn frame p' out : transformOutbound p conn frame = (p', Some out) ->
  (prop (js "type") frame = JStr (js "pair.ok") /\ out = frame /\
   (exists st, map_get (rc_connectionId conn) (po_states p) = Some st /\ cs_justPaired st = true) /\
   (exists st, map_get (rc_connectionId conn) (po_states p') = Some st /\ cs_justPaired st = false)) \/
  (p' = p /\ clean frame 0 false false (JObj out) = true /\ redacts (JObj frame) (JObj out)).
Proof.
  unfold transformOutbound. destruct (map_get _ (po_states p)) as [st|] eqn:Est; [|done]. destruct (cs_closeIssued st) eqn:Ec; [done|]. destruct (jstr_eqb _ _) eqn:Et.
  - unfold outbound_pair_ok. rewrite Est, Ec. cbn [orb]. destruct (cs_justPaired st) eqn:Ej; cbn [negb]; [|done]. intros [= <- <-]. left.
    apply jstr_eqb_eq in Et. split_and!; [by destruct (prop (js "type") frame); simplify_eq|done|by exists st|]. cbn [set_state po_states]. rewrite map_get_set_eq. by eexists.
  - intros [= <- E]. right. split; [done|]. unfold sanitizeRemoteFrame in E. destruct (walk _ _ _ _ _) as [v|] eqn:Ew; [|done]. destruct v; try done. injection E as <-.
    by apply walk_clean in Ew.
Qed.
End Sanitize.

(** A settings response: the path goes, the name of the setting with "token" in it stays. *)
Definition settings_frame (directory : jstr) : list (jstr * jv) :=
  [(js "type", JStr (js "response")); (js "command", JStr (js "settings.read"));
   (js "result", JObj [(js "settings", JObj [(js "auth.token", JObj [(js "effective", JStr directory)])]); (js "apiKey", JStr (js "k"))])].
Definition paired_policy : RemotePolicy := mkPolicy (mkRegistry [] [] None) (RemoteLeases.new_pairing) (RemoteLeases.new_leases) [(js "c", fresh_state)].
Definition lower_key (key : jstr) : jstr := List.filter (fun u => is_letter u || is_digit u) (map ascii_lower key).

Lemma outbound_frames_clean_witness :
  let conn := mkConnection (js "c") (mkConnPeer (js "n") None None []) in
  let out := [(js "type", JStr (js "response")); (js "command", JStr (js "settings.read"));
     (js "result", JObj [(js "settings", JObj [(js "auth.token", JObj [(js "effective", JStr PATH_REDACTED)])]); (js "apiKey", JStr REDACTED)])] in
  transformOutbound lower_key paired_policy conn (settings_frame (js "/home/u")) = (paired_policy, Some out) /\
  clean lower_key (settings_frame (js "/home/u")) 0 false false (JObj out) = true.
Proof.
  intros conn out. split; [by vm_compute|].
  destruct (outbound_frames_clean lower_key paired_policy conn (settings_frame (js "/home/u")) paired_policy out ltac:(by vm_compute)) as [[H _]|(_ & H & _)]; [by vm_compute in H|exact H].
Defined.

(** Version numbers and file names with two dots are taken for tokens. *)
Example versions_redacted : walk_string [] false (js "17.0.5") = Some REDACTED /\ walk_string [] false (js "vite.config.ts") = Some REDACTED.
Proof. by vm_compute. Qed.
